(* ===== verification/_CoqProject ===== *)
-Q . S2P
Prelude.v
Status.v
Version.v
Memory.v
Allocator.v
Vector.v
Arena.v
Pool.v
StrView.v
StringBuilder.v
Hash.v
HashSlots.v
HashMap.v
LinkedList.v
RingBuffer.v
AtomicQueue.v
Mutex.v
MutexWin32.v
Counter.v
Win32.v
Semaphore.v
SemaphoreWin32.v
ThreadPool.v
PoolSemaphore.v
PoolSemaphoreWin32.v
Parse.v
Records.v
Path.v
Clock.v
Uuid.v
ErrorContext.v
File.v
Log.v
NamedSemaphore.v
NamedSemaphoreWin32.v
