(* ===== verification/Prelude.v ===== *)
(** * d4np-c: a verification development

    d4np-c is a C11 utility library: status codes and allocators, memory
    arenas and pools, containers, string helpers, whole-file I/O, a logger,
    UUIDs, and concurrency primitives (src/d4np).  This development models its
    implementation and proves what makes each part correct.

    ** The parts and how they fit together

    - core (core/d4np_status, core/d4np_allocator): every fallible function
      returns a [d4np_status]; every container takes an allocator vtable, the
      default one being [malloc], [realloc] and [free].
    - mem (arena, pool) and ds (vector, string builder, hash map, ring buffer)
      own blocks they get from an allocator; the intrusive list links nodes of
      its caller.
    - str (string views, number parsing) reads byte ranges it does not own; the
      string builder appends views and shows its text as one.
    - sys (hash, clock, UUIDs, error context, log) and io (paths, files) stand
      on the C library and the system; UUIDs are seeded from the clock, the log
      uses the clock and a mutex.
    - concurrency (mutex, semaphore, named semaphore, atomic queue, thread
      pool): the semaphore and the log run on the mutex, the thread pool on the
      mutex, the semaphore and the allocator.

    ** Files

    - [Prelude] (this file): [size_t] arithmetic with its wrap-around, powers of
      two and masks, regions of lists, sums, little-endian bytes, tactics.
    - [Status], [Version], [Memory], [Allocator]: core/d4np_status, core/version,
      the C memory, and core/d4np_allocator.  Memory is blocks of byte cells (indeterminate, a
      byte, or a part of a pointer) with addresses; a computation [M] has no
      result when it is undefined (an access out of bounds, to a freed block or
      through [NULL], a failed assertion, a division by zero), and [wp] states
      that it is defined and what it leaves.  [AllocatorOk] is the contract of
      an allocator; the containers are proved against it and
      [default_allocator_ok] discharges it.
    - [Vector], [Arena], [Pool], [StringBuilder], [HashSlots] with [HashMap],
      [LinkedList], [RingBuffer], [AtomicQueue]: ds, mem and the queue, one
      module each, one definition per C function under its C name.
    - [StrView], [Parse], [Hash], [Path], [Clock], [Uuid], [ErrorContext],
      [File]: str, sys and io.  [Records] puts the string builder, the views and
      the parser together.
    - [Mutex], [Semaphore], [NamedSemaphore], [ThreadPool], [Log]: threads, as
      step relations over a list of program counters; the steps lie between the
      calls of the platform and the accesses to shared variables.  [Mutex] has
      the lemmas on mutual exclusion that its clients share.  [ThreadPool] counts
      the permits of its semaphore in one step; [PoolSemaphore] composes it with
      the steps of [Semaphore], [PoolSemaphoreWin32] with the calls of
      [SemaphoreWin32], and both show that the pool does not see the difference.
    - [MutexWin32], [SemaphoreWin32], [NamedSemaphoreWin32]: the Windows branches
      of the same files, over the kernel objects of [Win32].  [Counter] is the
      atomic counter both semaphores refine and the class [CountingSemaphore] of
      what they promise; its two instances are in [SemaphoreWin32].  In [Path]
      and [ThreadPool] the platform is a parameter.

    A structure of the source is a record with the same members, an enumeration
    an inductive type.  A pointer to a structure is an [option], [None] being
    [NULL], and an operation returns the structure as it leaves it;
    out-parameters are results, except where the bytes they point to matter.

    ** What the theorems show

    - Containers ([*_program_refines], [pool_program_safe]): any sequence of
      operations on a freshly initialised container is free of undefined
      behaviour and observes what a finite map, a list, a queue or a byte string
      gives, through growth, failed allocations and tombstones; where there is a
      destructor it gives the memory back.  The slots of a pool are distinct,
      aligned and never handed out twice.  [hashmap_wellformed] is the
      representation invariant of the hash map in terms of its memory.  The
      [*_exact] theorems give every outcome of one operation, errors included.
    - Two threads on the ring buffer and the atomic queue ([*_spsc_*]): no race,
      no access to a freed node, elements in order, for every interleaving and
      every stale value an acquire load may return, also when the element taken
      is not asked for.
    - The semaphore refines an atomic counter and loses no wake-up, and on both
      platforms hands out exactly its permits ([sem_permits_exact]); the mutex
      does the same on both ([mutex_platforms_agree]); the thread pool dispatches
      every task once, in order, shuts down gracefully with its handles freed,
      never gets stuck and terminates, also over the real semaphore of either platform
      ([pool_sem_refines], [pool_sem_quiescent], [pool_sem_terminates]); the
      log refines a logger with atomic operations and writes whole lines, and a
      thread in it moves on or waits for one that does; permits of named
      semaphores are conserved, and they live as long as their name or a handle,
      so that opening, unlinking and closing one leaves nothing ([nsem_*]).
      [pool_prepare_all_or_nothing] goes through every failure of the first part
      of [d4np_thread_pool_init] and what it has released by then.
    - Text: splitting and joining, integer parsing against a grammar and a
      printer, records of integers through text and back ([record_roundtrip]),
      path joining and its associativity, UUID text; hashing; the generator's
      period; the exact nanoseconds and milliseconds of a clock reading.
    - Files: reading returns exactly the bytes of the file and closes the
      stream on every path; replacing a file is
      atomic for readers and for crashes; what was written is read back.
    - Some theorems show where the code does not do what its documentation says
      ([vector_push_own_element_faults], [hashmap_key_size_wraps],
      [arena_overalign_unaligned], [str_split_null_view],
      [pool_submit_destroy_race], [file_read_free_mismatch],
      [log_init_failure_undefined], [mutex_owner_trylock_diverges]).

    ** Assumptions

    - LP64: [size_t] and pointers have 64 bits, [max_align_t] is aligned to 16;
      the C locale; a [double] is an IEEE number.  Builds with assertions: a
      false assertion is undefined.  An array of a function or of static storage
      is a list of cells, and a store outside it is undefined ([array_set]).
    - The C library's allocator may fail at any call, gives aligned addresses
      and no object larger than [PTRDIFF_MAX] ([Libc]); block identities are
      never reused, so every use of freed memory is seen.
    - [strtod] (its value, the bytes it reads and the [errno] it sets),
      user-supplied hash and comparison functions, and what
      [vfprintf] prints are parameters. The pthread functions (mutexes,
      condition variables, threads), critical sections and kernel objects of Windows, the system's semaphores and
      clocks, stdio and the file system are modelled by their documented
      behaviour; whether a name or a thread can be created is up to the
      system. In [File] the outcome of every call, the bytes that reach the
      file early and what a crash leaves of unsynced data are arbitrary;
      names are byte strings, without symbolic links.
    - [PoolSemaphore], [PoolSemaphoreWin32]: no more tasks are accepted than the
      counter of the semaphore can hold together with one permit per worker
      ([posts_fit]).
    - [Semaphore], [ThreadPool], [Log]: steps interleave.  Plain variables are
      accessed under the lock, or ordered by the release and acquire of the
      log's guard.  Only the two lock-free queues have stale loads.  The theorem
      on the log assumes that its mutex can be initialised.

    ** Fuel

    Loops over a range recurse on the bytes or slots that are left.  The others
    have fuel: 65 rounds for the doubling of a capacity (64 doublings leave the
    64-bit range), the number of nodes in memory for the destruction of the
    atomic queue, the length of the stream for reading a file (each round but
    the last consumes an item), the bytes of the view for splitting, 64 digits
    for printing.  Running out of fuel is undefined behaviour in the model, so
    the theorems that a computation is defined show that it is enough.

    ** Not modelled

    The Windows branches of io/file.c ([_commit] and [MoveFileExA] in the place
    of [fsync] and [rename]), whose replacement of a file is not documented to be
    atomic.  The prefixes of names in the object manager of Windows.  The
    umbrella header, which only includes the others, and the static assertions on
    the size of opaque storage.  Threads other than the two
    sides on the lock-free queues, which the headers exclude. *)

From stdpp Require Export base decidable option list numbers gmap strings.

(** ** Machine integers

    [size_t] and [uint64_t] are 64 bits wide on the supported platforms; the
    unsigned operators of C wrap modulo [2 ^ 64]. *)

Declare Scope size_scope.
Delimit Scope size_scope with size.

Local Open Scope Z_scope.

Definition SIZE_MOD : Z := 2 ^ 64.
Definition SIZE_MAX : Z := 2 ^ 64 - 1.
Definition PTRDIFF_MAX : Z := 2 ^ 63 - 1.

(** [sizeof] of a pointer and the alignment of the widest scalar. *)
Definition PTR_SIZE : Z := 8.
Definition MAX_ALIGN : Z := 16.

Definition wrap (z : Z) : Z := z mod SIZE_MOD.

Definition size_add (a b : Z) : Z := wrap (a + b).
Definition size_sub (a b : Z) : Z := wrap (a - b).
Definition size_mul (a b : Z) : Z := wrap (a * b).
Definition size_not (a : Z) : Z := wrap (Z.lnot a).

Infix "⊞" := size_add (at level 50, left associativity) : size_scope.
Infix "⊟" := size_sub (at level 50, left associativity) : size_scope.
Infix "⊠" := size_mul (at level 40, left associativity) : size_scope.
Open Scope size_scope.

(** The values a [size_t] can take. *)
Definition is_size (z : Z) : Prop := 0 <= z <= SIZE_MAX.

(** Unfolds the width constants everywhere, for [lia]. *)
Ltac unfold_size :=
  unfold is_size, SIZE_MAX, PTRDIFF_MAX, SIZE_MOD, PTR_SIZE, MAX_ALIGN in *.

Ltac size_lia :=
  unfold_size; change (2 ^ 64) with 18446744073709551616 in *;
  change (2 ^ 63) with 9223372036854775808 in *; lia.

Ltac size_nia :=
  unfold_size; change (2 ^ 64) with 18446744073709551616 in *;
  change (2 ^ 63) with 9223372036854775808 in *; nia.

Lemma wrap_bound z : 0 <= wrap z < SIZE_MOD.
Proof. apply Z.mod_pos_bound. size_lia. Qed.

Lemma wrap_size z : is_size (wrap z).
Proof. pose proof (wrap_bound z). size_lia. Qed.

Lemma wrap_small z : is_size z -> wrap z = z.
Proof. intros. apply Z.mod_small. size_lia. Qed.

Lemma size_add_small a b : is_size (a + b) -> a ⊞ b = a + b.
Proof. apply wrap_small. Qed.

Lemma size_sub_small a b : is_size (a - b) -> a ⊟ b = a - b.
Proof. apply wrap_small. Qed.

Lemma size_mul_small a b : is_size (a * b) -> a ⊠ b = a * b.
Proof. apply wrap_small. Qed.

(** Removes the wrap-around of an operation whose exact result fits. *)
Ltac size_simpl :=
  repeat first
    [ rewrite size_add_small by size_lia
    | rewrite size_sub_small by size_lia
    | rewrite size_mul_small by size_lia
    | rewrite wrap_small by size_lia ].

(** The overflow test of an addition in C: [a + b < a] exactly when the sum
    does not fit. *)
Lemma size_add_overflow a b :
  is_size a -> is_size b -> (a ⊞ b < a <-> SIZE_MAX < a + b).
Proof.
  intros Ha Hb. unfold size_add, wrap.
  destruct (decide (a + b <= SIZE_MAX)) as [H|H].
  - rewrite Z.mod_small by size_lia. size_lia.
  - replace (a + b) with (a + b - SIZE_MOD + 1 * SIZE_MOD) at 1 by lia.
    rewrite Z.mod_add by size_lia. rewrite Z.mod_small by size_lia. size_lia.
Qed.

(** The overflow test of a product in C: [n > SIZE_MAX / s]. *)
Lemma size_mul_overflow n s :
  0 < s -> 0 <= n -> (SIZE_MAX / s < n <-> SIZE_MAX < n * s).
Proof.
  intros Hs Hn. split; intros H.
  - apply Z.nle_gt. intros Hle.
    assert (n <= SIZE_MAX / s) by (apply Z.div_le_lower_bound; lia). lia.
  - apply Z.div_lt_upper_bound; lia.
Qed.

(** ** The platform *)

(** Which branch of [#if defined(_WIN32)] is compiled. *)
Inductive platform := Posix | Win32.

(** ** Powers of two and masks *)

Definition is_pow2 (z : Z) : Prop := exists k, 0 <= k < 64 /\ z = 2 ^ k.

Lemma is_pow2_bound z : is_pow2 z -> 1 <= z <= 2 ^ 63.
Proof.
  intros (k & Hk & ->). split.
  - change 1 with (2 ^ 0). apply Z.pow_le_mono_r; lia.
  - apply Z.pow_le_mono_r; lia.
Qed.

Lemma is_pow2_double z : is_pow2 z -> z * 2 <= 2 ^ 63 -> is_pow2 (z * 2).
Proof.
  intros (k & Hk & ->) Hle. exists (k + 1). split.
  - destruct (decide (k = 63)) as [->|]; [exfalso|lia].
    change (2 ^ 63 * 2 <= 2 ^ 63) in Hle. lia.
  - rewrite Z.pow_add_r by lia. reflexivity.
Qed.

(** [x & (c - 1)] is [x mod c] for a power of two [c]. *)
Lemma land_mask x c : is_pow2 c -> Z.land x (c - 1) = x mod c.
Proof.
  intros (k & Hk & ->). rewrite <- Z.land_ones by lia.
  rewrite Z.ones_equiv. reflexivity.
Qed.

(** [x & ~(c - 1)] rounds [x] down to a multiple of the power of two [c]. *)
Lemma land_not_mask x c :
  is_size x -> is_pow2 c -> Z.land x (size_not (c - 1)) = c * (x / c).
Proof.
  intros Hx Hc. pose proof (is_pow2_bound c Hc).
  assert (Z.land x (size_not (c - 1)) = Z.ldiff x (c - 1)) as ->.
  { unfold size_not, wrap, SIZE_MOD. rewrite <- Z.land_ones by lia.
    rewrite Z.land_comm, <- Z.land_assoc, (Z.land_comm (Z.ones 64)).
    rewrite Z.land_ones by lia. rewrite Z.mod_small by size_lia.
    rewrite Z.land_comm. symmetry. apply Z.ldiff_land. }
  destruct Hc as (k & Hk & ->).
  replace (2 ^ k - 1) with (Z.ones k) by (rewrite Z.ones_equiv; lia).
  rewrite Z.ldiff_ones_r by lia.
  rewrite Z.shiftl_mul_pow2, Z.shiftr_div_pow2 by lia. lia.
Qed.

(** A power of two divides every larger one; in particular [2 ^ 64]. *)
Lemma is_pow2_divides_mod c : is_pow2 c -> (c | SIZE_MOD).
Proof.
  intros (k & Hk & ->). exists (2 ^ (64 - k)). unfold SIZE_MOD.
  rewrite <- Z.pow_add_r by lia. f_equal. lia.
Qed.

Lemma wrap_mod_pow2 x c : is_pow2 c -> wrap x mod c = x mod c.
Proof.
  intros Hc. pose proof (is_pow2_bound c Hc). unfold wrap. symmetry.
  symmetry. apply Z.mod_mod_divide. by apply is_pow2_divides_mod.
Qed.

(** Rounding [value] up to a multiple of [c], the exact result. *)
Lemma round_up_exact v c :
  0 < c -> v <= c * ((v + (c - 1)) / c) < v + c.
Proof.
  intros Hc. pose proof (Z.div_mod (v + (c - 1)) c ltac:(lia)).
  pose proof (Z.mod_pos_bound (v + (c - 1)) c Hc). lia.
Qed.

(** [(value + (multiple - 1)) & ~(multiple - 1)], the rounding of the pool and
    of the hash map. *)
Definition size_round_up (value multiple : Z) : Z :=
  Z.land (value ⊞ (multiple ⊟ 1)) (size_not (multiple ⊟ 1)).

(** It wraps, to zero, exactly when the exact result does not fit. *)
Lemma round_up_spec slot :
  0 < slot <= SIZE_MAX ->
  (slot + 15 <= SIZE_MAX -> size_round_up slot MAX_ALIGN = 16 * ((slot + 15) / 16)) /\
  (SIZE_MAX < slot + 15 -> size_round_up slot MAX_ALIGN = 0).
Proof.
  intros Hs. unfold size_round_up, MAX_ALIGN.
  change (16 ⊟ 1) with (16 - 1). split; intros H.
  - rewrite size_add_small by size_lia. rewrite land_not_mask; [f_equal; f_equal; lia|size_lia|].
    by exists 4.
  - assert (slot ⊞ (16 - 1) = slot + 15 - SIZE_MOD) as ->.
    { unfold size_add, wrap. replace (slot + (16 - 1)) with (slot + 15 - SIZE_MOD + 1 * SIZE_MOD) by lia.
      rewrite Z.mod_add by size_lia. apply Z.mod_small. size_lia. }
    rewrite land_not_mask; [|size_lia|by exists 4].
    rewrite Z.div_small by size_lia. lia.
Qed.

(** ** The doubling loop

    [while (cap < n) { if (cap > SIZE_MAX / 2) return cap; cap *= 2; }], the
    loop of both [next_pow2_at_least] functions.  [None] is a loop that has
    not ended within the fuel; 65 rounds are always enough for a 64-bit
    capacity, as [grow_pow2_spec] shows. *)

Fixpoint grow_pow2 (fuel : nat) (cap n : Z) : option Z :=
  match fuel with
  | O => None
  | S fuel =>
      if cap <? n then
        if SIZE_MAX / 2 <? cap then Some cap else grow_pow2 fuel (cap ⊠ 2) n
      else Some cap
  end.

Lemma grow_pow2_exp fuel k n :
  0 <= k < 64 -> 64 - k <= Z.of_nat fuel ->
  exists r, grow_pow2 fuel (2 ^ k) n = Some r /\ is_pow2 r /\ 2 ^ k <= r /\
    (n <= 2 ^ 63 -> n <= r /\ (r = 2 ^ k \/ r < 2 * n)) /\
    (2 ^ 63 < n -> r = 2 ^ 63).
Proof.
  revert k. induction fuel as [|fuel IH]; intros k Hk Hf; [lia|]. simpl.
  assert (is_pow2 (2 ^ k)) as Hp by (exists k; lia).
  pose proof (is_pow2_bound _ Hp) as Hb.
  destruct (Z.ltb_spec (2 ^ k) n) as [Hlt|Hge].
  2: { exists (2 ^ k). split_and!; auto; lia. }
  change (SIZE_MAX / 2) with (2 ^ 63 - 1).
  destruct (Z.ltb_spec (2 ^ 63 - 1) (2 ^ k)) as [Hmax|Hsmall].
  { exists (2 ^ k). split_and!; auto; lia. }
  assert (k <> 63) by (intros ->; lia).
  replace (2 ^ k ⊠ 2) with (2 ^ (k + 1)).
  2: { rewrite Z.pow_add_r by lia. rewrite size_mul_small; [lia|]. size_lia. }
  destruct (IH (k + 1)) as (r & -> & Hr & Hle & H1 & H2); [lia..|].
  rewrite Z.pow_add_r in * by lia.
  exists r. split_and!; auto; [lia|]. intros Hn.
  destruct (H1 Hn) as [? [->|]]; lia.
Qed.

(** The loop ends, on a power of two that is at least [n] whenever a 64-bit
    power of two can be, and is the least such one above the start. *)
Lemma grow_pow2_spec c n :
  is_pow2 c ->
  exists r, grow_pow2 65 c n = Some r /\ is_pow2 r /\ c <= r /\
    (n <= 2 ^ 63 -> n <= r /\ (r = c \/ r < 2 * n)) /\
    (2 ^ 63 < n -> r = 2 ^ 63).
Proof. intros (k & Hk & ->). apply grow_pow2_exp; lia. Qed.

(** ** Regions of a list

    [sub off n l] is the [n] elements of [l] from offset [off]; [splice off cs l]
    overwrites the elements of [l] from [off] on with [cs].  Offsets are [Z]
    because they come from C expressions. *)

Definition sub {A} (off n : Z) (l : list A) : list A :=
  take (Z.to_nat n) (drop (Z.to_nat off) l).

Definition splice {A} (off : Z) (cs l : list A) : list A :=
  take (Z.to_nat off) l ++ cs ++ drop (Z.to_nat off + length cs)%nat l.

(** Length of a list as a [Z]. *)
Definition zlen {A} (l : list A) : Z := Z.of_nat (length l).

Lemma zlen_nonneg {A} (l : list A) : 0 <= zlen l.
Proof. unfold zlen. lia. Qed.

Lemma zlen_app {A} (l k : list A) : zlen (l ++ k) = zlen l + zlen k.
Proof. unfold zlen. rewrite length_app. lia. Qed.

Lemma zlen_nil {A} : zlen (@nil A) = 0.
Proof. reflexivity. Qed.

Lemma zlen_cons {A} (x : A) l : zlen (x :: l) = 1 + zlen l.
Proof. unfold zlen. simpl. lia. Qed.

Lemma zlen_replicate {A} n (x : A) : 0 <= n -> zlen (replicate (Z.to_nat n) x) = n.
Proof. unfold zlen. rewrite length_replicate. lia. Qed.

Section regions.
Context {A : Type}.
Implicit Types l cs : list A.

Lemma lookup_sub off n l i :
  sub off n l !! i =
    if decide (i < Z.to_nat n)%nat then l !! (Z.to_nat off + i)%nat else None.
Proof.
  unfold sub. case_decide.
  - rewrite lookup_take_lt by done. apply lookup_drop.
  - apply lookup_take_ge. lia.
Qed.

Lemma length_splice off cs l :
  0 <= off -> off + zlen cs <= zlen l -> length (splice off cs l) = length l.
Proof.
  unfold splice, zlen. intros. rewrite !length_app, length_take, length_drop. lia.
Qed.

Lemma zlen_splice off cs l :
  0 <= off -> off + zlen cs <= zlen l -> zlen (splice off cs l) = zlen l.
Proof. intros. unfold zlen. by rewrite length_splice. Qed.

Lemma zlen_sub off n l :
  0 <= off -> 0 <= n -> off + n <= zlen l -> zlen (sub off n l) = n.
Proof. unfold sub, zlen. intros. rewrite length_take, length_drop. lia. Qed.

Lemma lookup_splice off cs l i :
  0 <= off -> off + zlen cs <= zlen l ->
  splice off cs l !! i =
    if decide (Z.to_nat off <= i < Z.to_nat off + length cs)%nat
    then cs !! (i - Z.to_nat off)%nat else l !! i.
Proof.
  unfold splice, zlen. intros Ho Hl.
  destruct (decide (i < Z.to_nat off)%nat) as [Hi|Hi].
  { rewrite lookup_app_l by (rewrite length_take; lia).
    rewrite lookup_take_lt by done. case_decide; [lia|done]. }
  rewrite lookup_app_r by (rewrite length_take; lia).
  rewrite length_take, Nat.min_l by lia.
  destruct (decide (i < Z.to_nat off + length cs)%nat) as [Hi2|Hi2].
  - rewrite lookup_app_l by lia. case_decide; [done|lia].
  - rewrite lookup_app_r by lia. rewrite lookup_drop.
    case_decide; [lia|]. f_equal. lia.
Qed.

Lemma sub_splice_eq off cs l :
  0 <= off -> off + zlen cs <= zlen l -> sub off (zlen cs) (splice off cs l) = cs.
Proof.
  intros. apply list_eq. intros i. rewrite lookup_sub, lookup_splice by done.
  unfold zlen in *. repeat case_decide; try lia.
  - f_equal. lia.
  - symmetry. apply lookup_ge_None. lia.
Qed.

Lemma sub_splice_ne off cs l o n :
  0 <= off -> off + zlen cs <= zlen l -> 0 <= o ->
  o + n <= off \/ off + zlen cs <= o ->
  sub o n (splice off cs l) = sub o n l.
Proof.
  intros Ho Hl Ho' Hd. apply list_eq. intros i.
  rewrite !lookup_sub, lookup_splice by done.
  unfold zlen in *. repeat case_decide; try done; lia.
Qed.

(** A write inside the region that is read. *)
Lemma sub_splice_in off cs l o n :
  0 <= o -> 0 <= off -> 0 <= n -> o + n <= zlen l -> off + zlen cs <= n ->
  sub o n (splice (o + off) cs l) = splice off cs (sub o n l).
Proof.
  intros. pose proof (zlen_nonneg cs). apply list_eq. intros i. rewrite lookup_sub.
  rewrite (lookup_splice off) by (rewrite ?zlen_sub; lia). rewrite (lookup_splice (o + off)) by lia.
  rewrite lookup_sub. unfold zlen in *. repeat case_decide; try done; try lia. f_equal. lia.
Qed.

Lemma sub_nil o n : sub o n (@nil A) = [].
Proof. unfold sub. by rewrite drop_nil, take_nil. Qed.

Lemma sub_prefix l k : sub 0 (zlen l) (l ++ k) = l.
Proof. unfold sub, zlen. rewrite Z2Nat.inj_0, drop_0, Nat2Z.id. apply take_app_length. Qed.

Lemma sub_full l n : n = zlen l -> sub 0 n l = l.
Proof. intros ->. unfold sub, zlen. rewrite Nat2Z.id. apply take_ge. simpl. lia. Qed.

Lemma sub_sub o n o' n' l :
  0 <= o -> 0 <= o' -> o' + n' <= n -> sub o' n' (sub o n l) = sub (o + o') n' l.
Proof.
  intros. apply list_eq. intros i. rewrite !lookup_sub.
  repeat case_decide; try done; try lia. f_equal. lia.
Qed.

(** Two adjacent regions. *)
Lemma sub_app o n n' l :
  0 <= o -> 0 <= n -> 0 <= n' -> sub o (n + n') l = sub o n l ++ sub (o + n) n' l.
Proof.
  intros. unfold sub.
  rewrite Z2Nat.inj_add, <- take_take_drop, drop_drop by lia.
  do 3 f_equal. lia.
Qed.

Lemma sub_resize o n k x l :
  0 <= o -> 0 <= n -> o + n <= zlen l -> o + n <= Z.of_nat k ->
  sub o n (resize k x l) = sub o n l.
Proof.
  unfold zlen. intros. apply list_eq. intros i. rewrite !lookup_sub.
  case_decide; [|done]. apply lookup_resize; lia.
Qed.

End regions.

Lemma zlen_resize {A} n (x : A) l : zlen (resize n x l) = Z.of_nat n.
Proof. unfold zlen. by rewrite length_resize. Qed.

(** ** Counting in a list

    [sum_list_with f l] counts the elements of [l] by weight. *)

Lemma sum_insert {A} (f : A -> nat) (l : list A) i x y :
  l !! i = Some x ->
  (sum_list_with f (<[i := y]> l) + f x = sum_list_with f l + f y)%nat.
Proof.
  revert i. induction l as [|z l IH]; intros i Hi; [done|].
  destruct i as [|i]; simpl in *; [injection Hi as ->; lia|]. specialize (IH i Hi). lia.
Qed.

Lemma sum_elem {A} (f : A -> nat) (l : list A) i x :
  l !! i = Some x -> (f x <= sum_list_with f l)%nat.
Proof.
  revert i. induction l as [|z l IH]; intros i Hi; [done|].
  destruct i as [|i]; simpl in *; [injection Hi as ->; lia|]. specialize (IH i Hi). lia.
Qed.

Lemma sum_pos {A} (f : A -> nat) (l : list A) :
  (0 < sum_list_with f l)%nat -> exists i x, l !! i = Some x /\ (0 < f x)%nat.
Proof.
  induction l as [|z l IH]; simpl; [lia|]. intros H. destruct (decide (0 < f z)%nat) as [Hz|Hz].
  - by exists 0%nat, z.
  - destruct IH as (i & x & Hi & Hx); [lia|]. by exists (S i), x.
Qed.

Lemma sum_zero {A} (f : A -> nat) (l : list A) :
  (forall i x, l !! i = Some x -> f x = 0%nat) -> sum_list_with f l = 0%nat.
Proof.
  intros H. destruct (sum_list_with f l) eqn:E; [done|].
  destruct (sum_pos f l) as (i & x & Hi & Hx); [lia|]. rewrite (H i x Hi) in Hx. lia.
Qed.

Lemma sum_le {A} (f g : A -> nat) (l : list A) :
  (forall i x, l !! i = Some x -> (f x <= g x)%nat) -> (sum_list_with f l <= sum_list_with g l)%nat.
Proof.
  induction l as [|x l IH]; intros H; simpl; [lia|]. pose proof (H 0%nat x eq_refl).
  assert (sum_list_with f l <= sum_list_with g l)%nat by (apply IH; intros i y Hi; by apply (H (S i))). lia.
Qed.

Lemma sum_add {A} (f g : A -> nat) (l : list A) :
  sum_list_with (fun x => f x + g x)%nat l = (sum_list_with f l + sum_list_with g l)%nat.
Proof. induction l as [|x l IH]; simpl; lia. Qed.

Lemma sum_ext {A} (f g : A -> nat) (l : list A) :
  (forall i x, l !! i = Some x -> f x = g x) -> sum_list_with f l = sum_list_with g l.
Proof.
  intros H. apply Nat.le_antisymm; apply sum_le; intros i x Hi; by rewrite (H i x Hi).
Qed.

(** ** The longest prefix of elements with a property *)

Fixpoint prefix_len {A} (f : A -> bool) (l : list A) : nat :=
  match l with
  | x :: l => if f x then S (prefix_len f l) else 0
  | [] => 0
  end.

Section prefix_len.
Context {A : Type} (f : A -> bool).
Implicit Types l k : list A.

Definition stops l : Prop := forall x, head l = Some x -> f x = false.

Lemma prefix_len_app l k : Forall (fun x => f x = true) l -> stops k -> prefix_len f (l ++ k) = length l.
Proof.
  intros Hl Hk. induction Hl as [|x l Hx Hl IH]; simpl; [|by rewrite Hx, IH].
  destruct k as [|y k]; [done|]. simpl. by rewrite (Hk y eq_refl).
Qed.

Lemma prefix_len_split l :
  exists k r, l = k ++ r /\ length k = prefix_len f l /\ Forall (fun x => f x = true) k /\ stops r.
Proof.
  induction l as [|x l (k & r & E & Hk & Hf & Hs)]; [by exists [], []|]. simpl.
  destruct (f x) eqn:Hx; [exists (x :: k), r; simpl; subst; auto|].
  exists [], (x :: l). split_and!; auto. by intros y [= <-].
Qed.

Lemma prefix_unique l k l' k' :
  l ++ k = l' ++ k' -> Forall (fun x => f x = true) l -> stops k ->
  Forall (fun x => f x = true) l' -> stops k' -> l = l' /\ k = k'.
Proof.
  intros E Hl Hk Hl' Hk'. pose proof (prefix_len_app _ _ Hl Hk) as H1.
  pose proof (prefix_len_app _ _ Hl' Hk') as H2. rewrite E, H2 in H1.
  by apply app_inj_1 in E.
Qed.

End prefix_len.

(** The bytes before the first NUL: what a C string function sees. *)
Definition cstr_bytes (bs : list Z) : list Z := take (prefix_len (fun c => negb (c =? 0)) bs) bs.

Lemma cstr_bytes_nul_free (tok : list Z) rest : 0 ∉ tok -> cstr_bytes (tok ++ 0 :: rest) = tok.
Proof.
  intros Hn. unfold cstr_bytes. rewrite prefix_len_app; [apply take_app_length| |by intros x [= <-]].
  apply Forall_forall. intros c Hc. destruct (Z.eqb_spec c 0) as [->|]; [done|reflexivity].
Qed.

(** ** Little-endian bytes *)

Fixpoint le_bytes (n : nat) (v : Z) : list Z :=
  match n with O => [] | S n => v mod 256 :: le_bytes n (v / 256) end.

Fixpoint le_value (bs : list Z) : Z :=
  match bs with [] => 0 | b :: bs => b + 256 * le_value bs end.

Lemma length_le_bytes n v : length (le_bytes n v) = n.
Proof. revert v. induction n; intros; simpl; auto. Qed.

Lemma le_value_bytes n v : le_value (le_bytes n v) = v mod 256 ^ Z.of_nat n.
Proof.
  revert v. induction n as [|n IH]; intros v; simpl; [by rewrite Z.mod_1_r|].
  rewrite IH, Nat2Z.inj_succ, Z.pow_succ_r by lia.
  rewrite (Z.rem_mul_r v 256) by lia. lia.
Qed.

Lemma le_bytes_range n v : Forall (fun b => 0 <= b < 256) (le_bytes n v).
Proof. revert v. induction n; intros v; simpl; constructor; auto. by apply Z.mod_pos_bound. Qed.
