(* ===== verification/Status.v ===== *)
(** * Status codes ([d4np/core/d4np_status.h], [d4np_status.c])

    The enumeration every fallible function returns, its integer values and
    the name table [d4np_status_str]. *)

From S2P Require Import Prelude.

Local Open Scope Z_scope.

Inductive d4np_status :=
  | D4NP_OK
  | D4NP_ERR_INVALID_ARGUMENT
  | D4NP_ERR_OUT_OF_MEMORY
  | D4NP_ERR_OVERFLOW
  | D4NP_ERR_NOT_FOUND
  | D4NP_ERR_IO
  | D4NP_ERR_AGAIN
  | D4NP_ERR_UNSUPPORTED
  | D4NP_ERR_INTERNAL.

#[export] Instance d4np_status_eq_dec : EqDecision d4np_status.
Proof. solve_decision. Defined.

(** The value of an enumerator: they count up from [D4NP_OK = 0]. *)
Definition status_code (s : d4np_status) : Z :=
  match s with
  | D4NP_OK => 0
  | D4NP_ERR_INVALID_ARGUMENT => 1
  | D4NP_ERR_OUT_OF_MEMORY => 2
  | D4NP_ERR_OVERFLOW => 3
  | D4NP_ERR_NOT_FOUND => 4
  | D4NP_ERR_IO => 5
  | D4NP_ERR_AGAIN => 6
  | D4NP_ERR_UNSUPPORTED => 7
  | D4NP_ERR_INTERNAL => 8
  end.

(** An object of the enumerated type can hold any [int]: the function is
    defined on all of them, with the fall-through of the [switch]. *)
Definition d4np_status_str (status : Z) : string :=
  match status with
  | 0 => "D4NP_OK"
  | 1 => "D4NP_ERR_INVALID_ARGUMENT"
  | 2 => "D4NP_ERR_OUT_OF_MEMORY"
  | 3 => "D4NP_ERR_OVERFLOW"
  | 4 => "D4NP_ERR_NOT_FOUND"
  | 5 => "D4NP_ERR_IO"
  | 6 => "D4NP_ERR_AGAIN"
  | 7 => "D4NP_ERR_UNSUPPORTED"
  | 8 => "D4NP_ERR_INTERNAL"
  | _ => "D4NP_ERR_UNKNOWN"
  end%string.

(** A name identifies its code: two enumerators never print alike, and an
    integer that is no enumerator prints as [D4NP_ERR_UNKNOWN] and nothing
    else does. *)
Lemma d4np_status_str_known s :
  d4np_status_str (status_code s) <> "D4NP_ERR_UNKNOWN"%string.
Proof. by destruct s. Qed.

Lemma d4np_status_str_unknown z :
  (forall s, status_code s <> z) -> d4np_status_str z = "D4NP_ERR_UNKNOWN"%string.
Proof.
  intros H.
  pose proof (H D4NP_OK); pose proof (H D4NP_ERR_INVALID_ARGUMENT);
  pose proof (H D4NP_ERR_OUT_OF_MEMORY); pose proof (H D4NP_ERR_OVERFLOW);
  pose proof (H D4NP_ERR_NOT_FOUND); pose proof (H D4NP_ERR_IO);
  pose proof (H D4NP_ERR_AGAIN); pose proof (H D4NP_ERR_UNSUPPORTED);
  pose proof (H D4NP_ERR_INTERNAL); simpl in *.
  destruct z as [|p|p]; [done| |done].
  do 4 (destruct p; simpl; try congruence).
Qed.

Lemma d4np_status_str_inj s1 s2 :
  d4np_status_str (status_code s1) = d4np_status_str (status_code s2) -> s1 = s2.
Proof. by destruct s1, s2. Qed.
