(* ===== verification/Version.v ===== *)
(** * Version constants ([d4np/core/version.h]) *)

From S2P Require Import Prelude.
From stdpp Require Import pretty.

Module Version.

Definition D4NP_VERSION_MAJOR : Z := 1.
Definition D4NP_VERSION_MINOR : Z := 0.
Definition D4NP_VERSION_PATCH : Z := 0.
Definition D4NP_VERSION_STRING : string := "1.0.0".

(** The string is the one the three numbers give. *)
Lemma version_string_agrees :
  D4NP_VERSION_STRING =
    (pretty D4NP_VERSION_MAJOR +:+ "." +:+ pretty D4NP_VERSION_MINOR +:+ "." +:+ pretty D4NP_VERSION_PATCH)%string.
Proof. vm_compute. reflexivity. Qed.

End Version.
