(* ===== verification/Memory.v ===== *)
(** * Memory

    The C memory the library works in: blocks of byte cells with an address,
    pointers into them, and the [memcpy]-like accesses of the source.  An
    access outside a live block, or through [NULL], is undefined behaviour:
    the computation has no result.  [wp] states that a computation is defined
    and what it leaves. *)

From S2P Require Import Prelude.

Local Open Scope Z_scope.

(** ** Pointers and cells *)

Inductive ptr :=
  | Null
  | Ptr (b : nat) (off : Z).

#[export] Instance ptr_eq_dec : EqDecision ptr.
Proof. solve_decision. Defined.

Definition is_null (p : ptr) : bool := match p with Null => true | Ptr _ _ => false end.

(** Pointer arithmetic, [p + z] on an [unsigned char] pointer. *)
Definition padd (p : ptr) (z : Z) : ptr :=
  match p with Null => Null | Ptr b off => Ptr b (off + z) end.

Lemma padd_0 b z : padd (Ptr b 0) z = Ptr b z.
Proof. reflexivity. Qed.

(** One byte of memory: indeterminate, a byte value, or the [i]-th byte of a
    stored pointer. *)
Inductive cell :=
  | Undef
  | Byte (z : Z)
  | Frag (p : ptr) (i : nat).

#[export] Instance cell_eq_dec : EqDecision cell.
Proof. solve_decision. Defined.

Record block := Block { blk_addr : Z; blk_data : list cell }.

(** [m_next] counts the calls to the system allocator; a block is never given
    an identity twice, so an access to a freed block is always detected. *)
Record mem := Mem { m_heap : gmap nat block; m_next : nat }.

(** ** Computations *)

(** A computation on memory; [None] is undefined behaviour. *)
Definition M (A : Type) : Type := mem -> option (A * mem).

#[export] Instance M_ret : MRet M := fun A a m => Some (a, m).
#[export] Instance M_bind : MBind M := fun A B f e m =>
  match e m with Some (a, m') => f a m' | None => None end.

(** Undefined behaviour. *)
Definition fault {A} : M A := fun _ => None.

(** [assert(b)]: in a debug build a false condition stops the program. *)
Definition massert (b : bool) : M unit := if b then mret tt else fault.

(** The value of a computation that may not have one. *)
Definition lift_opt {A} (o : option A) : M A := fun m =>
  match o with Some a => Some (a, m) | None => None end.

(** Division; a zero divisor is undefined behaviour. *)
Definition size_div (a b : Z) : M Z := if b =? 0 then fault else mret (a / b).

Lemma size_div_run a b m : 0 < b -> size_div a b m = Some (a / b, m).
Proof. intros. unfold size_div. destruct (Z.eqb_spec b 0); [lia|done]. Qed.

(** [memcpy] into a local array [l] at index [i]: undefined outside of it. *)
Definition array_write {A} (i : Z) (xs l : list A) : M (list A) :=
  if (0 <=? i) && (i + zlen xs <=? zlen l) then mret (splice i xs l) else fault.

(** [l[i] = x]. *)
Definition array_set {A} (i : Z) (x : A) (l : list A) : M (list A) :=
  if (0 <=? i) && (i <? zlen l) then mret (<[Z.to_nat i := x]> l) else fault.

Lemma array_write_run {A} i (xs l : list A) m :
  0 <= i -> i + zlen xs <= zlen l -> array_write i xs l m = Some (splice i xs l, m).
Proof. intros. unfold array_write. by rewrite (proj2 (Z.leb_le 0 i)), (proj2 (Z.leb_le _ _)) by lia. Qed.

Lemma array_set_run {A} i (x : A) l m :
  (i < length l)%nat -> array_set (Z.of_nat i) x l m = Some (<[i := x]> l, m).
Proof.
  intros. unfold array_set, zlen. rewrite (proj2 (Z.leb_le _ _)), (proj2 (Z.ltb_lt _ _)) by lia.
  by rewrite Nat2Z.id.
Qed.

Definition load (p : ptr) (n : Z) : M (list cell) := fun m =>
  match p with
  | Null => None
  | Ptr b off =>
      match m_heap m !! b with
      | Some blk =>
          if decide (0 <= off /\ 0 <= n /\ off + n <= zlen (blk_data blk))
          then Some (sub off n (blk_data blk), m) else None
      | None => None
      end
  end.

Definition store (p : ptr) (cs : list cell) : M unit := fun m =>
  match p with
  | Null => None
  | Ptr b off =>
      match m_heap m !! b with
      | Some blk =>
          if decide (0 <= off /\ off + zlen cs <= zlen (blk_data blk))
          then Some (tt, Mem (<[b := Block (blk_addr blk) (splice off cs (blk_data blk))]>
                              (m_heap m)) (m_next m))
          else None
      | None => None
      end
  end.

(** [memcpy] between overlapping objects is undefined. *)
Definition overlap (p q : ptr) (n : Z) : bool :=
  match p, q with
  | Ptr b o, Ptr b' o' => bool_decide (b = b' /\ o < o' + n /\ o' < o + n)
  | _, _ => false
  end.

Definition memcpy (dst src : ptr) (n : Z) : M unit :=
  if overlap dst src n then fault else cs ← load src n; store dst cs.

Definition memset (dst : ptr) (z n : Z) : M unit :=
  store dst (replicate (Z.to_nat n) (Byte z)).

(** A byte that is read as a value must be determinate. *)
Definition load_byte (p : ptr) : M Z :=
  cs ← load p 1; match cs with [Byte z] => mret z | _ => fault end.

Definition store_byte (p : ptr) (z : Z) : M unit := store p [Byte z].

(** The byte values of a region, all determinate. *)
Definition cell_byte (c : cell) : option Z :=
  match c with Byte z => Some z | _ => None end.

Definition load_bytes (p : ptr) (n : Z) : M (list Z) :=
  cs ← load p n; lift_opt (mapM cell_byte cs).

(** A pointer object occupies eight cells. *)
Definition ptr_cells (p : ptr) : list cell := Frag p <$> seq 0 8.

Definition store_ptr (q p : ptr) : M unit := store q (ptr_cells p).

Definition load_ptr (q : ptr) : M ptr :=
  cs ← load q PTR_SIZE;
  match cs with
  | Frag p _ :: _ => if decide (cs = ptr_cells p) then mret p else fault
  | _ => fault
  end.

(** ** Specifications

    [wp e m Φ]: run from memory [m], [e] is defined and its result and final
    memory satisfy [Φ]. *)

Definition wp {A} (e : M A) (m : mem) (Φ : A -> mem -> Prop) : Prop :=
  exists a m', e m = Some (a, m') /\ Φ a m'.

Section wp_rules.
Context {A B : Type}.
Implicit Types (e : M A) (m : mem).

Lemma wp_ret (a : A) m (Φ : A -> mem -> Prop) : Φ a m -> wp (mret a) m Φ.
Proof. intros. by exists a, m. Qed.

Lemma wp_bind e (f : A -> M B) m Φ :
  wp e m (fun a m' => wp (f a) m' Φ) -> wp (e ≫= f) m Φ.
Proof.
  intros (a & m' & He & b & m'' & Hf & HΦ). exists b, m''.
  unfold mbind, M_bind. rewrite He. done.
Qed.

Lemma wp_mono e m (Φ Ψ : A -> mem -> Prop) :
  wp e m Φ -> (forall a m', Φ a m' -> Ψ a m') -> wp e m Ψ.
Proof. intros (a & m' & He & HΦ) H. exists a, m'. auto. Qed.

Lemma wp_bind_inv e (f : A -> M B) m (Φ : B -> mem -> Prop) :
  wp (e ≫= f) m Φ -> wp e m (fun a m' => wp (f a) m' Φ).
Proof.
  intros (b & m2 & E & H). unfold mbind, M_bind in E. destruct (e m) as [[a m1]|] eqn:Ee; [|done].
  exists a, m1. split; [done|]. by exists b, m2.
Qed.

Lemma wp_run e m a m' (Φ : A -> mem -> Prop) :
  e m = Some (a, m') -> Φ a m' -> wp e m Φ.
Proof. intros. by exists a, m'. Qed.

End wp_rules.

Lemma wp_load b off n m blk Φ :
  m_heap m !! b = Some blk -> 0 <= off -> 0 <= n -> off + n <= zlen (blk_data blk) ->
  Φ (sub off n (blk_data blk)) m -> wp (load (Ptr b off) n) m Φ.
Proof.
  intros Hb ??? HΦ. eapply wp_run; [|exact HΦ]. simpl. rewrite Hb.
  by rewrite decide_True by lia.
Qed.

(** The memory after a write of [cs] at offset [off] of block [b]. *)
Definition mem_write (b : nat) (off : Z) (cs : list cell) (m : mem) : mem :=
  Mem (alter (fun blk => Block (blk_addr blk) (splice off cs (blk_data blk))) b (m_heap m))
      (m_next m).

Lemma store_run b off cs m blk :
  m_heap m !! b = Some blk -> 0 <= off -> off + zlen cs <= zlen (blk_data blk) ->
  store (Ptr b off) cs m = Some (tt, mem_write b off cs m).
Proof.
  intros Hb ??. simpl. rewrite Hb, decide_True by lia. unfold mem_write.
  do 3 f_equal. apply map_eq. intros i. rewrite lookup_alter.
  case_decide; [subst; by rewrite Hb, lookup_insert_eq|by rewrite lookup_insert_ne].
Qed.

Lemma wp_store b off cs m blk (Φ : unit -> mem -> Prop) :
  m_heap m !! b = Some blk -> 0 <= off -> off + zlen cs <= zlen (blk_data blk) ->
  Φ tt (mem_write b off cs m) -> wp (store (Ptr b off) cs) m Φ.
Proof. intros. eapply wp_run; [by eapply store_run|done]. Qed.

Lemma mem_write_lookup b off cs m blk :
  m_heap m !! b = Some blk ->
  m_heap (mem_write b off cs m) !! b =
    Some (Block (blk_addr blk) (splice off cs (blk_data blk))).
Proof. intros Hb. simpl. rewrite lookup_alter, Hb. by rewrite decide_True. Qed.

Lemma mem_write_lookup_ne b b' off cs m :
  b <> b' -> m_heap (mem_write b off cs m) !! b' = m_heap m !! b'.
Proof. intros. simpl. by rewrite lookup_alter_ne. Qed.

#[global] Opaque mem_write.

(** A computation that only reads. *)
Lemma load_inv p n m cs m' : load p n m = Some (cs, m') -> m' = m /\ (0 <= n -> zlen cs = n).
Proof.
  unfold load. destruct p as [|b off]; [done|].
  destruct (m_heap m !! b) as [blk|]; [|done]. case_decide; [|done].
  intros [= <- <-]. split; [done|]. intros. apply zlen_sub; lia.
Qed.

(** A read depends only on the block it reads from. *)
Lemma load_frame b off n m m' cs :
  load (Ptr b off) n m = Some (cs, m) -> m_heap m' !! b = m_heap m !! b ->
  load (Ptr b off) n m' = Some (cs, m').
Proof.
  simpl. intros H ->. destruct (m_heap m !! b) as [blk|]; [|done].
  case_decide; [|done]. by injection H as <-.
Qed.

(** Steps of a [wp] proof. *)
Ltac wp_bind := apply wp_bind.
Ltac wp_ret := apply wp_ret.

Create HintDb mem.
#[export] Hint Resolve zlen_nonneg : mem.

(** [memcpy] as one step. *)
Lemma wp_memcpy db doff src n m blk cs (Φ : unit -> mem -> Prop) :
  load src n m = Some (cs, m) -> 0 <= n -> overlap (Ptr db doff) src n = false ->
  m_heap m !! db = Some blk -> 0 <= doff -> doff + n <= zlen (blk_data blk) ->
  Φ tt (mem_write db doff cs m) -> wp (memcpy (Ptr db doff) src n) m Φ.
Proof.
  intros Hl Hn Ho Hb ?? HΦ. unfold memcpy. rewrite Ho. wp_bind.
  eapply wp_run; [exact Hl|]. simpl.
  apply load_inv in Hl as [_ Hz]. eapply wp_store; eauto. rewrite Hz; lia.
Qed.

Lemma overlap_blocks b o b' o' n : b <> b' -> overlap (Ptr b o) (Ptr b' o') n = false.
Proof. intros. simpl. apply bool_decide_eq_false. naive_solver. Qed.

Lemma overlap_ranges b o o' n :
  o + n <= o' \/ o' + n <= o -> overlap (Ptr b o) (Ptr b o') n = false.
Proof. intros. simpl. apply bool_decide_eq_false. lia. Qed.

Lemma ptr_cells_length p : zlen (ptr_cells p) = PTR_SIZE.
Proof. reflexivity. Qed.

Lemma load_ptr_run b off m blk p :
  m_heap m !! b = Some blk -> 0 <= off -> off + PTR_SIZE <= zlen (blk_data blk) ->
  sub off PTR_SIZE (blk_data blk) = ptr_cells p ->
  load_ptr (Ptr b off) m = Some (p, m).
Proof.
  intros Hb ?? Hs. unfold load_ptr, mbind, M_bind. simpl. rewrite Hb.
  rewrite decide_True by size_lia. rewrite Hs. simpl.
  by rewrite decide_True by done.
Qed.

(** ** Framing

    A computation that owns the blocks of the pointers [ps] leaves every
    other live block as it was. *)

Definition touches (ps : list ptr) (b : nat) : Prop := exists off, Ptr b off ∈ ps.

Definition frame (ps : list ptr) (m m' : mem) : Prop :=
  forall b blk, ~ touches ps b -> m_heap m !! b = Some blk -> m_heap m' !! b = Some blk.

Lemma frame_refl ps m : frame ps m m.
Proof. by intros b blk. Qed.

Lemma frame_heap_eq ps m m' : m_heap m' = m_heap m -> frame ps m m'.
Proof. intros H b blk _ Hb. by rewrite H. Qed.

(** Composition: the blocks the second computation touches are the first
    one's, or did not exist before it. *)
Lemma frame_trans ps qs m m' m'' :
  frame ps m m' -> frame qs m' m'' ->
  (forall b, touches qs b -> touches ps b \/ m_heap m !! b = None) ->
  frame ps m m''.
Proof.
  intros H1 H2 Hq b blk Hn Hb. apply H2; [|by apply H1].
  intros Ht. destruct (Hq b Ht) as [?|Hb']; [done|congruence].
Qed.

Lemma touches_here b off ps : touches (Ptr b off :: ps) b.
Proof. exists off. set_solver. Qed.

Lemma touches_nil b : ~ touches [] b.
Proof. intros [off H]. set_solver. Qed.

Lemma touches_cons p ps b : touches (p :: ps) b <-> (exists off, p = Ptr b off) \/ touches ps b.
Proof. unfold touches. set_solver. Qed.

Lemma frame_write b off off' cs m ps :
  Ptr b off' ∈ ps -> frame ps m (mem_write b off cs m).
Proof.
  intros Hin b' blk Hn Hb. rewrite mem_write_lookup_ne; [done|].
  intros ->. apply Hn. by exists off'.
Qed.

#[export] Hint Resolve frame_refl frame_heap_eq touches_here : mem.

(** [p] points to [n] bytes inside a live block. *)
Definition valid (m : mem) (p : ptr) (n : Z) : Prop :=
  exists b off blk, p = Ptr b off /\ m_heap m !! b = Some blk /\
    0 <= off /\ off + n <= zlen (blk_data blk).

(** What was written is read back. *)
Lemma load_after_write b off cs m blk :
  m_heap m !! b = Some blk -> 0 <= off -> off + zlen cs <= zlen (blk_data blk) ->
  load (Ptr b off) (zlen cs) (mem_write b off cs m) = Some (cs, mem_write b off cs m).
Proof.
  intros Hb ? ?. unfold load. rewrite (mem_write_lookup _ _ _ _ _ Hb). simpl.
  pose proof (zlen_nonneg cs). rewrite decide_True by (rewrite zlen_splice; lia).
  by rewrite sub_splice_eq by lia.
Qed.

Lemma load_valid p n m cs m' : load p n m = Some (cs, m') -> valid m p n.
Proof.
  unfold load. destruct p as [|b off]; [done|].
  destruct (m_heap m !! b) as [blk|] eqn:Hb; [|done]. case_decide; [|done].
  intros _. exists b, off, blk. naive_solver.
Qed.

Lemma valid_frame m m' p n ps :
  valid m p n -> frame ps m m' -> (forall b off, p = Ptr b off -> ~ touches ps b) ->
  valid m' p n.
Proof.
  intros (b & off & blk & -> & Hb & ? & ?) Hf Hn. exists b, off, blk.
  split_and!; auto. apply Hf; eauto.
Qed.

Lemma valid_write m b off cs blk :
  m_heap m !! b = Some blk -> 0 <= off -> off + zlen cs <= zlen (blk_data blk) ->
  valid (mem_write b off cs m) (Ptr b off) (zlen cs).
Proof. intros. eapply load_valid, load_after_write; eauto. Qed.

(** Stronger than [frame]: outside the blocks of [ps] the heap is the same
    one, with no block added either. *)
Definition only (ps : list ptr) (m m' : mem) : Prop :=
  forall b, ~ touches ps b -> m_heap m' !! b = m_heap m !! b.

Lemma only_frame ps m m' : only ps m m' -> frame ps m m'.
Proof. intros H b blk Hn Hb. by rewrite H. Qed.

Lemma only_refl ps m : only ps m m.
Proof. by intros b. Qed.

Lemma only_trans ps m m' m'' : only ps m m' -> only ps m' m'' -> only ps m m''.
Proof. intros H1 H2 b Hn. by rewrite H2, H1. Qed.

Lemma only_write b off off' cs m ps : Ptr b off' ∈ ps -> only ps m (mem_write b off cs m).
Proof.
  intros Hin b' Hn. rewrite mem_write_lookup_ne; [done|].
  intros ->. apply Hn. by exists off'.
Qed.

Lemma touches_singleton b b' off : touches [Ptr b off] b' <-> b' = b.
Proof.
  unfold touches. setoid_rewrite list_elem_of_singleton. naive_solver.
Qed.

Lemma touches_part p ps b : p ∈ ps -> ~ touches ps b -> ~ touches [p] b.
Proof. intros Hp Hn [off Hin]. apply Hn. exists off. set_solver. Qed.

(** A read outside the blocks that have changed. *)
Lemma load_only ps m m' p n cs :
  load p n m = Some (cs, m) -> only ps m m' -> (forall b off, p = Ptr b off -> ~ touches ps b) ->
  load p n m' = Some (cs, m').
Proof.
  intros Hl Ho Hn. destruct p as [|b off]; [done|]. eapply load_frame; [exact Hl|]. apply Ho; eauto.
Qed.

Lemma valid_only m m' p n ps :
  valid m p n -> only ps m m' -> (forall b off, p = Ptr b off -> ~ touches ps b) -> valid m' p n.
Proof. intros Hv Ho. apply (valid_frame _ _ _ _ ps Hv). by apply only_frame. Qed.

Lemma only_part p ps m m' : p ∈ ps -> only [p] m m' -> only ps m m'.
Proof. intros Hp Ho b Hn. apply Ho. by eapply touches_part. Qed.

#[export] Hint Resolve only_refl only_frame : mem.

(** ** Bytes and C strings *)

#[export] Instance Byte_inj : Inj (=) (=) Byte.
Proof. by intros ?? [= ->]. Qed.

Lemma mapM_cell_byte cs bs : mapM cell_byte cs = Some bs <-> cs = Byte <$> bs.
Proof.
  revert bs. induction cs as [|c cs IH]; intros bs; simpl.
  - split; [by intros [= <-]|]. by destruct bs.
  - destruct c as [|z|p i]; simpl; [split; [done|by destruct bs]| |split; [done|by destruct bs]].
    destruct (mapM cell_byte cs) as [bs'|] eqn:E; simpl.
    + destruct (IH bs') as [IH1 _]. rewrite (IH1 eq_refl).
      split; [by intros [= <-]|]. destruct bs as [|z' bs]; [done|]. intros [= -> Hb].
      apply (inj (fmap Byte)) in Hb. by subst.
    + split; [done|]. destruct bs as [|z' bs]; [done|]. intros [= -> Hb].
      exfalso. by apply IH in Hb.
Qed.

Lemma load_bytes_load p n m bs :
  load_bytes p n m = Some (bs, m) <-> load p n m = Some (Byte <$> bs, m).
Proof.
  unfold load_bytes, mbind, M_bind. destruct (load p n m) as [[cs m']|] eqn:E; [|done].
  apply load_inv in E as [-> _]. unfold lift_opt.
  destruct (mapM cell_byte cs) as [bs'|] eqn:Hm.
  - apply mapM_cell_byte in Hm as ->. split; [by intros [= ->]|].
    intros [= Hb]. apply (inj (fmap Byte)) in Hb. by subst.
  - split; [done|]. intros [= ->]. assert (mapM cell_byte (Byte <$> bs) = Some bs) by
      (by apply mapM_cell_byte). congruence.
Qed.

Lemma zlen_fmap {A B} (f : A -> B) (l : list A) : zlen (f <$> l) = zlen l.
Proof. unfold zlen. by rewrite length_fmap. Qed.

(** A part of a readable region. *)
Lemma load_sub b off n m cs o k :
  load (Ptr b off) n m = Some (cs, m) -> 0 <= o -> 0 <= k -> o + k <= n ->
  load (Ptr b (off + o)) k m = Some (sub o k cs, m).
Proof.
  simpl. destruct (m_heap m !! b) as [blk|]; [|done]. case_decide; [|done].
  intros [= <-] ???. rewrite decide_True by lia. by rewrite sub_sub by lia.
Qed.

Lemma sub_fmap {A B} (f : A -> B) o n (l : list A) : sub o n (f <$> l) = f <$> sub o n l.
Proof. unfold sub. by rewrite <- fmap_drop, <- fmap_take. Qed.

Lemma load_bytes_sub b off n m bs o k :
  load_bytes (Ptr b off) n m = Some (bs, m) -> 0 <= o -> 0 <= k -> o + k <= n ->
  load_bytes (Ptr b (off + o)) k m = Some (sub o k bs, m).
Proof.
  rewrite !load_bytes_load. intros H ???. rewrite <- sub_fmap. by eapply load_sub.
Qed.

Lemma load_bytes_zlen p n m bs : load_bytes p n m = Some (bs, m) -> 0 <= n /\ zlen bs = n.
Proof.
  rewrite load_bytes_load. intros H. destruct (load_inv _ _ _ _ _ H) as [_ Hz].
  rewrite zlen_fmap in Hz. unfold load in H. destruct p as [|b off]; [done|].
  destruct (m_heap m !! b); [|done]. case_decide; [|done]. split; [lia|apply Hz; lia].
Qed.

Lemma load_byte_at b off n m bs k c :
  load_bytes (Ptr b off) n m = Some (bs, m) -> bs !! k = Some c ->
  load_byte (Ptr b (off + Z.of_nat k)) m = Some (c, m).
Proof.
  intros H Hk. destruct (load_bytes_zlen _ _ _ _ H) as [Hn Hz].
  pose proof (lookup_lt_Some _ _ _ Hk) as Hlt. unfold zlen in Hz.
  apply load_bytes_load in H. eapply (load_sub _ _ _ _ _ (Z.of_nat k) 1) in H; [|lia..].
  unfold load_byte, mbind, M_bind. rewrite H, sub_fmap.
  assert (sub (Z.of_nat k) 1 bs = [c]) as ->; [|done].
  unfold sub. rewrite Nat2Z.id. by rewrite (drop_S _ c).
Qed.

(** Bytes up to the terminating NUL. *)
Fixpoint cstr_len (cs : list cell) : option Z :=
  match cs with
  | Byte z :: cs => if z =? 0 then Some 0 else n ← cstr_len cs; Some (1 + n)
  | _ => None
  end.

Definition strlen (p : ptr) : M Z := fun m =>
  match p with
  | Null => None
  | Ptr b off =>
      blk ← m_heap m !! b;
      if decide (0 <= off) then n ← cstr_len (drop (Z.to_nat off) (blk_data blk)); Some (n, m)
      else None
  end.

(** [p] is a C string with the bytes [bs]. *)
Definition cstring (m : mem) (p : ptr) (bs : list Z) : Prop :=
  load_bytes p (zlen bs + 1) m = Some (bs ++ [0], m) /\ 0 ∉ bs.

Lemma cstr_len_prefix bs cs : 0 ∉ bs -> cstr_len ((Byte <$> bs) ++ Byte 0 :: cs) = Some (zlen bs).
Proof.
  induction bs as [|z bs IH]; intros Hn; [done|]. apply not_elem_of_cons in Hn as [Hz Hn].
  cbn. destruct (Z.eqb_spec z 0); [congruence|]. rewrite (IH Hn). simpl. by rewrite zlen_cons.
Qed.

(** The C string in a local array. *)
Definition array_string (cs : list cell) : option (list Z) :=
  n ← cstr_len cs; mapM cell_byte (take (Z.to_nat n) cs).

Lemma array_string_nul_free bs cs : 0 ∉ bs -> array_string ((Byte <$> bs) ++ Byte 0 :: cs) = Some bs.
Proof.
  intros Hn. unfold array_string. rewrite cstr_len_prefix by done. simpl. unfold zlen.
  rewrite Nat2Z.id, <- (length_fmap Byte), take_app_length. by apply mapM_cell_byte.
Qed.

Lemma array_string_bytes bs cs : array_string ((Byte <$> bs) ++ Byte 0 :: cs) = Some (cstr_bytes (bs ++ [0])).
Proof.
  destruct (decide (0 ∈ bs)) as [Hin|Hni]; [|by rewrite array_string_nul_free, cstr_bytes_nul_free].
  apply list_elem_of_split_l in Hin as (l1 & l2 & -> & Hn).
  rewrite fmap_app, <- !app_assoc. simpl. by rewrite array_string_nul_free, cstr_bytes_nul_free.
Qed.

Lemma strlen_spec m p bs : cstring m p bs -> strlen p m = Some (zlen bs, m).
Proof.
  intros [H Hn]. apply load_bytes_load in H. unfold load in H. destruct p as [|b off]; [done|].
  simpl. destruct (m_heap m !! b) as [blk|]; [|done]. simpl. case_decide as Hd; [|done].
  injection H as H. rewrite decide_True by lia.
  set (rest := drop (Z.to_nat off) (blk_data blk)) in *.
  assert (rest = (Byte <$> bs) ++ Byte 0 :: drop (S (length bs)) rest) as ->.
  { rewrite <- (take_drop (S (length bs)) rest) at 1. unfold sub in H.
    fold rest in H. replace (Z.to_nat (zlen bs + 1)) with (S (length bs)) in H by (unfold zlen; lia).
    rewrite H, fmap_app. by rewrite <- app_assoc. }
  by rewrite cstr_len_prefix.
Qed.

(** ** Scanning loops *)

(** [while (i < n && f(p[i])) ++i], with [todo] bytes from [i] to [n]. *)
Fixpoint skip_while (f : Z -> bool) (p : ptr) (i : Z) (todo : nat) : M Z :=
  match todo with
  | O => mret i
  | S todo =>
      c ← load_byte (padd p i);
      if f c then skip_while f p (i ⊞ 1) todo else mret i
  end.

(** [while (n > i && f(p[n - 1])) --n], with [todo] bytes from [i] to [n]. *)
Fixpoint skip_back (f : Z -> bool) (p : ptr) (n : Z) (todo : nat) : M Z :=
  match todo with
  | O => mret n
  | S todo =>
      c ← load_byte (padd p (n ⊟ 1));
      if f c then skip_back f p (n ⊟ 1) todo else mret n
  end.

Section scanning.
Variables (f : Z -> bool) (m : mem) (b : nat) (off : Z) (bs : list Z).
Hypothesis Hl : load_bytes (Ptr b off) (zlen bs) m = Some (bs, m).
Hypothesis Hmax : zlen bs <= PTRDIFF_MAX.

Lemma skip_while_run i n :
  (i + n = length bs)%nat ->
  skip_while f (Ptr b off) (Z.of_nat i) n m = Some (Z.of_nat (i + prefix_len f (drop i bs)), m).
Proof.
  revert i. induction n as [|n IH]; intros i Hi; simpl.
  - rewrite drop_ge by lia. simpl. by rewrite Nat.add_0_r.
  - destruct (lookup_lt_is_Some_2 bs i) as [c Hc]; [lia|].
    unfold mbind, M_bind. rewrite (load_byte_at _ _ _ _ _ _ _ Hl Hc).
    rewrite (drop_S _ c) by done. simpl. destruct (f c); [|by rewrite Nat.add_0_r].
    unfold zlen in *. rewrite size_add_small by size_lia.
    replace (Z.of_nat i + 1) with (Z.of_nat (S i)) by lia. rewrite IH by lia.
    by rewrite <- Nat.add_succ_comm.
Qed.

Lemma skip_back_run i n :
  (i + n <= length bs)%nat ->
  skip_back f (Ptr b off) (Z.of_nat (i + n)) n m =
    Some (Z.of_nat (i + n - prefix_len f (rev (take n (drop i bs)))), m).
Proof.
  induction n as [|n IH]; intros Hi; [simpl; by rewrite Nat.sub_0_r|].
  cbn [skip_back]. unfold zlen in Hmax.
  rewrite size_sub_small by size_lia. replace (Z.of_nat (i + S n) - 1) with (Z.of_nat (i + n)) by lia.
  destruct (lookup_lt_is_Some_2 bs (i + n)) as [c Hc]; [lia|].
  unfold mbind, M_bind, padd. rewrite (load_byte_at _ _ _ _ _ _ _ Hl Hc).
  rewrite (take_S_r _ _ c) by (by rewrite lookup_drop). rewrite rev_app_distr. cbn [rev app prefix_len].
  destruct (f c); [|by rewrite Nat.sub_0_r]. rewrite IH by lia. do 3 f_equal. lia.
Qed.

End scanning.

(** The bytes of a C string without its NUL. *)
Lemma cstring_bytes m p bs : cstring m p bs -> load_bytes p (zlen bs) m = Some (bs, m).
Proof.
  intros [H _]. destruct p as [|b off]; [done|]. pose proof (zlen_nonneg bs).
  apply (load_bytes_sub b off _ _ _ 0 (zlen bs)) in H; [|lia..]. rewrite Z.add_0_r in H.
  by rewrite sub_prefix in H.
Qed.

(** A store inside a region. *)
Lemma store_region b off n m cs o ds :
  load (Ptr b off) n m = Some (cs, m) -> 0 <= o -> o + zlen ds <= n ->
  wp (store (Ptr b (off + o)) ds) m (fun _ m' =>
    load (Ptr b off) n m' = Some (splice o ds cs, m') /\ only [Ptr b off] m m').
Proof.
  intros Hl Ho Hn. pose proof (zlen_nonneg ds). unfold load in Hl.
  destruct (m_heap m !! b) as [blk|] eqn:Hb; [|done]. case_decide as Hd; [|done]. injection Hl as Hl.
  eapply wp_store; [exact Hb|lia|lia|]. split; [|by eapply only_write, list_elem_of_here].
  unfold load. rewrite (mem_write_lookup _ _ _ _ _ Hb). simpl.
  rewrite decide_True by (rewrite zlen_splice by lia; lia). by rewrite sub_splice_in, Hl by lia.
Qed.

(** A byte appended to the bytes read back so far. *)
Lemma append_byte m b off blk bs c :
  m_heap m !! b = Some blk -> 0 <= off -> off + zlen bs + 1 <= zlen (blk_data blk) ->
  load_bytes (Ptr b off) (zlen bs) m = Some (bs, m) ->
  wp (store_byte (Ptr b (off + zlen bs)) c) m (fun _ m' =>
    load_bytes (Ptr b off) (zlen bs + 1) m' = Some (bs ++ [c], m') /\ only [Ptr b off] m m' /\
    exists blk', m_heap m' !! b = Some blk' /\ zlen (blk_data blk') = zlen (blk_data blk)).
Proof.
  intros Hb Ho Hz Hl. pose proof (zlen_nonneg bs). unfold store_byte.
  assert (zlen [Byte c] = 1) as H1 by done.
  eapply wp_store; [exact Hb|lia|lia|]. split; [|split].
  - apply load_bytes_load. apply load_bytes_load in Hl. unfold load in *. rewrite Hb, decide_True in Hl by lia.
    rewrite (mem_write_lookup _ _ _ _ _ Hb). simpl. rewrite decide_True by (rewrite zlen_splice by lia; lia).
    injection Hl as Hl. rewrite sub_app by lia. rewrite sub_splice_ne by lia. rewrite Hl.
    rewrite <- H1, sub_splice_eq by lia. by rewrite fmap_app.
  - by eapply only_write, list_elem_of_here.
  - eexists. split; [by apply mem_write_lookup|]. simpl. rewrite zlen_splice; lia.
Qed.

(** ** Arrays of fixed-size elements *)

(** [p] is an array with elements of [size] bytes every [stride] bytes; an
    element that is [None] may hold anything. *)
Definition arr (m : mem) (p : ptr) (stride size : Z) (xs : list (option (list cell))) : Prop :=
  exists b blk, p = Ptr b 0 /\ m_heap m !! b = Some blk /\
    zlen (blk_data blk) = zlen xs * stride /\
    forall i x, xs !! i = Some (Some x) ->
      zlen x = size /\ sub (Z.of_nat i * stride) size (blk_data blk) = x.

Lemma arr_only m m' p ps stride size xs :
  arr m p stride size xs -> only ps m m' -> (forall b off, p = Ptr b off -> ~ touches ps b) ->
  arr m' p stride size xs.
Proof.
  intros (b & blk & -> & Hb & Hx) Ho Hn. exists b, blk. split; [done|]. rewrite Ho; eauto.
Qed.

Lemma arr_load m p stride size xs i x :
  arr m p stride size xs -> xs !! i = Some (Some x) -> 0 <= size <= stride ->
  load (padd p (Z.of_nat i * stride)) size m = Some (x, m).
Proof.
  intros (b & blk & -> & Hb & Hz & Hx) Hi Hs. destruct (Hx i x Hi) as [? Hsub].
  pose proof (lookup_lt_Some _ _ _ Hi). unfold zlen in Hz at 2. rewrite padd_0. unfold load.
  rewrite Hb, decide_True by (split; [nia|split; [lia|nia]]). by rewrite Hsub.
Qed.

(** Copying one element in. *)
Lemma arr_store m p stride size xs i x src :
  arr m p stride size xs -> (i < length xs)%nat -> 0 < size <= stride ->
  load src size m = Some (x, m) -> (forall b off, src = Ptr b off -> ~ touches [p] b) ->
  exists m', memcpy (padd p (Z.of_nat i * stride)) src size m = Some (tt, m') /\
    arr m' p stride size (<[i := Some x]> xs) /\ only [p] m m'.
Proof.
  intros (b & blk & -> & Hb & Hz & Hx) Hi Hs Hl Hap. pose proof (load_inv _ _ _ _ _ Hl) as [_ Hzx].
  specialize (Hzx ltac:(lia)). unfold zlen in Hz at 2.
  assert (Z.of_nat i * stride + size <= zlen (blk_data blk)) by nia.
  assert (0 <= Z.of_nat i * stride) by nia.
  exists (mem_write b (Z.of_nat i * stride) x m). rewrite padd_0. split_and!.
  - unfold memcpy. destruct src as [|sb soff]; [done|].
    rewrite overlap_blocks. 2: { intros <-. apply (Hap b soff eq_refl), touches_here. }
    unfold mbind, M_bind. rewrite Hl. eapply store_run; eauto. lia.
  - eexists b, _. split; [done|]. split; [by apply mem_write_lookup|]. simpl. split.
    { rewrite zlen_splice by lia. unfold zlen at 2. rewrite length_insert. lia. }
    intros j y Hj. apply list_lookup_insert_Some in Hj as [(-> & [= ->] & _)|[Hne Hj]].
    + split; [done|]. rewrite <- Hzx. apply sub_splice_eq; lia.
    + destruct (Hx j y Hj) as [Hy Hsub]. split; [done|].
      transitivity (sub (Z.of_nat j * stride) size (blk_data blk)); [|done].
      apply sub_splice_ne; try lia; [nia|]. rewrite Hzx.
      destruct (Z.lt_ge_cases (Z.of_nat j) (Z.of_nat i)); nia.
  - by eapply only_write, list_elem_of_here.
Qed.

(** Forgetting elements. *)
Lemma arr_weaken m p stride size xs ys :
  arr m p stride size xs -> length ys = length xs ->
  (forall i x, ys !! i = Some (Some x) -> xs !! i = Some (Some x)) -> arr m p stride size ys.
Proof.
  intros (b & blk & -> & Hb & Hz & Hx) Hl Hsub. exists b, blk. split_and!; auto.
  unfold zlen in *. by rewrite Hl.
Qed.
