(* ===== verification/Allocator.v ===== *)
(** * Pluggable allocators ([d4np/core/d4np_allocator.h], [d4np_allocator.c])

    The system allocator of the C library, the vtable, the default allocator
    and the three dispatching entry points.  [AllocatorOk] is what the header
    promises of an allocator: the containers are verified against it, and
    [default_allocator_ok] shows that the default allocator keeps it. *)

From S2P Require Import Prelude Memory.

Local Open Scope Z_scope.

(** ** [malloc], [realloc] and [free]

    The environment decides which calls find no memory and where a block is
    placed; a block is aligned for every scalar type and no object is larger
    than [PTRDIFF_MAX] bytes. *)

Class Libc := {
  libc_oom : nat -> Z -> bool;    (* does the [n]-th call, for [size] bytes, fail? *)
  libc_page : nat -> Z -> N       (* where does it place the block? *)
}.

(** An upper bound of the identities in use. *)
Definition top_id (h : gmap nat block) : nat :=
  set_fold (fun i n => S i `max` n)%nat 0%nat (dom h).

Definition fresh_id (m : mem) : nat := (m_next m `max` top_id (m_heap m))%nat.

Section libc.
Context `{!Libc}.

Definition libc_addr (id : nat) (size : Z) : Z :=
  MAX_ALIGN * (1 + Z.of_N (libc_page id size)).

Definition libc_fails (id : nat) (size : Z) : bool :=
  libc_oom id size || (PTRDIFF_MAX <? size).

Definition malloc (size : Z) : M ptr := fun m =>
  let id := fresh_id m in
  if libc_fails id size then Some (Null, Mem (m_heap m) (S id))
  else Some (Ptr id 0,
             Mem (<[id := Block (libc_addr id size) (replicate (Z.to_nat size) Undef)]>
                  (m_heap m)) (S id)).

(** The old pointer is invalid after a successful call, whether or not the
    object moved: the result is a block of its own. *)
Definition realloc (p : ptr) (size : Z) : M ptr := fun m =>
  match p with
  | Null => malloc size m
  | Ptr b off =>
      match m_heap m !! b with
      | Some blk =>
          if decide (off = 0) then
            let id := fresh_id m in
            if libc_fails id size then Some (Null, Mem (m_heap m) (S id))
            else Some (Ptr id 0,
                       Mem (<[id := Block (libc_addr id size)
                                      (resize (Z.to_nat size) Undef (blk_data blk))]>
                            (delete b (m_heap m))) (S id))
          else None
      | None => None
      end
  end.

Definition free (p : ptr) : M unit := fun m =>
  match p with
  | Null => Some (tt, m)
  | Ptr b off =>
      match m_heap m !! b with
      | Some _ => if decide (off = 0) then Some (tt, Mem (delete b (m_heap m)) (m_next m))
                  else None
      | None => None
      end
  end.

End libc.

(** ** The vtable *)

Record d4np_allocator := Allocator {
  a_alloc : Z -> Z -> M ptr;                 (* size, align *)
  a_realloc : ptr -> Z -> Z -> Z -> M ptr;   (* ptr, old_size, new_size, align *)
  a_free : ptr -> Z -> M unit                (* ptr, size *)
}.

Section default_allocator.
Context `{!Libc}.

Definition align_ok (align : Z) : bool := align <=? MAX_ALIGN.

Definition default_alloc (size align : Z) : M ptr :=
  if (size =? 0) || negb (align_ok align) then mret Null else malloc size.

Definition default_realloc (p : ptr) (old_size new_size align : Z) : M ptr :=
  if negb (align_ok align) then mret Null
  else if new_size =? 0 then free p ;; mret Null
  else realloc p new_size.

Definition default_free (p : ptr) (size : Z) : M unit := free p.

Definition d4np_allocator_default : d4np_allocator :=
  Allocator default_alloc default_realloc default_free.

(** [a == NULL] selects the default allocator. *)
Definition resolve (a : option d4np_allocator) : d4np_allocator :=
  match a with None => d4np_allocator_default | Some a => a end.

Definition d4np_alloc (a : option d4np_allocator) (size align : Z) : M ptr :=
  a_alloc (resolve a) size align.

Definition d4np_realloc (a : option d4np_allocator) (p : ptr) (old_size new_size align : Z)
  : M ptr := a_realloc (resolve a) p old_size new_size align.

Definition d4np_free (a : option d4np_allocator) (p : ptr) (size : Z) : M unit :=
  a_free (resolve a) p size.

End default_allocator.

(** ** The contract of an allocator *)

(** [p] is a live allocation of [n] bytes. *)
Definition owned (m : mem) (p : ptr) (n : Z) : Prop :=
  exists b blk, p = Ptr b 0 /\ m_heap m !! b = Some blk /\ zlen (blk_data blk) = n.

(** [p] is [NULL] or a live allocation of [n] bytes. *)
Definition owned_opt (m : mem) (p : ptr) (n : Z) : Prop :=
  (p = Null /\ n = 0) \/ owned m p n.

Definition cells_of (m : mem) (p : ptr) : list cell :=
  match p with Null => [] | Ptr b _ => default [] (blk_data <$> m_heap m !! b) end.

Definition heap_free (p : ptr) (h : gmap nat block) : gmap nat block :=
  match p with Null => h | Ptr b _ => delete b h end.

(** A call that got [size] bytes for [cs] out of the heap [h]; on failure
    nothing has changed. *)
Definition alloc_post (h0 h : gmap nat block) (cs : list cell) (size align : Z)
    (p : ptr) (m' : mem) : Prop :=
  match p with
  | Null => m_heap m' = h0
  | Ptr b off =>
      off = 0 /\ h0 !! b = None /\ size <= PTRDIFF_MAX /\
      exists addr, 0 < addr /\ (align | addr) /\
        m_heap m' = <[b := Block addr (resize (Z.to_nat size) Undef cs)]> h
  end.

Class AllocatorOk (a : d4np_allocator) : Prop := {
  ok_alloc m size align :
    0 < size -> is_pow2 align ->
    wp (a_alloc a size align) m (alloc_post (m_heap m) (m_heap m) [] size align);
  ok_realloc m p old new align :
    0 < new -> is_pow2 align -> owned_opt m p old ->
    wp (a_realloc a p old new align) m
       (alloc_post (m_heap m) (heap_free p (m_heap m)) (cells_of m p) new align);
  ok_free m p size :
    p = Null \/ owned m p size ->
    wp (a_free a p size) m (fun _ m' => m_heap m' = heap_free p (m_heap m))
}.

(** ** The default allocator keeps the contract *)

Lemma top_id_gt h i : i ∈ dom h -> (i < top_id h)%nat.
Proof.
  unfold top_id. revert i.
  apply (set_fold_ind_L (fun n X => forall i, i ∈ X -> (i < n)%nat)); [set_solver|].
  intros x X r Hx IH i. rewrite elem_of_union, elem_of_singleton.
  intros [->|Hi]; [lia|]. specialize (IH i Hi). lia.
Qed.

Lemma fresh_id_ge m i blk : m_heap m !! i = Some blk -> (i < fresh_id m)%nat.
Proof.
  intros H. unfold fresh_id.
  pose proof (top_id_gt (m_heap m) i ltac:(apply elem_of_dom; eauto)). lia.
Qed.

Lemma fresh_id_None m : m_heap m !! fresh_id m = None.
Proof.
  destruct (m_heap m !! fresh_id m) eqn:E; [|done].
  apply fresh_id_ge in E. lia.
Qed.

Lemma pow2_divides_max_align align :
  is_pow2 align -> align <= MAX_ALIGN -> (align | MAX_ALIGN).
Proof.
  intros (k & Hk & ->) Hle. exists (2 ^ (4 - k)).
  assert (k <= 4).
  { apply Z.nlt_ge. intros Hlt. assert (2 ^ 5 <= 2 ^ k) by (apply Z.pow_le_mono_r; lia).
    size_lia. }
  rewrite <- Z.pow_add_r by lia. replace (4 - k + k) with 4 by lia. reflexivity.
Qed.

Section default_ok.
Context `{!Libc}.

Lemma libc_addr_aligned id size align :
  is_pow2 align -> align_ok align = true ->
  0 < libc_addr id size /\ (align | libc_addr id size).
Proof.
  intros Hp Ha. apply Z.leb_le in Ha. unfold libc_addr. split.
  - assert (0 <= Z.of_N (libc_page id size)) by lia. size_lia.
  - apply Z.divide_mul_l. by apply pow2_divides_max_align.
Qed.

Lemma libc_fails_false id size : libc_fails id size = false -> size <= PTRDIFF_MAX.
Proof. unfold libc_fails. rewrite orb_false_iff, Z.ltb_ge. tauto. Qed.

Lemma malloc_spec m size align :
  0 < size -> is_pow2 align -> align_ok align = true ->
  wp (malloc size) m (alloc_post (m_heap m) (m_heap m) [] size align).
Proof.
  intros Hs Hp Ha. unfold wp, malloc.
  destruct (libc_fails (fresh_id m) size) eqn:Hf; do 2 eexists; (split; [done|]); simpl; [done|].
  pose proof (libc_addr_aligned (fresh_id m) size align Hp Ha) as [? ?].
  split_and!; [done|apply fresh_id_None|by eapply libc_fails_false|].
  eexists. split_and!; [done..|]. by rewrite resize_nil.
Qed.

Lemma realloc_spec m p old new align :
  0 < new -> is_pow2 align -> align_ok align = true -> owned_opt m p old ->
  wp (realloc p new) m
     (alloc_post (m_heap m) (heap_free p (m_heap m)) (cells_of m p) new align).
Proof.
  intros Hs Hp Ha [[-> _]|(b & blk & -> & Hb & _)].
  { by apply (malloc_spec m new align). }
  unfold wp, realloc. rewrite Hb. rewrite decide_True by done.
  destruct (libc_fails (fresh_id m) new) eqn:Hf; do 2 eexists; (split; [done|]); simpl; [done|].
  pose proof (libc_addr_aligned (fresh_id m) new align Hp Ha) as [? ?].
  split_and!; [done|apply fresh_id_None|by eapply libc_fails_false|].
  eexists. split_and!; [done..|]. by rewrite Hb.
Qed.

Lemma free_spec m p size :
  p = Null \/ owned m p size ->
  wp (free p) m (fun _ m' => m_heap m' = heap_free p (m_heap m)).
Proof.
  intros [->|(b & blk & -> & Hb & _)]; [by exists tt, m|].
  unfold wp, free. rewrite Hb, decide_True by done. eauto.
Qed.

#[export] Instance default_allocator_ok : AllocatorOk d4np_allocator_default.
Proof.
  split; simpl.
  - intros m size align Hs Hp. unfold default_alloc.
    destruct (align_ok align) eqn:Ha; simpl.
    + rewrite orb_false_r. destruct (Z.eqb_spec size 0); [lia|]. by apply malloc_spec.
    + rewrite orb_true_r. by wp_ret.
  - intros m p old new align Hs Hp Ho. unfold default_realloc.
    destruct (align_ok align) eqn:Ha; simpl; [|by wp_ret].
    destruct (Z.eqb_spec new 0); [lia|]. by eapply realloc_spec.
  - intros m p size Ho. by eapply free_spec.
Qed.

(** A caller's allocator argument: absent, or one that keeps the contract. *)
Definition allocator_arg_ok (oa : option d4np_allocator) : Prop :=
  match oa with None => True | Some a => AllocatorOk a end.

Lemma resolve_ok oa : allocator_arg_ok oa -> AllocatorOk (resolve oa).
Proof. destruct oa; [done|]. intros _. apply _. Qed.

End default_ok.

(** ** The contract as the containers use it *)

(** A pointer held by a container: where its [n] bytes are. *)
Lemma owned_lookup m p n :
  owned m p n -> exists b blk, p = Ptr b 0 /\ m_heap m !! b = Some blk /\
    zlen (blk_data blk) = n /\ cells_of m p = blk_data blk.
Proof. intros (b & blk & -> & Hb & Hl). exists b, blk. simpl. by rewrite Hb. Qed.

Lemma owned_opt_pos m p n : owned_opt m p n -> 0 < n -> owned m p n.
Proof. intros [[_ ?]|]; [lia|done]. Qed.

Lemma owned_opt_size m p n : owned_opt m p n -> zlen (cells_of m p) = n.
Proof.
  intros [[-> ->]|(b & blk & -> & Hb & Hl)]; [done|]. simpl. by rewrite Hb.
Qed.

Lemma owned_opt_frame m m' p n ps :
  owned_opt m p n -> frame ps m m' -> (forall b off, p = Ptr b off -> ~ touches ps b) ->
  owned_opt m' p n /\ cells_of m' p = cells_of m p.
Proof.
  intros [[-> ->]|(b & blk & -> & Hb & Hl)] Hf Hd; [split; [by left|done]|].
  assert (m_heap m' !! b = Some blk) as Hb' by (apply Hf; eauto).
  split; [right; by exists b, blk|]. simpl. by rewrite Hb, Hb'.
Qed.

(** A result of [alloc] or [realloc]: nothing changed, or a new block. *)
Lemma alloc_post_inv m h cs size align p m' :
  alloc_post (m_heap m) h cs size align p m' -> 0 < size ->
  (p = Null /\ m_heap m' = m_heap m) \/
  (exists b, p = Ptr b 0 /\ m_heap m !! b = None /\ size <= PTRDIFF_MAX /\
     owned m' p size /\ cells_of m' p = resize (Z.to_nat size) Undef cs /\
     (forall b', b' <> b -> m_heap m' !! b' = h !! b')).
Proof.
  intros Hp Hs. destruct p as [|b off]; [by left|right].
  destruct Hp as (-> & Hn & Hm & addr & Ha & Hd & Hh). exists b.
  assert (m_heap m' !! b = Some (Block addr (resize (Z.to_nat size) Undef cs))) as Hb.
  { by rewrite Hh, lookup_insert_eq. }
  split_and!; auto.
  - exists b, (Block addr (resize (Z.to_nat size) Undef cs)). split_and!; auto.
    simpl. rewrite zlen_resize. lia.
  - simpl. by rewrite Hb.
  - intros b' Hne. by rewrite Hh, lookup_insert_ne.
Qed.

(** ** Several blocks at once

    [strip ps h] is the heap [h] without the blocks of [ps]: what a component
    that owns them leaves to everybody else. *)

Definition strip (ps : list ptr) (h : gmap nat block) : gmap nat block := foldr heap_free h ps.

Lemma heap_free_lookup p h b : ~ touches [p] b -> heap_free p h !! b = h !! b.
Proof.
  destruct p as [|b' off]; intros Hn; [done|]. simpl. apply lookup_delete_ne.
  intros ->. apply Hn, touches_here.
Qed.

Lemma heap_free_comm p q h : heap_free p (heap_free q h) = heap_free q (heap_free p h).
Proof. destruct p, q; simpl; try done. apply delete_delete. Qed.

Lemma strip_heap_free ps p h : strip ps (heap_free p h) = heap_free p (strip ps h).
Proof. induction ps as [|q ps IH]; simpl; [done|]. by rewrite IH, heap_free_comm. Qed.

Lemma strip_lookup ps h b : ~ touches ps b -> strip ps h !! b = h !! b.
Proof.
  induction ps as [|p ps IH]; intros Hn; simpl; [done|]. rewrite touches_cons in Hn.
  rewrite heap_free_lookup, IH; [done|tauto|]. rewrite touches_cons.
  intros [?|?%touches_nil]; tauto.
Qed.

Lemma strip_lookup_None ps h b : touches ps b -> strip ps h !! b = None.
Proof.
  induction ps as [|p ps IH]; simpl; [by intros ?%touches_nil|]. rewrite touches_cons.
  intros [[off ->]|Ht]; simpl; [by rewrite lookup_delete_eq|].
  destruct p as [|b' off]; simpl; [auto|]. rewrite lookup_delete. case_decide; auto.
Qed.

Definition in_block (b : nat) (p : ptr) : Prop :=
  match p with Ptr b' _ => b' = b | Null => False end.

#[export] Instance in_block_dec b p : Decision (in_block b p).
Proof. destruct p; simpl; apply _. Defined.

Lemma touches_Exists ps b : touches ps b <-> Exists (in_block b) ps.
Proof.
  rewrite Exists_exists. split.
  - intros [off Hin]. by exists (Ptr b off).
  - intros ([|b' off] & Hin & Hb); [done|]. simpl in Hb. subst. by exists off.
Qed.

#[export] Instance touches_dec ps b : Decision (touches ps b).
Proof. refine (cast_if (decide (Exists (in_block b) ps))); by rewrite touches_Exists. Defined.

(** Two heaps that differ only in the blocks of [ps]. *)
Lemma strip_only ps m m' : only ps m m' -> strip ps (m_heap m') = strip ps (m_heap m).
Proof.
  intros Ho. apply map_eq. intros b. destruct (decide (touches ps b)) as [Ht|Hn].
  - by rewrite !strip_lookup_None.
  - rewrite !strip_lookup by done. by apply Ho.
Qed.

(** What is freed was allocated: nothing else has changed. *)
Lemma alloc_undo h cs size align p m' :
  alloc_post h h cs size align p m' -> heap_free p (m_heap m') = h.
Proof.
  destruct p as [|b off]; simpl; [done|]. intros (_ & Hn & _ & addr & _ & _ & ->).
  by rewrite delete_insert_id.
Qed.

Lemma alloc_lookup h cs size align p m' b blk :
  alloc_post h h cs size align p m' -> h !! b = Some blk -> m_heap m' !! b = Some blk.
Proof.
  destruct p as [|b' off]; simpl; [by intros ->|]. intros (_ & Hn & _ & addr & _ & _ & ->) Hb.
  rewrite lookup_insert_ne; [done|]. intros ->. congruence.
Qed.

(** A system with memory to spare, and one that has none; block [n] is placed
    at page [n]. *)
Definition libc_plenty : Libc :=
  {| libc_oom := fun _ _ => false; libc_page := fun id _ => N.of_nat id |}.

Definition libc_exhausted : Libc :=
  {| libc_oom := fun _ _ => true; libc_page := fun id _ => N.of_nat id |}.
