(* ===== verification/Vector.v ===== *)
(** * Dynamic array ([d4np/ds/vector.h], [vector.c])

    The vector's operations on memory, the invariant [vec_rep] that relates a
    vector to the list of its elements, and the refinement of each operation
    to an operation on lists. *)

From S2P Require Import Prelude Status Memory Allocator.

Local Open Scope Z_scope.

Module Vector.

Definition D4NP_VECTOR_MIN_CAPACITY : Z := 8.

Record d4np_vector := Vec {
  v_allocator : option d4np_allocator;
  v_data : ptr;
  v_elem_size : Z;
  v_len : Z;
  v_capacity : Z
}.

Section code.
Context `{!Libc}.

(** A [d4np_vector_t *] argument is [None] when it is [NULL]; an operation
    returns the vector as it leaves it. *)
Definition d4np_vector_reserve (v : option d4np_vector) (min_capacity : Z)
  : M (d4np_status * option d4np_vector) :=
  match v with
  | None => mret (D4NP_ERR_INVALID_ARGUMENT, None)
  | Some v =>
      if min_capacity <=? v_capacity v then mret (D4NP_OK, Some v)
      else
        max ← size_div SIZE_MAX (v_elem_size v);
        if max <? min_capacity then mret (D4NP_ERR_OVERFLOW, Some v)
        else
          let new_bytes := min_capacity ⊠ v_elem_size v in
          let old_bytes := v_capacity v ⊠ v_elem_size v in
          p ← d4np_realloc (v_allocator v) (v_data v) old_bytes new_bytes MAX_ALIGN;
          if is_null p then mret (D4NP_ERR_OUT_OF_MEMORY, Some v)
          else mret (D4NP_OK, Some (Vec (v_allocator v) p (v_elem_size v) (v_len v) min_capacity))
  end.

Definition d4np_vector_init (v : option d4np_vector) (allocator : option d4np_allocator)
    (elem_size initial_capacity : Z) : M (d4np_status * option d4np_vector) :=
  match v with
  | None => mret (D4NP_ERR_INVALID_ARGUMENT, None)
  | Some v0 =>
      if elem_size =? 0 then mret (D4NP_ERR_INVALID_ARGUMENT, Some v0)
      else
        let v := Vec (Some (resolve allocator)) Null elem_size 0 0 in
        if 0 <? initial_capacity then d4np_vector_reserve (Some v) initial_capacity
        else mret (D4NP_OK, Some v)
  end.

Definition d4np_vector_destroy (v : option d4np_vector) : M (option d4np_vector) :=
  match v with
  | None => mret None
  | Some v =>
      if is_null (v_data v) then mret (Some v)
      else
        d4np_free (v_allocator v) (v_data v) (v_capacity v ⊠ v_elem_size v) ;;
        mret (Some (Vec (v_allocator v) Null (v_elem_size v) 0 0))
  end.

Definition d4np_vector_push (v : option d4np_vector) (elem : ptr)
  : M (d4np_status * option d4np_vector) :=
  match v with
  | None => mret (D4NP_ERR_INVALID_ARGUMENT, None)
  | Some v =>
      if is_null elem then mret (D4NP_ERR_INVALID_ARGUMENT, Some v)
      else
        '(rc, v) ←
          (if v_len v =? v_capacity v then
             let grown :=
               if v_capacity v =? 0 then D4NP_VECTOR_MIN_CAPACITY else v_capacity v ⊠ 2 in
             d4np_vector_reserve (Some v) grown
           else mret (D4NP_OK, Some v));
        match v with
        | Some v =>
            if decide (rc <> D4NP_OK) then mret (rc, Some v)
            else
              memcpy (padd (v_data v) (v_len v ⊠ v_elem_size v)) elem (v_elem_size v) ;;
              mret (D4NP_OK, Some (Vec (v_allocator v) (v_data v) (v_elem_size v)
                                       (v_len v ⊞ 1) (v_capacity v)))
        | None => fault
        end
  end.

Definition d4np_vector_pop (v : option d4np_vector) (out : ptr)
  : M (d4np_status * option d4np_vector) :=
  match v with
  | None => mret (D4NP_ERR_INVALID_ARGUMENT, None)
  | Some v =>
      if v_len v =? 0 then mret (D4NP_ERR_NOT_FOUND, Some v)
      else
        let v := Vec (v_allocator v) (v_data v) (v_elem_size v) (v_len v ⊟ 1) (v_capacity v) in
        (if is_null out then mret tt
         else memcpy out (padd (v_data v) (v_len v ⊠ v_elem_size v)) (v_elem_size v)) ;;
        mret (D4NP_OK, Some v)
  end.

End code.

#[global] Arguments d4np_vector_reserve : simpl never.

Definition d4np_vector_at (v : option d4np_vector) (index : Z) : ptr :=
  match v with
  | None => Null
  | Some v =>
      if v_len v <=? index then Null
      else padd (v_data v) (index ⊠ v_elem_size v)
  end.

Definition d4np_vector_len (v : option d4np_vector) : Z :=
  match v with Some v => v_len v | None => 0 end.

Definition d4np_vector_capacity (v : option d4np_vector) : Z :=
  match v with Some v => v_capacity v | None => 0 end.

Definition d4np_vector_is_empty (v : option d4np_vector) : bool :=
  match v with None => true | Some v => v_len v =? 0 end.

Definition d4np_vector_clear (v : option d4np_vector) : option d4np_vector :=
  match v with
  | Some v => Some (Vec (v_allocator v) (v_data v) (v_elem_size v) 0 (v_capacity v))
  | None => None
  end.

(** ** The invariant *)

(** In memory [m] the vector [v] holds the elements [xs], each the cells of
    one element. *)
Record vec_rep (m : mem) (v : d4np_vector) (xs : list (list cell)) : Prop := {
  vr_allocator : exists a, v_allocator v = Some a /\ AllocatorOk a;
  vr_elem_size : 0 < v_elem_size v;
  vr_len : v_len v = zlen xs;
  vr_elems : Forall (fun x => zlen x = v_elem_size v) xs;
  vr_capacity : v_len v <= v_capacity v;
  vr_bytes : v_capacity v * v_elem_size v <= PTRDIFF_MAX;
  vr_data : owned_opt m (v_data v) (v_capacity v * v_elem_size v);
  vr_cells : sub 0 (v_len v * v_elem_size v) (cells_of m (v_data v)) = concat xs
}.

Section proofs.
Context `{!Libc}.

Lemma zlen_concat (xs : list (list cell)) n :
  Forall (fun x => zlen x = n) xs -> zlen (concat xs) = zlen xs * n.
Proof.
  induction 1 as [|x xs Hx _ IH]; [done|]. simpl. rewrite zlen_app, zlen_cons. lia.
Qed.

(** The bounds every operation relies on: no index computation wraps. *)
Lemma vec_rep_bounds m v xs :
  vec_rep m v xs ->
  0 <= v_len v /\ v_len v <= v_capacity v <= PTRDIFF_MAX /\ 0 < v_elem_size v /\
  0 <= v_len v * v_elem_size v <= v_capacity v * v_elem_size v /\
  v_capacity v * v_elem_size v <= PTRDIFF_MAX.
Proof.
  intros [_ He Hl _ Hc Hb _ _]. pose proof (zlen_nonneg xs).
  split_and!; try lia; nia.
Qed.

Lemma vec_reserve_spec m v xs n :
  vec_rep m v xs -> is_size n ->
  wp (d4np_vector_reserve (Some v) n) m (fun '(st, ov) m' =>
    exists v', ov = Some v' /\ vec_rep m' v' xs /\ frame [v_data v] m m' /\
      v_elem_size v' = v_elem_size v /\ v_len v' = v_len v /\
      (forall b off, v_data v' = Ptr b off -> v_data v = v_data v' \/ m_heap m !! b = None) /\
      match st with
      | D4NP_OK => v_capacity v' = Z.max (v_capacity v) n
      | D4NP_ERR_OVERFLOW => v' = v /\ m' = m /\ SIZE_MAX < n * v_elem_size v
      | D4NP_ERR_OUT_OF_MEMORY => v' = v /\ m_heap m' = m_heap m
      | _ => False
      end).
Proof.
  intros Hr Hn. pose proof (vec_rep_bounds _ _ _ Hr) as (? & ? & ? & ? & ?).
  unfold d4np_vector_reserve.
  destruct (Z.leb_spec n (v_capacity v)) as [Hle|Hgt].
  { wp_ret. exists v. split_and!; auto with mem. lia. }
  wp_bind. eapply wp_run; [apply size_div_run; lia|].
  destruct (Z.ltb_spec (SIZE_MAX / v_elem_size v) n) as [Ho|Ho].
  { wp_ret. exists v. split_and!; auto with mem. apply size_mul_overflow; lia. }
  assert (n * v_elem_size v <= SIZE_MAX).
  { apply Z.nlt_ge. intros ?%size_mul_overflow; size_lia. }
  destruct Hr as [(a & Ha & Hok) ? Hl Hf ? Hb Hd Hc].
  unfold d4np_realloc. rewrite Ha. simpl. wp_bind.
  rewrite !size_mul_small by (unfold_size; nia).
  eapply wp_mono; [apply (ok_realloc m (v_data v) _ _ MAX_ALIGN); [nia| |exact Hd]|].
  { by exists 4. }
  intros p m' Hp. apply alloc_post_inv in Hp as
    [[-> Hh]|(b & -> & Hnone & Hmax & Hown & Hcells & Hoth)]; [| |nia]; simpl; wp_ret.
  - exists v. split_and!; auto with mem. split; eauto.
    + destruct Hd as [?|(b & blk & -> & ? & ?)]; [by left|right].
      exists b, blk. by rewrite Hh.
    + rewrite <- Hc. destruct (v_data v); [done|]. simpl. by rewrite Hh.
  - eexists. split; [done|]. split_and!; simpl; auto; [| |naive_solver|lia].
    + split; simpl; eauto; try lia.
      * by right.
      * simpl in Hcells. rewrite Hcells, <- Hc. apply sub_resize; [lia..| |].
        -- rewrite (owned_opt_size _ _ _ Hd). lia.
        -- nia.
    + intros b' blk Hb' Hlk. rewrite Hoth by congruence.
      destruct (v_data v) as [|b0 off0]; [done|]. simpl.
      rewrite lookup_delete_ne; [done|]. intros ->. apply Hb', touches_here.
Qed.

(** The cells of the [i]-th element inside the contiguous storage. *)
Lemma sub_concat (xs : list (list cell)) n i x :
  0 < n -> Forall (fun x => zlen x = n) xs -> xs !! i = Some x ->
  sub (Z.of_nat i * n) n (concat xs) = x.
Proof.
  intros Hn Hf. revert i. induction Hf as [|y xs Hy Hf IH]; intros i Hi; [done|].
  destruct i as [|i]; simpl in Hi; cbn [concat].
  - injection Hi as ->. rewrite Z.mul_0_l. unfold sub, zlen in *.
    rewrite Z2Nat.inj_0, drop_0, take_app_le by lia. apply take_ge. lia.
  - rewrite <- (IH i Hi). unfold sub, zlen in *. f_equal.
    rewrite drop_app_ge by lia. f_equal. nia.
Qed.

Lemma vec_rep_lookup m v xs i x :
  vec_rep m v xs -> xs !! i = Some x ->
  owned m (v_data v) (v_capacity v * v_elem_size v) /\
  Z.of_nat i * v_elem_size v + v_elem_size v <= v_len v * v_elem_size v /\
  sub (Z.of_nat i * v_elem_size v) (v_elem_size v) (cells_of m (v_data v)) = x.
Proof.
  intros Hr Hx. pose proof (vec_rep_bounds _ _ _ Hr) as (? & ? & ? & ? & ?).
  destruct Hr as [_ ? Hl Hf ? ? Hd Hc].
  assert (Z.of_nat i + 1 <= v_len v) by (apply lookup_lt_Some in Hx; unfold zlen in *; lia).
  assert (Z.of_nat i * v_elem_size v + v_elem_size v <= v_len v * v_elem_size v) by nia.
  split_and!; [apply owned_opt_pos; [done|nia]|done|].
  rewrite <- (sub_concat xs (v_elem_size v) i x), <- Hc by done.
  by rewrite sub_sub by lia.
Qed.

(** A pointer whose block the vector does not own. *)
Definition apart (v : d4np_vector) (p : ptr) : Prop :=
  forall b off, p = Ptr b off -> ~ touches [v_data v] b.

Lemma apart_overlap v p b o o' n :
  apart v p -> v_data v = Ptr b o -> overlap (Ptr b o') p n = false.
Proof.
  intros Ha Hd. destruct p as [|b' off]; [done|]. apply overlap_blocks. intros ->.
  apply (Ha b' off eq_refl). rewrite Hd. apply touches_here.
Qed.

(** Growth keeps a live pointer apart: the new storage is a new block. *)
Lemma apart_grow m v v' p n :
  valid m p n -> apart v p ->
  (forall b off, v_data v' = Ptr b off -> v_data v = v_data v' \/ m_heap m !! b = None) ->
  apart v' p.
Proof.
  intros (b & off & blk & -> & Hb & _) Ha Hfr b' off' [= <- <-] [o Hin].
  apply list_elem_of_singleton in Hin. destruct (Hfr b o (eq_sym Hin)) as [E|]; [|congruence].
  apply (Ha b off eq_refl). rewrite E, <- Hin. apply touches_here.
Qed.

(** The write of [d4np_vector_push] into spare capacity. *)
Lemma push_write m v xs elem x :
  vec_rep m v xs -> v_len v < v_capacity v -> load elem (v_elem_size v) m = Some (x, m) ->
  apart v elem ->
  wp (memcpy (padd (v_data v) (v_len v ⊠ v_elem_size v)) elem (v_elem_size v)) m (fun _ m' =>
    vec_rep m' (Vec (v_allocator v) (v_data v) (v_elem_size v) (v_len v ⊞ 1) (v_capacity v))
            (xs ++ [x]) /\ frame [v_data v] m m').
Proof.
  intros Hr Hlt Hld Hap. pose proof (vec_rep_bounds _ _ _ Hr) as (? & ? & ? & ? & ?).
  destruct Hr as [? ? Hl Hf ? Hb Hd Hc].
  assert (owned m (v_data v) (v_capacity v * v_elem_size v)) as Ho
    by (apply owned_opt_pos; [done|nia]).
  apply owned_lookup in Ho as (b & blk & Hdp & Hblk & Hzl & Hcs). rewrite Hdp, Hcs in *.
  rewrite (size_mul_small (v_len v)), size_add_small by size_lia. simpl. rewrite Z.add_0_l.
  assert (v_len v * v_elem_size v + v_elem_size v <= v_capacity v * v_elem_size v) by nia.
  destruct (load_inv _ _ _ _ _ Hld) as [_ Hzx]. specialize (Hzx ltac:(lia)).
  eapply wp_memcpy; [exact Hld|lia|by eapply apart_overlap|exact Hblk|lia|lia|].
  split; [|by eapply frame_write, list_elem_of_here].
  pose proof (mem_write_lookup b (v_len v * v_elem_size v) x m blk Hblk) as Hw.
  split; simpl; auto.
  - rewrite zlen_app, zlen_cons, zlen_nil. lia.
  - apply Forall_app; auto.
  - lia.
  - right. eexists b, _. split_and!; [done|exact Hw|]. simpl. rewrite zlen_splice; lia.
  - rewrite Hw. simpl. rewrite concat_app. simpl. rewrite app_nil_r, <- Hc, <- Hzx.
    rewrite Z.mul_add_distr_r, Z.mul_1_l, sub_app by lia. f_equal.
    + apply sub_splice_ne; lia.
    + apply sub_splice_eq; lia.
Qed.

Lemma push_spec m v xs elem x :
  vec_rep m v xs -> load elem (v_elem_size v) m = Some (x, m) ->
  apart v elem ->
  wp (d4np_vector_push (Some v) elem) m (fun '(st, ov) m' =>
    exists v', ov = Some v' /\ frame [v_data v] m m' /\ v_elem_size v' = v_elem_size v /\
      (forall b off, v_data v' = Ptr b off -> v_data v = v_data v' \/ m_heap m !! b = None) /\
      match st with
      | D4NP_OK => vec_rep m' v' (xs ++ [x])
      | D4NP_ERR_OVERFLOW | D4NP_ERR_OUT_OF_MEMORY =>
          v' = v /\ vec_rep m' v xs /\ m_heap m' = m_heap m
      | _ => False
      end).
Proof.
  intros Hr Hld Hap. pose proof (vec_rep_bounds _ _ _ Hr) as (? & ? & ? & ? & ?).
  destruct elem as [|eb eoff]; [done|]. simpl.
  destruct (Z.eqb_spec (v_len v) (v_capacity v)) as [Hfull|Hroom].
  2: { wp_bind. wp_ret. simpl. wp_bind. eapply wp_mono; [apply push_write; eauto; lia|].
       intros _ m' [? ?]. wp_ret. eexists. split_and!; eauto. }
  set (grown := if v_capacity v =? 0 then _ else _).
  assert (is_size grown /\ v_capacity v < grown) as [Hg Hgt].
  { unfold grown, D4NP_VECTOR_MIN_CAPACITY.
    destruct (Z.eqb_spec (v_capacity v) 0); [size_lia|]. size_simpl. size_lia. }
  wp_bind. eapply wp_mono; [by apply vec_reserve_spec|].
  intros [st ov] m1 (v1 & -> & Hr1 & Hf1 & Hes & Hl1 & Hfresh & Hst).
  case_decide as Hst'.
  { wp_ret. exists v1. destruct st; try done; destruct Hst as (-> & Hst); split_and!; auto.
    by destruct Hst as [-> _]. }
  subst st.
  wp_bind. eapply wp_mono; [apply (push_write m1 v1 xs _ x Hr1); [lia| |eapply apart_grow; eauto using load_valid]|].
  { rewrite Hes. eapply load_frame; [exact Hld|]. simpl in Hld.
    destruct (m_heap m !! eb) as [eblk|] eqn:He; [|done].
    apply Hf1; [by apply (Hap eb eoff)|done]. }
  intros _ m2 [Hr2 Hf2]. wp_ret. eexists. split_and!; eauto.
  eapply frame_trans; [exact Hf1|exact Hf2|].
  intros b [off Hin]. apply list_elem_of_singleton in Hin.
  destruct (Hfresh b off (eq_sym Hin)) as [E|]; [left|by right].
  rewrite E. rewrite <- Hin. apply touches_here.
Qed.

Lemma vec_rep_frame m m' v xs ps :
  vec_rep m v xs -> frame ps m m' -> (forall b off, v_data v = Ptr b off -> ~ touches ps b) ->
  vec_rep m' v xs.
Proof.
  intros [? ? ? ? ? ? Hd Hc] Hf Hn.
  destruct (owned_opt_frame _ _ _ _ _ Hd Hf Hn) as [Hd' Hc'].
  split; auto. by rewrite Hc'.
Qed.

(** Dropping the last element of the representation. *)
Lemma vec_rep_drop m v xs x :
  vec_rep m v (xs ++ [x]) ->
  v_len v ⊟ 1 = zlen xs /\
  vec_rep m (Vec (v_allocator v) (v_data v) (v_elem_size v) (v_len v ⊟ 1) (v_capacity v)) xs.
Proof.
  intros Hr. pose proof (vec_rep_bounds _ _ _ Hr) as (? & ? & ? & ? & ?).
  destruct Hr as [? ? Hl Hf ? ? Hd Hc].
  rewrite zlen_app, zlen_cons, zlen_nil in Hl. pose proof (zlen_nonneg xs).
  rewrite size_sub_small by size_lia. split; [lia|].
  apply Forall_app in Hf as [Hf Hx]. split; simpl; auto; try lia.
  transitivity (sub 0 ((v_len v - 1) * v_elem_size v) (concat (xs ++ [x]))).
  - rewrite <- Hc, sub_sub by nia. f_equal.
  - rewrite concat_app. unfold sub. rewrite Z2Nat.inj_0, drop_0.
    rewrite take_app_le by (pose proof (zlen_concat xs _ Hf); unfold zlen in *; nia).
    apply take_ge. pose proof (zlen_concat xs _ Hf). unfold zlen in *. nia.
Qed.

Lemma pop_spec m v xs x out :
  vec_rep m v (xs ++ [x]) ->
  out = Null \/ (valid m out (v_elem_size v) /\ apart v out) ->
  wp (d4np_vector_pop (Some v) out) m (fun '(st, ov) m' =>
    st = D4NP_OK /\ frame [out] m m' /\
    (exists v', ov = Some v' /\ v_elem_size v' = v_elem_size v /\ v_data v' = v_data v /\
                vec_rep m' v' xs) /\
    (out <> Null -> load out (v_elem_size v) m' = Some (x, m'))).
Proof.
  intros Hr Hout. pose proof (vec_rep_bounds _ _ _ Hr) as (? & ? & ? & ? & ?). simpl.
  pose proof (vec_rep_drop _ _ _ _ Hr) as [Hl' Hr'].
  assert ((xs ++ [x]) !! length xs = Some x) as Hx by (by apply list_lookup_middle).
  pose proof (vec_rep_lookup _ _ _ _ _ Hr Hx) as (Ho & Hle & Hsub).
  pose proof (vr_len _ _ _ Hr) as Hl. rewrite zlen_app, zlen_cons, zlen_nil in Hl.
  pose proof (zlen_nonneg xs). destruct (Z.eqb_spec (v_len v) 0); [lia|].
  destruct Hout as [->|[(ob & ooff & oblk & -> & Hob & Hoo & Hol) Hap]]; simpl.
  { wp_bind. wp_ret. wp_ret. split_and!; eauto 10 with mem. done. }
  apply owned_lookup in Ho as (b & blk & Hdp & Hblk & Hzl & Hcs). rewrite Hcs in Hsub.
  change (zlen xs * v_elem_size v + v_elem_size v <= v_len v * v_elem_size v) in Hle.
  assert (0 <= zlen xs * v_elem_size v) by nia.
  rewrite Hl', size_mul_small by size_lia.
  rewrite Hdp. simpl. wp_bind.
  assert (load (Ptr b (zlen xs * v_elem_size v)) (v_elem_size v) m = Some (x, m)) as Hld.
  { unfold load. rewrite Hblk, decide_True by (rewrite Hzl; lia).
    unfold zlen. by rewrite Hsub. }
  destruct (load_inv _ _ _ _ _ Hld) as [_ Hzx]. specialize (Hzx ltac:(lia)).
  eapply wp_memcpy; [exact Hld|lia| |exact Hob|lia|lia|].
  { apply overlap_blocks. intros ->. apply (Hap b ooff eq_refl). rewrite Hdp. apply touches_here. }
  wp_ret.
  assert (frame [Ptr ob ooff] m (mem_write ob ooff x m)) as Hfr
    by (by eapply frame_write, list_elem_of_here).
  split_and!; [done|done| |].
  - eexists. split_and!; [done|done|done|]. rewrite <- Hl', <- Hdp.
    eapply vec_rep_frame; [exact Hr'|exact Hfr|]. simpl. rewrite Hdp.
    intros b' off' [= <- <-] (off2 & Hin). apply list_elem_of_singleton in Hin as [= -> ->].
    apply (Hap ob ooff eq_refl). rewrite Hdp. apply touches_here.
  - intros _. rewrite <- Hzx. eapply load_after_write; [exact Hob|lia|lia].
Qed.

Lemma at_spec m v xs i :
  vec_rep m v xs -> is_size i ->
  match xs !! Z.to_nat i with
  | Some x => load (d4np_vector_at (Some v) i) (v_elem_size v) m = Some (x, m)
  | None => d4np_vector_at (Some v) i = Null
  end.
Proof.
  intros Hr Hi. pose proof (vec_rep_bounds _ _ _ Hr) as (? & ? & ? & ? & ?).
  pose proof (vr_len _ _ _ Hr) as Hl. simpl.
  destruct (xs !! Z.to_nat i) as [x|] eqn:Hx.
  - pose proof (vec_rep_lookup _ _ _ _ _ Hr Hx) as (Ho & Hle & Hsub).
    rewrite Z2Nat.id in * by size_lia. apply lookup_lt_Some in Hx.
    destruct (Z.leb_spec (v_len v) i); [unfold zlen in *; lia|].
    apply owned_lookup in Ho as (b & blk & Hdp & Hblk & Hzl & Hcs). rewrite Hcs in Hsub.
    assert (0 <= i * v_elem_size v) by size_nia.
    rewrite size_mul_small, Hdp, padd_0 by size_lia. unfold load.
    rewrite Hblk, decide_True by lia. by rewrite Hsub.
  - apply lookup_ge_None in Hx. destruct (Z.leb_spec (v_len v) i); [done|].
    unfold zlen in *. size_lia.
Qed.

Lemma vec_destroy_spec m v xs :
  vec_rep m v xs ->
  wp (d4np_vector_destroy (Some v)) m (fun ov m' =>
    m_heap m' = heap_free (v_data v) (m_heap m) /\
    exists v', ov = Some v' /\ v_elem_size v' = v_elem_size v /\
      v_data v' = Null /\ vec_rep m' v' []).
Proof.
  intros Hr. pose proof (vec_rep_bounds _ _ _ Hr) as (? & ? & ? & ? & ?).
  destruct Hr as [(a & Ha & Hok) ? Hl Hf ? Hb Hd Hc]. simpl.
  destruct (v_data v) as [|b off] eqn:Hdp; simpl.
  { wp_ret. split; [done|]. exists v. split_and!; auto. destruct Hd as [[_ Hz]|(? & ? & ? & _)]; [|done].
    assert (v_capacity v = 0) by nia. assert (v_len v = 0) by lia.
    split; eauto; rewrite ?Hdp; auto; try lia; [by left|apply sub_nil]. }
  destruct Hd as [[? _]|Ho]; [done|]. wp_bind. unfold d4np_free. rewrite Ha. simpl.
  rewrite size_mul_small by size_lia.
  eapply wp_mono; [apply ok_free; right; exact Ho|]. intros [] m' Hh. simpl in Hh. wp_ret.
  split; [done|]. eexists. split_and!; [done|done|done|]. split; simpl; eauto; try lia. by left.
Qed.

Lemma vec_init_spec m v0 oa es n :
  allocator_arg_ok oa -> 0 < es <= SIZE_MAX -> is_size n ->
  wp (d4np_vector_init (Some v0) oa es n) m (fun '(st, ov) m' =>
    exists v, ov = Some v /\ vec_rep m' v [] /\ v_elem_size v = es /\ frame [] m m' /\
      (forall b off, v_data v = Ptr b off -> m_heap m !! b = None) /\
      match st with
      | D4NP_OK => v_capacity v = n
      | D4NP_ERR_OVERFLOW => SIZE_MAX < n * es
      | D4NP_ERR_OUT_OF_MEMORY => m_heap m' = m_heap m
      | _ => False
      end).
Proof.
  intros Ha Hes Hn. apply resolve_ok in Ha. simpl.
  destruct (Z.eqb_spec es 0); [lia|].
  set (v := Vec _ _ _ _ _).
  assert (vec_rep m v []) as Hr.
  { split; simpl; eauto; try lia; [size_lia|by left]. }
  destruct (Z.ltb_spec 0 n) as [Hpos|Hz].
  - eapply wp_mono; [by apply vec_reserve_spec|].
    intros [st ov] m' (v' & -> & Hr' & Hf & He & Hl & Hfr & Hst).
    exists v'. split_and!; auto.
    + intros b blk _ Hb. apply Hf; [|done]. intros [off Hin]. set_solver.
    + intros b off Hd. destruct (Hfr b off Hd) as [E|]; [|done]. by rewrite Hd in E.
    + simpl in Hst. destruct st; naive_solver lia.
  - wp_ret. exists v. split_and!; auto with mem; [done|]. simpl. size_lia.
Qed.

(** ** Programs over a vector

    A client with one element-sized buffer of its own runs a list of
    operations; what it observes is what a plain list would give it. *)

Inductive vop :=
  | VPush (x : list cell)
  | VPop
  | VAt (i : Z)
  | VReserve (n : Z)
  | VClear.

Inductive vout :=
  | OStatus (st : d4np_status)
  | OElem (x : option (list cell))
  | ODone.

Definition with_vec {A} (ov : option d4np_vector) (k : d4np_vector -> M A) : M A :=
  match ov with Some v => k v | None => fault end.

Definition run_op (v : d4np_vector) (buf : ptr) (op : vop) : M (vout * d4np_vector) :=
  match op with
  | VPush x =>
      store buf x ;;
      '(st, ov) ← d4np_vector_push (Some v) buf; with_vec ov (fun v => mret (OStatus st, v))
  | VPop =>
      '(st, ov) ← d4np_vector_pop (Some v) buf;
      with_vec ov (fun v =>
        if decide (st = D4NP_OK) then x ← load buf (v_elem_size v); mret (OElem (Some x), v)
        else mret (OElem None, v))
  | VAt i =>
      let p := d4np_vector_at (Some v) i in
      if is_null p then mret (OElem None, v)
      else x ← load p (v_elem_size v); mret (OElem (Some x), v)
  | VReserve n =>
      '(st, ov) ← d4np_vector_reserve (Some v) n; with_vec ov (fun v => mret (OStatus st, v))
  | VClear => with_vec (d4np_vector_clear (Some v)) (fun v => mret (ODone, v))
  end.

Fixpoint run_ops (v : d4np_vector) (buf : ptr) (ops : list vop) : M (list vout * d4np_vector) :=
  match ops with
  | [] => mret ([], v)
  | op :: ops =>
      '(o, v) ← run_op v buf op; '(os, v) ← run_ops v buf ops; mret (o :: os, v)
  end.

(** The same operations on a list: only [push] and [reserve] may fail, and
    then nothing has changed. *)
Inductive vstep : list (list cell) -> vop -> vout -> list (list cell) -> Prop :=
  | vstep_push xs x : vstep xs (VPush x) (OStatus D4NP_OK) (xs ++ [x])
  | vstep_push_fail xs x st :
      st = D4NP_ERR_OVERFLOW \/ st = D4NP_ERR_OUT_OF_MEMORY ->
      vstep xs (VPush x) (OStatus st) xs
  | vstep_pop xs x : vstep (xs ++ [x]) VPop (OElem (Some x)) xs
  | vstep_pop_empty : vstep [] VPop (OElem None) []
  | vstep_at xs i : vstep xs (VAt i) (OElem (xs !! Z.to_nat i)) xs
  | vstep_reserve xs n st :
      st = D4NP_OK \/ st = D4NP_ERR_OVERFLOW \/ st = D4NP_ERR_OUT_OF_MEMORY ->
      vstep xs (VReserve n) (OStatus st) xs
  | vstep_clear xs : vstep xs VClear ODone [].

Inductive vsteps : list (list cell) -> list vop -> list vout -> list (list cell) -> Prop :=
  | vsteps_nil xs : vsteps xs [] [] xs
  | vsteps_cons xs op o xs' ops os xs'' :
      vstep xs op o xs' -> vsteps xs' ops os xs'' -> vsteps xs (op :: ops) (o :: os) xs''.

(** The arguments a client may pass. *)
Definition op_ok (es : Z) (op : vop) : Prop :=
  match op with
  | VPush x => zlen x = es
  | VAt i | VReserve i => is_size i
  | VPop | VClear => True
  end.

(** The vector and the client's buffer, side by side. *)
Definition vec_client (m : mem) (v : d4np_vector) (buf : ptr) (xs : list (list cell)) : Prop :=
  vec_rep m v xs /\ valid m buf (v_elem_size v) /\ apart v buf.

Lemma apart_touches v p b off : apart v p -> v_data v = Ptr b off -> ~ touches [p] b.
Proof.
  intros Ha Hd [off' Hin]. apply list_elem_of_singleton in Hin.
  apply (Ha b off'); [done|]. rewrite Hd. apply touches_here.
Qed.

Lemma vec_client_grow m m' v v' buf xs :
  valid m buf (v_elem_size v) -> apart v buf -> frame [v_data v] m m' ->
  v_elem_size v' = v_elem_size v ->
  (forall b off, v_data v' = Ptr b off -> v_data v = v_data v' \/ m_heap m !! b = None) ->
  vec_rep m' v' xs -> vec_client m' v' buf xs.
Proof.
  intros Hv Ha Hf He Hfr Hr.
  split_and!; [done|rewrite He; by eapply valid_frame|by eapply apart_grow].
Qed.

(** What one operation of a client leaves. *)
Definition op_post (xs : list (list cell)) (v : d4np_vector) (buf : ptr) (op : vop)
    (r : vout * d4np_vector) (m' : mem) : Prop :=
  exists xs', vstep xs op r.1 xs' /\ vec_client m' r.2 buf xs' /\ v_elem_size r.2 = v_elem_size v.

Lemma run_push m v buf xs x :
  vec_client m v buf xs -> zlen x = v_elem_size v ->
  wp (run_op v buf (VPush x)) m (op_post xs v buf (VPush x)).
Proof.
  intros (Hr & (b & off & blk & -> & Hb & ? & ?) & Ha) Hx. unfold run_op. wp_bind.
  eapply wp_store; [done..|lia|]. set (m1 := mem_write b off x m).
  assert (frame [Ptr b off] m m1) as Hf by (by eapply frame_write, list_elem_of_here).
  assert (vec_rep m1 v xs) as Hr1 by (eapply vec_rep_frame; eauto using apart_touches).
  assert (valid m1 (Ptr b off) (v_elem_size v)) as Hv1
    by (rewrite <- Hx; eapply valid_write; eauto; lia).
  wp_bind. eapply wp_mono; [apply (push_spec m1 v xs _ x); [done| |done]|].
  { rewrite <- Hx. eapply load_after_write; eauto. lia. }
  intros [st ov] m2 (v2 & -> & Hf2 & He2 & Hfr2 & Hst). simpl. wp_ret. unfold op_post. simpl.
  destruct st; try done; [exists (xs ++ [x])|destruct Hst as (-> & ? & _); exists xs..];
    (split_and!; [constructor; auto|by eapply vec_client_grow|done]).
Qed.

Lemma run_pop m v buf xs :
  vec_client m v buf xs -> wp (run_op v buf VPop) m (op_post xs v buf VPop).
Proof.
  intros (Hr & Hv & Ha). unfold run_op, op_post.
  destruct xs as [|x ys _] using rev_ind.
  { pose proof (vr_len _ _ _ Hr) as Hl. rewrite zlen_nil in Hl.
    unfold d4np_vector_pop. rewrite Hl. wp_bind. wp_ret. simpl. wp_ret.
    exists []. by split_and!; [constructor| |]. }
  wp_bind. eapply wp_mono; [eapply pop_spec; eauto|].
  intros [st ov] m2 (-> & Hf & (v2 & -> & He & Hd & Hr2) & Hld). simpl.
  assert (buf <> Null) as Hnn by (by destruct Hv as (? & ? & ? & -> & _)).
  wp_bind. rewrite He. eapply wp_run; [by apply Hld|]. wp_ret. simpl.
  exists ys. split_and!; [constructor| |done]. split_and!; [done| |].
  - rewrite He. eapply load_valid, Hld, Hnn.
  - intros b off E. rewrite Hd. by eapply Ha.
Qed.

Lemma run_at m v buf xs i :
  vec_client m v buf xs -> is_size i -> wp (run_op v buf (VAt i)) m (op_post xs v buf (VAt i)).
Proof.
  intros Hc Hi. pose proof (at_spec m v xs i (proj1 Hc) Hi) as Hat. unfold run_op, op_post.
  assert (vstep xs (VAt i) (OElem (xs !! Z.to_nat i)) xs) as Hst by constructor.
  destruct (xs !! Z.to_nat i) as [x|].
  - destruct (d4np_vector_at (Some v) i) as [|b off]; [done|]. cbn [is_null].
    wp_bind. eapply wp_run; [exact Hat|]. wp_ret. by exists xs.
  - rewrite Hat. wp_ret. by exists xs.
Qed.

Lemma run_reserve m v buf xs n :
  vec_client m v buf xs -> is_size n ->
  wp (run_op v buf (VReserve n)) m (op_post xs v buf (VReserve n)).
Proof.
  intros (Hr & Hv & Ha) Hn. unfold run_op, op_post. wp_bind.
  eapply wp_mono; [by apply vec_reserve_spec|].
  intros [st ov] m' (v' & -> & Hr' & Hf & He & _ & Hfr & Hst). simpl. wp_ret. exists xs.
  split_and!; [|by eapply vec_client_grow|done]. constructor. destruct st; tauto.
Qed.

Lemma run_clear m v buf xs :
  vec_client m v buf xs -> wp (run_op v buf VClear) m (op_post xs v buf VClear).
Proof.
  intros (Hr & Hv & Ha). pose proof (vec_rep_bounds _ _ _ Hr) as (? & ? & ? & ? & ?).
  unfold op_post. simpl. wp_ret. exists []. split_and!; [constructor| |done].
  split_and!; [|done|done]. destruct Hr. split; simpl; auto; lia.
Qed.

Lemma run_op_refines m v buf xs op :
  vec_client m v buf xs -> op_ok (v_elem_size v) op ->
  wp (run_op v buf op) m (op_post xs v buf op).
Proof. destruct op; eauto using run_push, run_pop, run_at, run_reserve, run_clear. Qed.

Lemma run_ops_refines m v buf xs ops :
  vec_client m v buf xs -> Forall (op_ok (v_elem_size v)) ops ->
  wp (run_ops v buf ops) m (fun '(os, v') m' =>
    exists xs', vsteps xs ops os xs' /\ vec_client m' v' buf xs').
Proof.
  intros Hc Hops. revert m v xs Hc Hops.
  induction ops as [|op ops IH]; intros m v xs Hc Hops; simpl.
  { wp_ret. exists xs. by split; [constructor|]. }
  inversion_clear Hops. wp_bind. eapply wp_mono; [by apply run_op_refines|].
  intros [o v1] m1 (xs1 & Hs & Hc1 & He). simpl in *. wp_bind.
  eapply wp_mono; [apply IH; [exact Hc1|by rewrite He]|].
  intros [os v2] m2 (xs2 & Hss & Hc2). wp_ret. exists xs2. split; [|done].
  by econstructor.
Qed.

(** ** Properties *)

(** C2. Any sequence of vector operations, run on a freshly initialised
    vector by a client that owns an element-sized buffer, is free of undefined
    behaviour (no out-of-bounds access, no overflow of a size computation,
    every block released with its exact size) and observes exactly what the
    same operations on a list give: [push] appends, [pop] returns the last
    element, [at] indexes with [NULL] out of range, and an operation that
    reports out-of-memory or overflow has changed nothing. *)
Theorem vector_program_refines m v0 oa es n buf ops :
  allocator_arg_ok oa -> 0 < es <= SIZE_MAX -> is_size n ->
  valid m buf es -> Forall (op_ok es) ops ->
  wp ('(st, ov) ← d4np_vector_init (Some v0) oa es n; with_vec ov (fun v => run_ops v buf ops)) m
     (fun '(os, v) m' => exists xs, vsteps [] ops os xs /\ vec_client m' v buf xs).
Proof.
  intros Ha Hes Hn Hv Hops. wp_bind. eapply wp_mono; [by apply vec_init_spec|].
  intros [st ov] m1 (v & -> & Hr & He & Hf & Hfr & _). simpl.
  apply run_ops_refines; [|by rewrite He]. split_and!; [done|rewrite He|].
  - eapply valid_frame; [done|exact Hf|]. intros b off _ [? ?%not_elem_of_nil]. done.
  - destruct Hv as (b & off & blk & -> & Hb & _). intros b' off' [= <- <-] [o Hin].
    apply list_elem_of_singleton in Hin. rewrite (Hfr b o) in Hb; congruence.
Qed.

(** C38. [push] reads the element only after it has grown the storage: pushing
    an element of the vector itself, through the pointer [d4np_vector_at]
    returns, onto a full vector reads freed memory whenever the growth
    succeeds. *)
Theorem vector_push_own_element_faults m v xs i :
  vec_rep m v xs -> v_allocator v = Some d4np_allocator_default ->
  v_len v = v_capacity v -> 0 <= i < v_len v ->
  libc_fails (fresh_id m) (v_capacity v * 2 * v_elem_size v) = false ->
  d4np_vector_push (Some v) (d4np_vector_at (Some v) i) m = None.
Proof.
  intros Hr Hda Hfull Hi Hok. pose proof (vec_rep_bounds _ _ _ Hr) as (? & ? & ? & ? & ?).
  pose proof (libc_fails_false _ _ Hok) as Hmax.
  assert (owned m (v_data v) (v_capacity v * v_elem_size v)) as Ho
    by (apply owned_opt_pos; [apply Hr|nia]).
  apply owned_lookup in Ho as (b & blk & Hd & Hb & _ & _).
  unfold d4np_vector_at. destruct (Z.leb_spec (v_len v) i); [lia|].
  rewrite Hd, padd_0. set (o := i ⊠ v_elem_size v). unfold d4np_vector_push. cbn [is_null].
  destruct (Z.eqb_spec (v_len v) (v_capacity v)); [|lia].
  destruct (Z.eqb_spec (v_capacity v) 0); [lia|].
  rewrite (size_mul_small (v_capacity v) 2) by size_lia.
  unfold d4np_vector_reserve. destruct (Z.leb_spec (v_capacity v * 2) (v_capacity v)); [lia|].
  unfold mbind, M_bind. rewrite size_div_run by lia.
  destruct (Z.ltb_spec (SIZE_MAX / v_elem_size v) (v_capacity v * 2)) as [Hov|].
  { apply size_mul_overflow in Hov; size_lia. }
  rewrite !size_mul_small by size_nia.
  unfold d4np_realloc. rewrite Hda. cbn [resolve a_realloc d4np_allocator_default].
  unfold default_realloc, align_ok. rewrite Z.leb_refl. cbn [negb].
  destruct (Z.eqb_spec (v_capacity v * 2 * v_elem_size v) 0); [nia|].
  unfold realloc. rewrite Hd, Hb, decide_True by done. rewrite Hok.
  pose proof (fresh_id_ge m b blk Hb).
  cbn. rewrite decide_False by (intros Hne; by apply Hne).
  unfold memcpy. rewrite overlap_blocks by lia. unfold mbind, M_bind, load. cbn [m_heap].
  by rewrite lookup_insert_ne, lookup_delete_eq by lia.
Qed.

End proofs.

(** *** Witnesses *)

Section witnesses.
#[local] Existing Instance libc_plenty.

(** Memory holding one two-byte buffer of the client. *)
Definition buf_mem : mem := Mem {[ 0%nat := Block 16 [Undef; Undef] ]} 1.

Definition zero_vec : d4np_vector := Vec None Null 0 0 0.

Lemma vector_program_refines_witness :
  let ops := [VPush [Byte 1; Byte 2]; VPush [Byte 3; Byte 4]; VAt 0; VPop; VPop; VPop] in
  wp ('(st, ov) ← d4np_vector_init (Some zero_vec) None 2 1;
      with_vec ov (fun v => run_ops v (Ptr 0 0) ops)) buf_mem
     (fun '(os, v) m' => exists xs, vsteps [] ops os xs /\ vec_client m' v (Ptr 0 0) xs).
Proof.
  intros ops. apply vector_program_refines; [done|size_lia|size_lia| |].
  - exists 0%nat, 0, (Block 16 [Undef; Undef]). done.
  - repeat constructor; size_lia.
Defined.

(** A full vector of one two-byte element. *)
Definition full_vec : d4np_vector := Vec (Some d4np_allocator_default) (Ptr 0 0) 2 1 1.
Definition full_mem : mem := Mem {[ 0%nat := Block 16 [Byte 7; Byte 8] ]} 1.

Lemma full_vec_rep : vec_rep full_mem full_vec [[Byte 7; Byte 8]].
Proof.
  split; simpl; try done; [exists d4np_allocator_default; split; [done|apply _]
    |repeat constructor|right; by eexists 0%nat, _].
Qed.

Lemma vector_push_own_element_faults_witness :
  d4np_vector_push (Some full_vec) (d4np_vector_at (Some full_vec) 0) full_mem = None.
Proof.
  apply (vector_push_own_element_faults full_mem full_vec [[Byte 7; Byte 8]]);
    [exact full_vec_rep|reflexivity|reflexivity|simpl; lia|reflexivity].
Defined.

End witnesses.
End Vector.
