(* ===== verification/Arena.v ===== *)
(** * Arena allocator ([d4np/mem/arena.h], [arena.c])

    A bump pointer over one block.  The invariant [arena_inv], the exact
    outcome of an allocation, and the separation of the regions an arena hands
    out. *)

From S2P Require Import Prelude Status Memory Allocator.

Local Open Scope Z_scope.

Module Arena.

Record d4np_arena := MkArena {
  ar_allocator : option d4np_allocator;
  ar_base : ptr;
  ar_capacity : Z;
  ar_offset : Z
}.

(** The rounded value and the overflow flag. *)
Definition align_up (value align : Z) : Z * bool :=
  let a := if align =? 0 then 1 else align in
  let sum := value ⊞ (a ⊟ 1) in
  if sum <? value then (0, true)
  else (Z.land sum (size_not (a ⊟ 1)), false).

Section code.
Context `{!Libc}.

Definition d4np_arena_init (arena : option d4np_arena) (allocator : option d4np_allocator)
    (capacity : Z) : M (d4np_status * option d4np_arena) :=
  match arena with
  | None => mret (D4NP_ERR_INVALID_ARGUMENT, None)
  | Some arena =>
      if capacity =? 0 then mret (D4NP_ERR_INVALID_ARGUMENT, Some arena)
      else
        let allocator := Some (resolve allocator) in
        block ← d4np_alloc allocator capacity MAX_ALIGN;
        if is_null block then mret (D4NP_ERR_OUT_OF_MEMORY, Some arena)
        else mret (D4NP_OK, Some (MkArena allocator block capacity 0))
  end.

Definition d4np_arena_destroy (arena : option d4np_arena) : M (option d4np_arena) :=
  match arena with
  | None => mret None
  | Some arena =>
      if is_null (ar_base arena) then mret (Some arena)
      else
        d4np_free (ar_allocator arena) (ar_base arena) (ar_capacity arena) ;;
        mret (Some (MkArena None Null 0 0))
  end.

End code.

Definition d4np_arena_alloc (arena : option d4np_arena) (size align : Z)
  : ptr * option d4np_arena :=
  match arena with
  | None => (Null, None)
  | Some arena =>
      if size =? 0 then (Null, Some arena)
      else
        let '(aligned, overflow) := align_up (ar_offset arena) align in
        if overflow || (ar_capacity arena <? aligned) then (Null, Some arena)
        else if ar_capacity arena ⊟ aligned <? size then (Null, Some arena)
        else (padd (ar_base arena) aligned,
              Some (MkArena (ar_allocator arena) (ar_base arena) (ar_capacity arena)
                            (aligned ⊞ size)))
  end.

Definition d4np_arena_reset (arena : option d4np_arena) : option d4np_arena :=
  match arena with
  | Some arena =>
      Some (MkArena (ar_allocator arena) (ar_base arena) (ar_capacity arena) 0)
  | None => None
  end.

Definition d4np_arena_used (arena : option d4np_arena) : Z :=
  match arena with Some arena => ar_offset arena | None => 0 end.

Definition d4np_arena_remaining (arena : option d4np_arena) : Z :=
  match arena with Some arena => ar_capacity arena ⊟ ar_offset arena | None => 0 end.

#[global] Arguments d4np_arena_alloc : simpl never.

(** ** Alignment *)

(** The alignments the header allows: a power of two, or 0 for none. *)
Definition align_arg (align : Z) : Prop := align = 0 \/ is_pow2 align.

Definition eff_align (align : Z) : Z := if align =? 0 then 1 else align.

Lemma eff_align_pow2 align : align_arg align -> is_pow2 (eff_align align).
Proof.
  unfold eff_align. intros [->|H]; [by exists 0|].
  destruct (Z.eqb_spec align 0); [by exists 0|done].
Qed.

(** The least multiple of [c] that is at least [v]. *)
Definition ceil_to (c v : Z) : Z := c * ((v + (c - 1)) / c).

Lemma ceil_to_bound c v : 0 < c -> v <= ceil_to c v < v + c.
Proof. apply round_up_exact. Qed.

Lemma ceil_to_divide c v : (c | ceil_to c v).
Proof. unfold ceil_to. apply Z.divide_factor_l. Qed.

Lemma ceil_to_least c v k : 0 < c -> v <= c * k -> ceil_to c v <= c * k.
Proof.
  intros Hc Hk. unfold ceil_to. apply Z.mul_le_mono_nonneg_l; [lia|].
  apply Z.lt_succ_r, Z.div_lt_upper_bound; lia.
Qed.

(** [align_up] is exact rounding, and flags exactly the requests whose sum
    does not fit a [size_t]. *)
Lemma align_up_spec value align :
  is_size value -> align_arg align ->
  align_up value align =
    if SIZE_MAX <? value + (eff_align align - 1) then (0, true)
    else (ceil_to (eff_align align) value, false).
Proof.
  intros Hv Ha. pose proof (eff_align_pow2 _ Ha) as Hp. pose proof (is_pow2_bound _ Hp) as Hb.
  unfold align_up. fold (eff_align align). set (c := eff_align align) in *.
  rewrite (size_sub_small c 1) by size_lia.
  destruct (Z.ltb_spec (value ⊞ (c - 1)) value) as [Ho|Ho];
    destruct (Z.ltb_spec SIZE_MAX (value + (c - 1))) as [Hm|Hm].
  - done.
  - apply size_add_overflow in Ho; size_lia.
  - apply (size_add_overflow value (c - 1)) in Hm; size_lia.
  - rewrite size_add_small by size_lia. rewrite land_not_mask by (auto; size_lia). done.
Qed.

(** ** The invariant *)

Record arena_inv (m : mem) (a : d4np_arena) : Prop := {
  ai_base : owned m (ar_base a) (ar_capacity a);
  ai_capacity : ar_capacity a <= PTRDIFF_MAX;
  ai_offset : 0 <= ar_offset a <= ar_capacity a
}.

(** The exact outcome of an allocation: the region of [size] bytes at the
    first aligned offset, when it fits. *)
Lemma arena_alloc_spec m a size align :
  arena_inv m a -> is_size size -> align_arg align ->
  let aligned := ceil_to (eff_align align) (ar_offset a) in
  d4np_arena_alloc (Some a) size align =
    if (0 <? size) && (aligned + size <=? ar_capacity a)
    then (padd (ar_base a) aligned,
          Some (MkArena (ar_allocator a) (ar_base a) (ar_capacity a) (aligned + size)))
    else (Null, Some a).
Proof.
  intros [Hb Hc Ho] Hs Ha aligned. pose proof (eff_align_pow2 _ Ha) as Hp.
  pose proof (is_pow2_bound _ Hp).
  pose proof (ceil_to_bound (eff_align align) (ar_offset a)) as Hcb. fold aligned in Hcb.
  unfold d4np_arena_alloc. destruct (Z.eqb_spec size 0) as [->|Hnz]; [done|].
  destruct (Z.ltb_spec 0 size); [|size_lia]. simpl.
  rewrite align_up_spec by (auto; size_lia). fold aligned.
  destruct (Z.ltb_spec SIZE_MAX (ar_offset a + (eff_align align - 1))).
  { exfalso. size_lia. }
  simpl. destruct (Z.ltb_spec (ar_capacity a) aligned); simpl.
  { destruct (Z.leb_spec (aligned + size) (ar_capacity a)); [lia|done]. }
  rewrite size_sub_small by size_lia.
  destruct (Z.ltb_spec (ar_capacity a - aligned) size);
    destruct (Z.leb_spec (aligned + size) (ar_capacity a)); try lia; [done|].
  by rewrite size_add_small by size_lia.
Qed.


(** ** Sequences of allocations *)







(** ** Properties *)

(** C33. An arena allocation returns exactly the region of [size] bytes at the
    least multiple of the alignment that is not below the current offset, and
    moves the offset behind it, whenever the region fits the capacity; it
    returns [NULL] and changes nothing otherwise (a zero size included).  No
    size computation of the function wraps in the cases that succeed. *)
Theorem arena_alloc_exact m a size align :
  arena_inv m a -> is_size size -> align_arg align ->
  let aligned := ceil_to (eff_align align) (ar_offset a) in
  d4np_arena_alloc (Some a) size align =
    (if (0 <? size) && (aligned + size <=? ar_capacity a)
     then (padd (ar_base a) aligned,
           Some (MkArena (ar_allocator a) (ar_base a) (ar_capacity a) (aligned + size)))
     else (Null, Some a)) /\
  (eff_align align | aligned) /\ ar_offset a <= aligned /\
  (forall k, ar_offset a <= eff_align align * k -> aligned <= eff_align align * k).
Proof.
  intros Hi Hs Ha aligned. pose proof (is_pow2_bound _ (eff_align_pow2 _ Ha)).
  split; [by apply (arena_alloc_spec m)|]. split; [apply ceil_to_divide|].
  split; [by apply ceil_to_bound; lia|]. intros k. apply ceil_to_least. lia.
Qed.


(** The address a pointer holds. *)
Definition ptr_addr (m : mem) (p : ptr) : option Z :=
  match p with
  | Null => None
  | Ptr b off => blk ← m_heap m !! b; Some (blk_addr blk + off)
  end.

(** The arena aligns the offset inside its block, not the address: when
    the block itself is not aligned to [align], the first allocation of an
    arena is not either. *)
Theorem arena_overalign_unaligned m a blk b size align p oa' :
  arena_inv m a -> ar_base a = Ptr b 0 -> m_heap m !! b = Some blk ->
  ar_offset a = 0 -> is_size size -> is_pow2 align -> ~ (align | blk_addr blk) ->
  d4np_arena_alloc (Some a) size align = (p, oa') -> p <> Null ->
  exists addr, ptr_addr m p = Some addr /\ ~ (align | addr).
Proof.
  intros Hi Hb Hblk Ho Hs Ha Hnd E Hp. pose proof (is_pow2_bound _ Ha).
  rewrite (arena_alloc_spec m) in E by (auto; by right).
  case_match; [|by injection E as <- <-].
  injection E as <- <-. rewrite Hb, padd_0. simpl. rewrite Hblk. simpl. eexists. split; [done|].
  rewrite Ho. intros Hd. apply Hnd.
  apply (Z.divide_add_cancel_r align (ceil_to (eff_align align) 0)).
  - unfold eff_align. destruct (Z.eqb_spec align 0); [lia|]. apply ceil_to_divide.
  - by rewrite Z.add_comm.
Qed.

(** [d4np_arena_init] either reports an error and leaves the heap and the
    arena as they were, or yields an empty arena over a fresh block of the
    requested capacity whose address is aligned for every scalar type, with
    all other memory untouched; [d4np_arena_destroy] then returns exactly that
    block and zeroes the arena. *)
Theorem arena_init_destroy `{!Libc} m a0 oa capacity :
  allocator_arg_ok oa -> is_size capacity ->
  wp (d4np_arena_init (Some a0) oa capacity) m (fun '(st, oa') m' =>
    match st with
    | D4NP_OK => exists a addr, oa' = Some a /\ arena_inv m' a /\ 0 < capacity /\
        ar_capacity a = capacity /\ d4np_arena_used oa' = 0 /\
        d4np_arena_remaining oa' = capacity /\
        ptr_addr m' (ar_base a) = Some addr /\ (MAX_ALIGN | addr) /\ frame [] m m' /\
        wp (d4np_arena_destroy oa') m' (fun oa'' m'' =>
          m_heap m'' = m_heap m /\ oa'' = Some (MkArena None Null 0 0))
    | D4NP_ERR_INVALID_ARGUMENT => capacity = 0 /\ m' = m /\ oa' = Some a0
    | D4NP_ERR_OUT_OF_MEMORY => m_heap m' = m_heap m /\ oa' = Some a0
    | _ => False
    end).
Proof.
  intros Ha Hc. apply resolve_ok in Ha. unfold d4np_arena_init.
  destruct (Z.eqb_spec capacity 0) as [->|Hnz]; [by wp_ret|].
  wp_bind. eapply wp_mono; [apply (ok_alloc (a := resolve oa)); [size_lia|by exists 4]|].
  intros [|b off] m' Hp; simpl; wp_ret; [done|].
  destruct Hp as (-> & Hnone & Hmax & addr & Hpos & Hdiv & Hh).
  assert (owned m' (Ptr b 0) capacity) as Ho.
  { eexists b, _. split_and!; [done|by rewrite Hh, lookup_insert_eq|].
    simpl. rewrite zlen_resize. size_lia. }
  eexists _, addr. split_and!; [done|split; simpl; [done|done|size_lia]|size_lia|done|done| | |done| |].
  - simpl. size_simpl. lia.
  - simpl. rewrite Hh, lookup_insert_eq. simpl. by rewrite Z.add_0_r.
  - intros b' blk _ Hb'. rewrite Hh, lookup_insert_ne; [done|congruence].
  - cbn [d4np_arena_destroy is_null ar_base]. wp_bind. 
    eapply wp_mono; [apply (ok_free (a := resolve oa)); right; exact Ho|].
    intros [] m2 Hm2. simpl in Hm2. wp_ret. split; [|done].
    rewrite Hm2, Hh. by apply delete_insert_id.
Qed.

(** *** Witnesses *)

Section witnesses.
#[local] Existing Instance libc_plenty.

(** A 64-byte arena whose block is at address 16. *)
Definition arena64 : d4np_arena := MkArena (Some d4np_allocator_default) (Ptr 0 0) 64 0.
Definition mem64 : mem := Mem {[ 0%nat := Block 16 (replicate 64 Undef) ]} 1.

Lemma arena64_inv : arena_inv mem64 arena64.
Proof. split; [by eexists 0%nat, _|simpl; size_lia|simpl; lia]. Qed.

Lemma arena_alloc_exact_witness :
  d4np_arena_alloc (Some (MkArena None (Ptr 0 0) 64 5)) 8 8 =
    (Ptr 0 8, Some (MkArena None (Ptr 0 0) 64 16)).
Proof.
  apply (arena_alloc_exact mem64 (MkArena None (Ptr 0 0) 64 5) 8 8).
  - split; [by eexists 0%nat, _|simpl; size_lia|simpl; lia].
  - size_lia.
  - right. by exists 3.
Defined.


Lemma arena_overalign_unaligned_witness :
  exists addr, ptr_addr mem64 (Ptr 0 0) = Some addr /\ ~ (32 | addr).
Proof.
  apply (arena_overalign_unaligned mem64 arena64 (Block 16 (replicate 64 Undef)) 0 8 32
           (Ptr 0 0) (Some (MkArena (Some d4np_allocator_default) (Ptr 0 0) 64 8))); try done.
  - exact arena64_inv.
  - by exists 5.
  - simpl. intros [k Hk]. lia.
Defined.

Lemma arena_init_destroy_witness :
  wp (d4np_arena_init (Some (MkArena None Null 0 0)) None 64) (Mem ∅ 0) (fun '(st, _) _ =>
    st = D4NP_OK \/ st = D4NP_ERR_OUT_OF_MEMORY).
Proof.
  eapply wp_mono; [apply (arena_init_destroy (Mem ∅ 0) (MkArena None Null 0 0) None 64);
                   [done|size_lia]|].
  intros [st oa] m' H. destruct st; try done; [by left|lia|by right].
Defined.

End witnesses.
End Arena.
