(* ===== verification/Pool.v ===== *)
(** * Fixed-block pool ([d4np/mem/pool.h], [pool.c])

    Slots of one block threaded into a free list whose links are stored in the
    free slots themselves.  The invariant [pool_inv] names the free slots in
    list order; a client program of allocations, frees and writes into the
    slots it holds never breaks it, and the slots are aligned. *)

From S2P Require Import Prelude Status Memory Allocator.

Local Open Scope Z_scope.

Module Pool.

Record d4np_pool := MkPool {
  pl_allocator : option d4np_allocator;
  pl_base : ptr;
  pl_free_list : ptr;
  pl_stride : Z;
  pl_block_count : Z;
  pl_total_size : Z;
  pl_free_count : Z
}.

Definition round_up (value multiple : Z) : Z :=
  Z.land (value ⊞ (multiple ⊟ 1)) (size_not (multiple ⊟ 1)).

(** [for (size_t i = block_count; i-- > 0;)]: the loop that threads the free
    list from the last slot to the first. *)
Fixpoint thread_free_list (base : ptr) (stride : Z) (i : nat) (head : ptr) : M ptr :=
  match i with
  | O => mret head
  | S i =>
      let node := padd base (Z.of_nat i ⊠ stride) in
      store_ptr node head ;;
      thread_free_list base stride i node
  end.

Section code.
Context `{!Libc}.

Definition d4np_pool_init (pool : option d4np_pool) (allocator : option d4np_allocator)
    (block_size block_count : Z) : M (d4np_status * option d4np_pool) :=
  match pool with
  | None => mret (D4NP_ERR_INVALID_ARGUMENT, None)
  | Some pool =>
      if (block_size =? 0) || (block_count =? 0)
      then mret (D4NP_ERR_INVALID_ARGUMENT, Some pool)
      else
        let allocator := Some (resolve allocator) in
        let slot := if block_size <? PTR_SIZE then PTR_SIZE else block_size in
        let stride := round_up slot MAX_ALIGN in
        if stride <? slot then mret (D4NP_ERR_OVERFLOW, Some pool)
        else if negb (stride =? 0) && (SIZE_MAX / stride <? block_count)
        then mret (D4NP_ERR_OVERFLOW, Some pool)
        else
          let total := stride ⊠ block_count in
          block ← d4np_alloc allocator total MAX_ALIGN;
          if is_null block then mret (D4NP_ERR_OUT_OF_MEMORY, Some pool)
          else
            head ← thread_free_list block stride (Z.to_nat block_count) Null;
            mret (D4NP_OK,
                  Some (MkPool allocator block head stride block_count total block_count))
  end.

Definition d4np_pool_alloc (pool : option d4np_pool) : M (ptr * option d4np_pool) :=
  match pool with
  | None => mret (Null, None)
  | Some pool =>
      if is_null (pl_free_list pool) then mret (Null, Some pool)
      else
        let node := pl_free_list pool in
        next ← load_ptr node;
        mret (node, Some (MkPool (pl_allocator pool) (pl_base pool) next (pl_stride pool)
                                 (pl_block_count pool) (pl_total_size pool)
                                 (pl_free_count pool ⊟ 1)))
  end.

(** The distance of two pointers into the same block. *)
Definition pdiff (p q : ptr) : M Z :=
  match p, q with
  | Ptr b o, Ptr b' o' => if decide (b = b') then mret (o - o') else fault
  | _, _ => fault
  end.

(** A debug build: the three assertions are checked. *)
Definition d4np_pool_free (pool : option d4np_pool) (p : ptr) : M (option d4np_pool) :=
  match pool with
  | None => mret None
  | Some pool =>
      if is_null p then mret (Some pool)
      else
        d ← pdiff p (pl_base pool);
        massert (0 <=? d) ;;
        massert (d <? pl_total_size pool) ;;
        massert (d mod pl_stride pool =? 0) ;;
        store_ptr p (pl_free_list pool) ;;
        mret (Some (MkPool (pl_allocator pool) (pl_base pool) p (pl_stride pool)
                           (pl_block_count pool) (pl_total_size pool)
                           (pl_free_count pool ⊞ 1)))
  end.

Definition d4np_pool_destroy (pool : option d4np_pool) : M (option d4np_pool) :=
  match pool with
  | None => mret None
  | Some pool =>
      if is_null (pl_base pool) then mret (Some pool)
      else
        d4np_free (pl_allocator pool) (pl_base pool) (pl_total_size pool) ;;
        mret (Some (MkPool None Null Null 0 0 0 0))
  end.

Definition d4np_pool_available (pool : option d4np_pool) : Z :=
  match pool with Some pool => pl_free_count pool | None => 0 end.

End code.

(** ** Rounding *)

(** The exact stride of a slot of at least [n] bytes. *)
Definition slot_stride (n : Z) : Z := 16 * ((Z.max n 8 + 15) / 16).

Lemma slot_stride_bound n : Z.max n 8 <= slot_stride n < Z.max n 8 + 16.
Proof. exact (round_up_exact (Z.max n 8) 16 eq_refl). Qed.

Lemma slot_stride_aligned n : (MAX_ALIGN | slot_stride n).
Proof. unfold slot_stride. apply Z.divide_factor_l. Qed.

(** The machine address a pointer stands for. *)
Definition address (m : mem) (p : ptr) : option Z :=
  match p with
  | Null => None
  | Ptr b o => blk ← m_heap m !! b; Some (blk_addr blk + o)
  end.

(** ** The free list *)

(** The pointer to the first of the slots [free], in block [b]. *)
Definition head_ptr (b : nat) (stride : Z) (free : list nat) : ptr :=
  match free with [] => Null | i :: _ => Ptr b (Z.of_nat i * stride) end.

(** Every free slot holds the pointer to the next one. *)
Fixpoint chain (b : nat) (stride : Z) (data : list cell) (free : list nat) : Prop :=
  match free with
  | [] => True
  | i :: rest =>
      sub (Z.of_nat i * stride) PTR_SIZE data = ptr_cells (head_ptr b stride rest) /\
      chain b stride data rest
  end.

Record pool_inv (m : mem) (p : d4np_pool) (b : nat) (free : list nat) : Prop := {
  pi_allocator : exists a, pl_allocator p = Some a /\ AllocatorOk a;
  pi_base : pl_base p = Ptr b 0;
  pi_stride : 8 <= pl_stride p;
  pi_slot_align : (MAX_ALIGN | pl_stride p);
  pi_block_align : forall blk, m_heap m !! b = Some blk -> (MAX_ALIGN | blk_addr blk);
  pi_count : 0 < pl_block_count p;
  pi_total : pl_total_size p = pl_stride p * pl_block_count p;
  pi_max : pl_total_size p <= PTRDIFF_MAX;
  pi_owned : owned m (Ptr b 0) (pl_total_size p);
  pi_free_list : pl_free_list p = head_ptr b (pl_stride p) free;
  pi_free_count : pl_free_count p = zlen free;
  pi_nodup : NoDup free;
  pi_range : Forall (fun i => Z.of_nat i < pl_block_count p) free;
  pi_chain : chain b (pl_stride p) (cells_of m (Ptr b 0)) free
}.

Lemma slot_bounds i n stride :
  8 <= stride -> Z.of_nat i < n -> 0 <= Z.of_nat i * stride /\
  Z.of_nat i * stride + stride <= stride * n.
Proof. intros. split; nia. Qed.

Lemma slots_disjoint i j stride :
  i <> j -> 0 <= stride ->
  Z.of_nat i * stride + stride <= Z.of_nat j * stride \/
  Z.of_nat j * stride + stride <= Z.of_nat i * stride.
Proof.
  intros Hij Hs. destruct (decide (i < j)%nat) as [H|H]; [left|right]; nia.
Qed.

(** A write inside a slot that is not free leaves the chain alone. *)
Lemma chain_splice b stride data free i off cs n :
  8 <= stride -> i ∉ free -> Z.of_nat i < n ->
  Forall (fun j => Z.of_nat j < n) free -> stride * n <= zlen data ->
  Z.of_nat i * stride <= off -> off + zlen cs <= Z.of_nat i * stride + stride ->
  chain b stride data free -> chain b stride (splice off cs data) free.
Proof.
  intros Hs Hni Hi Hr Hd Ho Hl. induction free as [|j rest IH]; simpl; [done|].
  apply not_elem_of_cons in Hni as [Hij Hni]. apply Forall_cons in Hr as [Hj Hr].
  intros [Hc Hch]. split; [|by apply IH]. rewrite <- Hc.
  pose proof (slot_bounds i n stride Hs Hi). pose proof (slot_bounds j n stride Hs Hj).
  pose proof (slots_disjoint i j stride Hij ltac:(lia)).
  pose proof (zlen_nonneg cs). apply sub_splice_ne; unfold PTR_SIZE; lia.
Qed.

(** Threading: from slot [i] down to slot 0. *)
Lemma thread_spec b stride n i m blk :
  8 <= stride -> (i <= n)%nat -> stride * Z.of_nat n <= PTRDIFF_MAX ->
  m_heap m !! b = Some blk -> zlen (blk_data blk) = stride * Z.of_nat n ->
  chain b stride (blk_data blk) (seq i (n - i)) ->
  wp (thread_free_list (Ptr b 0) stride i (head_ptr b stride (seq i (n - i)))) m
     (fun h m' => h = head_ptr b stride (seq 0 n) /\
        (exists blk', m_heap m' !! b = Some blk' /\ blk_addr blk' = blk_addr blk /\
           zlen (blk_data blk') = stride * Z.of_nat n /\
           chain b stride (blk_data blk') (seq 0 n)) /\
        only [Ptr b 0] m m').
Proof.
  intros Hs. revert m blk. induction i as [|i IH]; intros m blk Hi Hmax Hb Hz Hch; cbn [thread_free_list].
  { wp_ret. rewrite Nat.sub_0_r in *. split_and!; eauto with mem. }
  pose proof (slot_bounds i (Z.of_nat n) stride Hs ltac:(lia)).
  rewrite size_mul_small by size_lia. rewrite padd_0.
  set (rest := seq (S i) (n - S i)) in *.
  assert (seq i (n - i) = i :: rest) as Heq.
  { replace (n - i)%nat with (S (n - S i)) by lia. done. }
  wp_bind. unfold store_ptr. eapply wp_store; [exact Hb|lia|rewrite ptr_cells_length; size_lia|].
  eapply wp_mono.
  - assert (Ptr b (Z.of_nat i * stride) = head_ptr b stride (seq i (n - i))) as -> by (by rewrite Heq).
    eapply IH; [lia|done|by apply mem_write_lookup|simpl; rewrite zlen_splice; rewrite ?ptr_cells_length; size_lia|].
    rewrite Heq. simpl. split.
    + rewrite <- (ptr_cells_length (head_ptr b stride rest)). apply sub_splice_eq;
        rewrite ?ptr_cells_length; size_lia.
    + eapply (chain_splice _ _ _ _ i _ _ (Z.of_nat n)); eauto; rewrite ?ptr_cells_length; try size_lia.
      * unfold rest. rewrite elem_of_seq. lia.
      * apply Forall_forall. intros j. unfold rest. rewrite elem_of_seq. lia.
  - intros h m' (-> & (blk' & Hb' & Ha' & Hz' & Hc') & Hf). split_and!; eauto.
    eapply only_trans; [eapply only_write, list_elem_of_here|exact Hf].
Qed.

Section proofs.
Context `{!Libc}.

Lemma pool_inv_data m p b free :
  pool_inv m p b free -> exists blk, m_heap m !! b = Some blk /\
    cells_of m (Ptr b 0) = blk_data blk /\
    zlen (blk_data blk) = pl_stride p * pl_block_count p.
Proof.
  intros Hi. pose proof (pi_owned _ _ _ _ Hi) as Ho. pose proof (pi_total _ _ _ _ Hi) as Ht.
  apply owned_lookup in Ho as (b' & blk & [= <-] & Hb & Hz & Hc). exists blk.
  split_and!; auto. lia.
Qed.

(** There are at most as many free slots as slots. *)
Lemma free_bound free n :
  NoDup free -> Forall (fun i => Z.of_nat i < n) free -> zlen free <= Z.max 0 n.
Proof.
  intros Hnd Hr. pose proof (submseteq_length free (seq 0 (Z.to_nat n))) as Hlen.
  rewrite length_seq in Hlen. unfold zlen. apply Nat2Z.inj_le in Hlen; [lia|].
  apply NoDup_submseteq; [done|]. intros j Hj. rewrite elem_of_seq.
  rewrite Forall_forall in Hr. specialize (Hr j Hj). lia.
Qed.

Lemma pool_alloc_spec m p b free :
  pool_inv m p b free ->
  wp (d4np_pool_alloc (Some p)) m (fun '(q, op) m' => m' = m /\
    match free with
    | [] => q = Null /\ op = Some p
    | i :: rest => q = Ptr b (Z.of_nat i * pl_stride p) /\
        exists p', op = Some p' /\ pl_stride p' = pl_stride p /\
          pl_block_count p' = pl_block_count p /\ pool_inv m p' b rest
    end).
Proof.
  intros Hi. destruct (pool_inv_data _ _ _ _ Hi) as (blk & Hb & Hc & Hz).
  destruct Hi as [Ha Hbase Hs Hsa Hba Hn Ht Hmax Ho Hfl Hfc Hnd Hr Hch]. unfold d4np_pool_alloc.
  rewrite Hfl. destruct free as [|i rest]; simpl; [by wp_ret|].
  apply Forall_cons in Hr as [Hi Hr]. apply NoDup_cons in Hnd as [Hni Hnd].
  rewrite Hc in Hch. destruct Hch as [Hsub Hch].
  pose proof (slot_bounds i _ _ Hs Hi).
  wp_bind. eapply wp_run; [eapply load_ptr_run; eauto; size_lia|]. wp_ret.
  split_and!; [done|done|]. eexists. split_and!; [done|done|done|].
  rewrite zlen_cons in Hfc.
  pose proof (free_bound rest _ Hnd Hr).
  assert (pl_block_count p <= pl_total_size p) by nia.
  pose proof (zlen_nonneg rest).
  split; simpl; auto; [|by rewrite Hb].
  rewrite Hfc. size_simpl. lia.
Qed.

Lemma pool_free_spec m p b free i :
  pool_inv m p b free -> Z.of_nat i < pl_block_count p -> i ∉ free ->
  wp (d4np_pool_free (Some p) (Ptr b (Z.of_nat i * pl_stride p))) m (fun op m' =>
    exists p', op = Some p' /\ pl_stride p' = pl_stride p /\
      pl_block_count p' = pl_block_count p /\
      pool_inv m' p' b (i :: free) /\ only [Ptr b 0] m m').
Proof.
  intros Hi Hlt Hni. destruct (pool_inv_data _ _ _ _ Hi) as (blk & Hb & Hc & Hz).
  destruct Hi as [Ha Hbase Hs Hsa Hba Hn Ht Hmax Ho Hfl Hfc Hnd Hr Hch].
  pose proof (slot_bounds i _ _ Hs Hlt). unfold d4np_pool_free. cbn [is_null].
  rewrite Hbase. wp_bind. unfold pdiff. rewrite decide_True by done. wp_ret.
  rewrite Z.sub_0_r. destruct (Z.leb_spec 0 (Z.of_nat i * pl_stride p)); [|lia].
  destruct (Z.ltb_spec (Z.of_nat i * pl_stride p) (pl_total_size p)); [|lia].
  rewrite Z.mod_mul by lia. cbn [massert Z.eqb]. do 3 (wp_bind; wp_ret). wp_bind.
  unfold store_ptr. eapply wp_store; [exact Hb|lia|rewrite ptr_cells_length; size_lia|].
  wp_ret. eexists. split_and!; [done|done|done| |by eapply only_write, list_elem_of_here].
  pose proof (mem_write_lookup b (Z.of_nat i * pl_stride p) (ptr_cells (pl_free_list p)) m blk Hb) as Hw.
  pose proof (free_bound free _ Hnd Hr).
  assert (pl_block_count p <= pl_total_size p) by nia.
  pose proof (zlen_nonneg free).
  split; simpl; auto.
  - intros blk' Hb'. rewrite Hw in Hb'. injection Hb' as <-. exact (Hba _ Hb).
  - eexists b, _. split_and!; [done|exact Hw|]. simpl.
    rewrite zlen_splice; rewrite ?ptr_cells_length; size_lia.
  - rewrite zlen_cons, Hfc. size_simpl. lia.
  - by constructor.
  - rewrite Hw. simpl. split.
    + rewrite <- Hfl, <- (ptr_cells_length (pl_free_list p)). apply sub_splice_eq;
        rewrite ?ptr_cells_length; size_lia.
    + rewrite Hc in Hch. eapply (chain_splice _ _ _ _ i _ _ (pl_block_count p)); eauto; rewrite ?ptr_cells_length; size_lia.
Qed.

(** A client's write into a slot it holds. *)
Lemma pool_write_spec m p b free i off cs :
  pool_inv m p b free -> Z.of_nat i < pl_block_count p -> i ∉ free ->
  0 <= off -> off + zlen cs <= pl_stride p ->
  wp (store (Ptr b (Z.of_nat i * pl_stride p + off)) cs) m (fun _ m' =>
    pool_inv m' p b free /\ only [Ptr b 0] m m').
Proof.
  intros Hi Hlt Hni Ho Hl. destruct (pool_inv_data _ _ _ _ Hi) as (blk & Hb & Hc & Hz).
  destruct Hi as [Ha Hbase Hs Hsa Hba Hn Ht Hmax Hown Hfl Hfc Hnd Hr Hch].
  pose proof (slot_bounds i _ _ Hs Hlt). 
  eapply wp_store; [exact Hb|lia|lia|]. split; [|by eapply only_write, list_elem_of_here].
  pose proof (mem_write_lookup b (Z.of_nat i * pl_stride p + off) cs m blk Hb) as Hw.
  split; auto.
  - intros blk' Hb'. rewrite Hw in Hb'. injection Hb' as <-. exact (Hba _ Hb).
  - eexists b, _. split_and!; [done|exact Hw|]. simpl. rewrite zlen_splice; lia.
  - simpl. rewrite Hw. rewrite Hc in Hch. eapply (chain_splice _ _ _ _ i _ _ (pl_block_count p)); eauto; lia.
Qed.

(** Initialisation: every branch. *)
Lemma pool_init_spec m p0 oa bs bc :
  allocator_arg_ok oa -> is_size bs -> is_size bc ->
  wp (d4np_pool_init (Some p0) oa bs bc) m (fun '(st, op) m' =>
    match st with
    | D4NP_OK => bs <> 0 /\ bc <> 0 /\ exists p b, op = Some p /\ pool_inv m' p b (seq 0 (Z.to_nat bc)) /\
        pl_stride p = slot_stride bs /\ pl_block_count p = bc /\
        pl_allocator p = Some (resolve oa) /\ m_heap m !! b = None /\ frame [] m m' /\
        (forall b', b' <> b -> m_heap m' !! b' = m_heap m !! b')
    | D4NP_ERR_INVALID_ARGUMENT => (bs = 0 \/ bc = 0) /\ m' = m /\ op = Some p0
    | D4NP_ERR_OVERFLOW =>
        bs <> 0 /\ bc <> 0 /\ SIZE_MAX < slot_stride bs * bc /\ m' = m /\ op = Some p0
    | D4NP_ERR_OUT_OF_MEMORY =>
        bs <> 0 /\ bc <> 0 /\ slot_stride bs * bc <= SIZE_MAX /\ m_heap m' = m_heap m /\ op = Some p0
    | _ => False
    end).
Proof.
  intros Ha Hbs Hbc. apply resolve_ok in Ha. unfold d4np_pool_init.
  destruct (Z.eqb_spec bs 0) as [->|Hs0]; [wp_ret; split_and!; auto|].
  destruct (Z.eqb_spec bc 0) as [->|Hc0]; [wp_ret; split_and!; auto|]. cbn [orb].
  assert ((if bs <? PTR_SIZE then PTR_SIZE else bs) = Z.max bs 8) as ->.
  { unfold PTR_SIZE. destruct (Z.ltb_spec bs 8); lia. }
  pose proof (slot_stride_bound bs) as Hsb.
  assert (0 < Z.max bs 8 <= SIZE_MAX) as Hslot by size_lia.
  destruct (round_up_spec _ Hslot) as [Hru1 Hru2]. change size_round_up with round_up in Hru1, Hru2.
  destruct (decide (Z.max bs 8 + 15 <= SIZE_MAX)) as [Hfit|Hfit].
  2: { rewrite Hru2 by lia. destruct (Z.ltb_spec 0 (Z.max bs 8)); [|lia]. wp_ret.
       split_and!; auto. enough (SIZE_MAX < slot_stride bs) by size_nia.
       unfold slot_stride. pose proof (Z.div_le_lower_bound (Z.max bs 8 + 15) 16 (2 ^ 60)). size_lia. }
  rewrite Hru1 by done. fold (slot_stride bs). set (stride := slot_stride bs) in *.
  destruct (Z.ltb_spec stride (Z.max bs 8)); [lia|].
  destruct (Z.eqb_spec stride 0); [lia|]. cbn [negb andb].
  destruct (Z.ltb_spec (SIZE_MAX / stride) bc) as [Hov|Hov].
  { wp_ret. split_and!; auto. apply size_mul_overflow in Hov; size_lia. }
  assert (stride * bc <= SIZE_MAX).
  { apply Z.nlt_ge. intros Hgt. apply Z.nlt_ge in Hov. apply Hov.
    apply size_mul_overflow; size_lia. }
  rewrite size_mul_small by size_nia. wp_bind.
  eapply wp_mono; [apply (ok_alloc (a := resolve oa)); [size_nia|by exists 4]|].
  intros [|b off] m1 Hp; simpl; [wp_ret; split_and!; auto|].
  destruct Hp as (-> & Hnone & Hmax & addr & Hpos & Hdiv & Hh).
  assert (m_heap m1 !! b = Some (Block addr (resize (Z.to_nat (stride * bc)) Undef []))) as Hb
    by (by rewrite Hh, lookup_insert_eq).
  wp_bind. eapply wp_mono.
  { pose proof (fun blk => thread_spec b stride (Z.to_nat bc) (Z.to_nat bc) m1 blk) as Hth.
    rewrite Nat.sub_diag in Hth. eapply Hth; [size_lia|done|size_lia|exact Hb| |done].
    simpl. rewrite zlen_resize. size_lia. }
  intros h m2 (-> & (blk & Hb2 & Ha2 & Hz2 & Hc2) & Ho2). wp_ret.
  assert (forall b', b' <> b -> m_heap m2 !! b' = m_heap m !! b') as Hoth.
  { intros b' Hne. rewrite Ho2 by (by rewrite touches_singleton).
    rewrite Hh. by apply lookup_insert_ne. }
  split_and!; auto. eexists _, b. split_and!; [done| |done|done|done|done| |done].
  - split; simpl; eauto; try size_lia.
    + apply slot_stride_aligned.
    + intros blk' Hb'. rewrite Hb2 in Hb'. injection Hb' as <-. by rewrite Ha2.
    + eexists b, _. split_and!; [done|exact Hb2|size_lia].
    + unfold zlen. rewrite length_seq. size_lia.
    + apply NoDup_seq.
    + apply Forall_forall. intros j. rewrite elem_of_seq. lia.
    + by rewrite Hb2.
  - intros b' blk' _ Hb'. rewrite Hoth; [done|congruence].
Qed.

(** ** Programs over a pool

    A client that allocates, frees what it holds and writes into what it
    holds; [held] is its list of pointers. *)

Inductive pool_op :=
  | PAlloc
  | PFree (k : nat)
  | PWrite (k : nat) (off : Z) (cs : list cell).

Definition with_pool {A} (op : option d4np_pool) (k : d4np_pool -> M A) : M A :=
  match op with Some p => k p | None => fault end.

(** Whether an allocation got a slot, the pool and the pointers held after. *)
Definition pool_state : Type := (d4np_pool * list ptr)%type.

Definition run_op (s : pool_state) (op : pool_op) : M (list bool * pool_state) :=
  let '(p, held) := s in
  match op with
  | PAlloc =>
      '(q, p) ← d4np_pool_alloc (Some p);
      with_pool p (fun p =>
        if is_null q then mret ([false], (p, held)) else mret ([true], (p, q :: held)))
  | PFree k =>
      match held !! k with
      | Some q => p ← d4np_pool_free (Some p) q;
                  with_pool p (fun p => mret ([], (p, delete k held)))
      | None => mret ([], s)
      end
  | PWrite k off cs =>
      match held !! k with
      | Some q => store (padd q off) cs ;; mret ([], s)
      | None => mret ([], s)
      end
  end.

Fixpoint run_ops (s : pool_state) (ops : list pool_op) : M (list bool * pool_state) :=
  match ops with
  | [] => mret ([], s)
  | op :: ops => '(o, s) ← run_op s op; '(os, s) ← run_ops s ops; mret (o ++ os, s)
  end.

(** What the client must see: an allocation succeeds exactly when fewer than
    [n] slots are held. *)
Definition count_op (n h : nat) (op : pool_op) : list bool * nat :=
  match op with
  | PAlloc => if decide (h < n)%nat then ([true], S h) else ([false], h)
  | PFree k => ([], if decide (k < h)%nat then (h - 1)%nat else h)
  | PWrite _ _ _ => ([], h)
  end.

Fixpoint count_ops (n h : nat) (ops : list pool_op) : list bool * nat :=
  match ops with
  | [] => ([], h)
  | op :: ops =>
      let '(o, h) := count_op n h op in let '(os, h) := count_ops n h ops in (o ++ os, h)
  end.

Definition pool_op_ok (stride : Z) (op : pool_op) : Prop :=
  match op with
  | PWrite _ off cs => 0 <= off /\ off + zlen cs <= stride
  | _ => True
  end.

Definition slot_ptr (b : nat) (stride : Z) (i : nat) : ptr := Ptr b (Z.of_nat i * stride).

(** The slots are split between the client and the free list. *)
Definition pool_client (m : mem) (s : pool_state) (b n : nat) : Prop :=
  exists free hs, pool_inv m s.1 b free /\ n = Z.to_nat (pl_block_count s.1) /\
    s.2 = (slot_ptr b (pl_stride s.1) <$> hs) /\ hs ++ free ≡ₚ seq 0 n.

Lemma pool_client_not_free hs free n k i :
  (hs ++ free ≡ₚ seq 0 n) -> hs !! k = Some i -> i ∉ free /\ Nat.lt i n.
Proof.
  intros Hp Hk. assert (i ∈ hs) by (by eapply list_elem_of_lookup_2). split.
  - assert (NoDup (hs ++ free)) as Hnd by (rewrite Hp; apply NoDup_seq).
    apply NoDup_app in Hnd as (_ & Hd & _). by apply Hd.
  - assert (i ∈ seq 0 n) as Hin by (rewrite <- Hp; set_solver).
    rewrite elem_of_seq in Hin. lia.
Qed.

Definition op_post (m : mem) (s : pool_state) (b n : nat) (op : pool_op)
    (r : list bool * pool_state) (m' : mem) : Prop :=
  pool_client m' r.2 b n /\ pl_stride r.2.1 = pl_stride s.1 /\ only [Ptr b 0] m m' /\
  (r.1, length r.2.2) = count_op n (length s.2) op.

Lemma pool_run_op_spec m s b n op :
  pool_client m s b n -> pool_op_ok (pl_stride s.1) op ->
  wp (run_op s op) m (op_post m s b n op).
Proof.
  destruct s as [p held]. intros (free & hs & Hi & Hn & Hh & Hp) Hop. simpl in *.
  assert (length hs + length free = n)%nat as Hlen.
  { by rewrite <- (length_seq n 0), <- Hp, length_app. }
  assert (length held = length hs) as Hlh by (by rewrite Hh, length_fmap).
  destruct op as [|k|k off cs]; simpl.
  - wp_bind. eapply wp_mono; [by apply pool_alloc_spec|]. intros [q op'] m' [-> Hq].
    destruct free as [|i rest].
    + destruct Hq as [-> ->]. simpl. wp_ret. unfold op_post. simpl in *.
      rewrite decide_False by lia. split_and!; [exists [], hs|done|apply only_refl|done]. done.
    + destruct Hq as (-> & p' & -> & Hs' & Hn' & Hi'). simpl. wp_ret. unfold op_post. simpl in *.
      rewrite decide_True by lia. split_and!; [|done|apply only_refl|done].
      exists rest, (i :: hs). simpl. rewrite Hs', Hn'. split_and!; auto.
      * by rewrite Hh.
      * by rewrite <- Hp, Permutation_middle.
  - rewrite Hh, list_lookup_fmap. destruct (hs !! k) as [i|] eqn:Hk; simpl.
    2: { wp_ret. apply lookup_ge_None in Hk. unfold op_post. simpl.
         rewrite length_fmap, decide_False by lia. split_and!; [exists free, hs|done|apply only_refl|done]. done. }
    destruct (pool_client_not_free _ _ _ _ _ Hp Hk) as [Hni Hlt].
    wp_bind. eapply wp_mono; [apply (pool_free_spec _ _ _ free i); auto; lia|].
    intros op' m' (p' & -> & Hs' & Hn' & Hi' & Ho'). simpl. wp_ret. unfold op_post. simpl.
    rewrite length_fmap. rewrite decide_True by (by eapply lookup_lt_Some).
    split_and!; [|done|done|].
    + exists (i :: free), (delete k hs). simpl. rewrite Hs', Hn', list_fmap_delete.
      split_and!; auto. rewrite <- Hp, <- Permutation_middle.
      rewrite app_comm_cons. f_equiv. symmetry. by apply delete_Permutation.
    + f_equal. rewrite length_delete, length_fmap by (rewrite list_lookup_fmap, Hk; eauto). done.
  - rewrite Hh, list_lookup_fmap. destruct (hs !! k) as [i|] eqn:Hk; simpl.
    2: { wp_ret. unfold op_post. simpl. split_and!; [exists free, hs|done|apply only_refl|done]. done. }
    destruct (pool_client_not_free _ _ _ _ _ Hp Hk) as [Hni Hlt].
    destruct Hop. wp_bind. eapply wp_mono; [apply (pool_write_spec _ _ _ free i); auto; lia|].
    intros [] m' [Hi' Ho']. wp_ret. unfold op_post. simpl.
    split_and!; [exists free, hs|done|done|done]. done.
Qed.

(** What a client may rely on of the pointers it holds: no two are the same
    and each is the address of a maximally aligned slot inside the pool. *)
Lemma pool_client_aligned m s b n :
  pool_client m s b n ->
  NoDup s.2 /\ Forall (fun q => exists a, address m q = Some a /\ (MAX_ALIGN | a)) s.2.
Proof.
  intros (free & hs & Hi & _ & -> & Hp). split.
  - assert (NoDup hs) as Hnd.
    { apply (NoDup_app hs free). rewrite Hp. apply NoDup_seq. }
    pose proof (pi_stride _ _ _ _ Hi). apply NoDup_fmap_2; [|done].
    intros i j [= Hij]. apply Z.mul_reg_r in Hij; lia.
  - apply Forall_fmap, Forall_forall. intros i _. unfold compose. simpl.
    destruct (pool_inv_data _ _ _ _ Hi) as (blk & Hb & _). rewrite Hb. simpl.
    eexists. split; [done|]. apply Z.divide_add_r; [by apply (pi_block_align _ _ _ _ Hi)|].
    apply Z.divide_mul_r, (pi_slot_align _ _ _ _ Hi).
Qed.

Lemma pool_run_ops_spec m s b n ops :
  pool_client m s b n -> Forall (pool_op_ok (pl_stride s.1)) ops ->
  wp (run_ops s ops) m (fun r m' =>
    pool_client m' r.2 b n /\ pl_stride r.2.1 = pl_stride s.1 /\
    (r.1, length r.2.2) = count_ops n (length s.2) ops /\ only [Ptr b 0] m m').
Proof.
  intros Hc Hops. revert m s Hc Hops.
  induction ops as [|op ops IH]; intros m s Hc Hops; cbn [run_ops count_ops].
  { wp_ret. split_and!; auto with mem. }
  apply Forall_cons in Hops as [Hop Hops]. wp_bind. eapply wp_mono; [by apply pool_run_op_spec|].
  intros [o s1] m1 (Hc1 & Hs1 & Ho1 & Hcnt). simpl in *. wp_bind.
  eapply wp_mono; [apply IH; [exact Hc1|by rewrite Hs1]|].
  intros [os s2] m2 (Hc2 & Hs2 & Hcnt2 & Ho2). wp_ret. simpl in *.
  rewrite <- Hcnt, <- Hcnt2. split_and!; [done|congruence|done|by eapply only_trans].
Qed.

(** ** Properties *)

(** [d4np_pool_init] decides its outcome exactly: invalid arguments are
    those with a zero size or count, the overflow status is returned exactly
    when the rounded slot size times the count exceeds [SIZE_MAX] (although
    the rounding itself may wrap), and on success the pool owns a fresh block
    whose slots are all free, in order. *)
Theorem pool_init_exact m p0 oa bs bc :
  allocator_arg_ok oa -> is_size bs -> is_size bc ->
  wp (d4np_pool_init (Some p0) oa bs bc) m (fun '(st, op) m' =>
    (st = D4NP_ERR_INVALID_ARGUMENT <-> bs = 0 \/ bc = 0) /\
    (st = D4NP_ERR_OVERFLOW <-> bs <> 0 /\ bc <> 0 /\ SIZE_MAX < slot_stride bs * bc) /\
    (st <> D4NP_OK -> m_heap m' = m_heap m /\ op = Some p0) /\
    (st = D4NP_OK -> exists p b, op = Some p /\ m_heap m !! b = None /\
       pool_inv m' p b (seq 0 (Z.to_nat bc)) /\ pl_stride p = slot_stride bs /\
       d4np_pool_available op = bc)).
Proof.
  intros Ha Hs Hc. eapply wp_mono; [by apply pool_init_spec|].
  intros [st op] m' Hst. destruct st; try done.
  - destruct Hst as (? & ? & p & b & -> & Hi & Hst & Hn & _ & Hb & _).
    pose proof (pi_total _ _ _ _ Hi). pose proof (pi_max _ _ _ _ Hi).
    pose proof (pi_free_count _ _ _ _ Hi) as Hfc. unfold zlen in Hfc. rewrite length_seq in Hfc.
    rewrite Hst, Hn in *. split_and!; [split; [done|tauto]|split; [done|size_lia]|done|].
    intros _. exists p, b. split_and!; auto. simpl. size_lia.
  - destruct Hst as (Hz & -> & ->). split_and!; auto; [done|split; [done|tauto]|done].
  - destruct Hst as (? & ? & Hle & -> & ->).
    split_and!; auto; [split; [done|tauto]|split; [done|lia]|done].
  - destruct Hst as (? & ? & Hgt & -> & ->).
    split_and!; auto; [split; [done|tauto]|done|done].
Qed.

(** C4. A pool never hands out a slot twice: for any program of allocations,
    frees of held slots and writes into held slots, run on a freshly
    initialised pool, every step is defined (no assertion fails, no link of
    the free list is lost to a client's write), an allocation succeeds exactly
    while fewer than [block_count] slots are held, and at the end the held
    slots and the free slots partition the pool, the held pointers are
    pairwise distinct, and each is the address of a slot of at least
    [block_size] bytes that is a multiple of the maximal alignment. *)
Theorem pool_program_safe m p0 oa bs bc ops :
  allocator_arg_ok oa -> is_size bs -> is_size bc ->
  Forall (pool_op_ok (slot_stride bs)) ops ->
  wp (d4np_pool_init (Some p0) oa bs bc) m (fun '(st, op) m' =>
    st = D4NP_OK -> exists p b, op = Some p /\
      wp (run_ops (p, []) ops) m' (fun r m'' =>
        (r.1, length r.2.2) = count_ops (Z.to_nat bc) 0 ops /\
        pool_client m'' r.2 b (Z.to_nat bc) /\ bs <= pl_stride r.2.1 /\ NoDup r.2.2 /\
        Forall (fun q => exists a, address m'' q = Some a /\ (MAX_ALIGN | a)) r.2.2)).
Proof.
  intros Ha Hs Hc Hops. eapply wp_mono; [by apply pool_init_spec|].
  intros [st op] m' Hst ->. destruct Hst as (_ & _ & p & b & -> & Hi & Hst & Hn & _).
  exists p, b. split; [done|].
  eapply wp_mono; [apply (pool_run_ops_spec _ (p, []) b (Z.to_nat bc))|]; simpl.
  - exists (seq 0 (Z.to_nat bc)), []. simpl. rewrite Hn. done.
  - by rewrite Hst.
  - intros r m'' (Hcl & Hst' & Hcnt & _). simpl in Hst'. pose proof (slot_stride_bound bs).
    destruct (pool_client_aligned _ _ _ _ Hcl). split_and!; auto. lia.
Qed.

(** Destroying a pool that [d4np_pool_init] built gives back exactly the
    memory it took: the heap is the one before initialisation, whatever the
    client did in between with its slots. *)
Theorem pool_destroy_restores m p0 oa bs bc ops :
  allocator_arg_ok oa -> is_size bs -> is_size bc ->
  Forall (pool_op_ok (slot_stride bs)) ops ->
  wp (d4np_pool_init (Some p0) oa bs bc) m (fun '(st, op) m' =>
    st = D4NP_OK -> exists p, op = Some p /\
      wp (r ← run_ops (p, []) ops; d4np_pool_destroy (Some r.2.1)) m' (fun op'' m'' =>
        m_heap m'' = m_heap m /\ op'' = Some (MkPool None Null Null 0 0 0 0))).
Proof.
  intros Ha Hs Hc Hops. eapply wp_mono; [by apply pool_init_spec|].
  intros [st op] m' Hst ->.
  destruct Hst as (_ & _ & p & b & -> & Hi & Hst & Hn & _ & Hnone & _ & Hoth).
  exists p. split; [done|]. wp_bind.
  eapply wp_mono; [apply (pool_run_ops_spec _ (p, []) b (Z.to_nat bc)); simpl; [|by rewrite Hst]|].
  { exists (seq 0 (Z.to_nat bc)), []. simpl. by rewrite Hn. }
  intros [os [p' held]] m1 ((free & hs & Hi1 & _) & _ & _ & Ho). simpl in *.
  destruct Hi1 as [(a & Haa & Hok) Hb ? ? ? ? ? ? Hown _ _ _ _ _].
  unfold d4np_pool_destroy. rewrite Hb. cbn [is_null]. unfold d4np_free. rewrite Haa. wp_bind.
  eapply wp_mono; [apply (ok_free (a := a)); right; exact Hown|].
  intros [] m2 Hm2. simpl in Hm2. wp_ret. split; [|done]. rewrite Hm2.
  apply map_eq. intros b'. destruct (decide (b' = b)) as [->|Hne].
  - by rewrite lookup_delete_eq.
  - rewrite lookup_delete_ne by done. rewrite Ho by (by rewrite touches_singleton). by apply Hoth.
Qed.

End proofs.

(** *** Witnesses *)

Section witnesses.
#[local] Existing Instance libc_plenty.

Definition zero_pool : d4np_pool := MkPool None Null Null 0 0 0 0.
Definition prog : list pool_op :=
  [PAlloc; PWrite 0 0 [Byte 1; Byte 2]; PAlloc; PAlloc; PFree 1; PAlloc].

Lemma prog_ok : Forall (pool_op_ok (slot_stride 3)) prog.
Proof. repeat constructor; vm_compute; done. Qed.

Lemma pool_init_exact_witness :
  wp (d4np_pool_init (Some zero_pool) None SIZE_MAX 2) (Mem ∅ 0) (fun '(st, _) _ =>
    st = D4NP_ERR_OVERFLOW).
Proof.
  eapply wp_mono; [apply (pool_init_exact (Mem ∅ 0) zero_pool None SIZE_MAX 2); [done|size_lia..]|].
  intros [st op] m' (_ & Hov & _). apply Hov. split_and!; [done|done|by vm_compute].
Defined.

Lemma pool_program_safe_witness :
  wp (d4np_pool_init (Some zero_pool) None 3 2) (Mem ∅ 0) (fun '(st, op) m' =>
    st = D4NP_OK -> exists p b, op = Some p /\
      wp (run_ops (p, []) prog) m' (fun r m'' =>
        (r.1, length r.2.2) = ([true; true; false; true], 2%nat) /\ pool_client m'' r.2 b 2 /\
        3 <= pl_stride r.2.1 /\ NoDup r.2.2 /\
        Forall (fun q => exists a, address m'' q = Some a /\ (MAX_ALIGN | a)) r.2.2)).
Proof.
  apply (pool_program_safe (Mem ∅ 0) zero_pool None 3 2 prog); [done|size_lia..|exact prog_ok].
Defined.

Lemma pool_destroy_restores_witness :
  wp (d4np_pool_init (Some zero_pool) None 3 2) (Mem ∅ 0) (fun '(st, op) m' =>
    st = D4NP_OK -> exists p, op = Some p /\
      wp (r ← run_ops (p, []) prog; d4np_pool_destroy (Some r.2.1)) m' (fun op'' m'' =>
        m_heap m'' = ∅ /\ op'' = Some zero_pool)).
Proof.
  apply (pool_destroy_restores (Mem ∅ 0) zero_pool None 3 2 prog); [done|size_lia..|exact prog_ok].
Defined.

End witnesses.
End Pool.
