(* ===== verification/StrView.v ===== *)
(** * String views ([d4np/str/str_view.h], [str_view.c])

    Views over memory they do not own, byte equality, and the tokenizer.  The
    reference is [split_on], a split of a byte list at every separator. *)

From S2P Require Import Prelude Status Memory.

Local Open Scope Z_scope.

Module StrView.

Record d4np_str_view := View { sv_ptr : ptr; sv_len : Z }.

Definition d4np_str_view_from_str (cstr : ptr) : M d4np_str_view :=
  if is_null cstr then mret (View cstr 0)
  else n ← strlen cstr; mret (View cstr n).

Definition d4np_str_view_from_buf (buf : ptr) (len : Z) : d4np_str_view :=
  View buf (if is_null buf then 0 else len).

(** [memcmp (p, q, n) == 0]. *)
Definition memcmp_eq (p q : ptr) (n : Z) : M bool :=
  xs ← load_bytes p n; ys ← load_bytes q n; mret (bool_decide (xs = ys)).

Definition d4np_str_view_equals (a b : d4np_str_view) : M bool :=
  if negb (sv_len a =? sv_len b) then mret false
  else if sv_len a =? 0 then mret true
  else memcmp_eq (sv_ptr a) (sv_ptr b) (sv_len a).

(** The [for] loop of the tokenizer: [n] bytes are left from index [i]. *)
Fixpoint scan_sep (start : ptr) (sep i : Z) (n : nat) : M (option Z) :=
  match n with
  | O => mret None
  | S n =>
      c ← load_byte (padd start i);
      if c =? sep then mret (Some i) else scan_sep start sep (i ⊞ 1) n
  end.

(** The view is advanced in place and the field is written to [out]; both
    pointers may be [NULL]. *)
Definition d4np_str_view_split_next (sv : option d4np_str_view) (sep : Z)
    (out : option d4np_str_view)
  : M (bool * option d4np_str_view * option d4np_str_view) :=
  match sv, out with
  | Some v, Some _ =>
      if is_null (sv_ptr v) then mret (false, sv, out)
      else
        let start := sv_ptr v in
        r ← scan_sep start sep 0 (Z.to_nat (sv_len v));
        match r with
        | Some i =>
            mret (true, Some (View (padd (padd start i) 1) (sv_len v ⊟ i ⊟ 1)),
                  Some (View start i))
        | None => mret (true, Some (View Null 0), Some (View start (sv_len v)))
        end
  | _, _ => mret (false, sv, out)
  end.

(** [out[count] = token] into the caller's array. *)
Definition put_token (out : option (list d4np_str_view)) (max_out count : Z)
    (tok : d4np_str_view) : M (option (list d4np_str_view)) :=
  match out with
  | Some arr =>
      if count <? max_out then
        if decide (Z.to_nat count < length arr)%nat
        then mret (Some (<[Z.to_nat count := tok]> arr)) else fault
      else mret out
  | None => mret None
  end.

Fixpoint split_loop (fuel : nat) (sv : d4np_str_view) (sep : Z) (token : d4np_str_view)
    (out : option (list d4np_str_view)) (max_out count : Z)
  : M (Z * option (list d4np_str_view)) :=
  match fuel with
  | O => fault
  | S fuel =>
      r ← d4np_str_view_split_next (Some sv) sep (Some token);
      match r with
      | (true, Some sv, Some token) =>
          out ← put_token out max_out count token;
          split_loop fuel sv sep token out max_out (count ⊞ 1)
      | _ => mret (count, out)
      end
  end.

(** The number of rounds is at most the number of bytes plus two. *)
Definition d4np_str_split (sv : d4np_str_view) (sep : Z) (out : option (list d4np_str_view))
    (max_out : Z) : M (Z * option (list d4np_str_view)) :=
  split_loop (Z.to_nat (sv_len sv) + 2) sv sep (View Null 0) out max_out 0.

(** ** The reference split *)

Fixpoint split_on (sep : Z) (bs : list Z) : list (list Z) :=
  match bs with
  | [] => [[]]
  | c :: bs =>
      if c =? sep then [] :: split_on sep bs
      else match split_on sep bs with
           | f :: fs => (c :: f) :: fs
           | [] => [[c]]
           end
  end.

(** The fields put together again. *)
Fixpoint join (sep : Z) (fs : list (list Z)) : list Z :=
  match fs with
  | [] => []
  | [f] => f
  | f :: fs => f ++ sep :: join sep fs
  end.

Lemma split_on_cons sep bs : exists f fs, split_on sep bs = f :: fs.
Proof.
  destruct bs as [|c bs]; simpl; [eauto|]. destruct (c =? sep); [eauto|].
  destruct (split_on sep bs); eauto.
Qed.

Lemma join_split_on sep bs : join sep (split_on sep bs) = bs.
Proof.
  induction bs as [|c bs IH]; simpl; [done|].
  destruct (split_on_cons sep bs) as (f & fs & Hf). rewrite Hf in *.
  destruct (Z.eqb_spec c sep) as [->|Hne].
  - by rewrite <- IH.
  - destruct fs; simpl in *; by rewrite <- IH.
Qed.

Lemma split_on_no_sep sep bs : Forall (fun f => sep ∉ f) (split_on sep bs).
Proof.
  induction bs as [|c bs IH]; simpl; [repeat constructor; set_solver|].
  destruct (Z.eqb_spec c sep) as [->|Hne]; [constructor; [set_solver|done]|].
  destruct (split_on sep bs); [repeat constructor; set_solver|].
  apply Forall_cons in IH as [Hf Hfs]. constructor; [set_solver|done].
Qed.

Lemma split_on_join sep f fs :
  sep ∉ f -> split_on sep (join sep (f :: fs)) =
    match fs with [] => [f] | _ => f :: split_on sep (join sep fs) end.
Proof.
  intros Hf. destruct fs as [|g fs].
  - simpl. induction f as [|c f IH]; [done|]. apply not_elem_of_cons in Hf as [Hc Hf]. simpl.
    rewrite (proj2 (Z.eqb_neq c sep)) by congruence. by rewrite IH.
  - change (join sep (f :: g :: fs)) with (f ++ sep :: join sep (g :: fs)).
    generalize (join sep (g :: fs)). intros rest.
    induction f as [|c f IH]; simpl; [by rewrite Z.eqb_refl|].
    apply not_elem_of_cons in Hf as [Hc Hf].
    rewrite (proj2 (Z.eqb_neq c sep)) by congruence. by rewrite IH.
Qed.

(** Splitting is the only way to write a byte list as separated fields. *)
Lemma split_on_unique sep fs :
  fs <> [] -> Forall (fun f => sep ∉ f) fs -> split_on sep (join sep fs) = fs.
Proof.
  intros Hne Hfs. induction Hfs as [|f fs Hf Hfs IH]; [done|].
  rewrite split_on_join by done. destruct fs as [|g fs]; [done|]. by rewrite IH.
Qed.

(** Index of the first separator. *)
Fixpoint find_sep (sep : Z) (bs : list Z) : option nat :=
  match bs with
  | [] => None
  | c :: bs => if c =? sep then Some 0%nat else S <$> find_sep sep bs
  end.

Lemma split_on_find sep bs :
  split_on sep bs =
    match find_sep sep bs with
    | Some k => take k bs :: split_on sep (drop (S k) bs)
    | None => [bs]
    end.
Proof.
  induction bs as [|c bs IH]; [done|]. simpl. destruct (c =? sep); [done|].
  rewrite IH. by destruct (find_sep sep bs).
Qed.

Lemma find_sep_lt sep bs k : find_sep sep bs = Some k -> (k < length bs)%nat.
Proof.
  revert k. induction bs as [|c bs IH]; intros k; [done|]. simpl.
  destruct (c =? sep); [intros [= <-]; lia|].
  destruct (find_sep sep bs) as [j|]; [|done]. intros [= <-]. specialize (IH j eq_refl). lia.
Qed.

(** ** The tokenizer against the reference *)

(** The bytes a view shows. *)
Definition view_bytes (m : mem) (v : d4np_str_view) (bs : list Z) : Prop :=
  load_bytes (sv_ptr v) (sv_len v) m = Some (bs, m).

(** A view into a part of the bytes of [v]. *)
Definition within (v tok : d4np_str_view) : Prop :=
  match sv_ptr v, sv_ptr tok with
  | Ptr b off, Ptr b' off' => b' = b /\ off <= off' /\ off' + sv_len tok <= off + sv_len v
  | _, _ => False
  end.

Lemma within_trans u v w : within u v -> within v w -> within u w.
Proof.
  unfold within. destruct (sv_ptr u), (sv_ptr v), (sv_ptr w); try done. intros (-> & ? & ?) (-> & ? & ?).
  split; [done|]. lia.
Qed.

Lemma scan_spec m b off sep bs n i :
  load_bytes (Ptr b off) (zlen bs) m = Some (bs, m) -> zlen bs <= PTRDIFF_MAX ->
  (i + n = length bs)%nat ->
  scan_sep (Ptr b off) sep (Z.of_nat i) n m =
    Some (match find_sep sep (drop i bs) with
          | Some k => Some (Z.of_nat i + Z.of_nat k) | None => None end, m).
Proof.
  intros Hl Hmax. revert i. induction n as [|n IH]; intros i Hi; simpl.
  - by rewrite drop_ge by lia.
  - destruct (lookup_lt_is_Some_2 bs i) as [c Hc]; [lia|].
    unfold mbind, M_bind. rewrite (load_byte_at _ _ _ _ _ _ _ Hl Hc).
    rewrite (drop_S _ c) by done. simpl. destruct (c =? sep).
    + simpl. by rewrite Z.add_0_r.
    + unfold zlen in *. rewrite size_add_small by size_lia.
      replace (Z.of_nat i + 1) with (Z.of_nat (S i)) by lia. rewrite IH by lia.
      destruct (find_sep sep (drop (S i) bs)); simpl; [|done]. do 3 f_equal. lia.
Qed.

Lemma split_next_spec m v bs sep out :
  view_bytes m v bs -> zlen bs <= PTRDIFF_MAX ->
  match find_sep sep bs with
  | Some k => exists v' tok,
      d4np_str_view_split_next (Some v) sep (Some out) m = Some ((true, Some v', Some tok), m) /\
      view_bytes m tok (take k bs) /\ view_bytes m v' (drop (S k) bs) /\ within v tok /\ within v v'
  | None => exists tok,
      d4np_str_view_split_next (Some v) sep (Some out) m =
        Some ((true, Some (View Null 0), Some tok), m) /\ view_bytes m tok bs /\ within v tok
  end.
Proof.
  intros Hv Hmax. destruct v as [[|b off] len]; [done|]. unfold view_bytes in *. simpl in *.
  destruct (load_bytes_zlen _ _ _ _ Hv) as [Hn Hz]. subst len.
  unfold mbind, M_bind. pose proof (scan_spec m b off sep bs (length bs) 0 Hv Hmax eq_refl) as Hs.
  change (Z.of_nat 0) with 0 in Hs. rewrite drop_0 in Hs.
  replace (length bs) with (Z.to_nat (zlen bs)) in Hs by (unfold zlen; lia). rewrite !Hs.
  destruct (find_sep sep bs) as [k|] eqn:Hk.
  - pose proof (find_sep_lt _ _ _ Hk) as Hlt. eexists _, _. split; [done|]. simpl.
    rewrite ?Z.add_0_l. unfold zlen in *. split_and!; cycle 2.
    + unfold within. simpl. split; [done|]. lia.
    + unfold within. simpl. split; [done|]. rewrite !size_sub_small by (unfold_size; rewrite ?size_sub_small; size_lia). lia.
    + pose proof (load_bytes_sub _ _ _ _ _ 0 (Z.of_nat k) Hv ltac:(lia) ltac:(lia) ltac:(lia)) as H.
      rewrite Z.add_0_r in H. by rewrite H; unfold sub; rewrite Nat2Z.id.
    + rewrite !size_sub_small by (unfold_size; rewrite ?size_sub_small; size_lia).
      pose proof (load_bytes_sub _ _ _ _ _ (Z.of_nat k + 1) (Z.of_nat (length bs) - Z.of_nat k - 1)
        Hv ltac:(lia) ltac:(lia) ltac:(lia)) as H.
      replace (off + Z.of_nat k + 1) with (off + (Z.of_nat k + 1)) by lia. rewrite H.
      unfold sub. replace (Z.to_nat (Z.of_nat k + 1)) with (S k) by lia.
      by rewrite take_ge by (rewrite length_drop; lia).
  - eexists. split; [done|]. split; [done|]. unfold within. simpl. split; [done|]. lia.
Qed.

Lemma split_next_null sep out m :
  d4np_str_view_split_next (Some (View Null 0)) sep (Some out) m =
    Some ((false, Some (View Null 0), Some out), m).
Proof. done. Qed.

#[global] Arguments d4np_str_view_split_next : simpl never.
#[global] Arguments put_token : simpl never.

(** The fields [fs] from position [n] on are in the array, the rest of it is
    as it was. *)
Definition tokens_from (m : mem) (v : d4np_str_view) (n max_out : nat) (fs : list (list Z))
    (arr arr' : list d4np_str_view) : Prop :=
  length arr' = length arr /\
  (forall k f, fs !! k = Some f -> (n + k < max_out)%nat ->
     exists tok, arr' !! (n + k)%nat = Some tok /\ view_bytes m tok f /\ within v tok) /\
  (forall j, (j < n \/ max_out <= j \/ n + length fs <= j)%nat -> arr' !! j = arr !! j).

Lemma tokens_from_nil m v n max_out arr : tokens_from m v n max_out [] arr arr.
Proof. split_and!; done. Qed.

Lemma tokens_from_put m v n max_out f fs tok arr arr' :
  view_bytes m tok f -> within v tok -> (max_out <= length arr)%nat ->
  tokens_from m v (S n) max_out fs (if decide (n < max_out)%nat then <[n := tok]> arr else arr) arr' ->
  tokens_from m v n max_out (f :: fs) arr arr'.
Proof.
  intros Htok Hw Hmax (Hlen & Hin & Hout). split_and!.
  - rewrite Hlen. case_decide; [by rewrite length_insert|done].
  - intros [|k] g Hg Hk; simpl in Hg.
    + injection Hg as <-. exists tok. split; [|done]. rewrite Nat.add_0_r, Hout by lia.
      rewrite decide_True by lia. apply list_lookup_insert_eq. lia.
    + destruct (Hin k g Hg) as (t & Ht & Hv); [lia|]. exists t. split; [|done].
      by replace (n + S k)%nat with (S n + k)%nat by lia.
  - intros j Hj. simpl in Hj. rewrite Hout by lia. case_decide; [|done].
    apply list_lookup_insert_ne. lia.
Qed.

(** The caller's array holds at least [max_out] views. *)
Definition out_ok (out : option (list d4np_str_view)) (max_out : Z) : Prop :=
  match out with None => True | Some arr => max_out <= zlen arr end.

Definition out_post (m : mem) (v : d4np_str_view) (n max_out : Z) (fs : list (list Z))
    (out out' : option (list d4np_str_view)) : Prop :=
  match out, out' with
  | None, None => True
  | Some arr, Some arr' => tokens_from m v (Z.to_nat n) (Z.to_nat max_out) fs arr arr'
  | _, _ => False
  end.

Lemma put_token_run out max_out n tok m :
  out_ok out max_out -> 0 <= n -> is_size max_out ->
  put_token out max_out n tok m =
    Some (arr ← out; Some (if decide (Z.to_nat n < Z.to_nat max_out)%nat
                           then <[Z.to_nat n := tok]> arr else arr), m).
Proof.
  intros Ho Hn Hm. destruct out as [arr|]; [|done]. unfold put_token. simpl in *. unfold zlen in Ho.
  destruct (Z.ltb_spec n max_out).
  - rewrite !decide_True by size_lia. done.
  - by rewrite decide_False by lia.
Qed.

(** Tokens of a part of a view are tokens of the view. *)
Lemma out_post_within m u v n max_out fs out out' :
  within u v -> out_post m v n max_out fs out out' -> out_post m u n max_out fs out out'.
Proof.
  intros Hw. destruct out, out'; simpl; try done. intros (H1 & H2 & H3). split_and!; auto.
  intros k f Hf Hk. destruct (H2 k f Hf Hk) as (tok & Ht & Hv & Hwt). eauto using within_trans.
Qed.

Lemma split_loop_spec m sep max_out fuel bs v token out n :
  view_bytes m v bs -> zlen bs <= PTRDIFF_MAX -> is_size max_out -> out_ok out max_out ->
  0 <= n -> n + zlen bs <= PTRDIFF_MAX -> (length bs + 2 <= fuel)%nat ->
  exists out', split_loop fuel v sep token out max_out n m =
      Some ((n + zlen (split_on sep bs), out'), m) /\
    out_post m v n max_out (split_on sep bs) out out'.
Proof.
  revert bs v token out n. induction fuel as [|fuel IH]; intros bs v token out n Hv Hmax Hm Ho Hn Hb Hf; [lia|].
  pose proof (split_next_spec m v bs sep token Hv Hmax) as Hs. rewrite split_on_find.
  simpl. unfold mbind, M_bind. destruct (find_sep sep bs) as [k|] eqn:Hk.
  - destruct Hs as (v' & tok & -> & Htok & Hv' & Hw & Hw'). pose proof (find_sep_lt _ _ _ Hk).
    rewrite put_token_run by done.
    rewrite size_add_small by (unfold zlen in *; size_lia).
    set (out1 := arr ← out; _).
    destruct (IH (drop (S k) bs) v' tok out1 (n + 1)) as (out' & -> & Hp); auto;
      try (unfold zlen in *; rewrite length_drop; lia); [|lia|].
    { destruct out as [arr|]; [|done]. simpl in *. unfold zlen in *.
      case_decide; rewrite ?length_insert; lia. }
    exists out'. rewrite zlen_cons. split; [do 3 f_equal; lia|].
    apply (out_post_within m v) in Hp; [|done].
    destruct out as [arr|], out' as [arr'|]; simpl in *; try done.
    apply (tokens_from_put m _ _ _ _ _ tok); [done|done|unfold zlen in Ho; size_lia|].
    by replace (S (Z.to_nat n)) with (Z.to_nat (n + 1)) by lia.
  - destruct Hs as (tok & -> & Htok & Hw). rewrite put_token_run by done.
    destruct fuel as [|fuel]; [lia|]. simpl. unfold mbind at 1, M_bind. rewrite split_next_null.
    rewrite size_add_small by (unfold zlen in *; size_lia). eexists. split; [done|].
    destruct out as [arr|]; simpl in *; [|done].
    apply (tokens_from_put m _ _ _ _ _ tok); [done|done|unfold zlen in Ho; size_lia|].
    apply tokens_from_nil.
Qed.

(** Splitting the joined bytes finds the fields that were joined. *)
Lemma split_join_run m v fs sep n :
  view_bytes m v (join sep fs) -> zlen (join sep fs) <= PTRDIFF_MAX ->
  fs <> [] -> Forall (fun f => sep ∉ f) fs -> n = zlen fs -> is_size n ->
  exists toks, d4np_str_split v sep (Some (replicate (Z.to_nat n) (View Null 0))) n m =
      Some ((n, Some toks), m) /\
    Forall2 (fun tok f => view_bytes m tok f /\ within v tok) toks fs.
Proof.
  intros Hv Hmax Hne Hfs -> Hn. unfold d4np_str_split.
  set (arr := replicate _ _).
  assert (length arr = length fs) as Hla by (unfold arr, zlen; rewrite length_replicate; lia).
  destruct (split_loop_spec m sep (zlen fs) (Z.to_nat (sv_len v) + 2) (join sep fs) v (View Null 0)
              (Some arr) 0) as (out' & -> & Hp); auto; [simpl; unfold zlen; lia|lia| |].
  { destruct (load_bytes_zlen _ _ _ _ Hv) as [_ Hz]. unfold zlen in Hz. lia. }
  rewrite split_on_unique in * by done. rewrite Z.add_0_l.
  destruct out' as [toks|]; [|done]. exists toks. split; [done|].
  destruct Hp as (Hlen & Hin & _). apply Forall2_same_length_lookup_2; [lia|].
  intros i tok f Ht Hf. destruct (Hin i f Hf) as (tok' & Ht' & Hvb).
  { pose proof (lookup_lt_Some _ _ _ Hf). unfold zlen. lia. }
  rewrite Z2Nat.inj_0, Nat.add_0_l in Ht'. congruence.
Qed.

(** ** Properties *)

(** C35. [d4np_str_split] is a split: for a view of [bs] it returns the total
    number of fields and writes the first [max_out] of them, as views into the
    same bytes, to the caller's array and nothing else; the fields contain no
    separator and, joined by it, are the input.  It terminates, reads only the
    view's bytes, and leaves memory unchanged; with [out] [NULL] or [max_out]
    0 it only counts. *)
Theorem str_split_fields m v bs sep out max_out :
  view_bytes m v bs -> zlen bs <= PTRDIFF_MAX -> is_size max_out -> out_ok out max_out ->
  exists fs out', d4np_str_split v sep out max_out m = Some ((zlen fs, out'), m) /\
    join sep fs = bs /\ Forall (fun f => sep ∉ f) fs /\ fs <> [] /\
    out_post m v 0 max_out fs out out'.
Proof.
  intros Hv Hmax Hm Ho. exists (split_on sep bs). unfold d4np_str_split.
  destruct (split_loop_spec m sep max_out (Z.to_nat (sv_len v) + 2) bs v (View Null 0) out 0)
    as (out' & -> & Hp); auto; [lia| |].
  { destruct (load_bytes_zlen _ _ _ _ Hv) as [_ Hz]. unfold zlen in Hz. lia. }
  exists out'. destruct (split_on_cons sep bs) as (f & fs & E).
  split_and!; auto using join_split_on, split_on_no_sep. by rewrite E.
Qed.

(** Splitting inverts joining: for any non-empty list of fields free of the
    separator, splitting the joined bytes finds exactly those fields. *)
Theorem str_split_join m v fs sep n :
  view_bytes m v (join sep fs) -> zlen (join sep fs) <= PTRDIFF_MAX ->
  fs <> [] -> Forall (fun f => sep ∉ f) fs -> n = zlen fs -> is_size n ->
  exists toks, d4np_str_split v sep (Some (replicate (Z.to_nat n) (View Null 0))) n m =
      Some ((n, Some toks), m) /\
    Forall2 (fun tok f => view_bytes m tok f /\ within v tok) toks fs.
Proof. apply split_join_run. Qed.

(** Two views are equal exactly when they show the same bytes; views of
    length zero are equal whatever they point at. *)
Theorem str_view_equals_spec m a b xs ys :
  (sv_len a = 0 /\ xs = []) \/ view_bytes m a xs ->
  (sv_len b = 0 /\ ys = []) \/ view_bytes m b ys ->
  d4np_str_view_equals a b m = Some (bool_decide (xs = ys), m).
Proof.
  intros Ha Hb.
  assert (sv_len a = zlen xs) as Hla.
  { destruct Ha as [[-> ->]|H]; [done|]. by destruct (load_bytes_zlen _ _ _ _ H). }
  assert (sv_len b = zlen ys) as Hlb.
  { destruct Hb as [[-> ->]|H]; [done|]. by destruct (load_bytes_zlen _ _ _ _ H). }
  unfold d4np_str_view_equals. rewrite Hla, Hlb.
  destruct (Z.eqb_spec (zlen xs) (zlen ys)) as [E|E]; simpl.
  2: { rewrite bool_decide_eq_false_2; [done|]. by intros ->. }
  destruct (Z.eqb_spec (zlen xs) 0) as [Z0|NZ].
  { unfold zlen in *. destruct xs; [|simpl in *; lia]. destruct ys; [done|simpl in *; lia]. }
  destruct Ha as [[_ ->]|Ha]; [done|]. destruct Hb as [[_ ->]|Hb]; [done|].
  unfold view_bytes in *. rewrite Hla in Ha. rewrite Hlb, <- E in Hb.
  unfold memcmp_eq, mbind, M_bind. by rewrite Ha, Hb.
Qed.

(** A [NULL] pointer has no fields: the view of a [NULL] string or buffer
    splits into nothing, while an empty view of a real buffer splits into one
    empty field. *)
Theorem str_split_null_view m b off n blk sep out :
  m_heap m !! b = Some blk -> 0 <= off <= zlen (blk_data blk) ->
  d4np_str_split (d4np_str_view_from_buf Null n) sep out 0 m = Some ((0, out), m) /\
  exists out', d4np_str_split (d4np_str_view_from_buf (Ptr b off) 0) sep out 0 m =
    Some ((1, out'), m).
Proof.
  intros Hb Ho. split; [done|].
  destruct (split_loop_spec m sep 0 2 [] (View (Ptr b off) 0) (View Null 0) out 0)
    as (out' & E & _); try (unfold zlen; simpl; size_lia); [| |by exists out'].
  - apply load_bytes_load. simpl. rewrite Hb, decide_True by lia. by unfold sub.
  - destruct out; simpl; [apply zlen_nonneg|done].
Qed.

(** *** Witnesses *)

(** A buffer holding [a;;bc]. *)
Definition text : list Z := [97; 59; 59; 98; 99].
Definition text_mem : mem := Mem {[ 0%nat := Block 16 (Byte <$> text ++ [0]) ]} 1.
Definition text_view : d4np_str_view := View (Ptr 0 0) 5.

Lemma str_split_fields_witness :
  exists fs out', d4np_str_split text_view 59 (Some (replicate 2 (View Null 0))) 2 text_mem =
      Some ((zlen fs, out'), text_mem) /\
    join 59 fs = text /\ Forall (fun f => 59 ∉ f) fs /\ fs <> [] /\
    out_post text_mem text_view 0 2 fs (Some (replicate 2 (View Null 0))) out'.
Proof. apply (str_split_fields text_mem text_view text 59); [done|done|size_lia|done]. Defined.

Lemma str_split_join_witness :
  exists toks, d4np_str_split text_view 59 (Some (replicate 3 (View Null 0))) 3 text_mem =
      Some ((3, Some toks), text_mem) /\
    Forall2 (fun tok f => view_bytes text_mem tok f /\ within text_view tok) toks [[97]; []; [98; 99]].
Proof.
  apply (str_split_join text_mem text_view [[97]; []; [98; 99]] 59 3); try done.
  repeat constructor; set_solver.
Defined.

Lemma str_view_equals_spec_witness :
  d4np_str_view_equals (View (Ptr 0 1) 1) (View (Ptr 0 2) 1) text_mem = Some (true, text_mem).
Proof.
  apply (str_view_equals_spec text_mem (View (Ptr 0 1) 1) (View (Ptr 0 2) 1) [59] [59]);
    right; reflexivity.
Defined.

Lemma str_split_null_view_witness :
  d4np_str_split (d4np_str_view_from_buf Null 3) 59 None 0 text_mem = Some ((0, None), text_mem) /\
  exists out', d4np_str_split (d4np_str_view_from_buf (Ptr 0 0) 0) 59 None 0 text_mem =
    Some ((1, out'), text_mem).
Proof.
  apply (str_split_null_view text_mem 0 0 3 (Block 16 (Byte <$> text ++ [0]))); [done|vm_compute; done].
Defined.

End StrView.
