(* ===== verification/StringBuilder.v ===== *)
(** * String builder ([d4np/ds/string_builder.h], [string_builder.c])

    A growing byte buffer that is always NUL-terminated.  [sb_rep] relates a
    builder to the bytes it holds; a program over a builder is refined by the
    same program over byte lists. *)

From S2P Require Import Prelude Status Memory Allocator StrView.

Local Open Scope Z_scope.

Module StringBuilder.
Import StrView.

Definition D4NP_SB_MIN_CAPACITY : Z := 16.

Record d4np_string_builder := Sb {
  sb_allocator : option d4np_allocator;
  sb_data : ptr;
  sb_len : Z;
  sb_capacity : Z
}.

(** The doubling loop of [sb_ensure].  The capacity is at least 1 and doubles
    in every round, so 65 rounds reach any [size_t]. *)
Fixpoint sb_newcap (fuel : nat) (newcap needed : Z) : option Z :=
  match fuel with
  | O => None
  | S fuel =>
      if newcap <? needed then
        if SIZE_MAX / 2 <? newcap then Some needed
        else sb_newcap fuel (newcap ⊠ 2) needed
      else Some newcap
  end.

Section code.
Context `{!Libc}.

(** [needed] counts the terminating NUL. *)
Definition sb_ensure (sb : d4np_string_builder) (needed : Z)
  : M (d4np_status * d4np_string_builder) :=
  if needed <=? sb_capacity sb then mret (D4NP_OK, sb)
  else
    newcap ← lift_opt (sb_newcap 65
      (if sb_capacity sb =? 0 then D4NP_SB_MIN_CAPACITY else sb_capacity sb) needed);
    p ← d4np_realloc (sb_allocator sb) (sb_data sb) (sb_capacity sb) newcap 1;
    if is_null p then mret (D4NP_ERR_OUT_OF_MEMORY, sb)
    else mret (D4NP_OK, Sb (sb_allocator sb) p (sb_len sb) newcap).

Definition d4np_sb_init (sb : option d4np_string_builder) (allocator : option d4np_allocator)
    (initial_capacity : Z) : M (d4np_status * option d4np_string_builder) :=
  match sb with
  | None => mret (D4NP_ERR_INVALID_ARGUMENT, None)
  | Some _ =>
      let sb := Sb (Some (resolve allocator)) Null 0 0 in
      if 0 <? initial_capacity then
        '(rc, sb) ← sb_ensure sb initial_capacity;
        if decide (rc <> D4NP_OK) then mret (rc, Some sb)
        else store_byte (padd (sb_data sb) 0) 0 ;; mret (D4NP_OK, Some sb)
      else mret (D4NP_OK, Some sb)
  end.

Definition d4np_sb_destroy (sb : option d4np_string_builder) : M (option d4np_string_builder) :=
  match sb with
  | None => mret None
  | Some sb =>
      if is_null (sb_data sb) then mret (Some sb)
      else
        d4np_free (sb_allocator sb) (sb_data sb) (sb_capacity sb) ;;
        mret (Some (Sb (sb_allocator sb) Null 0 0))
  end.

Definition d4np_sb_reserve (sb : option d4np_string_builder) (min_capacity : Z)
  : M (d4np_status * option d4np_string_builder) :=
  match sb with
  | None => mret (D4NP_ERR_INVALID_ARGUMENT, None)
  | Some sb =>
      '(rc, sb) ← sb_ensure sb min_capacity;
      (if bool_decide (rc = D4NP_OK) && negb (is_null (sb_data sb)) && (sb_len sb =? 0)
       then store_byte (padd (sb_data sb) 0) 0 else mret tt) ;;
      mret (rc, Some sb)
  end.

Definition d4np_sb_append_view (sb : option d4np_string_builder) (view : d4np_str_view)
  : M (d4np_status * option d4np_string_builder) :=
  match sb with
  | None => mret (D4NP_ERR_INVALID_ARGUMENT, None)
  | Some sb =>
      if sv_len view =? 0 then
        '(rc, sb) ← sb_ensure sb (sb_len sb ⊞ 1);
        if decide (rc <> D4NP_OK) then mret (rc, Some sb)
        else store_byte (padd (sb_data sb) (sb_len sb)) 0 ;; mret (D4NP_OK, Some sb)
      else if SIZE_MAX ⊟ sb_len sb ⊟ 1 <? sv_len view then mret (D4NP_ERR_OVERFLOW, Some sb)
      else
        '(rc, sb) ← sb_ensure sb (sb_len sb ⊞ sv_len view ⊞ 1);
        if decide (rc <> D4NP_OK) then mret (rc, Some sb)
        else
          memcpy (padd (sb_data sb) (sb_len sb)) (sv_ptr view) (sv_len view) ;;
          let sb := Sb (sb_allocator sb) (sb_data sb) (sb_len sb ⊞ sv_len view) (sb_capacity sb) in
          store_byte (padd (sb_data sb) (sb_len sb)) 0 ;;
          mret (D4NP_OK, Some sb)
  end.

Definition d4np_sb_append (sb : option d4np_string_builder) (cstr : ptr)
  : M (d4np_status * option d4np_string_builder) :=
  view ← d4np_str_view_from_str cstr; d4np_sb_append_view sb view.

Definition d4np_sb_append_char (sb : option d4np_string_builder) (c : Z)
  : M (d4np_status * option d4np_string_builder) :=
  match sb with
  | None => mret (D4NP_ERR_INVALID_ARGUMENT, None)
  | Some sb =>
      '(rc, sb) ← sb_ensure sb (sb_len sb ⊞ 2);
      if decide (rc <> D4NP_OK) then mret (rc, Some sb)
      else
        store_byte (padd (sb_data sb) (sb_len sb)) c ;;
        let sb := Sb (sb_allocator sb) (sb_data sb) (sb_len sb ⊞ 1) (sb_capacity sb) in
        store_byte (padd (sb_data sb) (sb_len sb)) 0 ;;
        mret (D4NP_OK, Some sb)
  end.

End code.

(** A [const char *] result: a string literal or a pointer into memory. *)
Inductive c_str :=
  | StrLit (bs : list Z)
  | StrPtr (p : ptr).

Definition d4np_sb_cstr (sb : option d4np_string_builder) : c_str :=
  match sb with
  | None => StrLit []
  | Some sb => if is_null (sb_data sb) then StrLit [] else StrPtr (sb_data sb)
  end.

Definition d4np_sb_view (sb : option d4np_string_builder) : d4np_str_view :=
  match sb with
  | None => d4np_str_view_from_buf Null 0
  | Some sb =>
      if is_null (sb_data sb) then d4np_str_view_from_buf Null 0
      else d4np_str_view_from_buf (sb_data sb) (sb_len sb)
  end.

Definition d4np_sb_len (sb : option d4np_string_builder) : Z :=
  match sb with Some sb => sb_len sb | None => 0 end.

Definition d4np_sb_clear (sb : option d4np_string_builder) : M (option d4np_string_builder) :=
  match sb with
  | None => mret None
  | Some sb =>
      let sb := Sb (sb_allocator sb) (sb_data sb) 0 (sb_capacity sb) in
      (if is_null (sb_data sb) then mret tt else store_byte (padd (sb_data sb) 0) 0) ;;
      mret (Some sb)
  end.

#[global] Arguments sb_ensure : simpl never.

(** ** The invariant *)

(** The storage of a builder: [NULL], or a live allocation of [capacity]
    bytes; its allocator keeps the allocator contract. *)
Record sb_storage (m : mem) (sb : d4np_string_builder) : Prop := {
  ss_allocator : exists a, sb_allocator sb = Some a /\ AllocatorOk a;
  ss_capacity : 0 <= sb_capacity sb <= PTRDIFF_MAX;
  ss_data : owned_opt m (sb_data sb) (sb_capacity sb);
  ss_null : sb_data sb = Null \/ 0 < sb_capacity sb
}.

(** The builder holds the bytes [bs], with a NUL after them. *)
Record sb_rep (m : mem) (sb : d4np_string_builder) (bs : list Z) : Prop := {
  sr_storage : sb_storage m sb;
  sr_len : sb_len sb = zlen bs;
  sr_bytes :
    (sb_data sb = Null /\ bs = []) \/
    (sb_len sb < sb_capacity sb /\
     sub 0 (sb_len sb + 1) (cells_of m (sb_data sb)) = Byte <$> bs ++ [0])
}.

(** ** Growth *)

Lemma sb_newcap_exp fuel k c n :
  (k + fuel = 65)%nat -> is_size c -> 2 ^ Z.of_nat k <= c -> c < n -> is_size n ->
  exists c', sb_newcap fuel c n = Some c' /\ n <= c' <= SIZE_MAX.
Proof.
  revert k c. induction fuel as [|fuel IH]; intros k c Hk Hc Hge Hlt Hn.
  { assert (2 ^ 65 <= c) by (by replace 65 with (Z.of_nat k) by lia). size_lia. }
  simpl. destruct (Z.ltb_spec c n); [|lia].
  destruct (Z.ltb_spec (SIZE_MAX / 2) c) as [|Hs]; [exists n; split; [done|size_lia]|].
  change (SIZE_MAX / 2) with (2 ^ 63 - 1) in Hs.
  rewrite size_mul_small by size_lia.
  destruct (Z.ltb_spec (c * 2) n) as [Hl|Hl].
  - apply (IH (S k)); [lia|size_lia| |lia|done]. rewrite Nat2Z.inj_succ, Z.pow_succ_r; lia.
  - exists (c * 2). destruct fuel as [|fuel].
    + replace k with 64%nat in Hge by lia. size_lia.
    + simpl. destruct (Z.ltb_spec (c * 2) n); [lia|]. split; [done|size_lia].
Qed.

Lemma sb_newcap_enough fuel c n : n <= c -> sb_newcap (S fuel) c n = Some c.
Proof. intros. simpl. destruct (Z.ltb_spec c n); [lia|done]. Qed.

#[global] Arguments sb_newcap : simpl never.

Lemma sb_newcap_spec c n :
  0 < c -> is_size c -> is_size n ->
  exists c', sb_newcap 65 c n = Some c' /\ n <= c' <= SIZE_MAX /\ (c < n \/ c' = c).
Proof.
  intros. destruct (Z.ltb_spec c n).
  - destruct (sb_newcap_exp 65 0 c n) as (c' & ? & ?); auto; [simpl; lia|]. exists c'. auto.
  - exists c. split; [by apply sb_newcap_enough|size_lia].
Qed.

Section proofs.
Context `{!Libc}.

(** New storage of a builder is its old block or one that did not exist. *)
Definition fresh_data (m : mem) (sb sb' : d4np_string_builder) : Prop :=
  forall b off, sb_data sb' = Ptr b off -> sb_data sb = sb_data sb' \/ m_heap m !! b = None.

(** The storage may have moved; every other block of memory is what it was,
    and there are no new ones. *)
Definition keeps (m m' : mem) (sb sb' : d4np_string_builder) : Prop :=
  heap_free (sb_data sb') (m_heap m') = heap_free (sb_data sb) (m_heap m).

Lemma keeps_heap m m' sb : m_heap m' = m_heap m -> keeps m m' sb sb.
Proof. unfold keeps. by intros ->. Qed.

Lemma keeps_frame m m' sb sb' :
  keeps m m' sb sb' -> fresh_data m sb sb' -> frame [sb_data sb] m m'.
Proof.
  intros Hk Hfr b blk Hn Hb. assert (~ touches [sb_data sb'] b) as Hn'.
  { intros [off Hin]. apply list_elem_of_singleton in Hin.
    destruct (Hfr b off (eq_sym Hin)) as [E|]; [|congruence]. apply Hn.
    rewrite E, <- Hin. apply touches_here. }
  rewrite <- (heap_free_lookup (sb_data sb')), Hk by done. by rewrite heap_free_lookup.
Qed.

(** A write to the storage touches nothing else. *)
Lemma keeps_write m m1 m2 sb sb1 sb2 :
  keeps m m1 sb sb1 -> only [sb_data sb1] m1 m2 -> sb_data sb2 = sb_data sb1 -> keeps m m2 sb sb2.
Proof.
  unfold keeps. intros Hk Ho ->. rewrite <- Hk. apply map_eq. intros b.
  destruct (sb_data sb1) as [|b' off]; simpl.
  - apply Ho. intros [off Hin]. set_solver.
  - rewrite !lookup_delete. case_decide; [done|]. apply Ho. rewrite touches_singleton. congruence.
Qed.

Lemma ensure_spec m sb n :
  sb_storage m sb -> is_size n ->
  wp (sb_ensure sb n) m (fun '(st, sb') m' =>
    keeps m m' sb sb' /\ fresh_data m sb sb' /\ sb_storage m' sb' /\
    sb_len sb' = sb_len sb /\
    match st with
    | D4NP_OK =>
        n <= sb_capacity sb' /\ sb_capacity sb <= sb_capacity sb' /\
        sub 0 (sb_capacity sb) (cells_of m' (sb_data sb')) = cells_of m (sb_data sb)
    | D4NP_ERR_OUT_OF_MEMORY => sb' = sb /\ m_heap m' = m_heap m
    | _ => False
    end).
Proof.
  intros [(a & Ha & Hok) Hcap Hd Hnull] Hn. unfold sb_ensure, fresh_data.
  pose proof (owned_opt_size _ _ _ Hd) as Hz.
  destruct (Z.leb_spec n (sb_capacity sb)) as [Hle|Hgt].
  { wp_ret. split_and!; auto; [done|by split; eauto|lia|]. by apply sub_full. }
  set (c := if sb_capacity sb =? 0 then _ else _).
  assert (exists c', sb_newcap 65 c n = Some c' /\ sb_capacity sb < c' /\ n <= c' <= SIZE_MAX)
    as (c' & Hc' & Hgt' & Hle').
  { assert (0 < c /\ sb_capacity sb <= c <= PTRDIFF_MAX) as [Hc0 Hc1].
    { unfold c, D4NP_SB_MIN_CAPACITY. destruct (Z.eqb_spec (sb_capacity sb) 0); size_lia. }
    destruct (sb_newcap_spec c n) as (c' & Hc' & Hb); [lia|size_lia|done|].
    exists c'. split; [done|lia]. }
  wp_bind. eapply wp_run; [unfold lift_opt; by rewrite Hc'|]. wp_bind.
  unfold d4np_realloc. rewrite Ha. simpl.
  eapply wp_mono; [apply (ok_realloc m (sb_data sb) _ c' 1); [lia|by exists 0|exact Hd]|].
  intros p m' Hp. apply alloc_post_inv in Hp as
    [[-> Hh]|(b & -> & Hnone & Hmax & Hown & Hcells & Hoth)]; [| |lia]; simpl; wp_ret.
  - split_and!; auto using keeps_heap. split; eauto.
    destruct Hd as [?|(b & blk & -> & ? & ?)]; [by left|right; exists b, blk; by rewrite Hh].
  - simpl. split_and!; auto; [|naive_solver| |lia|lia|].
    + apply map_eq. intros b'. simpl. rewrite lookup_delete. case_decide as E; [subst b'|auto].
      destruct (sb_data sb); simpl; [done|]. rewrite lookup_delete. by case_decide.
    + split; simpl; [eauto|lia|by right|right; lia].
    + simpl in Hcells. rewrite Hcells. rewrite <- (sub_full (cells_of m (sb_data sb)) (sb_capacity sb)) at 2 by lia.
      apply sub_resize; lia.
Qed.

(** The bytes are in place; the NUL may not be. *)
Record sb_prefix (m : mem) (sb : d4np_string_builder) (bs : list Z) : Prop := {
  sp_storage : sb_storage m sb;
  sp_len : sb_len sb = zlen bs;
  sp_room : sb_len sb <= sb_capacity sb;
  sp_bytes : sub 0 (sb_len sb) (cells_of m (sb_data sb)) = Byte <$> bs
}.

Lemma sb_rep_prefix m sb bs : sb_rep m sb bs -> sb_prefix m sb bs.
Proof.
  intros [Hs Hl [[Hd ->]|[Hlt Hb]]]; pose proof (ss_capacity _ _ Hs); split; auto;
    rewrite ?Hl, ?zlen_nil; try lia; [by rewrite Hd|].
  pose proof (zlen_nonneg bs). rewrite <- Hl.
  transitivity (sub 0 (sb_len sb) (sub 0 (sb_len sb + 1) (cells_of m (sb_data sb)))).
  { by rewrite sub_sub by lia. }
  rewrite Hb, sub_fmap. f_equal. rewrite Hl. apply sub_prefix.
Qed.

Lemma sb_rep_heap m m' sb bs : sb_rep m sb bs -> m_heap m' = m_heap m -> sb_rep m' sb bs.
Proof.
  intros [[? ? Hd ?] Hl Hb] Hh. assert (cells_of m' (sb_data sb) = cells_of m (sb_data sb)) as Hc.
  { destruct (sb_data sb); [done|]. simpl. by rewrite Hh. }
  split; auto; [|by rewrite Hc]. split; auto. unfold owned_opt, owned in *. by rewrite Hh.
Qed.

(** Bytes written behind the contents extend them. *)
Lemma prefix_extend m sb bs cs :
  sb_prefix m sb bs -> 0 < zlen cs -> sb_len sb + zlen cs <= sb_capacity sb ->
  exists b blk, sb_data sb = Ptr b 0 /\ m_heap m !! b = Some blk /\
    zlen (blk_data blk) = sb_capacity sb /\
    sb_prefix (mem_write b (sb_len sb) (Byte <$> cs) m)
      (Sb (sb_allocator sb) (sb_data sb) (sb_len sb + zlen cs) (sb_capacity sb)) (bs ++ cs).
Proof.
  intros [[Ha Hcap Hd Hn] Hl Hr Hb] Hcs Hroom. pose proof (zlen_nonneg bs).
  apply owned_opt_pos in Hd; [|lia]. apply owned_lookup in Hd as (b & blk & Hdp & Hblk & Hz & Hc).
  exists b, blk. split_and!; [done..|].
  pose proof (mem_write_lookup b (sb_len sb) (Byte <$> cs) m blk Hblk) as Hw.
  rewrite Hc in Hb. rewrite Hdp.
  split; simpl; [split; simpl; auto|rewrite zlen_app; lia|lia|].
  - right. eexists b, _. split_and!; [done|exact Hw|]. simpl.
    rewrite zlen_splice by (rewrite ?zlen_fmap; lia). done.
  - by right; lia.
  - rewrite Hw. simpl. rewrite fmap_app, sub_app, <- Hb by lia. f_equal.
    + apply sub_splice_ne; rewrite ?zlen_fmap; lia.
    + rewrite <- (zlen_fmap Byte cs) at 1. apply sub_splice_eq; rewrite ?zlen_fmap; lia.
Qed.

Lemma sb_terminate m sb bs :
  sb_prefix m sb bs -> sb_len sb < sb_capacity sb ->
  wp (store_byte (padd (sb_data sb) (sb_len sb)) 0) m (fun _ m' =>
    sb_rep m' sb bs /\ only [sb_data sb] m m').
Proof.
  intros Hp Hlt. destruct (prefix_extend m sb bs [0] Hp) as (b & blk & Hd & Hb & Hz & Hp');
    [done|rewrite zlen_cons, zlen_nil; lia|]. pose proof (zlen_nonneg bs).
  pose proof (sp_len _ _ _ Hp) as Hl. unfold store_byte. rewrite Hd, padd_0.
  eapply wp_store; [exact Hb|lia|rewrite zlen_cons, zlen_nil; lia|].
  split; [|by eapply only_write, list_elem_of_here].
  destruct Hp' as [[] _ _ Hb']. simpl in *. split; simpl; [by split|done|].
  right. split; [done|]. exact Hb'.
Qed.

(** Growth keeps the bytes, and the NUL if there is one. *)
Lemma ensure_rep m sb bs n :
  sb_rep m sb bs -> is_size n ->
  wp (sb_ensure sb n) m (fun '(st, sb') m' =>
    keeps m m' sb sb' /\ fresh_data m sb sb' /\
    match st with
    | D4NP_OK => sb_prefix m' sb' bs /\ sb_len sb' = sb_len sb /\ n <= sb_capacity sb' /\
        (0 < sb_len sb -> sb_rep m' sb' bs)
    | D4NP_ERR_OUT_OF_MEMORY => sb' = sb /\ m_heap m' = m_heap m
    | _ => False
    end).
Proof.
  intros Hr Hn. pose proof (sb_rep_prefix _ _ _ Hr) as Hp. pose proof (zlen_nonneg bs).
  eapply wp_mono; [apply ensure_spec; [apply Hr|done]|].
  intros [st sb'] m' (Hf & Hfr & Hs & Hl & Hst). split_and!; auto.
  destruct st; try done. destruct Hst as (Hn' & Hc' & Hsub).
  pose proof (sp_room _ _ _ Hp) as Hroom. pose proof (sp_len _ _ _ Hp) as Hlen.
  assert (forall k, 0 <= k <= sb_capacity sb ->
    sub 0 k (cells_of m' (sb_data sb')) = sub 0 k (cells_of m (sb_data sb))) as Hk.
  { intros k ?. rewrite <- Hsub. by rewrite sub_sub by lia. }
  split_and!; auto.
  - split; rewrite ?Hl; auto; [lia|]. rewrite Hk by lia. apply Hp.
  - intros Hpos. destruct (sr_bytes _ _ _ Hr) as [[_ ->]|[Hlt Hb]]; [rewrite zlen_nil in Hlen; lia|].
    split; rewrite ?Hl; auto. right. split; [lia|]. by rewrite Hk by lia.
Qed.

(** ** The operations *)

(** An operation that turns the contents [bs] into [bs'], or fails and changes
    nothing. *)
Definition sb_post (m : mem) (sb : d4np_string_builder) (bs' : list Z)
    (r : d4np_status * option d4np_string_builder) (m' : mem) : Prop :=
  exists sb', r.2 = Some sb' /\ keeps m m' sb sb' /\ fresh_data m sb sb' /\
    match r.1 with
    | D4NP_OK => sb_rep m' sb' bs'
    | D4NP_ERR_OUT_OF_MEMORY | D4NP_ERR_OVERFLOW => sb' = sb /\ m_heap m' = m_heap m
    | _ => False
    end.

(** The last step of every operation that grew the storage first. *)
Lemma finish m m1 sb sb1 bs :
  keeps m m1 sb sb1 -> fresh_data m sb sb1 -> sb_prefix m1 sb1 bs ->
  sb_len sb1 < sb_capacity sb1 ->
  wp (store_byte (padd (sb_data sb1) (sb_len sb1)) 0 ;; mret (D4NP_OK, Some sb1)) m1
     (sb_post m sb bs).
Proof.
  intros Hf Hfr Hp Hlt. wp_bind. eapply wp_mono; [by apply sb_terminate|].
  intros [] m2 [Hr2 Hf2]. wp_ret. exists sb1. split_and!; eauto using keeps_write.
Qed.

Lemma sb_fail m m1 sb st bs :
  st = D4NP_ERR_OUT_OF_MEMORY \/ st = D4NP_ERR_OVERFLOW -> m_heap m1 = m_heap m ->
  sb_post m sb bs (st, Some sb) m1.
Proof.
  intros Hst Hh. exists sb. simpl. split_and!; auto using keeps_heap; [by left|by destruct Hst as [->| ->]].
Qed.

Lemma sb_reserve_spec m sb bs n :
  sb_rep m sb bs -> is_size n ->
  wp (d4np_sb_reserve (Some sb) n) m (fun r m' => sb_post m sb bs r m' /\
    (r.1 = D4NP_OK -> exists sb', r.2 = Some sb' /\ n <= sb_capacity sb')).
Proof.
  intros Hr Hn. simpl. wp_bind. eapply wp_mono; [by apply ensure_rep|].
  intros [st sb1] m1 (Hf & Hfr & Hst). destruct st; try done.
  2: { destruct Hst as [-> Hh]. simpl. wp_bind. wp_ret. wp_ret. split; [|done].
       apply sb_fail; auto. }
  destruct Hst as (Hp & Hl & Hc & Hrep). rewrite bool_decide_eq_true_2 by done. simpl.
  pose proof (sp_len _ _ _ Hp). pose proof (zlen_nonneg bs).
  destruct (is_null (sb_data sb1)) eqn:Hnull; simpl.
  - wp_bind. wp_ret. wp_ret. split; [|by eexists]. exists sb1. split_and!; [done..|]. simpl.
    destruct (sb_data sb1) eqn:Hd; [|done]. destruct Hp as [Hs ? Hroom Hb].
    rewrite Hd in Hb. simpl in Hb. rewrite sub_nil in Hb. symmetry in Hb.
    apply fmap_nil_inv in Hb. split; auto.
  - destruct (Z.eqb_spec (sb_len sb1) 0) as [Hz|Hz].
    + assert (0 < sb_capacity sb1).
      { destruct (ss_null _ _ (sp_storage _ _ _ Hp)) as [E|]; [by rewrite E in Hnull|done]. }
      wp_bind. rewrite <- Hz at 1. eapply wp_mono; [apply sb_terminate; [exact Hp|lia]|].
      intros [] m2 [Hr2 Hf2]. wp_ret. split; [|by eexists].
      exists sb1. split_and!; eauto using keeps_write.
    + wp_bind. wp_ret. wp_ret. split; [|by eexists]. exists sb1. split_and!; [done..|].
      apply Hrep. lia.
Qed.

(** The bytes a view argument stands for; an empty view may point anywhere. *)
Definition view_arg (m : mem) (v : d4np_str_view) (cs : list Z) : Prop :=
  (sv_len v = 0 /\ cs = []) \/ view_bytes m v cs.

(** The view does not show the builder's own storage. *)
Definition view_apart (sb : d4np_string_builder) (v : d4np_str_view) : Prop :=
  sv_len v = 0 \/ forall b off, sv_ptr v = Ptr b off -> ~ touches [sb_data sb] b.

(** A live view is also apart from grown storage, and shows the same bytes. *)
Lemma view_grow m m1 sb sb1 p n cs :
  load p n m = Some (cs, m) -> (forall b off, p = Ptr b off -> ~ touches [sb_data sb] b) ->
  keeps m m1 sb sb1 -> fresh_data m sb sb1 ->
  load p n m1 = Some (cs, m1) /\ forall b o o' n', sb_data sb1 = Ptr b o ->
    overlap (Ptr b o') p n' = false.
Proof.
  intros Hld Hap Hk Hfr. pose proof (keeps_frame _ _ _ _ Hk Hfr) as Hf. destruct p as [|pb poff]; [done|].
  assert (exists blk, m_heap m !! pb = Some blk) as [blk Hb].
  { simpl in Hld. destruct (m_heap m !! pb); eauto; done. }
  split.
  - eapply load_frame; [done|]. rewrite Hb. apply Hf; eauto.
  - intros b o o' n' Hd. apply overlap_blocks. intros ->.
    destruct (Hfr pb o Hd) as [E|]; [|congruence].
    apply (Hap pb poff eq_refl). rewrite E, Hd. apply touches_here.
Qed.

Lemma append_view_spec m sb bs v cs :
  sb_rep m sb bs -> view_arg m v cs -> is_size (sv_len v) -> view_apart sb v ->
  wp (d4np_sb_append_view (Some sb) v) m (sb_post m sb (bs ++ cs)).
Proof.
  intros Hr Hv Hsz Hap. pose proof (zlen_nonneg bs). pose proof (sr_len _ _ _ Hr) as Hl.
  assert (sb_len sb <= PTRDIFF_MAX).
  { pose proof (sp_room _ _ _ (sb_rep_prefix _ _ _ Hr)).
    pose proof (ss_capacity _ _ (sr_storage _ _ _ Hr)). lia. }
  assert (sv_len v = zlen cs) as Hvl.
  { destruct Hv as [[-> ->]|Hv]; [done|]. by destruct (load_bytes_zlen _ _ _ _ Hv). }
  simpl. destruct (Z.eqb_spec (sv_len v) 0) as [Hz|Hz].
  - assert (cs = []) as -> by (unfold zlen in *; destruct cs; simpl in *; [done|lia]).
    rewrite app_nil_r, size_add_small by size_lia. wp_bind.
    eapply wp_mono; [apply ensure_rep; [done|size_lia]|].
    intros [st sb1] m1 (Hf & Hfr & Hst). destruct st; try done; simpl.
    + destruct Hst as (Hp & Hl1 & Hc & _). apply finish; auto. lia.
    + destruct Hst as [-> Hh]. wp_ret. apply sb_fail; auto.
  - rewrite (size_sub_small SIZE_MAX), size_sub_small by size_lia.
    destruct (Z.ltb_spec (SIZE_MAX - sb_len sb - 1) (sv_len v)).
    { wp_ret. apply sb_fail; auto. }
    rewrite (size_add_small (sb_len sb)), size_add_small by size_lia. wp_bind.
    eapply wp_mono; [apply ensure_rep; [done|size_lia]|].
    intros [st sb1] m1 (Hf & Hfr & Hst). destruct st; try done; simpl.
    2: { destruct Hst as [-> Hh]. wp_ret. apply sb_fail; auto. }
    destruct Hst as (Hp & Hl1 & Hc & _).
    destruct Hv as [[? _]|Hv]; [done|]. destruct Hap as [?|Hap]; [done|].
    apply load_bytes_load in Hv. pose proof (view_grow _ _ _ _ _ _ _ Hv Hap Hf Hfr) as [Hv1 Hov].
    destruct (prefix_extend m1 sb1 bs cs Hp) as (b & blk & Hd & Hb & Hzb & Hp2); [size_lia|lia|].
    rewrite Hd, padd_0. wp_bind.
    eapply wp_memcpy; [exact Hv1|size_lia|by eapply Hov|exact Hb|lia|lia|].
    rewrite size_add_small by size_lia. rewrite Hd, <- Hvl in Hp2.
    eapply (finish m _ sb (Sb _ (Ptr b 0) _ _)) in Hp2; [exact Hp2| | |simpl; lia].
    + eapply keeps_write; [exact Hf| |by simpl]. rewrite Hd.
      by eapply only_write, list_elem_of_here.
    + intros b' off' E. rewrite <- Hd in E. simpl in *. rewrite <- Hd. eauto.
Qed.

Lemma append_char_spec m sb bs c :
  sb_rep m sb bs -> wp (d4np_sb_append_char (Some sb) c) m (sb_post m sb (bs ++ [c])).
Proof.
  intros Hr. pose proof (zlen_nonneg bs). pose proof (sr_len _ _ _ Hr) as Hl.
  assert (sb_len sb <= PTRDIFF_MAX).
  { pose proof (sp_room _ _ _ (sb_rep_prefix _ _ _ Hr)).
    pose proof (ss_capacity _ _ (sr_storage _ _ _ Hr)). lia. }
  simpl. rewrite size_add_small by size_lia. wp_bind.
  eapply wp_mono; [apply ensure_rep; [done|size_lia]|].
  intros [st sb1] m1 (Hf & Hfr & Hst). destruct st; try done; simpl.
  2: { destruct Hst as [-> Hh]. wp_ret. apply sb_fail; auto. }
  destruct Hst as (Hp & Hl1 & Hc & _).
  destruct (prefix_extend m1 sb1 bs [c] Hp) as (b & blk & Hd & Hb & Hzb & Hp2);
    [done|change (zlen [c]) with 1; lia|].
  unfold store_byte at 1. rewrite Hd, padd_0. wp_bind.
  eapply wp_store; [exact Hb|lia|change (zlen [Byte c]) with 1; lia|].
  rewrite size_add_small by size_lia. rewrite Hd in Hp2. change (zlen [c]) with 1 in Hp2.
  eapply (finish m _ sb (Sb _ (Ptr b 0) _ _)) in Hp2; [exact Hp2| | |simpl; lia].
  - eapply keeps_write; [exact Hf| |by simpl]. rewrite Hd.
    by eapply only_write, list_elem_of_here.
  - intros b' off' E. rewrite <- Hd in E. simpl in *. rewrite <- Hd. eauto.
Qed.

Lemma sb_clear_spec m sb bs :
  sb_rep m sb bs ->
  wp (d4np_sb_clear (Some sb)) m (fun osb m' => sb_post m sb [] (D4NP_OK, osb) m').
Proof.
  intros Hr. pose proof (sb_rep_prefix _ _ _ Hr) as [Hs ? ? _]. destruct Hs as [? Hc ? Hn].
  set (sb0 := Sb (sb_allocator sb) (sb_data sb) 0 (sb_capacity sb)).
  assert (sb_prefix m sb0 []) as Hp by (split; simpl; auto; [by split|lia]).
  unfold d4np_sb_clear. fold sb0. destruct (sb_data sb0) as [|b off] eqn:Hd; simpl.
  - wp_bind. wp_ret. wp_ret. exists sb0. split_and!; [done|done| |]; simpl in Hd.
    + intros b' off' E. simpl in E. congruence.
    + simpl. split; simpl; auto. by split.
  - wp_bind. simpl in Hd. change (Ptr b (off + 0)) with (padd (Ptr b off) (sb_len sb0)).
    rewrite <- Hd. destruct Hn as [Hn|Hn]; [congruence|].
    eapply wp_mono; [apply (sb_terminate m sb0 []); simpl; auto|].
    intros [] m' [Hr' Ho]. wp_ret. exists sb0. split_and!; [done| |by left|done].
    by eapply (keeps_write m m m' sb sb).
Qed.

Lemma sb_destroy_spec m sb bs :
  sb_rep m sb bs ->
  wp (d4np_sb_destroy (Some sb)) m (fun osb m' =>
    m_heap m' = heap_free (sb_data sb) (m_heap m) /\ exists sb', osb = Some sb' /\ sb_rep m' sb' []).
Proof.
  intros Hr. destruct (sr_storage _ _ _ Hr) as [(a & Ha & Hok) Hc Hd Hn]. simpl.
  destruct (sb_data sb) as [|b off] eqn:Hdp; simpl.
  { wp_ret. split; [done|]. exists sb. split; [done|].
    destruct (sb_rep_prefix _ _ _ Hr) as [? Hl _ Hb]. rewrite Hdp in Hb. simpl in Hb.
    rewrite sub_nil in Hb. symmetry in Hb. apply fmap_nil_inv in Hb. by subst bs. }
  destruct Hd as [[? _]|Ho]; [done|]. unfold d4np_free. rewrite Ha. simpl. wp_bind.
  eapply wp_mono; [apply ok_free; right; exact Ho|]. intros [] m' Hh. simpl in Hh. wp_ret.
  split; [done|]. eexists. split; [done|]. split; simpl; auto.
  split; simpl; eauto; [size_lia|by left].
Qed.

(** ** Programs over a builder

    A client whose own data is the initial memory [m0] runs a list of
    operations on a builder. *)

Inductive sop :=
  | SAppend (cstr : ptr)
  | SAppendView (v : d4np_str_view)
  | SAppendChar (c : Z)
  | SReserve (n : Z)
  | SClear.

Definition with_sb {A} (osb : option d4np_string_builder)
    (k : d4np_string_builder -> M A) : M A :=
  match osb with Some sb => k sb | None => fault end.

Definition run_op (sb : d4np_string_builder) (op : sop)
  : M (d4np_status * option d4np_string_builder) :=
  match op with
  | SAppend p => d4np_sb_append (Some sb) p
  | SAppendView v => d4np_sb_append_view (Some sb) v
  | SAppendChar c => d4np_sb_append_char (Some sb) c
  | SReserve n => d4np_sb_reserve (Some sb) n
  | SClear => osb ← d4np_sb_clear (Some sb); mret (D4NP_OK, osb)
  end.

Fixpoint run_ops (sb : d4np_string_builder) (ops : list sop)
  : M (list d4np_status * d4np_string_builder) :=
  match ops with
  | [] => mret ([], sb)
  | op :: ops =>
      '(st, osb) ← run_op sb op;
      with_sb osb (fun sb => '(sts, sb) ← run_ops sb ops; mret (st :: sts, sb))
  end.

(** What an operation does to the contents when it succeeds. *)
Inductive effect :=
  | Append (cs : list Z)
  | Keep
  | Clear.

Definition apply_effect (e : effect) (bs : list Z) : list Z :=
  match e with Append cs => bs ++ cs | Keep => bs | Clear => [] end.

(** The effect an operation has, read off the client's data. *)
Inductive op_effect (m0 : mem) : sop -> effect -> Prop :=
  | eff_append p cs : cstring m0 p cs -> zlen cs <= PTRDIFF_MAX -> op_effect m0 (SAppend p) (Append cs)
  | eff_append_null : op_effect m0 (SAppend Null) (Append [])
  | eff_view v cs : view_arg m0 v cs -> is_size (sv_len v) -> op_effect m0 (SAppendView v) (Append cs)
  | eff_char c : op_effect m0 (SAppendChar c) (Append [c])
  | eff_reserve n : is_size n -> op_effect m0 (SReserve n) Keep
  | eff_clear : op_effect m0 SClear Clear.

(** A list of statuses against a list of effects: a failed operation leaves
    the contents alone. *)
Inductive effects : list Z -> list d4np_status -> list effect -> list Z -> Prop :=
  | effects_nil bs : effects bs [] [] bs
  | effects_ok bs e sts es bs' :
      effects (apply_effect e bs) sts es bs' -> effects bs (D4NP_OK :: sts) (e :: es) bs'
  | effects_fail bs st e sts es bs' :
      st = D4NP_ERR_OUT_OF_MEMORY \/ st = D4NP_ERR_OVERFLOW ->
      effects bs sts es bs' -> effects bs (st :: sts) (e :: es) bs'.

(** Memory is the client's data and the builder's storage, nothing else. *)
Definition sb_client (m0 m : mem) (sb : d4np_string_builder) (bs : list Z) : Prop :=
  sb_rep m sb bs /\ heap_free (sb_data sb) (m_heap m) = m_heap m0 /\
  forall b off, sb_data sb = Ptr b off -> m_heap m0 !! b = None.

Lemma sb_client_frame m0 m sb bs : sb_client m0 m sb bs -> frame [] m0 m.
Proof.
  intros (_ & Hh & Hn) b blk _ Hb. rewrite <- Hh in Hb.
  destruct (sb_data sb) as [|b' off]; [done|]. simpl in Hb. rewrite lookup_delete in Hb.
  by case_decide.
Qed.

Lemma sb_client_apart m0 m sb bs p b off n cs :
  sb_client m0 m sb bs -> load p n m0 = Some (cs, m0) -> p = Ptr b off -> ~ touches [sb_data sb] b.
Proof.
  intros (_ & _ & Hn) Hl -> [o Hin]. apply list_elem_of_singleton in Hin.
  apply load_valid in Hl as (b' & off' & blk & [= <- <-] & Hb & _).
  rewrite (Hn b o) in Hb; congruence.
Qed.

Lemma sb_client_load m0 m sb bs p n cs :
  sb_client m0 m sb bs -> load p n m0 = Some (cs, m0) -> load p n m = Some (cs, m).
Proof.
  intros Hc Hl. destruct p as [|b off]; [done|]. eapply load_frame; [exact Hl|].
  destruct (load_valid _ _ _ _ _ Hl) as (b' & off' & blk & [= <- <-] & Hb & _).
  rewrite Hb. apply (sb_client_frame _ _ _ _ Hc); [apply touches_nil|done].
Qed.

Lemma sb_client_post m0 m sb bs bs' r m' :
  sb_client m0 m sb bs -> sb_post m sb bs' r m' ->
  exists sb', r.2 = Some sb' /\
    ((r.1 = D4NP_OK /\ sb_client m0 m' sb' bs') \/
     ((r.1 = D4NP_ERR_OUT_OF_MEMORY \/ r.1 = D4NP_ERR_OVERFLOW) /\ sb_client m0 m' sb' bs)).
Proof.
  intros (Hr & Hh & Hn) (sb' & E & Hk & Hfr & Hst). exists sb'. split; [done|].
  assert (heap_free (sb_data sb') (m_heap m') = m_heap m0) by (by rewrite Hk).
  assert (forall b off, sb_data sb' = Ptr b off -> m_heap m0 !! b = None) as Hn'.
  { intros b off Hd. destruct (Hfr b off Hd) as [E'|E']; [apply (Hn b off); congruence|].
    rewrite <- Hh. destruct (sb_data sb); [done|]. simpl. rewrite lookup_delete. by case_decide. }
  destruct r.1; try done; [left|right|right]; (split; [auto|]); split_and!; auto;
    destruct Hst as [-> ?]; by eapply sb_rep_heap.
Qed.

Lemma append_spec m0 m sb bs p cs :
  sb_client m0 m sb bs -> cstring m0 p cs -> zlen cs <= PTRDIFF_MAX ->
  wp (d4np_sb_append (Some sb) p) m (sb_post m sb (bs ++ cs)).
Proof.
  intros Hc [Hcs H0] Hmax. unfold d4np_sb_append, d4np_str_view_from_str.
  pose proof Hcs as Hld. apply load_bytes_load in Hld.
  assert (cstring m p cs) as Hcm.
  { split; [|done]. apply load_bytes_load. by eapply sb_client_load. }
  destruct p as [|b off]; [done|]. simpl. wp_bind. wp_bind.
  eapply wp_run; [by apply strlen_spec|]. wp_ret. pose proof (zlen_nonneg cs).
  apply append_view_spec; simpl; [apply Hc| |size_lia|].
  - right. unfold view_bytes. simpl. destruct Hcm as [Hcm _].
    apply (load_bytes_sub _ _ _ _ _ 0 (zlen cs)) in Hcm; [|lia..]. rewrite Z.add_0_r in Hcm.
    by rewrite Hcm, sub_prefix.
  - right. intros b' off' E. simpl in E. by eapply sb_client_apart.
Qed.

Lemma sb_run_op_spec m0 m sb bs op e :
  sb_client m0 m sb bs -> op_effect m0 op e ->
  wp (run_op sb op) m (sb_post m sb (apply_effect e bs)).
Proof.
  intros Hc He. destruct He as [p cs Hcs Hmax| |v cs Hv Hsz|c|n Hn|]; simpl.
  - by eapply append_spec.
  - apply append_view_spec; [apply Hc|by left|simpl; size_lia|by left].
  - apply append_view_spec; [apply Hc| |done|].
    + destruct Hv as [?|Hv]; [by left|right]. apply load_bytes_load.
      eapply sb_client_load; [done|]. by apply load_bytes_load.
    + destruct Hv as [[? _]|Hv]; [by left|right]. apply load_bytes_load in Hv.
      intros b off E. by eapply sb_client_apart.
  - apply append_char_spec, Hc.
  - eapply wp_mono; [by apply sb_reserve_spec; [apply Hc|]|]. by intros r m' [? _].
  - wp_bind. eapply wp_mono; [eapply sb_clear_spec, Hc|]. intros osb m' H1. by wp_ret.
Qed.

Lemma sb_run_ops_spec m0 m sb bs ops es :
  sb_client m0 m sb bs -> Forall2 (op_effect m0) ops es ->
  wp (run_ops sb ops) m (fun '(sts, sb') m' =>
    exists bs', effects bs sts es bs' /\ sb_client m0 m' sb' bs').
Proof.
  intros Hc Hops. revert m sb bs Hc. induction Hops as [|op e ops es Ho Hops IH]; intros m sb bs Hc; simpl.
  { wp_ret. exists bs. split; [constructor|done]. }
  wp_bind. eapply wp_mono; [by eapply sb_run_op_spec|]. intros [st osb] m1 Hp.
  destruct (sb_client_post _ _ _ _ _ _ _ Hc Hp) as (sb1 & Eo & Hcase). simpl in *. subst osb.
  simpl. destruct Hcase as [[-> Hc1]|[Hst Hc1]]; wp_bind;
    (eapply wp_mono; [by apply IH|]); intros [sts sb2] m2 (bs' & He & Hc2); wp_ret;
    exists bs'; (split; [by constructor|done]).
Qed.

Lemma sb_init_spec m osb oa n :
  allocator_arg_ok oa -> is_size n ->
  wp (d4np_sb_init (Some osb) oa n) m (fun r m' =>
    exists sb, r.2 = Some sb /\ sb_client m m' sb [] /\
      (r.1 = D4NP_OK \/ (r.1 = D4NP_ERR_OUT_OF_MEMORY /\ m_heap m' = m_heap m))).
Proof.
  intros Ha Hn. apply resolve_ok in Ha. unfold d4np_sb_init. set (sb := Sb _ _ _ _).
  assert (sb_rep m sb []) as Hr.
  { split; simpl; auto. split; simpl; eauto; [size_lia|by left]. }
  assert (sb_client m m sb []) as Hc by (by split_and!).
  destruct (Z.ltb_spec 0 n) as [Hpos|Hz]; [|wp_ret; exists sb; auto].
  wp_bind. eapply wp_mono; [by apply ensure_rep|]. intros [st sb1] m1 (Hk & Hfr & Hst).
  destruct st; try done; simpl.
  - destruct Hst as (Hp & Hl & Hcap & _). replace 0 with (sb_len sb1) at 1 by (by rewrite Hl).
    simpl in Hl.
    wp_bind. eapply wp_mono; [apply (sb_terminate m1 sb1 []); auto; lia|].
    intros [] m2 [Hr2 Ho]. wp_ret. exists sb1. split; [done|].
    destruct (sb_client_post m m sb [] [] (D4NP_OK, Some sb1) m2 Hc)
      as (sb2 & [= <-] & Hcase); [|simpl in *; naive_solver].
    exists sb1. split_and!; eauto using keeps_write.
  - destruct Hst as [-> Hh]. wp_ret. exists sb. split; [done|].
    destruct (sb_client_post m m sb [] [] (D4NP_ERR_OUT_OF_MEMORY, Some sb) m1 Hc)
      as (sb2 & [= <-] & Hcase); [apply sb_fail; auto|]. simpl in *. naive_solver.
Qed.

(** ** Properties *)

(** The bytes of a returned C string, with its terminator. *)
Definition cstr_bytes (m : mem) (s : c_str) (bs : list Z) : Prop :=
  match s with
  | StrLit l => l = bs
  | StrPtr p => load_bytes p (zlen bs + 1) m = Some (bs ++ [0], m)
  end.

Lemma sb_rep_nonnull m sb bs :
  sb_rep m sb bs -> sb_data sb <> Null ->
  load_bytes (sb_data sb) (zlen bs + 1) m = Some (bs ++ [0], m).
Proof.
  intros [[_ Hc Hd _] Hl Hb] Hnn. destruct Hd as [[? _]|Ho]; [done|].
  destruct Hb as [[? _]|[Hlt Hb]]; [done|]. pose proof (zlen_nonneg bs).
  apply owned_lookup in Ho as (b & blk & Hdp & Hblk & Hz & Hcs). rewrite Hcs in Hb.
  apply load_bytes_load. rewrite Hdp. simpl. rewrite Hblk, decide_True by lia.
  by rewrite <- Hb, Hl.
Qed.

Lemma sb_view_bytes m sb bs :
  sb_rep m sb bs -> sb_data sb <> Null -> view_bytes m (d4np_sb_view (Some sb)) bs.
Proof.
  intros Hr Hnn. pose proof (sb_rep_nonnull _ _ _ Hr Hnn) as H1. pose proof (zlen_nonneg bs).
  unfold view_bytes, d4np_sb_view, d4np_str_view_from_buf. rewrite (sr_len _ _ _ Hr).
  destruct (sb_data sb) as [|b off]; [done|]. simpl.
  apply (load_bytes_sub _ _ _ _ _ 0 (zlen bs)) in H1; [|lia..].
  by rewrite Z.add_0_r, sub_prefix in H1.
Qed.

(** What a client sees of a builder that holds [bs]. *)
Definition sb_shows (m : mem) (sb : d4np_string_builder) (bs : list Z) : Prop :=
  d4np_sb_len (Some sb) = zlen bs /\ view_arg m (d4np_sb_view (Some sb)) bs /\
  cstr_bytes m (d4np_sb_cstr (Some sb)) bs.

Lemma sb_rep_shows m sb bs : sb_rep m sb bs -> sb_shows m sb bs.
Proof.
  intros Hr. split; [apply Hr|]. unfold view_arg.
  destruct (decide (sb_data sb = Null)) as [E|Hnn].
  - assert (bs = []) as ->.
    { destruct (sb_rep_prefix _ _ _ Hr) as [_ _ _ Hb]. rewrite E in Hb. simpl in Hb.
      rewrite sub_nil in Hb. symmetry in Hb. by apply fmap_nil_inv in Hb. }
    unfold d4np_sb_view, d4np_sb_cstr. rewrite E. split; [by left|done].
  - split; [right; by apply sb_view_bytes|]. unfold d4np_sb_cstr.
    pose proof (sb_rep_nonnull _ _ _ Hr Hnn). by destruct (sb_data sb).
Qed.

(** C3. Any sequence of builder operations on a freshly initialised builder is
    free of undefined behaviour; the contents it ends with are those of the
    operations that reported success, in order (append concatenates, clear
    empties, reserve keeps), and a failed operation changes nothing.  The
    length, the view and the C string all show those contents, the C string
    with its terminating NUL, and destroying the builder gives memory back
    exactly as it was. *)
Theorem sb_program_refines m sb0 oa n ops es :
  allocator_arg_ok oa -> is_size n -> Forall2 (op_effect m) ops es ->
  wp ('(st, osb) ← d4np_sb_init (Some sb0) oa n; with_sb osb (fun sb => run_ops sb ops)) m
     (fun '(sts, sb) m' => exists bs, effects [] sts es bs /\ sb_shows m' sb bs /\
        wp (d4np_sb_destroy (Some sb)) m' (fun _ m'' => m_heap m'' = m_heap m)).
Proof.
  intros Ha Hn Hops. wp_bind. eapply wp_mono; [by apply sb_init_spec|].
  intros [st osb] m1 (sb & E & Hc & _). simpl in E. subst osb. simpl.
  eapply wp_mono; [by eapply sb_run_ops_spec|]. intros [sts sb'] m2 (bs & He & Hr & Hh & _).
  exists bs. split_and!; [done|by apply sb_rep_shows|].
  eapply wp_mono; [by eapply sb_destroy_spec|]. intros ? m3 [-> _]. done.
Qed.

(** Appending the fields [vs], separated by [sep]. *)
Fixpoint join_ops (sep : Z) (vs : list d4np_str_view) : list sop :=
  match vs with
  | [] => []
  | [v] => [SAppendView v]
  | v :: vs => SAppendView v :: SAppendChar sep :: join_ops sep vs
  end.

Fixpoint join_effects (sep : Z) (fs : list (list Z)) : list effect :=
  match fs with
  | [] => []
  | [f] => [Append f]
  | f :: fs => Append f :: Append [sep] :: join_effects sep fs
  end.

Lemma join_ops_effects m sep vs fs :
  Forall2 (fun v f => view_arg m v f /\ is_size (sv_len v)) vs fs ->
  Forall2 (op_effect m) (join_ops sep vs) (join_effects sep fs).
Proof.
  induction 1 as [|v f vs fs [Hv Hs] Hvs IH]; [constructor|].
  destruct Hvs as [|v' f' vs fs ? Hvs].
  - constructor; [by constructor|constructor].
  - constructor; [by constructor|]. constructor; [constructor|exact IH].
Qed.

Lemma join_effects_run sep fs bs sts bs' :
  effects bs sts (join_effects sep fs) bs' -> Forall (.= D4NP_OK) sts -> bs' = bs ++ join sep fs.
Proof.
  assert (forall e bs sts es bs', effects bs sts (e :: es) bs' -> Forall (.= D4NP_OK) sts ->
    exists sts', effects (apply_effect e bs) sts' es bs' /\ Forall (.= D4NP_OK) sts') as Hok.
  { intros e bs0 sts0 es bs0' He Hf. inversion He; subst; inversion Hf; subst; [eauto|].
    naive_solver. }
  revert bs sts. induction fs as [|f fs IH]; intros bs sts He Hf; simpl in *.
  { inversion He. by rewrite app_nil_r. }
  destruct fs as [|g fs].
  { apply Hok in He as (sts1 & He & _); [|done]. by inversion He. }
  apply Hok in He as (sts1 & He & Hf1); [|done]. apply Hok in He as (sts2 & He & Hf2); [|done].
  rewrite (IH _ _ He Hf2). simpl. by rewrite <- !app_assoc.
Qed.

Lemma sb_join_split_spec m sb0 oa n sep vs fs :
  allocator_arg_ok oa -> is_size n ->
  Forall2 (fun v f => view_arg m v f /\ is_size (sv_len v)) vs fs ->
  Forall (fun f => sep ∉ f) fs -> join sep fs <> [] -> is_size (zlen fs) ->
  wp ('(st, osb) ← d4np_sb_init (Some sb0) oa n;
      with_sb osb (fun sb => run_ops sb (join_ops sep vs))) m
     (fun '(sts, sb) m' => Forall (.= D4NP_OK) sts ->
        sb_client m m' sb (join sep fs) /\
        exists toks, d4np_str_split (d4np_sb_view (Some sb)) sep
            (Some (replicate (Z.to_nat (zlen fs)) (View Null 0))) (zlen fs) m' =
            Some ((zlen fs, Some toks), m') /\
          Forall2 (fun tok f => view_bytes m' tok f /\ within (d4np_sb_view (Some sb)) tok) toks fs).
Proof.
  intros Ha Hn Hvs Hsep Hne Hsz. wp_bind. eapply wp_mono; [by apply sb_init_spec|].
  intros [st osb] m1 (sb & E & Hc & _). simpl in E. subst osb. simpl.
  eapply wp_mono; [by eapply sb_run_ops_spec, join_ops_effects|].
  intros [sts sb'] m2 (bs & He & Hc2) Hok.
  rewrite (join_effects_run _ _ _ _ _ He Hok) in Hc2. simpl in Hc2. split; [done|]. destruct Hc2 as (Hr & _).
  destruct (sr_bytes _ _ _ Hr) as [[_ ?]|[Hlt _]]; [done|].
  assert (sb_data sb' <> Null) as Hnn.
  { intros Hd. destruct (sr_storage _ _ _ Hr) as [_ ? [[_ Hz]|(b & blk & Hp & _)] _]; [|congruence].
    pose proof (sr_len _ _ _ Hr). pose proof (zlen_nonneg (join sep fs)). lia. }
  apply split_join_run; auto.
  - by apply sb_view_bytes.
  - rewrite <- (sr_len _ _ _ Hr). pose proof (ss_capacity _ _ (sr_storage _ _ _ Hr)). lia.
  - by intros ->.
Qed.

(** Building and splitting are inverse: when fields that do not contain
    the separator are appended with separators between them, splitting the
    builder's view finds exactly the fields again. *)
Theorem sb_join_split_roundtrip m sb0 oa n sep vs fs :
  allocator_arg_ok oa -> is_size n ->
  Forall2 (fun v f => view_arg m v f /\ is_size (sv_len v)) vs fs ->
  Forall (fun f => sep ∉ f) fs -> join sep fs <> [] -> is_size (zlen fs) ->
  wp ('(st, osb) ← d4np_sb_init (Some sb0) oa n;
      with_sb osb (fun sb => run_ops sb (join_ops sep vs))) m
     (fun '(sts, sb) m' => Forall (.= D4NP_OK) sts ->
        exists toks, d4np_str_split (d4np_sb_view (Some sb)) sep
            (Some (replicate (Z.to_nat (zlen fs)) (View Null 0))) (zlen fs) m' =
            Some ((zlen fs, Some toks), m') /\
          Forall2 (fun tok f => view_bytes m' tok f /\ within (d4np_sb_view (Some sb)) tok) toks fs).
Proof.
  intros. eapply wp_mono; [by apply (sb_join_split_spec m sb0 oa n sep vs fs)|].
  intros [sts sb] m' H' Hok. by apply H'.
Qed.

End proofs.
(** *** Witnesses *)

Section witnesses.
#[local] Existing Instance libc_plenty.

Definition zero_sb : d4np_string_builder := Sb None Null 0 0.

(** The text of the string views is client data. *)
Lemma sb_program_refines_witness :
  let ops := [SAppend (Ptr 0 0); SAppendChar 33; SReserve 100; SAppendView (View (Ptr 0 3) 2)] in
  let es := [Append text; Append [33]; Keep; Append [98; 99]] in
  wp ('(st, osb) ← d4np_sb_init (Some zero_sb) None 0; with_sb osb (fun sb => run_ops sb ops))
     text_mem
     (fun '(sts, sb) m' => exists bs, effects [] sts es bs /\ sb_shows m' sb bs /\
        wp (d4np_sb_destroy (Some sb)) m' (fun _ m'' => m_heap m'' = m_heap text_mem)).
Proof.
  intros ops es. apply sb_program_refines; [done|size_lia|].
  constructor; [apply eff_append; [split; [vm_compute; done|unfold text; set_solver]|vm_compute; done]|].
  constructor; [apply eff_char|]. constructor; [apply eff_reserve; size_lia|].
  constructor; [apply eff_view; [by right|simpl; size_lia]|constructor].
Defined.

Lemma sb_join_split_roundtrip_witness :
  wp ('(st, osb) ← d4np_sb_init (Some zero_sb) None 4;
      with_sb osb (fun sb => run_ops sb (join_ops 59 [View (Ptr 0 0) 1; View Null 0; View (Ptr 0 3) 2])))
     text_mem
     (fun '(sts, sb) m' => Forall (.= D4NP_OK) sts ->
        exists toks, d4np_str_split (d4np_sb_view (Some sb)) 59
            (Some (replicate 3 (View Null 0))) 3 m' = Some ((3, Some toks), m') /\
          Forall2 (fun tok f => view_bytes m' tok f /\ within (d4np_sb_view (Some sb)) tok) toks [[97]; []; [98; 99]]).
Proof.
  apply (sb_join_split_roundtrip text_mem zero_sb None 4 59 _ [[97]; []; [98; 99]]);
    try done; try size_lia.
  - constructor; [split; [by right|simpl; size_lia]|].
    constructor; [split; [by left|simpl; size_lia]|].
    constructor; [split; [by right|simpl; size_lia]|constructor].
  - repeat constructor; set_solver.
Defined.

End witnesses.
End StringBuilder.
