(* ===== verification/Hash.v ===== *)
(** * FNV-1a hashing ([d4np/sys/hash.h], [hash.c])

    The hash over memory and over byte lists.  The hash map uses the same
    function as its default. *)

From S2P Require Import Prelude Memory.

Local Open Scope Z_scope.

Definition D4NP_FNV1A_PRIME : Z := 1099511628211.
Definition D4NP_FNV1A_OFFSET_BASIS : Z := 14695981039346656037.

(** [h ^= byte; h *= PRIME] on [uint64_t], which has the width of [size_t]. *)
Definition fnv1a_step (h byte : Z) : Z := Z.lxor h byte ⊠ D4NP_FNV1A_PRIME.

Fixpoint fnv1a_loop (p : ptr) (i : Z) (n : nat) (h : Z) : M Z :=
  match n with
  | O => mret h
  | S n => c ← load_byte (padd p i); fnv1a_loop p (i ⊞ 1) n (fnv1a_step h c)
  end.

Definition d4np_hash_fnv1a_continue (seed : Z) (data : ptr) (size : Z) : M Z :=
  if is_null data then mret seed else fnv1a_loop data 0 (Z.to_nat size) seed.

Definition d4np_hash_fnv1a (data : ptr) (size : Z) : M Z :=
  d4np_hash_fnv1a_continue D4NP_FNV1A_OFFSET_BASIS data size.

Definition d4np_hash_fnv1a_str (cstr : ptr) : M Z :=
  n ← (if is_null cstr then mret 0 else strlen cstr); d4np_hash_fnv1a cstr n.

(** The hash of a list of bytes. *)
Definition fnv1a (seed : Z) (bs : list Z) : Z := foldl fnv1a_step seed bs.

(** ** The loop computes it *)

Lemma fnv1a_loop_spec m b off bs i n h :
  load_bytes (Ptr b off) (zlen bs) m = Some (bs, m) -> zlen bs <= SIZE_MAX ->
  (i + n = length bs)%nat ->
  fnv1a_loop (Ptr b off) (Z.of_nat i) n h m = Some (fnv1a h (drop i bs), m).
Proof.
  intros Hl Hmax. revert i h. induction n as [|n IH]; intros i h Hi; simpl.
  - by rewrite drop_ge by lia.
  - destruct (lookup_lt_is_Some_2 bs i) as [c Hc]; [lia|].
    unfold mbind, M_bind. rewrite (load_byte_at _ _ _ _ _ _ _ Hl Hc), (drop_S _ c) by done.
    unfold zlen in *. rewrite size_add_small by size_lia.
    replace (Z.of_nat i + 1) with (Z.of_nat (S i)) by lia. rewrite IH by lia. done.
Qed.

Lemma hash_continue_spec m p bs seed :
  load_bytes p (zlen bs) m = Some (bs, m) -> zlen bs <= SIZE_MAX ->
  d4np_hash_fnv1a_continue seed p (zlen bs) m = Some (fnv1a seed bs, m).
Proof.
  intros Hl Hmax. unfold d4np_hash_fnv1a_continue. destruct p as [|b off]; [done|]. simpl.
  pose proof (fnv1a_loop_spec m b off bs 0 (length bs) seed Hl Hmax eq_refl) as H.
  unfold zlen. by rewrite Nat2Z.id.
Qed.

Lemma fnv1a_bound seed bs : 0 <= seed < SIZE_MOD -> 0 <= fnv1a seed bs < SIZE_MOD.
Proof.
  revert seed. induction bs as [|c bs IH]; intros seed Hs; [done|]. apply IH, wrap_bound.
Qed.

(** ** One step is a bijection of the state *)

Lemma prime_invertible x :
  0 <= x < SIZE_MOD -> wrap (x ⊠ D4NP_FNV1A_PRIME * 14886173955864302971) = x.
Proof.
  intros Hx. unfold size_mul, wrap. rewrite Z.mul_mod_idemp_l by done.
  rewrite <- Z.mul_assoc.
  replace (D4NP_FNV1A_PRIME * 14886173955864302971) with (1 + 887285111055 * SIZE_MOD) by reflexivity.
  rewrite Z.mul_add_distr_l, Z.mul_1_r, Z.mul_assoc, Z_mod_plus_full. by apply Z.mod_small.
Qed.

Lemma lxor_bound x y : 0 <= x < SIZE_MOD -> 0 <= y < 256 -> 0 <= Z.lxor x y < SIZE_MOD.
Proof.
  intros Hx Hy. split; [apply Z.lxor_nonneg; lia|].
  assert (Z.land (Z.lxor x y) (Z.ones 64) = Z.lxor x y) as E.
  { apply Z.bits_inj'. intros n Hn. rewrite Z.land_spec, Z.lxor_spec.
    destruct (Z.ltb_spec n 64) as [H|H]; [by rewrite Z.ones_spec_low, andb_true_r by lia|].
    rewrite Z.ones_spec_high, andb_false_r by lia.
    assert (forall z, 0 <= z < SIZE_MOD -> Z.testbit z n = false) as Hb; [|rewrite !Hb; auto; size_lia].
    intros z Hz. rewrite <- (Z.mod_small z (2 ^ 64)) by done. apply Z.mod_pow2_bits_high. lia. }
  rewrite <- E, Z.land_ones by lia. apply Z.mod_pos_bound. done.
Qed.

Lemma fnv1a_step_inj h h' c c' :
  0 <= h < SIZE_MOD -> 0 <= h' < SIZE_MOD -> 0 <= c < 256 -> 0 <= c' < 256 ->
  fnv1a_step h c = fnv1a_step h' c' -> Z.lxor h c = Z.lxor h' c'.
Proof.
  intros. rewrite <- (prime_invertible (Z.lxor h c)), <- (prime_invertible (Z.lxor h' c'))
    by (by apply lxor_bound). unfold fnv1a_step in *. congruence.
Qed.

Definition is_byte (z : Z) : Prop := 0 <= z < 256.

Lemma fnv1a_inj_seed h h' bs :
  0 <= h < SIZE_MOD -> 0 <= h' < SIZE_MOD -> Forall is_byte bs -> fnv1a h bs = fnv1a h' bs -> h = h'.
Proof.
  intros Hh Hh' Hbs. revert h h' Hh Hh'. induction Hbs as [|c bs Hc _ IH]; intros h h' Hh Hh'; [done|].
  simpl. intros E. apply IH in E; [|apply wrap_bound..].
  apply fnv1a_step_inj in E; [|done..].
  apply (f_equal (fun z => Z.lxor z c)) in E. by rewrite !Z.lxor_assoc, !Z.lxor_nilpotent, !Z.lxor_0_r in E.
Qed.

(** ** Properties *)

(** The incremental law of the header, on memory: hashing a buffer is
    hashing any prefix of it and continuing over the rest; a [NULL] or empty
    buffer hashes to the seed. *)
Theorem hash_continue_chunks m b off bs1 bs2 seed :
  load_bytes (Ptr b off) (zlen (bs1 ++ bs2)) m = Some (bs1 ++ bs2, m) ->
  zlen (bs1 ++ bs2) <= SIZE_MAX ->
  d4np_hash_fnv1a_continue seed (Ptr b off) (zlen (bs1 ++ bs2)) m =
    (h ← d4np_hash_fnv1a_continue seed (Ptr b off) (zlen bs1);
     d4np_hash_fnv1a_continue h (Ptr b (off + zlen bs1)) (zlen bs2)) m /\
  d4np_hash_fnv1a_continue seed Null (zlen bs1) m = Some (seed, m) /\
  d4np_hash_fnv1a_continue seed (Ptr b off) 0 m = Some (seed, m).
Proof.
  intros Hl Hmax. split; [|done]. rewrite hash_continue_spec by done. rewrite zlen_app in *.
  pose proof (zlen_nonneg bs1). pose proof (zlen_nonneg bs2).
  pose proof (load_bytes_sub _ _ _ _ _ 0 (zlen bs1) Hl ltac:(lia) ltac:(lia) ltac:(lia)) as H1.
  pose proof (load_bytes_sub _ _ _ _ _ (zlen bs1) (zlen bs2) Hl ltac:(lia) ltac:(lia) ltac:(lia)) as H2.
  rewrite Z.add_0_r, sub_prefix in H1.
  assert (sub (zlen bs1) (zlen bs2) (bs1 ++ bs2) = bs2) as E.
  { unfold sub, zlen. rewrite !Nat2Z.id, drop_app_length. by apply take_ge. }
  rewrite E in H2. unfold mbind, M_bind. rewrite (hash_continue_spec _ _ _ _ H1) by lia.
  rewrite (hash_continue_spec _ _ _ _ H2) by lia. unfold fnv1a. by rewrite foldl_app.
Qed.

(** Two buffers of the same length that differ in exactly one byte never
    have the same hash, whatever surrounds that byte: each round is a
    bijection of the 64-bit state. *)
Theorem hash_one_byte_differs m p q pre x y post hx hy :
  Forall is_byte (pre ++ x :: post) -> is_byte y -> x <> y -> zlen (pre ++ x :: post) <= SIZE_MAX ->
  load_bytes p (zlen (pre ++ x :: post)) m = Some (pre ++ x :: post, m) ->
  load_bytes q (zlen (pre ++ y :: post)) m = Some (pre ++ y :: post, m) ->
  d4np_hash_fnv1a p (zlen (pre ++ x :: post)) m = Some (hx, m) ->
  d4np_hash_fnv1a q (zlen (pre ++ y :: post)) m = Some (hy, m) ->
  hx <> hy.
Proof.
  intros [Hpre [Hx Hpost]%Forall_cons]%Forall_app Hy Hne Hmax Hp Hq. unfold d4np_hash_fnv1a.
  assert (zlen (pre ++ y :: post) <= SIZE_MAX) by (unfold zlen in *; rewrite length_app in *; done).
  rewrite !hash_continue_spec by done. intros [= <-] [= <-]. unfold fnv1a. rewrite !foldl_app. simpl.
  intros E. apply fnv1a_inj_seed in E; [|apply wrap_bound..|done].
  assert (0 <= fnv1a D4NP_FNV1A_OFFSET_BASIS pre < SIZE_MOD) by (by apply fnv1a_bound).
  apply fnv1a_step_inj in E; [|done..]. apply Hne.
  apply (f_equal (Z.lxor (fnv1a D4NP_FNV1A_OFFSET_BASIS pre))) in E.
  by rewrite <- !Z.lxor_assoc, Z.lxor_nilpotent, !Z.lxor_0_l in E.
Qed.

(** *** Witnesses *)

(** A buffer holding [foobar] and one holding [foobas]. *)
Definition foobar : list Z := [102; 111; 111; 98; 97; 114].
Definition hash_mem : mem :=
  Mem {[ 0%nat := Block 16 (Byte <$> foobar ++ [102; 111; 111; 98; 97; 115]) ]} 1.

(** The published test vector. *)
Example fnv1a_foobar : d4np_hash_fnv1a (Ptr 0 0) 6 hash_mem = Some (0x85944171f73967e8, hash_mem).
Proof. reflexivity. Qed.

Lemma hash_continue_chunks_witness :
  d4np_hash_fnv1a_continue 7 (Ptr 0 0) 6 hash_mem =
    (h ← d4np_hash_fnv1a_continue 7 (Ptr 0 0) 3;
     d4np_hash_fnv1a_continue h (Ptr 0 3) 3) hash_mem /\
  d4np_hash_fnv1a_continue 7 Null 3 hash_mem = Some (7, hash_mem) /\
  d4np_hash_fnv1a_continue 7 (Ptr 0 0) 0 hash_mem = Some (7, hash_mem).
Proof.
  apply (hash_continue_chunks hash_mem 0 0 [102; 111; 111] [98; 97; 114] 7); vm_compute; done.
Defined.

Lemma hash_one_byte_differs_witness : 0x85944171f73967e8 <> 0x85944271f739699b.
Proof.
  apply (hash_one_byte_differs hash_mem (Ptr 0 0) (Ptr 0 6) [102; 111; 111; 98; 97] 114 115 []);
    try (vm_compute; done).
  repeat constructor; unfold is_byte; lia.
Defined.
