(* ===== verification/HashSlots.v ===== *)
(** * Slots of an open-addressed table

    The abstract side of the hash map: a table is a list of slots, a key is
    looked for along its probe sequence, and [slots_ok] is the invariant that
    makes linear probing with tombstones a finite map.  The memory level is in
    the hash map's own file. *)

From S2P Require Import Prelude Memory.

Local Open Scope Z_scope.

(** Deleted slots are tombstones: a probe goes on past them. *)
Inductive slot :=
  | Empty
  | Occ (k : list Z) (v : list cell)
  | Del.

#[export] Instance slot_eq_dec : EqDecision slot.
Proof. solve_decision. Defined.

Section slots.
(** Keys are compared through [kc] and hashed by [hf]. *)
Context {K : Type} `{Countable K} (kc : list Z -> K) (hf : K -> Z).
Implicit Types (ss : list slot) (κ : K).

(** The [p]-th slot probed for key [κ] in a table of [n] slots. *)
Definition pos (n : nat) κ (p : nat) : nat := Z.to_nat ((hf κ + Z.of_nat p) mod Z.of_nat n).

Lemma pos_lt n κ p : (0 < n)%nat -> (pos n κ p < n)%nat.
Proof.
  intros Hn. unfold pos. pose proof (Z.mod_pos_bound (hf κ + Z.of_nat p) (Z.of_nat n)). lia.
Qed.

(** Probing visits every slot. *)
Lemma pos_surj n κ i : (i < n)%nat -> exists p, (p < n)%nat /\ pos n κ p = i.
Proof.
  intros Hi. exists (Z.to_nat ((Z.of_nat i - hf κ) mod Z.of_nat n)).
  pose proof (Z.mod_pos_bound (Z.of_nat i - hf κ) (Z.of_nat n)) as Hb. split; [lia|].
  unfold pos. rewrite Z2Nat.id by lia. rewrite Z.add_mod_idemp_r by lia.
  replace (hf κ + (Z.of_nat i - hf κ)) with (Z.of_nat i) by lia.
  rewrite Z.mod_small by lia. lia.
Qed.

(** ** Entries and counts *)

Definition ent (s : slot) : option (K * list cell) :=
  match s with Occ k v => Some (kc k, v) | _ => None end.

Definition entries ss : list (K * list cell) := omap ent ss.

Lemma entries_cons s ss : entries (s :: ss) = option_list (ent s) ++ entries ss.
Proof. unfold entries. simpl. by destruct (ent s). Qed.

Definition dels ss : nat := length (filter (.= Del) ss).

Lemma elem_of_entries ss κ v :
  (κ, v) ∈ entries ss <-> exists i k, ss !! i = Some (Occ k v) /\ kc k = κ.
Proof.
  unfold entries. rewrite list_elem_of_omap. split.
  - intros (s & Hs & He). destruct s as [|k v'|]; try done. injection He as <- <-.
    apply list_elem_of_lookup in Hs as [i Hi]. eauto.
  - intros (i & k & Hi & <-). exists (Occ k v). split; [by eapply list_elem_of_lookup_2|done].
Qed.

Lemma elem_of_keys ss κ :
  κ ∈ (entries ss).*1 <-> exists i k v, ss !! i = Some (Occ k v) /\ kc k = κ.
Proof.
  rewrite list_elem_of_fmap. split.
  - intros ([κ' v] & -> & Hin). apply elem_of_entries in Hin as (i & k & Hi & <-). simpl. eauto.
  - intros (i & k & v & Hi & Hk). exists (κ, v). split; [done|]. apply elem_of_entries. eauto.
Qed.

(** Replacing one slot, as a change of the entries and of the tombstones. *)
Lemma entries_insert ss i s s' :
  ss !! i = Some s ->
  exists E, entries ss ≡ₚ option_list (ent s) ++ E /\
    entries (<[i := s']> ss) ≡ₚ option_list (ent s') ++ E.
Proof.
  intros Hi. apply list_elem_of_split_length in Hi as (l1 & l2 & -> & ->).
  exists (omap ent l1 ++ omap ent l2). unfold entries.
  rewrite insert_app_r_alt, Nat.sub_diag by lia. simpl. rewrite !omap_app. simpl.
  split; destruct (ent _); simpl; try done; by rewrite Permutation_middle.
Qed.

Lemma dels_insert ss i s s' :
  ss !! i = Some s ->
  (dels (<[i := s']> ss) + (if decide (s = Del) then 1 else 0) =
   dels ss + (if decide (s' = Del) then 1 else 0))%nat.
Proof.
  intros Hi. apply list_elem_of_split_length in Hi as (l1 & l2 & -> & ->). unfold dels.
  rewrite insert_app_r_alt, Nat.sub_diag by lia. simpl. rewrite !filter_app, !length_app.
  rewrite !filter_cons. repeat case_decide; subst; try done; simpl; lia.
Qed.

Lemma occ_dels_le ss : (length (entries ss) + dels ss <= length ss)%nat.
Proof.
  unfold dels. induction ss as [|s ss IH]; [done|]. rewrite entries_cons, filter_cons.
  destruct s; case_decide; simpl in *; try done; lia.
Qed.

(** A table that is not full of keys and tombstones has an empty slot. *)
Lemma empty_slot ss :
  (length (entries ss) + dels ss < length ss)%nat -> exists i, ss !! i = Some Empty.
Proof.
  unfold dels. induction ss as [|s ss IH]; [simpl; lia|]. rewrite entries_cons, filter_cons.
  destruct s; [by exists 0%nat| |]; case_decide; simpl in *; try done;
    intros Hl; (destruct IH as [i Hi]; [lia|]); by exists (S i).
Qed.

Lemma entries_replicate n : entries (replicate n Empty) = [].
Proof. induction n; [done|]. simpl. done. Qed.

Lemma dels_replicate n : dels (replicate n Empty) = 0%nat.
Proof. induction n; [done|]. unfold dels in *. simpl. rewrite filter_cons. by case_decide. Qed.

(** ** The invariant *)

Definition nonempty ss (j : nat) : Prop := exists s, ss !! j = Some s /\ s <> Empty.

(** No empty slot comes before [i] on the probe sequence of [κ]. *)
Definition reach ss κ (i : nat) : Prop :=
  exists q, (q < length ss)%nat /\ pos (length ss) κ q = i /\
    forall p, (p < q)%nat -> nonempty ss (pos (length ss) κ p).

Record slots_ok ss : Prop := {
  so_keys : NoDup (entries ss).*1;
  so_reach i k v : ss !! i = Some (Occ k v) -> reach ss (kc k) i
}.

(** A key has one slot. *)
Lemma slots_ok_unique ss i j k v k' v' :
  slots_ok ss -> ss !! i = Some (Occ k v) -> ss !! j = Some (Occ k' v') -> kc k = kc k' -> i = j.
Proof.
  intros [Hnd _]. revert i j. induction ss as [|s ss IH]; intros i j Hi Hj E; [done|].
  rewrite entries_cons, fmap_app in Hnd. apply NoDup_app in Hnd as (_ & Hn & Hnd).
  destruct i as [|i], j as [|j]; simpl in Hi, Hj; [done| | |f_equal; by apply IH]; exfalso.
  - injection Hi as ->. apply (Hn (kc k)); [simpl; set_solver|]. rewrite elem_of_keys, E. eauto.
  - injection Hj as ->. apply (Hn (kc k')); [simpl; set_solver|]. rewrite elem_of_keys, <- E. eauto.
Qed.

Lemma nonempty_insert ss i s j : s <> Empty -> nonempty ss j -> nonempty (<[i := s]> ss) j.
Proof.
  intros Hs (s' & Hj & Hs'). unfold nonempty. destruct (decide (i = j)) as [->|Hne].
  - exists s. split; [|done]. apply list_lookup_insert_eq. by eapply lookup_lt_Some.
  - exists s'. by rewrite list_lookup_insert_ne.
Qed.

Lemma reach_insert ss i s κ j : s <> Empty -> reach ss κ j -> reach (<[i := s]> ss) κ j.
Proof.
  intros Hs (q & Hq & Hp & Hne). exists q. rewrite length_insert.
  split_and!; auto using nonempty_insert.
Qed.

Lemma slots_ok_empty n : slots_ok (replicate n Empty).
Proof.
  split; [rewrite entries_replicate; constructor|]. intros i k v [? _]%lookup_replicate. done.
Qed.

(** A slot may be taken by a new key. *)
Lemma slots_ok_put ss i s k v :
  slots_ok ss -> ss !! i = Some s -> ent s = None -> reach ss (kc k) i ->
  kc k ∉ (entries ss).*1 -> slots_ok (<[i := Occ k v]> ss).
Proof.
  intros [Hk Hr] Hi Hs Hreach Hnew. destruct (entries_insert ss i s (Occ k v) Hi) as (E & H1 & H2).
  rewrite Hs in H1. simpl in *. split.
  - rewrite H2. simpl. rewrite H1 in Hk, Hnew. by constructor.
  - intros j k' v' Hj. apply reach_insert; [done|].
    apply list_lookup_insert_Some in Hj as [(-> & [= -> ->] & _)|[_ Hj]]; eauto.
Qed.

(** The value of a key may be replaced, and a key deleted. *)
Lemma slots_ok_update ss i k v s' :
  slots_ok ss -> ss !! i = Some (Occ k v) -> s' = Del \/ (exists v', s' = Occ k v') ->
  slots_ok (<[i := s']> ss).
Proof.
  intros [Hk Hr] Hi Hs'. destruct (entries_insert ss i (Occ k v) s' Hi) as (E & H1 & H2).
  simpl in *. rewrite H1 in Hk. simpl in Hk. apply NoDup_cons in Hk as [Hn Hk]. split.
  - rewrite H2. destruct Hs' as [->|[v' ->]]; simpl; [done|by constructor].
  - intros j k' v' Hj. apply reach_insert; [naive_solver|].
    apply list_lookup_insert_Some in Hj as [(-> & Hj & _)|[_ Hj]]; [|eauto].
    destruct Hs' as [->|[v'' ->]]; [done|]. injection Hj as -> ->. eauto.
Qed.

(** An empty slot ends the search: the key is not in the table. *)
Lemma probe_miss ss κ q :
  slots_ok ss -> ss !! pos (length ss) κ q = Some Empty ->
  (forall p k v, (p < q)%nat -> ss !! pos (length ss) κ p = Some (Occ k v) -> kc k <> κ) ->
  κ ∉ (entries ss).*1.
Proof.
  intros [_ Hr] He Hno Hin. apply elem_of_keys in Hin as (i & k & v & Hi & Hk).
  destruct (Hr i k v Hi) as (q' & Hq' & Hp & Hne). rewrite Hk in *.
  destruct (lt_eq_lt_dec q q') as [[Hlt| ->]|Hgt].
  - destruct (Hne q Hlt) as (s & Hs & ?). congruence.
  - congruence.
  - apply (Hno q' k v Hgt); [by rewrite Hp|done].
Qed.

(** ** The finite map *)

Definition amap ss : gmap K (list cell) := list_to_map (entries ss).

Lemma amap_lookup ss κ v :
  slots_ok ss -> amap ss !! κ = Some v <-> exists i k, ss !! i = Some (Occ k v) /\ kc k = κ.
Proof.
  intros Hok. unfold amap. rewrite <- elem_of_list_to_map by apply Hok. apply elem_of_entries.
Qed.

Lemma amap_lookup_None ss κ : κ ∉ (entries ss).*1 -> amap ss !! κ = None.
Proof. apply not_elem_of_list_to_map. Qed.

Lemma amap_perm ss ss' :
  slots_ok ss -> entries ss ≡ₚ entries ss' -> amap ss' = amap ss.
Proof. intros Hok Hp. symmetry. apply list_to_map_proper; [apply Hok|done]. Qed.

Lemma amap_size ss : slots_ok ss -> size (amap ss) = length (entries ss).
Proof.
  intros Hok. unfold amap. rewrite <- (length_map_to_list _).
  rewrite map_to_list_to_map by apply Hok. done.
Qed.

Lemma amap_put ss i s k v :
  slots_ok ss -> ss !! i = Some s -> ent s = None -> reach ss (kc k) i ->
  kc k ∉ (entries ss).*1 -> amap (<[i := Occ k v]> ss) = <[kc k := v]> (amap ss).
Proof.
  intros Hok Hi Hs Hr Hnew. pose proof (slots_ok_put ss i s k v Hok Hi Hs Hr Hnew) as Hok'.
  destruct (entries_insert ss i s (Occ k v) Hi) as (E & H1 & H2). rewrite Hs in H1. simpl in *.
  unfold amap. rewrite (list_to_map_proper _ ((kc k, v) :: E)); [|apply Hok'|done]. simpl. f_equal.
  symmetry. apply list_to_map_proper; [apply Hok|done].
Qed.

Lemma amap_update ss i k v v' :
  slots_ok ss -> ss !! i = Some (Occ k v) -> amap (<[i := Occ k v']> ss) = <[kc k := v']> (amap ss).
Proof.
  intros Hok Hi. pose proof (slots_ok_update ss i k v (Occ k v') Hok Hi ltac:(eauto)) as Hok'.
  destruct (entries_insert ss i (Occ k v) (Occ k v') Hi) as (E & H1 & H2). simpl in *.
  unfold amap. rewrite (list_to_map_proper _ ((kc k, v') :: E)); [|apply Hok'|done].
  rewrite (list_to_map_proper (entries ss) ((kc k, v) :: E)); [|apply Hok|done]. simpl.
  by rewrite insert_insert_eq.
Qed.

Lemma amap_remove ss i k v :
  slots_ok ss -> ss !! i = Some (Occ k v) -> amap (<[i := Del]> ss) = delete (kc k) (amap ss).
Proof.
  intros Hok Hi. pose proof (slots_ok_update ss i k v Del Hok Hi ltac:(eauto)) as Hok'.
  destruct (entries_insert ss i (Occ k v) Del Hi) as (E & H1 & H2). simpl in *.
  unfold amap. rewrite (list_to_map_proper _ E); [|apply Hok'|done].
  rewrite (list_to_map_proper (entries ss) ((kc k, v) :: E)); [|apply Hok|done]. simpl.
  rewrite delete_insert_id; [done|]. apply not_elem_of_list_to_map.
  destruct Hok as [Hk _]. rewrite H1 in Hk. simpl in Hk. by apply NoDup_cons in Hk as [? _].
Qed.

End slots.
