(* ===== verification/HashMap.v ===== *)
(** * Hash map ([d4np/ds/hashmap.h], [hashmap.c])

    An open-addressed table with linear probing and tombstones, on memory:
    three blocks for the control bytes, the keys and the values.  [tab_rep]
    relates them to a list of slots, [slots_ok] is the invariant of the slots
    (distinct keys, unbroken probe sequences, load below 3/4), and a program
    over a map is refined by the same program over a finite map. *)

From S2P Require Import Prelude Status Memory Allocator Hash HashSlots.

Local Open Scope Z_scope.

Module HashMap.

Definition D4NP_HASHMAP_MIN_CAPACITY : Z := 8.
Definition SLOT_EMPTY : Z := 0.
Definition SLOT_OCCUPIED : Z := 1.
Definition SLOT_DELETED : Z := 2.

(** [d4np_hash_fn] and [d4np_key_eq_fn]. *)
Definition d4np_hash_fn : Type := ptr -> Z -> M Z.
Definition d4np_key_eq_fn : Type := ptr -> ptr -> Z -> M bool.

Record d4np_hashmap := Map {
  h_allocator : option d4np_allocator;
  h_control : ptr;
  h_keys : ptr;
  h_values : ptr;
  h_key_size : Z;
  h_value_size : Z;
  h_key_stride : Z;
  h_value_stride : Z;
  h_capacity : Z;
  h_len : Z;
  h_tombstones : Z;
  h_hash : d4np_hash_fn;
  h_key_eq : d4np_key_eq_fn
}.

Fixpoint default_hash_loop (p : ptr) (i : Z) (n : nat) (h : Z) : M Z :=
  match n with
  | O => mret h
  | S n =>
      c ← load_byte (padd p i);
      default_hash_loop p (i ⊞ 1) n (Z.lxor h c ⊠ 1099511628211)
  end.

Definition default_hash : d4np_hash_fn := fun key key_size =>
  default_hash_loop key 0 (Z.to_nat key_size) 14695981039346656037.

Definition default_key_eq : d4np_key_eq_fn := fun a b key_size =>
  xs ← load_bytes a key_size; ys ← load_bytes b key_size; mret (bool_decide (xs = ys)).

Definition round_up (value multiple : Z) : Z :=
  Z.land (value ⊞ (multiple ⊟ 1)) (size_not (multiple ⊟ 1)).

Definition next_pow2_at_least (n : Z) : option Z := grow_pow2 65 D4NP_HASHMAP_MIN_CAPACITY n.

Definition key_slot (h : d4np_hashmap) (i : Z) : ptr := padd (h_keys h) (i ⊠ h_key_stride h).
Definition value_slot (h : d4np_hashmap) (i : Z) : ptr := padd (h_values h) (i ⊠ h_value_stride h).

(** The probe loop of [locate]: [n] probes are left. *)
Fixpoint locate_loop (h : d4np_hashmap) (key : ptr) (mask start probe first_tomb : Z) (n : nat)
  : M (Z * bool) :=
  match n with
  | O => mret (if negb (first_tomb =? SIZE_MAX) then first_tomb else 0, false)
  | S n =>
      let i := Z.land (start ⊞ probe) mask in
      st ← load_byte (padd (h_control h) i);
      if st =? SLOT_EMPTY then
        mret (if negb (first_tomb =? SIZE_MAX) then first_tomb else i, false)
      else
        same ← (if st =? SLOT_OCCUPIED then h_key_eq h (key_slot h i) key (h_key_size h)
                else mret false);
        if same : bool then mret (i, true)
        else
          let first_tomb :=
            if (st =? SLOT_DELETED) && (first_tomb =? SIZE_MAX) then i else first_tomb in
          locate_loop h key mask start (probe ⊞ 1) first_tomb n
  end.

(** Slot and whether the key is there. *)
Definition locate (h : d4np_hashmap) (key : ptr) : M (Z * bool) :=
  let mask := h_capacity h ⊟ 1 in
  hv ← h_hash h key (h_key_size h);
  locate_loop h key mask (Z.land hv mask) 0 SIZE_MAX (Z.to_nat (h_capacity h)).

(** The inner loop of [resize]: put one old entry into the new table. *)
Fixpoint reinsert_loop (h : d4np_hashmap) (k v : ptr) (mask start probe : Z) (n : nat) : M unit :=
  match n with
  | O => mret tt
  | S n =>
      let j := Z.land (start ⊞ probe) mask in
      st ← load_byte (padd (h_control h) j);
      if st =? SLOT_EMPTY then
        store_byte (padd (h_control h) j) SLOT_OCCUPIED ;;
        memcpy (key_slot h j) k (h_key_size h) ;;
        memcpy (value_slot h j) v (h_value_size h) ;;
        mret tt
      else reinsert_loop h k v mask start (probe ⊞ 1) n
  end.

(** The outer loop over the old table, [n] slots left from [i]. *)
Fixpoint rehash_loop (h : d4np_hashmap) (oc ok ov : ptr) (mask i : Z) (n : nat) : M unit :=
  match n with
  | O => mret tt
  | S n =>
      st ← load_byte (padd oc i);
      (if negb (st =? SLOT_OCCUPIED) then mret tt
       else
         let k := padd ok (i ⊠ h_key_stride h) in
         hv ← h_hash h k (h_key_size h);
         reinsert_loop h k (padd ov (i ⊠ h_value_stride h)) mask (Z.land hv mask) 0
           (Z.to_nat (h_capacity h))) ;;
      rehash_loop h oc ok ov mask (i ⊞ 1) n
  end.

(** The map with other storage, no tombstones. *)
Definition with_table (h : d4np_hashmap) (c k v : ptr) (capacity : Z) : d4np_hashmap :=
  Map (h_allocator h) c k v (h_key_size h) (h_value_size h) (h_key_stride h) (h_value_stride h)
      capacity (h_len h) 0 (h_hash h) (h_key_eq h).

Definition with_counts (h : d4np_hashmap) (len tombstones : Z) : d4np_hashmap :=
  Map (h_allocator h) (h_control h) (h_keys h) (h_values h) (h_key_size h) (h_value_size h)
      (h_key_stride h) (h_value_stride h) (h_capacity h) len tombstones (h_hash h) (h_key_eq h).

Section code.
Context `{!Libc}.

Definition resize (h : d4np_hashmap) (new_capacity : Z) : M (d4np_status * d4np_hashmap) :=
  kmax ← size_div SIZE_MAX (h_key_stride h);
  over ← (if kmax <? new_capacity then mret true
          else vmax ← size_div SIZE_MAX (h_value_stride h); mret (vmax <? new_capacity));
  if over : bool then mret (D4NP_ERR_OVERFLOW, h)
  else
    let kbytes := new_capacity ⊠ h_key_stride h in
    let vbytes := new_capacity ⊠ h_value_stride h in
    nc ← d4np_alloc (h_allocator h) new_capacity MAX_ALIGN;
    nk ← d4np_alloc (h_allocator h) kbytes MAX_ALIGN;
    nv ← d4np_alloc (h_allocator h) vbytes MAX_ALIGN;
    if is_null nc || is_null nk || is_null nv then
      d4np_free (h_allocator h) nc new_capacity ;;
      d4np_free (h_allocator h) nk kbytes ;;
      d4np_free (h_allocator h) nv vbytes ;;
      mret (D4NP_ERR_OUT_OF_MEMORY, h)
    else
      memset nc SLOT_EMPTY new_capacity ;;
      let oc := h_control h in
      let ok := h_keys h in
      let ov := h_values h in
      let old_cap := h_capacity h in
      let h := with_table h nc nk nv new_capacity in
      rehash_loop h oc ok ov (new_capacity ⊟ 1) 0 (Z.to_nat old_cap) ;;
      d4np_free (h_allocator h) oc old_cap ;;
      d4np_free (h_allocator h) ok (old_cap ⊠ h_key_stride h) ;;
      d4np_free (h_allocator h) ov (old_cap ⊠ h_value_stride h) ;;
      mret (D4NP_OK, h).

Definition d4np_hashmap_init (m : option d4np_hashmap) (allocator : option d4np_allocator)
    (key_size value_size initial_capacity : Z) (hash : option d4np_hash_fn)
    (key_eq : option d4np_key_eq_fn) : M (d4np_status * option d4np_hashmap) :=
  match m with
  | None => mret (D4NP_ERR_INVALID_ARGUMENT, None)
  | Some m =>
      if (key_size =? 0) || (value_size =? 0) then mret (D4NP_ERR_INVALID_ARGUMENT, Some m)
      else
        let h := Map (Some (resolve allocator)) Null Null Null key_size value_size
                     (round_up key_size MAX_ALIGN) (round_up value_size MAX_ALIGN) 0 0 0
                     (default default_hash hash) (default default_key_eq key_eq) in
        if 0 <? initial_capacity then
          cap ← lift_opt (next_pow2_at_least initial_capacity);
          '(rc, h) ← resize h cap; mret (rc, Some h)
        else mret (D4NP_OK, Some h)
  end.

Definition d4np_hashmap_destroy (m : option d4np_hashmap) : M (option d4np_hashmap) :=
  match m with
  | None => mret None
  | Some h =>
      if is_null (h_control h) then mret (Some h)
      else
        d4np_free (h_allocator h) (h_control h) (h_capacity h) ;;
        d4np_free (h_allocator h) (h_keys h) (h_capacity h ⊠ h_key_stride h) ;;
        d4np_free (h_allocator h) (h_values h) (h_capacity h ⊠ h_value_stride h) ;;
        mret (Some (with_counts (with_table h Null Null Null 0) 0 0))
  end.

Definition d4np_hashmap_put (m : option d4np_hashmap) (key value : ptr)
  : M (d4np_status * option d4np_hashmap) :=
  match m with
  | None => mret (D4NP_ERR_INVALID_ARGUMENT, None)
  | Some h =>
      if is_null key || is_null value then mret (D4NP_ERR_INVALID_ARGUMENT, Some h)
      else
        '(rc, h) ←
          (if h_capacity h ⊠ 3 <=? (h_len h ⊞ h_tombstones h ⊞ 1) ⊠ 4 then
             let grown :=
               if h_capacity h =? 0 then D4NP_HASHMAP_MIN_CAPACITY else h_capacity h ⊠ 2 in
             resize h grown
           else mret (D4NP_OK, h));
        if decide (rc <> D4NP_OK) then mret (rc, Some h)
        else
          '(i, found) ← locate h key;
          if found : bool then
            memcpy (value_slot h i) value (h_value_size h) ;; mret (D4NP_OK, Some h)
          else
            st ← load_byte (padd (h_control h) i);
            let tombstones := if st =? SLOT_DELETED then h_tombstones h ⊟ 1 else h_tombstones h in
            store_byte (padd (h_control h) i) SLOT_OCCUPIED ;;
            memcpy (key_slot h i) key (h_key_size h) ;;
            memcpy (value_slot h i) value (h_value_size h) ;;
            mret (D4NP_OK, Some (with_counts h (h_len h ⊞ 1) tombstones))
  end.

Definition d4np_hashmap_get (m : option d4np_hashmap) (key : ptr) : M ptr :=
  match m with
  | None => mret Null
  | Some h =>
      if is_null key || (h_capacity h =? 0) then mret Null
      else
        '(i, found) ← locate h key;
        mret (if found : bool then value_slot h i else Null)
  end.

Definition d4np_hashmap_contains (m : option d4np_hashmap) (key : ptr) : M bool :=
  p ← d4np_hashmap_get m key; mret (negb (is_null p)).

Definition d4np_hashmap_remove (m : option d4np_hashmap) (key : ptr)
  : M (bool * option d4np_hashmap) :=
  match m with
  | None => mret (false, None)
  | Some h =>
      if is_null key || (h_capacity h =? 0) then mret (false, Some h)
      else
        '(i, found) ← locate h key;
        if negb found then mret (false, Some h)
        else
          store_byte (padd (h_control h) i) SLOT_DELETED ;;
          mret (true, Some (with_counts h (h_len h ⊟ 1) (h_tombstones h ⊞ 1)))
  end.

Definition d4np_hashmap_len (m : option d4np_hashmap) : Z :=
  match m with Some h => h_len h | None => 0 end.

Definition d4np_hashmap_clear (m : option d4np_hashmap) : M (option d4np_hashmap) :=
  match m with
  | None => mret None
  | Some h =>
      if is_null (h_control h) then mret (Some h)
      else
        memset (h_control h) SLOT_EMPTY (h_capacity h) ;;
        mret (Some (with_counts h 0 0))
  end.

End code.

#[global] Arguments resize : simpl never.
#[global] Arguments locate : simpl never.

(** ** Arrays of slots in memory *)

Definition slot_code (s : slot) : Z :=
  match s with Empty => SLOT_EMPTY | Occ _ _ => SLOT_OCCUPIED | Del => SLOT_DELETED end.

Definition slot_key (s : slot) : option (list cell) :=
  match s with Occ k _ => Some (Byte <$> k) | _ => None end.

Definition slot_value (s : slot) : option (list cell) :=
  match s with Occ _ v => Some v | _ => None end.

(** [p] is the control array of the slots [ss]. *)
Definition ctl (m : mem) (p : ptr) (ss : list slot) : Prop :=
  exists b addr, p = Ptr b 0 /\
    m_heap m !! b = Some (Block addr ((fun s => Byte (slot_code s)) <$> ss)).

Lemma ctl_only m m' p ps ss :
  ctl m p ss -> only ps m m' -> (forall b off, p = Ptr b off -> ~ touches ps b) -> ctl m' p ss.
Proof.
  intros (b & addr & -> & Hb) Ho Hn. exists b, addr. split; [done|]. rewrite Ho; eauto.
Qed.

Lemma ctl_load m p ss i s :
  ctl m p ss -> ss !! i = Some s ->
  load_byte (padd p (Z.of_nat i)) m = Some (slot_code s, m).
Proof.
  intros (b & addr & -> & Hb) Hi. rewrite padd_0.
  change (Ptr b (Z.of_nat i)) with (Ptr b (0 + Z.of_nat i)).
  eapply (load_byte_at b 0 (zlen ss) m (slot_code <$> ss)).
  - apply load_bytes_load. unfold load. rewrite Hb. simpl.
    rewrite decide_True by (rewrite zlen_fmap; pose proof (zlen_nonneg ss); lia).
    rewrite sub_full by (by rewrite zlen_fmap). by rewrite <- list_fmap_compose.
  - by rewrite list_lookup_fmap, Hi.
Qed.

Lemma splice_insert {A} (l : list A) (i : nat) (x : A) :
  (i < length l)%nat -> splice (Z.of_nat i) [x] l = <[i := x]> l.
Proof.
  intros Hi. unfold splice. rewrite Nat2Z.id. simpl. rewrite insert_take_drop by done.
  do 2 f_equal. f_equal. lia.
Qed.

Lemma ctl_store m p ss i s :
  ctl m p ss -> (i < length ss)%nat ->
  exists m', store_byte (padd p (Z.of_nat i)) (slot_code s) m = Some (tt, m') /\
    ctl m' p (<[i := s]> ss) /\ only [p] m m'.
Proof.
  intros (b & addr & -> & Hb) Hi. eexists. split_and!.
  - rewrite padd_0. eapply store_run; [exact Hb|lia|]. simpl. rewrite zlen_fmap.
    unfold zlen. simpl. lia.
  - exists b, addr. split; [done|]. erewrite mem_write_lookup by exact Hb. simpl.
    rewrite splice_insert by (by rewrite length_fmap). by rewrite list_fmap_insert.
  - by eapply only_write, list_elem_of_here.
Qed.

(** ** The table *)

Definition blocks (h : d4np_hashmap) : list ptr := [h_control h; h_keys h; h_values h].

Record tab_rep (m : mem) (h : d4np_hashmap) (ss : list slot) : Prop := {
  tr_capacity : h_capacity h = zlen ss;
  tr_pow2 : is_pow2 (h_capacity h);
  tr_key_size : 0 < h_key_size h <= h_key_stride h;
  tr_value_size : 0 < h_value_size h <= h_value_stride h;
  tr_key_bytes : h_capacity h * h_key_stride h <= PTRDIFF_MAX;
  tr_value_bytes : h_capacity h * h_value_stride h <= PTRDIFF_MAX;
  tr_control : ctl m (h_control h) ss;
  tr_keys : arr m (h_keys h) (h_key_stride h) (h_key_size h) (slot_key <$> ss);
  tr_values : arr m (h_values h) (h_value_stride h) (h_value_size h) (slot_value <$> ss);
  tr_sep : NoDup (blocks h)
}.

(** A pointer into none of the map's blocks. *)
Definition apart (h : d4np_hashmap) (p : ptr) : Prop :=
  forall b off, p = Ptr b off -> ~ touches (blocks h) b.

Lemma tab_rep_only m m' h ss ps :
  tab_rep m h ss -> only ps m m' -> (forall b, touches (blocks h) b -> ~ touches ps b) ->
  tab_rep m' h ss.
Proof.
  intros [] Ho Hn.
  assert (forall p, p ∈ blocks h -> forall b off, p = Ptr b off -> ~ touches ps b) as Hb.
  { intros p Hp b off ->. apply Hn. by exists off. }
  split; auto; [eapply ctl_only|eapply arr_only..]; eauto; apply Hb; unfold blocks; set_solver.
Qed.

(** The three blocks are different ones. *)
Lemma tab_rep_blocks m h ss :
  tab_rep m h ss -> exists c k v, h_control h = Ptr c 0 /\ h_keys h = Ptr k 0 /\
    h_values h = Ptr v 0 /\ c <> k /\ c <> v /\ k <> v.
Proof.
  intros []. destruct tr_control0 as (c & ? & Hc & _), tr_keys0 as (k & ? & Hk & _),
    tr_values0 as (v & ? & Hv & _). exists c, k, v. unfold blocks in tr_sep0.
  rewrite Hc, Hk, Hv in tr_sep0. apply NoDup_cons in tr_sep0 as [H1 H2].
  apply NoDup_cons in H2 as [H2 _]. split_and!; auto; intros ->; set_solver.
Qed.

Lemma tab_rep_bounds m h ss i s :
  tab_rep m h ss -> ss !! i = Some s ->
  Z.of_nat i < h_capacity h /\ h_capacity h <= PTRDIFF_MAX /\
  key_slot h (Z.of_nat i) = padd (h_keys h) (Z.of_nat i * h_key_stride h) /\
  value_slot h (Z.of_nat i) = padd (h_values h) (Z.of_nat i * h_value_stride h).
Proof.
  intros [] Hi. apply lookup_lt_Some in Hi. unfold zlen in *.
  assert (h_capacity h <= PTRDIFF_MAX) by nia. split_and!; [lia|done| |];
    unfold key_slot, value_slot; rewrite size_mul_small; auto; size_nia.
Qed.

(** ** Hash and equality functions

    What the map needs of its two callbacks: on readable keys they are
    defined, change nothing, and see a key only through [kc]; equal keys have
    equal hashes. *)

Class KeyOps {K : Type} `{Countable K} (kc : list Z -> K) (hf : K -> Z) (key_size : Z)
    (hash : d4np_hash_fn) (key_eq : d4np_key_eq_fn) : Prop := {
  ko_hash m p k :
    load_bytes p key_size m = Some (k, m) -> hash p key_size m = Some (hf (kc k), m);
  ko_eq m p q k k' :
    load_bytes p key_size m = Some (k, m) -> load_bytes q key_size m = Some (k', m) ->
    key_eq p q key_size m = Some (bool_decide (kc k = kc k'), m)
}.

(** The defaults compare and hash the bytes themselves. *)
Lemma default_key_ops n :
  is_size n -> KeyOps (fun k => k) (fnv1a D4NP_FNV1A_OFFSET_BASIS) n default_hash default_key_eq.
Proof.
  intros Hn. split.
  - intros m p k Hl. destruct (load_bytes_zlen _ _ _ _ Hl) as [_ <-].
    destruct p as [|b off]; [done|].
    change (d4np_hash_fnv1a (Ptr b off) (zlen k) m = Some (fnv1a D4NP_FNV1A_OFFSET_BASIS k, m)).
    apply hash_continue_spec; [done|size_lia].
  - intros m p q k k' Hp Hq. unfold default_key_eq, mbind, M_bind. by rewrite Hp, Hq.
Qed.

Section table.
Context {K : Type} `{Countable K} (kc : list Z -> K) (hf : K -> Z).
Notation entries := (entries kc).
Notation reach := (reach hf).
Notation slots_ok := (slots_ok kc hf).

(** Occupying a slot: the three writes. *)
Lemma wp_fill_slot {A} m h ss i s key value k v (e : M A) Φ :
  tab_rep m h ss -> ss !! i = Some s ->
  load_bytes key (h_key_size h) m = Some (k, m) -> load value (h_value_size h) m = Some (v, m) ->
  apart h key -> apart h value ->
  (forall m', tab_rep m' h (<[i := Occ k v]> ss) -> only (blocks h) m m' -> wp e m' Φ) ->
  wp (store_byte (padd (h_control h) (Z.of_nat i)) SLOT_OCCUPIED ;;
      memcpy (key_slot h (Z.of_nat i)) key (h_key_size h) ;;
      memcpy (value_slot h (Z.of_nat i)) value (h_value_size h) ;; e) m Φ.
Proof.
  intros Ht Hi Hk Hv Hak Hav Hc. destruct (tab_rep_bounds _ _ _ _ _ Ht Hi) as (_ & _ & -> & ->).
  destruct (tab_rep_blocks _ _ _ Ht) as (cb & kb & vb & Ec & Ek & Ev & N1 & N2 & N3).
  pose proof (lookup_lt_Some _ _ _ Hi) as Hlt. apply load_bytes_load in Hk.
  destruct Ht. unfold apart, blocks in *. rewrite Ec, Ek, Ev in *.
  set (bs := [Ptr cb 0; Ptr kb 0; Ptr vb 0]) in *.
  assert (Ptr cb 0 ∈ bs /\ Ptr kb 0 ∈ bs /\ Ptr vb 0 ∈ bs) as (Ic & Ik & Iv) by (unfold bs; set_solver).
  destruct (ctl_store m (Ptr cb 0) ss i (Occ k v)) as (m1 & E1 & C1 & O1); [done..|].
  wp_bind. eapply wp_run; [exact E1|].
  destruct (arr_store m1 (Ptr kb 0) (h_key_stride h) (h_key_size h) (slot_key <$> ss) i
    (Byte <$> k) key) as (m2 & E2 & A2 & O2); eauto using touches_part, load_only.
  { eapply arr_only; [exact tr_keys0|exact O1|]. intros b off [= <- <-]. rewrite touches_singleton. auto. }
  { by rewrite length_fmap. }
  wp_bind. eapply wp_run; [exact E2|].
  destruct (arr_store m2 (Ptr vb 0) (h_value_stride h) (h_value_size h) (slot_value <$> ss) i
    v value) as (m3 & E3 & A3 & O3); eauto 6 using touches_part, load_only.
  { eapply arr_only; [eapply arr_only; [exact tr_values0|exact O1|]|exact O2|];
      intros b off [= <- <-]; rewrite touches_singleton; auto. }
  { by rewrite length_fmap. }
  { eapply load_only; [eapply load_only|..]; eauto using touches_part. }
  wp_bind. eapply wp_run; [exact E3|]. apply Hc.
  - split; rewrite ?Ec, ?Ek, ?Ev; auto; unfold zlen in *; rewrite ?length_insert; auto.
    + eapply ctl_only; [eapply ctl_only; [exact C1|exact O2|]|exact O3|];
        intros b off [= <- <-]; rewrite touches_singleton; auto.
    + rewrite list_fmap_insert. eapply arr_only; [exact A2|exact O3|].
      intros b off [= <- <-]. rewrite touches_singleton. auto.
    + by rewrite list_fmap_insert.
    + unfold blocks. by rewrite Ec, Ek, Ev.
  - eapply only_trans; [exact (only_part _ _ _ _ Ic O1)|].
    eapply only_trans; [exact (only_part _ _ _ _ Ik O2)|exact (only_part _ _ _ _ Iv O3)].
Qed.

(** *** Searching *)

(** The slot the code probes is the one of the probe sequence. *)
Lemma probe_index h ss m κ p :
  tab_rep m h ss -> (p < length ss)%nat ->
  Z.land (Z.land (hf κ) (h_capacity h ⊟ 1) ⊞ Z.of_nat p) (h_capacity h ⊟ 1) =
    Z.of_nat (pos hf (length ss) κ p) /\ (pos hf (length ss) κ p < length ss)%nat.
Proof.
  intros [Hc Hp] Hlt. pose proof (is_pow2_bound _ Hp). unfold zlen in Hc.
  split; [|apply pos_lt; lia]. rewrite size_sub_small by size_lia. rewrite !land_mask by done.
  unfold size_add. rewrite wrap_mod_pow2, Z.add_mod_idemp_l by (done || lia).
  unfold pos. rewrite <- Hc, Z2Nat.id; [done|]. apply Z.mod_pos_bound. lia.
Qed.

Lemma slot_code_inv s :
  (s = Empty /\ slot_code s = 0) \/ (exists k v, s = Occ k v /\ slot_code s = 1) \/
  (s = Del /\ slot_code s = 2).
Proof. destruct s; simpl; eauto 6. Qed.

(** Where a new key may be put. *)
Definition free_slot (ss : list slot) (κ : K) (j : nat) : Prop :=
  exists s, ss !! j = Some s /\ ent kc s = None /\ reach ss κ j.

(** What a search for [κ] has seen after [p] probes without finding it. *)
Definition probed (ss : list slot) (κ : K) (p : nat) : Prop :=
  forall p', (p' < p)%nat -> nonempty ss (pos hf (length ss) κ p') /\
    forall k v, ss !! pos hf (length ss) κ p' = Some (Occ k v) -> kc k <> κ.

Lemma probed_S ss κ p s :
  probed ss κ p -> ss !! pos hf (length ss) κ p = Some s -> s <> Empty ->
  (forall k v, s = Occ k v -> kc k <> κ) -> probed ss κ (S p).
Proof.
  intros Hp Hs Hne Hk p' Hlt. destruct (decide (p' = p)) as [->|]; [|apply Hp; lia].
  split; [by exists s|]. intros k v E. rewrite Hs in E. injection E as ->. eauto.
Qed.

Lemma probed_reach ss κ p :
  probed ss κ p -> (p < length ss)%nat -> reach ss κ (pos hf (length ss) κ p).
Proof. intros Hp Hlt. exists p. split_and!; auto. intros p' Hlt'. by apply Hp. Qed.

Lemma probed_end ss κ : (length (entries ss) + dels ss < length ss)%nat -> ~ probed ss κ (length ss).
Proof.
  intros Hl Hp. destruct (empty_slot kc ss Hl) as [i Hi].
  destruct (pos_surj hf (length ss) κ i) as (p & Hlt & <-); [by eapply lookup_lt_Some|].
  destruct (Hp p Hlt) as [(s & Hs & Hne) _]. congruence.
Qed.

(** The first tombstone seen, if any. *)
Definition tomb_ok (ss : list slot) (κ : K) (p : nat) (tomb : Z) : Prop :=
  tomb = SIZE_MAX \/ exists pt, (pt < p)%nat /\ tomb = Z.of_nat (pos hf (length ss) κ pt) /\
    ss !! pos hf (length ss) κ pt = Some Del.

Definition locate_post (ss : list slot) (κ : K) (m : mem) (r : Z * bool) (m' : mem) : Prop :=
  m' = m /\ exists j, r.1 = Z.of_nat j /\
    if r.2 then exists k v, ss !! j = Some (Occ k v) /\ kc k = κ
    else free_slot ss κ j /\ κ ∉ (entries ss).*1.

Lemma locate_stop m ss κ p tomb :
  slots_ok ss -> (p < length ss)%nat -> Z.of_nat (length ss) <= PTRDIFF_MAX ->
  probed ss κ p -> ss !! pos hf (length ss) κ p = Some Empty -> tomb_ok ss κ p tomb ->
  locate_post ss κ m
    (if negb (tomb =? SIZE_MAX) then tomb else Z.of_nat (pos hf (length ss) κ p), false) m.
Proof.
  intros Hok Hlt Hmax Hp He Ht. split; [done|]. simpl.
  assert (κ ∉ (entries ss).*1) as Hmiss.
  { eapply probe_miss; eauto. intros p' k v Hp' Hs. by eapply (proj2 (Hp p' Hp')). }
  destruct Ht as [->|(pt & Hpt & -> & Hdel)].
  - rewrite Z.eqb_refl. simpl. eexists. split; [done|]. split; [|done].
    exists Empty. split_and!; auto using probed_reach.
  - assert ((pos hf (length ss) κ pt < length ss)%nat) by (by eapply lookup_lt_Some).
    destruct (Z.eqb_spec (Z.of_nat (pos hf (length ss) κ pt)) SIZE_MAX); [size_lia|]. simpl.
    eexists. split; [done|]. split; [|done]. exists Del. split_and!; auto.
    apply probed_reach; [|lia]. intros p' ?. apply Hp. lia.
Qed.

Lemma locate_loop_spec m h ss key k n p tomb :
  tab_rep m h ss -> KeyOps kc hf (h_key_size h) (h_hash h) (h_key_eq h) -> slots_ok ss ->
  (length (entries ss) + dels ss < length ss)%nat ->
  load_bytes key (h_key_size h) m = Some (k, m) ->
  (p + n = length ss)%nat -> probed ss (kc k) p -> tomb_ok ss (kc k) p tomb ->
  wp (locate_loop h key (h_capacity h ⊟ 1) (Z.land (hf (kc k)) (h_capacity h ⊟ 1))
        (Z.of_nat p) tomb n) m (locate_post ss (kc k) m).
Proof.
  intros Ht Hops Hok Hload Hk. revert p tomb. induction n as [|n IH]; intros p tomb Hn Hp Htomb; simpl.
  { exfalso. eapply probed_end; [exact Hload|]. by replace (length ss) with p by lia. }
  destruct (probe_index h ss m (kc k) p Ht) as [Ei Hj]; [lia|]. rewrite Ei.
  destruct (lookup_lt_is_Some_2 ss (pos hf (length ss) (kc k) p) Hj) as [s Hs].
  destruct (tab_rep_bounds _ _ _ _ _ Ht Hs) as (Hb & Hmax & Hks & _).
  pose proof (tr_capacity _ _ _ Ht) as Hc. unfold zlen in Hc.
  wp_bind. eapply wp_run; [by eapply ctl_load; [apply Ht|]|].
  rewrite size_add_small by size_lia. replace (Z.of_nat p + 1) with (Z.of_nat (S p)) by lia.
  assert (tomb_ok ss (kc k) (S p) tomb) as Htomb'.
  { destruct Htomb as [->|(pt & ? & ?)]; [by left|right; exists pt; split; [lia|done]]. }
  destruct (slot_code_inv s) as [[-> Hcode]|[(k' & v' & -> & Hcode)|[-> Hcode]]];
    rewrite Hcode; simpl.
  - wp_ret. apply locate_stop; auto; lia.
  - assert (load_bytes (key_slot h (Z.of_nat (pos hf (length ss) (kc k) p))) (h_key_size h) m =
      Some (k', m)) as Hk'.
    { apply load_bytes_load. rewrite Hks. eapply arr_load; [apply Ht| |].
      - by rewrite list_lookup_fmap, Hs.
      - pose proof (tr_key_size _ _ _ Ht). lia. }
    wp_bind. eapply wp_run; [by eapply ko_eq|]. case_bool_decide as Heq.
    + wp_ret. split; [done|]. eexists. split; [done|]. simpl. eauto.
    + apply IH; auto; [lia|]. eapply (probed_S _ _ _ _ Hp Hs); [done|]. intros ?? [= <- <-]. congruence.
  - wp_bind. wp_ret. apply IH; [lia|by eapply (probed_S _ _ _ _ Hp Hs)|].
    destruct (Z.eqb_spec tomb SIZE_MAX) as [->|]; simpl; [|done].
    right. exists p. split_and!; auto.
Qed.

Lemma locate_spec m h ss key k :
  tab_rep m h ss -> KeyOps kc hf (h_key_size h) (h_hash h) (h_key_eq h) -> slots_ok ss ->
  (length (entries ss) + dels ss < length ss)%nat ->
  load_bytes key (h_key_size h) m = Some (k, m) ->
  wp (locate h key) m (locate_post ss (kc k) m).
Proof.
  intros Ht Hops Hok Hload Hk. unfold locate. wp_bind. eapply wp_run; [by apply ko_hash|].
  pose proof (tr_capacity _ _ _ Ht) as Hc. unfold zlen in Hc.
  change 0 with (Z.of_nat 0) at 1. apply locate_loop_spec; auto; [lia| |by left].
  intros p' ?. lia.
Qed.

(** *** Rehashing *)

Lemma reinsert_spec m h ss kp vp k v n p :
  tab_rep m h ss -> KeyOps kc hf (h_key_size h) (h_hash h) (h_key_eq h) ->
  (length (entries ss) + dels ss < length ss)%nat ->
  load_bytes kp (h_key_size h) m = Some (k, m) -> load vp (h_value_size h) m = Some (v, m) ->
  apart h kp -> apart h vp -> kc k ∉ (entries ss).*1 ->
  (p + n = length ss)%nat -> probed ss (kc k) p ->
  wp (reinsert_loop h kp vp (h_capacity h ⊟ 1) (Z.land (hf (kc k)) (h_capacity h ⊟ 1))
        (Z.of_nat p) n) m (fun _ m' => exists j, ss !! j = Some Empty /\ reach ss (kc k) j /\
      tab_rep m' h (<[j := Occ k v]> ss) /\ only (blocks h) m m').
Proof.
  intros Ht Hops Hload Hk Hv Hak Hav Hnew. revert p. induction n as [|n IH]; intros p Hn Hp; simpl.
  { exfalso. eapply probed_end; [exact Hload|]. by replace (length ss) with p by lia. }
  destruct (probe_index h ss m (kc k) p Ht) as [Ei Hj]; [lia|]. rewrite Ei.
  destruct (lookup_lt_is_Some_2 ss (pos hf (length ss) (kc k) p) Hj) as [s Hs].
  pose proof (tr_capacity _ _ _ Ht) as Hc. unfold zlen in Hc.
  destruct (tab_rep_bounds _ _ _ _ _ Ht Hs) as (_ & Hmax & _).
  wp_bind. eapply wp_run; [by eapply ctl_load; [apply Ht|]|].
  destruct (Z.eqb_spec (slot_code s) SLOT_EMPTY) as [E|E].
  - assert (s = Empty) as -> by (by destruct s).
    eapply wp_fill_slot; eauto. intros m' Ht' Ho. wp_ret.
    eexists. split_and!; eauto. apply probed_reach; [done|lia].
  - rewrite size_add_small by size_lia. replace (Z.of_nat p + 1) with (Z.of_nat (S p)) by lia.
    apply IH; [lia|]. eapply (probed_S _ _ _ _ Hp Hs); [by intros ->|].
    intros k' v' -> Heq. apply Hnew. apply elem_of_keys. eauto.
Qed.

(** The new map [h] and the old one [o] have the same element sizes and
    callbacks, and share no block. *)
Definition same_shape (h o : d4np_hashmap) : Prop :=
  h_key_size h = h_key_size o /\ h_value_size h = h_value_size o /\
  h_key_stride h = h_key_stride o /\ h_value_stride h = h_value_stride o.

Definition disjoint_blocks (h o : d4np_hashmap) : Prop :=
  forall b, touches (blocks o) b -> ~ touches (blocks h) b.

(** The key and the value of an occupied slot of the old table. *)
Lemma old_entry m h o oss i k v :
  tab_rep m o oss -> same_shape h o -> disjoint_blocks h o -> oss !! i = Some (Occ k v) ->
  let kp := padd (h_keys o) (Z.of_nat i ⊠ h_key_stride h) in
  let vp := padd (h_values o) (Z.of_nat i ⊠ h_value_stride h) in
  load_bytes kp (h_key_size h) m = Some (k, m) /\ load vp (h_value_size h) m = Some (v, m) /\
  apart h kp /\ apart h vp.
Proof.
  intros Ht (-> & -> & -> & ->) Hd Hi. destruct (tab_rep_bounds _ _ _ _ _ Ht Hi) as (_ & _ & Ek & Ev).
  unfold key_slot, value_slot in *. rewrite Ek, Ev. simpl.
  pose proof (tr_key_size _ _ _ Ht). pose proof (tr_value_size _ _ _ Ht). split_and!.
  - apply load_bytes_load. eapply arr_load; [apply Ht| |lia]. by rewrite list_lookup_fmap, Hi.
  - eapply arr_load; [apply Ht| |lia]. by rewrite list_lookup_fmap, Hi.
  - destruct (tr_keys _ _ _ Ht) as (b & ? & E & _). rewrite E. intros b' off [= <- <-].
    apply Hd. exists 0. unfold blocks. rewrite <- E. set_solver.
  - destruct (tr_values _ _ _ Ht) as (b & ? & E & _). rewrite E. intros b' off [= <- <-].
    apply Hd. exists 0. unfold blocks. rewrite <- E. set_solver.
Qed.

Lemma rehash_spec h o oss n i m ss :
  KeyOps kc hf (h_key_size h) (h_hash h) (h_key_eq h) ->
  same_shape h o -> disjoint_blocks h o -> (i + n = length oss)%nat ->
  tab_rep m o oss \/ oss = [] -> tab_rep m h ss -> slots_ok ss -> dels ss = 0%nat ->
  NoDup (entries ss ++ entries (drop i oss)).*1 ->
  (length (entries ss ++ entries (drop i oss)) < length ss)%nat ->
  wp (rehash_loop h (h_control o) (h_keys o) (h_values o) (h_capacity h ⊟ 1) (Z.of_nat i) n) m
     (fun _ m' => exists ss', tab_rep m' h ss' /\ slots_ok ss' /\ dels ss' = 0%nat /\
        entries ss' ≡ₚ entries ss ++ entries (drop i oss) /\ only (blocks h) m m').
Proof.
  intros Hops Hsh Hd. revert i m ss. induction n as [|n IH]; intros i m ss Hn Ho Ht Hok Hdel Hnd Hlen; simpl.
  { wp_ret. exists ss. rewrite drop_ge, app_nil_r by lia. split_and!; auto with mem. }
  destruct Ho as [Ho|Ho]; [|subst oss; simpl in Hn; lia].
  destruct (lookup_lt_is_Some_2 oss i) as [s Hs]; [lia|].
  destruct (tab_rep_bounds _ _ _ _ _ Ho Hs) as (Hb & Hmax & _).
  wp_bind. eapply wp_run; [by eapply ctl_load; [apply Ho|]|].
  rewrite (drop_S _ _ _ Hs), entries_cons in Hnd, Hlen |- *.
  rewrite size_add_small by size_lia. replace (Z.of_nat i + 1) with (Z.of_nat (S i)) by lia.
  destruct (Z.eqb_spec (slot_code s) SLOT_OCCUPIED) as [E|E]; simpl.
  2: { destruct s; simpl in *; try done; wp_bind; wp_ret; apply IH; auto; lia. }
  destruct s as [|k v|]; try done. simpl in Hnd, Hlen |- *.
  destruct (old_entry m h o oss i k v Ho Hsh Hd Hs) as (Hk & Hv & Hak & Hav).
  assert (kc k ∉ (entries ss).*1) as Hnew.
  { rewrite fmap_app in Hnd. simpl in Hnd. apply NoDup_app in Hnd as (_ & Hnd & _).
    intros Hin. apply (Hnd _ Hin). set_solver. }
  pose proof (tr_capacity _ _ _ Ht) as Hc. unfold zlen in Hc. rewrite length_app in Hlen. simpl in Hlen.
  wp_bind. wp_bind. eapply wp_run; [by apply ko_hash|].
  replace (Z.to_nat (h_capacity h)) with (length ss) by lia.
  change (reinsert_loop h ?a ?b ?c ?d 0) with (reinsert_loop h a b c d (Z.of_nat 0)).
  eapply wp_mono; [eapply (reinsert_spec m h ss _ _ k v); eauto; [lia|intros ??; lia]|].
  intros [] m1 (j & Hj & Hr & Ht1 & Ho1). simpl.
  destruct (entries_insert kc ss j Empty (Occ k v) Hj) as (E' & P1 & P2). simpl in P1, P2.
  pose proof (dels_insert ss j Empty (Occ k v) Hj) as Hdel1. rewrite !decide_False in Hdel1 by done.
  assert (entries (<[j:=Occ k v]> ss) ++ entries (drop (S i) oss) ≡ₚ
    entries ss ++ (kc k, v) :: entries (drop (S i) oss)) as HP.
  { rewrite P1, P2. simpl. apply Permutation_middle. }
  eapply wp_mono; [apply IH|].
  - lia.
  - left. eapply tab_rep_only; eauto.
  - exact Ht1.
  - eapply slots_ok_put; eauto.
  - lia.
  - by rewrite HP.
  - rewrite HP, length_insert, length_app. simpl. lia.
  - intros [] m2 (ss2 & Ht2 & Hok2 & Hdel2 & HP2 & Ho2). exists ss2. split_and!; auto.
    + by rewrite HP2, HP.
    + by eapply only_trans.
Qed.

(** ** Three allocations at once *)

Context `{!Libc}.

Definition freeable (m : mem) (p : ptr) (n : Z) : Prop := p = Null \/ owned m p n.

(** The pointers are [NULL] or point to different blocks. *)
Definition disj (p q : ptr) : Prop := forall b, touches [p] b -> ~ touches [q] b.
Definition separate (p1 p2 p3 : ptr) : Prop := disj p2 p1 /\ disj p3 p1 /\ disj p3 p2.

Lemma freeable_free m m' p n q :
  freeable m p n -> m_heap m' = heap_free q (m_heap m) ->
  disj p q -> freeable m' p n.
Proof.
  intros [->|(b & blk & -> & Hb & Hz)] Hh Hn; [by left|right]. exists b, blk. split_and!; auto.
  rewrite Hh, heap_free_lookup; [done|]. apply Hn, touches_here.
Qed.

Lemma wp_free3 {A} m a p1 n1 p2 n2 p3 n3 (e : M A) Φ :
  AllocatorOk a -> freeable m p1 n1 -> freeable m p2 n2 -> freeable m p3 n3 ->
  separate p1 p2 p3 ->
  (forall m', m_heap m' = heap_free p3 (heap_free p2 (heap_free p1 (m_heap m))) -> wp e m' Φ) ->
  wp (d4np_free (Some a) p1 n1 ;; d4np_free (Some a) p2 n2 ;; d4np_free (Some a) p3 n3 ;; e) m Φ.
Proof.
  intros Hok F1 F2 F3 (N21 & N31 & N32) Hc. unfold d4np_free. simpl.
  wp_bind. eapply wp_mono; [by apply ok_free|]. intros [] m1 H1. simpl in H1.
  wp_bind. eapply wp_mono; [apply ok_free; by eapply freeable_free|]. intros [] m2 H2. simpl in H2.
  wp_bind. eapply wp_mono; [apply ok_free; eapply freeable_free; [eapply freeable_free|..]; eauto|].
  intros [] m3 H3. simpl in H3. apply Hc. by rewrite H3, H2, H1.
Qed.

(** One allocation, with what it leaves to the next. *)
Definition got (m : mem) (p : ptr) (n : Z) (m' : mem) : Prop :=
  (p = Null \/ (n <= PTRDIFF_MAX /\ owned m' p n)) /\ heap_free p (m_heap m') = m_heap m /\
  (forall b, touches [p] b -> m_heap m !! b = None) /\
  (forall b blk, m_heap m !! b = Some blk -> m_heap m' !! b = Some blk).

Lemma wp_alloc m a n Φ :
  AllocatorOk a -> 0 < n -> (forall p m', got m p n m' -> Φ p m') ->
  wp (d4np_alloc (Some a) n MAX_ALIGN) m Φ.
Proof.
  intros Hok Hn Hc. eapply wp_mono; [apply (ok_alloc m n MAX_ALIGN); [done|by exists 4]|].
  intros p m' Hp. apply Hc. split_and!; [|by eapply alloc_undo| |intros b blk; by eapply alloc_lookup].
  - apply alloc_post_inv in Hp as [[-> _]|(b & -> & _ & ? & ? & _)]; [by left|by right|done].
  - intros b Ht. destruct p as [|b' off]; [by destruct Ht as [? ?%list_elem_of_singleton]|].
    apply touches_singleton in Ht as ->. by destruct Hp as (_ & ? & _).
Qed.

(** The state after three allocations. *)
Record got3 (m : mem) (p1 : ptr) (n1 : Z) (p2 : ptr) (n2 : Z) (p3 : ptr) (n3 : Z) (m' : mem) : Prop := {
  g3_1 : p1 = Null \/ (n1 <= PTRDIFF_MAX /\ owned m' p1 n1);
  g3_2 : p2 = Null \/ (n2 <= PTRDIFF_MAX /\ owned m' p2 n2);
  g3_3 : p3 = Null \/ (n3 <= PTRDIFF_MAX /\ owned m' p3 n3);
  g3_sep : separate p1 p2 p3;
  g3_heap : strip [p1; p2; p3] (m_heap m') = m_heap m;
  g3_fresh b : touches [p1; p2; p3] b -> m_heap m !! b = None
}.

Lemma owned_keep m m' p n :
  owned m p n -> (forall b blk, m_heap m !! b = Some blk -> m_heap m' !! b = Some blk) -> owned m' p n.
Proof. intros (b & blk & -> & Hb & Hz) Hk. exists b, blk. auto. Qed.

Lemma got_touches m p n m' b : got m p n m' -> touches [p] b -> exists blk, m_heap m' !! b = Some blk.
Proof.
  intros ([->|[_ (b' & blk & -> & Hb & _)]] & _) Ht.
  - by destruct Ht as [? ?%list_elem_of_singleton].
  - apply touches_singleton in Ht as ->. eauto.
Qed.

Lemma got_got3 m p1 n1 m1 p2 n2 m2 p3 n3 m3 :
  got m p1 n1 m1 -> got m1 p2 n2 m2 -> got m2 p3 n3 m3 -> got3 m p1 n1 p2 n2 p3 n3 m3.
Proof.
  intros G1 G2 G3.
  assert (forall b, touches [p1] b -> exists blk, m_heap m1 !! b = Some blk) as T1
    by (intros b; by eapply got_touches).
  assert (forall b, touches [p2] b -> exists blk, m_heap m2 !! b = Some blk) as T2
    by (intros b; by eapply got_touches).
  destruct G1 as (O1 & H1 & F1 & K1), G2 as (O2 & H2 & F2 & K2), G3 as (O3 & H3 & F3 & K3).
  assert (forall b, m_heap m1 !! b = None -> m_heap m !! b = None) as B1.
  { intros b Hb. destruct (m_heap m !! b) eqn:E; [|done]. apply K1 in E. congruence. }
  assert (forall b, m_heap m2 !! b = None -> m_heap m1 !! b = None) as B2.
  { intros b Hb. destruct (m_heap m1 !! b) eqn:E; [|done]. apply K2 in E. congruence. }
  split.
  - destruct O1 as [|[??]]; [by left|right]. eauto using owned_keep.
  - destruct O2 as [|[??]]; [by left|right]. eauto using owned_keep.
  - done.
  - split_and!; intros b Hx Hy.
    + destruct (T1 b Hy) as [blk Hb]. rewrite F2 in Hb; done.
    + destruct (T1 b Hy) as [blk Hb]. rewrite B2 in Hb; [done|auto].
    + destruct (T2 b Hy) as [blk Hb]. rewrite F3 in Hb; done.
  - simpl. by rewrite H3, H2, H1.
  - intros b [off Hin]. rewrite !elem_of_cons in Hin.
    assert (forall p, Ptr b off = p -> touches [p] b) as Ht by (intros p <-; apply touches_here).
    destruct Hin as [Hin|[Hin|[Hin|Hin]]]; [auto..|set_solver].
Qed.

(** ** The map *)

(** The storage of a map of [n] slots, whatever it holds. *)
Record storage (m : mem) (h : d4np_hashmap) : Prop := {
  st_pow2 : is_pow2 (h_capacity h);
  st_control : owned m (h_control h) (h_capacity h);
  st_keys : owned m (h_keys h) (h_capacity h * h_key_stride h);
  st_values : owned m (h_values h) (h_capacity h * h_value_stride h);
  st_key_size : 0 < h_key_size h <= h_key_stride h;
  st_value_size : 0 < h_value_size h <= h_value_stride h;
  st_key_bytes : h_capacity h * h_key_stride h <= PTRDIFF_MAX;
  st_value_bytes : h_capacity h * h_value_stride h <= PTRDIFF_MAX;
  st_sep : NoDup (blocks h)
}.

Lemma tab_rep_storage m h ss : tab_rep m h ss -> storage m h.
Proof.
  intros [Hc]. split; auto.
  - destruct tr_control0 as (b & addr & -> & Hb). eexists b, _. split_and!; eauto.
    simpl. by rewrite zlen_fmap.
  - destruct tr_keys0 as (b & blk & -> & Hb & Hz & _). exists b, blk. split_and!; auto.
    by rewrite Hz, zlen_fmap, Hc.
  - destruct tr_values0 as (b & blk & -> & Hb & Hz & _). exists b, blk. split_and!; auto.
    by rewrite Hz, zlen_fmap, Hc.
Qed.

Lemma splice_full {A} (cs l : list A) : zlen cs = zlen l -> splice 0 cs l = cs.
Proof.
  intros Hz. unfold splice, zlen in *. rewrite Z2Nat.inj_0, take_0. simpl.
  rewrite drop_ge by lia. apply app_nil_r.
Qed.

(** Marking every slot empty. *)
Lemma wp_empty_table m h Φ :
  storage m h ->
  (forall m', tab_rep m' h (replicate (Z.to_nat (h_capacity h)) Empty) ->
     only [h_control h] m m' -> Φ tt m') ->
  wp (memset (h_control h) SLOT_EMPTY (h_capacity h)) m Φ.
Proof.
  intros [] Hc. pose proof (is_pow2_bound _ st_pow3).
  destruct st_control0 as (cb & cblk & Ec & Hcb & Hcz).
  destruct st_keys0 as (kb & kblk & Ek & Hkb & Hkz), st_values0 as (vb & vblk & Ev & Hvb & Hvz).
  unfold blocks in st_sep0. rewrite Ec, Ek, Ev in *.
  apply NoDup_cons in st_sep0 as [N1 N2].
  assert (cb <> kb /\ cb <> vb) as [? ?] by (split; intros ->; set_solver).
  unfold memset. eapply wp_store; [exact Hcb|lia|rewrite zlen_replicate; lia|].
  assert (only [Ptr cb 0] m (mem_write cb 0 (replicate (Z.to_nat (h_capacity h)) (Byte SLOT_EMPTY)) m))
    as Ho by (by eapply only_write, list_elem_of_here).
  apply Hc; [|done]. split; rewrite ?Ec, ?Ek, ?Ev; auto.
  - by rewrite zlen_replicate by lia.
  - exists cb, (blk_addr cblk). split; [done|]. erewrite mem_write_lookup by exact Hcb.
    rewrite splice_full by (rewrite zlen_replicate; lia). by rewrite fmap_replicate.
  - eapply arr_only; [|exact Ho|intros b off [= <- <-]; rewrite touches_singleton; auto].
    exists kb, kblk. split_and!; auto.
    + rewrite zlen_fmap, zlen_replicate; lia.
    + intros i x Hi. rewrite fmap_replicate in Hi. by apply lookup_replicate in Hi as [? _].
  - eapply arr_only; [|exact Ho|intros b off [= <- <-]; rewrite touches_singleton; auto].
    exists vb, vblk. split_and!; auto.
    + rewrite zlen_fmap, zlen_replicate; lia.
    + intros i x Hi. rewrite fmap_replicate in Hi. by apply lookup_replicate in Hi as [? _].
  - unfold blocks. rewrite Ec, Ek, Ev. by constructor.
Qed.

(** In memory [m] the map [h] holds the slots [ss]. *)
Record hm_rep (m : mem) (h : d4np_hashmap) (ss : list slot) : Prop := {
  hr_allocator : exists a, h_allocator h = Some a /\ AllocatorOk a;
  hr_ops : KeyOps kc hf (h_key_size h) (h_hash h) (h_key_eq h);
  hr_key_size : 0 < h_key_size h <= h_key_stride h;
  hr_align : MAX_ALIGN <= h_key_stride h;
  hr_value_size : 0 < h_value_size h <= h_value_stride h;
  hr_table : (blocks h = [Null; Null; Null] /\ h_capacity h = 0 /\ ss = []) \/ tab_rep m h ss;
  hr_ok : slots_ok ss;
  hr_len : h_len h = zlen (entries ss);
  hr_tombstones : h_tombstones h = Z.of_nat (dels ss);
  hr_load : h_capacity h = 0 \/ (h_len h + h_tombstones h) * 4 < h_capacity h * 3
}.

Lemma hm_rep_bounds m h ss :
  hm_rep m h ss -> 0 <= h_len h /\ 0 <= h_tombstones h /\ 0 <= h_capacity h /\
    h_capacity h = zlen ss /\ h_capacity h * h_key_stride h <= PTRDIFF_MAX /\
    h_capacity h * h_value_stride h <= PTRDIFF_MAX /\ h_len h + h_tombstones h <= h_capacity h.
Proof.
  intros [? ? ? ? ? Ht ? Hl Htb ?]. pose proof (zlen_nonneg ss). pose proof (zlen_nonneg (entries ss)).
  pose proof (occ_dels_le kc ss). unfold zlen in *.
  destruct Ht as [(_ & -> & ->)|[]]; unfold zlen in *; simpl in *; split_and!; try size_lia.
Qed.

(** The blocks of a map with storage. *)
Lemma hm_rep_freeable m h ss :
  hm_rep m h ss -> freeable m (h_control h) (h_capacity h) /\
    freeable m (h_keys h) (h_capacity h * h_key_stride h) /\
    freeable m (h_values h) (h_capacity h * h_value_stride h) /\
    separate (h_control h) (h_keys h) (h_values h).
Proof.
  intros Hr. destruct (hr_table _ _ _ Hr) as [(Hb & _ & _)|Ht].
  - unfold blocks in Hb. injection Hb as -> -> ->. split_and!; [by left..|].
    unfold separate. split_and!; by intros b [off Hin%list_elem_of_singleton].
  - destruct (tab_rep_storage _ _ _ Ht). split_and!; [by right..|]. unfold separate.
    destruct (tab_rep_blocks _ _ _ Ht) as (c & k & v & -> & -> & -> & ? & ? & ?).
    split_and!; intros b; rewrite !touches_singleton; congruence.
Qed.

(** The map's blocks may have moved; the rest of the heap is the same. *)
Definition moved (m m' : mem) (h h' : d4np_hashmap) : Prop :=
  strip (blocks h') (m_heap m') = strip (blocks h) (m_heap m) /\
  forall b, touches (blocks h') b -> touches (blocks h) b \/ m_heap m !! b = None.

Lemma moved_only m m' h : only (blocks h) m m' -> moved m m' h h.
Proof. intros Ho. split; [by apply strip_only|auto]. Qed.

(** Storage for the new table. *)
Lemma got3_storage m m3 h ss n c k v :
  hm_rep m h ss -> is_pow2 n ->
  got3 m c n k (n * h_key_stride h) v (n * h_value_stride h) m3 ->
  is_null c || is_null k || is_null v = false ->
  storage m3 (with_table h c k v n) /\ disjoint_blocks (with_table h c k v n) h.
Proof.
  intros Hr Hp [O1 O2 O3 (N21 & N31 & N32) Hh Hf] Hn.
  rewrite !orb_false_iff in Hn. destruct Hn as [[Hc Hk] Hv].
  destruct O1 as [->|[? O1]]; [done|]. destruct O2 as [->|[? O2]]; [done|].
  destruct O3 as [->|[? O3]]; [done|].
  split.
  - destruct O1 as (b1 & ? & -> & ? & ?), O2 as (b2 & ? & -> & ? & ?), O3 as (b3 & ? & -> & ? & ?).
    split; unfold owned; simpl; eauto 10; try apply Hr; try lia.
    unfold blocks. simpl. pose proof (N21 b2 (touches_here _ _ _)) as M1.
    pose proof (N31 b3 (touches_here _ _ _)) as M2. pose proof (N32 b3 (touches_here _ _ _)) as M3.
    rewrite touches_singleton in *. repeat constructor; set_solver.
  - intros b Hb Hb'. apply Hf in Hb'. destruct (hr_table _ _ _ Hr) as [(E & _)|Ht].
    + rewrite E in Hb. destruct Hb as [off Hin]. set_solver.
    + destruct (tab_rep_storage _ _ _ Ht) as [_ (b1 & ? & E1 & ? & _) (b2 & ? & E2 & ? & _) (b3 & ? & E3 & ? & _)].
      unfold blocks in Hb. rewrite E1, E2, E3, !touches_cons in Hb.
      destruct Hb as [[? [= -> _]]|[[? [= -> _]]|[[? [= -> _]]|?%touches_nil]]]; congruence.
Qed.

(** The blocks that are not the new table's are as they were. *)
Lemma got3_lookup m m3 p1 n1 p2 n2 p3 n3 b :
  got3 m p1 n1 p2 n2 p3 n3 m3 -> ~ touches [p1; p2; p3] b -> m_heap m3 !! b = m_heap m !! b.
Proof. intros G Hn. rewrite <- (g3_heap _ _ _ _ _ _ _ _ G). by rewrite strip_lookup. Qed.

Lemma tab_rep_lookup m m' h ss :
  tab_rep m h ss -> (forall b, touches (blocks h) b -> m_heap m' !! b = m_heap m !! b) ->
  tab_rep m' h ss.
Proof.
  intros [] Hb. assert (forall p b, p ∈ blocks h -> p = Ptr b 0 -> m_heap m' !! b = m_heap m !! b) as Hp.
  { intros p b Hin ->. apply Hb. by exists 0. }
  split; auto.
  - destruct tr_control0 as (b & addr & E & Hl). exists b, addr. split; [done|].
    rewrite (Hp (h_control h) b); [done|unfold blocks; set_solver|done].
  - destruct tr_keys0 as (b & blk & E & Hl & ?). exists b, blk. split; [done|].
    rewrite (Hp (h_keys h) b); [done|unfold blocks; set_solver|done].
  - destruct tr_values0 as (b & blk & E & Hl & ?). exists b, blk. split; [done|].
    rewrite (Hp (h_values h) b); [done|unfold blocks; set_solver|done].
Qed.

Lemma heap_free3_strip c k v h :
  heap_free v (heap_free k (heap_free c h)) = strip [c; k; v] h.
Proof.
  simpl. rewrite (heap_free_comm v k), (heap_free_comm v c). by rewrite (heap_free_comm k c).
Qed.

Lemma heap_free3_lookup c k v h b :
  ~ touches [c; k; v] b -> heap_free v (heap_free k (heap_free c h)) !! b = h !! b.
Proof.
  intros Hn. by rewrite heap_free3_strip, strip_lookup.
Qed.

(** After the new table has been filled and the old one freed. *)
Lemma resize_moved m m3 m5 m6 h ss h' ss' :
  hm_rep m h ss -> strip (blocks h') (m_heap m3) = m_heap m ->
  (forall b, touches (blocks h') b -> m_heap m !! b = None) ->
  disjoint_blocks h' h -> only (blocks h') m3 m5 -> tab_rep m5 h' ss' ->
  m_heap m6 = heap_free (h_values h) (heap_free (h_keys h) (heap_free (h_control h) (m_heap m5))) ->
  tab_rep m6 h' ss' /\ moved m m6 h h'.
Proof.
  intros Hr Hs Hf Hd Ho Ht H6. split.
  - eapply tab_rep_lookup; [exact Ht|]. intros b Hb. rewrite H6. apply heap_free3_lookup.
    intros Hb'. by apply (Hd b).
  - split; [|auto]. rewrite H6, !strip_heap_free, (strip_only _ _ _ Ho), Hs. apply heap_free3_strip.
Qed.

Definition resize_post (m : mem) (h : d4np_hashmap) (ss : list slot) (n : Z)
    (r : d4np_status * d4np_hashmap) (m' : mem) : Prop :=
  match r.1 with
  | D4NP_OK => exists ss', hm_rep m' r.2 ss' /\ entries ss' ≡ₚ entries ss /\ h_capacity r.2 = n /\
      h_len r.2 = h_len h /\ h_tombstones r.2 = 0 /\ same_shape r.2 h /\ moved m m' h r.2
  | D4NP_ERR_OVERFLOW | D4NP_ERR_OUT_OF_MEMORY => r.2 = h /\ m_heap m' = m_heap m
  | _ => False
  end.

(** The part of [resize] after the allocations. *)
Lemma resize_fill m m3 h ss n c k v a :
  hm_rep m h ss -> h_allocator h = Some a -> AllocatorOk a -> is_pow2 n -> h_len h * 4 < n * 3 ->
  got3 m c n k (n * h_key_stride h) v (n * h_value_stride h) m3 ->
  is_null c || is_null k || is_null v = false ->
  wp (memset c SLOT_EMPTY n ;;
      let h' := with_table h c k v n in
      rehash_loop h' (h_control h) (h_keys h) (h_values h) (n ⊟ 1) 0 (Z.to_nat (h_capacity h)) ;;
      d4np_free (h_allocator h') (h_control h) (h_capacity h) ;;
      d4np_free (h_allocator h') (h_keys h) (h_capacity h ⊠ h_key_stride h') ;;
      d4np_free (h_allocator h') (h_values h) (h_capacity h ⊠ h_value_stride h') ;;
      mret (D4NP_OK, h')) m3 (resize_post m h ss n).
Proof.
  intros Hr Ha Hok Hp Hn G Hnn. destruct (got3_storage _ _ _ _ _ _ _ _ Hr Hp G Hnn) as [Hst Hd].
  set (h' := with_table h c k v n) in *. cbv zeta.
  pose proof (hm_rep_bounds _ _ _ Hr) as (? & ? & ? & Hcap & Hkb & Hvb & _).
  pose proof (is_pow2_bound _ Hp). pose proof (hr_key_size _ _ _ Hr). pose proof (hr_value_size _ _ _ Hr).
  wp_bind. eapply (wp_empty_table m3 h'); [exact Hst|]. intros m4 Ht4 Ho4. simpl.
  change (h_capacity h') with n in Ht4.
  assert (only (blocks h') m3 m4) as Ho4' by (eapply only_part; [|exact Ho4]; unfold blocks; set_solver).
  assert (tab_rep m4 h ss \/ ss = []) as Hold.
  { destruct (hr_table _ _ _ Hr) as [(_ & _ & ->)|Ht]; [by right|left].
    eapply tab_rep_lookup; [exact Ht|]. intros b Hb. rewrite Ho4' by (by apply Hd).
    eapply got3_lookup; [exact G|]. by apply Hd. }
  wp_bind. change (n ⊟ 1) with (h_capacity h' ⊟ 1). change 0 with (Z.of_nat 0) at 1.
  replace (Z.to_nat (h_capacity h)) with (length ss) by (unfold zlen in Hcap; lia).
  eapply wp_mono; [eapply (rehash_spec h' h ss _ 0 m4 (replicate (Z.to_nat n) Empty)); eauto|].
  - apply Hr.
  - split_and!; done.
  - apply slots_ok_empty.
  - apply dels_replicate.
  - rewrite entries_replicate, drop_0. apply (hr_ok _ _ _ Hr).
  - rewrite entries_replicate, drop_0, length_replicate. simpl.
    pose proof (hr_len _ _ _ Hr) as Hl. unfold zlen in Hl. lia.
  - intros [] m5 (ss' & Ht5 & Hok5 & Hdel5 & Hperm & Ho5). simpl.
    rewrite entries_replicate, drop_0 in Hperm. simpl in Hperm.
    destruct (hm_rep_freeable _ _ _ Hr) as (F1 & F2 & F3 & Hsep).
    assert (forall p n, p ∈ blocks h -> freeable m p n -> freeable m5 p n) as Hfr.
    { intros p z Hin [->|(b & blk & -> & Hb & ?)]; [by left|right]. exists b, blk. split_and!; auto.
      assert (touches (blocks h) b) as Htb by (by exists 0).
      rewrite Ho5, Ho4' by (by apply Hd). by rewrite (got3_lookup _ _ _ _ _ _ _ _ _ G) by (by apply Hd). }
    rewrite Ha, !size_mul_small by size_nia. eapply wp_free3; eauto; try (apply Hfr; unfold blocks; set_solver).
    intros m6 Hh6. wp_ret. unfold resize_post. simpl.
    destruct (resize_moved m m3 m5 m6 h ss h' ss') as [Ht6 Hm6]; auto.
    { apply G. } { apply G. } { by eapply only_trans. }
    exists ss'. split_and!; auto; [|done]. destruct Hr. split; simpl; eauto.
    + rewrite hr_len0. unfold zlen. by rewrite Hperm.
    + by rewrite Hdel5.
    + right. lia.
Qed.

Lemma got3_freeable m p1 n1 p2 n2 p3 n3 m3 :
  got3 m p1 n1 p2 n2 p3 n3 m3 -> freeable m3 p1 n1 /\ freeable m3 p2 n2 /\ freeable m3 p3 n3.
Proof. intros []. unfold freeable. naive_solver. Qed.

Lemma resize_spec m h ss n :
  hm_rep m h ss -> is_pow2 n -> h_len h * 4 < n * 3 -> wp (resize h n) m (resize_post m h ss n).
Proof.
  intros Hr Hp Hn. pose proof (hr_key_size _ _ _ Hr). pose proof (hr_value_size _ _ _ Hr).
  pose proof (is_pow2_bound _ Hp). destruct (hr_allocator _ _ _ Hr) as (a & Ha & Hok).
  unfold resize. wp_bind. eapply wp_run; [apply size_div_run; lia|]. wp_bind.
  destruct (Z.ltb_spec (SIZE_MAX / h_key_stride h) n) as [Ho|Hk]; [wp_ret; by wp_ret|].
  wp_bind. eapply wp_run; [apply size_div_run; lia|]. wp_ret.
  destruct (Z.ltb_spec (SIZE_MAX / h_value_stride h) n) as [Ho|Hv]; [by wp_ret|].
  assert (n * h_key_stride h <= SIZE_MAX) by (apply Z.nlt_ge; intros ?%size_mul_overflow; lia).
  assert (n * h_value_stride h <= SIZE_MAX) by (apply Z.nlt_ge; intros ?%size_mul_overflow; lia).
  rewrite !(size_mul_small n) by size_nia. rewrite Ha.
  wp_bind. apply wp_alloc; [done|lia|]. intros c m1 G1.
  wp_bind. apply wp_alloc; [done|nia|]. intros k m2 G2.
  wp_bind. apply wp_alloc; [done|nia|]. intros v m3 G3.
  pose proof (got_got3 _ _ _ _ _ _ _ _ _ _ G1 G2 G3) as G.
  destruct (is_null c || is_null k || is_null v) eqn:Hnull; [|by eapply resize_fill].
  destruct (got3_freeable _ _ _ _ _ _ _ _ G) as (F1 & F2 & F3).
  eapply wp_free3; eauto; [apply G|]. intros m4 Hh4. wp_ret. split; [done|].
  rewrite Hh4, heap_free3_strip. apply G.
Qed.

(** A readable region outside the map survives a move of the map's blocks. *)
Lemma moved_load m m' h h' p n cs :
  load p n m = Some (cs, m) -> apart h p -> moved m m' h h' ->
  load p n m' = Some (cs, m') /\ apart h' p.
Proof.
  intros Hl Hap [Hs Hf]. destruct (load_valid _ _ _ _ _ Hl) as (b & off & blk & -> & Hb & _).
  assert (~ touches (blocks h') b) as Hn.
  { intros Ht. destruct (Hf b Ht) as [?|?]; [by apply (Hap b off)|congruence]. }
  split; [|by intros ? ? [= <- <-]]. eapply load_frame; [exact Hl|].
  rewrite <- (strip_lookup (blocks h')), Hs by done. apply strip_lookup. by apply (Hap b off).
Qed.

Lemma moved_trans m m1 m2 h h1 h2 :
  moved m m1 h h1 -> moved m1 m2 h1 h2 -> blocks h2 = blocks h1 -> moved m m2 h h2.
Proof. intros [H1 F1] [H2 F2] E. split; [congruence|]. rewrite E. auto. Qed.

Lemma hm_load m h ss :
  hm_rep m h ss -> h_capacity h <> 0 -> tab_rep m h ss /\
    (length (entries ss) + dels ss < length ss)%nat.
Proof.
  intros Hr Hc. destruct (hr_table _ _ _ Hr) as [(_ & ? & _)|Ht]; [done|]. split; [done|].
  destruct (hr_load _ _ _ Hr) as [?|Hl]; [done|].
  pose proof (tr_capacity _ _ _ Ht). pose proof (hr_len _ _ _ Hr). pose proof (hr_tombstones _ _ _ Hr).
  unfold zlen in *. lia.
Qed.

Lemma hm_rep_heap m m' h ss : hm_rep m h ss -> m_heap m' = m_heap m -> hm_rep m' h ss.
Proof.
  intros [] Hh. split; auto. destruct hr_table0 as [?|Ht]; [by left|right].
  eapply tab_rep_lookup; [exact Ht|]. intros b _. by rewrite Hh.
Qed.

(** *** Put *)

Definition put_post (m : mem) (h : d4np_hashmap) (mp : gmap K (list cell)) (κ : K) (v : list cell)
    (r : d4np_status * option d4np_hashmap) (m' : mem) : Prop :=
  exists h', r.2 = Some h' /\ moved m m' h h' /\ same_shape h' h /\
    match r.1 with
    | D4NP_OK => exists ss', hm_rep m' h' ss' /\ amap kc ss' = <[κ := v]> mp
    | D4NP_ERR_OVERFLOW | D4NP_ERR_OUT_OF_MEMORY => h' = h /\ m_heap m' = m_heap m
    | _ => False
    end.

(** The part after the growth always succeeds, in place. *)
Definition put_ok (m : mem) (h : d4np_hashmap) (mp : gmap K (list cell)) (κ : K) (v : list cell)
    (r : d4np_status * option d4np_hashmap) (m' : mem) : Prop :=
  exists h' ss', r = (D4NP_OK, Some h') /\ only (blocks h) m m' /\ blocks h' = blocks h /\
    same_shape h' h /\ hm_rep m' h' ss' /\ amap kc ss' = <[κ := v]> mp.

(** Overwriting the value of an occupied slot. *)
Lemma wp_set_value {A} m h ss j k v0 v value (e : M A) Φ :
  tab_rep m h ss -> ss !! j = Some (Occ k v0) -> load value (h_value_size h) m = Some (v, m) ->
  apart h value ->
  (forall m', tab_rep m' h (<[j := Occ k v]> ss) -> only (blocks h) m m' -> wp e m' Φ) ->
  wp (memcpy (value_slot h (Z.of_nat j)) value (h_value_size h) ;; e) m Φ.
Proof.
  intros Ht Hj Hv Hav Hc. destruct (tab_rep_bounds _ _ _ _ _ Ht Hj) as (_ & _ & _ & ->).
  destruct (tab_rep_blocks _ _ _ Ht) as (cb & kb & vb & Bc & Bk & Bv & ? & ? & ?).
  destruct (arr_store m (h_values h) (h_value_stride h) (h_value_size h) (slot_value <$> ss) j v value)
    as (m2 & E2 & A2 & O2); auto; [apply Ht|rewrite length_fmap; by eapply lookup_lt_Some|apply Ht| |].
  { intros b off ->. apply (touches_part _ (blocks h)); [unfold blocks; set_solver|by apply (Hav b off)]. }
  wp_bind. eapply wp_run; [exact E2|]. apply Hc; [|eapply only_part; [|exact O2]; unfold blocks; set_solver].
  assert (forall p b, p = Ptr b 0 -> b <> vb -> forall b' off, p = Ptr b' off -> ~ touches [h_values h] b') as Hn.
  { intros p b -> ? b' off [= <- <-]. by rewrite Bv, touches_singleton. }
  destruct Ht. split; auto.
  - unfold zlen. by rewrite length_insert.
  - destruct (ctl_only _ _ _ _ _ tr_control0 O2 (Hn _ cb Bc ltac:(auto))) as (b & addr & E & Hl).
    exists b, addr. split; [done|]. rewrite list_fmap_insert, list_insert_id; [done|].
    by rewrite list_lookup_fmap, Hj.
  - rewrite list_fmap_insert, list_insert_id by (by rewrite list_lookup_fmap, Hj).
    exact (arr_only _ _ _ _ _ _ _ tr_keys0 O2 (Hn _ kb Bk ltac:(auto))).
  - by rewrite list_fmap_insert.
Qed.

(** A new table behind the same blocks, with new counts. *)
Lemma hm_rep_counts m m' h ss ss' len tombs :
  hm_rep m h ss -> tab_rep m' h ss' -> slots_ok ss' -> len = zlen (entries ss') ->
  tombs = Z.of_nat (dels ss') -> (len + tombs) * 4 < h_capacity h * 3 ->
  hm_rep m' (with_counts h len tombs) ss'.
Proof.
  intros [] Ht Hok Hl Htb Hload. split; simpl; eauto. right. destruct Ht. by split.
Qed.

Lemma with_counts_same h : with_counts h (h_len h) (h_tombstones h) = h.
Proof. by destruct h. Qed.

(** Insertion into a table with room. *)
Definition put_tail (h : d4np_hashmap) (key value : ptr) : M (d4np_status * option d4np_hashmap) :=
  '(i, found) ← locate h key;
  if found : bool then memcpy (value_slot h i) value (h_value_size h) ;; mret (D4NP_OK, Some h)
  else
    st ← load_byte (padd (h_control h) i);
    let tombstones := if st =? SLOT_DELETED then h_tombstones h ⊟ 1 else h_tombstones h in
    store_byte (padd (h_control h) i) SLOT_OCCUPIED ;;
    memcpy (key_slot h i) key (h_key_size h) ;;
    memcpy (value_slot h i) value (h_value_size h) ;;
    mret (D4NP_OK, Some (with_counts h (h_len h ⊞ 1) tombstones)).

Lemma put_room m h ss key value k v :
  hm_rep m h ss -> h_capacity h <> 0 -> (h_len h + h_tombstones h + 1) * 4 < h_capacity h * 3 ->
  load_bytes key (h_key_size h) m = Some (k, m) -> load value (h_value_size h) m = Some (v, m) ->
  apart h key -> apart h value ->
  wp (put_tail h key value) m (put_ok m h (amap kc ss) (kc k) v).
Proof.
  intros Hr Hc0 Hload Hk Hv Hak Hav. destruct (hm_load _ _ _ Hr Hc0) as [Ht Hroom].
  pose proof (hm_rep_bounds _ _ _ Hr) as (? & ? & ? & Hcap & Hkb & _ & _).
  pose proof (tr_key_size _ _ _ Ht). assert (h_capacity h <= PTRDIFF_MAX) by nia.
  pose proof (hr_ok _ _ _ Hr) as Hok. pose proof (hr_len _ _ _ Hr) as Hl.
  pose proof (hr_tombstones _ _ _ Hr) as Htb.
  unfold put_tail. wp_bind. eapply wp_mono; [eapply locate_spec; eauto; apply Hr|].
  intros [i found] m1 (-> & j & Ei & Hpost). simpl in Ei, Hpost. subst i. destruct found.
  - destruct Hpost as (k' & v' & Hj & Ek).
    destruct (entries_insert kc ss j _ (Occ k' v) Hj) as (E & P1 & P2).
    pose proof (dels_insert ss j _ (Occ k' v) Hj) as Hdel. rewrite !decide_False in Hdel by done.
    eapply wp_set_value; eauto. intros m2 Ht2 Ho2. wp_ret. exists h, (<[j := Occ k' v]> ss).
    split_and!; auto; [done| |rewrite <- Ek; by eapply amap_update]. rewrite <- (with_counts_same h).
    eapply hm_rep_counts; eauto using slots_ok_update; [|lia|lia].
    rewrite Hl. unfold zlen. by rewrite P1, P2.
  - destruct Hpost as ((s & Hj & Hs & Hreach) & Hmiss).
    destruct (entries_insert kc ss j _ (Occ k v) Hj) as (E & P1 & P2). rewrite Hs in P1. simpl in P1, P2.
    pose proof (dels_insert ss j _ (Occ k v) Hj) as Hdel.
    wp_bind. eapply wp_run; [by eapply ctl_load; [apply Ht|]|].
    eapply wp_fill_slot; eauto. intros m2 Ht2 Ho2. wp_ret. eexists _, (<[j := Occ k v]> ss).
    split; [done|]. split_and!; [done|done|done| |by eapply amap_put]. rewrite size_add_small by size_lia.
    assert (Z.of_nat (dels (<[j:=Occ k v]> ss)) =
      (if slot_code s =? SLOT_DELETED then h_tombstones h ⊟ 1 else h_tombstones h)) as ET.
    { destruct s; try done; simpl; rewrite ?(decide_True _ _ eq_refl), ?decide_False in Hdel by done;
        rewrite ?size_sub_small by size_lia; lia. }
    rewrite <- ET. eapply hm_rep_counts; eauto using slots_ok_put.
    + rewrite Hl. unfold zlen. rewrite P1, P2. simpl. lia.
    + destruct s; simpl in Hdel, ET; repeat case_decide; try done; lia.
Qed.

Lemma put_ok_post m m1 m2 h h1 ss ss1 κ v r :
  moved m m1 h h1 -> same_shape h1 h -> amap kc ss1 = amap kc ss ->
  put_ok m1 h1 (amap kc ss1) κ v r m2 -> put_post m h (amap kc ss) κ v r m2.
Proof.
  intros Hmv Hsh Em (h2 & ss2 & -> & Ho & Eb & Hsh2 & Hr2 & Ea). exists h2. simpl.
  assert (moved m1 m2 h1 h2) as Hmv2.
  { split; rewrite Eb; [by apply strip_only|auto]. }
  split_and!; [done|by eapply moved_trans| |exists ss2; by rewrite Ea, Em].
  unfold same_shape in *. intuition congruence.
Qed.

Lemma put_spec m h ss key value k v :
  hm_rep m h ss -> load_bytes key (h_key_size h) m = Some (k, m) ->
  load value (h_value_size h) m = Some (v, m) -> apart h key -> apart h value ->
  wp (d4np_hashmap_put (Some h) key value) m (put_post m h (amap kc ss) (kc k) v).
Proof.
  intros Hr Hk Hv Hak Hav. pose proof (hm_rep_bounds _ _ _ Hr) as (? & ? & ? & Hcap & Hkb & _ & Hsum).
  pose proof (hr_align _ _ _ Hr). assert (h_capacity h * 16 <= PTRDIFF_MAX) by size_nia.
  pose proof Hk as Hk'. apply load_bytes_load in Hk'.
  unfold d4np_hashmap_put. destruct key as [|kb ko]; [done|]. destruct value as [|vb vo]; [done|].
  cbn [is_null orb].
  rewrite (size_mul_small (h_capacity h) 3), (size_add_small (h_len h)), (size_add_small (h_len h + _)),
    (size_mul_small _ 4) by size_lia.
  destruct (Z.leb_spec (h_capacity h * 3) ((h_len h + h_tombstones h + 1) * 4)) as [Hfull|Hroom].
  2: { wp_bind. wp_ret. rewrite decide_False by (intros Hne; by apply Hne).
       eapply wp_mono; [apply (put_room m h ss _ _ k v); auto; lia|]. intros r m1 Hp.
       eapply (put_ok_post m m); eauto; [by split; auto|done]. }
  set (grown := if h_capacity h =? 0 then _ else _).
  assert (is_pow2 grown /\ (h_len h + 1) * 4 < grown * 3) as (Hgp & Hg).
  { unfold grown, D4NP_HASHMAP_MIN_CAPACITY. destruct (Z.eqb_spec (h_capacity h) 0) as [Hc0|Hc0].
    - split; [by exists 3|lia].
    - destruct (hr_table _ _ _ Hr) as [(_ & ? & _)|Ht]; [done|].
      pose proof (tr_pow2 _ _ _ Ht) as Hp. rewrite size_mul_small by size_lia.
      split; [apply is_pow2_double; [done|size_lia]|].
      destruct (hr_load _ _ _ Hr) as [?|?]; [done|]. lia. }
  wp_bind. eapply wp_mono; [apply (resize_spec m h ss grown); auto; lia|].
  intros [st h1] m1 Hpost. unfold resize_post in Hpost. simpl in Hpost.
  destruct (decide (st = D4NP_OK)) as [->|Hst].
  2: { rewrite decide_True by done. wp_ret. exists h.
       destruct st; try done; destruct Hpost as [-> Hh]; (split; [done|]; split; [split; [by rewrite Hh|auto]|done]). }
  destruct Hpost as (ss1 & Hr1 & Hperm & Hc1 & Hl1 & Ht1 & Hsh & Hmv).
  rewrite decide_False by (intros Hne; by apply Hne).
  destruct (moved_load _ _ _ _ _ _ _ Hk' Hak Hmv) as [Hk1 Hak1].
  destruct (moved_load _ _ _ _ _ _ _ Hv Hav Hmv) as [Hv1 Hav1].
  pose proof Hsh as (E1 & E2 & _). rewrite <- E1 in Hk1. rewrite <- E2 in Hv1.
  apply load_bytes_load in Hk1.
  eapply wp_mono; [apply (put_room m1 h1 ss1 _ _ k v); auto; lia|]. intros r m2 Hp.
  eapply (put_ok_post m m1 m2 h h1 ss ss1); eauto. eapply amap_perm; [apply (hr_ok _ _ _ Hr)|by symmetry].
Qed.

(** *** The other operations *)

Lemma amap_nil_lookup κ : amap kc [] !! κ = None.
Proof. apply amap_lookup_None. set_solver. Qed.

Lemma get_spec m h ss key k :
  hm_rep m h ss -> load_bytes key (h_key_size h) m = Some (k, m) ->
  wp (d4np_hashmap_get (Some h) key) m (fun p m' => m' = m /\
    match amap kc ss !! kc k with
    | Some v => load p (h_value_size h) m = Some (v, m)
    | None => p = Null
    end).
Proof.
  intros Hr Hk. unfold d4np_hashmap_get. destruct key as [|kb ko]; [done|]. cbn [is_null orb].
  destruct (Z.eqb_spec (h_capacity h) 0) as [Hc|Hc].
  { wp_ret. split; [done|]. destruct (hr_table _ _ _ Hr) as [(_ & _ & ->)|Ht].
    - by rewrite amap_nil_lookup.
    - pose proof (is_pow2_bound _ (tr_pow2 _ _ _ Ht)). lia. }
  destruct (hm_load _ _ _ Hr Hc) as [Ht Hroom].
  wp_bind. eapply wp_mono; [eapply locate_spec; eauto; apply Hr|].
  intros [i found] m1 (-> & j & Ei & Hpost). simpl in Ei, Hpost. subst i. wp_ret. split; [done|].
  destruct found.
  - destruct Hpost as (k' & v & Hj & Ek). destruct (tab_rep_bounds _ _ _ _ _ Ht Hj) as (_ & _ & _ & ->).
    assert (amap kc ss !! kc k = Some v) as -> by (eapply amap_lookup; [apply Hr|eauto]).
    eapply arr_load; [apply Ht|by rewrite list_lookup_fmap, Hj|].
    pose proof (tr_value_size _ _ _ Ht). lia.
  - by rewrite amap_lookup_None by apply Hpost.
Qed.

(** Marking a slot deleted. *)
Lemma tab_delete m h ss j s :
  tab_rep m h ss -> ss !! j = Some s ->
  exists m', store_byte (padd (h_control h) (Z.of_nat j)) SLOT_DELETED m = Some (tt, m') /\
    tab_rep m' h (<[j := Del]> ss) /\ only (blocks h) m m'.
Proof.
  intros Ht Hj. destruct (tab_rep_blocks _ _ _ Ht) as (cb & kb & vb & Bc & Bk & Bv & ? & ? & ?).
  destruct (ctl_store m (h_control h) ss j Del) as (m' & E & C' & O');
    [apply Ht|by eapply lookup_lt_Some|].
  exists m'. split; [done|]. split; [|eapply only_part; [|exact O']; unfold blocks; set_solver].
  assert (forall A (f : slot -> option A) i x, f Del = None -> (f <$> <[j := Del]> ss) !! i = Some (Some x) ->
    (f <$> ss) !! i = Some (Some x)) as Hw.
  { intros A f i x Hf. rewrite !list_lookup_fmap. destruct (decide (i = j)) as [->|].
    - rewrite list_lookup_insert_eq by (by eapply lookup_lt_Some). simpl. by rewrite Hf.
    - by rewrite list_lookup_insert_ne. }
  destruct Ht. split; auto.
  - unfold zlen. by rewrite length_insert.
  - eapply arr_weaken; [eapply arr_only; [exact tr_keys0|exact O'|]|by rewrite !length_fmap, length_insert|].
    + rewrite Bk, Bc. intros b off [= <- <-]. rewrite touches_singleton. auto.
    + intros i x. by apply Hw.
  - eapply arr_weaken; [eapply arr_only; [exact tr_values0|exact O'|]|by rewrite !length_fmap, length_insert|].
    + rewrite Bv, Bc. intros b off [= <- <-]. rewrite touches_singleton. auto.
    + intros i x. by apply Hw.
Qed.

(** A change in place that leaves the map [mp']. *)
Definition in_place (m : mem) (h : d4np_hashmap) (mp' : gmap K (list cell))
    (oh : option d4np_hashmap) (m' : mem) : Prop :=
  exists h' ss', oh = Some h' /\ only (blocks h) m m' /\ blocks h' = blocks h /\ same_shape h' h /\
    hm_rep m' h' ss' /\ amap kc ss' = mp'.

Lemma in_place_refl m h ss mp' : hm_rep m h ss -> amap kc ss = mp' -> in_place m h mp' (Some h) m.
Proof. intros Hr E. exists h, ss. repeat (split; [by auto with mem|]). done. Qed.

Lemma remove_spec m h ss key k :
  hm_rep m h ss -> load_bytes key (h_key_size h) m = Some (k, m) ->
  wp (d4np_hashmap_remove (Some h) key) m (fun r m' =>
    r.1 = bool_decide (is_Some (amap kc ss !! kc k)) /\
    in_place m h (delete (kc k) (amap kc ss)) r.2 m').
Proof.
  intros Hr Hk. unfold d4np_hashmap_remove. destruct key as [|kb ko]; [done|]. cbn [is_null orb].
  assert (amap kc ss !! kc k = None -> wp (mret (false, Some h)) m (fun r m' =>
    r.1 = bool_decide (is_Some (amap kc ss !! kc k)) /\
    in_place m h (delete (kc k) (amap kc ss)) r.2 m')) as Hmiss.
  { intros Hn. wp_ret. rewrite Hn. split; [by rewrite bool_decide_eq_false_2 by (by intros [? ?])|].
    apply (in_place_refl _ _ ss); [done|]. by rewrite delete_id. }
  destruct (Z.eqb_spec (h_capacity h) 0) as [Hc|Hc].
  { apply Hmiss. destruct (hr_table _ _ _ Hr) as [(_ & _ & ->)|Ht]; [apply amap_nil_lookup|].
    pose proof (is_pow2_bound _ (tr_pow2 _ _ _ Ht)). lia. }
  destruct (hm_load _ _ _ Hr Hc) as [Ht Hroom].
  wp_bind. eapply wp_mono; [eapply locate_spec; eauto; apply Hr|].
  intros [i found] m1 (-> & j & Ei & Hpost). simpl in Ei, Hpost. subst i. destruct found; simpl.
  2: { apply Hmiss, amap_lookup_None, Hpost. }
  destruct Hpost as (k' & v & Hj & Ek). destruct (tab_delete m h ss j _ Ht Hj) as (m2 & E2 & Ht2 & Ho2).
  assert (amap kc ss !! kc k = Some v) as Hin by (eapply amap_lookup; [apply Hr|eauto]).
  wp_bind. eapply wp_run; [exact E2|]. wp_ret. simpl. rewrite Hin.
  split; [by rewrite bool_decide_eq_true_2 by eauto|].
  eexists _, (<[j := Del]> ss). split; [done|]. split_and!; [done|done|done| |].
  2: { rewrite <- Ek. eapply amap_remove; [apply Hr|done]. }
  destruct (entries_insert kc ss j _ Del Hj) as (E & P1 & P2). simpl in P1, P2.
  pose proof (dels_insert ss j _ Del Hj) as Hdel.
  rewrite decide_False, (decide_True _ _ eq_refl) in Hdel by done.
  pose proof (hm_rep_bounds _ _ _ Hr) as (? & ? & ? & ? & ? & _ & ?).
  pose proof (hr_key_size _ _ _ Hr). assert (h_capacity h <= PTRDIFF_MAX) by nia.
  pose proof (hr_len _ _ _ Hr) as Hl. pose proof (hr_tombstones _ _ _ Hr) as Htb.
  assert (zlen (entries ss) = 1 + zlen (entries (<[j:=Del]> ss))) as Hle.
  { unfold zlen. rewrite P1, P2. simpl. lia. }
  pose proof (zlen_nonneg (entries (<[j:=Del]> ss))).
  rewrite size_sub_small, size_add_small by size_lia.
  destruct (hr_load _ _ _ Hr) as [?|?]; [done|].
  eapply hm_rep_counts; eauto; [|lia..]. eapply slots_ok_update; eauto. apply Hr.
Qed.

Lemma hm_clear_spec m h ss :
  hm_rep m h ss ->
  wp (d4np_hashmap_clear (Some h)) m (in_place m h ∅).
Proof.
  intros Hr. simpl. destruct (hr_table _ _ _ Hr) as [(E & Hc & Hss)|Ht].
  - unfold blocks in E. injection E as Ec Ek Ev. rewrite Ec. simpl. wp_ret. subst ss.
    by apply (in_place_refl _ _ []).
  - destruct (tab_rep_blocks _ _ _ Ht) as (cb & kb & vb & Bc & _). rewrite Bc. simpl.
    rewrite <- Bc. wp_bind. eapply wp_empty_table; [by eapply tab_rep_storage|].
    intros m' Ht' Ho. wp_ret. eexists _, _. split; [done|].
    split_and!; [eapply only_part; [|exact Ho]; unfold blocks; set_solver|done|done| |].
    + pose proof (is_pow2_bound _ (tr_pow2 _ _ _ Ht)).
      eapply hm_rep_counts; eauto using slots_ok_empty; [by rewrite entries_replicate|by rewrite dels_replicate|lia].
    + unfold amap. by rewrite entries_replicate.
Qed.

Lemma hm_destroy_spec m h ss :
  hm_rep m h ss ->
  wp (d4np_hashmap_destroy (Some h)) m (fun oh m' =>
    m_heap m' = strip (blocks h) (m_heap m) /\ exists h', oh = Some h' /\ hm_rep m' h' []).
Proof.
  intros Hr. destruct (hr_allocator _ _ _ Hr) as (a & Ha & Hok).
  pose proof (hm_rep_bounds _ _ _ Hr) as (? & ? & ? & ? & ? & ? & _).
  pose proof (hr_key_size _ _ _ Hr). pose proof (hr_value_size _ _ _ Hr).
  simpl. destruct (hr_table _ _ _ Hr) as [(E & Hc & Hss)|Ht].
  - unfold blocks in *. injection E as Ec Ek Ev. rewrite Ec, Ek, Ev. simpl. wp_ret. subst ss.
    split; [done|]. eauto.
  - destruct (tab_rep_blocks _ _ _ Ht) as (cb & kb & vb & Bc & _).
    assert (is_null (h_control h) = false) as -> by (by rewrite Bc).
    rewrite Ha, !size_mul_small by size_nia.
    destruct (hm_rep_freeable _ _ _ Hr) as (F1 & F2 & F3 & Hsep).
    eapply wp_free3; eauto. intros m' Hh. wp_ret. split; [by rewrite Hh, heap_free3_strip|].
    eexists. split; [done|]. destruct Hr. split; simpl; auto. apply (slots_ok_empty kc hf 0).
Qed.

Lemma hm_init_spec m h0 oa ks vs n ohash oeq :
  allocator_arg_ok oa -> 0 < ks <= SIZE_MAX - 15 -> 0 < vs <= SIZE_MAX - 15 -> is_size n ->
  KeyOps kc hf ks (default default_hash ohash) (default default_key_eq oeq) ->
  wp (d4np_hashmap_init (Some h0) oa ks vs n ohash oeq) m (fun r m' =>
    exists h ss, r.2 = Some h /\ hm_rep m' h ss /\ amap kc ss = ∅ /\ h_key_size h = ks /\
      h_value_size h = vs /\ strip (blocks h) (m_heap m') = m_heap m /\
      (forall b, touches (blocks h) b -> m_heap m !! b = None) /\
      match r.1 with
      | D4NP_OK => n <= h_capacity h
      | D4NP_ERR_OVERFLOW | D4NP_ERR_OUT_OF_MEMORY => m_heap m' = m_heap m
      | _ => False
      end).
Proof.
  intros Ha Hks Hvs Hn Hops. apply resolve_ok in Ha. unfold d4np_hashmap_init.
  destruct (Z.eqb_spec ks 0); [lia|]. destruct (Z.eqb_spec vs 0); [lia|]. cbn [orb].
  set (h := Map _ _ _ _ _ _ _ _ _ _ _ _ _).
  assert (hm_rep m h []) as Hr.
  { pose proof (round_up_exact ks 16 eq_refl). pose proof (round_up_exact vs 16 eq_refl).
    destruct (round_up_spec ks) as [Ek _]; [size_lia|]. destruct (round_up_spec vs) as [Ev _]; [size_lia|].
    change (size_round_up ks MAX_ALIGN) with (h_key_stride h) in Ek.
    change (size_round_up vs MAX_ALIGN) with (h_value_stride h) in Ev.
    change (16 - 1) with 15 in *. specialize (Ek ltac:(lia)). specialize (Ev ltac:(lia)).
    rewrite <- Ek in *. rewrite <- Ev in *.
    split; try done; [by eexists|simpl in *; lia|size_lia|simpl in *; lia|by left|apply (slots_ok_empty kc hf 0)|by left]. }
  destruct (Z.ltb_spec 0 n) as [Hpos|Hz].
  2: { wp_ret. exists h, []. split_and!; auto. intros b [off Hin]. set_solver. }
  destruct (grow_pow2_spec 8 n) as (r & Er & Hrp & Hr8 & Hle & Hbig); [by exists 3|].
  wp_bind. eapply wp_run; [unfold lift_opt, next_pow2_at_least, D4NP_HASHMAP_MIN_CAPACITY; by rewrite Er|].
  wp_bind. eapply wp_mono; [apply (resize_spec m h []); auto; simpl; lia|].
  intros [st h1] m1 Hpost. wp_ret. unfold resize_post in Hpost. clear Er. simpl in *. destruct st; try done.
  - destruct Hpost as (ss1 & Hr1 & Hperm & Hc1 & Hl1 & Ht1 & Hsh & Hs & Hf).
    exists h1, ss1. destruct Hsh as (E1 & E2 & _). split_and!; auto.
    + by rewrite (amap_perm kc hf [] ss1) by (apply Hr || by symmetry).
    + intros b Hb. destruct (Hf b Hb) as [[off Hin]|]; [set_solver|done].
    + destruct (Z.le_gt_cases n (2 ^ 63)); [rewrite Hc1; by apply Hle|].
      specialize (Hbig ltac:(lia)). pose proof (hm_rep_bounds _ _ _ Hr1) as (_ & _ & _ & _ & Hkb & _).
      pose proof (hr_align _ _ _ Hr1). rewrite Hc1 in Hkb. size_nia.
  - destruct Hpost as [-> Hh]. exists h, []. split_and!; auto; [by eapply hm_rep_heap|].
    intros b [off Hin]. set_solver.
  - destruct Hpost as [-> Hh]. exists h, []. split_and!; auto; [by eapply hm_rep_heap|].
    intros b [off Hin]. set_solver.
Qed.

(** ** Programs over a map

    A client whose keys and values lie in its own memory [m0] runs a list of
    operations on a map. *)

Inductive hop :=
  | HPut (key value : ptr)
  | HGet (key : ptr)
  | HContains (key : ptr)
  | HRemove (key : ptr)
  | HLen
  | HClear.

Inductive hout :=
  | HStatus (st : d4np_status)
  | HValue (v : option (list cell))
  | HBool (b : bool)
  | HSize (n : Z)
  | HDone.

Definition with_map {A} (oh : option d4np_hashmap) (e : d4np_hashmap -> M A) : M A :=
  match oh with Some h => e h | None => fault end.

Definition run_op (h : d4np_hashmap) (op : hop) : M (hout * d4np_hashmap) :=
  match op with
  | HPut key value =>
      '(st, oh) ← d4np_hashmap_put (Some h) key value; with_map oh (fun h => mret (HStatus st, h))
  | HGet key =>
      p ← d4np_hashmap_get (Some h) key;
      if is_null p then mret (HValue None, h)
      else v ← load p (h_value_size h); mret (HValue (Some v), h)
  | HContains key => b ← d4np_hashmap_contains (Some h) key; mret (HBool b, h)
  | HRemove key =>
      '(b, oh) ← d4np_hashmap_remove (Some h) key; with_map oh (fun h => mret (HBool b, h))
  | HLen => mret (HSize (d4np_hashmap_len (Some h)), h)
  | HClear => oh ← d4np_hashmap_clear (Some h); with_map oh (fun h => mret (HDone, h))
  end.

Fixpoint run_ops (h : d4np_hashmap) (ops : list hop) : M (list hout * d4np_hashmap) :=
  match ops with
  | [] => mret ([], h)
  | op :: ops => '(o, h) ← run_op h op; '(os, h) ← run_ops h ops; mret (o :: os, h)
  end.

(** The same operations on a finite map; only [put] may fail. *)
Inductive mstep (m0 : mem) (ks vs : Z)
  : gmap K (list cell) -> hop -> hout -> gmap K (list cell) -> Prop :=
  | mstep_put mp key value k v :
      load_bytes key ks m0 = Some (k, m0) -> load value vs m0 = Some (v, m0) ->
      mstep m0 ks vs mp (HPut key value) (HStatus D4NP_OK) (<[kc k := v]> mp)
  | mstep_put_fail mp key value st :
      st = D4NP_ERR_OUT_OF_MEMORY \/ st = D4NP_ERR_OVERFLOW ->
      mstep m0 ks vs mp (HPut key value) (HStatus st) mp
  | mstep_get mp key k :
      load_bytes key ks m0 = Some (k, m0) -> mstep m0 ks vs mp (HGet key) (HValue (mp !! kc k)) mp
  | mstep_contains mp key k :
      load_bytes key ks m0 = Some (k, m0) ->
      mstep m0 ks vs mp (HContains key) (HBool (bool_decide (is_Some (mp !! kc k)))) mp
  | mstep_remove mp key k :
      load_bytes key ks m0 = Some (k, m0) ->
      mstep m0 ks vs mp (HRemove key) (HBool (bool_decide (is_Some (mp !! kc k)))) (delete (kc k) mp)
  | mstep_len mp : mstep m0 ks vs mp HLen (HSize (Z.of_nat (size mp))) mp
  | mstep_clear mp : mstep m0 ks vs mp HClear HDone ∅.

Inductive msteps (m0 : mem) (ks vs : Z)
  : gmap K (list cell) -> list hop -> list hout -> gmap K (list cell) -> Prop :=
  | msteps_nil mp : msteps m0 ks vs mp [] [] mp
  | msteps_cons mp op o mp' ops os mp'' :
      mstep m0 ks vs mp op o mp' -> msteps m0 ks vs mp' ops os mp'' ->
      msteps m0 ks vs mp (op :: ops) (o :: os) mp''.

(** The arguments a client may pass: readable keys and values. *)
Definition op_ok (m0 : mem) (ks vs : Z) (op : hop) : Prop :=
  match op with
  | HPut key value => (exists k, load_bytes key ks m0 = Some (k, m0)) /\
                      (exists v, load value vs m0 = Some (v, m0))
  | HGet key | HContains key | HRemove key => exists k, load_bytes key ks m0 = Some (k, m0)
  | HLen | HClear => True
  end.

(** Memory is the client's and the map's, nothing else. *)
Definition hm_client (m0 m : mem) (h : d4np_hashmap) (mp : gmap K (list cell)) : Prop :=
  exists ss, hm_rep m h ss /\ amap kc ss = mp /\ strip (blocks h) (m_heap m) = m_heap m0 /\
    forall b, touches (blocks h) b -> m_heap m0 !! b = None.

Lemma hm_client_load m0 m h mp p n cs :
  hm_client m0 m h mp -> load p n m0 = Some (cs, m0) -> load p n m = Some (cs, m) /\ apart h p.
Proof.
  intros (ss & _ & _ & Hs & Hf) Hl. destruct (load_valid _ _ _ _ _ Hl) as (b & off & blk & -> & Hb & _).
  assert (~ touches (blocks h) b) as Hn by (intros Ht; rewrite Hf in Hb; done).
  split; [|by intros ? ? [= <- <-]]. eapply load_frame; [exact Hl|].
  rewrite <- Hs. by rewrite strip_lookup.
Qed.

Lemma hm_client_bytes m0 m h mp p n k :
  hm_client m0 m h mp -> load_bytes p n m0 = Some (k, m0) ->
  load_bytes p n m = Some (k, m) /\ apart h p.
Proof. rewrite !load_bytes_load. apply hm_client_load. Qed.

Lemma hm_client_moved m0 m m' h h' ss' mp mp' :
  hm_client m0 m h mp -> moved m m' h h' -> hm_rep m' h' ss' -> amap kc ss' = mp' ->
  hm_client m0 m' h' mp'.
Proof.
  intros (ss & _ & _ & Hs & Hf) [Hs' Hf'] Hr' Ea. exists ss'. split_and!; auto; [by rewrite Hs'|].
  intros b Hb. destruct (Hf' b Hb) as [?|Hn]; [auto|].
  rewrite <- Hs. destruct (decide (touches (blocks h) b)); [by apply strip_lookup_None|].
  by rewrite strip_lookup.
Qed.

Lemma hm_client_in_place m0 m m' h mp mp' oh :
  hm_client m0 m h mp -> in_place m h mp' oh m' ->
  exists h', oh = Some h' /\ same_shape h' h /\ hm_client m0 m' h' mp'.
Proof.
  intros Hc (h' & ss' & -> & Ho & Eb & Hsh & Hr' & Ea). exists h'. split_and!; auto.
  eapply hm_client_moved; eauto. split; rewrite Eb; [by apply strip_only|auto].
Qed.

Definition step_post (m0 : mem) (h : d4np_hashmap) (mp : gmap K (list cell)) (op : hop)
    (r : hout * d4np_hashmap) (m' : mem) : Prop :=
  exists mp', mstep m0 (h_key_size h) (h_value_size h) mp op r.1 mp' /\ hm_client m0 m' r.2 mp' /\
    same_shape r.2 h.

Lemma run_put m0 m h mp key value :
  hm_client m0 m h mp -> op_ok m0 (h_key_size h) (h_value_size h) (HPut key value) ->
  wp (run_op h (HPut key value)) m (step_post m0 h mp (HPut key value)).
Proof.
  intros Hc [[k Hk] [v Hv]]. destruct (hm_client_bytes _ _ _ _ _ _ _ Hc Hk) as [Hk' Hak].
  destruct (hm_client_load _ _ _ _ _ _ _ Hc Hv) as [Hv' Hav].
  pose proof Hc as (ss & Hr & Em & _). unfold run_op. wp_bind.
  eapply wp_mono; [by apply (put_spec m h ss _ _ k v)|].
  intros [st oh] m' (h' & E & Hmv & Hsh & Hst). simpl in E, Hst. subst oh. simpl. wp_ret.
  unfold step_post. simpl. destruct st; try done.
  - destruct Hst as (ss' & Hr' & Ea). exists (<[kc k := v]> mp). split; [by econstructor|].
    split; [|done]. eapply hm_client_moved; eauto. by rewrite Ea, Em.
  - destruct Hst as [-> Hh]. exists mp. split; [constructor; auto|]. split; [|done].
    by eapply hm_client_moved; eauto using hm_rep_heap.
  - destruct Hst as [-> Hh]. exists mp. split; [constructor; auto|]. split; [|done].
    by eapply hm_client_moved; eauto using hm_rep_heap.
Qed.

Lemma run_get m0 m h mp key :
  hm_client m0 m h mp -> op_ok m0 (h_key_size h) (h_value_size h) (HGet key) ->
  wp (run_op h (HGet key)) m (step_post m0 h mp (HGet key)).
Proof.
  intros Hc [k Hk]. destruct (hm_client_bytes _ _ _ _ _ _ _ Hc Hk) as [Hk' _].
  pose proof Hc as (ss & Hr & Em & _). unfold run_op. wp_bind.
  eapply wp_mono; [by apply (get_spec m h ss _ k)|]. intros p m' [-> Hp]. rewrite Em in Hp.
  assert (mstep m0 (h_key_size h) (h_value_size h) mp (HGet key) (HValue (mp !! kc k)) mp) as Hs
    by (by constructor).
  destruct (mp !! kc k) as [v|].
  - destruct p as [|b off]; [done|]. cbn [is_null]. wp_bind. eapply wp_run; [exact Hp|]. wp_ret.
    exists mp. done.
  - subst p. wp_ret. exists mp. done.
Qed.

Lemma run_contains m0 m h mp key :
  hm_client m0 m h mp -> op_ok m0 (h_key_size h) (h_value_size h) (HContains key) ->
  wp (run_op h (HContains key)) m (step_post m0 h mp (HContains key)).
Proof.
  intros Hc [k Hk]. destruct (hm_client_bytes _ _ _ _ _ _ _ Hc Hk) as [Hk' _].
  pose proof Hc as (ss & Hr & Em & _). unfold run_op, d4np_hashmap_contains. wp_bind. wp_bind.
  eapply wp_mono; [by apply (get_spec m h ss _ k)|]. intros p m' [-> Hp]. rewrite Em in Hp.
  wp_ret. wp_ret. exists mp. split; [|done]. simpl.
  assert (negb (is_null p) = bool_decide (is_Some (mp !! kc k))) as ->; [|by constructor].
  destruct (mp !! kc k) as [v|]; [|by subst p]. by destruct p.
Qed.

Lemma run_remove m0 m h mp key :
  hm_client m0 m h mp -> op_ok m0 (h_key_size h) (h_value_size h) (HRemove key) ->
  wp (run_op h (HRemove key)) m (step_post m0 h mp (HRemove key)).
Proof.
  intros Hc [k Hk]. destruct (hm_client_bytes _ _ _ _ _ _ _ Hc Hk) as [Hk' _].
  pose proof Hc as (ss & Hr & Em & _). unfold run_op. wp_bind.
  eapply wp_mono; [by apply (remove_spec m h ss _ k)|]. intros [b oh] m' [Eb Hp]. rewrite Em in *.
  simpl in Eb. subst b. destruct (hm_client_in_place _ _ _ _ _ _ _ Hc Hp) as (h' & E & Hsh & Hc').
  simpl in E. subst oh. simpl. wp_ret. exists (delete (kc k) mp). split; [by constructor|done].
Qed.

Lemma hm_run_op_spec m0 m h mp op :
  hm_client m0 m h mp -> op_ok m0 (h_key_size h) (h_value_size h) op ->
  wp (run_op h op) m (step_post m0 h mp op).
Proof.
  intros Hc Hop. destruct op; auto using run_put, run_get, run_contains, run_remove; unfold run_op.
  - wp_ret. exists mp. split; [|done]. destruct Hc as (ss & Hr & Em & _). simpl.
    rewrite (hr_len _ _ _ Hr). unfold zlen.
    rewrite <- (amap_size kc hf) by apply (hr_ok _ _ _ Hr). rewrite Em. constructor.
  - pose proof Hc as (ss & Hr & _). wp_bind. eapply wp_mono; [by eapply hm_clear_spec|].
    intros oh m' Hp. destruct (hm_client_in_place _ _ _ _ _ _ _ Hc Hp) as (h' & -> & Hsh & Hc').
    simpl. wp_ret. exists ∅. split; [constructor|done].
Qed.

Lemma hm_run_ops_spec m0 m h mp ops :
  hm_client m0 m h mp -> Forall (op_ok m0 (h_key_size h) (h_value_size h)) ops ->
  wp (run_ops h ops) m (fun '(os, h') m' => exists mp',
    msteps m0 (h_key_size h) (h_value_size h) mp ops os mp' /\ hm_client m0 m' h' mp').
Proof.
  intros Hc Hops. revert m h mp Hc Hops. induction ops as [|op ops IH]; intros m h mp Hc Hops; simpl.
  { wp_ret. exists mp. split; [constructor|done]. }
  apply Forall_cons in Hops as [Hop Hops]. wp_bind. eapply wp_mono; [by apply hm_run_op_spec|].
  intros [o h1] m1 (mp1 & Hs & Hc1 & (E1 & E2 & _)). simpl in Hs, Hc1, E1, E2. wp_bind.
  eapply wp_mono; [apply IH; [exact Hc1|by rewrite E1, E2]|]. rewrite E1, E2.
  intros [os h2] m2 (mp2 & Hss & Hc2). wp_ret. exists mp2. split; [by econstructor|done].
Qed.

(** ** Properties *)

(** C1. The hash map is a finite map.  Any sequence of operations on a freshly
    initialised map, with any hash and equality functions that respect the
    same notion of key, is free of undefined behaviour and observes exactly
    what a finite map gives: put inserts or overwrites, get finds the last
    value put, remove forgets the key, through every growth, rehash and
    tombstone.  Only put may fail, with an allocation error, and then nothing
    has changed.  Destroying the map gives memory back exactly as it was. *)
Theorem hashmap_program_refines m h0 oa ks vs n ohash oeq ops :
  allocator_arg_ok oa -> 0 < ks <= SIZE_MAX - 15 -> 0 < vs <= SIZE_MAX - 15 -> is_size n ->
  KeyOps kc hf ks (default default_hash ohash) (default default_key_eq oeq) ->
  Forall (op_ok m ks vs) ops ->
  wp ('(st, oh) ← d4np_hashmap_init (Some h0) oa ks vs n ohash oeq;
      with_map oh (fun h => run_ops h ops)) m
     (fun '(os, h) m' => (exists mp, msteps m ks vs ∅ ops os mp) /\
        wp (d4np_hashmap_destroy (Some h)) m' (fun _ m'' => m_heap m'' = m_heap m)).
Proof.
  intros Ha Hks Hvs Hn Hko Hops. wp_bind. eapply wp_mono; [by apply hm_init_spec|].
  intros [st oh] m1 (h & ss & E & Hr & Ea & Ek & Ev & Hs & Hf & _). simpl in E. subst oh. simpl.
  eapply wp_mono; [apply (hm_run_ops_spec m m1 h ∅); [by exists ss|by rewrite Ek, Ev]|].
  rewrite Ek, Ev. intros [os h2] m2 (mp & Hms & ss2 & Hr2 & _ & Hs2 & _). split; [eauto|].
  eapply wp_mono; [by eapply hm_destroy_spec|]. intros ? m3 [-> _]. done.
Qed.

(** What the structure and the control bytes of a map look like. *)
Record wellformed (m : mem) (h : d4np_hashmap) (cs : list Z) : Prop := {
  wf_pow2 : is_pow2 (h_capacity h);
  wf_load : (h_len h + h_tombstones h) * 4 < h_capacity h * 3;
  wf_bytes : h_capacity h * h_key_stride h <= PTRDIFF_MAX /\ h_capacity h * h_value_stride h <= PTRDIFF_MAX;
  wf_control : load_bytes (h_control h) (h_capacity h) m = Some (cs, m);
  wf_codes : Forall (fun c => c = SLOT_EMPTY \/ c = SLOT_OCCUPIED \/ c = SLOT_DELETED) cs;
  wf_len : h_len h = zlen (filter (.= SLOT_OCCUPIED) cs);
  wf_tombstones : h_tombstones h = zlen (filter (.= SLOT_DELETED) cs);
  wf_found i : cs !! i = Some SLOT_OCCUPIED ->
    locate h (key_slot h (Z.of_nat i)) m = Some ((Z.of_nat i, true), m)
}.

Lemma codes_counts ss :
  length (filter (.= SLOT_OCCUPIED) (slot_code <$> ss)) = length (entries ss) /\
  length (filter (.= SLOT_DELETED) (slot_code <$> ss)) = dels ss.
Proof.
  unfold dels. induction ss as [|s ss [IH1 IH2]]; [done|]. rewrite fmap_cons, !filter_cons, entries_cons.
  by destruct s; simpl; rewrite ?IH1, ?IH2.
Qed.

Lemma tab_found m h ss i k v :
  tab_rep m h ss -> KeyOps kc hf (h_key_size h) (h_hash h) (h_key_eq h) -> slots_ok ss ->
  (length (entries ss) + dels ss < length ss)%nat -> ss !! i = Some (Occ k v) ->
  locate h (key_slot h (Z.of_nat i)) m = Some ((Z.of_nat i, true), m).
Proof.
  intros Ht Hops Hok Hload Hi. destruct (tab_rep_bounds _ _ _ _ _ Ht Hi) as (_ & _ & Ek & _).
  pose proof (tr_key_size _ _ _ Ht).
  assert (load_bytes (key_slot h (Z.of_nat i)) (h_key_size h) m = Some (k, m)) as Hk.
  { apply load_bytes_load. rewrite Ek. eapply arr_load; [apply Ht| |lia]. by rewrite list_lookup_fmap, Hi. }
  destruct (locate_spec m h ss _ k Ht Hops Hok Hload Hk) as ([r []] & m' & -> & -> & j & Ej & Hj); simpl in *; subst r.
  - destruct Hj as (k' & v' & Hj & E). by rewrite (slots_ok_unique kc hf ss j i k' v' k v Hok Hj Hi E).
  - destruct Hj as [_ Hn]. exfalso. apply Hn. rewrite elem_of_keys. eauto.
Qed.

Lemma hm_rep_wellformed m h ss :
  hm_rep m h ss -> (h_capacity h = 0 /\ h_len h = 0 /\ h_tombstones h = 0 /\ blocks h = [Null; Null; Null]) \/
    exists cs, wellformed m h cs.
Proof.
  intros Hr. pose proof Hr as [_ Hops _ _ _ Ht Hok Hl Htb Hld].
  destruct Ht as [(Hb & Hc & ->)|Ht]; [left; by split_and!|right]. exists (slot_code <$> ss).
  pose proof (is_pow2_bound _ (tr_pow2 _ _ _ Ht)). pose proof (tr_capacity _ _ _ Ht) as Hc.
  destruct (codes_counts ss) as [C1 C2].
  assert ((h_len h + h_tombstones h) * 4 < h_capacity h * 3) as Hload by (destruct Hld; [lia|done]).
  assert (length (entries ss) + dels ss < length ss)%nat as Hroom by (unfold zlen in *; lia).
  split; auto; try apply Ht; unfold zlen in *; rewrite ?C1, ?C2; auto.
  - split; apply Ht.
  - destruct (tr_control _ _ _ Ht) as (b & addr & -> & Hb). apply load_bytes_load. unfold load. rewrite Hb. simpl.
    rewrite Hc. rewrite decide_True by (unfold zlen; rewrite length_fmap; lia).
    rewrite sub_full by (unfold zlen; by rewrite length_fmap). by rewrite <- list_fmap_compose.
  - apply Forall_fmap, Forall_forall. intros s _. destruct s; simpl; auto.
  - intros i Hi. apply list_lookup_fmap_Some in Hi as (s & E & Hi). destruct s; try done. by eapply tab_found.
Qed.

(** C20. Every operation keeps the map well-formed: after any sequence of
    operations on a freshly initialised map, either it has no table, or its
    capacity is a power of two, entries and tombstones fill less than three
    quarters of it, so that every search ends at an empty slot, its arrays are
    no larger than an object can be, every control byte is one of the three
    codes, the length and the number of tombstones are those of the control
    bytes, and searching for the key of an occupied slot finds that slot. *)
Theorem hashmap_wellformed m h0 oa ks vs n ohash oeq ops :
  allocator_arg_ok oa -> 0 < ks <= SIZE_MAX - 15 -> 0 < vs <= SIZE_MAX - 15 -> is_size n ->
  KeyOps kc hf ks (default default_hash ohash) (default default_key_eq oeq) ->
  Forall (op_ok m ks vs) ops ->
  wp ('(st, oh) ← d4np_hashmap_init (Some h0) oa ks vs n ohash oeq;
      with_map oh (fun h => run_ops h ops)) m
     (fun '(_, h) m' =>
        (h_capacity h = 0 /\ h_len h = 0 /\ h_tombstones h = 0 /\ blocks h = [Null; Null; Null]) \/
        exists cs, wellformed m' h cs).
Proof.
  intros Ha Hks Hvs Hn Hko Hops. wp_bind. eapply wp_mono; [by apply hm_init_spec|].
  intros [st oh] m1 (h & ss & E & Hr & Ea & Ek & Ev & Hs & Hf & _). simpl in E. subst oh. simpl.
  eapply wp_mono; [apply (hm_run_ops_spec m m1 h ∅); [by exists ss|by rewrite Ek, Ev]|].
  intros [os h2] m2 (mp & _ & ss2 & Hr2 & _). by eapply hm_rep_wellformed.
Qed.

End table.

Section wrapping.
Context `{!Libc}.

(** C39. A key size within 15 of [SIZE_MAX] wraps to a stride of zero, and the
    overflow test of [resize] then divides by it: initialising the map with a
    capacity is undefined instead of reporting an overflow. *)
Theorem hashmap_key_size_wraps m h0 oa ks vs n ohash oeq :
  SIZE_MAX - 15 < ks <= SIZE_MAX -> 0 < vs <= SIZE_MAX -> 0 < n <= SIZE_MAX ->
  d4np_hashmap_init (Some h0) oa ks vs n ohash oeq m = None.
Proof.
  intros Hks Hvs Hn. unfold d4np_hashmap_init.
  destruct (Z.eqb_spec ks 0); [size_lia|]. destruct (Z.eqb_spec vs 0); [size_lia|]. cbn [orb].
  destruct (round_up_spec ks) as [_ Ew]; [size_lia|]. change size_round_up with round_up in Ew.
  rewrite Ew by lia. destruct (Z.ltb_spec 0 n); [|lia].
  destruct (grow_pow2_spec 8 n) as (r & Er & _); [by exists 3|].
  unfold mbind, M_bind, lift_opt, next_pow2_at_least, D4NP_HASHMAP_MIN_CAPACITY. rewrite Er. reflexivity.
Qed.

End wrapping.

(** *** Witnesses *)

Section witnesses.
#[local] Existing Instance libc_plenty.

(** Two keys of two bytes and two values of one byte. *)
Definition kv_mem : mem :=
  Mem {[ 0%nat := Block 16 (Byte <$> [1; 2; 3; 4; 5; 6]) ]} 1.

Definition zero_map : d4np_hashmap :=
  Map None Null Null Null 0 0 0 0 0 0 0 default_hash default_key_eq.

Lemma hashmap_program_refines_witness :
  let ops := [HPut (Ptr 0 0) (Ptr 0 4); HPut (Ptr 0 2) (Ptr 0 5); HGet (Ptr 0 0);
              HRemove (Ptr 0 0); HContains (Ptr 0 0); HLen; HClear] in
  wp ('(st, oh) ← d4np_hashmap_init (Some zero_map) None 2 1 0 None None;
      with_map oh (fun h => run_ops h ops)) kv_mem
     (fun '(os, h) m' => (exists mp, msteps (fun k => k) kv_mem 2 1 ∅ ops os mp) /\
        wp (d4np_hashmap_destroy (Some h)) m' (fun _ m'' => m_heap m'' = m_heap kv_mem)).
Proof.
  intros ops.
  apply (hashmap_program_refines (fun k => k) (fnv1a D4NP_FNV1A_OFFSET_BASIS)); try done; try size_lia.
  - apply default_key_ops. size_lia.
  - repeat constructor; eexists; reflexivity.
Defined.

Lemma hashmap_wellformed_witness :
  wp ('(st, oh) ← d4np_hashmap_init (Some zero_map) None 2 1 0 None None;
      with_map oh (fun h => run_ops h [HPut (Ptr 0 0) (Ptr 0 4); HPut (Ptr 0 2) (Ptr 0 5); HRemove (Ptr 0 0)])) kv_mem
     (fun '(_, h) m' =>
        (h_capacity h = 0 /\ h_len h = 0 /\ h_tombstones h = 0 /\ blocks h = [Null; Null; Null]) \/
        exists cs, wellformed m' h cs).
Proof.
  apply (hashmap_wellformed (fun k => k) (fnv1a D4NP_FNV1A_OFFSET_BASIS)); try done; try size_lia.
  - apply default_key_ops. size_lia.
  - repeat constructor; eexists; reflexivity.
Defined.

Lemma hashmap_key_size_wraps_witness :
  d4np_hashmap_init (Some zero_map) None (SIZE_MAX - 3) 8 16 None None kv_mem = None.
Proof. apply hashmap_key_size_wraps; size_lia. Defined.

End witnesses.
End HashMap.
