(* ===== verification/LinkedList.v ===== *)
(** * Intrusive doubly linked list ([d4np/ds/linked_list.h], [linked_list.c])

    The nodes belong to the caller: a store maps the address of a node to its
    two links, and the list itself is the address of its sentinel and a
    length.  The circular structure is refined to a list of addresses. *)

From S2P Require Import Prelude.

Local Open Scope Z_scope.

Module LinkedList.

(** A node pointer; [None] is [NULL]. *)
Definition node_ptr : Type := option nat.

Record d4np_list_node := Node { n_prev : node_ptr; n_next : node_ptr }.

Notation nodes := (gmap nat d4np_list_node).

(** A list lives in memory: [l_sentinel] is [&list->sentinel], whose links are
    in the store with those of the other nodes. *)
Record d4np_linked_list := List { l_sentinel : nat; l_len : Z }.

(** Computations on the store; following [NULL] or a dead node is undefined. *)
Definition L (A : Type) : Type := nodes -> option (A * nodes).

#[export] Instance L_ret : MRet L := fun A a h => Some (a, h).
#[export] Instance L_bind : MBind L := fun A B f e h =>
  match e h with Some (a, h') => f a h' | None => None end.

Definition get_node (p : node_ptr) : L d4np_list_node := fun h =>
  a ← p; n ← h !! a; Some (n, h).

Definition get_prev (p : node_ptr) : L node_ptr := n ← get_node p; mret (n_prev n).
Definition get_next (p : node_ptr) : L node_ptr := n ← get_node p; mret (n_next n).

Definition set_prev (p v : node_ptr) : L unit := fun h =>
  a ← p; n ← h !! a; Some (tt, <[a := Node v (n_next n)]> h).

Definition set_next (p v : node_ptr) : L unit := fun h =>
  a ← p; n ← h !! a; Some (tt, <[a := Node (n_prev n) v]> h).

(** ** The code *)

Definition link_between (node prev next : node_ptr) : L unit :=
  set_prev node prev ;;
  set_next node next ;;
  set_next prev node ;;
  set_prev next node.

Definition unlink (node : node_ptr) : L unit :=
  p ← get_prev node; nx ← get_next node; set_next p nx ;;
  nx ← get_next node; p ← get_prev node; set_prev nx p ;;
  set_prev node None ;;
  set_next node None.

Definition d4np_linked_list_init (list : option d4np_linked_list) : L (option d4np_linked_list) :=
  match list with
  | None => mret None
  | Some l =>
      set_next (Some (l_sentinel l)) (Some (l_sentinel l)) ;;
      set_prev (Some (l_sentinel l)) (Some (l_sentinel l)) ;;
      mret (Some (List (l_sentinel l) 0))
  end.

Definition d4np_linked_list_push_front (list : option d4np_linked_list) (node : node_ptr)
  : L (option d4np_linked_list) :=
  match list, node with
  | Some l, Some _ =>
      first ← get_next (Some (l_sentinel l));
      link_between node (Some (l_sentinel l)) first ;;
      mret (Some (List (l_sentinel l) (l_len l ⊞ 1)))
  | _, _ => mret list
  end.

Definition d4np_linked_list_push_back (list : option d4np_linked_list) (node : node_ptr)
  : L (option d4np_linked_list) :=
  match list, node with
  | Some l, Some _ =>
      last ← get_prev (Some (l_sentinel l));
      link_between node last (Some (l_sentinel l)) ;;
      mret (Some (List (l_sentinel l) (l_len l ⊞ 1)))
  | _, _ => mret list
  end.

Definition d4np_linked_list_pop_front (list : option d4np_linked_list)
  : L (node_ptr * option d4np_linked_list) :=
  match list with
  | None => mret (None, None)
  | Some l =>
      if l_len l =? 0 then mret (None, Some l)
      else
        node ← get_next (Some (l_sentinel l));
        unlink node ;;
        mret (node, Some (List (l_sentinel l) (l_len l ⊟ 1)))
  end.

Definition d4np_linked_list_pop_back (list : option d4np_linked_list)
  : L (node_ptr * option d4np_linked_list) :=
  match list with
  | None => mret (None, None)
  | Some l =>
      if l_len l =? 0 then mret (None, Some l)
      else
        node ← get_prev (Some (l_sentinel l));
        unlink node ;;
        mret (node, Some (List (l_sentinel l) (l_len l ⊟ 1)))
  end.

Definition d4np_linked_list_remove (list : option d4np_linked_list) (node : node_ptr)
  : L (option d4np_linked_list) :=
  match list, node with
  | Some l, Some _ =>
      if l_len l =? 0 then mret list
      else unlink node ;; mret (Some (List (l_sentinel l) (l_len l ⊟ 1)))
  | _, _ => mret list
  end.

Definition d4np_linked_list_front (list : option d4np_linked_list) : L node_ptr :=
  match list with
  | None => mret None
  | Some l => if l_len l =? 0 then mret None else get_next (Some (l_sentinel l))
  end.

Definition d4np_linked_list_back (list : option d4np_linked_list) : L node_ptr :=
  match list with
  | None => mret None
  | Some l => if l_len l =? 0 then mret None else get_prev (Some (l_sentinel l))
  end.

Definition d4np_linked_list_is_empty (list : option d4np_linked_list) : bool :=
  match list with None => true | Some l => l_len l =? 0 end.

Definition d4np_linked_list_len (list : option d4np_linked_list) : Z :=
  match list with Some l => l_len l | None => 0 end.

(** The nodes [D4NP_LIST_FOR_EACH] visits, from [node] on; the body of the
    loop only looks.  One round per node and one to meet the sentinel. *)
Fixpoint for_each (fuel : nat) (node : node_ptr) (sentinel : nat) : L (list nat) :=
  match fuel with
  | O => fun _ => None
  | S fuel =>
      if decide (node = Some sentinel) then mret []
      else
        match node with
        | Some a => nx ← get_next node; rest ← for_each fuel nx sentinel; mret (a :: rest)
        | None => fun _ => None
        end
  end.

(** The address of the struct whose member at [offset] the node is. *)
Definition D4NP_LIST_ENTRY (node : nat) (offset : Z) : Z := Z.of_nat node - offset.

Definition D4NP_LIST_FOR_EACH (l : d4np_linked_list) : L (list nat) :=
  first ← get_next (Some (l_sentinel l)); for_each (Z.to_nat (l_len l) + 1) first (l_sentinel l).

#[global] Arguments unlink : simpl never.
#[global] Arguments link_between : simpl never.

(** ** Circular structure *)

Definition nxt (h : nodes) (a : nat) : node_ptr := n ← h !! a; n_next n.
Definition prv (h : nodes) (a : nat) : node_ptr := n ← h !! a; n_prev n.

(** The nodes [xs] lie, linked both ways, between [a] and [z]. *)
Fixpoint seg (h : nodes) (a : nat) (xs : list nat) (z : nat) : Prop :=
  match xs with
  | [] => nxt h a = Some z /\ prv h z = Some a
  | x :: xs => nxt h a = Some x /\ prv h x = Some a /\ seg h x xs z
  end.

Record list_rep (h : nodes) (s : nat) (xs : list nat) : Prop := {
  lr_seg : seg h s xs s;
  lr_nodup : NoDup (s :: xs);
  lr_live : forall a, a ∈ s :: xs -> is_Some (h !! a);
  lr_size : Z.of_nat (size h) <= SIZE_MAX
}.

Lemma seg_app h a xs x ys z : seg h a (xs ++ x :: ys) z <-> seg h a xs x /\ seg h x ys z.
Proof. revert a. induction xs as [|y xs IH]; intros a; simpl; [tauto|]. rewrite IH. tauto. Qed.

Lemma seg_frame h h' a xs z :
  seg h a xs z -> (forall x, x ∈ a :: xs -> nxt h' x = nxt h x) ->
  (forall x, x = z \/ x ∈ xs -> prv h' x = prv h x) -> seg h' a xs z.
Proof.
  revert a. induction xs as [|x xs IH]; intros a; simpl.
  - intros [Hn Hp] Hnx Hpv. rewrite Hnx, Hpv by set_solver. done.
  - intros (Hn & Hp & Hs) Hnx Hpv. rewrite Hnx, Hpv by set_solver. split_and!; auto.
    apply IH; auto; intros y Hy; [apply Hnx|apply Hpv]; set_solver.
Qed.

(** A circular list, starting anywhere in it. *)
Definition ring (h : nodes) (r : list nat) : Prop :=
  match r with [] => True | a :: xs => seg h a xs a end.

Lemma ring_rotate h r1 r2 : ring h (r1 ++ r2) -> ring h (r2 ++ r1).
Proof.
  destruct r1 as [|a r1]; [by rewrite app_nil_r|]. destruct r2 as [|b r2]; [by rewrite app_nil_r|].
  simpl. rewrite !seg_app. tauto.
Qed.

Lemma last_cons_snoc (a x : nat) l : last (a :: l ++ [x]) = Some x.
Proof. apply (last_snoc x (a :: l)). Qed.

(** The first node of a non-empty ring and its last one are neighbours. *)
Lemma ring_ends h r p q : ring h r -> last r = Some p -> head r = Some q ->
  nxt h p = Some q /\ prv h q = Some p.
Proof.
  destruct r as [|a r]; [done|]. simpl. intros Hs Hl [= ->].
  destruct r as [|x r _] using rev_ind; [by injection Hl as ->|].
  rewrite last_cons_snoc in Hl. injection Hl as ->. by apply seg_app in Hs as [_ [? ?]].
Qed.

(** The ring is broken between its last node [p] and its first node [q]. *)
Lemma ring_open h h' r p q :
  ring h r -> NoDup r -> last r = Some p -> head r = Some q ->
  (forall x, x ∈ r -> x <> p -> nxt h' x = nxt h x) ->
  (forall x, x ∈ r -> x <> q -> prv h' x = prv h x) ->
  p = q /\ r = [q] \/ exists r1, r = q :: r1 ++ [p] /\ seg h' q r1 p.
Proof.
  destruct r as [|a r]; [done|]. intros Hs Hnd Hl [= ->] Hn Hp.
  destruct r as [|x r1 _] using rev_ind; [injection Hl as ->; by left|right].
  rewrite last_cons_snoc in Hl. injection Hl as ->. exists r1. split; [done|].
  apply seg_app in Hs as [Hs _]. apply NoDup_cons in Hnd as [Hq Hnd].
  apply NoDup_app in Hnd as (_ & Hr & _). apply not_elem_of_app in Hq as [Hq1 Hq2].
  eapply seg_frame; [exact Hs|..].
  - intros x Hx. apply Hn; [set_solver|]. intros ->. apply elem_of_cons in Hx as [->|Hx]; [set_solver|].
    apply (Hr p Hx). set_solver.
  - intros x [->|Hx]; apply Hp; set_solver.
Qed.

(** Closing it again with a node [n] in between, or without one. *)
Lemma ring_insert h h' r p q n :
  ring h r -> NoDup r -> last r = Some p -> head r = Some q ->
  (forall x, x ∈ r -> x <> p -> nxt h' x = nxt h x) ->
  (forall x, x ∈ r -> x <> q -> prv h' x = prv h x) ->
  nxt h' p = Some n -> prv h' n = Some p -> nxt h' n = Some q -> prv h' q = Some n ->
  ring h' (r ++ [n]).
Proof.
  intros Hs Hnd Hl Hh Hn Hp ????.
  destruct (ring_open h h' r p q Hs Hnd Hl Hh Hn Hp) as [[-> ->]|(r1 & -> & Hseg)].
  { simpl. by split_and!. }
  simpl. rewrite <- app_assoc. simpl. apply seg_app. simpl. by split_and!.
Qed.

Lemma ring_remove h h' r p q n :
  ring h (r ++ [n]) -> NoDup (r ++ [n]) -> last r = Some p -> head r = Some q ->
  (forall x, x ∈ r -> x <> p -> nxt h' x = nxt h x) ->
  (forall x, x ∈ r -> x <> q -> prv h' x = prv h x) ->
  nxt h' p = Some q -> prv h' q = Some p -> ring h' r.
Proof.
  intros Hs Hnd Hl Hh Hn Hp ??. destruct r as [|a r]; [done|]. injection Hh as ->.
  simpl in Hs. destruct r as [|x r1 _] using rev_ind.
  { by injection Hl as ->. }
  rewrite last_cons_snoc in Hl. injection Hl as ->. rewrite <- app_assoc in Hs. simpl in Hs.
  apply seg_app in Hs as [Hs _]. apply seg_app. split; [|done].
  simpl in Hnd. rewrite <- app_assoc in Hnd. apply NoDup_cons in Hnd as [Hq Hnd].
  apply NoDup_app in Hnd as (_ & Hr & _). apply not_elem_of_app in Hq as [Hq1 Hq2].
  eapply seg_frame; [exact Hs|..].
  - intros x Hx. apply Hn; [set_solver|]. intros ->. apply elem_of_cons in Hx as [->|Hx]; [set_solver|].
    apply (Hr p Hx). set_solver.
  - intros x [->|Hx]; apply Hp; set_solver.
Qed.

(** *** The two pointer operations *)

(** The store after a change of one link. *)
Definition put_next (h : nodes) (a : nat) (v : node_ptr) : nodes :=
  alter (fun n => Node (n_prev n) v) a h.
Definition put_prev (h : nodes) (a : nat) (v : node_ptr) : nodes :=
  alter (fun n => Node v (n_next n)) a h.

Lemma set_next_run h a v : is_Some (h !! a) -> set_next (Some a) v h = Some (tt, put_next h a v).
Proof.
  intros [n Hn]. unfold set_next, put_next. simpl. rewrite Hn. simpl. do 2 f_equal.
  apply map_eq. intros i. rewrite lookup_alter, lookup_insert. case_decide; [|done].
  subst. by rewrite Hn.
Qed.

Lemma set_prev_run h a v : is_Some (h !! a) -> set_prev (Some a) v h = Some (tt, put_prev h a v).
Proof.
  intros [n Hn]. unfold set_prev, put_prev. simpl. rewrite Hn. simpl. do 2 f_equal.
  apply map_eq. intros i. rewrite lookup_alter, lookup_insert. case_decide; [|done].
  subst. by rewrite Hn.
Qed.

Lemma get_next_run h a p : nxt h a = Some p -> get_next (Some a) h = Some (Some p, h).
Proof.
  unfold nxt, get_next, get_node, mbind, L_bind. simpl. destruct (h !! a); [|done]. simpl. by intros ->.
Qed.

Lemma get_prev_run h a p : prv h a = Some p -> get_prev (Some a) h = Some (Some p, h).
Proof.
  unfold prv, get_prev, get_node, mbind, L_bind. simpl. destruct (h !! a); [|done]. simpl. by intros ->.
Qed.

(** The same nodes are live, and each link is what was last put there. *)
Lemma put_next_live h a v x : is_Some (put_next h a v !! x) <-> is_Some (h !! x).
Proof. unfold put_next. apply lookup_alter_is_Some. Qed.
Lemma put_prev_live h a v x : is_Some (put_prev h a v !! x) <-> is_Some (h !! x).
Proof. unfold put_prev. apply lookup_alter_is_Some. Qed.

Lemma put_links h a v x :
  is_Some (h !! a) ->
  nxt (put_next h a v) x = (if decide (x = a) then v else nxt h x) /\
  prv (put_next h a v) x = prv h x /\
  prv (put_prev h a v) x = (if decide (x = a) then v else prv h x) /\
  nxt (put_prev h a v) x = nxt h x.
Proof.
  intros [n Hn]. unfold nxt, prv, put_next, put_prev. rewrite !lookup_alter.
  split_and!; repeat case_decide; subst; rewrite ?Hn; try done.
Qed.

Lemma nxt_put_next h a v x :
  is_Some (h !! a) -> nxt (put_next h a v) x = if decide (x = a) then v else nxt h x.
Proof. intros Ha. apply (put_links h a v x Ha). Qed.
Lemma prv_put_next h a v x : is_Some (h !! a) -> prv (put_next h a v) x = prv h x.
Proof. intros Ha. apply (put_links h a v x Ha). Qed.
Lemma prv_put_prev h a v x :
  is_Some (h !! a) -> prv (put_prev h a v) x = if decide (x = a) then v else prv h x.
Proof. intros Ha. apply (put_links h a v x Ha). Qed.
Lemma nxt_put_prev h a v x : is_Some (h !! a) -> nxt (put_prev h a v) x = nxt h x.
Proof. intros Ha. apply (put_links h a v x Ha). Qed.

(** The store [h'] has the nodes of [h]; the links into and out of [p], [n]
    and [q] apart, it has the links of [h]. *)
Record relinked (h h' : nodes) (p n q : nat) : Prop := {
  rl_nxt x : x <> p -> x <> n -> nxt h' x = nxt h x;
  rl_prv x : x <> q -> x <> n -> prv h' x = prv h x;
  rl_live x : is_Some (h' !! x) <-> is_Some (h !! x);
  rl_size : size h' = size h
}.

Lemma put_next_size h a v : size (put_next h a v) = size h.
Proof. unfold put_next. by rewrite <- !size_dom, dom_alter_L. Qed.
Lemma put_prev_size h a v : size (put_prev h a v) = size h.
Proof. unfold put_prev. by rewrite <- !size_dom, dom_alter_L. Qed.

(** Links of a store built by link updates. *)
Ltac live := repeat first [rewrite put_next_live | rewrite put_prev_live]; first [done|tauto].
Ltac solve_links :=
  repeat first [ rewrite nxt_put_next by live | rewrite prv_put_next by live
               | rewrite prv_put_prev by live | rewrite nxt_put_prev by live ];
  repeat case_decide; congruence.

Lemma link_between_run h n p q :
  is_Some (h !! n) -> is_Some (h !! p) -> is_Some (h !! q) -> n <> p -> n <> q ->
  exists h', link_between (Some n) (Some p) (Some q) h = Some (tt, h') /\ relinked h h' p n q /\
    nxt h' p = Some n /\ prv h' n = Some p /\ nxt h' n = Some q /\ prv h' q = Some n.
Proof.
  intros Hn Hp Hq Hnp Hnq. eexists. split.
  { unfold link_between, mbind, L_bind. rewrite set_prev_run by done.
    rewrite set_next_run by live. rewrite set_next_run by live. by rewrite set_prev_run by live. }
  split_and!; [split|..]; intros; try solve_links; [live|].
  by repeat rewrite ?put_next_size, ?put_prev_size.
Qed.

Lemma unlink_run h n p q :
  is_Some (h !! n) -> is_Some (h !! p) -> is_Some (h !! q) -> n <> p -> n <> q ->
  prv h n = Some p -> nxt h n = Some q ->
  exists h', unlink (Some n) h = Some (tt, h') /\ relinked h h' p n q /\
    nxt h' p = Some q /\ prv h' q = Some p /\ nxt h' n = None /\ prv h' n = None.
Proof.
  intros Hn Hp Hq Hnp Hnq Ep En. eexists. split.
  { unfold unlink, mbind, L_bind. rewrite (get_prev_run _ _ _ Ep), (get_next_run _ _ _ En).
    rewrite set_next_run by done.
    rewrite (get_next_run _ _ q) by solve_links. rewrite (get_prev_run _ _ p) by solve_links.
    rewrite set_prev_run by live. rewrite set_prev_run by live. by rewrite set_next_run by live. }
  split_and!; [split|..]; intros; try solve_links; [live|].
  by repeat rewrite ?put_next_size, ?put_prev_size.
Qed.

(** *** Insertion and removal at any place *)

Lemma list_rep_length h s xs : list_rep h s xs -> zlen xs + 1 <= Z.of_nat (size h).
Proof.
  intros [_ Hnd Hl _]. assert (length (s :: xs) <= size (dom h))%nat as Hle.
  { rewrite <- (size_list_to_set (C := gset nat) (s :: xs)) by done. apply subseteq_size.
    intros a Ha. apply elem_of_list_to_set in Ha. apply elem_of_dom. auto. }
  rewrite size_dom in Hle. unfold zlen. simpl in Hle. lia.
Qed.

Lemma rotated_ends (s : nat) (xs ys : list nat) : exists p q,
  last (ys ++ s :: xs) = Some p /\ head (ys ++ s :: xs) = Some q /\
  p = default s (last xs) /\ q = default s (head ys).
Proof.
  exists (default s (last xs)), (default s (head ys)). split_and!; auto; [|by destruct ys].
  rewrite last_app_cons. rewrite last_cons. by destruct (last xs).
Qed.

Lemma rotate_perm (s : nat) xs ys : ys ++ s :: xs ≡ₚ s :: xs ++ ys.
Proof. rewrite Permutation_app_comm. done. Qed.

Lemma list_insert h s xs ys n p q :
  list_rep h s (xs ++ ys) -> is_Some (h !! n) -> n ∉ s :: xs ++ ys ->
  last (ys ++ s :: xs) = Some p -> head (ys ++ s :: xs) = Some q ->
  exists h', link_between (Some n) (Some p) (Some q) h = Some (tt, h') /\
    list_rep h' s (xs ++ n :: ys) /\ relinked h h' p n q.
Proof.
  intros [Hs Hnd Hl Hsz] Hn Hni Hp Hq. pose proof (rotate_perm s xs ys) as HP.
  assert (p ∈ s :: xs ++ ys /\ q ∈ s :: xs ++ ys) as [Hpi Hqi].
  { rewrite <- HP. split; [by apply last_Some_elem_of|]. destruct (ys ++ s :: xs); [done|].
    injection Hq as ->. set_solver. }
  destruct (link_between_run h n p q) as (h' & E & Hr & Epn & Enp & Enq & Eqn); auto; [congruence..|].
  exists h'. split_and!; auto.
  assert (ring h' ((ys ++ s :: xs) ++ [n])) as Hring.
  { eapply (ring_insert h h' _ p q n); auto.
    - apply (ring_rotate h (s :: xs) ys), Hs.
    - by rewrite HP.
    - intros x Hx Hne. apply (rl_nxt _ _ _ _ _ Hr); [done|]. rewrite HP in Hx. congruence.
    - intros x Hx Hne. apply (rl_prv _ _ _ _ _ Hr); [done|]. rewrite HP in Hx. congruence. }
  split.
  - rewrite <- app_assoc in Hring. apply ring_rotate in Hring. simpl in Hring.
    by rewrite <- app_assoc in Hring.
  - assert (s :: xs ++ n :: ys ≡ₚ n :: s :: xs ++ ys) as ->.
    { rewrite <- Permutation_middle. apply perm_swap. }
    by constructor.
  - intros a Ha. apply (rl_live _ _ _ _ _ Hr). rewrite <- Permutation_middle in Ha.
    apply elem_of_cons in Ha as [->|Ha]; [apply Hl; set_solver|].
    apply elem_of_cons in Ha as [->|Ha]; [done|apply Hl; set_solver].
  - by rewrite (rl_size _ _ _ _ _ Hr).
Qed.

Lemma list_remove h s xs ys n :
  list_rep h s (xs ++ n :: ys) ->
  exists h' p q, unlink (Some n) h = Some (tt, h') /\ list_rep h' s (xs ++ ys) /\
    relinked h h' p n q /\ nxt h' n = None /\ prv h' n = None.
Proof.
  intros [Hs Hnd Hl Hsz]. destruct (rotated_ends s xs ys) as (p & q & Hp & Hq & _).
  pose proof (rotate_perm s xs ys) as HP.
  assert (s :: xs ++ n :: ys ≡ₚ n :: s :: xs ++ ys) as HP'.
  { rewrite <- Permutation_middle. apply perm_swap. }
  assert (p ∈ s :: xs ++ ys /\ q ∈ s :: xs ++ ys) as [Hpi Hqi].
  { rewrite <- HP. split; [by apply last_Some_elem_of|]. destruct (ys ++ s :: xs); [done|].
    injection Hq as ->. set_solver. }
  rewrite HP' in Hnd. apply NoDup_cons in Hnd as [Hni Hnd].
  assert (forall a, a = n \/ a ∈ s :: xs ++ ys -> is_Some (h !! a)) as Hlive.
  { intros a Ha. apply Hl. rewrite HP'. set_solver. }
  assert (ring h ((ys ++ s :: xs) ++ [n])) as Hring.
  { rewrite <- app_assoc. apply ring_rotate. simpl. by rewrite <- app_assoc. }
  assert (nxt h n = Some q) as En.
  { apply (ring_ends h ((ys ++ s :: xs) ++ [n])); auto; [by rewrite last_snoc|].
    by destruct ys. }
  assert (prv h n = Some p) as Ep.
  { apply ring_rotate in Hring. apply (ring_ends h ([n] ++ ys ++ s :: xs)); auto.
    rewrite last_app, Hp. done. }
  destruct (unlink_run h n p q) as (h' & E & Hr & Epq & Eqp & E1 & E2); auto; [congruence..|].
  exists h', p, q. split_and!; auto. split; auto.
  - apply (ring_rotate h' ys (s :: xs)).
    eapply (ring_remove h h' (ys ++ s :: xs) p q n); auto.
    + rewrite HP. apply NoDup_app. split_and!; [done| |by repeat constructor; set_solver].
      intros x Hx ->%list_elem_of_singleton. done.
    + intros x Hx Hne. apply (rl_nxt _ _ _ _ _ Hr); [done|]. rewrite HP in Hx. congruence.
    + intros x Hx Hne. apply (rl_prv _ _ _ _ _ Hr); [done|]. rewrite HP in Hx. congruence.
  - intros a Ha. apply (rl_live _ _ _ _ _ Hr). auto.
  - by rewrite (rl_size _ _ _ _ _ Hr).
Qed.

(** ** The operations on lists of addresses *)

(** The list [l] holds the nodes [xs]. *)
Definition lrep (h : nodes) (l : d4np_linked_list) (xs : list nat) : Prop :=
  list_rep h (l_sentinel l) xs /\ l_len l = zlen xs.

(** The same nodes are live in both stores. *)
Definition same_live (h h' : nodes) : Prop := forall x, is_Some (h' !! x) <-> is_Some (h !! x).

Lemma relinked_live h h' p n q : relinked h h' p n q -> same_live h h'.
Proof. intros Hr x. apply Hr. Qed.

Lemma lrep_len h l xs : lrep h l xs -> 0 <= l_len l < SIZE_MAX.
Proof.
  intros [Hr Hl]. pose proof (list_rep_length _ _ _ Hr). pose proof (lr_size _ _ _ Hr).
  pose proof (zlen_nonneg xs). lia.
Qed.

Lemma list_rep_ends h s xs :
  list_rep h s xs -> nxt h s = Some (default s (head xs)) /\ prv h s = Some (default s (last xs)).
Proof.
  intros [Hs _ _ _]. destruct (rotated_ends s [] xs) as (p & q & Hp & Hq & -> & ->).
  destruct (rotated_ends s xs []) as (p & q & Hp' & Hq' & -> & ->). simpl in *.
  split.
  - apply (ring_rotate h [s] xs) in Hs as Hs'. by destruct (ring_ends _ _ _ _ Hs' Hp Hq).
  - by destruct (ring_ends h (s :: xs) _ _ Hs Hp' Hq').
Qed.

Lemma init_rep h l0 :
  is_Some (h !! l_sentinel l0) -> Z.of_nat (size h) <= SIZE_MAX ->
  exists h' l, d4np_linked_list_init (Some l0) h = Some (Some l, h') /\
    l_sentinel l = l_sentinel l0 /\ lrep h' l [] /\ same_live h h'.
Proof.
  intros Hs Hsz. eexists _, _. split.
  { simpl. unfold mbind, L_bind. rewrite set_next_run by done. by rewrite set_prev_run by live. }
  split; [done|]. split; [|intros x; live]. split; [|done]. split; simpl.
  - split; solve_links.
  - repeat constructor. set_solver.
  - intros a ->%list_elem_of_singleton. by live.
  - by rewrite put_prev_size, put_next_size.
Qed.

Lemma push_front_rep h l xs n :
  lrep h l xs -> is_Some (h !! n) -> n ∉ l_sentinel l :: xs ->
  exists h' l', d4np_linked_list_push_front (Some l) (Some n) h = Some (Some l', h') /\
    l_sentinel l' = l_sentinel l /\ lrep h' l' (n :: xs) /\ same_live h h'.
Proof.
  intros Hr Hn Hni. pose proof (lrep_len _ _ _ Hr). destruct Hr as [Hr Hl].
  destruct (list_rep_ends _ _ _ Hr) as [En _].
  destruct (rotated_ends (l_sentinel l) [] xs) as (p & q & Hp & Hq & -> & ->).
  destruct (list_insert h (l_sentinel l) [] xs n _ _ Hr Hn Hni Hp Hq) as (h' & E & Hr' & Hrl).
  simpl in *. unfold mbind, L_bind. rewrite (get_next_run _ _ _ En), E. eexists _, _. split; [done|].
  split; [done|]. split; [|by eapply relinked_live]. split; [done|]. simpl.
  rewrite size_add_small by size_lia. rewrite zlen_cons. lia.
Qed.

Lemma push_back_rep h l xs n :
  lrep h l xs -> is_Some (h !! n) -> n ∉ l_sentinel l :: xs ->
  exists h' l', d4np_linked_list_push_back (Some l) (Some n) h = Some (Some l', h') /\
    l_sentinel l' = l_sentinel l /\ lrep h' l' (xs ++ [n]) /\ same_live h h'.
Proof.
  intros Hr Hn Hni. pose proof (lrep_len _ _ _ Hr). destruct Hr as [Hr Hl].
  destruct (list_rep_ends _ _ _ Hr) as [_ Ep].
  destruct (rotated_ends (l_sentinel l) xs []) as (p & q & Hp & Hq & -> & ->).
  rewrite <- (app_nil_r xs) in Hr, Hni at 1.
  destruct (list_insert h (l_sentinel l) xs [] n _ _ Hr Hn Hni Hp Hq) as (h' & E & Hr' & Hrl).
  simpl in *. unfold mbind, L_bind. rewrite (get_prev_run _ _ _ Ep), E. eexists _, _. split; [done|].
  split; [done|]. split; [|by eapply relinked_live]. split; [done|]. simpl.
  rewrite size_add_small by size_lia. rewrite zlen_app, zlen_cons, zlen_nil. lia.
Qed.

(** Taking the node [n] out, as the pops and [remove] do. *)
Lemma unlink_rep h l xs ys n :
  lrep h l (xs ++ n :: ys) ->
  exists h', unlink (Some n) h = Some (tt, h') /\
    lrep h' (List (l_sentinel l) (l_len l ⊟ 1)) (xs ++ ys) /\ same_live h h' /\
    nxt h' n = None /\ prv h' n = None /\ l_len l <> 0.
Proof.
  intros Hr. pose proof (lrep_len _ _ _ Hr). destruct Hr as [Hr Hl].
  destruct (list_remove _ _ _ _ _ Hr) as (h' & p & q & E & Hr' & Hrl & E1 & E2).
  rewrite zlen_app, zlen_cons in Hl. pose proof (zlen_nonneg xs). pose proof (zlen_nonneg ys).
  exists h'. split_and!; eauto using relinked_live; [|lia]. split; [done|]. simpl.
  rewrite size_sub_small by size_lia. rewrite zlen_app. lia.
Qed.

Lemma for_each_spec h s xs a k :
  seg h a xs s -> s ∉ xs ->
  for_each (length xs + 1 + k) (nxt h a) s h = Some (xs, h).
Proof.
  revert a. induction xs as [|x xs IH]; intros a; simpl.
  - intros [-> _] _. by rewrite decide_True by done.
  - intros (-> & _ & Hs) Hn. apply not_elem_of_cons in Hn as [Hne Hn].
    rewrite decide_False by congruence. unfold mbind, L_bind.
    assert (exists y, nxt h x = Some y) as [y Ey] by (destruct xs as [|z xs]; [exists s|exists z]; apply Hs).
    rewrite (get_next_run _ _ _ Ey), <- Ey. rewrite IH by done. done.
Qed.

(** ** Programs *)

Inductive lop :=
  | LPushFront (n : nat)
  | LPushBack (n : nat)
  | LPopFront
  | LPopBack
  | LRemove (n : nat)
  | LFront
  | LBack.

Definition with_list {A} (ol : option d4np_linked_list) (k : d4np_linked_list -> L A) : L A :=
  match ol with Some l => k l | None => fun _ => None end.

Definition run_op (l : d4np_linked_list) (op : lop) : L (node_ptr * d4np_linked_list) :=
  match op with
  | LPushFront n => ol ← d4np_linked_list_push_front (Some l) (Some n); with_list ol (fun l => mret (None, l))
  | LPushBack n => ol ← d4np_linked_list_push_back (Some l) (Some n); with_list ol (fun l => mret (None, l))
  | LPopFront => '(n, ol) ← d4np_linked_list_pop_front (Some l); with_list ol (fun l => mret (n, l))
  | LPopBack => '(n, ol) ← d4np_linked_list_pop_back (Some l); with_list ol (fun l => mret (n, l))
  | LRemove n => ol ← d4np_linked_list_remove (Some l) (Some n); with_list ol (fun l => mret (None, l))
  | LFront => n ← d4np_linked_list_front (Some l); mret (n, l)
  | LBack => n ← d4np_linked_list_back (Some l); mret (n, l)
  end.

Fixpoint run_ops (l : d4np_linked_list) (ops : list lop) : L (list node_ptr * d4np_linked_list) :=
  match ops with
  | [] => mret ([], l)
  | op :: ops => '(o, l) ← run_op l op; '(os, l) ← run_ops l ops; mret (o :: os, l)
  end.

(** The contract of the header on a list of addresses: a pushed node is live
    and in no place of the list, a removed one is in the list; on an empty
    list [remove] does nothing. *)
Inductive lstep (h : nodes) (s : nat) : list nat -> lop -> node_ptr -> list nat -> Prop :=
  | lstep_push_front xs n :
      is_Some (h !! n) -> n ∉ s :: xs -> lstep h s xs (LPushFront n) None (n :: xs)
  | lstep_push_back xs n :
      is_Some (h !! n) -> n ∉ s :: xs -> lstep h s xs (LPushBack n) None (xs ++ [n])
  | lstep_pop_front xs n : lstep h s (n :: xs) LPopFront (Some n) xs
  | lstep_pop_front_empty : lstep h s [] LPopFront None []
  | lstep_pop_back xs n : lstep h s (xs ++ [n]) LPopBack (Some n) xs
  | lstep_pop_back_empty : lstep h s [] LPopBack None []
  | lstep_remove xs n ys : lstep h s (xs ++ n :: ys) (LRemove n) None (xs ++ ys)
  | lstep_remove_empty n : lstep h s [] (LRemove n) None []
  | lstep_front xs : lstep h s xs LFront (head xs) xs
  | lstep_back xs : lstep h s xs LBack (last xs) xs.

Inductive lsteps (h : nodes) (s : nat) : list nat -> list lop -> list node_ptr -> list nat -> Prop :=
  | lsteps_nil xs : lsteps h s xs [] [] xs
  | lsteps_cons xs op o xs' ops os xs'' :
      lstep h s xs op o xs' -> lsteps h s xs' ops os xs'' -> lsteps h s xs (op :: ops) (o :: os) xs''.

Definition step_ok (h : nodes) (l : d4np_linked_list) (op : lop) (o : node_ptr) (xs' : list nat) : Prop :=
  exists h' l', run_op l op h = Some ((o, l'), h') /\ lrep h' l' xs' /\ same_live h h' /\
    l_sentinel l' = l_sentinel l.

Lemma lrep_empty h l : lrep h l [] -> l_len l =? 0 = true.
Proof. intros [_ ->]. done. Qed.

Lemma same_live_refl h : same_live h h.
Proof. by intros x. Qed.

(** A pop: the node at one end, then [unlink]. *)
Lemma pop_ok h l xs n ys (get : node_ptr -> L node_ptr) :
  lrep h l (xs ++ n :: ys) -> get (Some (l_sentinel l)) h = Some (Some n, h) ->
  exists h' l', ((node ← get (Some (l_sentinel l)); unlink node ;;
                  mret (node, Some (List (l_sentinel l) (l_len l ⊟ 1)))) : L _) h =
      Some ((Some n, Some l'), h') /\ lrep h' l' (xs ++ ys) /\ same_live h h' /\
    l_sentinel l' = l_sentinel l /\ l_len l =? 0 = false.
Proof.
  intros Hr Hg. destruct (unlink_rep _ _ _ _ _ Hr) as (h' & E & Hr' & Hl & _ & _ & Hne).
  exists h', (List (l_sentinel l) (l_len l ⊟ 1)). unfold mbind, L_bind. rewrite Hg, E.
  split_and!; auto. by apply Z.eqb_neq.
Qed.

Lemma run_op_ok h0 h l xs op o xs' :
  lrep h l xs -> same_live h0 h -> lstep h0 (l_sentinel l) xs op o xs' -> step_ok h l op o xs'.
Proof.
  intros Hr Hsl Hs. unfold step_ok.
  destruct Hs as [xs n Hn Hni|xs n Hn Hni|xs n| |xs n| |xs n ys|n|xs|xs];
    cbn [run_op]; unfold mbind at 1, L_bind at 1;
    unfold d4np_linked_list_pop_front, d4np_linked_list_pop_back, d4np_linked_list_remove,
      d4np_linked_list_front, d4np_linked_list_back.
  - apply Hsl in Hn. destruct (push_front_rep h l xs n Hr Hn Hni) as (h' & l' & -> & ? & ? & ?). eauto 6.
  - apply Hsl in Hn. destruct (push_back_rep h l xs n Hr Hn Hni) as (h' & l' & -> & ? & ? & ?). eauto 6.
  - destruct (pop_ok h l [] n xs get_next Hr) as (h' & l' & E & ? & ? & ? & ->).
    { apply get_next_run. by destruct (list_rep_ends _ _ _ (proj1 Hr)). }
    rewrite E. eauto 6.
  - rewrite (lrep_empty _ _ Hr). eauto 6 using same_live_refl.
  - destruct (pop_ok h l xs n [] get_prev Hr) as (h' & l' & E & ? & ? & ? & ->).
    { apply get_prev_run. destruct (list_rep_ends _ _ _ (proj1 Hr)) as [_ ->]. by rewrite last_snoc. }
    rewrite app_nil_r in *. rewrite E. eauto 6.
  - rewrite (lrep_empty _ _ Hr). eauto 6 using same_live_refl.
  - destruct (unlink_rep _ _ _ _ _ Hr) as (h' & E & Hr' & Hl & _ & _ & Hne).
    apply Z.eqb_neq in Hne. rewrite Hne. unfold mbind, L_bind. rewrite E.
    eexists _, _. split_and!; [done|exact Hr'|done|done].
  - rewrite (lrep_empty _ _ Hr). eauto 6 using same_live_refl.
  - pose proof (list_rep_ends _ _ _ (proj1 Hr)) as [En _]. pose proof (proj2 Hr) as Hl.
    exists h, l. split; [|auto using same_live_refl]. rewrite Hl. destruct xs as [|x xs]; [done|].
    rewrite zlen_cons. destruct (Z.eqb_spec (1 + zlen xs) 0); [pose proof (zlen_nonneg xs); lia|].
    by rewrite (get_next_run _ _ _ En).
  - pose proof (list_rep_ends _ _ _ (proj1 Hr)) as [_ Ep]. pose proof (proj2 Hr) as Hl.
    exists h, l. split; [|auto using same_live_refl]. rewrite Hl.
    destruct xs as [|x xs _] using rev_ind; [done|]. rewrite zlen_app. change (zlen [x]) with 1.
    destruct (Z.eqb_spec (zlen xs + 1) 0); [pose proof (zlen_nonneg xs); lia|].
    rewrite (get_prev_run _ _ _ Ep). by rewrite last_snoc.
Qed.

Lemma run_ops_ok h0 s xs ops os xs' :
  lsteps h0 s xs ops os xs' -> forall h l, lrep h l xs -> same_live h0 h -> l_sentinel l = s ->
  exists h' l', run_ops l ops h = Some ((os, l'), h') /\ lrep h' l' xs' /\ l_sentinel l' = s.
Proof.
  induction 1 as [xs|xs op o xs1 ops os xs2 Hs Hss IH]; intros h l Hr Hsl <-; [simpl; eauto|].
  destruct (run_op_ok _ _ _ _ _ _ _ Hr Hsl Hs) as (h1 & l1 & E1 & Hr1 & Hsl1 & Es).
  destruct (IH h1 l1 Hr1) as (h2 & l2 & E2 & Hr2 & Es2); [|done|].
  { intros x. by rewrite (Hsl1 x), (Hsl x). }
  exists h2, l2. simpl. unfold mbind, L_bind. by rewrite E1, E2.
Qed.

(** The structs that embed the nodes [xs] at [offset]. *)
Lemma entries_recovered (xs : list nat) (offset : Z) (structs : list Z) :
  Z.of_nat <$> xs = (fun a => a + offset) <$> structs -> (fun a => D4NP_LIST_ENTRY a offset) <$> xs = structs.
Proof.
  revert structs. induction xs as [|x xs IH]; intros [|a structs] E; simplify_eq/=; [done|].
  f_equal; [unfold D4NP_LIST_ENTRY; lia|auto].
Qed.

(** ** Properties *)

(** C16. Any sequence of list operations that keeps the contract (a pushed node
    is live and not in the list, a removed one is in it) is free of undefined
    behaviour on the circular pointer structure and returns exactly the nodes
    that the same operations on a list of addresses return; afterwards the
    length is right and a forward walk over the links visits exactly the
    nodes of that list, in order, and ends; and [D4NP_LIST_ENTRY] recovers,
    from the nodes the walk visits, the structs they are embedded in. *)
Theorem linked_list_program_refines h l0 ops os xs :
  is_Some (h !! l_sentinel l0) -> Z.of_nat (size h) <= SIZE_MAX ->
  lsteps h (l_sentinel l0) [] ops os xs ->
  exists l h',
    (ol ← d4np_linked_list_init (Some l0); with_list ol (fun l => run_ops l ops)) h =
      Some ((os, l), h') /\
    d4np_linked_list_len (Some l) = zlen xs /\ D4NP_LIST_FOR_EACH l h' = Some (xs, h') /\
    d4np_linked_list_is_empty (Some l) = bool_decide (xs = []) /\
    forall (offset : Z) (structs : list Z), Z.of_nat <$> xs = (fun a => a + offset) <$> structs ->
      (fun a => D4NP_LIST_ENTRY a offset) <$> xs = structs.
Proof.
  intros Hs Hsz Hops. destruct (init_rep h l0 Hs Hsz) as (h1 & l1 & E1 & Es & Hr1 & Hsl).
  destruct (run_ops_ok _ _ _ _ _ _ Hops h1 l1 Hr1 Hsl Es) as (h2 & l2 & E2 & [Hr2 Hl2] & Es2).
  exists l2, h2. unfold mbind, L_bind. rewrite E1. simpl. split_and!; auto.
  - unfold D4NP_LIST_FOR_EACH, mbind, L_bind. destruct (list_rep_ends _ _ _ Hr2) as [En _].
    rewrite (get_next_run _ _ _ En), <- En, Hl2. unfold zlen. rewrite Nat2Z.id, <- (Nat.add_0_r (_ + 1)).
    destruct Hr2 as [Hseg Hnd _ _]. apply NoDup_cons in Hnd as [? _]. by apply for_each_spec.
  - rewrite Hl2. destruct xs; [done|]. rewrite zlen_cons.
    rewrite bool_decide_eq_false_2 by done. apply Z.eqb_neq. pose proof (zlen_nonneg xs). lia.
  - apply entries_recovered.
Qed.

(** *** Witnesses *)

(** A sentinel at address 0 and three nodes. *)
Definition four_nodes : nodes :=
  list_to_map ((fun a => (a, Node None None)) <$> seq 0 4).

Lemma linked_list_program_refines_witness :
  exists l h',
    (ol ← d4np_linked_list_init (Some (List 0 0));
     with_list ol (fun l => run_ops l
       [LPushBack 1; LPushBack 2; LPushFront 3; LRemove 1; LPopBack])) four_nodes =
      Some (([None; None; None; None; Some 2%nat], l), h') /\
    d4np_linked_list_len (Some l) = 1 /\ D4NP_LIST_FOR_EACH l h' = Some ([3%nat], h') /\
    d4np_linked_list_is_empty (Some l) = bool_decide ([3%nat] = []) /\
    forall (offset : Z) (structs : list Z), Z.of_nat <$> [3%nat] = (fun a => a + offset) <$> structs ->
      (fun a => D4NP_LIST_ENTRY a offset) <$> [3%nat] = structs.
Proof.
  apply (linked_list_program_refines four_nodes (List 0 0) _ _ [3%nat]); [by eexists|vm_compute; done|].
  econstructor; [apply lstep_push_back; [by eexists|set_solver]|]. simpl.
  econstructor; [apply lstep_push_back; [by eexists|set_solver]|]. simpl.
  econstructor; [apply lstep_push_front; [by eexists|set_solver]|].
  econstructor; [apply (lstep_remove _ _ [3%nat] 1 [2%nat])|]. simpl.
  econstructor; [apply (lstep_pop_back _ _ [3%nat] 2)|]. constructor.
Defined.

End LinkedList.
