(* ===== verification/RingBuffer.v ===== *)
(** * Ring buffer ([d4np/ds/ring_buffer.h], [ring_buffer.c])

    The single-producer single-consumer queue twice: the operations as
    functions on memory, for one thread, refined to a bounded queue; and the
    steps of a producer and a consumer thread between their atomic accesses,
    with acquire loads that may return old values and a race check on every
    slot access, for which FIFO order and race freedom are proved.  The
    counters are 64-bit and wrap around. *)

From S2P Require Import Prelude Status Memory Allocator.

Local Open Scope Z_scope.

Module RingBuffer.

Definition next_pow2_at_least (n : Z) : option Z := grow_pow2 65 1 n.

Record d4np_ring_buffer := Ring {
  r_allocator : option d4np_allocator;
  r_buffer : ptr;
  r_elem_size : Z;
  r_capacity : Z;
  r_mask : Z;
  r_head : Z;
  r_tail : Z
}.

Section code.
Context `{!Libc}.

Definition d4np_ring_buffer_init (rb : option d4np_ring_buffer) (allocator : option d4np_allocator)
    (elem_size capacity : Z) : M (d4np_status * option d4np_ring_buffer) :=
  match rb with
  | None => mret (D4NP_ERR_INVALID_ARGUMENT, None)
  | Some rb =>
      if (elem_size =? 0) || (capacity =? 0) then mret (D4NP_ERR_INVALID_ARGUMENT, Some rb)
      else
        let allocator := Some (resolve allocator) in
        cap ← lift_opt (next_pow2_at_least capacity);
        max ← size_div SIZE_MAX elem_size;
        if max <? cap then mret (D4NP_ERR_OVERFLOW, Some rb)
        else
          buffer ← d4np_alloc allocator (cap ⊠ elem_size) MAX_ALIGN;
          if is_null buffer then mret (D4NP_ERR_OUT_OF_MEMORY, Some rb)
          else mret (D4NP_OK, Some (Ring allocator buffer elem_size cap (cap ⊟ 1) 0 0))
  end.

Definition d4np_ring_buffer_destroy (rb : option d4np_ring_buffer) : M (option d4np_ring_buffer) :=
  match rb with
  | None => mret None
  | Some rb =>
      if is_null (r_buffer rb) then mret (Some rb)
      else
        d4np_free (r_allocator rb) (r_buffer rb) (r_capacity rb ⊠ r_elem_size rb) ;;
        mret (Some (Ring (r_allocator rb) Null 0 0 0 0 0))
  end.

Definition set_tail (rb : d4np_ring_buffer) (t : Z) : d4np_ring_buffer :=
  Ring (r_allocator rb) (r_buffer rb) (r_elem_size rb) (r_capacity rb) (r_mask rb) (r_head rb) t.
Definition set_head (rb : d4np_ring_buffer) (h : Z) : d4np_ring_buffer :=
  Ring (r_allocator rb) (r_buffer rb) (r_elem_size rb) (r_capacity rb) (r_mask rb) h (r_tail rb).

Definition d4np_ring_buffer_push (rb : option d4np_ring_buffer) (elem : ptr)
  : M (bool * option d4np_ring_buffer) :=
  match rb with
  | None => mret (false, None)
  | Some rb =>
      if is_null elem then mret (false, Some rb)
      else
        let tail := r_tail rb in
        let head := r_head rb in
        if tail ⊟ head =? r_capacity rb then mret (false, Some rb)
        else
          memcpy (padd (r_buffer rb) (Z.land tail (r_mask rb) ⊠ r_elem_size rb)) elem (r_elem_size rb) ;;
          mret (true, Some (set_tail rb (tail ⊞ 1)))
  end.

Definition d4np_ring_buffer_pop (rb : option d4np_ring_buffer) (out : ptr)
  : M (bool * option d4np_ring_buffer) :=
  match rb with
  | None => mret (false, None)
  | Some rb =>
      let head := r_head rb in
      let tail := r_tail rb in
      if head =? tail then mret (false, Some rb)
      else
        (if is_null out then mret tt
         else memcpy out (padd (r_buffer rb) (Z.land head (r_mask rb) ⊠ r_elem_size rb)) (r_elem_size rb)) ;;
        mret (true, Some (set_head rb (head ⊞ 1)))
  end.

End code.

Definition d4np_ring_buffer_count (rb : option d4np_ring_buffer) : Z :=
  match rb with None => 0 | Some rb => r_tail rb ⊟ r_head rb end.

Definition d4np_ring_buffer_is_empty (rb : option d4np_ring_buffer) : bool :=
  d4np_ring_buffer_count rb =? 0.

Definition d4np_ring_buffer_capacity (rb : option d4np_ring_buffer) : Z :=
  match rb with Some rb => r_capacity rb | None => 0 end.

(** ** Counters that wrap

    The counters stand for unbounded ones, taken modulo [2 ^ 64]. *)

Lemma count_diff a b : 0 <= a - b < SIZE_MOD -> wrap a ⊟ wrap b = a - b.
Proof.
  intros H. unfold size_sub, wrap. rewrite <- Zminus_mod. by apply Z.mod_small.
Qed.

Lemma count_eq a b : 0 <= a - b < SIZE_MOD -> wrap a = wrap b <-> a = b.
Proof.
  intros H. split; [|by intros ->]. intros E. pose proof (count_diff a b H) as Hd.
  rewrite E in Hd. unfold size_sub in Hd. rewrite Z.sub_diag in Hd. change (wrap 0) with 0 in Hd. lia.
Qed.

Lemma count_succ a : wrap a ⊞ 1 = wrap (a + 1).
Proof. unfold size_add, wrap. by rewrite Z.add_mod_idemp_l by done. Qed.

Lemma count_slot a cap : is_pow2 cap -> Z.land (wrap a) (cap ⊟ 1) = a mod cap.
Proof.
  intros Hp. pose proof (is_pow2_bound _ Hp). rewrite size_sub_small by size_lia.
  rewrite land_mask by done. by apply wrap_mod_pow2.
Qed.

(** Slots of the elements [hd], [hd + 1], ... are different while fewer than
    the capacity. *)
Lemma slot_inj a b cap : 0 < cap -> a mod cap = b mod cap -> Z.abs (a - b) < cap -> a = b.
Proof.
  intros Hc He Hab. pose proof (Z.div_mod a cap ltac:(lia)). pose proof (Z.div_mod b cap ltac:(lia)).
  assert (a - b = cap * (a / cap - b / cap)) as Hd
    by (rewrite Z.mul_sub_distr_l; lia).
  set (d := a / cap - b / cap) in Hd. assert (d = 0); [|nia].
  destruct (Z.lt_trichotomy d 0) as [?|[?|?]]; [|done|]; nia.
Qed.

(** ** The invariant, for one thread *)

(** In memory [m] the buffer holds [xs], the oldest first; [hd] elements have
    been taken out before. *)
Record ring_rep (m : mem) (rb : d4np_ring_buffer) (hd : Z) (xs : list (list cell)) : Prop := {
  rr_allocator : exists a, r_allocator rb = Some a /\ AllocatorOk a;
  rr_elem_size : 0 < r_elem_size rb;
  rr_pow2 : is_pow2 (r_capacity rb);
  rr_mask : r_mask rb = r_capacity rb ⊟ 1;
  rr_bytes : r_capacity rb * r_elem_size rb <= PTRDIFF_MAX;
  rr_hd : 0 <= hd;
  rr_head : r_head rb = wrap hd;
  rr_tail : r_tail rb = wrap (hd + zlen xs);
  rr_len : zlen xs <= r_capacity rb;
  rr_slots : exists ss, zlen ss = r_capacity rb /\
    arr m (r_buffer rb) (r_elem_size rb) (r_elem_size rb) ss /\
    forall j x, xs !! j = Some x -> ss !! Z.to_nat ((hd + Z.of_nat j) mod r_capacity rb) = Some (Some x)
}.

Definition apart (rb : d4np_ring_buffer) (p : ptr) : Prop :=
  forall b off, p = Ptr b off -> ~ touches [r_buffer rb] b.

Section proofs.
Context `{!Libc}.

Lemma ring_bounds m rb hd xs :
  ring_rep m rb hd xs -> 1 <= r_capacity rb <= 2 ^ 63 /\ 0 <= zlen xs <= r_capacity rb /\
    0 < r_elem_size rb /\ r_capacity rb * r_elem_size rb <= PTRDIFF_MAX.
Proof.
  intros []. pose proof (is_pow2_bound _ rr_pow3). pose proof (zlen_nonneg xs). lia.
Qed.

Lemma ring_count m rb hd xs : ring_rep m rb hd xs -> r_tail rb ⊟ r_head rb = zlen xs.
Proof.
  intros Hr. pose proof (ring_bounds _ _ _ _ Hr). destruct Hr. rewrite rr_head0, rr_tail0.
  rewrite count_diff by size_lia. lia.
Qed.

(** The slot a counter points at. *)
Lemma ring_slot m rb hd xs c :
  ring_rep m rb hd xs ->
  let i := c mod r_capacity rb in
  0 <= i < r_capacity rb /\
  Z.land (wrap c) (r_mask rb) ⊠ r_elem_size rb = Z.of_nat (Z.to_nat i) * r_elem_size rb.
Proof.
  intros Hr. pose proof (ring_bounds _ _ _ _ Hr). destruct Hr. simpl.
  pose proof (Z.mod_pos_bound c (r_capacity rb)). split; [lia|].
  rewrite rr_mask0, count_slot by done. rewrite size_mul_small by size_nia. lia.
Qed.

Lemma ring_push_spec m rb hd xs elem x :
  ring_rep m rb hd xs -> load elem (r_elem_size rb) m = Some (x, m) -> apart rb elem ->
  exists m' rb', d4np_ring_buffer_push (Some rb) elem m =
      Some ((bool_decide (zlen xs < r_capacity rb), Some rb'), m') /\
    only [r_buffer rb] m m' /\ r_buffer rb' = r_buffer rb /\ r_elem_size rb' = r_elem_size rb /\
    r_capacity rb' = r_capacity rb /\
    ring_rep m' rb' hd (if decide (zlen xs < r_capacity rb) then xs ++ [x] else xs).
Proof.
  intros Hr Hl Hap. pose proof (ring_bounds _ _ _ _ Hr) as (? & ? & ? & ?).
  destruct elem as [|eb eo]; [done|]. unfold d4np_ring_buffer_push. cbn [is_null].
  rewrite (ring_count _ _ _ _ Hr). destruct (Z.eqb_spec (zlen xs) (r_capacity rb)) as [Hfull|Hroom].
  { rewrite bool_decide_eq_false_2, decide_False by lia. exists m, rb. split_and!; auto with mem. }
  rewrite bool_decide_eq_true_2, decide_True by lia.
  destruct (rr_slots _ _ _ _ Hr) as (ss & Hss & Harr & Hx).
  destruct (ring_slot _ _ _ _ (hd + zlen xs) Hr) as [Hi Ei]. rewrite (rr_tail _ _ _ _ Hr), Ei.
  set (i := (hd + zlen xs) mod r_capacity rb) in *.
  destruct (arr_store m (r_buffer rb) (r_elem_size rb) (r_elem_size rb) ss (Z.to_nat i) x (Ptr eb eo))
    as (m' & E & Harr' & Ho); auto; [unfold zlen in Hss; lia|lia|].
  unfold mbind, M_bind. rewrite E. exists m', (set_tail rb (wrap (hd + zlen xs) ⊞ 1)).
  split; [done|]. split_and!; auto. destruct Hr. split; simpl; auto.
  - rewrite count_succ. f_equal. rewrite zlen_app, zlen_cons, zlen_nil. lia.
  - rewrite zlen_app, zlen_cons, zlen_nil. lia.
  - exists (<[Z.to_nat i := Some x]> ss). split_and!; auto; [unfold zlen; by rewrite length_insert|].
    intros j y Hj. apply lookup_snoc_Some in Hj as [[Hlt Hj]|[-> ->]].
    + rewrite list_lookup_insert_ne; [auto|]. intros E'. unfold zlen in *.
      assert (hd + Z.of_nat (length xs) = hd + Z.of_nat j); [|lia].
      apply (slot_inj _ _ (r_capacity rb)); [lia| |lia].
      pose proof (Z.mod_pos_bound (hd + Z.of_nat j) (r_capacity rb)). unfold i in *. lia.
    + apply list_lookup_insert_eq. unfold zlen in Hss. lia.
Qed.

Lemma ring_pop_spec m rb hd xs out :
  ring_rep m rb hd xs -> (valid m out (r_elem_size rb) /\ apart rb out) ->
  exists m' rb', d4np_ring_buffer_pop (Some rb) out m =
      Some ((bool_decide (xs <> []), Some rb'), m') /\
    only [out] m m' /\ r_buffer rb' = r_buffer rb /\ r_elem_size rb' = r_elem_size rb /\
    r_capacity rb' = r_capacity rb /\
    match xs with
    | [] => m' = m /\ ring_rep m' rb' hd []
    | x :: xs => ring_rep m' rb' (hd + 1) xs /\ load out (r_elem_size rb) m' = Some (x, m')
    end.
Proof.
  intros Hr [(ob & oo & oblk & -> & Hob & Hoo & Hol) Hap].
  pose proof (ring_bounds _ _ _ _ Hr) as (? & ? & ? & ?).
  unfold d4np_ring_buffer_pop. rewrite (rr_head _ _ _ _ Hr), (rr_tail _ _ _ _ Hr).
  destruct (Z.eqb_spec (wrap hd) (wrap (hd + zlen xs))) as [E|E].
  { symmetry in E. assert (0 <= hd + zlen xs - hd < SIZE_MOD) as Hb by size_lia.
    apply (proj1 (count_eq _ _ Hb)) in E.
    destruct xs as [|y ys]; [|pose proof (zlen_nonneg ys); rewrite zlen_cons in *; lia]. exists m, rb. split_and!; auto with mem. }
  destruct xs as [|x xs]; [by rewrite zlen_nil, Z.add_0_r in E|].
  destruct (rr_slots _ _ _ _ Hr) as (ss & Hss & Harr & Hx).
  destruct (ring_slot _ _ _ _ hd Hr) as [Hi Ei]. rewrite Ei. cbn [is_null].
  assert (load (padd (r_buffer rb) (Z.of_nat (Z.to_nat (hd mod r_capacity rb)) * r_elem_size rb))
    (r_elem_size rb) m = Some (x, m)) as Hl.
  { eapply arr_load; [exact Harr| |lia]. specialize (Hx 0%nat x eq_refl). by rewrite Z.add_0_r in Hx. }
  pose proof (load_inv _ _ _ _ _ Hl) as [_ Hzx]. specialize (Hzx ltac:(lia)).
  assert (memcpy (Ptr ob oo) (padd (r_buffer rb) (Z.of_nat (Z.to_nat (hd mod r_capacity rb)) * r_elem_size rb))
    (r_elem_size rb) m = Some (tt, mem_write ob oo x m)) as Em.
  { unfold memcpy. destruct Harr as (b & blk & Eb & _). rewrite Eb in *. rewrite padd_0.
    rewrite overlap_blocks. 2: { intros ->. apply (Hap b oo eq_refl). rewrite Eb. apply touches_here. }
    unfold mbind, M_bind. rewrite padd_0 in Hl. rewrite Hl. eapply store_run; eauto. lia. }
  unfold mbind, M_bind. rewrite Em. eexists _, _. split; [done|].
  assert (only [Ptr ob oo] m (mem_write ob oo x m)) as Ho by (by eapply only_write, list_elem_of_here).
  split_and!; auto; [|rewrite <- Hzx; eapply load_after_write; eauto; lia].
  destruct Hr. rewrite zlen_cons in *. split; simpl; auto.
  - lia.
  - apply count_succ.
  - rewrite rr_tail0. f_equal. lia.
  - lia.
  - exists ss. split_and!; auto.
    + eapply arr_only; [exact Harr|exact Ho|]. intros b off Eb [o' Hin].
      apply list_elem_of_singleton in Hin as [= <- <-]. apply (Hap b o' eq_refl). rewrite Eb. apply touches_here.
    + intros j y Hj. rewrite <- (Hx (S j) y Hj). do 3 f_equal. lia.
Qed.

Lemma ring_init_spec m rb0 oa es n :
  allocator_arg_ok oa -> 0 < es <= SIZE_MAX -> 0 < n <= SIZE_MAX ->
  wp (d4np_ring_buffer_init (Some rb0) oa es n) m (fun r m' =>
    match r.1 with
    | D4NP_OK => exists rb, r.2 = Some rb /\ ring_rep m' rb 0 [] /\ r_elem_size rb = es /\
        n <= r_capacity rb /\ (r_capacity rb = 1 \/ r_capacity rb < 2 * n) /\
        heap_free (r_buffer rb) (m_heap m') = m_heap m /\
        (forall b, touches [r_buffer rb] b -> m_heap m !! b = None)
    | D4NP_ERR_OVERFLOW | D4NP_ERR_OUT_OF_MEMORY => r.2 = Some rb0 /\ m_heap m' = m_heap m
    | _ => False
    end).
Proof.
  intros Ha Hes Hn. apply resolve_ok in Ha. unfold d4np_ring_buffer_init.
  destruct (Z.eqb_spec es 0); [lia|]. destruct (Z.eqb_spec n 0); [lia|]. cbn [orb].
  destruct (grow_pow2_spec 1 n) as (cap & Ec & Hp & Hc1 & Hle & Hbig); [by exists 0|].
  wp_bind. eapply wp_run; [unfold lift_opt, next_pow2_at_least; by rewrite Ec|].
  wp_bind. eapply wp_run; [apply size_div_run; lia|].
  destruct (Z.ltb_spec (SIZE_MAX / es) cap) as [Ho|Ho]; [by wp_ret|].
  assert (cap * es <= SIZE_MAX) by (apply Z.nlt_ge; intros ?%size_mul_overflow; lia).
  rewrite size_mul_small by size_nia. pose proof (is_pow2_bound _ Hp). wp_bind. unfold d4np_alloc. simpl.
  eapply wp_mono; [apply (ok_alloc m (cap * es) MAX_ALIGN); [nia|by exists 4]|].
  intros p m' Hpost. pose proof (alloc_undo _ _ _ _ _ _ Hpost) as Hundo.
  apply alloc_post_inv in Hpost as [[-> Hh]|(b & -> & Hnone & Hmax & Hown & _)]; [| |nia]; simpl; wp_ret; [done|].
  simpl. eexists. split; [done|]. split_and!; auto.
  - split; simpl; eauto; try lia; [rewrite zlen_nil; lia|].
    exists (replicate (Z.to_nat cap) None). split_and!; [by apply zlen_replicate; lia| |done].
    destruct Hown as (b' & blk & E & Hb & Hz). exists b', blk. split_and!; auto.
    + rewrite zlen_replicate; lia.
    + intros i x [? _]%lookup_replicate. done.
  - destruct (Z.le_gt_cases n (2 ^ 63)); [by apply Hle|]. specialize (Hbig ltac:(lia)). size_nia.
  - destruct (Z.le_gt_cases n (2 ^ 63)); [by apply Hle|]. specialize (Hbig ltac:(lia)). size_nia.
  - intros b' Hb'. simpl in Hb'. by apply touches_singleton in Hb' as ->.
Qed.

Lemma ring_destroy_spec m rb hd xs :
  ring_rep m rb hd xs ->
  wp (d4np_ring_buffer_destroy (Some rb)) m (fun _ m' =>
    m_heap m' = heap_free (r_buffer rb) (m_heap m)).
Proof.
  intros Hr. pose proof (ring_bounds _ _ _ _ Hr) as (? & ? & ? & ?).
  destruct (rr_allocator _ _ _ _ Hr) as (a & Ha & Hok).
  destruct (rr_slots _ _ _ _ Hr) as (ss & Hss & (b & blk & Eb & Hb & Hz & _) & _).
  simpl. rewrite Eb. cbn [is_null]. rewrite Ha, size_mul_small by size_nia. unfold d4np_free. simpl.
  wp_bind. eapply wp_mono; [apply (ok_free m (Ptr b 0)); right|].
  { exists b, blk. split_and!; auto. by rewrite Hz, Hss. }
  intros [] m' Hh. by wp_ret.
Qed.

(** ** Programs of one thread

    The client has one element-sized buffer of its own. *)

Inductive rop :=
  | RPush (x : list cell)
  | RPop
  | RCount.

Inductive rout :=
  | RAccepted (b : bool)
  | RElem (x : option (list cell))
  | RNum (n : Z).

Definition with_ring {A} (o : option d4np_ring_buffer) (k : d4np_ring_buffer -> M A) : M A :=
  match o with Some rb => k rb | None => fault end.

Definition run_op (rb : d4np_ring_buffer) (buf : ptr) (op : rop) : M (rout * d4np_ring_buffer) :=
  match op with
  | RPush x =>
      store buf x ;;
      '(b, o) ← d4np_ring_buffer_push (Some rb) buf; with_ring o (fun rb => mret (RAccepted b, rb))
  | RPop =>
      '(b, o) ← d4np_ring_buffer_pop (Some rb) buf;
      with_ring o (fun rb =>
        if b : bool then x ← load buf (r_elem_size rb); mret (RElem (Some x), rb)
        else mret (RElem None, rb))
  | RCount => mret (RNum (d4np_ring_buffer_count (Some rb)), rb)
  end.

Fixpoint run_ops (rb : d4np_ring_buffer) (buf : ptr) (ops : list rop)
  : M (list rout * d4np_ring_buffer) :=
  match ops with
  | [] => mret ([], rb)
  | op :: ops => '(o, rb) ← run_op rb buf op; '(os, rb) ← run_ops rb buf ops; mret (o :: os, rb)
  end.

(** A bounded queue of [cap] elements, as a function. *)
Definition qstep (cap : Z) (xs : list (list cell)) (op : rop) : rout * list (list cell) :=
  match op with
  | RPush x => if decide (zlen xs < cap) then (RAccepted true, xs ++ [x]) else (RAccepted false, xs)
  | RPop => match xs with [] => (RElem None, []) | x :: xs => (RElem (Some x), xs) end
  | RCount => (RNum (zlen xs), xs)
  end.

Fixpoint qsteps (cap : Z) (xs : list (list cell)) (ops : list rop) : list rout * list (list cell) :=
  match ops with
  | [] => ([], xs)
  | op :: ops =>
      let '(o, xs) := qstep cap xs op in let '(os, xs) := qsteps cap xs ops in (o :: os, xs)
  end.

Definition op_ok (es : Z) (op : rop) : Prop :=
  match op with RPush x => zlen x = es | _ => True end.

Definition ring_client (m : mem) (rb : d4np_ring_buffer) (buf : ptr) (xs : list (list cell)) : Prop :=
  (exists hd, ring_rep m rb hd xs) /\ valid m buf (r_elem_size rb) /\ apart rb buf.

Definition same_ring (rb rb' : d4np_ring_buffer) : Prop :=
  r_buffer rb' = r_buffer rb /\ r_elem_size rb' = r_elem_size rb /\ r_capacity rb' = r_capacity rb.

Lemma ring_rep_only m m' rb hd xs ps :
  ring_rep m rb hd xs -> only ps m m' -> (forall b, touches [r_buffer rb] b -> ~ touches ps b) ->
  ring_rep m' rb hd xs.
Proof.
  intros [] Ho Hn. split; auto. destruct rr_slots0 as (ss & ? & Harr & ?). exists ss. split_and!; auto.
  eapply arr_only; eauto. intros b off E. apply Hn. rewrite E. apply touches_here.
Qed.

Lemma apart_sym rb p b : apart rb p -> touches [r_buffer rb] b -> ~ touches [p] b.
Proof. intros Ha Hb [off Hin]. apply list_elem_of_singleton in Hin. by apply (Ha b off). Qed.

Lemma ring_run_op m rb buf xs op :
  ring_client m rb buf xs -> op_ok (r_elem_size rb) op ->
  exists m' rb', run_op rb buf op m = Some (((qstep (r_capacity rb) xs op).1, rb'), m') /\
    ring_client m' rb' buf (qstep (r_capacity rb) xs op).2 /\ same_ring rb rb' /\
    only [buf; r_buffer rb] m m'.
Proof.
  intros ((hd & Hr) & Hv & Ha) Hop. destruct op as [x| |]; simpl in Hop.
  - pose proof Hv as (b & off & blk & -> & Hb & ? & ?). unfold run_op, mbind, M_bind.
    rewrite (store_run _ _ _ _ _ Hb) by lia. set (m1 := mem_write b off x m).
    assert (only [Ptr b off] m m1) as Ho1 by (by eapply only_write, list_elem_of_here).
    assert (ring_rep m1 rb hd xs) as Hr1 by (eapply ring_rep_only; eauto using apart_sym).
    assert (load (Ptr b off) (r_elem_size rb) m1 = Some (x, m1)) as Hl
      by (rewrite <- Hop; eapply load_after_write; eauto; lia).
    destruct (ring_push_spec m1 rb hd xs _ x Hr1 Hl Ha) as (m2 & rb2 & E & Ho2 & Eb & Ee & Ec & Hr2).
    rewrite E. exists m2, rb2. split; [simpl; case_bool_decide; by rewrite ?decide_True, ?decide_False by done|].
    split; [|split; [done|]].
    + split; [exists hd; simpl; case_decide; done|]. split; [|by intros b' o'; rewrite Eb; apply Ha].
      rewrite Ee. eapply valid_only; [by eapply load_valid|exact Ho2|]. intros b' o' E'. by apply (Ha b' o').
    + eapply only_trans; [eapply only_part; [|exact Ho1]|eapply only_part; [|exact Ho2]]; set_solver.
  - destruct (ring_pop_spec m rb hd xs buf Hr (conj Hv Ha)) as (m' & rb' & E & Ho & Eb & Ee & Ec & Hm).
    unfold run_op, mbind, M_bind. rewrite E. simpl. exists m', rb'.
    assert (apart rb' buf) as Ha' by (intros b' o'; rewrite Eb; apply Ha).
    assert (only [buf; r_buffer rb] m m') as Ho' by (eapply only_part; [|exact Ho]; set_solver).
    destruct xs as [|x xs]; simpl; destruct Hm as [Hm Hl].
    + subst m'. split; [done|]. split; [|done]. split; [eauto|]. by rewrite Ee.
    + rewrite Ee, Hl. split; [done|]. split; [|done]. split; [eauto|]. split; [|done].
      rewrite Ee. by eapply load_valid.
  - exists m, rb. split; [simpl; by rewrite (ring_count _ _ _ _ Hr)|].
    split; [split; eauto|]. split; [done|]. apply only_refl.
Qed.

Lemma ring_run_ops m rb buf xs ops :
  ring_client m rb buf xs -> Forall (op_ok (r_elem_size rb)) ops ->
  exists m' rb', run_ops rb buf ops m = Some (((qsteps (r_capacity rb) xs ops).1, rb'), m') /\
    ring_client m' rb' buf (qsteps (r_capacity rb) xs ops).2 /\ same_ring rb rb' /\
    only [buf; r_buffer rb] m m'.
Proof.
  intros Hc Hops. revert m rb xs Hc Hops.
  induction ops as [|op ops IH]; intros m rb xs Hc Hops; simpl.
  { exists m, rb. split; [done|]. split; [done|]. split; [done|]. apply only_refl. }
  apply Forall_cons in Hops as [Hop Hops].
  destruct (ring_run_op m rb buf xs op Hc Hop) as (m1 & rb1 & E1 & Hc1 & (Eb & Ee & Ec) & Ho1).
  rewrite <- Ee in Hops. destruct (IH m1 rb1 _ Hc1 Hops) as (m2 & rb2 & E2 & Hc2 & (Eb2 & Ee2 & Ec2) & Ho2).
  rewrite Ec in *. unfold mbind, M_bind. rewrite E1.
  destruct (qstep (r_capacity rb) xs op) as [o xs1]. simpl in *. rewrite E2.
  destruct (qsteps (r_capacity rb) xs1 ops) as [os xs2]. simpl in *. exists m2, rb2. split; [done|].
  split; [done|]. split; [by split_and!; congruence|]. rewrite Eb in Ho2. by eapply only_trans.
Qed.

(** ** Properties of one thread *)

(** C14. Used from one thread the ring buffer is a bounded FIFO queue: from a
    successful initialisation, which gives the least power of two that is at
    least the requested capacity, any sequence of operations is free of
    undefined behaviour and returns exactly what a queue of that capacity
    returns: push is refused exactly when it is full, pop when it is empty, the
    elements come out in order and unchanged, also when the counters have
    wrapped around.  Destroying it gives the block back. *)
Theorem ring_program_refines m rb0 oa es n buf ops :
  allocator_arg_ok oa -> 0 < es <= SIZE_MAX -> 0 < n <= SIZE_MAX -> valid m buf es ->
  Forall (op_ok es) ops ->
  wp (d4np_ring_buffer_init (Some rb0) oa es n) m (fun r m1 =>
    match r.1 with
    | D4NP_OK =>
        wp (with_ring r.2 (fun rb => '(os, rb') ← run_ops rb buf ops;
              d4np_ring_buffer_destroy (Some rb') ;; mret (r_capacity rb, os))) m1
           (fun '(cap, os) m2 =>
              is_pow2 cap /\ n <= cap /\ (cap = 1 \/ cap < 2 * n) /\ os = (qsteps cap [] ops).1 /\
              only [buf] m m2)
    | D4NP_ERR_OVERFLOW | D4NP_ERR_OUT_OF_MEMORY => m_heap m1 = m_heap m
    | _ => False
    end).
Proof.
  intros Ha Hes Hn Hv Hops. eapply wp_mono; [by apply ring_init_spec|].
  intros [st orb] m1 Hst. simpl in *. destruct st; try done; [|naive_solver..].
  destruct Hst as (rb & -> & Hr & He & Hc1 & Hc2 & Hfree & Hfresh). simpl.
  assert (forall b, ~ touches [r_buffer rb] b -> m_heap m1 !! b = m_heap m !! b) as Hsame.
  { intros b Hb. rewrite <- Hfree. by rewrite heap_free_lookup. }
  destruct Hv as (b & off & blk & -> & Hb & ? & ?).
  assert (~ touches [r_buffer rb] b) as Hnb by (intros ?%Hfresh; congruence).
  assert (ring_client m1 rb (Ptr b off) []) as Hc.
  { split; [eauto|]. split; [|by intros ? ? [= <- <-]]. exists b, off, blk. rewrite He, Hsame by done. done. }
  rewrite <- He in Hops.
  destruct (ring_run_ops m1 rb (Ptr b off) [] ops Hc Hops) as (m2 & rb2 & E2 & Hc2' & (Eb2 & _) & Ho2).
  destruct Hc2' as ((hd & Hr2) & _). wp_bind. eapply wp_run; [exact E2|].
  wp_bind. eapply wp_mono; [by eapply ring_destroy_spec|]. intros ? m3 Hh3. simpl in Hh3. wp_ret.
  split; [apply Hr|]. split_and!; auto. intros x Hx. rewrite Hh3, Eb2.
  destruct (decide (touches [r_buffer rb] x)) as [Ht|Ht].
  - rewrite (Hfresh x Ht). destruct Ht as [o Ho%list_elem_of_singleton]. rewrite <- Ho. simpl. apply lookup_delete_eq.
  - rewrite heap_free_lookup by done. rewrite Ho2; [by apply Hsame|].
    rewrite touches_cons. intros [[o' E']|?]; [|done]. apply Hx. exists o'. rewrite E'. set_solver.
Qed.

End proofs.
(** ** One producer and one consumer

    The threads run [push] and [pop] concurrently.  An atomic counter is its
    modification order, the list of the values stored to it: the thread that
    writes it reads the last one, and an acquire load by the other thread may
    return any entry that is not older than the last one it has seen.  What
    entry [k] publishes is every slot access made before it was stored; a
    thread that touches a slot whose last access by the other thread has not
    been published to it is in a data race. *)

Section spsc.
Context {A : Type} (cap : Z).

(** Where a thread is inside its operation. *)
Inductive producer :=
  | PIdle
  | PTail (x : A)                  (* about to load tail *)
  | PHead (x : A) (tail : Z)       (* about to load head *)
  | PWrite (x : A) (tail : Z)      (* about to copy the element in *)
  | PPublish (x : A) (tail : Z).   (* about to store tail + 1 *)

Inductive consumer :=
  | CIdle
  | CHead                          (* about to load head *)
  | CTail (head : Z)               (* about to load tail *)
  | CRead (head : Z)               (* about to copy the element out *)
  | CPublish (x : A) (head : Z).   (* about to store head + 1 *)

Record state := State {
  tails : list Z;                  (* modification order of tail *)
  heads : list Z;                  (* modification order of head *)
  slots : gmap Z (A * nat);        (* contents, and how many stores to tail came before *)
  readers : gmap Z nat;            (* last read: how many stores to head came before *)
  p_pc : producer;
  c_pc : consumer;
  p_seen : nat;                    (* newest entry of heads the producer has seen *)
  c_seen : nat;                    (* newest entry of tails the consumer has seen *)
  pushed : list A;                 (* elements of the pushes that returned true *)
  popped : list A                  (* elements of the pops that returned true *)
}.

Definition initial : state := State [0] [0] ∅ ∅ PIdle CIdle 0 0 [] [].

Inductive event := EPush (x : A) (ok : bool) | EPop (o : option A) | ETau | ERace.

(** The slot of a counter value: [tail & mask]. *)
Definition slot_of (c : Z) : Z := Z.land c (cap ⊟ 1).

Inductive step : state -> event -> state -> Prop :=
  | step_push_call s x :
      p_pc s = PIdle ->
      step s ETau (State (tails s) (heads s) (slots s) (readers s) (PTail x) (c_pc s)
                         (p_seen s) (c_seen s) (pushed s) (popped s))
  | step_push_tail s x t :
      p_pc s = PTail x -> last (tails s) = Some t ->
      step s ETau (State (tails s) (heads s) (slots s) (readers s) (PHead x t) (c_pc s)
                         (p_seen s) (c_seen s) (pushed s) (popped s))
  | step_push_full s x t k h :
      p_pc s = PHead x t -> (p_seen s <= k)%nat -> heads s !! k = Some h -> t ⊟ h = cap ->
      step s (EPush x false) (State (tails s) (heads s) (slots s) (readers s) PIdle (c_pc s)
                                    k (c_seen s) (pushed s) (popped s))
  | step_push_room s x t k h :
      p_pc s = PHead x t -> (p_seen s <= k)%nat -> heads s !! k = Some h -> t ⊟ h <> cap ->
      step s ETau (State (tails s) (heads s) (slots s) (readers s) (PWrite x t) (c_pc s)
                         k (c_seen s) (pushed s) (popped s))
  | step_push_write s x t :
      p_pc s = PWrite x t ->
      (forall q, readers s !! slot_of t = Some q -> (q < p_seen s)%nat) ->
      step s ETau (State (tails s) (heads s)
                         (<[slot_of t := (x, length (tails s) - 1)%nat]> (slots s)) (readers s)
                         (PPublish x t) (c_pc s) (p_seen s) (c_seen s) (pushed s) (popped s))
  | step_push_race s x t q :
      p_pc s = PWrite x t -> readers s !! slot_of t = Some q -> (p_seen s <= q)%nat ->
      step s ERace s
  | step_push_publish s x t :
      p_pc s = PPublish x t ->
      step s (EPush x true) (State (tails s ++ [t ⊞ 1]) (heads s) (slots s) (readers s) PIdle (c_pc s)
                                   (p_seen s) (c_seen s) (pushed s ++ [x]) (popped s))
  | step_pop_call s :
      c_pc s = CIdle ->
      step s ETau (State (tails s) (heads s) (slots s) (readers s) (p_pc s) CHead
                         (p_seen s) (c_seen s) (pushed s) (popped s))
  | step_pop_head s h :
      c_pc s = CHead -> last (heads s) = Some h ->
      step s ETau (State (tails s) (heads s) (slots s) (readers s) (p_pc s) (CTail h)
                         (p_seen s) (c_seen s) (pushed s) (popped s))
  | step_pop_empty s h k t :
      c_pc s = CTail h -> (c_seen s <= k)%nat -> tails s !! k = Some t -> h = t ->
      step s (EPop None) (State (tails s) (heads s) (slots s) (readers s) (p_pc s) CIdle
                                (p_seen s) k (pushed s) (popped s))
  | step_pop_some s h k t :
      c_pc s = CTail h -> (c_seen s <= k)%nat -> tails s !! k = Some t -> h <> t ->
      step s ETau (State (tails s) (heads s) (slots s) (readers s) (p_pc s) (CRead h)
                         (p_seen s) k (pushed s) (popped s))
  | step_pop_read s h x w :
      c_pc s = CRead h -> slots s !! slot_of h = Some (x, w) -> (w < c_seen s)%nat ->
      step s ETau (State (tails s) (heads s) (slots s)
                         (<[slot_of h := (length (heads s) - 1)%nat]> (readers s)) (p_pc s)
                         (CPublish x h) (p_seen s) (c_seen s) (pushed s) (popped s))
  | step_pop_discard s h x w :                       (* out == NULL: the element is not read *)
      c_pc s = CRead h -> slots s !! slot_of h = Some (x, w) ->
      step s ETau (State (tails s) (heads s) (slots s) (readers s) (p_pc s)
                         (CPublish x h) (p_seen s) (c_seen s) (pushed s) (popped s))
  | step_pop_race s h :
      c_pc s = CRead h ->
      (forall x w, slots s !! slot_of h = Some (x, w) -> (c_seen s <= w)%nat) ->
      step s ERace s
  | step_pop_publish s x h :
      c_pc s = CPublish x h ->
      step s (EPop (Some x)) (State (tails s) (heads s ++ [h ⊞ 1]) (slots s) (readers s) (p_pc s) CIdle
                                    (p_seen s) (c_seen s) (pushed s) (popped s ++ [x])).

Inductive reachable : state -> Prop :=
  | reachable_init : reachable initial
  | reachable_step s e s' : reachable s -> step s e s' -> reachable s'.

(** *** The invariant *)

(** The first [n + 1] values of a counter. *)
Definition counts (n : nat) : list Z := (fun k => wrap (Z.of_nat k)) <$> seq 0 (S n).

Definition slot_n (n : nat) : Z := Z.of_nat n mod cap.

Definition p_ok (s : state) : Prop :=
  let n := length (pushed s) in
  match p_pc s with
  | PIdle | PTail _ => True
  | PHead _ t => t = wrap (Z.of_nat n)
  | PWrite _ t => t = wrap (Z.of_nat n) /\ Z.of_nat n < Z.of_nat (p_seen s) + cap
  | PPublish x t => t = wrap (Z.of_nat n) /\ Z.of_nat n < Z.of_nat (p_seen s) + cap /\
      slots s !! slot_n n = Some (x, n)
  end.

Definition c_ok (s : state) : Prop :=
  let r := length (popped s) in
  match c_pc s with
  | CIdle | CHead => True
  | CTail h => h = wrap (Z.of_nat r)
  | CRead h => h = wrap (Z.of_nat r) /\ (r < c_seen s)%nat
  | CPublish x h => h = wrap (Z.of_nat r) /\ (r < c_seen s)%nat /\ pushed s !! r = Some x
  end.

Record inv (s : state) : Prop := {
  i_tails : tails s = counts (length (pushed s));
  i_heads : heads s = counts (length (popped s));
  i_p_seen : (p_seen s <= length (popped s))%nat;
  i_c_seen : (length (popped s) <= c_seen s <= length (pushed s))%nat;
  i_room : Z.of_nat (length (pushed s)) <= Z.of_nat (p_seen s) + cap;
  i_slots j x : (length (popped s) <= j)%nat -> pushed s !! j = Some x ->
    slots s !! slot_n j = Some (x, j);
  i_readers i q : readers s !! i = Some q ->
    i = slot_n q /\ (q < length (pushed s))%nat /\ (q < length (popped s) \/ q < c_seen s)%nat;
  i_fifo : popped s `prefix_of` pushed s;
  i_p : p_ok s;
  i_c : c_ok s
}.

Hypothesis cap_pow2 : is_pow2 cap.

Lemma counts_lookup n k c : counts n !! k = Some c -> (k <= n)%nat /\ c = wrap (Z.of_nat k).
Proof.
  unfold counts. rewrite list_lookup_fmap. intros H. apply fmap_Some in H as (j & Hj & ->).
  apply lookup_seq in Hj. split; [lia|]. by replace j with k by lia.
Qed.

Lemma counts_last n : last (counts n) = Some (wrap (Z.of_nat n)).
Proof. unfold counts. rewrite seq_S, fmap_app. apply last_snoc. Qed.

Lemma counts_length n : length (counts n) = S n.
Proof. unfold counts. by rewrite length_fmap, length_seq. Qed.

Lemma counts_S n : counts n ++ [wrap (Z.of_nat n) ⊞ 1] = counts (S n).
Proof.
  unfold counts at 2. rewrite (seq_S (S n)), fmap_app. fold (counts n). rewrite count_succ.
  by replace (Z.of_nat n + 1) with (Z.of_nat (0 + S n)) by lia.
Qed.

Lemma slot_of_count n : slot_of (wrap (Z.of_nat n)) = slot_n n.
Proof. unfold slot_of. by rewrite count_slot. Qed.

Lemma slot_n_inj a b :
  slot_n a = slot_n b -> Z.abs (Z.of_nat a - Z.of_nat b) < cap -> a = b.
Proof.
  intros E Hab. pose proof (is_pow2_bound _ cap_pow2).
  assert (Z.of_nat a = Z.of_nat b) by (apply (slot_inj _ _ cap); [lia|done|done]). lia.
Qed.

Lemma ring_inv_initial : inv initial.
Proof.
  pose proof (is_pow2_bound _ cap_pow2). split; simpl; auto; try done; try lia.
Qed.

(** A published element is never overwritten before it has been taken. *)
Lemma write_keeps s x j y :
  inv s -> Z.of_nat (length (pushed s)) < Z.of_nat (p_seen s) + cap ->
  (length (popped s) <= j)%nat -> pushed s !! j = Some y ->
  <[slot_n (length (pushed s)) := (x, length (pushed s))]> (slots s) !! slot_n j = Some (y, j).
Proof.
  intros Hi Hroom Hj Hy. pose proof (lookup_lt_Some _ _ _ Hy). pose proof (i_p_seen _ Hi).
  rewrite lookup_insert_ne; [by apply Hi|]. intros E. apply slot_n_inj in E; lia.
Qed.

(** The element the consumer is about to read. *)
Lemma read_ready s h :
  inv s -> c_pc s = CRead h ->
  exists x, slots s !! slot_of h = Some (x, length (popped s)) /\
    pushed s !! length (popped s) = Some x /\ (length (popped s) < c_seen s)%nat /\
    h = wrap (Z.of_nat (length (popped s))).
Proof.
  intros Hi Hpc. pose proof (i_c _ Hi) as Hc. unfold c_ok in Hc. rewrite Hpc in Hc.
  destruct Hc as [-> Hlt]. pose proof (i_c_seen _ Hi).
  destruct (lookup_lt_is_Some_2 (pushed s) (length (popped s))) as [x Hx]; [lia|].
  exists x. rewrite slot_of_count. split_and!; auto. by apply Hi.
Qed.

(** Every earlier read of the slot the producer is about to write has been
    published to it. *)
Lemma write_ready s x t q :
  inv s -> p_pc s = PWrite x t -> readers s !! slot_of t = Some q -> (q < p_seen s)%nat.
Proof.
  intros Hi Hpc Hq. pose proof (i_p _ Hi) as Hp. unfold p_ok in Hp. rewrite Hpc in Hp.
  destruct Hp as [-> Hroom]. rewrite slot_of_count in Hq.
  destruct (i_readers _ Hi _ _ Hq) as (E & Hlt & _). pose proof (i_p_seen _ Hi). pose proof (i_c_seen _ Hi).
  destruct (decide (q < p_seen s)%nat) as [|Hge]; [done|]. exfalso.
  symmetry in E. apply slot_n_inj in E; lia.
Qed.

Lemma inv_push s e s' :
  inv s -> step s e s' -> c_pc s' = c_pc s -> c_seen s' = c_seen s -> popped s' = popped s ->
  inv s'.
Proof.
  intros Hi Hs. pose proof Hi as [Ht Hh Hps Hcs Hroom Hsl Hrd Hf Hp Hc].
  pose proof (is_pow2_bound _ cap_pow2) as Hcap. unfold p_ok in Hp.
  destruct Hs as [s x Epc|s x t Epc El|s x t k h Epc Hk Eh Ef|s x t k h Epc Hk Eh Ef|s x t Epc Hq
    |s x t q Epc Hq Hle|s x t Epc|s Epc|s h Epc El|s h k t Epc Hk Et Ef|s h k t Epc Hk Et Ef
    |s h x w Epc Hx Hw|s h x w Epc Hx|s h Epc Hx|s x h Epc]; simpl; intros Ec Es Ep;
    try (rewrite Epc in Ec; done); try (rewrite Epc in Hp); try done.
  - split; auto. unfold p_ok. simpl. rewrite Ht, counts_last in El. by injection El as <-.
  - rewrite Hh in Eh. apply counts_lookup in Eh as [Hk' ->]. subst t.
    split; simpl; auto; try done. lia.
  - rewrite Hh in Eh. apply counts_lookup in Eh as [Hk' ->]. subst t.
    rewrite count_diff in Ef by size_lia. split; simpl; auto; [lia|]. unfold p_ok. simpl. split; [done|lia].
  - destruct Hp as [-> Hlt]. rewrite slot_of_count, Ht, counts_length, Nat.sub_succ, Nat.sub_0_r.
    split; simpl; auto.
    + intros j y Hj Hy. by apply write_keeps.
    + unfold p_ok. simpl. split_and!; auto. apply lookup_insert_eq.
  - destruct Hp as (-> & Hlt & Hw). split; simpl; auto; rewrite ?length_app; simpl; try lia.
    + by rewrite Ht, counts_S, Nat.add_1_r.
    + intros j y Hj Hy. apply lookup_snoc_Some in Hy as [[_ Hy]|[-> ->]]; [by apply Hsl|done].
    + intros i q Hq. destruct (Hrd i q Hq) as (? & ? & ?). lia.
    + by apply prefix_app_r.
    + done.
    + unfold c_ok in *. simpl. destruct (c_pc s); auto. destruct Hc as (? & ? & ?).
      split_and!; auto. by apply lookup_app_l_Some.
Qed.

Lemma inv_pop s e s' :
  inv s -> step s e s' -> p_pc s' = p_pc s -> p_seen s' = p_seen s -> pushed s' = pushed s ->
  inv s'.
Proof.
  intros Hi Hs. pose proof Hi as [Ht Hh Hps Hcs Hroom Hsl Hrd Hf Hp Hc].
  pose proof (is_pow2_bound _ cap_pow2) as Hcap. unfold c_ok in Hc.
  destruct Hs as [s x Epc|s x t Epc El|s x t k h Epc Hk Eh Ef|s x t k h Epc Hk Eh Ef|s x t Epc Hq
    |s x t q Epc Hq Hle|s x t Epc|s Epc|s h Epc El|s h k t Epc Hk Et Ef|s h k t Epc Hk Et Ef
    |s h x w Epc Hx Hw|s h x w Epc Hx|s h Epc Hx|s x h Epc]; simpl; intros Ec Es Ep;
    try (rewrite Epc in Ec; done); try (rewrite Epc in Hc); try done.
  - split; auto. unfold c_ok. simpl. rewrite Hh, counts_last in El. by injection El as <-.
  - rewrite Ht in Et. apply counts_lookup in Et as [Hk' ->].
    split; simpl; auto; try done; [lia|]. intros i q Hq. destruct (Hrd i q Hq) as (? & ? & ?). lia.
  - rewrite Ht in Et. apply counts_lookup in Et as [Hk' ->]. subst h.
    assert (k <> length (popped s)) by congruence.
    split; simpl; auto; [lia| |].
    + intros i q Hq. destruct (Hrd i q Hq) as (? & ? & ?). lia.
    + unfold c_ok. simpl. split; [done|lia].
  - destruct (read_ready s h Hi Epc) as (y & Hy & Hpy & Hlt & ->). rewrite Hy in Hx. injection Hx as <- <-.
    rewrite slot_of_count in *. rewrite Hh, counts_length, Nat.sub_succ, Nat.sub_0_r.
    split; simpl; auto.
    + intros i q. rewrite lookup_insert_Some. intros [[<- <-]|[_ Hq]]; [|by apply Hrd].
      split_and!; [done|lia|lia].
    + unfold c_ok. simpl. done.
  - destruct (read_ready s h Hi Epc) as (y & Hy & Hpy & Hlt & ->). rewrite Hy in Hx. injection Hx as <- <-.
    split; simpl; auto. unfold c_ok. simpl. done.
  - destruct Hc as (-> & Hlt & Hx). split; simpl; auto; rewrite ?length_app; simpl; try lia.
    + by rewrite Hh, counts_S, Nat.add_1_r.
    + intros j y Hj Hy. apply Hsl; [lia|done].
    + intros i q Hq. destruct (Hrd i q Hq) as (? & ? & ?). lia.
    + destruct Hf as [rest Hf]. rewrite Hf in Hx |- *. rewrite lookup_app_r, Nat.sub_diag in Hx by lia.
      destruct rest as [|z rest]; [done|]. injection Hx as ->. exists rest. by rewrite <- app_assoc.
    + done.
Qed.

Lemma ring_inv_step s e s' : inv s -> step s e s' -> inv s'.
Proof.
  intros Hi Hs. destruct Hs; try (eapply inv_push; [exact Hi|by econstructor|done..]);
    try (eapply inv_pop; [exact Hi|by econstructor|done..]).
Qed.

Lemma ring_reachable_inv s : reachable s -> inv s.
Proof. induction 1; eauto using ring_inv_initial, ring_inv_step. Qed.

(** A thread inside an operation can always take its next step. *)
Definition producer_runs (s : state) : Prop :=
  p_pc s <> PIdle -> exists e s', step s e s' /\ c_pc s' = c_pc s /\ p_pc s' <> p_pc s.
Definition consumer_runs (s : state) : Prop :=
  c_pc s <> CIdle -> exists e s', step s e s' /\ p_pc s' = p_pc s /\ c_pc s' <> c_pc s.

Lemma producer_steps s : inv s -> producer_runs s.
Proof.
  intros Hi. unfold producer_runs. destruct (p_pc s) as [|x|x t|x t|x t] eqn:Epc; intros Hne; [done|..].
  - eexists _, _. split; [eapply (step_push_tail s x _ Epc); rewrite (i_tails _ Hi); apply counts_last|done].
  - destruct (lookup_lt_is_Some_2 (heads s) (p_seen s)) as [h Hh].
    { rewrite (i_heads _ Hi), counts_length. pose proof (i_p_seen _ Hi). lia. }
    destruct (decide (t ⊟ h = cap)).
    + eexists _, _. split; [by eapply (step_push_full s x t (p_seen s) h)|done].
    + eexists _, _. split; [by eapply (step_push_room s x t (p_seen s) h)|done].
  - eexists _, _. split; [eapply (step_push_write s x t Epc); intros q; by eapply write_ready|done].
  - eexists _, _. split; [by eapply (step_push_publish s x t)|done].
Qed.

Lemma consumer_steps s : inv s -> consumer_runs s.
Proof.
  intros Hi. unfold consumer_runs. destruct (c_pc s) as [| |h|h|x h] eqn:Epc; intros Hne; [done|..].
  - eexists _, _. split; [eapply (step_pop_head s _ Epc); rewrite (i_heads _ Hi); apply counts_last|done].
  - destruct (lookup_lt_is_Some_2 (tails s) (c_seen s)) as [t Ht].
    { rewrite (i_tails _ Hi), counts_length. pose proof (i_c_seen _ Hi). lia. }
    destruct (decide (h = t)).
    + eexists _, _. split; [by eapply (step_pop_empty s h (c_seen s) t)|done].
    + eexists _, _. split; [by eapply (step_pop_some s h (c_seen s) t)|done].
  - destruct (read_ready s h Hi Epc) as (x & Hx & _ & Hlt & _).
    eexists _, _. split; [by eapply (step_pop_read s h x)|done].
  - eexists _, _. split; [by eapply (step_pop_publish s x h)|done].
Qed.

Lemma no_race s s' : inv s -> ~ step s ERace s'.
Proof.
  intros Hi Hs. inversion Hs as [| | | | |s0 x t q Epc Hq Hle| | | | | | | |s0 h Epc Hx|]; subst.
  - pose proof (write_ready _ _ _ _ Hi Epc Hq). lia.
  - destruct (read_ready _ _ Hi Epc) as (x & E & _ & Hlt & _). apply Hx in E. lia.
Qed.

(** C12. Concurrent use by one producer and one consumer is safe under
    acquire/release: in every reachable state, whatever the interleaving and
    however old the counter values the acquire loads return, no step is a data
    race on a slot, the elements popped are the elements pushed, in order and
    none lost or duplicated, at most the capacity are in flight, and neither
    thread ever waits for the other.  This holds for any number of operations,
    with the 64-bit counters wrapping around. *)
Theorem ring_spsc_fifo s :
  reachable s ->
  popped s `prefix_of` pushed s /\
  Z.of_nat (length (pushed s)) <= Z.of_nat (length (popped s)) + cap /\
  (forall s', ~ step s ERace s') /\ producer_runs s /\ consumer_runs s.
Proof.
  intros Hr. pose proof (ring_reachable_inv _ Hr) as Hi. pose proof (i_p_seen _ Hi). pose proof (i_room _ Hi).
  split_and!; [apply Hi|lia|intros s'; by apply no_race|by apply producer_steps|by apply consumer_steps].
Qed.

(** A push is refused only when the buffer is full of elements the
    producer has not been told are gone, and a pop finds it empty only when it
    has taken every element it has been shown: the 64-bit comparisons never
    confuse the two, also after the counters have wrapped. *)
Theorem ring_spsc_full_empty s e s' :
  reachable s -> step s e s' ->
  match e with
  | EPush _ false => Z.of_nat (length (pushed s)) = Z.of_nat (p_seen s') + cap
  | EPop None => length (popped s) = c_seen s'
  | EPop (Some x) => pushed s !! length (popped s) = Some x
  | _ => True
  end.
Proof.
  intros Hr Hs. pose proof (ring_reachable_inv _ Hr) as Hi. pose proof (is_pow2_bound _ cap_pow2).
  pose proof (i_room _ Hi). pose proof (i_p_seen _ Hi). pose proof (i_c_seen _ Hi).
  pose proof (i_p _ Hi) as Hp. pose proof (i_c _ Hi) as Hc. unfold p_ok, c_ok in *.
  destruct Hs as [s x Epc|s x t Epc El|s x t k h Epc Hk Eh Ef|s x t k h Epc Hk Eh Ef|s x t Epc Hq
    |s x t q Epc Hq Hle|s x t Epc|s Epc|s h Epc El|s h k t Epc Hk Et Ef|s h k t Epc Hk Et Ef
    |s h x w Epc Hx Hw|s h x w Epc Hx|s h Epc Hx|s x h Epc]; simpl; try done;
    try (rewrite Epc in Hp); try (rewrite Epc in Hc).
  - rewrite (i_heads _ Hi) in Eh. apply counts_lookup in Eh as [Hk' ->]. subst t.
    rewrite count_diff in Ef by size_lia. lia.
  - rewrite (i_tails _ Hi) in Et. apply counts_lookup in Et as [Hk' ->]. subst h.
    assert (wrap (Z.of_nat k) = wrap (Z.of_nat (length (popped s)))) as E by done.
    assert (0 <= Z.of_nat k - Z.of_nat (length (popped s)) < SIZE_MOD) as Hb by size_lia.
    apply (proj1 (count_eq _ _ Hb)) in E. lia.
  - by destruct Hc as (_ & _ & ?).
Qed.

End spsc.

(** *** Witnesses *)

Section witnesses.
#[local] Existing Instance libc_plenty.

Definition zero_ring : d4np_ring_buffer := Ring None Null 0 0 0 0 0.
Definition one_buf : mem := Mem {[ 0%nat := Block 16 [Undef; Undef] ]} 1.

Lemma ring_program_refines_witness :
  let ops := [RPush [Byte 1; Byte 2]; RPush [Byte 3; Byte 4]; RPush [Byte 5; Byte 6]; RPop; RCount] in
  wp (d4np_ring_buffer_init (Some zero_ring) None 2 2) one_buf (fun r m1 =>
    match r.1 with
    | D4NP_OK =>
        wp (with_ring r.2 (fun rb => '(os, rb') ← run_ops rb (Ptr 0 0) ops;
              d4np_ring_buffer_destroy (Some rb') ;; mret (r_capacity rb, os))) m1
           (fun '(cap, os) m2 =>
              is_pow2 cap /\ 2 <= cap /\ (cap = 1 \/ cap < 2 * 2) /\ os = (qsteps cap [] ops).1 /\
              only [Ptr 0 0] one_buf m2)
    | D4NP_ERR_OVERFLOW | D4NP_ERR_OUT_OF_MEMORY => m_heap m1 = m_heap one_buf
    | _ => False
    end).
Proof.
  intros ops. apply ring_program_refines; [done|size_lia|size_lia| |].
  - exists 0%nat, 0, (Block 16 [Undef; Undef]). done.
  - repeat constructor.
Defined.

(** A state in the middle of a push and of a pop: after one complete push the
    consumer has loaded both counters. *)
Definition mid_state : state (A := Z) :=
  State [0; 1] [0] {[ 0 := (7, 0%nat) ]} ∅ PIdle (CRead 0) 0 1 [7] [].

(** The run that leads there, one step at a time. *)
Lemma ring_mid_reachable : reachable 2 mid_state.
Proof.
  assert (reachable 2 (State [0] [0] ∅ ∅ (PTail 7) CIdle 0 0 [] [])) as R1
    by (refine (reachable_step 2 _ _ _ (reachable_init 2) (step_push_call 2 initial 7 _)); done).
  assert (reachable 2 (State [0] [0] ∅ ∅ (PHead 7 0) CIdle 0 0 [] [])) as R2
    by (refine (reachable_step 2 _ _ _ R1 (step_push_tail 2 _ 7 0 _ _)); done).
  assert (reachable 2 (State [0] [0] ∅ ∅ (PWrite 7 0) CIdle 0 0 [] [])) as R3
    by (refine (reachable_step 2 _ _ _ R2 (step_push_room 2 _ 7 0 0 0 _ _ _ _)); done).
  assert (reachable 2 (State [0] [0] {[ 0 := (7, 0%nat) ]} ∅ (PPublish 7 0) CIdle 0 0 [] [])) as R4
    by (refine (reachable_step 2 _ _ _ R3 (step_push_write 2 _ 7 0 _ _)); done).
  assert (reachable 2 (State [0; 1] [0] {[ 0 := (7, 0%nat) ]} ∅ PIdle CIdle 0 0 [7] [])) as R5
    by (refine (reachable_step 2 _ _ _ R4 (step_push_publish 2 _ 7 0 _)); done).
  assert (reachable 2 (State [0; 1] [0] {[ 0 := (7, 0%nat) ]} ∅ PIdle CHead 0 0 [7] [])) as R6
    by (refine (reachable_step 2 _ _ _ R5 (step_pop_call 2 _ _)); done).
  assert (reachable 2 (State [0; 1] [0] {[ 0 := (7, 0%nat) ]} ∅ PIdle (CTail 0) 0 0 [7] [])) as R7
    by (refine (reachable_step 2 _ _ _ R6 (step_pop_head 2 _ 0 _ _)); done).
  refine (reachable_step 2 _ _ _ R7 (step_pop_some 2 _ 0 1 1 _ _ _ _)); try done. simpl. lia.
Qed.

Lemma ring_spsc_fifo_witness :
  popped mid_state `prefix_of` pushed mid_state /\
  Z.of_nat (length (pushed mid_state)) <= Z.of_nat (length (popped mid_state)) + 2 /\
  (forall s', ~ step 2 mid_state ERace s') /\ producer_runs 2 mid_state /\ consumer_runs 2 mid_state.
Proof. apply (ring_spsc_fifo 2); [by exists 1|exact ring_mid_reachable]. Defined.

(** The consumer has read the slot. *)
Definition read_state : state (A := Z) :=
  State [0; 1] [0] {[ 0 := (7, 0%nat) ]} {[ 0 := 0%nat ]} PIdle (CPublish 7 0) 0 1 [7] [].

Lemma read_reachable : reachable 2 read_state.
Proof.
  exact (reachable_step 2 _ _ _ ring_mid_reachable
    (step_pop_read 2 mid_state 0 7 0 eq_refl eq_refl (le_n 1))).
Qed.

Lemma ring_spsc_full_empty_witness : pushed read_state !! length (popped read_state) = Some 7.
Proof.
  exact (ring_spsc_full_empty 2 ltac:(by exists 1) read_state (EPop (Some 7)) _ read_reachable
    (step_pop_publish 2 read_state 7 0 eq_refl)).
Defined.

End witnesses.
End RingBuffer.
