(* ===== verification/AtomicQueue.v ===== *)
(** * Atomic queue ([d4np/concurrency/atomic_queue.h], [atomic_queue.c])

    The unbounded single-producer single-consumer queue, a linked list of
    nodes behind a dummy, twice: the operations as functions on memory, for one
    thread, refined to an unbounded FIFO with every node given back; and the
    steps of a producer and a consumer thread between their accesses to the
    nodes, with acquire loads that may miss a link, for which FIFO order and
    the absence of data races and of uses after free are proved. *)

From S2P Require Import Prelude Status Memory Allocator.

Local Open Scope Z_scope.

Module AtomicQueue.

(** [sizeof(struct d4np_atomic_queue_node)]: one pointer. *)
Definition NODE_SIZE : Z := PTR_SIZE.
Definition D4NP_AQ_ALIGN : Z := MAX_ALIGN.
Definition D4NP_AQ_DATA_OFFSET : Z := (NODE_SIZE ⊞ (D4NP_AQ_ALIGN ⊟ 1)) / D4NP_AQ_ALIGN ⊠ D4NP_AQ_ALIGN.

Record d4np_atomic_queue := Queue {
  q_allocator : option d4np_allocator;
  q_elem_size : Z;
  q_node_size : Z;
  q_head : ptr;
  q_tail : ptr
}.

Section code.
Context `{!Libc}.

Definition node_data (n : ptr) : ptr := padd n D4NP_AQ_DATA_OFFSET.

(** [next] is the first member: its address is the node's. *)
Definition node_alloc (q : d4np_atomic_queue) : M ptr :=
  n ← d4np_alloc (q_allocator q) (q_node_size q) D4NP_AQ_ALIGN;
  (if is_null n then mret tt else store_ptr n Null) ;;
  mret n.

Definition d4np_atomic_queue_init (q : option d4np_atomic_queue) (allocator : option d4np_allocator)
    (elem_size : Z) : M (d4np_status * option d4np_atomic_queue) :=
  match q with
  | None => mret (D4NP_ERR_INVALID_ARGUMENT, None)
  | Some q =>
      if elem_size =? 0 then mret (D4NP_ERR_INVALID_ARGUMENT, Some q)
      else if SIZE_MAX ⊟ D4NP_AQ_DATA_OFFSET <? elem_size then mret (D4NP_ERR_OVERFLOW, Some q)
      else
        let q := Queue (Some (resolve allocator)) elem_size (D4NP_AQ_DATA_OFFSET ⊞ elem_size)
                       (q_head q) (q_tail q) in
        dummy ← node_alloc q;
        if is_null dummy then mret (D4NP_ERR_OUT_OF_MEMORY, Some q)
        else mret (D4NP_OK, Some (Queue (q_allocator q) (q_elem_size q) (q_node_size q) dummy dummy))
  end.

(** [while (cur != NULL)]; each round frees a block, so a round more than
    there are blocks is never needed. *)
Fixpoint destroy_loop (fuel : nat) (q : d4np_atomic_queue) (cur : ptr) : M unit :=
  match fuel with
  | O => fault
  | S fuel =>
      if is_null cur then mret tt
      else
        next ← load_ptr cur;
        d4np_free (q_allocator q) cur (q_node_size q) ;;
        destroy_loop fuel q next
  end.

Definition d4np_atomic_queue_destroy (q : option d4np_atomic_queue) : M (option d4np_atomic_queue) :=
  match q with
  | None => mret None
  | Some q =>
      if is_null (q_head q) then mret (Some q)
      else
        (fun m => destroy_loop (S (size (m_heap m))) q (q_head q) m) ;;
        mret (Some (Queue (q_allocator q) (q_elem_size q) (q_node_size q) Null Null))
  end.

Definition d4np_atomic_queue_enqueue (q : option d4np_atomic_queue) (elem : ptr)
  : M (bool * option d4np_atomic_queue) :=
  match q with
  | None => mret (false, None)
  | Some q =>
      if is_null elem then mret (false, Some q)
      else
        n ← node_alloc q;
        if is_null n then mret (false, Some q)
        else
          memcpy (node_data n) elem (q_elem_size q) ;;
          store_ptr (q_tail q) n ;;
          mret (true, Some (Queue (q_allocator q) (q_elem_size q) (q_node_size q) (q_head q) n))
  end.

Definition d4np_atomic_queue_dequeue (q : option d4np_atomic_queue) (out : ptr)
  : M (bool * option d4np_atomic_queue) :=
  match q with
  | None => mret (false, None)
  | Some q =>
      next ← load_ptr (q_head q);
      if is_null next then mret (false, Some q)
      else
        (if is_null out then mret tt else memcpy out (node_data next) (q_elem_size q)) ;;
        let old_head := q_head q in
        let q := Queue (q_allocator q) (q_elem_size q) (q_node_size q) next (q_tail q) in
        d4np_free (q_allocator q) old_head (q_node_size q) ;;
        mret (true, Some q)
  end.

Definition d4np_atomic_queue_is_empty (q : option d4np_atomic_queue) : M bool :=
  match q with
  | None => mret true
  | Some q =>
      if is_null (q_head q) then mret true
      else next ← load_ptr (q_head q); mret (is_null next)
  end.

End code.

Arguments d4np_atomic_queue_enqueue : simpl never.
Arguments d4np_atomic_queue_dequeue : simpl never.
Arguments d4np_atomic_queue_is_empty : simpl never.

(** ** The invariant, for one thread *)

(** Node [n] is a live block with link [nxt]; it holds the element [dat], if
    it holds one. *)
Definition node_at (m : mem) (es : Z) (n : nat) (nxt : ptr) (dat : option (list cell)) : Prop :=
  exists blk, m_heap m !! n = Some blk /\ zlen (blk_data blk) = 16 + es /\
    sub 0 PTR_SIZE (blk_data blk) = ptr_cells nxt /\
    forall x, dat = Some x -> sub 16 es (blk_data blk) = x.

Definition link (ns : list nat) (i : nat) : ptr :=
  match ns !! i with Some n => Ptr n 0 | None => Null end.

(** Node 0 is the dummy. *)
Definition payload (xs : list (list cell)) (i : nat) : option (list cell) :=
  match i with O => None | S j => xs !! j end.

Record queue_rep (m : mem) (q : d4np_atomic_queue) (ns : list nat) (xs : list (list cell)) : Prop := {
  qr_allocator : exists a, q_allocator q = Some a /\ AllocatorOk a;
  qr_elem_size : 0 < q_elem_size q;
  qr_node_size : q_node_size q = 16 + q_elem_size q;
  qr_max : 16 + q_elem_size q <= PTRDIFF_MAX;
  qr_head : q_head q = link ns 0;
  qr_tail : q_tail q = link ns (length xs);
  qr_length : length ns = S (length xs);
  qr_nodup : NoDup ns;
  qr_nodes : forall i n, ns !! i = Some n ->
    node_at m (q_elem_size q) n (link ns (S i)) (payload xs i)
}.

Definition nodes (ns : list nat) : list ptr := (fun n => Ptr n 0) <$> ns.

Lemma touches_nodes ns b : touches (nodes ns) b <-> b ∈ ns.
Proof.
  unfold touches, nodes. setoid_rewrite list_elem_of_fmap. split.
  - by intros (off & n & [= -> _] & Hn).
  - intros Hb. exists 0, b. done.
Qed.

Lemma node_at_only m m' es n nxt dat ps :
  node_at m es n nxt dat -> only ps m m' -> ~ touches ps n -> node_at m' es n nxt dat.
Proof. intros (blk & Hb & Hx) Ho Hn. exists blk. by rewrite Ho. Qed.

(** Writing the link of a node keeps its element. *)
Lemma node_link m es n nxt dat nxt' :
  0 < es -> node_at m es n nxt dat ->
  exists m', store_ptr (Ptr n 0) nxt' m = Some (tt, m') /\ node_at m' es n nxt' dat /\
    only [Ptr n 0] m m'.
Proof.
  intros Hes (blk & Hb & Hz & _ & Hd). unfold store_ptr.
  exists (mem_write n 0 (ptr_cells nxt') m). split_and!.
  - eapply store_run; eauto; [lia|]. rewrite ptr_cells_length. size_lia.
  - eexists. split; [by apply mem_write_lookup|]. simpl. split_and!.
    + rewrite zlen_splice; [done|lia|]. rewrite ptr_cells_length. size_lia.
    + change PTR_SIZE with (zlen (ptr_cells nxt')). apply sub_splice_eq; [lia|].
      rewrite ptr_cells_length. size_lia.
    + intros x Hx. rewrite sub_splice_ne; [by apply Hd|lia| |lia|].
      all: rewrite ptr_cells_length; size_lia.
  - by eapply only_write, list_elem_of_here.
Qed.

(** Writing the element of a node keeps its link. *)
Lemma node_fill m es n nxt dat src x :
  0 < es -> node_at m es n nxt dat -> load src es m = Some (x, m) ->
  (forall b off, src = Ptr b off -> b <> n) ->
  exists m', memcpy (Ptr n 16) src es m = Some (tt, m') /\ node_at m' es n nxt (Some x) /\
    only [Ptr n 0] m m'.
Proof.
  intros Hes (blk & Hb & Hz & Hl & _) Hx Hne. pose proof (load_inv _ _ _ _ _ Hx) as [_ Hzx].
  specialize (Hzx ltac:(lia)). exists (mem_write n 16 x m). split_and!.
  - unfold memcpy. destruct src as [|b off]; [done|].
    rewrite overlap_blocks by (intros ->; by eapply Hne). unfold mbind, M_bind. rewrite Hx.
    eapply store_run; eauto; lia.
  - eexists. split; [by apply mem_write_lookup|]. simpl. split_and!.
    + rewrite zlen_splice; [done|lia|lia].
    + rewrite sub_splice_ne; [done|lia|lia|lia|]. size_lia.
    + intros y [= <-]. rewrite <- Hzx. apply sub_splice_eq; lia.
  - eapply only_write, list_elem_of_here.
Qed.

Lemma node_next m es n nxt dat : 0 < es -> node_at m es n nxt dat -> load_ptr (Ptr n 0) m = Some (nxt, m).
Proof. intros Hes (blk & Hb & Hz & Hl & _). eapply load_ptr_run; eauto; size_lia. Qed.

Lemma node_owned m es n nxt dat : node_at m es n nxt dat -> owned m (Ptr n 0) (16 + es).
Proof. intros (blk & Hb & Hz & _). by exists n, blk. Qed.

Lemma data_offset : D4NP_AQ_DATA_OFFSET = 16.
Proof. reflexivity. Qed.

#[local] Opaque D4NP_AQ_DATA_OFFSET.

Section proofs.
Context `{!Libc}.

(** An allocator that always finds memory for a request that can be served. *)
Definition never_fails (a : d4np_allocator) : Prop :=
  forall m size align, 0 < size <= PTRDIFF_MAX -> is_pow2 align -> align <= MAX_ALIGN ->
    wp (a_alloc a size align) m (fun p _ => p <> Null).

Lemma node_alloc_spec m q a :
  q_allocator q = Some a -> AllocatorOk a -> 0 < q_elem_size q -> q_node_size q = 16 + q_elem_size q ->
  wp (node_alloc q) m (fun n m' =>
    (n = Null /\ m_heap m' = m_heap m /\ (never_fails a -> PTRDIFF_MAX < 16 + q_elem_size q)) \/
    (exists b, n = Ptr b 0 /\ m_heap m !! b = None /\ 16 + q_elem_size q <= PTRDIFF_MAX /\
       node_at m' (q_elem_size q) b Null None /\ only [Ptr b 0] m m')).
Proof.
  intros Ha Hok Hes Hns. unfold node_alloc, d4np_alloc. rewrite Ha, Hns. simpl.
  assert (is_pow2 D4NP_AQ_ALIGN) as Hp by (by exists 4).
  destruct (ok_alloc m (16 + q_elem_size q) D4NP_AQ_ALIGN) as (p & m1 & E & Hpost); [lia|done|].
  wp_bind. eapply wp_run; [exact E|].
  apply alloc_post_inv in Hpost as [[-> Hh]|(b & -> & Hnone & Hmax & (b' & blk & [= <-] & Hb & Hz) & _ & Ho)]; [| |lia].
  - cbn [is_null]. wp_bind. wp_ret. wp_ret. left. split_and!; auto. intros Hnf. apply Z.nle_gt. intros Hle.
    destruct (Hnf m (16 + q_elem_size q) D4NP_AQ_ALIGN) as (p & m2 & E2 & Hne); [lia|done|apply Z.le_refl|].
    congruence.
  - cbn [is_null]. wp_bind. eapply (wp_store b 0); [exact Hb|lia|rewrite ptr_cells_length; size_lia|].
    wp_ret. right. exists b. split_and!; auto.
    + eexists. split; [by apply mem_write_lookup|]. simpl. split_and!; [|change PTR_SIZE with (zlen (ptr_cells Null)); apply sub_splice_eq|done].
      * rewrite zlen_splice; [done|lia|]. rewrite ptr_cells_length. size_lia.
      * lia.
      * rewrite ptr_cells_length. size_lia.
    + intros x Hx. rewrite mem_write_lookup_ne by (intros ->; apply Hx, touches_here).
      apply Ho. intros ->. apply Hx, touches_here.
Qed.

Lemma link_app_l ns ns' i : (i < length ns)%nat -> link (ns ++ ns') i = link ns i.
Proof. intros. unfold link. by rewrite lookup_app_l. Qed.

Lemma link_lookup ns i n : ns !! i = Some n -> link ns i = Ptr n 0.
Proof. unfold link. by intros ->. Qed.

Lemma link_end ns i : (length ns <= i)%nat -> link ns i = Null.
Proof. intros. unfold link. by rewrite (proj2 (lookup_ge_None _ _)). Qed.

(** The last node. *)
Lemma queue_last m q ns xs :
  queue_rep m q ns xs -> exists n, ns !! length xs = Some n /\ q_tail q = Ptr n 0.
Proof.
  intros Hr. destruct (lookup_lt_is_Some_2 ns (length xs)) as [n Hn]; [rewrite (qr_length _ _ _ _ Hr); lia|].
  exists n. split; [done|]. rewrite (qr_tail _ _ _ _ Hr). by apply link_lookup.
Qed.

(** What lies outside the nodes [ns] and the client's buffer is as it was
    in [m0], where none of the nodes existed. *)
Definition outside (m0 : mem) (ns : list nat) (buf : ptr) (m : mem) : Prop :=
  (forall b, b ∉ ns -> ~ touches [buf] b -> m_heap m !! b = m_heap m0 !! b) /\
  (forall b, b ∈ ns -> m_heap m0 !! b = None) /\
  (forall b, touches [buf] b -> is_Some (m_heap m0 !! b)).

Definition aq_client (m0 m : mem) (q : d4np_atomic_queue) (buf : ptr) (ns : list nat)
    (xs : list (list cell)) : Prop :=
  queue_rep m q ns xs /\ valid m buf (q_elem_size q) /\ outside m0 ns buf m.

(** A node is not in the client's buffer. *)
Lemma client_apart m0 m ns buf n : outside m0 ns buf m -> n ∈ ns -> ~ touches [buf] n.
Proof. intros (_ & H1 & H2) Hn Ht. destruct (H2 n Ht) as [blk Hb]. rewrite (H1 n Hn) in Hb. done. Qed.

Lemma queue_rep_only m m' q ns xs ps :
  queue_rep m q ns xs -> only ps m m' -> (forall n, n ∈ ns -> ~ touches ps n) -> queue_rep m' q ns xs.
Proof.
  intros [] Ho Hn. split; auto. intros i n Hi. eapply node_at_only; [by apply qr_nodes0|exact Ho|].
  apply Hn. by eapply list_elem_of_lookup_2.
Qed.

Lemma payload_app xs x i : (i <= length xs)%nat -> payload (xs ++ [x]) i = payload xs i.
Proof. intros. destruct i as [|i]; [done|]. simpl. by rewrite lookup_app_l by lia. Qed.

(** Linking a filled node behind the last one. *)
Lemma queue_snoc m q ns xs n x :
  queue_rep m q ns xs -> n ∉ ns -> node_at m (q_elem_size q) n Null (Some x) ->
  exists m', store_ptr (q_tail q) (Ptr n 0) m = Some (tt, m') /\ only (nodes ns) m m' /\
    queue_rep m' (Queue (q_allocator q) (q_elem_size q) (q_node_size q) (q_head q) (Ptr n 0))
      (ns ++ [n]) (xs ++ [x]).
Proof.
  intros Hr Hfresh Hn. pose proof Hr as [Ha Hes Hns Hmax Hhd _ Hlen Hnd Hnodes].
  destruct (queue_last _ _ _ _ Hr) as (t & Ht & ->).
  assert (t ∈ ns) as Htin by (by eapply list_elem_of_lookup_2).
  destruct (node_link m (q_elem_size q) t (link ns (S (length xs))) (payload xs (length xs)) (Ptr n 0))
    as (m' & E & Hn' & Ho); [done|by apply Hr|]. exists m'. split; [done|]. split.
  { eapply only_part; [|exact Ho]. unfold nodes. apply list_elem_of_fmap. eauto. }
  assert ((ns ++ [n]) !! S (length xs) = Some n) as Hnew by (rewrite <- Hlen; by apply list_lookup_middle).
  split; simpl; auto; rewrite ?length_app; simpl; try lia.
  - rewrite link_app_l by lia. apply Hr.
  - rewrite Nat.add_1_r. symmetry. by apply link_lookup.
  - apply NoDup_app. split_and!; auto; [set_solver|]. apply NoDup_singleton.
  - intros i k Hi. apply lookup_snoc_Some in Hi as [[Hlt Hi]|[-> <-]].
    + rewrite payload_app by lia. destruct (decide (i = length xs)) as [->|Hne].
      { assert (k = t) as -> by congruence. by rewrite (link_lookup _ _ n). }
      rewrite link_app_l by lia. eapply node_at_only; [by apply Hr|exact Ho|].
      rewrite touches_singleton. intros ->. apply Hne. eapply NoDup_lookup; eauto.
    + rewrite link_end by (rewrite length_app; simpl; lia). rewrite Hlen. simpl.
      rewrite list_lookup_middle by done. eapply node_at_only; [exact Hn|exact Ho|].
      rewrite touches_singleton. by intros ->.
Qed.

Lemma enqueue_spec m0 m q ns xs buf x a :
  aq_client m0 m q buf ns xs -> q_allocator q = Some a -> load buf (q_elem_size q) m = Some (x, m) ->
  exists m' q' ok ns', d4np_atomic_queue_enqueue (Some q) buf m = Some ((ok, Some q'), m') /\
    aq_client m0 m' q' buf ns' (if ok : bool then xs ++ [x] else xs) /\
    q_elem_size q' = q_elem_size q /\ q_allocator q' = q_allocator q /\ (ok = false -> ~ never_fails a).
Proof.
  intros (Hr & Hv & Hout) Ha Hl. pose proof Hr as [(a' & Ha' & Hok) Hes Hns Hmax _ _ _ _ Hnodes].
  assert (a' = a) as -> by congruence. destruct buf as [|b off]; [done|].
  unfold d4np_atomic_queue_enqueue. cbn [is_null]. unfold mbind at 1, M_bind at 1.
  destruct (node_alloc_spec m q a Ha Hok Hes Hns)
    as (n & m1 & E1 & [(-> & Hh & Hf)|(nb & -> & Hnone & _ & Hn & Ho)]); rewrite E1; cbn [is_null].
  { assert (only [] m m1) as Ho by (by intros b' _; rewrite Hh).
    exists m1, q, false, ns. split; [done|]. split; [|split_and!; auto].
    - split; [|split]; [eapply queue_rep_only|eapply valid_only|]; eauto using touches_nil.
      destruct Hout as [H1 H2]. split; [|done]. intros b' ??. by rewrite Hh, H1.
    - intros _ Hnf. specialize (Hf Hnf). lia. }
  assert (nb ∉ ns) as Hfresh.
  { intros [i Hi]%list_elem_of_lookup. destruct (Hnodes i nb Hi) as (blk & Hb & _). congruence. }
  assert (nb <> b) as Hnb. { intros ->. destruct Hv as (? & ? & ? & [= <- <-] & Hb & _). congruence. }
  assert (forall k, k ∈ ns -> ~ touches [Ptr nb 0] k) as Hk by (intros k Hk ->%touches_singleton; done).
  pose proof (queue_rep_only _ _ _ _ _ _ Hr Ho Hk) as Hr1.
  destruct (node_fill m1 (q_elem_size q) nb Null None (Ptr b off) x) as (m2 & E2 & Hn2 & Ho2); auto.
  { eapply load_only; [exact Hl|exact Ho|]. intros ? ? [= <- <-] ->%touches_singleton. done. }
  { by intros ? ? [= <- <-] ->. }
  unfold mbind, M_bind, node_data. rewrite data_offset, padd_0, E2.
  pose proof (queue_rep_only _ _ _ _ _ _ Hr1 Ho2 Hk) as Hr2.
  destruct (queue_snoc _ _ _ _ _ _ Hr2 Hfresh Hn2) as (m3 & E3 & Ho3 & Hr3). rewrite E3.
  eexists m3, _, true, (ns ++ [nb]). split; [done|]. split; [|done].
  assert (only (nodes (ns ++ [nb])) m m3) as Hall.
  { intros k Hk'. rewrite touches_nodes in Hk'. rewrite Ho3 by (rewrite touches_nodes; set_solver).
    rewrite Ho2, Ho by (rewrite touches_singleton; set_solver). done. }
  split; [done|split].
  - eapply valid_only; [exact Hv|exact Hall|]. intros b' o' [= <- <-]. rewrite touches_nodes.
    intros [Hin|E%list_elem_of_singleton]%elem_of_app; [|done].
    by apply (client_apart _ _ _ _ _ Hout Hin), touches_here.
  - destruct Hout as (H1 & H2 & H3). split_and!; auto.
    + intros k Hk1 Hk2. rewrite Hall by (by rewrite touches_nodes). apply H1; set_solver.
    + intros k [Hin|E%list_elem_of_singleton]%elem_of_app; [by apply H2|]. subst k.
      rewrite <- H1; auto. by rewrite touches_singleton.
Qed.

(** Taking the dummy off: the node behind it is the new dummy. *)
Lemma queue_tail m m' q n ns x xs :
  queue_rep m q (n :: ns) (x :: xs) -> only [Ptr n 0] m m' ->
  queue_rep m' (Queue (q_allocator q) (q_elem_size q) (q_node_size q) (link ns 0) (q_tail q)) ns xs.
Proof.
  intros [] Ho. simpl in *. apply NoDup_cons in qr_nodup0 as [Hn Hnd]. split; simpl; auto.
  intros i k Hi. eapply node_at_only; [|exact Ho|].
  - destruct (qr_nodes0 (S i) k Hi) as (blk & ? & ? & ? & Hx). exists blk. split_and!; auto.
    intros y Hy. apply Hx. by destruct i.
  - rewrite touches_singleton. intros ->. apply Hn. by eapply list_elem_of_lookup_2.
Qed.

Lemma free_node m es n nxt dat a :
  AllocatorOk a -> node_at m es n nxt dat ->
  exists m', d4np_free (Some a) (Ptr n 0) (16 + es) m = Some (tt, m') /\
    m_heap m' = delete n (m_heap m) /\ only [Ptr n 0] m m'.
Proof.
  intros Hok Hn. destruct (ok_free m (Ptr n 0) (16 + es)) as ([] & m' & E & Hh);
    [right; by eapply node_owned|]. exists m'. split_and!; auto.
  intros b Hb. rewrite Hh. by apply heap_free_lookup.
Qed.

Lemma dequeue_spec m0 m q ns xs buf :
  aq_client m0 m q buf ns xs ->
  exists m' q' ns', d4np_atomic_queue_dequeue (Some q) buf m =
      Some ((bool_decide (xs <> []), Some q'), m') /\
    aq_client m0 m' q' buf ns' (tail xs) /\
    q_elem_size q' = q_elem_size q /\ q_allocator q' = q_allocator q /\
    (forall x, head xs = Some x -> load buf (q_elem_size q) m' = Some (x, m')).
Proof.
  intros (Hr & Hv & Hout). pose proof Hr as [(a & Ha & Hok) Hes Hns Hmax Hhd _ Hlen Hnd Hnodes].
  destruct ns as [|n ns]; [done|]. unfold d4np_atomic_queue_dequeue, mbind, M_bind.
  rewrite Hhd. pose proof (Hnodes 0%nat n eq_refl) as Hn. change (link (n :: ns) 0) with (Ptr n 0).
  rewrite (node_next _ _ _ _ _ Hes Hn). destruct xs as [|x xs], ns as [|n' ns]; try done.
  { exists m, q, [n]. split; [done|]. split; [done|]. split_and!; auto. done. }
  change (link (n :: n' :: ns) 1) with (Ptr n' 0). cbn [is_null]. assert (is_null buf = false) as -> by (by destruct Hv as (? & ? & ? & -> & _)).
  pose proof (Hnodes 1%nat n' eq_refl) as (blk & Hb & Hz & _ & Hx).
  assert (load (Ptr n' 16) (q_elem_size q) m = Some (x, m)) as Hl.
  { unfold load. rewrite Hb, decide_True by lia. by rewrite (Hx x eq_refl). }
  pose proof (load_inv _ _ _ _ _ Hl) as [_ Hzx]. specialize (Hzx ltac:(lia)).
  destruct Hv as (b & off & bblk & -> & Hbb & ? & ?).
  assert (b ∉ n :: n' :: ns) as Hnb.
  { intros Hin. by apply (client_apart _ _ _ _ _ Hout Hin), touches_here. }
  assert (memcpy (Ptr b off) (node_data (Ptr n' 0)) (q_elem_size q) m = Some (tt, mem_write b off x m)) as Em.
  { unfold memcpy, node_data. rewrite data_offset, padd_0, overlap_blocks by set_solver.
    unfold mbind, M_bind. rewrite Hl. eapply store_run; eauto. lia. }
  rewrite Em. set (m1 := mem_write b off x m).
  assert (only [Ptr b off] m m1) as Ho1 by (by eapply only_write, list_elem_of_here).
  assert (queue_rep m1 q (n :: n' :: ns) (x :: xs)) as Hr1.
  { eapply queue_rep_only; [exact Hr|exact Ho1|]. intros k Hk. rewrite touches_singleton. by intros ->. }
  cbn [q_allocator q_node_size]. rewrite Ha, Hns.
  destruct (free_node m1 (q_elem_size q) n _ _ a Hok (qr_nodes _ _ _ _ Hr1 0%nat n eq_refl))
    as (m2 & E2 & Hh2 & Ho2). rewrite E2. eexists m2, _, (n' :: ns). split; [done|].
  assert (load (Ptr b off) (q_elem_size q) m2 = Some (x, m2)) as Hl2.
  { eapply load_only; [|exact Ho2|].
    - rewrite <- Hzx. eapply load_after_write; eauto. lia.
    - intros ? ? [= <- <-] ->%touches_singleton. set_solver. }
  split; [|split_and!; auto; by intros ? [= <-]].
  split; [pose proof (queue_tail _ _ _ _ _ _ _ Hr1 Ho2) as Hr2; rewrite Ha, Hns in Hr2; exact Hr2|]. split; [by eapply load_valid|].
  apply NoDup_cons in Hnd as [Hnn _]. destruct Hout as (G1 & G2 & G3). split_and!; auto; [|set_solver].
  intros k Hk1 Hk2. destruct (decide (k = n)) as [->|Hne].
  - rewrite Hh2, lookup_delete_eq. symmetry. apply G2. set_solver.
  - rewrite Ho2, Ho1 by (try done; by rewrite touches_singleton). apply G1; set_solver.
Qed.

(** The destroy loop frees every node of the chain and ends. *)
Lemma destroy_loop_spec q a es dat ns m fuel :
  q_allocator q = Some a -> AllocatorOk a -> 0 < es -> q_node_size q = 16 + es -> NoDup ns ->
  (length ns < fuel)%nat ->
  (forall i n, ns !! i = Some n -> node_at m es n (link ns (S i)) (dat i)) ->
  wp (destroy_loop fuel q (link ns 0)) m (fun _ m' => m_heap m' = strip (nodes ns) (m_heap m)).
Proof.
  intros Ha Hok Hes Hns. revert dat ns m.
  induction fuel as [|fuel IH]; intros dat ns m Hnd Hf Hn; [lia|].
  destruct ns as [|n ns]; cbn [destroy_loop link lookup list_lookup is_null]; [by wp_ret|].
  pose proof (Hn 0%nat n eq_refl) as Hn0. wp_bind. eapply wp_run; [by eapply node_next|].
  rewrite Ha, Hns. destruct (free_node m es n _ _ a Hok Hn0) as (m1 & E1 & Hh1 & Ho1).
  wp_bind. eapply wp_run; [exact E1|]. apply NoDup_cons in Hnd as [Hnn Hnd]. simpl in Hf.
  change (link (n :: ns) 1) with (link ns 0).
  eapply wp_mono; [apply (IH (fun i => dat (S i)) ns m1); [done|lia|]|].
  - intros i k Hi. eapply node_at_only; [by apply (Hn (S i))|exact Ho1|]. rewrite touches_singleton.
    intros ->. apply Hnn. by eapply list_elem_of_lookup_2.
  - intros [] m2 ->. rewrite Hh1. change (delete n (m_heap m)) with (heap_free (Ptr n 0) (m_heap m)).
    apply strip_heap_free.
Qed.

Lemma nodes_size m ns : NoDup ns -> (forall n, n ∈ ns -> is_Some (m_heap m !! n)) ->
  (length ns <= size (m_heap m))%nat.
Proof.
  intros Hnd Hl. rewrite <- size_dom, <- (size_list_to_set (C := gset nat)) by done.
  apply subseteq_size. intros n Hn%elem_of_list_to_set. by apply elem_of_dom, Hl.
Qed.

Lemma destroy_spec m q ns xs :
  queue_rep m q ns xs ->
  wp (d4np_atomic_queue_destroy (Some q)) m (fun q' m' =>
    m_heap m' = strip (nodes ns) (m_heap m) /\
    q' = Some (Queue (q_allocator q) (q_elem_size q) (q_node_size q) Null Null)).
Proof.
  intros [(a & Ha & Hok) Hes Hns Hmax Hhd _ Hlen Hnd Hnodes].
  unfold d4np_atomic_queue_destroy. destruct ns as [|n ns]; [done|].
  assert (q_head q = Ptr n 0) as E by done. rewrite E. cbn [is_null]. wp_bind.
  assert (length (n :: ns) <= size (m_heap m))%nat as Hsz.
  { apply nodes_size; [done|]. intros k [i Hi]%list_elem_of_lookup.
    destruct (Hnodes i k Hi) as (blk & Hb & _). eauto. }
  destruct (destroy_loop_spec q a _ (payload xs) (n :: ns) m (S (size (m_heap m))) Ha Hok Hes Hns Hnd)
    as ([] & m' & E' & Hh); [lia|done|].
  eapply wp_run; [exact E'|]. by wp_ret.
Qed.

Lemma init_spec m q0 oa es :
  allocator_arg_ok oa -> 0 < es <= SIZE_MAX ->
  wp (d4np_atomic_queue_init (Some q0) oa es) m (fun r m' =>
    match r.1 with
    | D4NP_OK => exists q n, r.2 = Some q /\ queue_rep m' q [n] [] /\ q_elem_size q = es /\
        q_allocator q = Some (resolve oa) /\ m_heap m !! n = None /\ only [Ptr n 0] m m'
    | D4NP_ERR_OVERFLOW => SIZE_MAX < 16 + es /\ r.2 = Some q0 /\ m' = m
    | D4NP_ERR_OUT_OF_MEMORY => m_heap m' = m_heap m /\
        (never_fails (resolve oa) -> PTRDIFF_MAX < 16 + es)
    | _ => False
    end).
Proof.
  intros Ha Hes. apply resolve_ok in Ha. unfold d4np_atomic_queue_init.
  destruct (Z.eqb_spec es 0); [lia|]. rewrite data_offset. rewrite size_sub_small by size_lia.
  destruct (Z.ltb_spec (SIZE_MAX - 16) es); [wp_ret; simpl; split_and!; auto; lia|].
  rewrite size_add_small by size_lia. wp_bind.
  eapply wp_mono; [by apply (node_alloc_spec m _ (resolve oa)); simpl; auto; lia|].
  intros p m' [(-> & Hh & Hf)|(b & -> & Hnone & Hmax & Hn & Ho)]; cbn [is_null]; wp_ret; simpl in *; [done|].
  eexists _, b. split; [done|]. split; [|done].
  split; simpl; eauto; [lia|apply NoDup_singleton|].
  intros [|i] k Hi; [by injection Hi as <-|done].
Qed.

(** ** Programs of one thread

    The client has one element-sized buffer of its own. *)

Inductive aqop := AEnqueue (x : list cell) | ADequeue | AIsEmpty.

Inductive aqout :=
  | AAccepted (b : bool)
  | AElem (x : option (list cell))
  | AEmpty (b : bool).

Definition with_queue {A} (o : option d4np_atomic_queue) (k : d4np_atomic_queue -> M A) : M A :=
  match o with Some q => k q | None => fault end.

Definition run_op (q : d4np_atomic_queue) (buf : ptr) (op : aqop) : M (aqout * d4np_atomic_queue) :=
  match op with
  | AEnqueue x =>
      store buf x ;;
      '(b, o) ← d4np_atomic_queue_enqueue (Some q) buf; with_queue o (fun q => mret (AAccepted b, q))
  | ADequeue =>
      '(b, o) ← d4np_atomic_queue_dequeue (Some q) buf;
      with_queue o (fun q =>
        if b : bool then x ← load buf (q_elem_size q); mret (AElem (Some x), q)
        else mret (AElem None, q))
  | AIsEmpty => b ← d4np_atomic_queue_is_empty (Some q); mret (AEmpty b, q)
  end.

Fixpoint run_ops (q : d4np_atomic_queue) (buf : ptr) (ops : list aqop)
  : M (list aqout * d4np_atomic_queue) :=
  match ops with
  | [] => mret ([], q)
  | op :: ops => '(o, q) ← run_op q buf op; '(os, q) ← run_ops q buf ops; mret (o :: os, q)
  end.

(** An unbounded queue; an element is refused only if memory runs out. *)
Inductive fifo (oom : Prop) : list (list cell) -> list aqop -> list aqout -> list (list cell) -> Prop :=
  | fifo_nil xs : fifo oom xs [] [] xs
  | fifo_enqueue xs x ops os ys :
      fifo oom (xs ++ [x]) ops os ys -> fifo oom xs (AEnqueue x :: ops) (AAccepted true :: os) ys
  | fifo_refused xs x ops os ys :
      oom -> fifo oom xs ops os ys -> fifo oom xs (AEnqueue x :: ops) (AAccepted false :: os) ys
  | fifo_dequeue xs ops os ys :
      fifo oom (tail xs) ops os ys -> fifo oom xs (ADequeue :: ops) (AElem (head xs) :: os) ys
  | fifo_is_empty xs ops os ys :
      fifo oom xs ops os ys -> fifo oom xs (AIsEmpty :: ops) (AEmpty (bool_decide (xs = [])) :: os) ys.

Definition op_ok (es : Z) (op : aqop) : Prop :=
  match op with AEnqueue x => zlen x = es | _ => True end.

(** The client writes the element into its buffer. *)
Lemma client_store m0 m q buf ns xs x :
  aq_client m0 m q buf ns xs -> zlen x = q_elem_size q ->
  exists m', store buf x m = Some (tt, m') /\ load buf (q_elem_size q) m' = Some (x, m') /\
    aq_client m0 m' q buf ns xs.
Proof.
  intros (Hr & (b & off & blk & -> & Hb & ? & ?) & Hout) Hx. exists (mem_write b off x m).
  assert (load (Ptr b off) (q_elem_size q) (mem_write b off x m) = Some (x, mem_write b off x m)) as Hl
    by (rewrite <- Hx; eapply load_after_write; eauto; lia).
  assert (only [Ptr b off] m (mem_write b off x m)) as Ho by (by eapply only_write, list_elem_of_here).
  split; [eapply store_run; eauto; lia|]. split; [done|]. split; [|split; [by eapply load_valid|]].
  - eapply queue_rep_only; [exact Hr|exact Ho|]. intros k Hk. by eapply client_apart.
  - destruct Hout as (G1 & G2 & G3). split_and!; auto. intros k ??. rewrite Ho by done. by apply G1.
Qed.

Lemma is_empty_spec m q ns xs :
  queue_rep m q ns xs -> d4np_atomic_queue_is_empty (Some q) m = Some (bool_decide (xs = []), m).
Proof.
  intros [_ Hes _ _ Hhd _ Hlen _ Hnodes]. destruct ns as [|n ns]; [done|].
  unfold d4np_atomic_queue_is_empty, mbind, M_bind. rewrite Hhd.
  change (link (n :: ns) 0) with (Ptr n 0). cbn [is_null].
  rewrite (node_next _ _ _ _ _ Hes (Hnodes 0%nat n eq_refl)). by destruct ns, xs.
Qed.

Lemma aq_run_ops m0 m q buf ns xs a ops :
  aq_client m0 m q buf ns xs -> q_allocator q = Some a -> Forall (op_ok (q_elem_size q)) ops ->
  exists m' q' ns' xs' os, run_ops q buf ops m = Some ((os, q'), m') /\
    fifo (~ never_fails a) xs ops os xs' /\ aq_client m0 m' q' buf ns' xs'.
Proof.
  intros Hc Ha Hops. revert m q ns xs Hc Ha Hops.
  induction ops as [|op ops IH]; intros m q ns xs Hc Ha Hops.
  { exists m, q, ns, xs, []. split; [done|]. split; [constructor|done]. }
  apply Forall_cons in Hops as [Hop Hops]. destruct op as [x| |]; simpl in Hop; simpl; unfold mbind, M_bind.
  - destruct (client_store _ _ _ _ _ _ _ Hc Hop) as (m1 & E1 & Hl & Hc1). rewrite E1.
    destruct (enqueue_spec m0 m1 q ns xs buf x a Hc1 Ha Hl) as (m2 & q2 & ok & ns2 & E2 & Hc2 & Ee & Ea & Hok).
    rewrite E2. simpl. rewrite <- Ee in Hops. rewrite Ha in Ea.
    destruct (IH m2 q2 ns2 _ Hc2 Ea Hops) as (m3 & q3 & ns3 & xs3 & os & E3 & Hf & Hc3). rewrite E3.
    exists m3, q3, ns3, xs3, (AAccepted ok :: os). split; [done|]. split; [|done].
    destruct ok; constructor; auto.
  - destruct (dequeue_spec m0 m q ns xs buf Hc) as (m2 & q2 & ns2 & E2 & Hc2 & Ee & Ea & Hl). rewrite E2.
    rewrite <- Ee in Hops. rewrite Ha in Ea.
    destruct (IH m2 q2 ns2 _ Hc2 Ea Hops) as (m3 & q3 & ns3 & xs3 & os & E3 & Hf & Hc3).
    exists m3, q3, ns3, xs3, (AElem (head xs) :: os). split; [|split; [by constructor|done]].
    destruct xs as [|x xs]; simpl; [by rewrite E3|]. rewrite Ee, (Hl x eq_refl). simpl. by rewrite E3.
  - rewrite (is_empty_spec m q ns xs) by apply Hc. simpl.
    destruct (IH m q ns xs Hc Ha Hops) as (m3 & q3 & ns3 & xs3 & os & E3 & Hf & Hc3). rewrite E3.
    eexists m3, q3, ns3, xs3, _. split; [done|]. split; [by constructor|done].
Qed.

(** C15. Used from one thread the atomic queue is an unbounded FIFO: from a
    successful initialisation any sequence of operations is free of undefined
    behaviour, the elements come out in the order they went in and unchanged,
    and an element is refused only if the allocator fails; initialisation fails
    only for an element size that does not fit or when the allocator fails.
    Destroying the queue ends, and frees every node, those still holding
    elements included: memory outside the client's buffer is as it was. *)
Theorem aq_program_refines m q0 oa es buf ops :
  allocator_arg_ok oa -> 0 < es <= SIZE_MAX -> valid m buf es -> Forall (op_ok es) ops ->
  wp (d4np_atomic_queue_init (Some q0) oa es) m (fun r m1 =>
    match r.1 with
    | D4NP_OK =>
        wp (with_queue r.2 (fun q => '(os, q) ← run_ops q buf ops;
              _ ← d4np_atomic_queue_destroy (Some q); mret os)) m1
           (fun os m2 => (exists xs, fifo (~ never_fails (resolve oa)) [] ops os xs) /\ only [buf] m m2)
    | D4NP_ERR_OVERFLOW => SIZE_MAX < 16 + es /\ m1 = m
    | D4NP_ERR_OUT_OF_MEMORY => m_heap m1 = m_heap m /\
        (never_fails (resolve oa) -> PTRDIFF_MAX < 16 + es)
    | _ => False
    end).
Proof.
  intros Ha Hes Hv Hops. eapply wp_mono; [by apply init_spec|].
  intros [st oq] m1 Hst. simpl in *. destruct st; try done; [|naive_solver].
  destruct Hst as (q & n & -> & Hr & <- & Hqa & Hnone & Ho). simpl.
  assert (forall b, touches [buf] b -> is_Some (m_heap m !! b)) as Hlive.
  { destruct Hv as (b & off & blk & -> & Hb & _). intros ? ->%touches_singleton. eauto. }
  assert (aq_client m m1 q buf [n] []) as Hc.
  { split; [done|]. split; [|split_and!; auto].
    - eapply valid_only; [exact Hv|exact Ho|]. intros b off -> ->%touches_singleton.
      destruct (Hlive n (touches_here _ _ _)) as [? Hx]. congruence.
    - intros b Hb _. apply Ho. rewrite touches_singleton. set_solver.
    - intros b ->%list_elem_of_singleton. done. }
  destruct (aq_run_ops m m1 q buf [n] [] _ ops Hc Hqa Hops) as (m2 & q2 & ns2 & xs2 & os & E2 & Hf & Hr2 & Hv2 & G1 & G2 & G3).
  wp_bind. eapply wp_run; [exact E2|]. wp_bind.
  eapply wp_mono; [by eapply destroy_spec|]. intros ? m3 [Hh _]. wp_ret. split; [eauto|].
  intros b Hb. rewrite Hh. destruct (decide (b ∈ ns2)) as [Hin|Hin].
  - rewrite strip_lookup_None by (by rewrite touches_nodes). symmetry. by apply G2.
  - rewrite strip_lookup by (by rewrite touches_nodes). by apply G1.
Qed.

End proofs.

(** ** One producer and one consumer

    The threads run [enqueue] and [dequeue] concurrently; the allocator is
    safe to call from both, and allocations are numbered.  The producer counts
    its accesses to nodes; every access is stamped with the count, and a link is
    stored together with the count of what it publishes.  An acquire load of a
    link may miss it and return [NULL]; one that returns it brings the consumer
    up to the link's count.  A thread that accesses a node that is not live, or
    the consumer accessing one whose stamp it has not been brought up to, is an
    error of the program. *)

Section spsc.
Context {A : Type}.

Record anode := ANode {
  an_next : option (nat * nat);    (* the link and the count it publishes *)
  an_data : option (A * nat);      (* the element and the stamp of its write *)
  an_born : nat;                   (* the stamp of the store of NULL *)
  an_touch : nat                   (* the producer's last access *)
}.

Inductive producer :=
  | PIdle
  | PAlloc (x : A)                 (* about to call node_alloc *)
  | PFill (x : A) (n : nat)        (* about to copy the element in *)
  | PLink (x : A) (n : nat)        (* about to store tail->next *)
  | PTail (x : A) (n : nat).       (* about to set q->tail *)

Inductive consumer :=
  | CIdle
  | CLoad                          (* about to load head->next *)
  | CRead (next : nat)             (* about to copy the element out *)
  | CHead (next : nat) (x : A)     (* about to set q->head *)
  | CFree (old : nat) (x : A).     (* about to free the old head *)

Record state := State {
  live : gmap nat anode;
  fresh : nat;                     (* allocations so far *)
  clock : nat;                     (* the producer's accesses so far *)
  seen : nat;                      (* the count the consumer has been brought up to *)
  tail_f : nat;                    (* q->tail *)
  head_f : nat;                    (* q->head *)
  p_pc : producer;
  c_pc : consumer;
  enqueued : list A;               (* elements that have been linked *)
  dequeued : list A                (* elements of the dequeues that returned true *)
}.

(** After [init] there is the dummy. *)
Definition initial : state :=
  State {[ 0%nat := ANode None None 0 0 ]} 1 1 1 0 0 PIdle CIdle [] [].

Inductive event := EEnqueue (x : A) (ok : bool) | EDequeue (o : option A) | ETau | EError.

Definition p_error (s : state) : Prop :=
  match p_pc s with
  | PFill _ n => live s !! n = None
  | PLink _ _ => live s !! tail_f s = None
  | _ => False
  end.

Definition c_error (s : state) : Prop :=
  match c_pc s with
  | CLoad => forall nd, live s !! head_f s = Some nd -> (seen s <= an_born nd)%nat
  | CRead next => forall nd x w, live s !! next = Some nd -> an_data nd = Some (x, w) -> (seen s <= w)%nat
  | CFree old _ => forall nd, live s !! old = Some nd -> (seen s <= an_touch nd)%nat
  | _ => False
  end.

Inductive step : state -> event -> state -> Prop :=
  | step_enqueue_call s x :
      p_pc s = PIdle ->
      step s ETau (State (live s) (fresh s) (clock s) (seen s) (tail_f s) (head_f s) (PAlloc x) (c_pc s)
                         (enqueued s) (dequeued s))
  | step_alloc_fails s x :
      p_pc s = PAlloc x ->
      step s (EEnqueue x false) (State (live s) (fresh s) (clock s) (seen s) (tail_f s) (head_f s) PIdle (c_pc s)
                                       (enqueued s) (dequeued s))
  | step_alloc s x :
      p_pc s = PAlloc x ->
      step s ETau (State (<[fresh s := ANode None None (clock s) (clock s)]> (live s)) (S (fresh s)) (S (clock s))
                         (seen s) (tail_f s) (head_f s) (PFill x (fresh s)) (c_pc s) (enqueued s) (dequeued s))
  | step_fill s x n nd :
      p_pc s = PFill x n -> live s !! n = Some nd ->
      step s ETau (State (<[n := ANode (an_next nd) (Some (x, clock s)) (an_born nd) (clock s)]> (live s)) (fresh s)
                         (S (clock s)) (seen s) (tail_f s) (head_f s) (PLink x n) (c_pc s) (enqueued s) (dequeued s))
  | step_link s x n nd :
      p_pc s = PLink x n -> live s !! tail_f s = Some nd ->
      step s ETau (State (<[tail_f s := ANode (Some (n, S (clock s))) (an_data nd) (an_born nd) (clock s)]> (live s))
                         (fresh s) (S (clock s)) (seen s) (tail_f s) (head_f s) (PTail x n) (c_pc s)
                         (enqueued s ++ [x]) (dequeued s))
  | step_set_tail s x n :
      p_pc s = PTail x n ->
      step s (EEnqueue x true) (State (live s) (fresh s) (clock s) (seen s) n (head_f s) PIdle (c_pc s)
                                      (enqueued s) (dequeued s))
  | step_dequeue_call s :
      c_pc s = CIdle ->
      step s ETau (State (live s) (fresh s) (clock s) (seen s) (tail_f s) (head_f s) (p_pc s) CLoad
                         (enqueued s) (dequeued s))
  | step_load_null s nd :
      c_pc s = CLoad -> live s !! head_f s = Some nd -> (an_born nd < seen s)%nat ->
      step s (EDequeue None) (State (live s) (fresh s) (clock s) (seen s) (tail_f s) (head_f s) (p_pc s) CIdle
                                    (enqueued s) (dequeued s))
  | step_load_link s nd n c :
      c_pc s = CLoad -> live s !! head_f s = Some nd -> (an_born nd < seen s)%nat -> an_next nd = Some (n, c) ->
      step s ETau (State (live s) (fresh s) (clock s) (seen s `max` c) (tail_f s) (head_f s) (p_pc s) (CRead n)
                         (enqueued s) (dequeued s))
  | step_read s n nd x w :
      c_pc s = CRead n -> live s !! n = Some nd -> an_data nd = Some (x, w) -> (w < seen s)%nat ->
      step s ETau (State (live s) (fresh s) (clock s) (seen s) (tail_f s) (head_f s) (p_pc s) (CHead n x)
                         (enqueued s) (dequeued s))
  | step_skip s n nd x w :                           (* out == NULL: the element is not read *)
      c_pc s = CRead n -> live s !! n = Some nd -> an_data nd = Some (x, w) ->
      step s ETau (State (live s) (fresh s) (clock s) (seen s) (tail_f s) (head_f s) (p_pc s) (CHead n x)
                         (enqueued s) (dequeued s))
  | step_set_head s n x :
      c_pc s = CHead n x ->
      step s ETau (State (live s) (fresh s) (clock s) (seen s) (tail_f s) n (p_pc s) (CFree (head_f s) x)
                         (enqueued s) (dequeued s))
  | step_free s old x nd :
      c_pc s = CFree old x -> live s !! old = Some nd -> (an_touch nd < seen s)%nat ->
      step s (EDequeue (Some x)) (State (delete old (live s)) (fresh s) (clock s) (seen s) (tail_f s) (head_f s)
                                        (p_pc s) CIdle (enqueued s) (dequeued s ++ [x]))
  | step_error s :
      p_error s \/ c_error s -> step s EError s.

Inductive reachable : state -> Prop :=
  | reachable_init : reachable initial
  | reachable_step s e s' : reachable s -> step s e s' -> reachable s'.

(** *** The invariant *)

(** Allocation [k] holds the [k]-th element; [n] elements have been linked. *)
Definition linked (s : state) (k : nat) (nd : anode) : Prop :=
  exists c, an_next nd = Some (S k, c) /\ (an_touch nd < c)%nat /\
    exists nd' x w, live s !! S k = Some nd' /\ an_data nd' = Some (x, w) /\ enqueued s !! k = Some x /\
      (w < c)%nat /\ (an_born nd' < c)%nat.

Definition new_node (s : state) (x : A) (n : nat) : Prop :=
  n = S (length (enqueued s)) /\ fresh s = S n /\ tail_f s = length (enqueued s) /\
  exists nd, live s !! n = Some nd /\ an_next nd = None /\ (an_born nd < clock s)%nat.

Definition p_ok (s : state) : Prop :=
  let n := length (enqueued s) in
  match p_pc s with
  | PIdle | PAlloc _ => fresh s = S n /\ tail_f s = n
  | PFill x k => new_node s x k
  | PLink x k => new_node s x k /\ exists nd w, live s !! k = Some nd /\ an_data nd = Some (x, w) /\ (w < clock s)%nat
  | PTail x k => k = n /\ fresh s = S n
  end.

(** The consumer has been brought up to everything the producer did to the
    dummy, and to the creation of the node behind it. *)
Definition acquired (s : state) : Prop :=
  let r := length (dequeued s) in
  (r < length (enqueued s))%nat /\
  forall nd nd', live s !! r = Some nd -> live s !! S r = Some nd' ->
    (an_touch nd < seen s)%nat /\ (an_born nd' < seen s)%nat /\
    exists x w, an_data nd' = Some (x, w) /\ (w < seen s)%nat.

Definition c_ok (s : state) : Prop :=
  let r := length (dequeued s) in
  match c_pc s with
  | CIdle | CLoad => head_f s = r
  | CRead n => n = S r /\ head_f s = r /\ acquired s
  | CHead n x => n = S r /\ head_f s = r /\ acquired s /\ enqueued s !! r = Some x
  | CFree old x => old = r /\ head_f s = S r /\ acquired s /\ enqueued s !! r = Some x
  end.

Record inv (s : state) : Prop := {
  i_live k : is_Some (live s !! k) <-> (length (dequeued s) <= k < fresh s)%nat;
  i_fresh : (length (dequeued s) <= length (enqueued s) < fresh s)%nat;
  i_head nd : live s !! length (dequeued s) = Some nd -> (an_born nd < seen s)%nat;
  i_last nd : live s !! length (enqueued s) = Some nd -> an_next nd = None;
  i_linked k nd : (k < length (enqueued s))%nat -> live s !! k = Some nd -> linked s k nd;
  i_fifo : dequeued s `prefix_of` enqueued s;
  i_p : p_ok s;
  i_c : c_ok s
}.

Lemma aq_inv_initial : inv initial.
Proof.
  split; simpl; auto; try done; try lia.
  - intros k. destruct (decide (k = 0%nat)) as [->|Hne]; [split; [lia|eauto]|].
    rewrite lookup_singleton_ne by done. split; [by intros [? ?]|lia].
  - intros nd Hn. rewrite lookup_singleton_eq in Hn. injection Hn as <-. simpl. lia.
  - intros nd Hn. rewrite lookup_singleton_eq in Hn. by injection Hn as <-.
Qed.

(** What a step of the producer leaves of the nodes that are linked. *)
Record keeps (s s' : state) : Prop := {
  k_deq : dequeued s' = dequeued s;
  k_seen : seen s' = seen s;
  k_head : head_f s' = head_f s;
  k_c : c_pc s' = c_pc s;
  k_enq : enqueued s `prefix_of` enqueued s';
  k_nodes k nd' : (k <= length (enqueued s))%nat -> live s' !! k = Some nd' ->
    exists nd, live s !! k = Some nd /\ an_born nd' = an_born nd /\ an_data nd' = an_data nd /\
      ((k < length (enqueued s))%nat -> nd' = nd)
}.

Lemma acquired_keeps s s' : keeps s s' -> acquired s -> acquired s'.
Proof.
  intros [] [Hlt Ha]. unfold acquired. rewrite k_deq0, k_seen0. pose proof (prefix_length _ _ k_enq0).
  split; [lia|]. intros nd nd' Hn Hn'.
  apply k_nodes0 in Hn as (nd0 & Hn & _ & _ & E); [|lia]. rewrite (E Hlt).
  apply k_nodes0 in Hn' as (nd0' & Hn' & -> & -> & _); [|lia]. by apply Ha.
Qed.

Lemma c_ok_keeps s s' : keeps s s' -> c_ok s -> c_ok s'.
Proof.
  intros Hk Hc. unfold c_ok in *. pose proof (acquired_keeps _ _ Hk) as Ha. destruct Hk.
  rewrite k_c0, k_head0, k_deq0. destruct (c_pc s); naive_solver eauto using prefix_lookup_Some.
Qed.

Lemma keeps_inv s s' :
  inv s -> keeps s s' -> (length (enqueued s') < fresh s')%nat ->
  (forall k, is_Some (live s' !! k) <-> (length (dequeued s) <= k < fresh s')%nat) ->
  (forall nd, live s' !! length (enqueued s') = Some nd -> an_next nd = None) ->
  (forall k nd, (k < length (enqueued s'))%nat -> live s' !! k = Some nd -> linked s' k nd) ->
  p_ok s' -> inv s'.
Proof.
  intros Hi Hk Hf Hl Hlast Hlk Hp. pose proof (c_ok_keeps _ _ Hk (i_c _ Hi)). pose proof (i_fresh _ Hi).
  destruct Hk. pose proof (prefix_length _ _ k_enq0). split; rewrite ?k_deq0, ?k_seen0; auto.
  - lia.
  - intros nd Hn. apply k_nodes0 in Hn as (nd0 & Hn & -> & _); [|lia]. by apply Hi.
  - etrans; [apply Hi|done].
Qed.

(** Links are kept by a step that changes no linked node. *)
Lemma linked_keeps s s' k nd :
  linked s k nd -> (forall nd', live s !! S k = Some nd' -> exists nd2, live s' !! S k = Some nd2 /\
     an_born nd2 = an_born nd' /\ an_data nd2 = an_data nd') ->
  enqueued s `prefix_of` enqueued s' -> linked s' k nd.
Proof.
  intros (c & En & Ht & nd' & x & w & Hl & Hd & Hx & ? & ?) Hn Hp.
  destruct (Hn nd' Hl) as (nd2 & Hl2 & Hb & Hd2). exists c. split_and!; auto.
  exists nd2, x, w. rewrite Hd2, Hb. split_and!; auto. by eapply prefix_lookup_Some.
Qed.

Lemma live_lt s k : inv s -> (length (dequeued s) <= k < fresh s)%nat -> exists nd, live s !! k = Some nd.
Proof. intros Hi Hk. by apply (i_live _ Hi). Qed.

Lemma inv_alloc s x :
  inv s -> p_pc s = PAlloc x ->
  inv (State (<[fresh s := ANode None None (clock s) (clock s)]> (live s)) (S (fresh s)) (S (clock s))
             (seen s) (tail_f s) (head_f s) (PFill x (fresh s)) (c_pc s) (enqueued s) (dequeued s)).
Proof.
  intros Hi Epc. pose proof (i_p _ Hi) as Hp. unfold p_ok in Hp. rewrite Epc in Hp. destruct Hp as [Hf Ht].
  pose proof (i_fresh _ Hi). set (nd0 := ANode _ _ _ _).
  assert (forall k, (k <= length (enqueued s))%nat -> <[fresh s := nd0]> (live s) !! k = live s !! k) as Hsame
    by (intros k Hk; apply lookup_insert_ne; lia).
  eapply (keeps_inv s); simpl; auto.
  - split; simpl; auto. intros k nd' Hk. rewrite Hsame by done. eauto.
  - lia.
  - intros k. rewrite lookup_insert. case_decide; [split; [lia|eauto]|]. rewrite (i_live _ Hi). lia.
  - intros nd. rewrite Hsame by done. apply Hi.
  - intros k nd Hk. rewrite Hsame by lia. intros Hn. eapply linked_keeps; [by apply (i_linked _ Hi)| |done].
    intros nd' Hn'. simpl. rewrite Hsame by lia. eauto.
  - unfold p_ok. simpl. unfold new_node. simpl. split_and!; auto. exists nd0.
    split; [apply lookup_insert_eq|]. simpl. split; [done|lia].
Qed.

Lemma inv_fill s x n nd0 :
  inv s -> p_pc s = PFill x n -> live s !! n = Some nd0 ->
  inv (State (<[n := ANode (an_next nd0) (Some (x, clock s)) (an_born nd0) (clock s)]> (live s)) (fresh s)
             (S (clock s)) (seen s) (tail_f s) (head_f s) (PLink x n) (c_pc s) (enqueued s) (dequeued s)).
Proof.
  intros Hi Epc Hnd. pose proof (i_p _ Hi) as Hp. unfold p_ok in Hp. rewrite Epc in Hp.
  destruct Hp as (En & Hf & Ht & nd & Hn & Enx & Hb). assert (nd0 = nd) as -> by congruence.
  pose proof (i_fresh _ Hi). set (nd1 := ANode _ _ _ _).
  assert (forall k, (k <= length (enqueued s))%nat -> <[n := nd1]> (live s) !! k = live s !! k) as Hsame
    by (intros k Hk; apply lookup_insert_ne; lia).
  eapply (keeps_inv s); simpl; auto.
  - split; simpl; auto. intros k nd' Hk. rewrite Hsame by done. eauto.
  - lia.
  - intros k. rewrite lookup_insert. case_decide; [split; [lia|eauto]|]. apply (i_live _ Hi).
  - intros nd'. rewrite Hsame by done. apply Hi.
  - intros k nd' Hk. rewrite Hsame by lia. intros Hn'. eapply linked_keeps; [by apply (i_linked _ Hi)| |done].
    intros nd2 Hn2. simpl. rewrite Hsame by lia. eauto.
  - unfold p_ok. simpl. split.
    + unfold new_node. simpl. split_and!; auto. exists nd1. split; [apply lookup_insert_eq|]. simpl. split; [done|lia].
    + exists nd1, (clock s). split; [apply lookup_insert_eq|]. simpl. split; [done|lia].
Qed.

Lemma inv_link s x n nd0 :
  inv s -> p_pc s = PLink x n -> live s !! tail_f s = Some nd0 ->
  inv (State (<[tail_f s := ANode (Some (n, S (clock s))) (an_data nd0) (an_born nd0) (clock s)]> (live s))
             (fresh s) (S (clock s)) (seen s) (tail_f s) (head_f s) (PTail x n) (c_pc s)
             (enqueued s ++ [x]) (dequeued s)).
Proof.
  intros Hi Epc Hnd0. pose proof (i_p _ Hi) as Hp. unfold p_ok in Hp. rewrite Epc in Hp.
  destruct Hp as ((En & Hf & Ht & nd & Hn & Enx & Hb) & nd' & w & Hn' & Hd & Hw).
  assert (nd' = nd) as -> by congruence. pose proof (i_fresh _ Hi). set (nd1 := ANode _ _ _ _).
  assert (forall k, k <> length (enqueued s) -> <[tail_f s := nd1]> (live s) !! k = live s !! k) as Hsame
    by (intros k Hk; apply lookup_insert_ne; lia).
  assert (<[tail_f s := nd1]> (live s) !! length (enqueued s) = Some nd1) as Hnew
    by (rewrite Ht; apply lookup_insert_eq).
  rewrite Ht in Hnd0.
  eapply (keeps_inv s); simpl; rewrite ?length_app; simpl; auto.
  - split; simpl; auto; [by apply prefix_app_r|]. intros k nk Hk Hnk.
    destruct (decide (k = length (enqueued s))) as [->|Hne]; [|rewrite Hsame in Hnk by done; eauto].
    rewrite Hnew in Hnk. injection Hnk as <-. exists nd0. split_and!; auto. lia.
  - lia.
  - intros k. rewrite lookup_insert. case_decide; [split; [lia|eauto]|]. apply (i_live _ Hi).
  - intros nk. rewrite Hsame by lia. intros Hnk. replace (length (enqueued s) + 1)%nat with n in Hnk by lia. congruence.
  - intros k nk Hk Hnk. destruct (decide (k = length (enqueued s))) as [->|Hne].
    + rewrite Hnew in Hnk. injection Hnk as <-. exists (S (clock s)). simpl. split_and!; [by rewrite En|lia|].
      exists nd, x, w. rewrite Hsame by lia. split_and!; try lia; [congruence|done|]. by apply list_lookup_middle.
    + rewrite Hsame in Hnk by done. eapply linked_keeps; [apply (i_linked _ Hi); [lia|done]| |by apply prefix_app_r].
      intros n2 Hn2. simpl. destruct (decide (S k = length (enqueued s))) as [E|Hne'].
      * rewrite E in *. exists nd1. rewrite Hnew. split_and!; auto; simpl; congruence.
      * rewrite Hsame by done. eauto.
  - unfold p_ok. simpl. rewrite length_app. simpl. lia.
Qed.

(** The consumer follows the link: it has been brought up to the node. *)
Lemma inv_load s nd n c :
  inv s -> c_pc s = CLoad -> live s !! head_f s = Some nd -> an_next nd = Some (n, c) ->
  inv (State (live s) (fresh s) (clock s) (seen s `max` c) (tail_f s) (head_f s) (p_pc s) (CRead n)
             (enqueued s) (dequeued s)).
Proof.
  intros Hi Epc Hn En. pose proof (i_c _ Hi) as Hc. unfold c_ok in Hc. rewrite Epc in Hc. rewrite Hc in Hn.
  pose proof (i_fresh _ Hi).
  assert (length (dequeued s) < length (enqueued s))%nat as Hlt.
  { destruct (decide (length (dequeued s) = length (enqueued s))) as [E|]; [|lia].
    rewrite E in Hn. rewrite (i_last _ Hi _ Hn) in En. done. }
  destruct (i_linked _ Hi _ _ Hlt Hn) as (c' & En' & Ht & nd' & x & w & Hn' & Hd & Hx & Hw & Hb).
  assert (n = S (length (dequeued s)) /\ c' = c) as [-> ->] by naive_solver.
  destruct Hi. split; simpl; auto.
  - intros nk Hnk. specialize (i_head0 _ Hnk). lia.
  - unfold c_ok. simpl. split_and!; auto. split; [done|]. simpl. intros n1 n2 H1 H2.
    assert (n1 = nd) as -> by congruence. assert (n2 = nd') as -> by congruence.
    split_and!; [lia|lia|]. exists x, w. split; [done|lia].
Qed.

Lemma linked_delete s s' k nd :
  linked s k nd -> (live s' !! S k = live s !! S k) -> enqueued s' = enqueued s -> linked s' k nd.
Proof.
  intros Hl E1 E2. eapply linked_keeps; [exact Hl| |by rewrite E2]. intros nd' Hn'. rewrite E1. eauto.
Qed.

(** Freeing the old dummy. *)
Lemma inv_free s old x :
  inv s -> c_pc s = CFree old x ->
  inv (State (delete old (live s)) (fresh s) (clock s) (seen s) (tail_f s) (head_f s) (p_pc s) CIdle
             (enqueued s) (dequeued s ++ [x])).
Proof.
  intros Hi Epc. pose proof (i_c _ Hi) as Hc. unfold c_ok in Hc. rewrite Epc in Hc.
  destruct Hc as (-> & Hh & (Hlt & Ha) & Hx). pose proof (i_fresh _ Hi).
  set (r := length (dequeued s)) in *.
  assert (forall k, k <> r -> delete r (live s) !! k = live s !! k) as Hsame
    by (intros k Hk; by apply lookup_delete_ne).
  destruct (live_lt s r Hi) as [nd Hn]; [lia|].
  split; simpl; rewrite ?length_app; simpl; rewrite ?Nat.add_1_r; try lia.
  - intros k. rewrite lookup_delete. fold r. case_decide; [split; [by intros []|lia]|].
    rewrite (i_live _ Hi). fold r. lia.
  - fold r. intros nk. rewrite Hsame by lia. intros Hnk. by destruct (Ha _ _ Hn Hnk) as (_ & ? & _).
  - intros nk. rewrite Hsame by lia. apply Hi.
  - intros k nk Hk Hnk. destruct (decide (k = r)) as [->|Hne]; [by rewrite lookup_delete_eq in Hnk|].
    rewrite Hsame in Hnk by done. eapply linked_delete; [by apply (i_linked _ Hi)| |done]. simpl.
    apply Hsame. assert (r <= k)%nat; [|lia]. apply (i_live _ Hi k). eauto.
  - destruct (i_fifo _ Hi) as [rest E]. rewrite E in Hx |- *. unfold r in Hx.
    rewrite lookup_app_r, Nat.sub_diag in Hx by lia. destruct rest as [|y rest]; [done|].
    injection Hx as ->. exists rest. by rewrite <- app_assoc.
  - pose proof (i_p _ Hi) as Hp. unfold p_ok, new_node in *. simpl. destruct (p_pc s); auto;
      [|destruct Hp as [Hp Hp2]; split]; rewrite ?Hsame by lia; auto.
  - unfold c_ok. simpl. rewrite length_app, Nat.add_1_r. done.
Qed.

(** The node the consumer has loaded holds the next element, read or not. *)
Lemma inv_read s n nd x w :
  inv s -> c_pc s = CRead n -> live s !! n = Some nd -> an_data nd = Some (x, w) ->
  inv (State (live s) (fresh s) (clock s) (seen s) (tail_f s) (head_f s) (p_pc s) (CHead n x)
             (enqueued s) (dequeued s)).
Proof.
  intros Hi Epc Hn Hd. pose proof (i_c _ Hi) as Hc. unfold c_ok in Hc. rewrite Epc in Hc.
  destruct Hi, Hc as (-> & Hh & Ha). split; auto. unfold c_ok. simpl. split_and!; auto.
  destruct Ha as [Hlt _]. destruct (live_lt s (length (dequeued s)) ltac:(by split)) as [n0 Hn0]; [lia|].
  destruct (i_linked0 _ _ Hlt Hn0) as (c & _ & _ & nd' & y & v & Hn' & Hd' & Hy & _). congruence.
Qed.

Lemma aq_inv_step s e s' : inv s -> step s e s' -> inv s'.
Proof.
  intros Hi Hs. pose proof (i_p _ Hi) as Hp. pose proof (i_c _ Hi) as Hc. unfold p_ok, c_ok in Hp, Hc.
  destruct Hs as [s x Epc|s x Epc|s x Epc|s x n nd Epc Hn|s x n nd Epc Hn|s x n Epc
    |s Epc|s nd Epc Hn Hb|s nd n c Epc Hn Hb En|s n nd x w Epc Hn Hd Hw|s n nd x w Epc Hn Hd|s n x Epc|s old x nd Epc Hn Ht|s He];
    try (rewrite Epc in Hp); try (rewrite Epc in Hc); eauto using inv_alloc, inv_fill, inv_link, inv_load, inv_free;
    try (destruct Hi; split; auto; fail).
  - destruct Hi, Hp as [-> ?]. split; auto. unfold p_ok. done.
  - by apply (inv_read s n nd x w).
  - by apply (inv_read s n nd x w).
  - destruct Hi, Hc as (-> & Hh & Ha & Hx). split; auto. unfold c_ok. simpl. split_and!; auto.
Qed.

Lemma aq_reachable_inv s : reachable s -> inv s.
Proof. induction 1; eauto using aq_inv_initial, aq_inv_step. Qed.

(** The invariant excludes every access to a node that is not live and every
    race. *)
Lemma inv_no_error s : inv s -> ~ (p_error s \/ c_error s).
Proof.
  intros Hi. pose proof (i_p _ Hi) as Hp. pose proof (i_c _ Hi) as Hc. pose proof (i_fresh _ Hi).
  unfold p_ok, c_ok, p_error, c_error in *. intros [He|He].
  - destruct (p_pc s) as [| |x n|x n|]; try done.
    + destruct Hp as (_ & _ & _ & nd & Hn & _). congruence.
    + destruct Hp as ((-> & Hf & Ht & _) & _). rewrite Ht in He.
      destruct (live_lt s (length (enqueued s)) Hi) as [nd Hn]; [lia|]. congruence.
  - destruct (c_pc s) as [| |n|n x|old x]; try done.
    + rewrite Hc in He. destruct (live_lt s (length (dequeued s)) Hi) as [nd Hn]; [lia|].
      specialize (He nd Hn). pose proof (i_head _ Hi _ Hn). lia.
    + destruct Hc as (-> & _ & Hlt & Ha).
      destruct (live_lt s (length (dequeued s)) Hi) as [nd Hn]; [lia|].
      destruct (live_lt s (S (length (dequeued s))) Hi) as [nd' Hn']; [lia|].
      destruct (Ha _ _ Hn Hn') as (_ & _ & x & w & Hd & Hw). specialize (He _ _ _ Hn' Hd). lia.
    + destruct Hc as (-> & _ & (Hlt & Ha) & _).
      destruct (live_lt s (length (dequeued s)) Hi) as [nd Hn]; [lia|].
      destruct (live_lt s (S (length (dequeued s))) Hi) as [nd' Hn']; [lia|].
      destruct (Ha _ _ Hn Hn') as (Ht & _). specialize (He _ Hn). lia.
Qed.

(** A thread inside an operation can always take its next step. *)
Definition threads_run (s : state) : Prop :=
  (p_pc s <> PIdle -> exists e s', step s e s' /\ c_pc s' = c_pc s /\ p_pc s' <> p_pc s) /\
  (c_pc s <> CIdle -> exists e s', step s e s' /\ p_pc s' = p_pc s /\ c_pc s' <> c_pc s).

Lemma inv_threads_run s : inv s -> threads_run s.
Proof.
  intros Hi. pose proof (inv_no_error _ Hi) as Hne. unfold p_error, c_error in Hne.
  pose proof (i_p _ Hi) as Hp. pose proof (i_c _ Hi) as Hc. pose proof (i_fresh _ Hi) as Hfr.
  unfold p_ok, c_ok in *. split.
  - destruct (p_pc s) as [|x|x n|x n|x n] eqn:Epc; intros Hn; [done|..].
    + eexists _, _. split; [by apply (step_alloc_fails s x)|done].
    + destruct (live s !! n) as [nd|] eqn:E; [|naive_solver].
      eexists _, _. split; [by eapply (step_fill s x n nd)|done].
    + destruct (live s !! tail_f s) as [nd|] eqn:E; [|naive_solver].
      eexists _, _. split; [by eapply (step_link s x n nd)|done].
    + eexists _, _. split; [by apply (step_set_tail s x n)|done].
  - destruct (c_pc s) as [| |n|n x|old x] eqn:Epc; intros Hn; [done|..].
    + rewrite <- Hc in Hfr. destruct (live_lt s (head_f s) Hi) as [nd Hnd]; [lia|].
      pose proof (i_head _ Hi nd) as Hb. rewrite <- Hc in Hb.
      eexists _, _. split; [by eapply (step_load_null s nd); auto|done].
    + destruct Hc as (-> & _ & Hlt & Ha).
      destruct (live_lt s (length (dequeued s)) Hi) as [nd Hnd]; [lia|].
      destruct (live_lt s (S (length (dequeued s))) Hi) as [nd' Hnd']; [lia|].
      destruct (Ha _ _ Hnd Hnd') as (_ & _ & x & w & Hd & Hw).
      eexists _, _. split; [by eapply (step_read s _ nd' x w)|done].
    + eexists _, _. split; [by apply (step_set_head s n x)|done].
    + destruct Hc as (-> & _ & (Hlt & Ha) & _).
      destruct (live_lt s (length (dequeued s)) Hi) as [nd Hnd]; [lia|].
      destruct (live_lt s (S (length (dequeued s))) Hi) as [nd' Hnd']; [lia|].
      destruct (Ha _ _ Hnd Hnd') as (Ht & _).
      eexists _, _. split; [by eapply (step_free s _ x nd)|done].
Qed.

(** C13. Concurrent use by one producer and one consumer is safe under
    acquire/release: in every reachable state, whatever the interleaving and
    whichever links the acquire loads miss, neither thread touches a node that
    has been freed, reads an element that has not been published to it or frees
    a node the other thread may still be writing; the elements dequeued are the
    elements enqueued, in order, none lost or duplicated; the nodes alive are
    exactly the dummy, those of the elements not yet dequeued and the one being
    filled, so none leaks; and neither thread ever waits for the other. *)
Theorem aq_spsc_safe s :
  reachable s ->
  (forall s', ~ step s EError s') /\ dequeued s `prefix_of` enqueued s /\
  (forall k, is_Some (live s !! k) <-> (length (dequeued s) <= k < fresh s)%nat) /\
  (fresh s <= length (enqueued s) + 2)%nat /\ threads_run s.
Proof.
  intros Hr. pose proof (aq_reachable_inv _ Hr) as Hi. split.
  { intros s' Hs. inversion Hs; subst. by eapply inv_no_error. }
  split; [apply Hi|]. split; [apply Hi|]. split; [|by apply inv_threads_run].
  pose proof (i_p _ Hi) as Hp. unfold p_ok, new_node in Hp. destruct (p_pc s); lia.
Qed.

End spsc.

(** ** Witnesses *)

Section witnesses.
#[local] Existing Instance libc_plenty.

Definition zero_queue : d4np_atomic_queue := Queue None 0 0 Null Null.
Definition one_buf : mem := Mem {[ 0%nat := Block 16 [Undef; Undef] ]} 1.

Lemma aq_program_refines_witness :
  let ops := [AEnqueue [Byte 1; Byte 2]; AEnqueue [Byte 3; Byte 4]; AIsEmpty; ADequeue] in
  wp (d4np_atomic_queue_init (Some zero_queue) None 2) one_buf (fun r m1 =>
    match r.1 with
    | D4NP_OK =>
        wp (with_queue r.2 (fun q => '(os, q) ← run_ops q (Ptr 0 0) ops;
              _ ← d4np_atomic_queue_destroy (Some q); mret os)) m1
           (fun os m2 => (exists xs, fifo (~ never_fails (resolve None)) [] ops os xs) /\
                         only [Ptr 0 0] one_buf m2)
    | D4NP_ERR_OVERFLOW => SIZE_MAX < 16 + 2 /\ m1 = one_buf
    | D4NP_ERR_OUT_OF_MEMORY => m_heap m1 = m_heap one_buf /\
        (never_fails (resolve None) -> PTRDIFF_MAX < 16 + 2)
    | _ => False
    end).
Proof.
  intros ops. apply (aq_program_refines one_buf zero_queue None 2 (Ptr 0 0) ops); [done|size_lia| |].
  - exists 0%nat, 0, (Block 16 [Undef; Undef]). done.
  - repeat constructor.
Defined.

(** One element has been linked, and the consumer is about to free the dummy. *)
Definition two_nodes : gmap nat (anode (A := Z)) :=
  {[ 0%nat := ANode (Some (1, 4)%nat) None 0 3; 1%nat := ANode None (Some (7, 2%nat)) 1 2 ]}.

Definition mid_state : state (A := Z) :=
  State two_nodes 2 4 4 0 1 (PTail 7 1) (CFree 0 7) [7] [].

#[local] Tactic Notation "step_in" hyp(R) uconstr(c) :=
  eapply reachable_step in R; [|eapply c; (reflexivity || (simpl; lia))];
  cbn [initial live fresh clock seen tail_f head_f p_pc c_pc enqueued dequeued] in R.

Lemma aq_mid_reachable : reachable mid_state.
Proof.
  pose proof (@reachable_init Z) as R.
  step_in R (step_enqueue_call _ 7).
  step_in R (step_alloc _ 7).
  step_in R (step_fill _ 7 1).
  step_in R (step_link _ 7 1).
  step_in R step_dequeue_call.
  step_in R (step_load_link _ _ 1 4).
  step_in R (step_read _ 1 _ 7 2).
  step_in R (step_set_head _ 1 7).
  exact R.
Qed.

Lemma aq_spsc_safe_witness :
  (forall s', ~ step mid_state EError s') /\ dequeued mid_state `prefix_of` enqueued mid_state /\
  (forall k, is_Some (live mid_state !! k) <-> (length (dequeued mid_state) <= k < fresh mid_state)%nat) /\
  (fresh mid_state <= length (enqueued mid_state) + 2)%nat /\ threads_run mid_state.
Proof. apply aq_spsc_safe. exact aq_mid_reachable. Defined.

End witnesses.

End AtomicQueue.
