(* ===== verification/Mutex.v ===== *)
(** * Mutex ([d4np/concurrency/mutex.h], [mutex.c])

    The wrappers around the platform's lock.  The lock itself is the
    platform's; what is used of it is its documented behaviour: it has one
    owner, locking it while another thread owns it waits, and locking it twice,
    unlocking it without owning it or using it when it is not initialised is
    undefined.  The semaphore and the thread pool run these functions. *)

From S2P Require Import Prelude Status.

Module Mutex.

(** The outcome of a call that may have to wait. *)
Inductive outcome (A : Type) :=
  | Done (a : A)
  | Blocks
  | Undefined.
Arguments Done {A} a.
Arguments Blocks {A}.
Arguments Undefined {A}.

(** The platform's mutex in the opaque storage. *)
Inductive d4np_mutex :=
  | Uninit
  | Mtx (owner : option nat).

Section code.
Variable self : nat.        (* the calling thread *)

Definition pthread_mutex_lock (m : d4np_mutex) : outcome d4np_mutex :=
  match m with
  | Uninit => Undefined
  | Mtx None => Done (Mtx (Some self))
  | Mtx (Some t) => if decide (t = self) then Undefined else Blocks
  end.

Definition pthread_mutex_unlock (m : d4np_mutex) : outcome d4np_mutex :=
  match m with
  | Mtx (Some t) => if decide (t = self) then Done (Mtx None) else Undefined
  | _ => Undefined
  end.

(** Zero on success, an error code otherwise. *)
Definition pthread_mutex_trylock (m : d4np_mutex) : outcome (Z * d4np_mutex) :=
  match m with
  | Uninit => Undefined
  | Mtx None => Done (0%Z, Mtx (Some self))
  | Mtx (Some t) => Done (16%Z, m)
  end.

Definition pthread_mutex_destroy (m : d4np_mutex) : outcome d4np_mutex :=
  match m with Mtx None => Done Uninit | _ => Undefined end.

(** [rc] is what [pthread_mutex_init] returns. *)
Definition d4np_mutex_init (m : option d4np_mutex) (rc : Z) : d4np_status * option d4np_mutex :=
  match m with
  | None => (D4NP_ERR_INVALID_ARGUMENT, None)
  | Some m => if (rc =? 0)%Z then (D4NP_OK, Some (Mtx None)) else (D4NP_ERR_INTERNAL, Some m)
  end.

Definition d4np_mutex_destroy (m : option d4np_mutex) : outcome (option d4np_mutex) :=
  match m with
  | None => Done None
  | Some m => match pthread_mutex_destroy m with
              | Done m => Done (Some m) | Blocks => Blocks | Undefined => Undefined end
  end.

(** The assertion stops the program. *)
Definition d4np_mutex_lock (m : option d4np_mutex) : outcome d4np_mutex :=
  match m with None => Undefined | Some m => pthread_mutex_lock m end.

Definition d4np_mutex_unlock (m : option d4np_mutex) : outcome d4np_mutex :=
  match m with None => Undefined | Some m => pthread_mutex_unlock m end.

Definition d4np_mutex_trylock (m : option d4np_mutex) : outcome (bool * option d4np_mutex) :=
  match m with
  | None => Done (false, None)
  | Some m => match pthread_mutex_trylock m with
              | Done (rc, m) => Done ((rc =? 0)%Z, Some m) | Blocks => Blocks | Undefined => Undefined end
  end.

End code.

(** What the clients of the lock use. *)

Lemma lock_done self m m' :
  d4np_mutex_lock self (Some m) = Done m' <-> m = Mtx None /\ m' = Mtx (Some self).
Proof. destruct m as [|[t|]]; simpl; repeat case_decide; naive_solver. Qed.

Lemma unlock_done self m m' :
  d4np_mutex_unlock self (Some m) = Done m' <-> m = Mtx (Some self) /\ m' = Mtx None.
Proof. destruct m as [|[t|]]; simpl; repeat case_decide; naive_solver. Qed.

Lemma lock_undefined self m :
  d4np_mutex_lock self (Some m) = Undefined <-> m = Uninit \/ m = Mtx (Some self).
Proof. destruct m as [|[t|]]; simpl; repeat case_decide; naive_solver. Qed.

Lemma unlock_undefined self m :
  d4np_mutex_unlock self (Some m) = Undefined <-> m <> Mtx (Some self).
Proof. destruct m as [|[t|]]; simpl; repeat case_decide; naive_solver. Qed.

(** ** Mutual exclusion

    Threads are the elements of a list, each with its program counter; those
    with a [critical] one are between locking and unlocking. *)

Section exclusion.
Context {P : Type} (critical : P -> bool).

(** The owner of the mutex is the one thread in a critical section. *)
Definition exclusive (m : d4np_mutex) (l : list P) : Prop :=
  exists o, m = Mtx o /\ (forall i p, l !! i = Some p -> critical p = true <-> o = Some i) /\
    (forall i, o = Some i -> is_Some (l !! i)).

Lemma insert_live (l : list P) i q k : is_Some (l !! k) -> is_Some (<[i := q]> l !! k).
Proof. rewrite !lookup_lt_is_Some, length_insert. done. Qed.

Lemma exclusive_move m l i p q :
  exclusive m l -> l !! i = Some p -> critical p = critical q -> exclusive m (<[i := q]> l).
Proof.
  intros (o & -> & Ho & Hl) Hi E. exists o. split_and!; auto using insert_live. intros k r.
  rewrite list_lookup_insert_Some. intros [(<- & <- & _)|[_ Hk]]; [|by apply Ho].
  rewrite <- E. by apply Ho.
Qed.

Lemma exclusive_lock m m' l i p q :
  exclusive m l -> l !! i = Some p -> pthread_mutex_lock i m = Done m' -> critical q = true ->
  exclusive m' (<[i := q]> l).
Proof.
  intros (o & -> & Ho & Hl) Hi Hm Hq. apply (lock_done i) in Hm as [[= ->] ->]. exists (Some i).
  split_and!; [done| |intros k [= <-]; by apply insert_live].
  intros k r. rewrite list_lookup_insert_Some. intros [(<- & <- & _)|[Hne Hk]]; [naive_solver|].
  apply Ho in Hk. split; [|naive_solver]. intros Hr. by apply Hk in Hr.
Qed.

Lemma exclusive_unlock m m' l i p q :
  exclusive m l -> l !! i = Some p -> pthread_mutex_unlock i m = Done m' -> critical q = false ->
  exclusive m' (<[i := q]> l).
Proof.
  intros (o & -> & Ho & Hl) Hi Hm Hq. apply (unlock_done i) in Hm as [[= ->] ->]. exists None.
  split_and!; [done| |done].
  intros k r. rewrite list_lookup_insert_Some. intros [(<- & <- & _)|[Hne Hk]]; [rewrite Hq; naive_solver|].
  apply Ho in Hk. split; [|done]. intros Hr. apply Hk in Hr. congruence.
Qed.

(** A thread that starts. *)
Lemma exclusive_snoc m l p : exclusive m l -> critical p = false -> exclusive m (l ++ [p]).
Proof.
  intros (o & -> & Ho & Hl) Hp. exists o. split_and!; [done| |].
  - intros k r [[_ Hk]|[-> <-]]%lookup_snoc_Some; [by apply Ho|]. split; [congruence|].
    intros Hx. apply Hl in Hx as Hx%lookup_lt_is_Some. lia.
  - intros i Hi. apply Hl in Hi as [q Hq]. exists q. by apply lookup_app_l_Some.
Qed.

(** The owner neither waits nor misuses the lock. *)
Lemma exclusive_owner m l i p :
  exclusive m l -> l !! i = Some p -> critical p = true -> pthread_mutex_unlock i m = Done (Mtx None).
Proof.
  intros (o & -> & Ho & _) Hi Hp. apply (Ho i p Hi) in Hp as ->. simpl. by rewrite decide_True.
Qed.

Lemma exclusive_lock_defined m l i p :
  exclusive m l -> l !! i = Some p -> critical p = false -> pthread_mutex_lock i m <> Undefined.
Proof.
  intros (o & -> & Ho & _) Hi Hp Hu. apply (lock_undefined i) in Hu as [?|[= ->]]; [done|].
  specialize (Ho i p Hi). rewrite (proj2 Ho eq_refl) in Hp. done.
Qed.

End exclusion.

End Mutex.
