(* ===== verification/MutexWin32.v ===== *)
(** * Mutex on Windows ([d4np/concurrency/mutex.c], Windows branches)

    The wrappers around [CRITICAL_SECTION], a lock that its owner may enter
    again, and the comparison with the POSIX branches of [Mutex]. *)

From S2P Require Import Prelude Status Mutex.
Import Mutex.

Module MutexWin32.

(** The platform's lock in the opaque storage: its owner and how many times it
    has been entered, or nothing that was initialised. *)
Inductive critical_section :=
  | Unset
  | Cs (owner : option (nat * nat)).

Section code.
Variable self : nat.        (* the calling thread *)

Definition EnterCriticalSection (m : critical_section) : outcome critical_section :=
  match m with
  | Unset => Undefined
  | Cs None => Done (Cs (Some (self, 1)))
  | Cs (Some (t, n)) => if decide (t = self) then Done (Cs (Some (self, S n))) else Blocks
  end.

(** Zero when another thread is the owner. *)
Definition TryEnterCriticalSection (m : critical_section) : outcome (Z * critical_section) :=
  match m with
  | Unset => Undefined
  | Cs None => Done (1%Z, Cs (Some (self, 1)))
  | Cs (Some (t, n)) => if decide (t = self) then Done (1%Z, Cs (Some (self, S n))) else Done (0%Z, m)
  end.

(** The lock is free when its owner has left as often as it entered. *)
Definition LeaveCriticalSection (m : critical_section) : outcome critical_section :=
  match m with
  | Cs (Some (t, n)) =>
      if decide (t = self) then Done (Cs (if decide (n = 1) then None else Some (self, pred n))) else Undefined
  | _ => Undefined
  end.

Definition DeleteCriticalSection (m : critical_section) : outcome critical_section :=
  match m with Cs None => Done Unset | _ => Undefined end.

Definition d4np_mutex_init (m : option critical_section) : d4np_status * option critical_section :=
  match m with
  | None => (D4NP_ERR_INVALID_ARGUMENT, None)
  | Some _ => (D4NP_OK, Some (Cs None))
  end.

Definition d4np_mutex_destroy (m : option critical_section) : outcome (option critical_section) :=
  match m with
  | None => Done None
  | Some m => match DeleteCriticalSection m with
              | Done m => Done (Some m) | Blocks => Blocks | Undefined => Undefined end
  end.

(** The assertion stops the program. *)
Definition d4np_mutex_lock (m : option critical_section) : outcome critical_section :=
  match m with None => Undefined | Some m => EnterCriticalSection m end.

Definition d4np_mutex_unlock (m : option critical_section) : outcome critical_section :=
  match m with None => Undefined | Some m => LeaveCriticalSection m end.

Definition d4np_mutex_trylock (m : option critical_section) : outcome (bool * option critical_section) :=
  match m with
  | None => Done (false, None)
  | Some m => match TryEnterCriticalSection m with
              | Done (rc, m) => Done (negb (rc =? 0)%Z, Some m) | Blocks => Blocks | Undefined => Undefined end
  end.

End code.

(** ** Programs of calls on one mutex *)

Inductive call := CInit | CDestroy | CLock | CUnlock | CTrylock.

(** What the caller learns; a call that waits has not returned. *)
Inductive answer := AStatus (st : d4np_status) | AReturned | ABool (b : bool) | AWaits.

Definition answered {A B : Type} (a : A -> answer) (keep : A -> B) (old : B) (o : outcome A) : option (answer * B) :=
  match o with
  | Done x => Some (a x, keep x)
  | Blocks => Some (AWaits, old)
  | Undefined => None
  end.

(** One call by a thread, [None] if it is undefined. *)
Definition posix_call (i : nat) (c : call) (m : option d4np_mutex) : option (answer * option d4np_mutex) :=
  match c with
  | CInit => let '(st, m') := Mutex.d4np_mutex_init m 0 in Some (AStatus st, m')
  | CDestroy => answered (fun _ => AReturned) id m (Mutex.d4np_mutex_destroy m)
  | CLock => answered (fun _ => AReturned) Some m (Mutex.d4np_mutex_lock i m)
  | CUnlock => answered (fun _ => AReturned) Some m (Mutex.d4np_mutex_unlock i m)
  | CTrylock => answered (ABool ∘ fst) snd m (Mutex.d4np_mutex_trylock i m)
  end.

Definition win32_call (i : nat) (c : call) (m : option critical_section) : option (answer * option critical_section) :=
  match c with
  | CInit => let '(st, m') := d4np_mutex_init m in Some (AStatus st, m')
  | CDestroy => answered (fun _ => AReturned) id m (d4np_mutex_destroy m)
  | CLock => answered (fun _ => AReturned) Some m (d4np_mutex_lock i m)
  | CUnlock => answered (fun _ => AReturned) Some m (d4np_mutex_unlock i m)
  | CTrylock => answered (ABool ∘ fst) snd m (d4np_mutex_trylock i m)
  end.

(** The answers to the calls of any threads, in the order they are made. *)
Fixpoint answers {B} (serve : nat -> call -> B -> option (answer * B)) (cs : list (nat * call)) (m : B)
  : option (list answer * B) :=
  match cs with
  | [] => Some ([], m)
  | (i, c) :: cs =>
      '(a, m) ← serve i c m;
      '(l, m) ← answers serve cs m;
      Some (a :: l, m)
  end.

(** The owner does not try the lock it holds. *)
Definition no_owner_trylock (i : nat) (c : call) (m : option d4np_mutex) : bool :=
  match c, m with
  | CTrylock, Some (Mtx (Some t)) => bool_decide (t <> i)
  | _, _ => true
  end.

(** A POSIX call that keeps the rule of the header in [trylock] too. *)
Definition strict_call (i : nat) (c : call) (m : option d4np_mutex) : option (answer * option d4np_mutex) :=
  if no_owner_trylock i c m then posix_call i c m else None.

(** The POSIX mutex that a section entered at most once stands for. *)
Inductive same_lock : option d4np_mutex -> option critical_section -> Prop :=
  | same_null : same_lock None None
  | same_uninit : same_lock (Some Uninit) (Some Unset)
  | same_free : same_lock (Some (Mtx None)) (Some (Cs None))
  | same_held i : same_lock (Some (Mtx (Some i))) (Some (Cs (Some (i, 1)))).

Lemma call_agrees i c m w a m' :
  same_lock m w -> strict_call i c m = Some (a, m') -> exists w', win32_call i c w = Some (a, w') /\ same_lock m' w'.
Proof.
  intros Hs. unfold strict_call. destruct (no_owner_trylock i c m) eqn:Hn; [|done].
  destruct Hs as [| | |t]; destruct c; simpl in *; repeat case_decide; intros ?; simplify_eq/=; try (by apply bool_decide_eq_true in Hn);
    eexists; (split; [done|constructor]).
Qed.

Lemma answers_agree cs m w l m' :
  same_lock m w -> answers strict_call cs m = Some (l, m') ->
  exists w', answers win32_call cs w = Some (l, w') /\ same_lock m' w'.
Proof.
  revert m w l. induction cs as [|[i c] cs IH]; intros m w l Hs; simpl; [intros [= <- <-]; eauto|].
  intros ([a m1] & E1 & ([l1 m2] & E2 & [= <- <-])%bind_Some)%bind_Some.
  destruct (call_agrees _ _ _ _ _ _ Hs E1) as (w1 & -> & Hs1). simpl.
  destruct (IH _ _ _ Hs1 E2) as (w2 & -> & Hs2). simpl. eauto.
Qed.

(** A strict program is one of the POSIX mutex. *)
Lemma strict_posix cs m l m' : answers strict_call cs m = Some (l, m') -> answers posix_call cs m = Some (l, m').
Proof.
  revert m l. induction cs as [|[i c] cs IH]; intros m l; simpl; [done|].
  intros ([a m1] & E1 & ([l1 m2] & E2 & [= <- <-])%bind_Some)%bind_Some.
  unfold strict_call in E1. destruct (no_owner_trylock i c m); [|done]. rewrite E1. simpl. by rewrite (IH _ _ E2).
Qed.

(** ** Properties *)

(** C22. The mutex does the same on both platforms: any sequence of calls by
    any threads that is defined on POSIX and in which no owner tries the lock it
    already holds gets the same answers from the Windows branch, and the lock
    ends in the same state. *)
Theorem mutex_platforms_agree cs m w l m' :
  same_lock m w -> answers strict_call cs m = Some (l, m') ->
  answers posix_call cs m = Some (l, m') /\ exists w', answers win32_call cs w = Some (l, w') /\ same_lock m' w'.
Proof. intros Hs E. split; [by apply strict_posix|by eapply answers_agree]. Qed.

(** The exception matters: a thread that tries the lock it holds is
    refused on POSIX and let in on Windows, where a single unlock then does not
    release the lock and the next thread waits; the header says that the lock is
    not recursive, and leaves only [lock] by its owner undefined. *)
Theorem mutex_owner_trylock_diverges i j :
  i <> j ->
  let cs := [(i, CLock); (i, CTrylock); (i, CUnlock); (j, CLock)] in
  answers posix_call cs (Some (Mtx None)) =
    Some ([AReturned; ABool false; AReturned; AReturned], Some (Mtx (Some j))) /\
  answers win32_call cs (Some (Cs None)) =
    Some ([AReturned; ABool true; AReturned; AWaits], Some (Cs (Some (i, 1)))).
Proof.
  intros Hne. simpl. split.
  - rewrite decide_True by done. done.
  - rewrite decide_True by done. simpl. rewrite decide_True by done. simpl. by rewrite decide_False.
Qed.

(** ** Witnesses *)

Lemma mutex_platforms_agree_witness :
  exists w', answers win32_call [(0, CInit); (0, CLock); (1, CTrylock); (1, CLock); (0, CUnlock); (1, CLock)] (Some Unset) =
    Some ([AStatus D4NP_OK; AReturned; ABool false; AWaits; AReturned; AReturned], w') /\ same_lock (Some (Mtx (Some 1))) w'.
Proof.
  by apply (mutex_platforms_agree [(0, CInit); (0, CLock); (1, CTrylock); (1, CLock); (0, CUnlock); (1, CLock)]
    (Some Uninit) (Some Unset) [AStatus D4NP_OK; AReturned; ABool false; AWaits; AReturned; AReturned] (Some (Mtx (Some 1))) same_uninit).
Defined.

Lemma mutex_owner_trylock_diverges_witness :
  answers win32_call [(0, CLock); (0, CTrylock); (0, CUnlock); (1, CLock)] (Some (Cs None)) =
    Some ([AReturned; ABool true; AReturned; AWaits], Some (Cs (Some (0, 1)))).
Proof. by apply (mutex_owner_trylock_diverges 0 1). Defined.

End MutexWin32.
