(* ===== verification/Counter.v ===== *)
(** * Counting semaphores: the promise

    The atomic counter that the semaphores of both platforms refine, and what
    follows for their users from the refinement alone. *)

From S2P Require Import Prelude.

Local Open Scope Z_scope.

Module Counter.

(** What the callers of a semaphore see, in the order it happens; [ETau] is an
    internal step and [EUndefined] undefined behaviour. *)
Inductive event :=
  | EAcquired (i : nat)
  | ETryFailed (i : nat)
  | EPosted (i : nat)
  | ETau
  | EUndefined.

(** ** An atomic counter *)

Definition atomic (c : Z) (e : event) : option Z :=
  match e with
  | EAcquired _ => if 0 <? c then Some (c - 1) else None
  | ETryFailed _ => if c =? 0 then Some c else None
  | EPosted _ => Some (c + 1)
  | ETau => Some c
  | EUndefined => None
  end.

Fixpoint atomics (c : Z) (tr : list event) : option Z :=
  match tr with
  | [] => Some c
  | e :: tr => c ← atomic c e; atomics c tr
  end.

Definition posts (tr : list event) : nat :=
  sum_list_with (fun e => match e with EPosted _ => 1 | _ => 0 end)%nat tr.

Lemma atomics_snoc c tr e : atomics c (tr ++ [e]) = atomics c tr ≫= fun c => atomic c e.
Proof.
  revert c. induction tr as [|e' tr IH]; intros c; simpl; [by destruct (atomic c e)|].
  destruct (atomic c e'); simpl; auto.
Qed.

(** The count never exceeds what was there and what was posted. *)
Lemma atomics_bound c tr c' : atomics c tr = Some c' -> c' <= c + Z.of_nat (posts tr).
Proof.
  revert c. induction tr as [|e tr IH]; intros c; simpl; [intros [= ->]; lia|].
  destruct (atomic c e) as [c1|] eqn:E; simpl; [|done]. intros H. apply IH in H. unfold posts in *. simpl.
  destruct e; simpl in *; repeat case_match; simplify_eq; lia.
Qed.


Definition acquires (tr : list event) : nat :=
  sum_list_with (fun e => match e with EAcquired _ => 1 | _ => 0 end)%nat tr.

(** The permits are never more or less than the posts left. *)
Lemma atomics_exact c tr c' : atomics c tr = Some c' -> c' + Z.of_nat (acquires tr) = c + Z.of_nat (posts tr).
Proof.
  revert c. unfold acquires, posts. induction tr as [|e tr IH]; intros c; simpl; [intros [= ->]; lia|].
  destruct (atomic c e) as [c1|] eqn:E; simpl; [|done]. intros H. apply IH in H.
  destruct e; simpl in *; repeat case_match; simplify_eq; lia.
Qed.

Lemma atomics_nonneg c tr c' : 0 <= c -> atomics c tr = Some c' -> 0 <= c'.
Proof.
  revert c. induction tr as [|e tr IH]; intros c Hc; simpl; [by intros [= ->]|].
  destruct (atomic c e) as [c1|] eqn:E; simpl; [|done]. apply IH.
  destruct e; simpl in *; repeat case_match; simplify_eq; try lia; by apply Z.ltb_lt in H; lia.
Qed.

Lemma atomics_app c tr1 tr2 : atomics c (tr1 ++ tr2) = atomics c tr1 ≫= fun c => atomics c tr2.
Proof.
  revert c. induction tr1 as [|e tr1 IH]; intros c; simpl; [done|]. destruct (atomic c e); simpl; auto.
Qed.

(** A semaphore: the states [starts c] begin with [c] permits, and as long as
    there are at most [limit] permits its runs are runs of the counter. *)
Class CountingSemaphore (St : Type) := {
  starts : Z -> St -> Prop;
  runs : St -> list event -> St -> Prop;
  limit : Z;
  counts c s tr s' :
    0 <= c -> starts c s -> runs s tr s' -> c + Z.of_nat (posts tr) <= limit -> is_Some (atomics c tr)
}.

(** For the users of any semaphore: at no moment have more permits been
    acquired than were there and were posted, an attempt fails only when all of
    them are out, and nothing undefined happens. *)
Definition permits_exact (c : Z) (tr : list event) : Prop :=
  EUndefined ∉ tr /\
  (forall tr1 tr2, tr = tr1 ++ tr2 -> Z.of_nat (acquires tr1) <= c + Z.of_nat (posts tr1)) /\
  (forall tr1 i tr2, tr = tr1 ++ ETryFailed i :: tr2 -> Z.of_nat (acquires tr1) = c + Z.of_nat (posts tr1)).

Lemma counting_permits `{CountingSemaphore St} c s tr s' :
  0 <= c -> starts c s -> runs s tr s' -> c + Z.of_nat (posts tr) <= limit -> permits_exact c tr.
Proof.
  intros Hc Hs Hr Hl. destruct (counts c s tr s' Hc Hs Hr Hl) as [c' E].
  assert (forall tr1 tr2, tr = tr1 ++ tr2 -> exists c1, atomics c tr1 = Some c1 /\ is_Some (atomics c1 tr2)) as Hsplit.
  { intros tr1 tr2 ->. rewrite atomics_app in E. destruct (atomics c tr1) as [c1|]; [|done]. simpl in E. eauto. }
  split_and!.
  - intros (tr1 & tr2 & Ht)%list_elem_of_split. destruct (Hsplit _ _ Ht) as (c1 & _ & []). done.
  - intros tr1 tr2 Ht. destruct (Hsplit _ _ Ht) as (c1 & E1 & _).
    pose proof (atomics_exact _ _ _ E1). pose proof (atomics_nonneg _ _ _ Hc E1). lia.
  - intros tr1 i tr2 Ht. destruct (Hsplit _ _ Ht) as (c1 & E1 & [c2 E2]). simpl in E2.
    destruct (Z.eqb_spec c1 0) as [->|]; [|done]. pose proof (atomics_exact _ _ _ E1). lia.
Qed.

End Counter.
