(* ===== verification/Win32.v ===== *)
(** * Windows kernel objects

    The documented behaviour of the functions of Windows that the semaphores
    call ([CreateSemaphore], [CloseHandle], [WaitForSingleObject],
    [ReleaseSemaphore]): handles to counted objects, which may have a name and
    last as long as a handle to them does.  The functions are the system's; the
    semaphores of [semaphore.c] and [named_semaphore.c] are built on them. *)

From S2P Require Import Prelude Mutex Counter.
Import Mutex Counter.

Local Open Scope Z_scope.

Module Win32.

Definition LONG_MAX : Z := 2 ^ 31 - 1.

(** Handles and the objects they are for, the counts of the objects, the names;
    handles and objects are numbered and never numbered again. *)
Record kernel := Kernel {
  handles : gmap nat nat;
  objects : gmap nat Z;
  names : gmap (list Z) nat;
  next : nat
}.

Definition boot : kernel := Kernel ∅ ∅ ∅ 0.

(** A new handle for an object that is there. *)
Definition open_handle (o : nat) (k : kernel) : nat * kernel :=
  (next k, Kernel (<[next k := o]> (handles k)) (objects k) (names k) (S (next k))).

(** A new object; its number is that of its first handle. *)
Definition new_object (name : option (list Z)) (count : Z) (k : kernel) : nat * kernel :=
  (next k, Kernel (<[next k := next k]> (handles k)) (<[next k := count]> (objects k))
    (match name with None => names k | Some p => <[p := next k]> (names k) end) (S (next k))).

(** The maximum is [LONG_MAX] in every call; the system may refuse. *)
Definition CreateSemaphore (fails : bool) (initial : Z) (name : option (list Z)) (k : kernel)
  : option nat * kernel :=
  if fails then (None, k)
  else
    let '(h, k) :=
      match name ≫= fun p => names k !! p with
      | Some o => open_handle o k
      | None => new_object name initial k
      end in
    (Some h, k).

(** The object goes with its last handle, and its name with it. *)
Definition CloseHandle (h : nat) (k : kernel) : outcome kernel :=
  match handles k !! h with
  | None => Undefined
  | Some o =>
      let hs := delete h (handles k) in
      if decide (map_Forall (fun _ o' => o' <> o) hs)
      then Done (Kernel hs (delete o (objects k)) (filter (fun po => po.2 <> o) (names k)) (next k))
      else Done (Kernel hs (objects k) (names k) (next k))
  end.

Definition object (h : nat) (k : kernel) : option (nat * Z) :=
  o ← handles k !! h; c ← objects k !! o; Some (o, c).

Definition set_count (o : nat) (c : Z) (k : kernel) : kernel :=
  Kernel (handles k) (<[o := c]> (objects k)) (names k) (next k).

Definition INFINITE : Z := 2 ^ 32 - 1.
Definition WAIT_OBJECT_0 : Z := 0.
Definition WAIT_TIMEOUT : Z := 258.

(** Without a permit: the time-out of zero runs out at once, the infinite one
    never.  Only these two are used. *)
Definition WaitForSingleObject (h : nat) (timeout : Z) (k : kernel) : outcome (Z * kernel) :=
  match object h k with
  | None => Undefined
  | Some (o, c) =>
      if 0 <? c then Done (WAIT_OBJECT_0, set_count o (c - 1) k)
      else if timeout =? 0 then Done (WAIT_TIMEOUT, k)
      else Blocks
  end.

(** A release that would exceed the maximum leaves the count as it is. *)
Definition ReleaseSemaphore (h : nat) (n : Z) (k : kernel) : outcome (bool * kernel) :=
  match object h k with
  | None => Undefined
  | Some (o, c) => if c + n <=? LONG_MAX then Done (true, set_count o (c + n) k) else Done (false, k)
  end.

(** ** The kernel's invariant

    A handle is for an object that is there, an object has a handle, a name is
    for an object, and numbers in use are below [next]. *)

Record kernel_ok (k : kernel) : Prop := {
  k_live : forall h o, handles k !! h = Some o -> is_Some (objects k !! o);
  k_held : forall o c, objects k !! o = Some c -> exists h, handles k !! h = Some o;
  k_name : forall p o, names k !! p = Some o -> is_Some (objects k !! o);
  k_inj : forall p q o, names k !! p = Some o -> names k !! q = Some o -> p = q;
  k_handle_fresh : forall h o, handles k !! h = Some o -> (h < next k)%nat;
  k_object_fresh : forall o c, objects k !! o = Some c -> (o < next k)%nat;
  k_range : forall o c, objects k !! o = Some c -> 0 <= c <= LONG_MAX
}.

Lemma boot_ok : kernel_ok boot.
Proof. split; intros; set_solver. Qed.

Lemma set_count_ok k o c d :
  kernel_ok k -> objects k !! o = Some c -> 0 <= d <= LONG_MAX -> kernel_ok (set_count o d k).
Proof.
  intros [H1 H2 H3 H4 H5 H6 H7] Ho Hd.
  assert (forall o', is_Some (objects k !! o') -> is_Some (<[o := d]> (objects k) !! o')) as Hlive.
  { intros o' Ho'. rewrite lookup_insert_is_Some'. auto. }
  split; simpl; eauto; intros o' c'; rewrite lookup_insert_Some; naive_solver.
Qed.

Lemma open_handle_ok k o : kernel_ok k -> is_Some (objects k !! o) -> kernel_ok (open_handle o k).2.
Proof.
  intros [H1 H2 H3 H4 H5 H6 H7] Ho. split; simpl; eauto.
  - intros h o'. rewrite lookup_insert_Some. naive_solver.
  - intros o' c Hc. destruct (H2 _ _ Hc) as [h Hh]. exists h. rewrite lookup_insert_ne; [done|].
    apply H5 in Hh. lia.
  - intros h o'. rewrite lookup_insert_Some. intros [[<- _]|[_ Hh]]; [lia|]. apply H5 in Hh. lia.
  - intros o' c Hc%H6. lia.
Qed.

Lemma new_object_ok k name c :
  kernel_ok k -> 0 <= c <= LONG_MAX -> (forall p, name = Some p -> names k !! p = None) ->
  kernel_ok (new_object name c k).2.
Proof.
  intros [H1 H2 H3 H4 H5 H6 H7] Hc Hn.
  assert (forall o, is_Some (objects k !! o) -> is_Some (<[next k := c]> (objects k) !! o)) as Hlive.
  { intros o Ho. rewrite lookup_insert_is_Some'. auto. }
  assert (forall p o, names k !! p = Some o -> o <> next k) as Hne.
  { intros p o [x Hx%H6]%H3. lia. }
  split; simpl.
  - intros h o. rewrite lookup_insert_Some. intros [[_ <-]|[_ Hh]]; [by rewrite lookup_insert_eq|]. eauto.
  - intros o x. rewrite lookup_insert_Some. intros [[<- <-]|[Hno Ho]].
    + exists (next k). by rewrite lookup_insert_eq.
    + destruct (H2 _ _ Ho) as [h Hh]. exists h. rewrite lookup_insert_ne; [done|]. apply H5 in Hh. lia.
  - intros p o. destruct name as [q|]; [rewrite lookup_insert_Some|eauto].
    intros [[_ <-]|[_ Hp]]; [by rewrite lookup_insert_eq|eauto].
  - intros p q o. destruct name as [r|]; [|eauto]. rewrite !lookup_insert_Some.
    intros [[<- <-]|[_ Hp]] [[<- E]|[_ Hq]]; auto; try (by destruct (Hne _ _ Hp)); [|eauto].
    by destruct (Hne _ _ Hq).
  - intros h o. rewrite lookup_insert_Some. intros [[<- _]|[_ Hh%H5]]; lia.
  - intros o x. rewrite lookup_insert_Some. intros [[<- _]|[_ Ho%H6]]; lia.
  - intros o x. rewrite lookup_insert_Some. naive_solver.
Qed.

Lemma CreateSemaphore_ok fails c name k :
  kernel_ok k -> 0 <= c <= LONG_MAX -> kernel_ok (CreateSemaphore fails c name k).2.
Proof.
  intros Hk Hc. unfold CreateSemaphore. destruct fails; [done|].
  destruct (name ≫= _) as [o|] eqn:E; simpl.
  - destruct name as [p|]; [|done]. simpl in E. apply (open_handle_ok k o Hk). by eapply k_name.
  - apply (new_object_ok k name c Hk Hc). by intros p ->.
Qed.

Lemma CloseHandle_ok h k k' : kernel_ok k -> CloseHandle h k = Done k' -> kernel_ok k'.
Proof.
  intros [H1 H2 H3 H4 H5 H6 H7]. unfold CloseHandle. destruct (handles k !! h) as [o|] eqn:Hh; [|done].
  case_decide as Hlast; intros [= <-]; split; simpl.
  - intros h' o' Hh'. rewrite lookup_delete_ne; [apply lookup_delete_Some in Hh' as [_ ?]; eauto|].
    apply Hlast in Hh'. done.
  - intros o' c [Hne Ho']%lookup_delete_Some. destruct (H2 _ _ Ho') as [h' Hh']. exists h'.
    rewrite lookup_delete_ne; [done|]. congruence.
  - intros p o' [Hp Hne]%map_lookup_filter_Some. simpl in Hne. rewrite lookup_delete_ne by done. eauto.
  - intros p q o' [Hp _]%map_lookup_filter_Some [Hq _]%map_lookup_filter_Some. eauto.
  - intros h' o' [_ ?]%lookup_delete_Some. eauto.
  - intros o' c [_ ?]%lookup_delete_Some. eauto.
  - intros o' c [_ ?]%lookup_delete_Some. eauto.
  - intros h' o' [_ ?]%lookup_delete_Some. eauto.
  - intros o' c Ho'. destruct (decide (o' = o)) as [->|Hne].
    + apply map_not_Forall in Hlast as (h' & o' & Hh' & Ho''); [|apply _]. apply dec_stable in Ho''. subst. eauto.
    + destruct (H2 _ _ Ho') as [h' Hh']. exists h'. rewrite lookup_delete_ne; [done|]. congruence.
  - eauto.
  - eauto.
  - intros h' o' [_ ?]%lookup_delete_Some. eauto.
  - eauto.
  - eauto.
Qed.

Lemma object_live h k o : kernel_ok k -> handles k !! h = Some o -> exists c, object h k = Some (o, c) /\ objects k !! o = Some c.
Proof. intros Hk Hh. destruct (k_live k Hk h o Hh) as [c Hc]. exists c. unfold object. by rewrite Hh; simpl; rewrite Hc. Qed.

Lemma object_Some h k o c : object h k = Some (o, c) <-> handles k !! h = Some o /\ objects k !! o = Some c.
Proof.
  unfold object. rewrite bind_Some. setoid_rewrite bind_Some. naive_solver.
Qed.

(** The outcomes of the operations on a handle. *)

Lemma Wait_done h t k rc k' :
  WaitForSingleObject h t k = Done (rc, k') ->
  exists o c, handles k !! h = Some o /\ objects k !! o = Some c /\
    (0 < c /\ rc = WAIT_OBJECT_0 /\ k' = set_count o (c - 1) k \/
     c <= 0 /\ t = 0 /\ rc = WAIT_TIMEOUT /\ k' = k).
Proof.
  unfold WaitForSingleObject. destruct (object h k) as [[o c]|] eqn:E; [|done]. apply object_Some in E as [Hh Ho].
  exists o, c. destruct (Z.ltb_spec 0 c); [|destruct (Z.eqb_spec t 0)]; naive_solver.
Qed.

Lemma Release_done h k b k' :
  ReleaseSemaphore h 1 k = Done (b, k') ->
  exists o c, handles k !! h = Some o /\ objects k !! o = Some c /\
    (c < LONG_MAX /\ b = true /\ k' = set_count o (c + 1) k \/ LONG_MAX <= c /\ b = false /\ k' = k).
Proof.
  unfold ReleaseSemaphore. destruct (object h k) as [[o c]|] eqn:E; [|done]. apply object_Some in E as [Hh Ho].
  intros H. exists o, c. split; [done|]. split; [done|]. revert H.
  destruct (Z.leb_spec (c + 1) LONG_MAX); intros [= <- <-]; [left|right]; (split; [lia|done]).
Qed.

Lemma Wait_ok h t k rc k' : kernel_ok k -> WaitForSingleObject h t k = Done (rc, k') -> kernel_ok k'.
Proof.
  intros Hk (o & c & Hh & Ho & [(Hc & _ & ->)|(_ & _ & _ & ->)])%Wait_done; [|done].
  pose proof (k_range k Hk o c Ho). eapply set_count_ok; eauto. lia.
Qed.

Lemma Release_ok h k b k' : kernel_ok k -> ReleaseSemaphore h 1 k = Done (b, k') -> kernel_ok k'.
Proof.
  intros Hk (o & c & Hh & Ho & [(Hc & _ & ->)|(_ & _ & ->)])%Release_done; [|done].
  pose proof (k_range k Hk o c Ho). eapply set_count_ok; eauto. lia.
Qed.

(** A live handle is never misused. *)
Lemma Wait_defined h t k : kernel_ok k -> is_Some (handles k !! h) -> WaitForSingleObject h t k <> Undefined.
Proof.
  intros Hk [o Hh]. destruct (object_live h k o Hk Hh) as (c & E & _). unfold WaitForSingleObject. rewrite E.
  by repeat case_match.
Qed.

Lemma Release_defined h k : kernel_ok k -> is_Some (handles k !! h) -> ReleaseSemaphore h 1 k <> Undefined.
Proof.
  intros Hk [o Hh]. destruct (object_live h k o Hk Hh) as (c & E & _). unfold ReleaseSemaphore. rewrite E.
  by repeat case_match.
Qed.

End Win32.
