(* ===== verification/Semaphore.v ===== *)
(** * Semaphore ([d4np/concurrency/semaphore.h], [semaphore.c])

    The POSIX implementation: a counter under a mutex and a condition variable.
    The condition variable has the number of threads that wait for it; waiting
    for one, signalling it or destroying it is undefined when it is not
    initialised, and destroying it while a thread waits.
    Any number of threads run [wait], [trywait] and [post]; the steps are those
    between the calls of the pthread functions.  Every run is one of an atomic
    counter, and no permit is left unused while a thread sleeps. *)

From S2P Require Import Prelude Status Mutex Counter.
Import Mutex Counter.

Local Open Scope Z_scope.

Module Semaphore.

(** The platform's condition variable: what is used of it is its documented
    behaviour.  [waiters] threads are blocked on it; using it when it is not
    initialised and destroying it while a thread is blocked is undefined. *)
Inductive d4np_cond :=
  | CUninit
  | Cond (waiters : nat).

(** Unlocks the mutex and blocks, in one step. *)
Definition pthread_cond_wait (self : nat) (c : d4np_cond) (m : d4np_mutex) : outcome (d4np_cond * d4np_mutex) :=
  match c, pthread_mutex_unlock self m with
  | Cond n, Done m => Done (Cond (S n), m)
  | _, _ => Undefined
  end.

(** A thread that was blocked is not any more. *)
Definition cond_woken (c : d4np_cond) : d4np_cond :=
  match c with Cond n => Cond (pred n) | CUninit => CUninit end.

Definition pthread_cond_signal (c : d4np_cond) : outcome d4np_cond :=
  match c with Cond _ => Done (cond_woken c) | CUninit => Undefined end.

Definition pthread_cond_destroy (c : d4np_cond) : outcome d4np_cond :=
  match c with Cond O => Done CUninit | _ => Undefined end.

Record d4np_sem_posix := Sem { s_mutex : d4np_mutex; s_cond : d4np_cond; s_count : Z }.

(** [mutex_rc] and [cond_rc] are what the [pthread] initialisers return. *)
Definition d4np_semaphore_init (s : option d4np_sem_posix) (initial_count mutex_rc cond_rc : Z)
  : outcome (d4np_status * option d4np_sem_posix) :=
  match s with
  | None => Done (D4NP_ERR_INVALID_ARGUMENT, None)
  | Some p =>
      if negb (mutex_rc =? 0) then Done (D4NP_ERR_INTERNAL, Some p)
      else if negb (cond_rc =? 0) then
        match pthread_mutex_destroy (Mtx None) with
        | Done m => Done (D4NP_ERR_INTERNAL, Some (Sem m (s_cond p) (s_count p)))
        | Blocks => Blocks
        | Undefined => Undefined
        end
      else Done (D4NP_OK, Some (Sem (Mtx None) (Cond 0) initial_count))
  end.

Definition d4np_semaphore_destroy (s : option d4np_sem_posix) : outcome (option d4np_sem_posix) :=
  match s with
  | None => Done None
  | Some p =>
      match pthread_cond_destroy (s_cond p) with
      | Done c =>
          match pthread_mutex_destroy (s_mutex p) with
          | Done m => Done (Some (Sem m c (s_count p)))
          | Blocks => Blocks
          | Undefined => Undefined
          end
      | Blocks => Blocks
      | Undefined => Undefined
      end
  end.

(** ** The operations as steps of threads *)

Inductive pc :=
  | Idle
  | WLock                (* wait: about to lock *)
  | WTest                (* wait: about to test the count *)
  | WSleep               (* wait: in pthread_cond_wait *)
  | WWake                (* wait: woken, about to lock again *)
  | WUnlock              (* wait: about to unlock and return *)
  | TLock                (* trywait *)
  | TTest
  | TUnlock (ok : bool)
  | PLock                (* post *)
  | PCount
  | PSignal
  | PUnlock.

#[global] Instance sem_pc_eq_dec : EqDecision pc.
Proof. solve_decision. Defined.

(** The calls that lock, and where they go on. *)
Definition lock_next (p : pc) : option pc :=
  match p with
  | WLock | WWake => Some WTest
  | TLock => Some TTest
  | PLock => Some PCount
  | _ => None
  end.

(** The calls that unlock and return. *)
Definition unlock_next (p : pc) : option pc :=
  match p with
  | WUnlock | TUnlock _ | PUnlock => Some Idle
  | _ => None
  end.

(** The first step of an operation. *)
Definition entry (p : pc) : bool := match p with WLock | TLock | PLock => true | _ => false end.

(** Between locking and unlocking. *)
Definition critical (p : pc) : bool :=
  match p with
  | WTest | WUnlock | TTest | TUnlock _ | PCount | PSignal | PUnlock => true
  | _ => false
  end.

Record state := State { sem : d4np_sem_posix; threads : list pc }.

Definition initial (n : nat) (s : d4np_sem_posix) : state := State s (replicate n Idle).

Definition goes (s : state) (i : nat) (p : pc) : state := State (sem s) (<[i := p]> (threads s)).

(** Thread [j] wakes up in [pthread_cond_wait]. *)
Definition wakes (s : state) (j : nat) : state :=
  goes (State (Sem (s_mutex (sem s)) (cond_woken (s_cond (sem s))) (s_count (sem s))) (threads s)) j WWake.

Inductive step : state -> event -> state -> Prop :=
  | step_call s i p :
      threads s !! i = Some Idle -> entry p = true -> step s ETau (goes s i p)
  | step_lock s i p q m :
      threads s !! i = Some p -> lock_next p = Some q ->
      pthread_mutex_lock i (s_mutex (sem s)) = Done m ->
      step s ETau (goes (State (Sem m (s_cond (sem s)) (s_count (sem s))) (threads s)) i q)
  | step_unlock s i p q m :
      threads s !! i = Some p -> unlock_next p = Some q ->
      pthread_mutex_unlock i (s_mutex (sem s)) = Done m ->
      step s ETau (goes (State (Sem m (s_cond (sem s)) (s_count (sem s))) (threads s)) i q)
  | step_sleep s i c m :
      threads s !! i = Some WTest -> s_count (sem s) = 0 ->
      pthread_cond_wait i (s_cond (sem s)) (s_mutex (sem s)) = Done (c, m) ->
      step s ETau (goes (State (Sem m c (s_count (sem s))) (threads s)) i WSleep)
  | step_take s i :
      threads s !! i = Some WTest -> s_count (sem s) <> 0 ->
      step s (EAcquired i) (goes (State (Sem (s_mutex (sem s)) (s_cond (sem s)) (s_count (sem s) ⊟ 1)) (threads s)) i WUnlock)
  | step_try_take s i :
      threads s !! i = Some TTest -> 0 < s_count (sem s) ->
      step s (EAcquired i) (goes (State (Sem (s_mutex (sem s)) (s_cond (sem s)) (s_count (sem s) ⊟ 1)) (threads s)) i (TUnlock true))
  | step_try_fail s i :
      threads s !! i = Some TTest -> ~ 0 < s_count (sem s) ->
      step s (ETryFailed i) (goes s i (TUnlock false))
  | step_post s i :
      threads s !! i = Some PCount ->
      step s (EPosted i) (goes (State (Sem (s_mutex (sem s)) (s_cond (sem s)) (s_count (sem s) ⊞ 1)) (threads s)) i PSignal)
  | step_signal_none s i c :
      threads s !! i = Some PSignal -> (forall j, threads s !! j <> Some WSleep) ->
      pthread_cond_signal (s_cond (sem s)) = Done c ->
      step s ETau (goes (State (Sem (s_mutex (sem s)) c (s_count (sem s))) (threads s)) i PUnlock)
  | step_signal s i j c :
      threads s !! i = Some PSignal -> threads s !! j = Some WSleep ->
      pthread_cond_signal (s_cond (sem s)) = Done c ->
      step s ETau (goes (goes (State (Sem (s_mutex (sem s)) c (s_count (sem s))) (threads s)) j WWake) i PUnlock)
  | step_spurious s j :
      threads s !! j = Some WSleep -> step s ETau (wakes s j)
  | step_undefined s i p :
      threads s !! i = Some p ->
      (is_Some (lock_next p) /\ pthread_mutex_lock i (s_mutex (sem s)) = Undefined) \/
      (critical p = true /\ pthread_mutex_unlock i (s_mutex (sem s)) = Undefined) \/
      (p = WTest /\ s_count (sem s) = 0 /\ pthread_cond_wait i (s_cond (sem s)) (s_mutex (sem s)) = Undefined) \/
      (p = PSignal /\ pthread_cond_signal (s_cond (sem s)) = Undefined) ->
      step s EUndefined s.

Inductive run (s : state) : list event -> state -> Prop :=
  | run_nil : run s [] s
  | run_snoc tr s1 e s2 : run s tr s1 -> step s1 e s2 -> run s (tr ++ [e]) s2.

(** ** The invariant *)

Definition asleep (p : pc) : nat := match p with WSleep => 1 | _ => 0 end%nat.

(** Threads that will test the count, or wake one that will. *)
Definition coming (p : pc) : nat := match p with WWake | WTest | PSignal => 1 | _ => 0 end%nat.

Record inv (s : state) : Prop := {
  i_mutex : exclusive critical (s_mutex (sem s)) (threads s);
  i_cond : s_cond (sem s) = Cond (sum_list_with asleep (threads s));
  i_count : 0 <= s_count (sem s) <= SIZE_MAX;
  (* a sleeper never misses a permit that nobody has been woken for *)
  i_wake : (0 < sum_list_with asleep (threads s))%nat ->
    s_count (sem s) <= Z.of_nat (sum_list_with coming (threads s))
}.

(** The counts after thread [i] moved from [x] to [y]. *)
Lemma counts_move l i x y :
  l !! i = Some x ->
  (sum_list_with asleep (<[i := y]> l) + asleep x = sum_list_with asleep l + asleep y)%nat /\
  (sum_list_with coming (<[i := y]> l) + coming x = sum_list_with coming l + coming y)%nat.
Proof. intros Hi. split; by apply sum_insert. Qed.

Lemma sem_lock_next_critical p q : lock_next p = Some q -> critical p = false /\ critical q = true.
Proof. destruct p; naive_solver. Qed.

Lemma sem_unlock_next_critical p q : unlock_next p = Some q -> critical p = true /\ q = Idle.
Proof. destruct p; naive_solver. Qed.

Lemma cond_wait_done i c m c' m' :
  pthread_cond_wait i c m = Done (c', m') -> exists n, c = Cond n /\ c' = Cond (S n) /\ pthread_mutex_unlock i m = Done m'.
Proof. unfold pthread_cond_wait. destruct c as [|n], (pthread_mutex_unlock i m); naive_solver. Qed.

(** A step from a state of the invariant is one of the atomic counter, as
    long as the counter has not reached its maximum. *)
Lemma step_ok s e s' :
  inv s -> step s e s' -> (posts [e] = 1%nat -> s_count (sem s) < SIZE_MAX) ->
  inv s' /\ atomic (s_count (sem s)) e = Some (s_count (sem s')).
Proof.
  intros [Hm Hcv Hc Hw] Hs Hp.
  destruct Hs as [s i p Hi Hpc|s i p q m Hi Hq Hl|s i p q m Hi Hq Hl|s i c m Hi H0 Hl|s i Hi H0|s i Hi H0
    |s i Hi H0|s i Hi|s i c Hi Hn Hsig|s i j c Hi Hj Hsig|s j Hj|s i p Hi Hu]; simpl in *.
  - split; [|done]. destruct (counts_move _ _ _ p Hi) as (H1 & H2). simpl in *.
    split; simpl; auto.
    + eapply exclusive_move; eauto. by destruct p.
    + rewrite Hcv. f_equal. destruct p; simplify_eq/=; lia.
    + intros ?. destruct p; simplify_eq/=; lia.
  - destruct (sem_lock_next_critical _ _ Hq) as [_ Hcq]. split; [|done].
    destruct (counts_move _ _ _ q Hi) as (H1 & H2). split; simpl; auto.
    + by eapply exclusive_lock.
    + rewrite Hcv. f_equal. destruct p; simplify_eq/=; lia.
    + intros ?. destruct p; simplify_eq/=; lia.
  - destruct (sem_unlock_next_critical _ _ Hq) as [_ ->]. split; [|done].
    destruct (counts_move _ _ _ Idle Hi) as (H1 & H2). split; simpl; auto.
    + by eapply exclusive_unlock.
    + rewrite Hcv. f_equal. destruct p; simplify_eq/=; lia.
    + intros ?. destruct p; simplify_eq/=; lia.
  - destruct (counts_move _ _ _ WSleep Hi) as (H1 & H2). simpl in *.
    apply cond_wait_done in Hl as (n & En & -> & Hl). split; [|done].
    split; simpl; auto; [by eapply exclusive_unlock| |lia]. rewrite Hcv in En. injection En as <-. f_equal. lia.
  - destruct (counts_move _ _ _ WUnlock Hi) as (H1 & H2). simpl in *. rewrite size_sub_small by size_lia.
    split; [|by destruct (Z.ltb_spec 0 (s_count (sem s))); [|lia]].
    split; simpl; [by eapply exclusive_move|rewrite Hcv; f_equal; lia|lia|lia].
  - destruct (counts_move _ _ _ (TUnlock true) Hi) as (H1 & H2). simpl in *. rewrite size_sub_small by size_lia.
    split; [|by destruct (Z.ltb_spec 0 (s_count (sem s))); [|lia]].
    split; simpl; [by eapply exclusive_move|rewrite Hcv; f_equal; lia|lia|lia].
  - destruct (counts_move _ _ _ (TUnlock false) Hi) as (H1 & H2). simpl in *.
    split; [|by destruct (Z.eqb_spec (s_count (sem s)) 0); [|lia]].
    split; simpl; [by eapply exclusive_move|rewrite Hcv; f_equal; lia|lia|lia].
  - destruct (counts_move _ _ _ PSignal Hi) as (H1 & H2). simpl in *. specialize (Hp eq_refl).
    rewrite size_add_small by size_lia. split; [|done]. split; simpl; [by eapply exclusive_move|rewrite Hcv; f_equal; lia|lia|lia].
  - destruct (counts_move _ _ _ PUnlock Hi) as (H1 & H2). simpl in *. split; [|done].
    rewrite Hcv in Hsig. injection Hsig as <-.
    assert (sum_list_with asleep (threads s) = 0)%nat as Hz; [|split; simpl; [by eapply exclusive_move|f_equal; lia|lia|lia]].
    destruct (decide (0 < sum_list_with asleep (threads s)))%nat; [exfalso|lia].
    destruct (sum_pos asleep (threads s)) as (k & x & Hk & Hx); [lia|].
    destruct x; simpl in Hx; try lia. by apply (Hn k).
  - destruct (counts_move _ _ _ WWake Hj) as (H1 & H2). simpl in *.
    assert (<[j := WWake]> (threads s) !! i = Some PSignal) as Hi'
      by (rewrite list_lookup_insert_ne; [done|congruence]).
    destruct (counts_move _ _ _ PUnlock Hi') as (H4 & H5). simpl in *. split; [|done].
    rewrite Hcv in Hsig. injection Hsig as <-. split; simpl; [| |lia|].
    + eapply exclusive_move; [by eapply exclusive_move|exact Hi'|done].
    + f_equal. lia.
    + intros Hz. lia.
  - destruct (counts_move _ _ _ WWake Hj) as (H1 & H2). simpl in *. split; [|done].
    split; simpl; [by eapply exclusive_move|rewrite Hcv; cbn [cond_woken]; f_equal; lia|lia|lia].
  - exfalso. destruct Hm as (o & Em & Ho & _). specialize (Ho i p Hi). rewrite Em in Hu.
    rewrite Hcv in Hu. destruct Hu as [[[q Hq] Hu]|[[Hcp Hu]|[(-> & _ & Hu)|[_ Hu]]]]; [| | |done].
    + apply (lock_undefined i) in Hu as [?|[= ->]]; [done|]. apply sem_lock_next_critical in Hq as [Hcp _].
      rewrite (proj2 Ho eq_refl) in Hcp. done.
    + apply (unlock_undefined i) in Hu. apply Hu. f_equal. by apply Ho.
    + rewrite (proj1 Ho eq_refl) in Hu. unfold pthread_cond_wait, pthread_mutex_unlock in Hu.
      by rewrite decide_True in Hu.
Qed.

Lemma initial_inv n c : 0 <= c <= SIZE_MAX -> inv (initial n (Sem (Mtx None) (Cond 0) c)).
Proof.
  intros Hc. assert (sum_list_with asleep (replicate n Idle) = 0%nat) as Hz
    by (apply sum_zero; intros i x [-> _]%lookup_replicate; done).
  split; simpl; auto; [|lia].
  exists None. split_and!; [done| |done]. intros i p [-> _]%lookup_replicate. done.
Qed.

Lemma run_ok n c tr s :
  0 <= c -> c + Z.of_nat (posts tr) <= SIZE_MAX -> run (initial n (Sem (Mtx None) (Cond 0) c)) tr s ->
  inv s /\ atomics c tr = Some (s_count (sem s)).
Proof.
  intros Hc Hp Hr. induction Hr as [|tr s1 e s2 Hr IH Hs].
  { split; [|done]. apply initial_inv. unfold posts in Hp. simpl in Hp. lia. }
  unfold posts in *. rewrite sum_list_with_app in Hp. fold (posts tr) in *. fold (posts [e]) in *.
  destruct IH as [Hi Ha]; [lia|]. pose proof (atomics_bound _ _ _ Ha).
  destruct (step_ok s1 e s2 Hi Hs) as [Hi2 He]; [lia|]. split; [done|].
  by rewrite atomics_snoc, Ha.
Qed.

(** ** Properties *)

(** C10. The semaphore is an atomic counter: in every run of any number of
    threads from a successful initialisation, the permits acquired, the failed
    attempts and the posts, in the order they happen, are a run of a counter
    that starts at the initial count, is decremented only when positive, and
    refuses [trywait] only when zero; the mutex is never misused and no
    thread touches the count without holding it.  The number of posts is only
    bounded by the width of the counter. *)
Theorem sem_refines_counter n init mutex_rc cond_rc s0 p tr s :
  0 <= init -> d4np_semaphore_init (Some s0) init mutex_rc cond_rc = Done (D4NP_OK, Some p) ->
  run (initial n p) tr s -> init + Z.of_nat (posts tr) <= SIZE_MAX ->
  atomics init tr = Some (s_count (sem s)).
Proof.
  intros Hi Hp Hr Hb. unfold d4np_semaphore_init in Hp.
  destruct (mutex_rc =? 0), (cond_rc =? 0); simplify_eq/=. by eapply run_ok.
Qed.

(** A thread in the middle of an operation that is not asleep. *)
Definition awake (p : pc) : bool := match p with Idle | WSleep => false | _ => true end.

(** Some thread in the middle of an operation can go on. *)
Definition can_go_on (s : state) : Prop :=
  exists i p e s', threads s !! i = Some p /\ awake p = true /\ step s e s' /\
    threads s' !! i <> Some p.

Lemma goes_moves s i p q : threads s !! i = Some p -> q <> p -> threads (goes s i q) !! i <> Some p.
Proof.
  intros Hi Hne. simpl. rewrite list_lookup_insert_eq by (by eapply lookup_lt_Some). congruence.
Qed.

(** The owner of the mutex never waits. *)
Lemma owner_goes_on s i p :
  inv s -> threads s !! i = Some p -> critical p = true -> can_go_on s.
Proof.
  intros Hv Hi Hp. destruct (i_mutex _ Hv) as (o & Em & Ho & _). pose proof (proj1 (Ho i p Hi) Hp) as ->.
  pose proof (i_count _ Hv). pose proof (i_cond _ Hv) as Hcv.
  assert (pthread_mutex_unlock i (s_mutex (sem s)) = Done (Mtx None)) as Hu
    by (rewrite Em; exact (proj2 (unlock_done i _ _) (conj eq_refl eq_refl))).
  assert (forall e q s1, step s e (goes s1 i q) -> threads s1 !! i = Some p -> q <> p -> can_go_on s) as Hgo.
  { intros e q s1 Hs Et Hne. exists i, p, e, (goes s1 i q). split_and!; auto; [by destruct p|].
    by apply goes_moves. }
  destruct p; try done.
  - destruct (decide (s_count (sem s) = 0)).
    + eapply Hgo; [eapply (step_sleep s i); [done..|]|done|done].
      unfold pthread_cond_wait. by rewrite Hcv, Hu.
    + by eapply Hgo; [by eapply (step_take s i)|..].
  - by eapply Hgo; [by eapply (step_unlock s i)|..].
  - destruct (decide (0 < s_count (sem s))).
    + by eapply Hgo; [by eapply (step_try_take s i)|..].
    + by eapply Hgo; [by eapply (step_try_fail s i)|..].
  - by eapply Hgo; [by eapply (step_unlock s i)|..].
  - by eapply Hgo; [by eapply (step_post s i)|..].
  - destruct (decide (0 < sum_list_with asleep (threads s))%nat) as [Hz|Hz].
    + apply sum_pos in Hz as (j & x & Hj & Hx). destruct x; simpl in Hx; try lia.
      eapply Hgo; [by eapply (step_signal s i j); [..|by rewrite Hcv]| |done].
      simpl. rewrite list_lookup_insert_ne; [done|congruence].
    + eapply Hgo; [eapply (step_signal_none s i _ Hi); [|by rewrite Hcv]|done|done].
      intros j Hj. apply Hz. pose proof (sum_elem asleep _ _ _ Hj). simpl in *. lia.
  - by eapply Hgo; [by eapply (step_unlock s i)|..].
Qed.

Lemma awake_goes_on s i p : inv s -> threads s !! i = Some p -> awake p = true -> can_go_on s.
Proof.
  intros Hv Hi Hp. destruct (critical p) eqn:Hc; [by eapply owner_goes_on|].
  destruct (lock_next p) as [q|] eqn:Hq; [|by destruct p].
  destruct (i_mutex _ Hv) as (o & Em & Ho & Hl). destruct o as [j|].
  - destruct (Hl j eq_refl) as [r Hj]. eapply (owner_goes_on s j r Hv Hj). by apply (Ho j r Hj).
  - assert (pthread_mutex_lock i (s_mutex (sem s)) = Done (Mtx (Some i))) as Hm
      by (rewrite Em; exact (proj2 (lock_done i _ _) (conj eq_refl eq_refl))).
    eexists i, p, _, _. split_and!; [done|done|by eapply step_lock|].
    apply goes_moves; [done|]. intros ->. apply sem_lock_next_critical in Hq as [? ?]. congruence.
Qed.

(** C11. No wake-up is lost and no thread is stuck: in every reachable state,
    if some thread is in the middle of an operation and not asleep then such a
    thread can go on; and if none is, then the threads asleep in [wait] are
    there because there is no permit. *)
Theorem sem_no_lost_wakeup n init mutex_rc cond_rc s0 p tr s :
  0 <= init -> d4np_semaphore_init (Some s0) init mutex_rc cond_rc = Done (D4NP_OK, Some p) ->
  run (initial n p) tr s -> init + Z.of_nat (posts tr) <= SIZE_MAX ->
  ((exists i q, threads s !! i = Some q /\ awake q = true) -> can_go_on s) /\
  ((forall i q, threads s !! i = Some q -> awake q = false) ->
   forall i, threads s !! i = Some WSleep -> s_count (sem s) = 0).
Proof.
  intros Hi Hp Hr Hb. unfold d4np_semaphore_init in Hp.
  destruct (mutex_rc =? 0), (cond_rc =? 0); simplify_eq/=.
  destruct (run_ok n init tr s) as [Hv _]; auto. split.
  - intros (i & q & Hq & Ha). by eapply awake_goes_on.
  - intros Hall i Hsl. pose proof (sum_elem asleep _ _ _ Hsl). pose proof (i_wake _ Hv) as Hw.
    pose proof (i_count _ Hv). rewrite (sum_zero coming) in Hw; [simpl in *; lia|].
    intros k x Hk%Hall. by destruct x.
Qed.

(** ** Witnesses *)

(** Thread 0 waits for a permit and falls asleep; thread 1 posts it. *)
Definition one_permit : state := State (Sem (Mtx (Some 1%nat)) (Cond 1) 1) [WSleep; PSignal].

Definition one_trace : list event := [ETau; ETau; ETau; ETau; ETau; EPosted 1].

Lemma one_run : run (initial 2 (Sem (Mtx None) (Cond 0) 0)) one_trace one_permit.
Proof.
  refine (run_snoc _ [_; _; _; _; _] _ _ _ _ (step_post (State (Sem (Mtx (Some 1%nat)) (Cond 1) 0) [WSleep; PCount]) 1 eq_refl)).
  refine (run_snoc _ [_; _; _; _] _ _ _ _ (step_lock (State (Sem (Mtx None) (Cond 1) 0) [WSleep; PLock]) 1 PLock _ _ eq_refl eq_refl eq_refl)).
  refine (run_snoc _ [_; _; _] _ _ _ _ (step_call (State (Sem (Mtx None) (Cond 1) 0) [WSleep; Idle]) 1 PLock eq_refl eq_refl)).
  refine (run_snoc _ [_; _] _ _ _ _ (step_sleep (State (Sem (Mtx (Some 0%nat)) (Cond 0) 0) [WTest; Idle]) 0 _ _ eq_refl eq_refl eq_refl)).
  refine (run_snoc _ [_] _ _ _ _ (step_lock (State (Sem (Mtx None) (Cond 0) 0) [WLock; Idle]) 0 WLock _ _ eq_refl eq_refl eq_refl)).
  refine (run_snoc _ [] _ _ _ _ (step_call (State (Sem (Mtx None) (Cond 0) 0) [Idle; Idle]) 0 WLock eq_refl eq_refl)).
  constructor.
Qed.

Lemma sem_refines_counter_witness : atomics 0 one_trace = Some 1.
Proof.
  apply (sem_refines_counter 2 0 0 0 (Sem Uninit CUninit 5) (Sem (Mtx None) (Cond 0) 0) one_trace one_permit);
    [lia|done|exact one_run|done].
Defined.

Lemma sem_no_lost_wakeup_witness :
  ((exists i q, threads one_permit !! i = Some q /\ awake q = true) -> can_go_on one_permit) /\
  ((forall i q, threads one_permit !! i = Some q -> awake q = false) ->
   forall i, threads one_permit !! i = Some WSleep -> s_count (sem one_permit) = 0).
Proof.
  apply (sem_no_lost_wakeup 2 0 0 0 (Sem Uninit CUninit 5) (Sem (Mtx None) (Cond 0) 0) one_trace one_permit);
    [lia|done|exact one_run|done].
Defined.

End Semaphore.
