(* ===== verification/SemaphoreWin32.v ===== *)
(** * Semaphore on Windows ([d4np/concurrency/semaphore.c], Windows branch)

    The semaphore is a handle to an anonymous kernel object.  Any number of
    threads operate on it while the rest of the system uses other handles; the
    runs are runs of the same atomic counter as those of the POSIX branch, up to
    the system's maximum. *)

From S2P Require Import Prelude Status Mutex Counter Win32 Semaphore.
Import Mutex Counter Win32.

Local Open Scope Z_scope.

Module SemaphoreWin32.

(** The handle in the opaque storage. *)
Record d4np_semaphore := Sem { opaque : nat }.

Definition d4np_semaphore_init (fails : bool) (s : option d4np_semaphore) (initial_count : Z) (k : kernel)
  : d4np_status * option d4np_semaphore * kernel :=
  match s with
  | None => (D4NP_ERR_INVALID_ARGUMENT, None, k)
  | Some s =>
      if LONG_MAX <? initial_count then (D4NP_ERR_INVALID_ARGUMENT, Some s, k)
      else
        match CreateSemaphore fails initial_count None k with
        | (None, k) => (D4NP_ERR_INTERNAL, Some s, k)
        | (Some h, k) => (D4NP_OK, Some (Sem h), k)
        end
  end.

Definition d4np_semaphore_destroy (s : option d4np_semaphore) (k : kernel) : outcome kernel :=
  match s with
  | None => Done k
  | Some s => CloseHandle (opaque s) k
  end.

(** The assertion stops the program; the result of the call is not used. *)
Definition d4np_semaphore_wait (s : option d4np_semaphore) (k : kernel) : outcome kernel :=
  match s with
  | None => Undefined
  | Some s =>
      match WaitForSingleObject (opaque s) INFINITE k with
      | Done (_, k) => Done k
      | Blocks => Blocks
      | Undefined => Undefined
      end
  end.

Definition d4np_semaphore_trywait (s : option d4np_semaphore) (k : kernel) : outcome (bool * kernel) :=
  match s with
  | None => Done (false, k)
  | Some s =>
      match WaitForSingleObject (opaque s) 0 k with
      | Done (rc, k) => Done (rc =? WAIT_OBJECT_0, k)
      | Blocks => Blocks
      | Undefined => Undefined
      end
  end.

Definition d4np_semaphore_post (s : option d4np_semaphore) (k : kernel) : outcome kernel :=
  match s with
  | None => Undefined
  | Some s =>
      match ReleaseSemaphore (opaque s) 1 k with
      | Done (_, k) => Done k
      | Blocks => Blocks
      | Undefined => Undefined
      end
  end.

(** ** Runs of the threads on one semaphore *)

Record state := State { sem : d4np_semaphore; system : kernel }.

(** What the rest of the system does, on other handles than [h]. *)
Inductive elsewhere (h : nat) : kernel -> kernel -> Prop :=
  | else_create k fails c name : 0 <= c <= LONG_MAX -> elsewhere h k (CreateSemaphore fails c name k).2
  | else_close k h' k' : h' <> h -> CloseHandle h' k = Done k' -> elsewhere h k k'
  | else_wait k h' t rc k' : h' <> h -> WaitForSingleObject h' t k = Done (rc, k') -> elsewhere h k k'
  | else_release k h' b k' : h' <> h -> ReleaseSemaphore h' 1 k = Done (b, k') -> elsewhere h k k'.

(** A thread that blocks has no step. *)
Inductive step : state -> event -> state -> Prop :=
  | step_wait s i k k' :
      d4np_semaphore_wait (Some s) k = Done k' -> step (State s k) (EAcquired i) (State s k')
  | step_trywait s i k b k' :
      d4np_semaphore_trywait (Some s) k = Done (b, k') ->
      step (State s k) (if b : bool then EAcquired i else ETryFailed i) (State s k')
  | step_post s i k k' :
      d4np_semaphore_post (Some s) k = Done k' -> step (State s k) (EPosted i) (State s k')
  | step_undefined s k :
      d4np_semaphore_wait (Some s) k = Undefined \/ d4np_semaphore_trywait (Some s) k = Undefined \/
      d4np_semaphore_post (Some s) k = Undefined ->
      step (State s k) EUndefined (State s k)
  | step_elsewhere s k k' :
      elsewhere (opaque s) k k' -> step (State s k) ETau (State s k').

Inductive run (s : state) : list event -> state -> Prop :=
  | run_nil : run s [] s
  | run_snoc tr s1 e s2 : run s tr s1 -> step s1 e s2 -> run s (tr ++ [e]) s2.

(** ** The invariant *)

(** The semaphore has an object of its own, with [c] permits. *)
Record private (h : nat) (c : Z) (k : kernel) : Prop := {
  p_handle : handles k !! h = Some h;
  p_count : objects k !! h = Some c;
  p_only : forall h', handles k !! h' = Some h -> h' = h;
  p_unnamed : forall p, names k !! p <> Some h
}.

Definition inv (c : Z) (s : state) : Prop := kernel_ok (system s) /\ private (opaque (sem s)) c (system s).

Lemma private_set h c d k : private h c k -> private h d (set_count h d k).
Proof. intros [H1 H2 H3 H4]. split; simpl; auto. by rewrite lookup_insert_eq. Qed.

Lemma private_other h c o d k : private h c k -> o <> h -> private h c (set_count o d k).
Proof. intros [H1 H2 H3 H4] Hne. split; simpl; auto. by rewrite lookup_insert_ne. Qed.

(** The rest of the system does not reach the object. *)
Lemma elsewhere_private h c k k' : kernel_ok k -> elsewhere h k k' -> private h c k -> kernel_ok k' /\ private h c k'.
Proof.
  intros Hk Hs Hp. pose proof Hp as [H1 H2 H3 H4].
  destruct Hs as [k fails c' name Hc|k h' k' Hne E|k h' t rc k' Hne E|k h' b k' Hne E].
  - split; [by apply CreateSemaphore_ok|]. pose proof (k_handle_fresh _ Hk _ _ H1).
    unfold CreateSemaphore. destruct fails; [done|]. destruct (name ≫= _) as [o|] eqn:E; simpl; split; simpl; auto.
    + rewrite lookup_insert_ne by lia. done.
    + intros h'. rewrite lookup_insert_Some. intros [[_ ->]|[_ ?]]; [|auto].
      destruct name as [p|]; [|done]. by destruct (H4 p).
    + rewrite lookup_insert_ne by lia. done.
    + rewrite lookup_insert_ne by lia. done.
    + intros h'. rewrite lookup_insert_Some. intros [[_ E']|[_ ?]]; [lia|auto].
    + intros p. destruct name as [q|]; [|auto]. rewrite lookup_insert_Some. intros [[_ E']|[_ ?]]; [lia|naive_solver].
  - split; [by eapply CloseHandle_ok|]. unfold CloseHandle in E. destruct (handles k !! h') as [o|] eqn:Eh; [|done].
    assert (o <> h) as Ho by (intros ->; by apply Hne, H3).
    case_decide; simplify_eq; split; simpl; auto.
    all: try (by rewrite lookup_delete_ne).
    all: try (intros x [_ ?]%lookup_delete_Some; auto).
    intros p Hx%map_lookup_filter_Some. naive_solver.
  - split; [by eapply Wait_ok|].
    apply Wait_done in E as (o & x & Hh & Ho & [(_ & _ & ->)|(_ & _ & _ & ->)]); [|done].
    apply private_other; [done|]. intros ->. by apply Hne, H3.
  - split; [by eapply Release_ok|].
    apply Release_done in E as (o & x & Hh & Ho & [(_ & _ & ->)|(_ & _ & ->)]); [|done].
    apply private_other; [done|]. intros ->. by apply Hne, H3.
Qed.

(** Acquiring, failing and posting, as steps of the counter. *)
Lemma win_wait_ok h c t rc k k' :
  kernel_ok k -> private h c k -> WaitForSingleObject h t k = Done (rc, k') ->
  kernel_ok k' /\
  (rc = WAIT_OBJECT_0 /\ 0 < c /\ private h (c - 1) k' \/ rc = WAIT_TIMEOUT /\ t = 0 /\ c = 0 /\ private h c k').
Proof.
  intros Hk Hp E. split; [by eapply Wait_ok|]. pose proof Hp as [H1 H2 _ _].
  apply Wait_done in E as (o & x & Hh & Ho & H). simplify_eq. pose proof (k_range _ Hk _ _ Ho).
  destruct H as [(Hc & -> & ->)|(Hc & -> & -> & ->)]; [left|right].
  - split; [done|]. split; [done|]. by eapply private_set.
  - split; [done|]. split; [done|]. split; [lia|]. done.
Qed.

Lemma win_step_ok c s e s' :
  inv c s -> step s e s' -> (posts [e] = 1%nat -> c < LONG_MAX) ->
  exists c', inv c' s' /\ atomic c e = Some c'.
Proof.
  intros [Hk Hp] Hs Hm.
  destruct Hs as [s i k k' E|s i k b k' E|s i k k' E|s k Hu|s k k' E]; simpl in *.
  - destruct (WaitForSingleObject _ _ _) as [[rc k1]| |] eqn:E1; simplify_eq/=.
    destruct (win_wait_ok _ _ _ _ _ _ Hk Hp E1) as [Hk' [(-> & Hc & Hp')|(_ & [=] & _)]].
    exists (c - 1). split; [done|]. by rewrite (proj2 (Z.ltb_lt 0 c)).
  - destruct (WaitForSingleObject _ _ _) as [[rc k1]| |] eqn:E1; simplify_eq/=.
    destruct (win_wait_ok _ _ _ _ _ _ Hk Hp E1) as [Hk' [(-> & Hc & Hp')|(-> & _ & -> & Hp')]]; simpl.
    + exists (c - 1). split; [done|]. by rewrite (proj2 (Z.ltb_lt 0 c)).
    + by exists 0.
  - destruct (ReleaseSemaphore _ _ _) as [[b k1]| |] eqn:E1; simplify_eq/=. exists (c + 1). split; [|done].
    pose proof (Release_ok _ _ _ _ Hk E1) as Hk'. pose proof Hp as [H1 H2 _ _].
    apply Release_done in E1 as (o & x & Hh & Ho & H). simplify_eq. specialize (Hm eq_refl).
    destruct H as [(_ & _ & ->)|(Hx & _ & _)]; [|lia]. split; [done|]. by eapply private_set.
  - exfalso. assert (is_Some (handles k !! opaque s)) as Hh by (rewrite (p_handle _ _ _ Hp); eauto).
    pose proof (Wait_defined _ INFINITE k Hk Hh). pose proof (Wait_defined _ 0 k Hk Hh).
    pose proof (Release_defined _ k Hk Hh).
    destruct Hu as [Hu|[Hu|Hu]]; repeat case_match; congruence.
  - exists c. split; [|done]. by apply (elsewhere_private _ _ _ _ Hk E).
Qed.

Lemma win_init_inv fails s0 init k0 s k :
  kernel_ok k0 -> 0 <= init -> d4np_semaphore_init fails (Some s0) init k0 = (D4NP_OK, Some s, k) ->
  inv init (State s k) /\ init <= LONG_MAX.
Proof.
  intros Hk Hc. unfold d4np_semaphore_init. destruct (Z.ltb_spec LONG_MAX init) as [|Hl]; [done|].
  pose proof (CreateSemaphore_ok fails init None k0 Hk (conj Hc Hl)) as Hk'. revert Hk'.
  unfold CreateSemaphore. destruct fails; [done|]. simpl. intros Hk' [= <- <-]. split; [|done].
  split; [done|]. split; simpl; try (by rewrite lookup_insert_eq).
  - intros h'. rewrite lookup_insert_Some. intros [[<- _]|[_ Hh]]; [done|].
    destruct (k_live _ Hk _ _ Hh) as [x Hx]. apply (k_object_fresh _ Hk) in Hx. lia.
  - intros p Hp. destruct (k_name _ Hk _ _ Hp) as [x Hx]. apply (k_object_fresh _ Hk) in Hx. lia.
Qed.

Lemma win_run_ok c s tr s' :
  inv c s -> c + Z.of_nat (posts tr) <= LONG_MAX -> run s tr s' -> exists c', inv c' s' /\ atomics c tr = Some c'.
Proof.
  intros Hi Hp Hr. induction Hr as [|tr s1 e s2 Hr IH Hs]; [by exists c|].
  unfold posts in *. rewrite sum_list_with_app in Hp. fold (posts tr) in *. fold (posts [e]) in *.
  destruct IH as (c1 & Hi1 & Ha); [lia|]. pose proof (atomics_bound _ _ _ Ha).
  destruct (win_step_ok c1 s1 e s2 Hi1 Hs) as (c2 & Hi2 & He); [lia|]. exists c2. split; [done|].
  by rewrite atomics_snoc, Ha.
Qed.

(** ** The two branches are counting semaphores *)

Definition posix_starts (c : Z) (s : Semaphore.state) : Prop :=
  exists n s0 mutex_rc cond_rc p,
    Semaphore.d4np_semaphore_init (Some s0) c mutex_rc cond_rc = Done (D4NP_OK, Some p) /\ s = Semaphore.initial n p.

Definition win32_starts (c : Z) (s : state) : Prop :=
  exists fails s0 k0, kernel_ok k0 /\
    d4np_semaphore_init fails (Some s0) c k0 = (D4NP_OK, Some (sem s), system s).

Lemma posix_counts c s tr s' :
  0 <= c -> posix_starts c s -> Semaphore.run s tr s' -> c + Z.of_nat (posts tr) <= SIZE_MAX -> is_Some (atomics c tr).
Proof.
  intros Hc (n & s0 & mrc & crc & p & Hp & ->) Hr Hl. unfold Semaphore.d4np_semaphore_init in Hp.
  destruct (mrc =? 0), (crc =? 0); simplify_eq/=. destruct (Semaphore.run_ok n c tr s' Hc Hl Hr) as [_ E]. eauto.
Qed.

Lemma win32_counts c s tr s' :
  0 <= c -> win32_starts c s -> run s tr s' -> c + Z.of_nat (posts tr) <= LONG_MAX -> is_Some (atomics c tr).
Proof.
  destruct s as [s k]. intros Hc (fails & s0 & k0 & Hk & Hi) Hr Hl.
  destruct (win_init_inv _ _ _ _ _ _ Hk Hc Hi) as [Hinv _]. destruct (win_run_ok _ _ _ _ Hinv Hl Hr) as (c' & _ & E). eauto.
Qed.

#[global] Instance posix_counting : CountingSemaphore Semaphore.state :=
  {| starts := posix_starts; runs := Semaphore.run; limit := SIZE_MAX; counts := posix_counts |}.

#[global] Instance win32_counting : CountingSemaphore state :=
  {| starts := win32_starts; runs := run; limit := LONG_MAX; counts := win32_counts |}.

(** ** Properties *)

(** C21. Permits are exact on both platforms: from a successful
    initialisation with [init] permits, at every moment of every run of any
    number of threads, no more permits have been acquired than [init] plus those
    posted, [trywait] has failed only when exactly that many were out, and no
    undefined behaviour has happened.  On POSIX this holds up to the width of
    the counter; on Windows, whatever the rest of the system does with its own
    handles, up to the kernel's maximum of [LONG_MAX] permits. *)
Theorem sem_permits_exact init :
  0 <= init ->
  (forall n s0 mutex_rc cond_rc p tr s,
    Semaphore.d4np_semaphore_init (Some s0) init mutex_rc cond_rc = Done (D4NP_OK, Some p) ->
    Semaphore.run (Semaphore.initial n p) tr s -> init + Z.of_nat (posts tr) <= SIZE_MAX ->
    permits_exact init tr) /\
  (forall fails s0 s k0 k tr s',
    kernel_ok k0 -> d4np_semaphore_init fails (Some s0) init k0 = (D4NP_OK, Some s, k) ->
    run (State s k) tr s' -> init + Z.of_nat (posts tr) <= LONG_MAX ->
    permits_exact init tr).
Proof.
  intros Hc. split.
  - intros n s0 mrc crc p tr s Hp Hr Hl.
    apply (counting_permits init (Semaphore.initial n p) tr s Hc); [|done..]. by exists n, s0, mrc, crc, p.
  - intros fails s0 s k0 k tr s' Hk Hp Hr Hl.
    apply (counting_permits init (State s k) tr s' Hc); [|done..]. by exists fails, s0, k0.
Qed.

(** ** Witness *)

(** A semaphore without permits: an attempt fails, a post, and a wait. *)
Definition win_trace : list event := [ETryFailed 0; EPosted 1; EAcquired 0].

Definition win_kernel (c : Z) : kernel := Kernel {[ 0%nat := 0%nat ]} {[ 0%nat := c ]} ∅ 1.

Lemma win_run : run (State (Sem 0) (win_kernel 0)) win_trace (State (Sem 0) (win_kernel 0)).
Proof.
  refine (run_snoc _ [_; _] (State (Sem 0) (win_kernel 1)) _ _ _ (step_wait (Sem 0) 0 (win_kernel 1) _ _)); [|done].
  refine (run_snoc _ [_] (State (Sem 0) (win_kernel 0)) _ _ _ (step_post (Sem 0) 1 (win_kernel 0) _ _)); [|done].
  refine (run_snoc _ [] (State (Sem 0) (win_kernel 0)) _ _ _ (step_trywait (Sem 0) 0 (win_kernel 0) false _ _)); [|done].
  constructor.
Qed.

Lemma sem_permits_exact_witness : permits_exact 0 Semaphore.one_trace /\ permits_exact 0 win_trace.
Proof.
  destruct (sem_permits_exact 0) as [Hp Hw]; [lia|]. split.
  - apply (Hp 2%nat (Semaphore.Sem Uninit Semaphore.CUninit 5) 0 0 (Semaphore.Sem (Mtx None) (Semaphore.Cond 0) 0) _ Semaphore.one_permit);
      [done|exact Semaphore.one_run|done].
  - apply (Hw false (Sem 7) (Sem 0) boot (win_kernel 0) _ (State (Sem 0) (win_kernel 0)));
      [exact boot_ok|done|exact win_run|done].
Defined.

End SemaphoreWin32.
