(* ===== verification/ThreadPool.v ===== *)
(** * Thread pool ([d4np/concurrency/thread_pool.h], [thread_pool.c])

    The workers, any number of client threads that submit tasks, and the
    thread that owns the pool, which starts the workers (with the roll-back of a
    failed start) and destroys the pool.  The steps are those between the calls
    to the lock, the semaphore and the allocator; the code inside the lock is
    run as functions on the linked task queue.  The loops of [init] and
    [destroy] run over [thread_count] and the array of handles, which is freed
    at the end; what [init] does before its loop is [pool_prepare], on memory.
    A task that itself submits is a
    client that does so while the worker that runs the task is at [WRun].  The
    semaphore is an atomic counter here; [PoolSemaphore] replaces it by the
    steps of [Semaphore]. *)

From S2P Require Import Prelude Status Memory Allocator Mutex Semaphore.
Import Mutex.

Module ThreadPool.

(** ** Before the workers are started *)

(** [sizeof] and [alignof] of [pthread_t]. *)
Definition THREAD_SIZE : Z := 8.

Record pool_resources := Resources {
  rs_allocator : option d4np_allocator;
  rs_threads : ptr;
  rs_thread_count : Z;
  rs_lock : d4np_mutex;
  rs_items : Semaphore.d4np_sem_posix
}.

Section prepare.
Context `{!Libc}.
Local Open Scope Z_scope.

(** [d4np_thread_pool_init] up to its loop; [D4NP_OK]: the loop follows. *)
Definition pool_prepare (pool : option pool_resources) (allocator : option d4np_allocator)
    (thread_count lock_rc mutex_rc cond_rc : Z) : M (d4np_status * option pool_resources) :=
  match pool with
  | None => mret (D4NP_ERR_INVALID_ARGUMENT, None)
  | Some p =>
      if thread_count =? 0 then mret (D4NP_ERR_INVALID_ARGUMENT, Some p)
      else
        max ← size_div SIZE_MAX THREAD_SIZE;
        if max <? thread_count then mret (D4NP_ERR_OVERFLOW, Some p)
        else
          let allocator := Some (resolve allocator) in
          match d4np_mutex_init (Some (rs_lock p)) lock_rc with
          | (D4NP_OK, Some lock) =>
              match Semaphore.d4np_semaphore_init (Some (rs_items p)) 0 mutex_rc cond_rc with
              | Done (D4NP_OK, Some items) =>
                  threads ← d4np_alloc allocator (thread_count ⊠ THREAD_SIZE) THREAD_SIZE;
                  if is_null threads then
                    match Semaphore.d4np_semaphore_destroy (Some items), d4np_mutex_destroy (Some lock) with
                    | Done (Some items), Done (Some lock) =>
                        mret (D4NP_ERR_OUT_OF_MEMORY, Some (Resources allocator Null thread_count lock items))
                    | _, _ => fault
                    end
                  else mret (D4NP_OK, Some (Resources allocator threads thread_count lock items))
              | Done (_, Some items) =>
                  match d4np_mutex_destroy (Some lock) with
                  | Done (Some lock) => mret (D4NP_ERR_INTERNAL, Some (Resources allocator Null thread_count lock items))
                  | _ => fault
                  end
              | _ => fault
              end
          | (_, Some lock) => mret (D4NP_ERR_INTERNAL, Some (Resources allocator Null thread_count lock (rs_items p)))
          | (_, None) => fault
          end
  end.

Definition d4np_thread_pool_thread_count (pool : option pool_resources) : Z :=
  match pool with Some p => rs_thread_count p | None => 0 end.

(** C40. Before any worker is started, [d4np_thread_pool_init] either has all
    its resources or none: it refuses no threads and a count whose handles do
    not fit, and then touches nothing; when the memory for the handles cannot
    be had, the lock, the semaphore's mutex and its condition variable are
    destroyed again and the heap is as it was; when the lock cannot be
    initialised, neither it nor the semaphore has been; when the semaphore's
    mutex or condition variable cannot, the lock is destroyed again, and so is
    the semaphore's mutex if it had been initialised, and memory is untouched.
    Otherwise the lock is free, the semaphore has no permit and no waiter, and
    the handles have the room of the requested count. *)
Theorem pool_prepare_all_or_nothing m p0 oa n lock_rc mutex_rc cond_rc :
  allocator_arg_ok oa -> 0 <= n <= SIZE_MAX ->
  wp (pool_prepare (Some p0) oa n lock_rc mutex_rc cond_rc) m (fun r m' =>
    match r with
    | (D4NP_OK, Some p) =>
        n <> 0 /\ lock_rc = 0 /\ mutex_rc = 0 /\ cond_rc = 0 /\ owned m' (rs_threads p) (n * THREAD_SIZE) /\
        rs_lock p = Mtx None /\ rs_items p = Semaphore.Sem (Mtx None) (Semaphore.Cond 0) 0 /\
        d4np_thread_pool_thread_count (Some p) = n /\ heap_free (rs_threads p) (m_heap m') = m_heap m
    | (D4NP_ERR_INVALID_ARGUMENT, Some p) => n = 0 /\ p = p0 /\ m' = m
    | (D4NP_ERR_OVERFLOW, Some p) => SIZE_MAX < n * THREAD_SIZE /\ p = p0 /\ m' = m
    | (D4NP_ERR_OUT_OF_MEMORY, Some p) =>
        rs_threads p = Null /\ rs_lock p = Uninit /\ Semaphore.s_mutex (rs_items p) = Uninit /\
        Semaphore.s_cond (rs_items p) = Semaphore.CUninit /\ m_heap m' = m_heap m
    | (D4NP_ERR_INTERNAL, Some p) =>
        rs_threads p = Null /\ m' = m /\
        (lock_rc <> 0 /\ rs_lock p = rs_lock p0 /\ rs_items p = rs_items p0 \/
         lock_rc = 0 /\ rs_lock p = Uninit /\
         (mutex_rc <> 0 /\ rs_items p = rs_items p0 \/
          mutex_rc = 0 /\ cond_rc <> 0 /\ Semaphore.s_mutex (rs_items p) = Uninit /\
          Semaphore.s_cond (rs_items p) = Semaphore.s_cond (rs_items p0)))
    | _ => False
    end).
Proof.
  intros Ha Hn. apply resolve_ok in Ha. unfold pool_prepare.
  destruct (Z.eqb_spec n 0) as [->|Hn0]; [by wp_ret|].
  wp_bind. eapply wp_run; [by apply size_div_run|].
  destruct (Z.ltb_spec (SIZE_MAX / THREAD_SIZE) n) as [Ho|Ho].
  { wp_ret. split; [|done]. apply size_mul_overflow in Ho; [done|done|lia]. }
  assert (n * THREAD_SIZE <= SIZE_MAX) by (apply Z.nlt_ge; intros ?%size_mul_overflow; (done || lia)).
  unfold d4np_mutex_init. destruct (Z.eqb_spec lock_rc 0) as [->|Hl]; [|wp_ret; simpl; auto 10].
  unfold Semaphore.d4np_semaphore_init. destruct (Z.eqb_spec mutex_rc 0) as [->|Hm]; cbn [negb];
    [|simpl; wp_ret; simpl; auto 15].
  destruct (Z.eqb_spec cond_rc 0) as [->|Hc]; cbn [negb]; [|simpl; wp_ret; simpl; auto 15].
  unfold THREAD_SIZE in *. rewrite size_mul_small by size_lia. wp_bind. unfold d4np_alloc. simpl.
  eapply wp_mono; [apply (ok_alloc m (n * 8) 8); [lia|by exists 3]|].
  intros p m' Hpost. pose proof (alloc_undo _ _ _ _ _ _ Hpost) as Hundo.
  apply alloc_post_inv in Hpost as [[-> Hh]|(b & -> & _ & _ & Hown & _)]; [| |lia]; simpl; wp_ret; [done|].
  simpl. by split_and!.
Qed.

End prepare.

Section pool.
Context {T : Type} `{EqDecision T}.       (* a task: [fn] and [arg] *)
Variable clients : nat.                   (* threads that submit *)
Variable os : platform.

Record d4np_task_node := TaskNode { tn_next : option nat; tn_task : T }.

(** The part of [d4np_thread_pool_t] the lock guards, and the nodes. *)
Record d4np_thread_pool := Pool {
  q_head : option nat;
  q_tail : option nat;
  shutting_down : bool;
  nodes : gmap nat d4np_task_node
}.

(** ** Under the lock

    [None]: a node that is not allocated is accessed. *)

(** The worker takes the first node, or finds none. *)
Definition take_task (p : d4np_thread_pool) : option (option nat * d4np_thread_pool) :=
  match q_head p with
  | None => Some (None, p)
  | Some node =>
      nd ← nodes p !! node;
      let head := tn_next nd in
      Some (Some node, Pool head (match head with None => None | Some _ => q_tail p end)
                            (shutting_down p) (nodes p))
  end.

(** [submit] links its node at the end. *)
Definition enqueue_task (p : d4np_thread_pool) (node : nat) : option d4np_thread_pool :=
  match q_tail p with
  | Some t =>
      nd ← nodes p !! t;
      Some (Pool (q_head p) (Some node) (shutting_down p)
                 (<[t := TaskNode (Some node) (tn_task nd)]> (nodes p)))
  | None => Some (Pool (Some node) (Some node) (shutting_down p) (nodes p))
  end.

Definition begin_shutdown (p : d4np_thread_pool) : d4np_thread_pool :=
  Pool (q_head p) (q_tail p) true (nodes p).

(** [node = d4np_alloc(...)] with its members set, and [d4np_free(node)]. *)
Definition new_node (p : d4np_thread_pool) (n : nat) (t : T) : d4np_thread_pool :=
  Pool (q_head p) (q_tail p) (shutting_down p) (<[n := TaskNode None t]> (nodes p)).

Definition free_node (p : d4np_thread_pool) (n : nat) : option d4np_thread_pool :=
  _ ← nodes p !! n; Some (Pool (q_head p) (q_tail p) (shutting_down p) (delete n (nodes p))).

(** One round of the drain loop of [destroy]. *)
Definition drain_node (p : d4np_thread_pool) (n : nat) : option d4np_thread_pool :=
  nd ← nodes p !! n; Some (Pool (tn_next nd) (q_tail p) (shutting_down p) (delete n (nodes p))).

(** ** Threads *)

Inductive pc :=
  (* a worker: [pool_worker] *)
  | WWait                               (* about to wait for a permit *)
  | WLock
  | WTake                               (* about to look at the queue *)
  | WUnlockExit
  | WUnlockRun (n : nat) (t : T)
  | WRun (n : nat) (t : T)              (* about to call the task *)
  | WFree (n : nat)
  | WExit
  (* a client: [d4np_thread_pool_submit] *)
  | SIdle
  | SAlloc (t : T)
  | SLock (n : nat)
  | SCheck (n : nat)                    (* about to test shutting_down *)
  | SUnlockRej (n : nat)
  | SFreeRej (n : nat)
  | SUnlockOk
  | SPost
  (* the owner: [d4np_thread_pool_init] from its loop on, [d4np_thread_pool_destroy];
     [r]: this is the roll-back of [init] *)
  | MSpawn (i : nat)                    (* [i] workers still to start *)
  | MReady
  | MLock (r : bool)
  | MSet (r : bool)                     (* about to set shutting_down *)
  | MUnlock (r : bool)
  | MPost (r : bool) (k : nat)          (* [k] permits posted *)
  | MJoin (r : bool) (k : nat)          (* [k] workers joined *)
  | MDrain
  | MClose (r : bool)                   (* about to release the pool *)
  | MDone (r : bool).

Inductive kind := Owner | Client | Worker.

Definition kind_of (p : pc) : kind :=
  match p with
  | WWait | WLock | WTake | WUnlockExit | WUnlockRun _ _ | WRun _ _ | WFree _ | WExit => Worker
  | SIdle | SAlloc _ | SLock _ | SCheck _ | SUnlockRej _ | SFreeRej _ | SUnlockOk | SPost => Client
  | _ => Owner
  end.

Definition lock_next (p : pc) : option pc :=
  match p with
  | WLock => Some WTake
  | SLock n => Some (SCheck n)
  | MLock r => Some (MSet r)
  | _ => None
  end.

Definition unlock_next (p : pc) : option pc :=
  match p with
  | WUnlockExit => Some WExit
  | WUnlockRun n t => Some (WRun n t)
  | SUnlockRej n => Some (SFreeRej n)
  | SUnlockOk => Some SPost
  | MUnlock r => Some (MPost r 0)
  | _ => None
  end.

Definition critical (p : pc) : bool :=
  match p with
  | WTake | WUnlockExit | WUnlockRun _ _ | SCheck _ | SUnlockRej _ | SUnlockOk | MSet _ | MUnlock _ => true
  | _ => false
  end.

(** Thread 0 owns the pool, then come the clients, then the workers. *)
Definition base : nat := S clients.

(** [created] is what [pthread_create] returns, or the handle from
    [CreateThread], 0 being [NULL]; the new thread runs [pool_worker]. *)
Definition pool_spawn_posix (created : Z) : bool := (created =? 0)%Z.

Definition pool_spawn_win32 (created : Z) : bool := if (created =? 0)%Z then false else true.

Definition pool_spawn (created : Z) : bool :=
  match os with
  | Posix => pool_spawn_posix created
  | Win32 => pool_spawn_win32 created
  end.

(** The thread a handle stands for, if it stands for one: [pthread_join] and
    [WaitForSingleObject] wait until it has returned from [pool_worker];
    [CloseHandle] only lets the handle go. *)
Definition wait_thread (worker : option pc) : outcome unit :=
  match worker with
  | Some WExit => Done ()
  | Some _ => Blocks
  | None => Undefined
  end.

Definition close_handle (worker : option pc) : outcome unit :=
  match worker with Some _ => Done () | None => Undefined end.

Definition pool_join_posix (t : option pc) : outcome unit := wait_thread t.

Definition pool_join_win32 (t : option pc) : outcome unit :=
  match wait_thread t with
  | Done _ => close_handle t
  | Blocks => Blocks
  | Undefined => Undefined
  end.

Definition pool_join (t : option pc) : outcome unit :=
  match os with
  | Posix => pool_join_posix t
  | Win32 => pool_join_win32 t
  end.

(** The members [thread_count] and [threads] of the pool (the room of the
    array, or [None] for [NULL]), and the argument of [init]. *)
Record pool_handles := Handles {
  h_count : nat;
  h_array : option nat;
  h_requested : nat
}.

(** [d4np_free(allocator, pool->threads, ...)] with the size of [init]'s
    roll-back or of [destroy], and [pool->threads = NULL]; [None]: the size is
    not the one of the allocation. *)
Definition free_handles (r : bool) (h : pool_handles) : option pool_handles :=
  let size := if r then h_requested h else h_count h in
  match h_array h with
  | Some a => if decide (a = size) then Some (Handles (h_count h) None (h_requested h)) else None
  | None => Some h
  end.

Record state := State {
  pool : d4np_thread_pool;
  lock : d4np_mutex;
  permits : nat;                        (* the semaphore [items] *)
  sem_alive : bool;
  threads : list pc;
  fresh : nat;                          (* allocations so far *)
  accepted : list T;                    (* tasks whose submit has linked them *)
  started : list T;                     (* tasks taken by a worker *)
  finished : list T;                    (* tasks that have returned *)
  woken : nat;                          (* permits posted by destroy *)
  hs : pool_handles
}.

(** When the loop of [init] starts, with [n] workers to start. *)
Definition initial (n : nat) : state :=
  State (Pool None None false ∅) (Mtx None) 0 true (MSpawn n :: replicate clients SIdle) 0 [] [] [] 0
        (Handles n (Some n) n).

Definition workers (s : state) : nat := length (threads s) - base.

(** [pool->thread_count], and the thread of [handles[k]]. *)
Definition thread_count (s : state) : nat := h_count (hs s).

Definition handle (s : state) (k : nat) : option pc :=
  a ← h_array (hs s); if decide (k < a)%nat then threads s !! (base + k)%nat else None.

Definition owner_pc (s : state) : option pc := threads s !! 0.

(** [init] has returned [D4NP_OK] and [destroy] has not returned. *)
Definition open (p : pc) : bool :=
  match p with
  | MReady | MLock false | MSet false | MUnlock false | MPost false _ | MJoin false _ | MDrain | MClose false => true
  | _ => false
  end.

Definition set_threads (s : state) (l : list pc) : state :=
  State (pool s) (lock s) (permits s) (sem_alive s) l (fresh s) (accepted s) (started s) (finished s) (woken s) (hs s).

Definition goes (s : state) (i : nat) (p : pc) : state := set_threads s (<[i := p]> (threads s)).

Definition with_lock (s : state) (m : d4np_mutex) : state :=
  State (pool s) m (permits s) (sem_alive s) (threads s) (fresh s) (accepted s) (started s) (finished s) (woken s) (hs s).

Definition with_pool (s : state) (p : d4np_thread_pool) : state :=
  State p (lock s) (permits s) (sem_alive s) (threads s) (fresh s) (accepted s) (started s) (finished s) (woken s) (hs s).

Definition with_permits (s : state) (n : nat) : state :=
  State (pool s) (lock s) n (sem_alive s) (threads s) (fresh s) (accepted s) (started s) (finished s) (woken s) (hs s).

Definition with_handles (s : state) (h : pool_handles) : state :=
  State (pool s) (lock s) (permits s) (sem_alive s) (threads s) (fresh s) (accepted s) (started s) (finished s) (woken s) h.

Inductive event :=
  | ECall                               (* a client or the owner enters an operation *)
  | ESubmit (i : nat) (st : d4np_status)
  | ERun (t : T)
  | ETau
  | EUndefined.

Inductive step : state -> event -> state -> Prop :=
  | step_lock s i p q m :
      threads s !! i = Some p -> lock_next p = Some q -> d4np_mutex_lock i (Some (lock s)) = Done m ->
      step s ETau (goes (with_lock s m) i q)
  | step_unlock s i p q m :
      threads s !! i = Some p -> unlock_next p = Some q -> d4np_mutex_unlock i (Some (lock s)) = Done m ->
      step s ETau (goes (with_lock s m) i q)
  (* workers *)
  | step_wait s i n :
      threads s !! i = Some WWait -> sem_alive s = true -> permits s = S n ->
      step s ETau (goes (with_permits s n) i WLock)
  | step_take_none s i p :
      threads s !! i = Some WTake -> take_task (pool s) = Some (None, p) ->
      step s ETau (goes (with_pool s p) i WUnlockExit)
  | step_take s i n p nd :
      threads s !! i = Some WTake -> take_task (pool s) = Some (Some n, p) -> nodes p !! n = Some nd ->
      step s ETau (State p (lock s) (permits s) (sem_alive s) (<[i := WUnlockRun n (tn_task nd)]> (threads s))
                         (fresh s) (accepted s) (started s ++ [tn_task nd]) (finished s) (woken s) (hs s))
  | step_run s i n t nd :
      threads s !! i = Some (WRun n t) -> nodes (pool s) !! n = Some nd ->
      step s (ERun (tn_task nd))
           (State (pool s) (lock s) (permits s) (sem_alive s) (<[i := WFree n]> (threads s))
                  (fresh s) (accepted s) (started s) (finished s ++ [tn_task nd]) (woken s) (hs s))
  | step_free s i n p :
      threads s !! i = Some (WFree n) -> free_node (pool s) n = Some p ->
      step s ETau (goes (with_pool s p) i WWait)
  (* clients *)
  | step_submit s i t o :
      threads s !! i = Some SIdle -> owner_pc s = Some o -> open o = true ->
      step s ECall (goes s i (SAlloc t))
  (* without a function: [D4NP_ERR_INVALID_ARGUMENT] at once *)
  | step_submit_null s i o :
      threads s !! i = Some SIdle -> owner_pc s = Some o -> open o = true -> step s ECall s
  | step_submit_oom s i t :
      threads s !! i = Some (SAlloc t) -> step s (ESubmit i D4NP_ERR_OUT_OF_MEMORY) (goes s i SIdle)
  | step_submit_alloc s i t :
      threads s !! i = Some (SAlloc t) ->
      step s ETau (State (new_node (pool s) (fresh s) t) (lock s) (permits s) (sem_alive s)
                         (<[i := SLock (fresh s)]> (threads s)) (S (fresh s))
                         (accepted s) (started s) (finished s) (woken s) (hs s))
  | step_submit_reject s i n :
      threads s !! i = Some (SCheck n) -> shutting_down (pool s) = true ->
      step s ETau (goes s i (SUnlockRej n))
  | step_submit_enqueue s i n p nd :
      threads s !! i = Some (SCheck n) -> shutting_down (pool s) = false ->
      enqueue_task (pool s) n = Some p -> nodes p !! n = Some nd ->
      step s ETau (State p (lock s) (permits s) (sem_alive s) (<[i := SUnlockOk]> (threads s)) (fresh s)
                         (accepted s ++ [tn_task nd]) (started s) (finished s) (woken s) (hs s))
  | step_submit_rejected s i n p :
      threads s !! i = Some (SFreeRej n) -> free_node (pool s) n = Some p ->
      step s (ESubmit i D4NP_ERR_UNSUPPORTED) (goes (with_pool s p) i SIdle)
  | step_submit_post s i :
      threads s !! i = Some SPost -> sem_alive s = true ->
      step s (ESubmit i D4NP_OK) (goes (with_permits s (S (permits s))) i SIdle)
  (* the owner *)
  | step_spawn s k created :
      threads s !! 0%nat = Some (MSpawn (S k)) -> pool_spawn created = true ->
      step s ETau (set_threads s (<[0%nat := MSpawn k]> (threads s) ++ [WWait]))
  | step_spawn_fails s k created :
      threads s !! 0%nat = Some (MSpawn (S k)) -> pool_spawn created = false ->
      step s ETau (goes (with_handles s (Handles (h_requested (hs s) - S k) (h_array (hs s)) (h_requested (hs s)))) 0 (MLock true))
  | step_spawned s :
      threads s !! 0%nat = Some (MSpawn 0) -> step s ETau (goes s 0 MReady)
  | step_destroy s a :
      threads s !! 0%nat = Some MReady -> h_array (hs s) = Some a -> step s ECall (goes s 0 (MLock false))
  (* the handles are [NULL] once the pool has been released: [destroy] returns at once *)
  | step_destroy_again s p :
      threads s !! 0%nat = Some p -> p = MReady \/ (exists r, p = MDone r) -> h_array (hs s) = None -> step s ECall s
  | step_set s r :
      threads s !! 0%nat = Some (MSet r) -> step s ETau (goes (with_pool s (begin_shutdown (pool s))) 0 (MUnlock r))
  | step_wake s r k :
      threads s !! 0%nat = Some (MPost r k) -> (k < thread_count s)%nat -> sem_alive s = true ->
      step s ETau (State (pool s) (lock s) (S (permits s)) (sem_alive s) (<[0%nat := MPost r (S k)]> (threads s))
                         (fresh s) (accepted s) (started s) (finished s) (S (woken s)) (hs s))
  | step_woken s r k :
      threads s !! 0%nat = Some (MPost r k) -> ~ (k < thread_count s)%nat -> step s ETau (goes s 0 (MJoin r 0))
  | step_join s r k :
      threads s !! 0%nat = Some (MJoin r k) -> (k < thread_count s)%nat -> pool_join (handle s k) = Done () ->
      step s ETau (goes s 0 (MJoin r (S k)))
  | step_joined s r k :
      threads s !! 0%nat = Some (MJoin r k) -> ~ (k < thread_count s)%nat ->
      step s ETau (goes s 0 (if r then MClose true else MDrain))
  | step_drain s n p :
      threads s !! 0%nat = Some MDrain -> q_head (pool s) = Some n -> drain_node (pool s) n = Some p ->
      step s ETau (with_pool s p)
  | step_drained s :
      threads s !! 0%nat = Some MDrain -> q_head (pool s) = None ->
      step s ETau (goes (with_pool s (Pool None None (shutting_down (pool s)) (nodes (pool s)))) 0 (MClose false))
  | step_close s r h m :
      threads s !! 0%nat = Some (MClose r) -> free_handles r (hs s) = Some h ->
      d4np_mutex_destroy (Some (lock s)) = Done (Some m) ->
      step s ETau (State (pool s) m (permits s) false (<[0%nat := MDone r]> (threads s))
                         (fresh s) (accepted s) (started s) (finished s) (woken s) h)
  (* uses of a resource that is not there *)
  | step_undefined_lock s i p :
      threads s !! i = Some p -> is_Some (lock_next p) -> d4np_mutex_lock i (Some (lock s)) = Undefined ->
      step s EUndefined s
  | step_undefined_unlock s i p :
      threads s !! i = Some p -> critical p = true -> d4np_mutex_unlock i (Some (lock s)) = Undefined ->
      step s EUndefined s
  | step_undefined_sem s i p :
      threads s !! i = Some p -> p = WWait \/ p = SPost \/ (exists r k, p = MPost r k /\ (k < thread_count s)%nat) ->
      sem_alive s = false -> step s EUndefined s
  | step_undefined_node s i p :
      threads s !! i = Some p ->
      match p with
      | WTake => take_task (pool s) = None
      | WRun n _ => nodes (pool s) !! n = None
      | WFree n | SFreeRej n => free_node (pool s) n = None
      | SCheck n => nodes (pool s) !! n = None \/ (shutting_down (pool s) = false /\ enqueue_task (pool s) n = None)
      | MDrain => exists n, q_head (pool s) = Some n /\ drain_node (pool s) n = None
      | _ => False
      end -> step s EUndefined s
  | step_undefined_join s r k :
      threads s !! 0%nat = Some (MJoin r k) -> (k < thread_count s)%nat -> pool_join (handle s k) = Undefined ->
      step s EUndefined s
  | step_undefined_close s r :
      threads s !! 0%nat = Some (MClose r) ->
      free_handles r (hs s) = None \/ d4np_mutex_destroy (Some (lock s)) = Undefined ->
      step s EUndefined s.

Lemma pool_join_done w : pool_join w = Done () <-> w = Some WExit.
Proof. unfold pool_join. split; [by destruct os, w as [[]|]|intros ->; by destruct os]. Qed.

Inductive reachable (n : nat) : state -> Prop :=
  | reachable_init : reachable n (initial n)
  | reachable_step s e s' : reachable n s -> step s e s' -> reachable n s'.

(** ** The threads a step moves *)

(** Thread [i] goes from [p] to [q]. *)
Definition moves (s s' : state) (i : nat) (p q : pc) : Prop :=
  threads s !! i = Some p /\ threads s' = <[i := q]> (threads s) /\ kind_of q = kind_of p /\ p <> WExit.

(** A step moves one thread, or starts a worker, or moves none. *)
Lemma step_moves s e s' :
  step s e s' ->
  (exists i p q, moves s s' i p q) \/
  (exists k, threads s !! 0%nat = Some (MSpawn (S k)) /\
     s' = set_threads s (<[0%nat := MSpawn k]> (threads s) ++ [WWait])) \/
  (threads s' = threads s /\ ((e = EUndefined \/ e = ECall) /\ s' = s \/ threads s !! 0%nat = Some MDrain)).
Proof.
  intros Hs. destruct Hs;
    try (left; match goal with H : threads _ !! _ = Some _ |- _ =>
           eexists _, _, _; split_and!; [exact H|reflexivity|done|done] end);
    try (right; right; split; [done|]; naive_solver).
  - left. exists i, p, q. split_and!; auto; by destruct p; simplify_eq/=.
  - left. exists i, p, q. split_and!; auto; by destruct p; simplify_eq/=.
  - right. left. eauto.
  - left. eexists _, _, _. split_and!; [eassumption|reflexivity| |done]. by destruct r.
Qed.

(** ** The layout of the threads *)

Definition kind_at (i : nat) : kind :=
  match i with O => Owner | S i => if decide (i < clients)%nat then Client else Worker end.

Record layout (s : state) : Prop := {
  l_kind i p : threads s !! i = Some p -> kind_of p = kind_at i;
  l_length : (base <= length (threads s))%nat
}.

Lemma layout_step s e s' : layout s -> step s e s' -> layout s'.
Proof.
  intros [Hk Hl] Hs. apply step_moves in Hs as [(i & p & q & Hi & Et & Ek & _)|[(k & H0 & ->)|[Et _]]].
  - split; rewrite Et; [|by rewrite length_insert]. intros j r.
    rewrite list_lookup_insert_Some. intros [(<- & <- & _)|[_ Hj]]; [rewrite Ek|]; by apply Hk.
  - split; simpl; [|rewrite length_app, length_insert; lia]. intros j r.
    rewrite lookup_snoc_Some, length_insert. intros [[_ Hj]|[-> <-]].
    + apply list_lookup_insert_Some in Hj as [(<- & <- & _)|[_ Hj]]; [done|by apply Hk].
    + unfold base in Hl. destruct (length (threads s)); [lia|]. simpl. by rewrite decide_False by lia.
  - by split; rewrite Et.
Qed.

Lemma layout_initial n : layout (initial n).
Proof.
  split; simpl; [|rewrite length_replicate; unfold base; lia].
  intros [|i] p; simpl; [by intros [= <-]|]. rewrite lookup_replicate. intros [-> Hi].
  simpl. by rewrite decide_True.
Qed.

Lemma owner_is_0 s i p : layout s -> threads s !! i = Some p -> kind_of p = Owner -> i = 0%nat.
Proof.
  intros Hl Hi Hk. rewrite (l_kind _ Hl i p Hi) in Hk. destruct i; [done|]. simpl in Hk. by case_decide.
Qed.

Lemma workers_goes s s' i q : threads s' = <[i := q]> (threads s) -> workers s' = workers s.
Proof. unfold workers. intros ->. by rewrite length_insert. Qed.

(** The owner's program counter after a step of another thread. *)
Lemma owner_other s s' i p q :
  layout s -> moves s s' i p q -> kind_of p <> Owner -> owner_pc s' = owner_pc s /\ i <> 0%nat.
Proof.
  intros Hl (Hi & Et & _) Hk. assert (i <> 0%nat).
  { intros ->. apply Hk. by apply (l_kind _ Hl 0 p). }
  unfold owner_pc. rewrite Et. split; [|done]. by rewrite list_lookup_insert_ne.
Qed.

(** ** The lock *)

Definition is_done (p : pc) : bool := match p with MDone _ => true | _ => false end.

Definition closed (s : state) : bool :=
  match owner_pc s with Some p => is_done p | None => false end.

Definition lock_inv (s : state) : Prop :=
  if closed s then lock s = Uninit /\ sem_alive s = false /\
                   (forall i p, threads s !! i = Some p -> critical p = false)
  else exclusive critical (lock s) (threads s) /\ sem_alive s = true.

Lemma closed_moves s s' i p q :
  layout s -> moves s s' i p q -> is_done p = is_done q -> closed s' = closed s.
Proof.
  intros Hl (Hi & Et & Ek & _) Ed. unfold closed, owner_pc. rewrite Et.
  destruct (decide (i = 0%nat)) as [->|Hne]; [|by rewrite list_lookup_insert_ne].
  rewrite list_lookup_insert_eq by (by eapply lookup_lt_Some). by rewrite Hi.
Qed.

Lemma lock_keep s s' i p q :
  layout s -> moves s s' i p q -> is_done p = is_done q -> critical p = critical q ->
  lock s' = lock s -> sem_alive s' = sem_alive s -> lock_inv s -> lock_inv s'.
Proof.
  intros Hl Hm Ed Ec El Es. unfold lock_inv. rewrite (closed_moves _ _ _ _ _ Hl Hm Ed), El, Es.
  destruct Hm as (Hi & Et & _). rewrite Et. destruct (closed s).
  - intros (? & ? & Hc). split_and!; auto. intros j r. rewrite list_lookup_insert_Some.
    intros [(<- & <- & _)|[_ Hj]]; [rewrite <- Ec|]; by eapply Hc.
  - intros [Hx ?]. split; [|done]. by eapply exclusive_move.
Qed.

Lemma lock_next_critical p q :
  lock_next p = Some q -> critical p = false /\ critical q = true /\ is_done p = is_done q.
Proof. by destruct p; simpl; intros [= <-]. Qed.

Lemma unlock_next_critical p q :
  unlock_next p = Some q -> critical p = true /\ critical q = false /\ is_done p = is_done q.
Proof. by destruct p; simpl; intros [= <-]. Qed.

Lemma next_kind p q : lock_next p = Some q \/ unlock_next p = Some q -> kind_of q = kind_of p /\ p <> WExit.
Proof. destruct p; simpl; intros [[=]|[=]]; by subst. Qed.

Lemma lock_inv_step s e s' : layout s -> lock_inv s -> step s e s' -> lock_inv s'.
Proof.
  intros Hl Hv Hs. destruct Hs;
    try exact Hv;
    try (match goal with H : threads _ !! _ = Some _ |- _ =>
           eapply lock_keep; [exact Hl|split_and!; [exact H|reflexivity|done|done]|done|done|done|done|exact Hv] end).
  - destruct (lock_next_critical _ _ H0) as (Hc & Hc' & Hd). destruct (next_kind p q) as [Hk Hx]; [by left|].
    assert (moves s (goes (with_lock s m) i q) i p q) as Hm by done.
    unfold lock_inv in *. rewrite (closed_moves _ _ _ _ _ Hl Hm Hd). destruct (closed s).
    + destruct Hv as (E & _). rewrite E in H1. done.
    + destruct Hv. split; [|done]. by eapply exclusive_lock.
  - destruct (unlock_next_critical _ _ H0) as (Hc & Hc' & Hd). destruct (next_kind p q) as [Hk Hx]; [by right|].
    assert (moves s (goes (with_lock s m) i q) i p q) as Hm by done.
    unfold lock_inv in *. rewrite (closed_moves _ _ _ _ _ Hl Hm Hd). destruct (closed s).
    + destruct Hv as (E & _). rewrite E in H1. done.
    + destruct Hv. split; [|done]. by eapply exclusive_unlock.
  - unfold lock_inv in *.
    assert (closed (set_threads s (<[0%nat := MSpawn k]> (threads s) ++ [WWait])) = false) as ->.
    { unfold closed, owner_pc. simpl. destruct (threads s); [done|]. done. }
    unfold closed, owner_pc in Hv. rewrite H in Hv. destruct Hv. split; [|done]. simpl.
    apply exclusive_snoc; [|done]. by eapply exclusive_move.
  - eapply lock_keep; [exact Hl|split_and!; [exact H|reflexivity|by destruct r|done]|by destruct r|by destruct r|done|done|exact Hv].
  - simpl in H0. assert (lock s = Mtx None /\ m = Uninit) as [E ->] by (by destruct (lock s) as [|[]]; simplify_eq/=).
    assert (moves s (State (pool s) Uninit (permits s) false (<[0%nat := MDone r]> (threads s))
                         (fresh s) (accepted s) (started s) (finished s) (woken s) (hs s)) 0 (MClose r) (MDone r)) as Hm by done.
    unfold lock_inv in *. unfold closed, owner_pc in *. rewrite H in Hv. simpl in *.
    rewrite list_lookup_insert_eq by (by eapply lookup_lt_Some). simpl. split_and!; auto.
    destruct Hv as [(o & Eo & Ho & _) _]. intros j p. rewrite list_lookup_insert_Some.
    intros [(_ & <- & _)|[_ Hj]]; [done|]. destruct (critical p) eqn:Hc; [|done].
    apply (Ho _ _ Hj) in Hc. congruence.
Qed.

Lemma lock_inv_initial n : lock_inv (initial n).
Proof.
  unfold lock_inv, closed, owner_pc. simpl. split; [|done]. exists None. split_and!; [done| |done].
  intros [|i] p; simpl; [by intros [= <-]|]. by intros [-> _]%lookup_replicate.
Qed.

(** ** The queue and the nodes *)

(** The node a thread has in its hands. *)
Definition held (p : pc) : option nat :=
  match p with
  | WUnlockRun n _ | WRun n _ | WFree n | SLock n | SCheck n | SUnlockRej n | SFreeRej n => Some n
  | _ => None
  end.

Definition held_task (p : pc) : option T :=
  match p with WUnlockRun _ t | WRun _ t => Some t | _ => None end.

(** [ns] are the queued nodes and [ts] their tasks, the oldest first; every
    node is queued or in the hands of exactly one thread. *)
Record queue_inv (s : state) (ns : list nat) (ts : list T) : Prop := {
  q_hd : q_head (pool s) = head ns;
  q_tl : q_tail (pool s) = last ns;
  q_len : length ts = length ns;
  q_nodup : NoDup ns;
  q_nodes j n : ns !! j = Some n ->
    exists t, ts !! j = Some t /\ nodes (pool s) !! n = Some (TaskNode (ns !! S j) t);
  q_acc : accepted s = started s ++ ts;
  q_held i p n : threads s !! i = Some p -> held p = Some n ->
    n ∉ ns /\ exists nd, nodes (pool s) !! n = Some nd /\ (kind_of p = Client -> tn_next nd = None) /\
      (forall t, held_task p = Some t -> tn_task nd = t);
  q_uniq i j p q n : threads s !! i = Some p -> threads s !! j = Some q ->
    held p = Some n -> held q = Some n -> i = j;
  q_fresh n : is_Some (nodes (pool s) !! n) -> (n < fresh s)%nat;
  q_leak n : is_Some (nodes (pool s) !! n) ->
    n ∈ ns \/ exists i p, threads s !! i = Some p /\ held p = Some n
}.

(** A step that moves a thread that keeps what it holds. *)
Lemma queue_keep s s' ns ts i p q :
  queue_inv s ns ts -> moves s s' i p q -> held q = held p ->
  (forall t, held_task q = Some t -> held_task p = Some t) ->
  q_head (pool s') = q_head (pool s) -> q_tail (pool s') = q_tail (pool s) ->
  nodes (pool s') = nodes (pool s) -> fresh s' = fresh s ->
  accepted s' = accepted s -> started s' = started s -> queue_inv s' ns ts.
Proof.
  intros [] (Hi & Et & Ek & _) Eh Ht E1 E2 E3 E4 E5 E6.
  assert (forall j r, threads s' !! j = Some r -> exists r', threads s !! j = Some r' /\ held r = held r' /\
    kind_of r = kind_of r' /\ forall t, held_task r = Some t -> held_task r' = Some t) as Hback.
  { intros j r. rewrite Et, list_lookup_insert_Some. intros [(<- & <- & _)|[_ Hj]]; eauto 10. }
  split; rewrite ?E1, ?E2, ?E3, ?E4, ?E5, ?E6; auto.
  - intros j r n (r' & Hj & -> & -> & Hr)%Hback Hn.
    destruct (q_held0 _ _ _ Hj Hn) as (? & nd & ? & ? & ?). eauto 10.
  - intros j k r1 r2 n (r1' & Hj & -> & _)%Hback (r2' & Hk & -> & _)%Hback. by eapply q_uniq0.
  - intros n Hn. destruct (q_leak0 n Hn) as [?|(j & r & Hj & Hr)]; [by left|right].
    destruct (decide (j = i)) as [->|Hne].
    + exists i, q. rewrite Et, list_lookup_insert_eq by (by eapply lookup_lt_Some).
      split; [done|]. rewrite Eh. congruence.
    + exists j, r. rewrite Et, list_lookup_insert_ne by done. done.
Qed.

(** A held node stays held when another thread moves. *)
Lemma held_other s s' i p q j r n :
  moves s s' i p q -> threads s !! j = Some r -> held r = Some n -> held p <> Some n ->
  threads s' !! j = Some r.
Proof.
  intros (Hi & Et & _) Hj Hr Hp. rewrite Et, list_lookup_insert_ne; [done|]. intros <-. congruence.
Qed.

Lemma take_inv s ns ts p o :
  queue_inv s ns ts -> take_task (pool s) = Some (o, p) ->
  (o = None /\ p = pool s /\ ns = [] /\ ts = []) \/
  (exists n ns' t ts', o = Some n /\ ns = n :: ns' /\ ts = t :: ts' /\
     p = Pool (head ns') (last ns') (shutting_down (pool s)) (nodes (pool s)) /\
     nodes (pool s) !! n = Some (TaskNode (head ns') t)).
Proof.
  intros [] Ht. unfold take_task in Ht. destruct ns as [|n ns].
  - left. destruct ts; [|done]. by rewrite q_hd0 in Ht; simplify_eq/=.
  - right. destruct (q_nodes0 0%nat n eq_refl) as (t & Et & En). destruct ts as [|t' ts]; [done|].
    simplify_eq/=. exists n, ns, t, ts. rewrite q_hd0 in Ht. simpl in Ht. rewrite En in Ht. simpl in Ht.
    assert (ns !! 0%nat = head ns) as E by (by destruct ns). rewrite E in *.
    injection Ht as <- <-. split_and!; auto. f_equal. destruct ns; [done|]. done.
Qed.

Lemma queue_take s ns ts i n p nd :
  queue_inv s ns ts -> threads s !! i = Some WTake -> take_task (pool s) = Some (Some n, p) ->
  nodes p !! n = Some nd ->
  queue_inv (State p (lock s) (permits s) (sem_alive s) (<[i := WUnlockRun n (tn_task nd)]> (threads s))
                   (fresh s) (accepted s) (started s ++ [tn_task nd]) (finished s) (woken s) (hs s)) (tail ns) (tail ts).
Proof.
  intros Hq Hi Ht Hnd. destruct (take_inv _ _ _ _ _ Hq Ht) as [(? & _)|(n' & ns' & t & ts' & [= <-] & -> & -> & -> & En)]; [done|].
  simpl in *. rewrite En in Hnd. injection Hnd as <-. simpl. destruct Hq. simpl in *.
  apply NoDup_cons in q_nodup0 as [Hn Hnd].
  split; simpl; auto.
  - intros j k Hj. by apply (q_nodes0 (S j)).
  - by rewrite q_acc0, <- app_assoc.
  - intros j r k. rewrite list_lookup_insert_Some. intros [(<- & <- & _)|[_ Hj]] Hk.
    + injection Hk as <-. split; [done|]. eexists. split; [exact En|]. split; [done|]. by intros ? [= ->].
    + destruct (q_held0 _ _ _ Hj Hk) as (Hkn & nd & ? & ? & ?). split; [set_solver|eauto].
  - intros j k r1 r2 m. rewrite !list_lookup_insert_Some.
    intros [(<- & <- & _)|[Hj1 Hj]] [(<- & <- & _)|[Hk1 Hk]] H1 H2; simpl in *; try done; [| |by eapply q_uniq0].
    + injection H1 as <-. destruct (q_held0 _ _ _ Hk H2) as [? _]. set_solver.
    + injection H2 as <-. destruct (q_held0 _ _ _ Hj H1) as [? _]. set_solver.
  - intros k Hk. destruct (q_leak0 k Hk) as [Hin|(j & r & Hj & Hr)].
    + apply elem_of_cons in Hin as [->|Hin]; [|by left]. right. exists i, (WUnlockRun n t).
      by rewrite list_lookup_insert_eq by (by eapply lookup_lt_Some).
    + right. exists j, r. split; [|done]. rewrite list_lookup_insert_ne; [done|]. intros <-. assert (r = WTake) as -> by congruence. done.
Qed.

(** A thread frees the node it holds. *)
Lemma queue_free s ns ts i p n q pl :
  queue_inv s ns ts -> threads s !! i = Some p -> held p = Some n -> held q = None ->
  free_node (pool s) n = Some pl -> queue_inv (goes (with_pool s pl) i q) ns ts.
Proof.
  intros [] Hi Hp Hq Hf. unfold free_node in Hf.
  destruct (nodes (pool s) !! n) as [nd|] eqn:En; [|done]. injection Hf as <-.
  destruct (q_held0 _ _ _ Hi Hp) as [Hn _].
  assert (held_task q = None) as Hqt by (by destruct q).
  split; simpl; auto.
  - intros j k Hj. destruct (q_nodes0 j k Hj) as (t & ? & ?). exists t. split; [done|].
    rewrite lookup_delete_ne; [done|]. intros ->. apply Hn. by eapply list_elem_of_lookup_2.
  - intros j r k. rewrite list_lookup_insert_Some. intros [(<- & <- & _)|[Hne Hj]] Hk; [congruence|].
    destruct (q_held0 _ _ _ Hj Hk) as (? & nd' & ? & ?). split; [done|]. exists nd'. split; [|done].
    rewrite lookup_delete_ne; [done|]. intros ->. apply Hne. by eapply q_uniq0.
  - intros j k r1 r2 m. rewrite !list_lookup_insert_Some.
    intros [(<- & <- & _)|[Hj1 Hj]] [(<- & <- & _)|[Hk1 Hk]] H1 H2; try congruence. by eapply q_uniq0.
  - intros k Hk. apply q_fresh0. rewrite lookup_delete_is_Some in Hk. tauto.
  - intros k [Hne Hk]%lookup_delete_is_Some. destruct (q_leak0 k Hk) as [?|(j & r & Hj & Hr)]; [by left|right].
    exists j, r. split; [|done]. rewrite list_lookup_insert_ne; [done|]. intros <-. congruence.
Qed.

(** A client allocates a node. *)
Lemma queue_alloc s ns ts i t :
  queue_inv s ns ts -> threads s !! i = Some (SAlloc t) ->
  queue_inv (State (new_node (pool s) (fresh s) t) (lock s) (permits s) (sem_alive s)
                   (<[i := SLock (fresh s)]> (threads s)) (S (fresh s))
                   (accepted s) (started s) (finished s) (woken s) (hs s)) ns ts.
Proof.
  intros [] Hi.
  assert (forall k nd, nodes (pool s) !! k = Some nd -> k <> fresh s) as Hne.
  { intros k nd Hk ->. assert (fresh s < fresh s)%nat; [|lia]. apply q_fresh0. eauto. }
  split; simpl; auto.
  - intros j k Hj. destruct (q_nodes0 j k Hj) as (u & ? & Hk). exists u. split; [done|].
    rewrite lookup_insert_ne; [done|]. by apply not_eq_sym, (Hne _ _ Hk).
  - intros j r k. rewrite list_lookup_insert_Some. intros [(<- & <- & _)|[_ Hj]] Hk.
    + injection Hk as <-. split; [|exists (TaskNode None t); split_and!; [apply lookup_insert_eq|done|done]].
      intros [j Hj]%list_elem_of_lookup. destruct (q_nodes0 _ _ Hj) as (u & _ & Hk). by apply (Hne _ _ Hk).
    + destruct (q_held0 _ _ _ Hj Hk) as (? & nd & Hnd & ?). split; [done|]. exists nd. split; [|done].
      rewrite lookup_insert_ne; [done|]. by apply not_eq_sym, (Hne _ _ Hnd).
  - intros j k r1 r2 m. rewrite !list_lookup_insert_Some.
    intros [(<- & <- & _)|[Hj1 Hj]] [(<- & <- & _)|[Hk1 Hk]] H1 H2; simpl in *; try done; [| |by eapply q_uniq0].
    + injection H1 as <-. destruct (q_held0 _ _ _ Hk H2) as (_ & nd & Hnd & _). by destruct (Hne _ _ Hnd).
    + injection H2 as <-. destruct (q_held0 _ _ _ Hj H1) as (_ & nd & Hnd & _). by destruct (Hne _ _ Hnd).
  - intros k. rewrite lookup_insert_is_Some. intros [<-|[_ Hk]]; [lia|]. specialize (q_fresh0 k Hk). lia.
  - intros k. rewrite lookup_insert_is_Some. intros [<-|[_ Hk]].
    + right. exists i, (SLock (fresh s)). by rewrite list_lookup_insert_eq by (by eapply lookup_lt_Some).
    + destruct (q_leak0 k Hk) as [?|(j & r & Hj & Hr)]; [by left|right]. exists j, r. split; [|done].
      rewrite list_lookup_insert_ne; [done|]. intros <-. assert (r = SAlloc t) as -> by congruence. done.
Qed.

(** What [enqueue_task] does to the nodes. *)
Lemma enqueue_inv s ns ts n p nd :
  queue_inv s ns ts -> n ∉ ns -> nodes (pool s) !! n = Some nd -> enqueue_task (pool s) n = Some p ->
  q_head p = head (ns ++ [n]) /\ q_tail p = Some n /\ shutting_down p = shutting_down (pool s) /\
  (forall k, k ∉ ns -> nodes p !! k = nodes (pool s) !! k) /\
  (forall k, is_Some (nodes p !! k) <-> is_Some (nodes (pool s) !! k)) /\
  (forall j k, ns !! j = Some k -> exists t, ts !! j = Some t /\
     nodes p !! k = Some (TaskNode ((ns ++ [n]) !! S j) t)).
Proof.
  intros [] Hn Hnd He. unfold enqueue_task in He. rewrite q_tl0 in He.
  destruct (last ns) as [l|] eqn:El.
  2: { apply last_None in El as ->. injection He as <-. simpl. by split_and!. }
  apply last_Some in El as [ns0 ->]. pose proof (list_lookup_middle ns0 [] l _ eq_refl) as Hl.
  destruct (q_nodes0 _ _ Hl) as (t & Ht & El). rewrite El in He. injection He as <-. simpl.
  split_and!; auto.
  - rewrite q_hd0. by destruct ns0.
  - intros k Hk. rewrite lookup_insert_ne; [done|]. intros ->. apply Hk. set_solver.
  - intros k. rewrite lookup_insert_is_Some'. split; [|by right]. intros [<-|?]; [|done]. eauto.
  - intros j k Hj. destruct (q_nodes0 _ _ Hj) as (u & Hu & Hk). exists u. split; [done|].
    destruct (decide (j = length ns0)) as [->|Hne].
    + assert (k = l) as -> by congruence. rewrite lookup_insert_eq. do 2 f_equal; [|congruence].
      rewrite lookup_app_r by (rewrite length_app; simpl; lia). rewrite length_app. simpl.
      by replace (S (length ns0) - (length ns0 + 1))%nat with 0%nat by lia.
    + pose proof (lookup_lt_Some _ _ _ Hj) as Hlt. rewrite length_app in Hlt. simpl in Hlt.
      rewrite lookup_insert_ne.
      * rewrite Hk. do 2 f_equal. symmetry. apply lookup_app_l. rewrite length_app. simpl. lia.
      * intros ->. apply Hne. by eapply NoDup_lookup.
Qed.

Lemma queue_enqueue s ns ts i n p nd :
  queue_inv s ns ts -> threads s !! i = Some (SCheck n) -> enqueue_task (pool s) n = Some p ->
  nodes p !! n = Some nd ->
  queue_inv (State p (lock s) (permits s) (sem_alive s) (<[i := SUnlockOk]> (threads s)) (fresh s)
                   (accepted s ++ [tn_task nd]) (started s) (finished s) (woken s) (hs s))
            (ns ++ [n]) (ts ++ [tn_task nd]).
Proof.
  intros Hq Hi He Hnd. destruct (q_held _ _ _ Hq _ _ _ Hi eq_refl) as (Hn & nd0 & Hnd0 & Hnx & _).
  destruct (enqueue_inv _ _ _ _ _ _ Hq Hn Hnd0 He) as (Eh & Et & _ & Esame & Edom & Enodes).
  assert (nd0 = nd) as -> by (rewrite Esame in Hnd by done; congruence). specialize (Hnx eq_refl).
  destruct Hq. split; simpl; auto.
  - rewrite Et. by rewrite last_snoc.
  - rewrite !length_app, q_len0. done.
  - apply NoDup_app. split_and!; auto; [set_solver|]. apply NoDup_singleton.
  - intros j k [[_ Hj]|[-> <-]]%lookup_snoc_Some.
    + destruct (Enodes _ _ Hj) as (t & Ht & Hk). exists t. split; [by apply lookup_app_l_Some|done].
    + exists (tn_task nd). rewrite <- q_len0. split; [by apply list_lookup_middle|].
      rewrite Hnd. rewrite q_len0. rewrite (proj2 (lookup_ge_None (ns ++ [n]) _)) by (rewrite length_app; simpl; lia).
      by destruct nd; simplify_eq/=.
  - by rewrite q_acc0, <- app_assoc.
  - intros j r k. rewrite list_lookup_insert_Some. intros [(<- & <- & _)|[Hne Hj]] Hk; [done|].
    destruct (q_held0 _ _ _ Hj Hk) as (Hkn & nd' & ? & ?).
    assert (k <> n) as Hkn' by (intros ->; apply Hne; by eapply q_uniq0).
    split; [set_solver|]. exists nd'. by rewrite Esame.
  - intros j k r1 r2 m. rewrite !list_lookup_insert_Some.
    intros [(<- & <- & _)|[Hj1 Hj]] [(<- & <- & _)|[Hk1 Hk]] H1 H2; simpl in *; try done. by eapply q_uniq0.
  - intros k Hk. apply q_fresh0. by apply Edom.
  - intros k Hk%Edom. destruct (q_leak0 k Hk) as [?|(j & r & Hj & Hr)]; [left; set_solver|].
    destruct (decide (j = i)) as [->|Hne].
    + left. assert (r = SCheck n) as -> by congruence. simpl in Hr. set_solver.
    + right. exists j, r. by rewrite list_lookup_insert_ne.
Qed.

Lemma queue_spawn s ns ts k :
  queue_inv s ns ts -> threads s !! 0%nat = Some (MSpawn (S k)) ->
  queue_inv (set_threads s (<[0%nat := MSpawn k]> (threads s) ++ [WWait])) ns ts.
Proof.
  intros [] Hi.
  assert (forall j r n, (<[0%nat := MSpawn k]> (threads s) ++ [WWait]) !! j = Some r -> held r = Some n ->
    threads s !! j = Some r) as Hback.
  { intros j r n [[_ Hj]|[_ <-]]%lookup_snoc_Some Hr; [|done].
    apply list_lookup_insert_Some in Hj as [(<- & <- & _)|[_ Hj]]; done. }
  split; simpl; auto.
  - intros j r n Hj Hr. eapply q_held0; eauto.
  - intros j j' r1 r2 n Hj Hj' H1 H2. eapply q_uniq0; eauto.
  - intros n Hn. destruct (q_leak0 n Hn) as [?|(j & r & Hj & Hr)]; [by left|right]. exists j, r. split; [|done].
    apply lookup_app_l_Some. rewrite list_lookup_insert_ne; [done|]. intros <-. assert (r = MSpawn (S k)) as -> by congruence. done.
Qed.

Lemma queue_initial n : queue_inv (initial n) [] [].
Proof.
  split; simpl; auto; try done.
  - constructor.
  - intros [|i] p m; simpl; [by intros [= <-]|]. by intros [-> _]%lookup_replicate.
  - intros [|i] j p q m; simpl; [by intros [= <-]|]. by intros [-> _]%lookup_replicate.
  - intros m. rewrite lookup_empty. by intros [? ?].
  - intros m. rewrite lookup_empty. by intros [? ?].
Qed.

Lemma next_held p q :
  lock_next p = Some q \/ unlock_next p = Some q ->
  held q = held p /\ forall t, held_task q = Some t -> held_task p = Some t.
Proof. destruct p; simpl; intros [[=]|[=]]; subst; simpl; auto; done. Qed.

(** The drain loop never has anything to do. *)
Lemma queue_step s e s' ns ts :
  queue_inv s ns ts -> (threads s !! 0%nat = Some MDrain -> q_head (pool s) = None) -> step s e s' ->
  exists ns' ts', queue_inv s' ns' ts'.
Proof.
  intros Hq Hdr Hs. destruct Hs; eauto using queue_free, queue_alloc, queue_enqueue, queue_take, queue_spawn;
    try (match goal with H : threads _ !! _ = Some _ |- _ =>
           exists ns, ts; eapply queue_keep; [exact Hq|split_and!; [exact H|reflexivity|done|done]|done..] end).
  - exists ns, ts. destruct (next_kind p q) as [Hk Hx]; [by left|]. destruct (next_held p q) as [? ?]; [by left|].
    by eapply queue_keep.
  - exists ns, ts. destruct (next_kind p q) as [Hk Hx]; [by right|]. destruct (next_held p q) as [? ?]; [by right|].
    by eapply queue_keep.
  - destruct (take_inv _ _ _ _ _ Hq H0) as [(_ & -> & _)|(n & ? & ? & ? & ? & _)]; [|done].
    exists ns, ts. eapply queue_keep; [exact Hq|split_and!; [exact H|reflexivity|done|done]|done..].
  - exists ns, ts. eapply queue_keep; [exact Hq|split_and!; [exact H|reflexivity|by destruct r|done]|by destruct r|by destruct r|done..].
  - rewrite (Hdr H) in H0. done.
  - exists ns, ts. pose proof (q_hd _ _ _ Hq) as Eh. pose proof (q_tl _ _ _ Hq) as Et.
    rewrite H0 in Eh. destruct ns; [|done].
    eapply queue_keep; [exact Hq|split_and!; [exact H|reflexivity|done|done]|..]; done.
Qed.

(** ** Permits, tasks and exits *)

(** A worker that has used a permit but no task for it, or a task whose
    permit has not been posted. *)
Definition credit (p : pc) : nat :=
  match p with WLock | WTake | WUnlockExit | WExit | SUnlockOk | SPost => 1 | _ => 0 end.

Definition exiting (p : pc) : nat := match p with WUnlockExit | WExit => 1 | _ => 0 end.

(** [init] is running, or rolling back. *)
Definition init_phase (o : pc) : bool :=
  match o with
  | MSpawn _ | MLock true | MSet true | MUnlock true | MPost true _ | MJoin true _ | MClose true | MDone true => true
  | _ => false
  end.

Definition down (o : pc) : bool :=
  match o with MUnlock _ | MPost _ _ | MJoin _ _ | MDrain | MClose _ | MDone _ => true | _ => false end.

Definition posted (o : pc) (w : nat) : nat :=
  match o with MPost _ k => k | MJoin _ _ | MDrain | MClose _ | MDone _ => w | _ => 0 end.

Definition joined (o : pc) (w : nat) : nat :=
  match o with MJoin _ k => k | MDrain | MClose _ | MDone _ => w | _ => 0 end.

(** No client has come in. *)
Definition quiet (s : state) : Prop :=
  accepted s = [] /\ forall i p, threads s !! i = Some p -> kind_of p = Client -> p = SIdle.

Definition owner_ok (n : nat) (s : state) (o : pc) : Prop :=
  shutting_down (pool s) = down o /\ woken s = posted o (workers s) /\
  (posted o (workers s) <= workers s)%nat /\ (joined o (workers s) <= workers s)%nat /\
  (forall j, (j < joined o (workers s))%nat -> threads s !! (base + j)%nat = Some WExit) /\
  (if init_phase o then quiet s else workers s = n) /\
  (forall k, o = MSpawn k -> k + workers s = n)%nat.

Record credit_inv (n : nat) (s : state) : Prop := {
  c_sum : (permits s + sum_list_with credit (threads s) + length (started s) =
           length (accepted s) + woken s)%nat;
  c_exit : (0 < sum_list_with exiting (threads s))%nat ->
    shutting_down (pool s) = true /\ length (started s) = length (accepted s);
  c_owner : exists o, owner_pc s = Some o /\ owner_ok n s o
}.

Lemma owner_keep n s s' i p q o :
  layout s -> moves s s' i p q -> kind_of p <> Owner ->
  shutting_down (pool s') = shutting_down (pool s) -> woken s' = woken s ->
  (init_phase o = true -> quiet s -> quiet s') -> owner_ok n s o -> owner_ok n s' o.
Proof.
  intros Hl (Hi & Et & Ek & Hx) Hp Es Ew Hq (H1 & H2 & H3 & H4 & H5 & H6 & H7).
  unfold owner_ok. rewrite (workers_goes s s' i q Et), Es, Ew. split; [done|]. split; [done|].
  split; [done|]. split; [done|]. split; [|split; [|done]].
  - intros j Hj. rewrite Et, list_lookup_insert_ne; [by apply H5|]. intros ->. specialize (H5 j Hj). congruence.
  - destruct (init_phase o); auto.
Qed.

Lemma quiet_worker s s' i p q :
  moves s s' i p q -> kind_of p = Worker -> accepted s' = accepted s -> quiet s -> quiet s'.
Proof.
  intros (Hi & Et & Ek & _) Hp Ea [H1 H2]. split; [congruence|]. intros j r. rewrite Et, list_lookup_insert_Some.
  intros [(<- & <- & _)|[_ Hj]] Hr; [congruence|]. by eapply H2.
Qed.

(** A step of a worker or of a client. *)
Lemma credit_other n s s' i p q :
  layout s -> moves s s' i p q -> kind_of p <> Owner -> p <> SIdle \/ (exists o, owner_pc s = Some o /\ open o = true) ->
  shutting_down (pool s') = shutting_down (pool s) -> woken s' = woken s ->
  (kind_of p = Worker -> accepted s' = accepted s) ->
  (permits s' + credit q + length (started s') + length (accepted s) =
   permits s + credit p + length (started s) + length (accepted s'))%nat ->
  ((0 < exiting q + sum_list_with exiting (threads s))%nat -> (sum_list_with exiting (threads s) = 0)%nat \/
      shutting_down (pool s) = true /\ length (started s) = length (accepted s) ->
      shutting_down (pool s) = true /\ length (started s') = length (accepted s')) ->
  credit_inv n s -> credit_inv n s'.
Proof.
  intros Hl Hm Hk Hc Esd Ew Hacc Hsum Hex [H1 H2 (o & Ho & Hok)].
  pose proof Hm as (Hi & Et & Ek & Hx).
  pose proof (sum_insert credit _ _ _ q Hi). pose proof (sum_insert exiting _ _ _ q Hi).
  destruct (owner_other _ _ _ _ _ Hl Hm Hk) as [Eo _].
  split.
  - rewrite Et. lia.
  - rewrite Et, Esd. intros Hz. apply Hex; [lia|].
    destruct (decide (sum_list_with exiting (threads s) = 0)%nat); [by left|right]. apply H2. lia.
  - exists o. rewrite Eo. split; [done|]. eapply owner_keep; eauto. intros Hip Hq.
    destruct (kind_of p) eqn:Ekp; [done| |by eapply quiet_worker; eauto].
    exfalso. destruct Hq as [_ Hq]. specialize (Hq i p Hi Ekp). subst p.
    destruct Hc as [?|(o' & Ho' & Hop)]; [done|]. assert (o' = o) as -> by congruence.
    destruct o; try done; by destruct r.
Qed.

(** A step of the owner. *)
Lemma credit_owner n s s' p q :
  layout s -> moves s s' 0 p q -> kind_of p = Owner ->
  accepted s' = accepted s -> started s' = started s ->
  (permits s' + woken s = permits s + woken s')%nat -> (shutting_down (pool s) = true -> shutting_down (pool s') = true) ->
  (owner_ok n s p -> owner_ok n s' q) ->
  credit_inv n s -> credit_inv n s'.
Proof.
  intros Hl Hm Hk Ea Es Hp Hsd Hok [H1 H2 (o & Ho & Hok')]. pose proof Hm as (Hi & Et & Ek & _).
  assert (o = p) as -> by (unfold owner_pc in Ho; congruence).
  pose proof (sum_insert credit _ _ _ q Hi) as E1. pose proof (sum_insert exiting _ _ _ q Hi) as E2.
  assert (forall x, kind_of x = Owner -> credit x = 0%nat /\ exiting x = 0%nat) as Hz by (by intros []).
  destruct (Hz p Hk) as [E3 E4]. destruct (Hz q ltac:(congruence)) as [E5 E6]. split.
  - rewrite Et, Ea, Es. lia.
  - rewrite Et, Ea, Es. intros Hx. destruct H2 as [? ?]; [lia|]. auto.
  - exists q. split; [|auto]. unfold owner_pc. rewrite Et. apply list_lookup_insert_eq. by eapply lookup_lt_Some.
Qed.

Lemma owner_frame s s' p q :
  moves s s' 0 p q -> kind_of p = Owner -> accepted s' = accepted s ->
  workers s' = workers s /\ (quiet s -> quiet s') /\
  (forall j x, threads s !! (base + j)%nat = Some x -> threads s' !! (base + j)%nat = Some x).
Proof.
  intros (Hi & Et & Ek & _) Hp Ea. split_and!.
  - by eapply workers_goes.
  - intros [H1 H2]. split; [congruence|]. intros j r. rewrite Et, list_lookup_insert_Some.
    intros [(<- & <- & _)|[_ Hj]] Hr; [congruence|]. by eapply H2.
  - intros j x Hj. rewrite Et, list_lookup_insert_ne; [done|]. unfold base. lia.
Qed.

(** The next state of the owner in its protocol. *)
Lemma owner_ok_next n s s' p q :
  moves s s' 0 p q -> kind_of p = Owner -> accepted s' = accepted s ->
  (forall w, owner_ok n s p -> w = workers s ->
     shutting_down (pool s') = down q /\ woken s' = posted q w /\ (posted q w <= w)%nat /\
     (joined q w <= w)%nat /\
     (forall j, (j < joined q w)%nat -> threads s !! (base + j)%nat = Some WExit) /\
     (if init_phase q then quiet s else w = n) /\ (forall k, q = MSpawn k -> k + w = n)%nat) ->
  owner_ok n s p -> owner_ok n s' q.
Proof.
  intros Hm Hp Ea H Hok. destruct (owner_frame _ _ _ _ Hm Hp Ea) as (Ew & Hq & Ht).
  destruct (H _ Hok eq_refl) as (H1 & H2 & H3 & H4 & H5 & H6 & H7). unfold owner_ok. rewrite Ew.
  split; [done|]. split; [done|]. split; [done|]. split; [done|]. split; [eauto|]. split; [|done].
  destruct (init_phase q); auto.
Qed.

Lemma next_credit p q :
  lock_next p = Some q \/ unlock_next p = Some q -> credit q = credit p /\ exiting q = exiting p /\ p <> SIdle.
Proof. destruct p; simpl; intros [[=]|[=]]; subst; simpl; auto; done. Qed.

(** The steps of the owner that only move it. *)
Ltac owner_move :=
  eapply credit_owner; [eassumption|by split_and!|done|done|done|done|done| |eassumption];
  apply owner_ok_next; [by split_and!|done|done|];
  let w := fresh "w" in intros w (?&?&?&?&?&?&?) ->; simpl in *; split_and!;
  (done || lia || congruence || (intros; simplify_eq; lia) || (intros; lia) ||
   match goal with H : forall k, MSpawn ?x = MSpawn k -> _ |- _ => exact (H x eq_refl) end || auto).

Lemma next_down p q :
  lock_next p = Some q \/ unlock_next p = Some q -> kind_of p = Owner ->
  down q = down p /\ (forall w, posted q w = posted p w) /\ (forall w, joined q w = joined p w) /\
  init_phase q = init_phase p /\ (forall k, q <> MSpawn k).
Proof. destruct p; simpl; intros [[=]|[=]] ?; subst; try done; by destruct r. Qed.

Lemma credit_next n s i p q m :
  layout s -> credit_inv n s -> threads s !! i = Some p -> lock_next p = Some q \/ unlock_next p = Some q ->
  credit_inv n (goes (with_lock s m) i q).
Proof.
  intros Hl Hv Hi Hn. destruct (next_kind _ _ Hn) as [Hk Hx]. destruct (next_credit _ _ Hn) as (E1 & E2 & E3).
  assert (moves s (goes (with_lock s m) i q) i p q) as Hm by done.
  destruct (decide (i = 0%nat)) as [->|Hne].
  - assert (kind_of p = Owner) as Ho by (by apply (l_kind _ Hl 0 p)).
    destruct (next_down _ _ Hn Ho) as (Ed & Ep & Ej & Ei & Es).
    eapply credit_owner; [exact Hl|exact Hm|done..| |exact Hv].
    eapply owner_ok_next; [exact Hm|done|done|]. intros w (H1 & H2 & H3 & H4 & H5 & H6 & H7) ->.
    rewrite Ed, Ep, Ej, Ei. split_and!; auto. intros k ->. by destruct (Es k).
  - eapply credit_other; [exact Hl|exact Hm| |by left|done|done|done|simpl; lia| |exact Hv].
    + intros Ho. apply Hne. by eapply owner_is_0.
    + simpl. intros Hz [Hw|?]; [|done]. rewrite E2 in Hz. pose proof (sum_elem exiting _ _ _ Hi). lia.
Qed.

Lemma credit_take n s i k p nd ns ts :
  layout s -> queue_inv s ns ts -> credit_inv n s -> threads s !! i = Some WTake ->
  take_task (pool s) = Some (Some k, p) ->
  credit_inv n (State p (lock s) (permits s) (sem_alive s) (<[i := WUnlockRun k (tn_task nd)]> (threads s))
                      (fresh s) (accepted s) (started s ++ [tn_task nd]) (finished s) (woken s) (hs s)).
Proof.
  intros Hl Hq Hv Hi Ht.
  destruct (take_inv _ _ _ _ _ Hq Ht) as [(? & _)|(k' & ns' & t & ts' & [= <-] & -> & -> & -> & _)]; [done|].
  pose proof (q_acc _ _ _ Hq) as Ea. eapply credit_other; [exact Hl|by split_and!|done|by left|done|done|done| | |exact Hv].
  - simpl. rewrite length_app. simpl. lia.
  - simpl. intros Hz [Hw|[_ Hw]]; [lia|]. rewrite Ea, length_app in Hw. simpl in Hw. lia.
Qed.

Lemma credit_take_none n s i p ns ts :
  layout s -> queue_inv s ns ts -> credit_inv n s -> threads s !! i = Some WTake ->
  take_task (pool s) = Some (None, p) -> credit_inv n (goes (with_pool s p) i WUnlockExit).
Proof.
  intros Hl Hq Hv Hi Ht.
  destruct (take_inv _ _ _ _ _ Hq Ht) as [(_ & -> & -> & ->)|(n' & ? & ? & ? & ? & _)]; [|done].
  pose proof (q_acc _ _ _ Hq) as Ea. rewrite app_nil_r in Ea.
  eapply credit_other; [exact Hl|by split_and!|done|by left|done|done|done|simpl; lia| |exact Hv].
  simpl. intros _ _. split; [|by rewrite Ea].
  (* the permit it holds is one of the shutdown's *)
  destruct Hv as [Hs _ (o & Ho & H1 & H2 & _)]. pose proof (sum_elem credit _ _ _ Hi) as Hc. simpl in Hc.
  rewrite H1. rewrite Ea in Hs. destruct o; simpl in *; try done; lia.
Qed.

Lemma credit_spawn n s k :
  layout s -> credit_inv n s -> threads s !! 0%nat = Some (MSpawn (S k)) ->
  credit_inv n (set_threads s (<[0%nat := MSpawn k]> (threads s) ++ [WWait])).
Proof.
  intros Hl [H1 H2 (o & Ho & Hok)] Hi. pose proof (l_length _ Hl) as Hlen.
  assert (o = MSpawn (S k)) as -> by (unfold owner_pc in Ho; congruence).
  destruct Hok as (G1 & G2 & G3 & G4 & G5 & [G6 G6'] & G7). specialize (G7 _ eq_refl).
  pose proof (sum_insert credit _ _ _ (MSpawn k) Hi) as E1.
  pose proof (sum_insert exiting _ _ _ (MSpawn k) Hi) as E2. simpl in *.
  assert (workers (set_threads s (<[0%nat := MSpawn k]> (threads s) ++ [WWait])) = S (workers s)) as Ew.
  { unfold workers. simpl. rewrite length_app, length_insert. simpl. lia. }
  split; simpl; rewrite ?sum_list_with_app; simpl.
  - lia.
  - intros Hz. apply H2. lia.
  - exists (MSpawn k). split.
    { unfold owner_pc. simpl. apply lookup_app_l_Some, list_lookup_insert_eq. by eapply lookup_lt_Some. }
    unfold owner_ok. rewrite Ew. simpl. split_and!; auto; try lia; [|intros ? [= <-]; lia].
    split; [done|]. simpl. intros j r [[_ Hj]|[_ <-]]%lookup_snoc_Some Hr; [|done].
    apply list_lookup_insert_Some in Hj as [(_ & <- & _)|[_ Hj]]; [done|]. by eapply G6'.
Qed.

(** *** The handles *)

Definition spawning (o : pc) : bool := match o with MSpawn _ => true | _ => false end.

(** The array is there until the owner releases it, with the room [init] has
    asked for; once [init] has left its loop, [thread_count] is the number of
    workers. *)
Record count_inv (n : nat) (s : state) : Prop := {
  h_req : h_requested (hs s) = n;
  h_room : (workers s <= n)%nat;
  h_alloc : h_array (hs s) = if closed s then None else Some n;
  h_workers o : owner_pc s = Some o -> thread_count s = if spawning o then n else workers s
}.

Lemma count_workers n s o :
  count_inv n s -> threads s !! 0%nat = Some o -> spawning o = false -> thread_count s = workers s.
Proof. intros Hct Ho Hs. rewrite (h_workers _ _ Hct o Ho). by rewrite Hs. Qed.

Lemma handle_done s k : pool_join (handle s k) = Done () -> threads s !! (base + k)%nat = Some WExit.
Proof.
  rewrite pool_join_done. unfold handle. destruct (h_array (hs s)); simpl; [|done]. by case_decide.
Qed.

(** A handle of a worker. *)
Lemma handle_worker n s k :
  count_inv n s -> closed s = false -> (k < workers s)%nat -> handle s k = threads s !! (base + k)%nat.
Proof.
  intros Hct Hc Hk. unfold handle. rewrite (h_alloc _ _ Hct), Hc. simpl. rewrite decide_True; [done|].
  pose proof (h_room _ _ Hct). lia.
Qed.

Lemma count_keep n s s' i p q :
  layout s -> moves s s' i p q -> is_done p = is_done q -> spawning p = spawning q -> hs s' = hs s ->
  count_inv n s -> count_inv n s'.
Proof.
  intros Hl Hm Ed Es Eh [H1 H2 H3 H4]. pose proof (closed_moves _ _ _ _ _ Hl Hm Ed) as Ec.
  destruct Hm as (Hi & Et & _). pose proof (workers_goes s s' i q Et) as Ew. unfold thread_count in *.
  split; unfold thread_count; rewrite ?Eh, ?Ew, ?Ec; auto. unfold owner_pc in *. intros o. rewrite Et, list_lookup_insert_Some.
  intros [(-> & <- & _)|[_ Ho]]; [rewrite <- Es|]; eauto.
Qed.

(** The owner leaves the loop of [init], or releases the array. *)
Lemma count_leave n s s' p q :
  count_inv n s -> moves s s' 0 p q -> spawning q = false -> h_requested (hs s') = n ->
  h_array (hs s') = (if is_done q then None else Some n) -> h_count (hs s') = workers s -> count_inv n s'.
Proof.
  intros [H1 H2 H3 H4] (H0 & Et & _) Hs E1 E2 E3. pose proof (workers_goes s s' 0 q Et) as Ew.
  assert (owner_pc s' = Some q) as Ho
    by (unfold owner_pc; rewrite Et; apply list_lookup_insert_eq; by eapply lookup_lt_Some).
  split; unfold thread_count; rewrite ?Ew; auto.
  - unfold closed. by rewrite Ho.
  - intros o. rewrite Ho. intros [= <-]. by rewrite Hs.
Qed.

Lemma free_handles_spec r h h' :
  free_handles r h = Some h' -> h_count h' = h_count h /\ h_requested h' = h_requested h /\ h_array h' = None.
Proof. unfold free_handles. destruct (h_array h) eqn:E; [case_decide|]; naive_solver. Qed.

Lemma count_step n s e s' : layout s -> credit_inv n s -> count_inv n s -> step s e s' -> count_inv n s'.
Proof.
  intros Hl Hc Hv Hs. destruct (c_owner _ _ Hc) as (o & Ho & Hok). unfold owner_pc in Ho.
  destruct Hs; try exact Hv;
    try (match goal with H : threads _ !! _ = Some _ |- _ =>
           eapply count_keep; [exact Hl|split_and!; [exact H|reflexivity|done|done]|done|done|done|exact Hv] end).
  - eapply (count_keep n s _ i p q); [exact Hl| |by destruct p; simplify_eq/=|by destruct p; simplify_eq/=|done|exact Hv].
    split_and!; [exact H|done|by apply next_kind; left|by eapply next_kind; left].
  - eapply (count_keep n s _ i p q); [exact Hl| |by destruct p; simplify_eq/=|by destruct p; simplify_eq/=|done|exact Hv].
    split_and!; [exact H|done|by apply next_kind; right|by eapply next_kind; right].
  - assert (o = MSpawn (S k)) as -> by congruence. destruct Hok as (_ & _ & _ & _ & _ & _ & Hk). specialize (Hk _ eq_refl).
    pose proof (l_length _ Hl). destruct Hv as [Hv1 Hv2 Hv3 Hv4].
    assert (workers (set_threads s (<[0%nat := MSpawn k]> (threads s) ++ [WWait])) = S (workers s)) as Ew
      by (unfold workers; simpl; rewrite length_app, length_insert; simpl; lia).
    assert (owner_pc (set_threads s (<[0%nat := MSpawn k]> (threads s) ++ [WWait])) = Some (MSpawn k)) as E0.
    { unfold owner_pc. simpl. apply lookup_app_l_Some, list_lookup_insert_eq. by eapply lookup_lt_Some. }
    split; rewrite ?Ew; simpl; auto; [lia| |].
    + rewrite Hv3. unfold closed, owner_pc. rewrite Ho. unfold owner_pc in E0. by rewrite E0.
    + intros o'. rewrite E0. intros [= <-]. apply (Hv4 (MSpawn (S k))). exact Ho.
  - assert (o = MSpawn (S k)) as -> by congruence. destruct Hok as (_ & _ & _ & _ & _ & _ & Hk). specialize (Hk _ eq_refl).
    eapply (count_leave n s); [exact Hv|by split_and!|done|apply Hv| |simpl; rewrite (h_req _ _ Hv); lia].
    simpl. rewrite (h_alloc _ _ Hv). unfold closed, owner_pc. by rewrite Ho.
  - assert (o = MSpawn 0) as -> by congruence. destruct Hok as (_ & _ & _ & _ & _ & _ & Hk). specialize (Hk _ eq_refl).
    eapply (count_leave n s); [exact Hv|by split_and!|done|apply Hv| |simpl].
    + simpl. rewrite (h_alloc _ _ Hv). unfold closed, owner_pc. by rewrite Ho.
    + change (h_count (hs s)) with (thread_count s). rewrite (h_workers _ _ Hv _ Ho). simpl. lia.
  - eapply count_keep; [exact Hl|split_and!; [exact H|done|by destruct r|done]|by destruct r|by destruct r|done|exact Hv].
  - destruct Hv as [Hv1 Hv2 Hv3 Hv4]. by split.
  - destruct (free_handles_spec _ _ _ H0) as (E1 & E2 & E3).
    eapply (count_leave n s); [exact Hv|split_and!; [exact H|reflexivity|done|done]|done|simpl; rewrite E2; apply Hv|done|simpl; rewrite E1].
    exact (count_workers n s _ Hv H eq_refl).
Qed.

(** The array is freed with the size it was allocated with. *)
Lemma free_handles_fits n s r :
  credit_inv n s -> count_inv n s -> threads s !! 0%nat = Some (MClose r) ->
  free_handles r (hs s) = Some (Handles (h_count (hs s)) None (h_requested (hs s))).
Proof.
  intros Hc Hv Hi. destruct (c_owner _ _ Hc) as (o & Ho & _ & _ & _ & _ & _ & Hw & _).
  assert (o = MClose r) as -> by (unfold owner_pc in Ho; congruence). unfold free_handles.
  rewrite (h_alloc _ _ Hv). unfold closed. rewrite Ho. simpl. rewrite decide_True; [done|].
  pose proof (count_workers n s _ Hv Hi eq_refl) as Ec. unfold thread_count in Ec.
  destruct r; simpl in Hw; [by rewrite (h_req _ _ Hv)|congruence].
Qed.

Lemma count_initial n : count_inv n (initial n).
Proof.
  split; simpl; auto.
  - unfold workers, base. simpl. rewrite length_replicate. lia.
  - intros o [= <-]. done.
Qed.

(** A worker or client step that is not a take or an enqueue. *)
Ltac other_move H :=
  eapply credit_other; [eassumption|split_and!; [exact H|reflexivity|done|done]|done
    |first [by left|right; eauto]|done|done|done|simpl; lia|simpl; intros ? [?|?]; (lia || done)|eassumption].

Lemma credit_step n s e s' ns ts :
  layout s -> queue_inv s ns ts -> (threads s !! 0%nat = Some MDrain -> q_head (pool s) = None) ->
  count_inv n s -> credit_inv n s -> step s e s' -> credit_inv n s'.
Proof.
  intros Hl Hq Hdr Hct Hv Hs. pose proof (fun o => count_workers n s o Hct) as Hcw.
  destruct Hs as [s i p q m Hi Hn Hm|s i p q m Hi Hn Hm|s i k Hi Ha Hp|s i p Hi Ht|s i k p nd Hi Ht Hnd
    |s i k t nd Hi Hnd|s i k p Hi Hf|s i t o Hi Ho Hop|s i o Hi Ho Hop|s i t Hi|s i t Hi|s i k Hi Hsd|s i k p nd Hi Hsd He Hnd
    |s i k p Hi Hf|s i Hi Ha|s k cr Hi Hcr|s k cr Hi Hcr|s Hi|s a Hi Hha|s o Hi Ho Hha|s r Hi|s r k Hi Hk Ha|s r k Hi Hk|s r k Hi Hk Hx|s r k Hi Hk
    |s k p Hi Hh Hd|s Hi Hh|s r h m Hi Hfh Hm|s i p Hi Hn Hm|s i p Hi Hc Hm|s i p Hi Hp Ha|s i p Hi Hp|s r k Hi Hk Hx|s r Hi Hm];
    try exact Hv.
  - eapply credit_next; eauto.
  - eapply credit_next; eauto.
  - other_move Hi.
  - by eapply credit_take_none.
  - by eapply credit_take.
  - other_move Hi.
  - unfold free_node in Hf. destruct (nodes (pool s) !! k); [|done]. injection Hf as <-. other_move Hi.
  - other_move Hi.
  - other_move Hi.
  - other_move Hi.
  - other_move Hi.
  - destruct (q_held _ _ _ Hq _ _ _ Hi eq_refl) as (Hkn & nd0 & Hnd0 & _).
    destruct (enqueue_inv _ _ _ _ _ _ Hq Hkn Hnd0 He) as (_ & _ & Esd & _).
    eapply credit_other; [eassumption|split_and!; [exact Hi|reflexivity|done|done]|done|by left|done|done|done| | |eassumption].
    + simpl. rewrite length_app. simpl. lia.
    + simpl. intros Hz [Hw|[Hw _]]; [lia|congruence].
  - unfold free_node in Hf. destruct (nodes (pool s) !! k); [|done]. injection Hf as <-. other_move Hi.
  - other_move Hi.
  - by apply credit_spawn.
  - owner_move.
  - owner_move.
  - owner_move.
  - eapply credit_owner; [eassumption|by split_and!|done|done|done|done|done| |eassumption].
    apply owner_ok_next; [by split_and!|done|done|].
    intros w (H1 & H2 & H3 & H4 & H5 & H6 & H7) ->. simpl in *. split_and!; auto; try lia; try done; by destruct r.
  - rewrite (Hcw _ Hi eq_refl) in Hk. eapply credit_owner; [eassumption|by split_and!|done|done|done|simpl; lia|done| |eassumption].
    apply owner_ok_next; [by split_and!|done|done|].
    intros w (H1 & H2 & H3 & H4 & H5 & H6 & H7) ->. simpl in *. split_and!; auto; try lia; try done; by destruct r.
  - rewrite (Hcw _ Hi eq_refl) in Hk.
    eapply credit_owner; [eassumption|by split_and!|done|done|done|done|done| |eassumption].
    apply owner_ok_next; [by split_and!|done|done|].
    intros w (H1 & H2 & H3 & H4 & H5 & H6 & H7) ->. simpl in *. split_and!; auto; try lia; try done; by destruct r.
  - rewrite (Hcw _ Hi eq_refl) in Hk.
    eapply credit_owner; [eassumption|by split_and!|done|done|done|done|done| |eassumption].
    apply owner_ok_next; [by split_and!|done|done|].
    intros w (H1 & H2 & H3 & H4 & H5 & H6 & H7) ->. simpl in *. split_and!; auto; try lia; try done; try by destruct r.
    intros j Hj. destruct (decide (j = k)) as [->|]; [by eapply handle_done|]. apply H5. lia.
  - rewrite (Hcw _ Hi eq_refl) in Hk.
    eapply credit_owner; [eassumption|split_and!; [exact Hi|done|by destruct r|done]|done|done|done|done|done| |eassumption].
    apply owner_ok_next; [split_and!; [exact Hi|done|by destruct r|done]|done|done|].
    intros w (H1 & H2 & H3 & H4 & H5 & H6 & H7) ->. simpl in *.
    assert (k = workers s) as -> by lia. destruct r; simpl; split_and!; auto; done.
  - rewrite (Hdr Hi) in Hh. done.
  - owner_move.
  - eapply credit_owner; [eassumption|by split_and!|done|done|done|done|done| |eassumption].
    apply owner_ok_next; [by split_and!|done|done|].
    intros w (H1 & H2 & H3 & H4 & H5 & H6 & H7) ->. simpl in *. split_and!; auto; try lia; try done; by destruct r.
Qed.

(** Once a worker has left, the queue is empty. *)
Lemma exited_empty n s ns ts i p :
  queue_inv s ns ts -> credit_inv n s -> threads s !! i = Some p -> exiting p = 1%nat ->
  ns = [] /\ ts = [] /\ accepted s = started s /\ q_head (pool s) = None.
Proof.
  intros Hq Hv Hi Hp. pose proof (sum_elem exiting _ _ _ Hi) as Hx.
  destruct (c_exit _ _ Hv) as [_ Hlen]; [lia|]. rewrite (q_acc _ _ _ Hq), length_app in Hlen.
  assert (ts = []) as -> by (destruct ts; [done|simpl in *; lia]).
  pose proof (q_len _ _ _ Hq) as El. destruct ns; [|done]. split_and!; auto.
  - by rewrite (q_acc _ _ _ Hq), app_nil_r.
  - apply (q_hd _ _ _ Hq).
Qed.

Lemma drain_empty n s ns ts :
  (0 < n)%nat -> queue_inv s ns ts -> credit_inv n s -> threads s !! 0%nat = Some MDrain ->
  q_head (pool s) = None.
Proof.
  intros Hn Hq Hv Hi. destruct (c_owner _ _ Hv) as (o & Ho & _ & _ & _ & _ & H5 & H6 & _).
  assert (o = MDrain) as -> by (unfold owner_pc in Ho; congruence). simpl in *.
  assert (threads s !! (base + 0)%nat = Some WExit) as Hx by (apply H5; lia).
  by destruct (exited_empty _ _ _ _ _ _ Hq Hv Hx eq_refl) as (_ & _ & _ & ?).
Qed.

Lemma credit_initial n : credit_inv n (initial n).
Proof.
  split; simpl.
  - rewrite sum_zero; [done|]. by intros i x [-> _]%lookup_replicate.
  - rewrite sum_zero; [lia|]. by intros i x [-> _]%lookup_replicate.
  - exists (MSpawn n). split; [done|]. unfold owner_ok, workers, base. simpl. rewrite length_replicate.
    split_and!; try done; try lia; [|intros k [= <-]; lia]. split; [done|]. simpl.
    intros [|i] p; simpl; [by intros [= <-]|]. by intros [-> _]%lookup_replicate.
Qed.

(** ** Tasks that run *)

Definition runs (t : T) (p : pc) : nat :=
  match held_task p with Some u => if decide (u = t) then 1 else 0 | None => 0 end%nat.

Definition occurs (t : T) (l : list T) : nat := sum_list_with (fun u => if decide (u = t) then 1 else 0)%nat l.

(** Every task taken has finished or is in the hands of one worker. *)
Definition run_inv (s : state) : Prop :=
  forall t, occurs t (started s) = (occurs t (finished s) + sum_list_with (runs t) (threads s))%nat.

Record inv (n : nat) (s : state) : Prop := {
  i_layout : layout s;
  i_lock : lock_inv s;
  i_queue : exists ns ts, queue_inv s ns ts;
  i_credit : credit_inv n s;
  i_count : count_inv n s;
  i_run : run_inv s
}.

Lemma occurs_snoc t l u : occurs t (l ++ [u]) = (occurs t l + if decide (u = t) then 1 else 0)%nat.
Proof. unfold occurs. rewrite sum_list_with_app. simpl. lia. Qed.

Lemma run_keep s s' i p q :
  moves s s' i p q -> held_task q = held_task p -> started s' = started s -> finished s' = finished s ->
  run_inv s -> run_inv s'.
Proof.
  intros (Hi & Et & _) Eh Es Ef Hr t. rewrite Es, Ef, Et, (Hr t).
  pose proof (sum_insert (runs t) _ _ _ q Hi) as E. unfold runs at 2 4 in E. rewrite Eh in E. lia.
Qed.

Lemma run_step s e s' ns ts : queue_inv s ns ts -> run_inv s -> step s e s' -> run_inv s'.
Proof.
  intros Hq Hr Hs. destruct Hs; try exact Hr;
    try (match goal with H : threads _ !! _ = Some _ |- _ =>
           eapply run_keep; [split_and!; [exact H|reflexivity|done|done]|done|done|done|exact Hr] end).
  - eapply (run_keep s _ i p q); [|  |done|done|exact Hr].
    { split_and!; [exact H|done|by apply next_kind; left|by eapply next_kind; left]. }
    by destruct p; simplify_eq/=.
  - eapply (run_keep s _ i p q); [|  |done|done|exact Hr].
    { split_and!; [exact H|done|by apply next_kind; right|by eapply next_kind; right]. }
    by destruct p; simplify_eq/=.
  - intros t. simpl. rewrite occurs_snoc, (Hr t).
    pose proof (sum_insert (runs t) _ _ _ (WUnlockRun n (tn_task nd)) H) as E. unfold runs at 2 4 in E. simpl in E. lia.
  - destruct (q_held _ _ _ Hq _ _ _ H eq_refl) as (_ & nd' & Hnd' & _ & Ht). specialize (Ht t eq_refl).
    assert (nd' = nd) as -> by congruence. intros u. simpl. rewrite occurs_snoc, (Hr u), Ht.
    pose proof (sum_insert (runs u) _ _ _ (WFree n) H) as E. unfold runs at 2 4 in E. simpl in E. lia.
  - intros t. simpl. rewrite sum_list_with_app. simpl. rewrite (Hr t).
    pose proof (sum_insert (runs t) _ _ _ (MSpawn k) H) as E. unfold runs at 2 4 in E. simpl in E.
    change (runs t WWait) with 0%nat. lia.
  - eapply run_keep; [split_and!; [exact H|done|by destruct r|done]|by destruct r|done|done|exact Hr].
Qed.

Lemma inv_reachable n s : (0 < n)%nat -> reachable n s -> inv n s.
Proof.
  intros Hn Hr. induction Hr as [|s e s' Hr [Hl Hk (ns & ts & Hq) Hc Hct Hu] Hs].
  - split; eauto using layout_initial, lock_inv_initial, queue_initial, credit_initial, count_initial.
    intros t. simpl. rewrite sum_zero; [done|]. by intros i x [-> _]%lookup_replicate.
  - pose proof (drain_empty _ _ _ _ Hn Hq Hc) as Hd.
    split; eauto using layout_step, lock_inv_step, queue_step, credit_step, count_step, run_step.
Qed.

(** ** Consequences *)

Lemma occurs_perm (l k : list T) : (forall t, occurs t l = occurs t k) -> l ≡ₚ k.
Proof.
  revert k. induction l as [|x l IH]; intros k H.
  - destruct k as [|y k]; [done|]. specialize (H y). simpl in H. rewrite decide_True in H by done. lia.
  - assert (0 < occurs x k)%nat as Hx.
    { rewrite <- (H x). simpl. rewrite decide_True by done. lia. }
    apply sum_pos in Hx as (i & y & Hi & Hy). case_decide; [subst y|lia].
    apply list_elem_of_lookup_2, elem_of_Permutation in Hi as [k' Ek]. rewrite Ek. f_equiv. apply IH.
    intros t. specialize (H t).
    assert (occurs t k = occurs t (x :: k')) as E by (unfold occurs; by rewrite Ek). rewrite E in H. simpl in H. lia.
Qed.

(** A worker's place among the threads. *)
Lemma worker_index s i p :
  layout s -> threads s !! i = Some p -> kind_of p = Worker ->
  exists j, i = (base + j)%nat /\ (j < workers s)%nat.
Proof.
  intros Hl Hi Hp. rewrite (l_kind _ Hl _ _ Hi) in Hp. pose proof (lookup_lt_Some _ _ _ Hi) as Hlt.
  destruct i as [|i]; [done|]. simpl in Hp. case_decide; [done|]. exists (i - clients)%nat.
  unfold workers, base in *. lia.
Qed.

Lemma worker_at s j : layout s -> (j < workers s)%nat ->
  exists p, threads s !! (base + j)%nat = Some p /\ kind_of p = Worker.
Proof.
  intros Hl Hj. destruct (lookup_lt_is_Some_2 (threads s) (base + j)) as [p Hp]; [unfold workers in Hj; lia|].
  exists p. split; [done|]. rewrite (l_kind _ Hl _ _ Hp). unfold base. simpl. by rewrite decide_False by lia.
Qed.

Definition is_worker (p : pc) : nat := match kind_of p with Worker => 1 | _ => 0 end.

Lemma sum_workers s : layout s -> sum_list_with is_worker (threads s) = workers s.
Proof.
  intros [Hk Hl]. unfold workers, base in *.
  assert (forall (l : list pc) b, (forall i p, l !! i = Some p -> is_worker p = if decide (i < b)%nat then 0%nat else 1%nat) ->
    sum_list_with is_worker l = (length l - b)%nat) as H.
  { induction l as [|x l IH]; intros b H; simpl; [lia|]. rewrite (H 0%nat x eq_refl).
    rewrite (IH (b - 1)%nat).
    - destruct b; case_decide; simpl; lia.
    - intros i p Hi. rewrite (H (S i) p Hi). repeat case_decide; lia. }
  apply H. intros i p Hi. unfold is_worker. rewrite (Hk i p Hi). destruct i as [|i]; simpl; repeat case_decide; (done || lia).
Qed.

Definition all_exited (s : state) : Prop :=
  forall i p, threads s !! i = Some p -> kind_of p = Worker -> p = WExit.

Definition releases (o : pc) : bool := match o with MDrain | MClose _ | MDone _ => true | _ => false end.

(** When the owner has joined the workers. *)
Lemma joined_inv n s o :
  (0 < n)%nat -> inv n s -> owner_pc s = Some o -> releases o = true ->
  all_exited s /\ started s = accepted s /\ permits s = 0%nat /\
  (forall i p, threads s !! i = Some p -> p <> SUnlockOk /\ p <> SPost) /\
  (if init_phase o then accepted s = [] else workers s = n).
Proof.
  intros Hn [Hl _ (ns & ts & Hq) Hc _ _] Ho Hr. destruct (c_owner _ _ Hc) as (o' & Ho' & H1 & H2 & _ & _ & H5 & H6 & _).
  assert (o' = o) as -> by congruence.
  assert (joined o (workers s) = workers s /\ posted o (workers s) = workers s) as [Ej Ep] by (by destruct o).
  rewrite Ej in H5. rewrite Ep in H2.
  assert (all_exited s) as Hx.
  { intros i p Hi Hp. destruct (worker_index _ _ _ Hl Hi Hp) as (j & -> & Hj). specialize (H5 j Hj). congruence. }
  assert (started s = accepted s) as Es.
  { destruct (decide (0 < workers s)%nat) as [Hw|Hw].
    - by destruct (exited_empty _ _ _ _ _ _ Hq Hc (H5 0%nat Hw) eq_refl) as (_ & _ & ? & _).
    - destruct (init_phase o); [|lia]. destruct H6 as [E _]. pose proof (q_acc _ _ _ Hq) as Ea. rewrite E in *.
      symmetry in Ea. by apply app_eq_nil in Ea as [-> _]. }
  pose proof (c_sum _ _ Hc) as Hs. rewrite Es in Hs.
  set (pend := fun p : pc => match p with SUnlockOk | SPost => 1 | _ => 0 end%nat).
  assert (sum_list_with (fun p => (is_worker p + pend p)%nat) (threads s) <= sum_list_with credit (threads s))%nat as Hle.
  { apply sum_le. intros i p Hi. destruct (kind_of p) eqn:Hk; [by destruct p..|]. by rewrite (Hx i p Hi Hk). }
  assert (sum_list_with (fun p => (is_worker p + pend p)%nat) (threads s) =
    sum_list_with is_worker (threads s) + sum_list_with pend (threads s))%nat as Hadd.
  { apply sum_add. }
  rewrite sum_workers in Hadd by done.
  split_and!; auto; [lia| |by destruct (init_phase o); [destruct H6|]].
  intros i p Hi. pose proof (sum_elem pend _ _ _ Hi). split; intros ->; simpl in *; lia.
Qed.

(** ** Properties *)

(** C9. Tasks are dispatched in the order they were accepted, each exactly
    once: in every reachable state the tasks taken by workers are a prefix of
    the tasks accepted, every task taken has returned or is in the hands of
    exactly one worker, and a worker leaves only after the shutdown has begun
    and every accepted task has been taken. *)
Theorem pool_dispatches_once n s :
  (0 < n)%nat -> reachable n s ->
  started s `prefix_of` accepted s /\
  (forall t, occurs t (started s) = (occurs t (finished s) + sum_list_with (runs t) (threads s))%nat) /\
  (forall i p, threads s !! i = Some p -> exiting p = 1%nat ->
     shutting_down (pool s) = true /\ started s = accepted s).
Proof.
  intros Hn Hr. destruct (inv_reachable _ _ Hn Hr) as [Hl _ (ns & ts & Hq) Hc _ Hu]. split_and!.
  - rewrite (q_acc _ _ _ Hq). by exists ts.
  - exact Hu.
  - intros i p Hi Hp. destruct (exited_empty _ _ _ _ _ _ Hq Hc Hi Hp) as (_ & _ & ? & _).
    pose proof (sum_elem exiting _ _ _ Hi). destruct (c_exit _ _ Hc) as [? _]; [lia|]. done.
Qed.

(** C5. The shutdown is graceful: when [destroy], or the roll-back of a
    failed [init], has returned, every worker has left, every task that was
    ever accepted has been run to its end, exactly as often as it was accepted,
    no accepted submit is still about to post its permit to the destroyed
    semaphore, the drain loop found nothing, the array of handles has been
    freed, and every task node has been freed once the clients are out of
    [submit]. *)
Theorem pool_graceful_shutdown n s r :
  (0 < n)%nat -> reachable n s -> owner_pc s = Some (MDone r) ->
  all_exited s /\ finished s ≡ₚ accepted s /\ permits s = 0%nat /\
  (forall i p, threads s !! i = Some p -> p <> SUnlockOk /\ p <> SPost) /\
  (if r then accepted s = [] else workers s = n) /\ h_array (hs s) = None /\
  ((forall i p, threads s !! i = Some p -> kind_of p = Client -> p = SIdle) -> nodes (pool s) = ∅).
Proof.
  intros Hn Hr Ho. pose proof (inv_reachable _ _ Hn Hr) as Hv.
  destruct (joined_inv n s _ Hn Hv Ho eq_refl) as (Hx & Es & Hp & Hnp & Hw).
  destruct Hv as [Hl _ (ns & ts & Hq) Hc Hct Hu].
  split; [done|]. split; [|split; [done|]; split; [done|]; split; [by destruct r|]; split].
  - apply occurs_perm. intros t. rewrite <- Es, (Hu t). rewrite (sum_zero (runs t)); [lia|].
    intros i p Hi. unfold runs. destruct p; simpl; try done; by specialize (Hx i _ Hi eq_refl).
  - rewrite (h_alloc _ _ Hct). unfold closed. by rewrite Ho.
  - intros Hidle. apply map_empty. intros k. destruct (nodes (pool s) !! k) as [nd|] eqn:E; [|done]. exfalso.
    destruct (q_leak _ _ _ Hq k) as [Hin|(i & p & Hi & Hk)]; [eauto| |].
    + assert (ts = []) as Ets. { pose proof (q_acc _ _ _ Hq) as Ea. rewrite Es in Ea.
        rewrite <- (app_nil_r (accepted s)) in Ea at 1. by apply app_inv_head in Ea. }
      pose proof (q_len _ _ _ Hq) as El. rewrite Ets in El. destruct ns; [|done]. set_solver.
    + destruct (kind_of p) eqn:Ek; [by destruct p|by rewrite (Hidle i p Hi Ek) in Hk|by rewrite (Hx i p Hi Ek) in Hk].
Qed.

(** A client inside [submit]. *)
Definition submitting (p : pc) : Prop := kind_of p = Client /\ p <> SIdle.

(** [destroy] is releasing the pool, or has returned. *)
Definition released (s : state) : Prop := owner_pc s = Some (MClose false) \/ owner_pc s = Some (MDone false).

(** A client in the middle of a submit finds the pool released only by [destroy]. *)
Lemma released_by_destroy n s o r i p :
  inv n s -> owner_pc s = Some o -> o = MClose r \/ o = MDone r ->
  threads s !! i = Some p -> submitting p -> released s.
Proof.
  intros Hv Ho Hor Hi [Hk Hp]. destruct r; [exfalso|destruct Hor as [->| ->]; unfold released; eauto].
  destruct (c_owner _ _ (i_credit _ _ Hv)) as (o' & Ho' & _ & _ & _ & _ & _ & H6 & _).
  assert (o' = o) as -> by congruence.
  assert (init_phase o = true) as Ei by (by destruct Hor as [->| ->]). rewrite Ei in H6.
  apply Hp. by eapply H6.
Qed.

(** The task nodes are never misused. *)
Lemma no_undefined_node s ns ts i p :
  queue_inv s ns ts -> (threads s !! 0%nat = Some MDrain -> q_head (pool s) = None) -> layout s ->
  threads s !! i = Some p ->
  ~ match p with
    | WTake => take_task (pool s) = None
    | WRun n _ => nodes (pool s) !! n = None
    | WFree n | SFreeRej n => free_node (pool s) n = None
    | SCheck n => nodes (pool s) !! n = None \/ (shutting_down (pool s) = false /\ enqueue_task (pool s) n = None)
    | MDrain => exists n, q_head (pool s) = Some n /\ drain_node (pool s) n = None
    | _ => False
    end.
Proof.
  intros Hq Hd Hl Hi. pose proof (fun n => q_held _ _ _ Hq i p n Hi) as Hh.
  destruct p; try tauto; simpl in Hh.
  - unfold take_task. rewrite (q_hd _ _ _ Hq). destruct ns as [|k ns]; [done|]. simpl.
    destruct (q_nodes _ _ _ Hq 0%nat k eq_refl) as (t & _ & ->). done.
  - destruct (Hh _ eq_refl) as (_ & nd & -> & _). done.
  - unfold free_node. destruct (Hh _ eq_refl) as (_ & nd & -> & _). done.
  - destruct (Hh _ eq_refl) as (_ & nd & -> & _). unfold enqueue_task. rewrite (q_tl _ _ _ Hq).
    intros [?|[_ He]]; [done|]. destruct (last ns) as [k|] eqn:El; [|done].
    apply last_Some in El as [ns0 ->].
    destruct (q_nodes _ _ _ Hq (length ns0) k (list_lookup_middle ns0 [] k _ eq_refl)) as (t & _ & E).
    by rewrite E in He.
  - unfold free_node. destruct (Hh _ eq_refl) as (_ & nd & -> & _). done.
  - intros (k & Hk & _). assert (i = 0%nat) as -> by (by eapply owner_is_0). by rewrite (Hd Hi) in Hk.
Qed.

(** Nothing is misused while the pool is alive: whatever the
    interleaving, no thread accesses a freed task node, misuses the lock or
    posts to a destroyed semaphore, except a client that is still inside
    [submit] when [destroy] releases the lock; the workers have all left by
    then, so that it is never a submit made by a task. *)
Theorem pool_misuse_needs_overlap n s s' :
  (0 < n)%nat -> reachable n s -> step s EUndefined s' ->
  released s /\ all_exited s /\ exists i p, threads s !! i = Some p /\ submitting p.
Proof.
  intros Hn Hr Hs. cut (released s /\ exists i p, threads s !! i = Some p /\ submitting p).
  { intros [Hrel ?]. split; [done|]. split; [|done].
    by destruct Hrel as [Ho|Ho]; destruct (joined_inv n s _ Hn (inv_reachable _ _ Hn Hr) Ho eq_refl). }
  pose proof (inv_reachable _ _ Hn Hr) as Hv. pose proof Hv as [Hl Hk (ns & ts & Hq) Hc Hct _].
  destruct (c_owner _ _ Hc) as (o & Ho & _). unfold lock_inv in Hk.
  assert (closed s = true -> exists r, o = MDone r) as Hcl.
  { unfold closed. rewrite Ho. destruct o; eauto; done. }
  inversion Hs as [| | | | | | | | | | | | | | | | | | | | | | | | | | | |s0 i p Hi Hnx Hm|s0 i p Hi Hcr Hm
    |s0 i p Hi Hp Ha|s0 i p Hi Hp|s0 r k Hi Hlt Hj|s0 r Hi Hm]; subst.
  - destruct (closed s'); [|exfalso; destruct Hk as [Hk _]; destruct Hnx as [q Hnx];
      apply lock_next_critical in Hnx as (Hcp & _); by eapply exclusive_lock_defined].
    destruct (Hcl eq_refl) as [r ->]. destruct (joined_inv n s' _ Hn Hv Ho eq_refl) as (Hx & _).
    assert (submitting p) as Hsub.
    { destruct (kind_of p) eqn:Ek.
      - assert (i = 0%nat) as -> by (by eapply owner_is_0). unfold owner_pc in Ho. rewrite Ho in Hi.
        injection Hi as <-. by destruct Hnx.
      - split; [done|]. intros ->. by destruct Hnx.
      - rewrite (Hx i p Hi Ek) in Hnx. by destruct Hnx. }
    split; [|eauto]. by eapply released_by_destroy; eauto.
  - exfalso. destruct (closed s').
    + destruct Hk as (_ & _ & Hnc). by rewrite (Hnc i p Hi) in Hcr.
    + destruct Hk as [Hk _]. pose proof (exclusive_owner _ _ _ _ _ Hk Hi Hcr) as Hu. simpl in Hm. congruence.
  - exfalso. destruct (closed s'); [|destruct Hk; congruence]. destruct (Hcl eq_refl) as [r ->].
    destruct (joined_inv n s' _ Hn Hv Ho eq_refl) as (Hx & _ & _ & Hnp & _).
    destruct Hp as [->|[->|(r' & k & -> & _)]].
    + by specialize (Hx i _ Hi eq_refl).
    + by destruct (Hnp i _ Hi).
    + assert (i = 0%nat) as -> by (by eapply owner_is_0). unfold owner_pc in Ho. congruence.
  - exfalso. eapply no_undefined_node; eauto. by eapply drain_empty.
  - exfalso. rewrite (count_workers n s' _ Hct Hi eq_refl) in Hlt.
    destruct (worker_at s' k Hl Hlt) as (p & Hp & _). rewrite (handle_worker n s' k Hct), Hp in Hj; [|unfold closed, owner_pc; by rewrite Hi|done].
    unfold pool_join in Hj. by destruct os, p.
  - assert (o = MClose r) as -> by (unfold owner_pc in Ho; congruence).
    assert (closed s' = false) as E by (unfold closed; by rewrite Ho). rewrite E in Hk. destruct Hk as [(w & Ew & Hw & Hlive) _].
    destruct Hm as [Hm|Hm]; [by rewrite (free_handles_fits n s' r Hc Hct Hi) in Hm|].
    simpl in Hm. rewrite Ew in Hm. destruct w as [i|]; [|done]. destruct (Hlive i eq_refl) as [p Hp].
    destruct (joined_inv n s' _ Hn Hv Ho eq_refl) as (Hx & _). pose proof (proj2 (Hw i p Hp) eq_refl) as Hcr.
    assert (submitting p) as Hsub.
    { destruct (kind_of p) eqn:Ek.
      - assert (i = 0%nat) as -> by (by eapply owner_is_0). assert (p = MClose r) as -> by congruence. done.
      - split; [done|]. by intros ->.
      - by rewrite (Hx i p Hp Ek) in Hcr. }
    split; [|eauto]. by eapply released_by_destroy; eauto.
Qed.

(** ** Termination *)

(** How far a thread is from the end of what it is doing, with [w] workers;
    a permit is worth a round of a worker. *)
Definition rank (w : nat) (p : pc) : nat :=
  match p with
  | WWait | WExit | SIdle | MReady | MDone _ => 0
  | WLock => 8 | WTake => 7 | WUnlockExit | WUnlockRun _ _ => 6 | WRun _ _ => 5 | WFree _ => 4
  | SAlloc _ => 20 | SLock _ => 19 | SCheck _ => 18 | SUnlockRej _ | SUnlockOk => 17 | SFreeRej _ | SPost => 16
  | MSpawn k => 8 + 12 * (w + k) + k
  | MLock _ => 7 + 12 * w
  | MSet _ => 6 + 12 * w
  | MUnlock _ => 5 + 12 * w
  | MPost _ k => 4 + w + 11 * (w - k)
  | MJoin _ k => 3 + (w - k)
  | MDrain => 2
  | MClose _ => 1
  end.

Definition measure (s : state) : nat :=
  10 * permits s + sum_list_with (rank (workers s)) (threads s).

Lemma measure_moves s s' i p q :
  moves s s' i p q -> (10 * permits s' + rank (workers s) q < 10 * permits s + rank (workers s) p)%nat ->
  (measure s' < measure s)%nat.
Proof.
  intros (Hi & Et & _) Hlt. unfold measure. rewrite (workers_goes s s' i q Et), Et.
  pose proof (sum_insert (rank (workers s)) _ _ _ q Hi). lia.
Qed.

Lemma next_rank w p q : lock_next p = Some q \/ unlock_next p = Some q -> (rank w q < rank w p)%nat.
Proof. destruct p; simpl; intros [[=]|[=]]; subst; simpl; lia. Qed.

(** A step of the spawn loop adds a worker that is waiting. *)
Lemma measure_spawn s k :
  layout s -> threads s !! 0%nat = Some (MSpawn (S k)) ->
  (measure (set_threads s (<[0%nat := MSpawn k]> (threads s) ++ [WWait])) < measure s)%nat.
Proof.
  intros Hl Hi. pose proof (l_length _ Hl). unfold measure, workers. simpl.
  rewrite length_app, length_insert, sum_list_with_app. simpl.
  set (w := (length (threads s) - base)%nat).
  replace (length (threads s) + 1 - base)%nat with (S w) by lia.
  destruct (threads s) as [|o l] eqn:El; [done|]. injection Hi as ->. simpl.
  assert (sum_list_with (rank (S w)) l = sum_list_with (rank w) l) as ->; [|lia].
  assert (forall i p, l !! i = Some p -> rank (S w) p = rank w p) as H'.
  { intros i p Hp. assert (threads s !! S i = Some p) as Hp' by (by rewrite El).
    pose proof (l_kind _ Hl _ _ Hp') as Hk. simpl in Hk. by destruct p; try done; case_decide. }
  by apply sum_ext.
Qed.

Lemma measure_step n s e s' :
  (0 < n)%nat -> inv n s -> step s e s' -> e <> ECall -> e <> EUndefined -> (measure s' < measure s)%nat.
Proof.
  intros Hn [Hl _ (ns & ts & Hq) Hc Hct _] Hs H1 H2. pose proof (drain_empty _ _ _ _ Hn Hq Hc) as Hd.
  pose proof (fun o => count_workers n s o Hct) as Hcw. clear Hq Hc Hct.
  destruct Hs as [s i p q m Hi Hx Hm|s i p q m Hi Hx Hm|s i k Hi Ha Hp|s i p Hi Ht|s i k p nd Hi Ht Hnd
    |s i k t nd Hi Hnd|s i k p Hi Hf|s i t o Hi Ho Hop|s i o Hi Ho Hop|s i t Hi|s i t Hi|s i k Hi Hsd|s i k p nd Hi Hsd He Hnd
    |s i k p Hi Hf|s i Hi Ha|s k cr Hi Hcr|s k cr Hi Hcr|s Hi|s a Hi Hha|s o Hi Ho Hha|s r Hi|s r k Hi Hk Ha|s r k Hi Hk|s r k Hi Hk Hx|s r k Hi Hk
    |s k p Hi Hh Hdr|s Hi Hh|s r h m Hi Hfh Hm|s i p Hi Hx Hm|s i p Hi Hx Hm|s i p Hi Hp Ha|s i p Hi Hp|s r k Hi Hk Hx|s r Hi Hm];
    try (by destruct H1); try (by destruct H2); try (rewrite (Hcw _ Hi eq_refl) in Hk).
  all: try (eapply measure_moves; [split_and!; [exact Hi|reflexivity|done|done]|simpl; lia]).
  - eapply measure_moves; [split_and!; [exact Hi|reflexivity|by apply next_kind; left|by eapply next_kind; left]|].
    simpl. pose proof (next_rank (workers s) p q (or_introl Hx)). lia.
  - eapply measure_moves; [split_and!; [exact Hi|reflexivity|by apply next_kind; right|by eapply next_kind; right]|].
    simpl. pose proof (next_rank (workers s) p q (or_intror Hx)). lia.
  - by apply measure_spawn.
  - eapply measure_moves; [split_and!; [exact Hi|reflexivity|by destruct r|done]|]. destruct r; simpl; lia.
  - rewrite (Hd Hi) in Hh. done.
Qed.

(** Nothing can happen until a client or the owner makes a new call. *)
Definition quiescent (s : state) : Prop := forall e s', step s e s' -> e = ECall.

Lemma quiescent_no_critical n s i p :
  inv n s -> (0 < n)%nat -> quiescent s -> threads s !! i = Some p -> critical p = false.
Proof.
  intros [Hl Hk (ns & ts & Hq) Hc _ _] Hn Hqs Hi. destruct (critical p) eqn:Hcr; [exfalso|done].
  unfold lock_inv in Hk. destruct (closed s); [destruct Hk as (_ & _ & Hx); specialize (Hx _ _ Hi); congruence|].
  destruct Hk as [Hk _]. pose proof (exclusive_owner _ _ _ _ _ Hk Hi Hcr) as Hu.
  pose proof (fun n => q_held _ _ _ Hq i p n Hi) as Hh.
  destruct (unlock_next p) as [q|] eqn:En; [by specialize (Hqs _ _ (step_unlock _ _ _ _ _ Hi En Hu))|].
  assert (kind_of p = Owner -> i = 0%nat) as H0 by (intros; by eapply owner_is_0).
  destruct p; try done; simpl in Hh.
  - destruct (take_task (pool s)) as [[[k|] p']|] eqn:Et.
    + pose proof (take_inv _ _ _ _ _ Hq Et) as [(? & _)|(? & ? & ? & ? & [= <-] & _ & _ & -> & Hnd)]; [done|].
      by specialize (Hqs _ _ (step_take _ _ _ _ _ Hi Et Hnd)).
    + by specialize (Hqs _ _ (step_take_none _ _ _ Hi Et)).
    + by specialize (Hqs _ _ (step_undefined_node _ _ _ Hi Et)).
  - destruct (shutting_down (pool s)) eqn:Esd; [by specialize (Hqs _ _ (step_submit_reject _ _ _ Hi Esd))|].
    destruct (Hh _ eq_refl) as (Hnn & nd & Hnd & _).
    destruct (enqueue_task (pool s) n0) as [p'|] eqn:Ee.
    + destruct (enqueue_inv _ _ _ _ _ _ Hq Hnn Hnd Ee) as (_ & _ & _ & Esame & _). rewrite <- Esame in Hnd by done.
      by specialize (Hqs _ _ (step_submit_enqueue _ _ _ _ _ Hi Esd Ee Hnd)).
    + by specialize (Hqs _ _ (step_undefined_node _ _ _ Hi (or_intror (conj Esd Ee)))).
  - rewrite (H0 eq_refl) in Hi. by specialize (Hqs _ _ (step_set _ _ Hi)).
Qed.

Lemma quiescent_pcs n s i p :
  inv n s -> (0 < n)%nat -> quiescent s -> threads s !! i = Some p ->
  match p with
  | WWait | WExit | SIdle | MReady | MDone _ => True
  | MJoin _ k => (k < workers s)%nat /\ threads s !! (base + k)%nat <> Some WExit
  | _ => False
  end.
Proof.
  intros Hv Hn Hqs Hi. pose proof (quiescent_no_critical _ _ _ _ Hv Hn Hqs Hi) as Hnc.
  pose proof (fun j q => quiescent_no_critical _ _ j q Hv Hn Hqs) as Hnall.
  destruct Hv as [Hl Hk (ns & ts & Hq) Hc Hct _].
  assert (kind_of p = Owner -> i = 0%nat) as H0 by (intros; by eapply owner_is_0).
  assert (lock s = Uninit \/ lock s = Mtx None) as Hlock.
  { unfold lock_inv in Hk. destruct (closed s); [left; tauto|right]. destruct Hk as [(o & E & Ho & Hlive) _].
    destruct o as [j|]; [|done]. destruct (Hlive j eq_refl) as [q Hj]. specialize (Ho j q Hj).
    rewrite (Hnall j q Hj) in Ho. discriminate (proj2 Ho eq_refl). }
  destruct (lock_next p) as [q|] eqn:En.
  { exfalso. destruct Hlock as [E|E].
    - assert (d4np_mutex_lock i (Some (lock s)) = Undefined) as Hu by (by rewrite E).
      by specialize (Hqs _ _ (step_undefined_lock _ _ _ Hi (mk_is_Some _ _ En) Hu)).
    - assert (d4np_mutex_lock i (Some (lock s)) = Done (Mtx (Some i))) as Hd by (by rewrite E).
      by specialize (Hqs _ _ (step_lock _ _ _ _ _ Hi En Hd)). }
  pose proof (fun n => q_held _ _ _ Hq i p n Hi) as Hh.
  destruct p; try done; simpl in Hh;
    try (rewrite (H0 eq_refl) in Hi).
  - destruct (Hh _ eq_refl) as (_ & nd & Hnd & _). by specialize (Hqs _ _ (step_run _ _ _ _ _ Hi Hnd)).
  - destruct (Hh _ eq_refl) as (_ & nd & Hnd & _).
    destruct (free_node (pool s) n0) as [p'|] eqn:Ef; [|unfold free_node in Ef; by rewrite Hnd in Ef].
    by specialize (Hqs _ _ (step_free _ _ _ _ Hi Ef)).
  - by specialize (Hqs _ _ (step_submit_oom _ _ _ Hi)).
  - destruct (Hh _ eq_refl) as (_ & nd & Hnd & _).
    destruct (free_node (pool s) n0) as [p'|] eqn:Ef; [|unfold free_node in Ef; by rewrite Hnd in Ef].
    by specialize (Hqs _ _ (step_submit_rejected _ _ _ _ Hi Ef)).
  - destruct (sem_alive s) eqn:Ea; [by specialize (Hqs _ _ (step_submit_post _ _ Hi Ea))|].
    by specialize (Hqs _ _ (step_undefined_sem _ _ _ Hi (or_intror (or_introl eq_refl)) Ea)).
  - destruct i0; [by specialize (Hqs _ _ (step_spawned _ Hi))|by specialize (Hqs _ _ (step_spawn_fails _ _ (if os then 1 else 0)%Z Hi ltac:(unfold pool_spawn; by destruct os)))].
  - destruct (decide (k < thread_count s)%nat) as [Hk'|Hk']; [|by specialize (Hqs _ _ (step_woken _ _ _ Hi Hk'))].
    destruct (sem_alive s) eqn:Ea; [by specialize (Hqs _ _ (step_wake _ _ _ Hi Hk' Ea))|].
    assert (exists r' k', MPost r k = MPost r' k' /\ (k' < thread_count s)%nat) as Hm by eauto.
    by specialize (Hqs _ _ (step_undefined_sem _ _ _ Hi (or_intror (or_intror Hm)) Ea)).
  - destruct (decide (k < thread_count s)%nat) as [Hk'|Hk']; [|by specialize (Hqs _ _ (step_joined _ _ _ Hi Hk'))].
    pose proof Hk' as Hk2. rewrite (count_workers n s _ Hct Hi eq_refl) in Hk2. split; [done|]. intros Hx.
    rewrite <- (handle_worker n s k Hct) in Hx by (done || unfold closed, owner_pc; by rewrite Hi).
    by specialize (Hqs _ _ (step_join _ _ _ Hi Hk' (proj2 (pool_join_done _) Hx))).
  - pose proof (drain_empty _ _ _ _ Hn Hq Hc Hi) as Hh0. by specialize (Hqs _ _ (step_drained _ Hi Hh0)).
  - destruct Hlock as [E|E].
    + assert (d4np_mutex_destroy (Some (lock s)) = Undefined) as Hu by (by rewrite E).
      by specialize (Hqs _ _ (step_undefined_close _ _ Hi (or_intror Hu))).
    + assert (d4np_mutex_destroy (Some (lock s)) = Done (Some Uninit)) as Hu by (by rewrite E).
      by specialize (Hqs _ _ (step_close _ _ _ _ Hi (free_handles_fits n s r Hc Hct Hi) Hu)).
Qed.

(** A step inside the operations that have been called. *)
Definition inner (s' s : state) : Prop := exists e, step s e s' /\ e <> ECall /\ e <> EUndefined.

Lemma inner_acc n s : (0 < n)%nat -> reachable n s -> Acc inner s.
Proof.
  intros Hn. remember (measure s) as k eqn:Ek. revert s Ek.
  induction k as [k IH] using lt_wf_ind. intros s -> Hr. constructor. intros s' (e & Hs & H1 & H2).
  eapply IH; [|reflexivity|by eapply reachable_step].
  by eapply measure_step; [exact Hn|apply inv_reachable|..].
Qed.

(** Every worker waits or has left, and none has left before the shutdown. *)
Lemma quiescent_credit n s :
  inv n s -> (0 < n)%nat -> quiescent s ->
  sum_list_with credit (threads s) = sum_list_with exiting (threads s) /\
  (permits s = 0%nat \/ forall i p, threads s !! i = Some p -> p <> WWait).
Proof.
  intros Hv Hn Hqs. pose proof (fun i p => quiescent_pcs n s i p Hv Hn Hqs) as Hpc. split.
  - apply sum_ext. intros i p Hi. specialize (Hpc i p Hi). by destruct p.
  - destruct (permits s) as [|k] eqn:Ep; [by left|right]. intros i p Hi ->.
    destruct (sem_alive s) eqn:Ea; [by specialize (Hqs _ _ (step_wait _ _ _ Hi Ea Ep))|].
    by specialize (Hqs _ _ (step_undefined_sem _ _ _ Hi (or_introl eq_refl) Ea)).
Qed.

(** The owner is not waiting for a worker that will not leave. *)
Lemma quiescent_owner n s o :
  inv n s -> (0 < n)%nat -> quiescent s -> owner_pc s = Some o -> o = MReady \/ exists r, o = MDone r.
Proof.
  intros Hv Hn Hqs Ho. pose proof (quiescent_pcs n s 0 o Hv Hn Hqs Ho) as Hp.
  destruct (quiescent_credit n s Hv Hn Hqs) as [Hcr Hw].
  pose proof (fun i p => quiescent_pcs n s i p Hv Hn Hqs) as Hpc.
  destruct Hv as [Hl _ (ns & ts & Hq) Hc _ _]. pose proof (l_kind _ Hl 0 o Ho) as Hk.
  destruct o; try done; eauto. exfalso. destruct Hp as [Hlt Hne].
  destruct (worker_at s k Hl Hlt) as (p & Hpk & Hkp).
  assert (p = WWait) as -> by (specialize (Hpc _ _ Hpk); destruct p; try done; by destruct Hne).
  destruct Hw as [Hw|Hw]; [|by specialize (Hw _ _ Hpk)].
  destruct (c_owner _ _ Hc) as (o' & Ho' & _ & H2 & _). assert (o' = MJoin r k) as -> by congruence. simpl in H2.
  pose proof (c_sum _ _ Hc) as Hs. rewrite (q_acc _ _ _ Hq), length_app in Hs.
  assert (sum_list_with exiting (threads s) < workers s)%nat; [|lia].
  rewrite <- (sum_workers s Hl). pose proof (sum_insert exiting _ _ _ WExit Hpk) as E.
  pose proof (sum_insert is_worker _ _ _ WExit Hpk) as E'.
  change (exiting WExit) with 1%nat in E. change (exiting WWait) with 0%nat in E.
  change (is_worker WExit) with 1%nat in E'. change (is_worker WWait) with 1%nat in E'.
  assert (sum_list_with exiting (<[(base + k)%nat := WExit]> (threads s)) <=
    sum_list_with is_worker (<[(base + k)%nat := WExit]> (threads s)))%nat; [|lia].
  apply sum_le. intros i x _. unfold is_worker. destruct x; simpl; lia.
Qed.

(** Every operation of the pool ends: from any reachable state there is
    no infinite run in which the clients and the owner make no new call (the
    tasks themselves are assumed to return), so neither a submit, nor the
    roll-back of [init], nor [destroy] goes on for ever. *)
Theorem pool_terminates n s : (0 < n)%nat -> reachable n s -> Acc inner s.
Proof. apply inner_acc. Qed.

(** Nothing is forgotten and nobody is stuck: in a reachable state in
    which nothing can happen without a new call, every client is out of
    [submit], every accepted task has been run to its end, and the owner is
    not inside [init] or [destroy]; if the pool is not shut down its workers
    are all waiting for the next task. *)
Theorem pool_quiescent_done n s :
  (0 < n)%nat -> reachable n s -> quiescent s ->
  finished s ≡ₚ accepted s /\ permits s = 0%nat /\
  (forall i p, threads s !! i = Some p -> kind_of p = Client -> p = SIdle) /\
  ((owner_pc s = Some MReady /\ forall i p, threads s !! i = Some p -> kind_of p = Worker -> p = WWait) \/
   (exists r, owner_pc s = Some (MDone r) /\ all_exited s)).
Proof.
  intros Hn Hr Hqs. pose proof (inv_reachable _ _ Hn Hr) as Hv.
  pose proof (fun i p => quiescent_pcs n s i p Hv Hn Hqs) as Hpc.
  destruct (quiescent_credit n s Hv Hn Hqs) as [Hcr Hw].
  destruct (c_owner _ _ (i_credit _ _ Hv)) as (o & Ho & Hsd & Hwk & _ & _ & _ & Hph & _).
  assert (forall l, started s = l -> finished s ≡ₚ l) as Hperm.
  { intros l <-. apply occurs_perm. intros t. rewrite (i_run _ _ Hv t). rewrite (sum_zero (runs t)); [lia|].
    intros i p Hi. specialize (Hpc i p Hi). by destruct p. }
  assert (forall i p, threads s !! i = Some p -> kind_of p = Client -> p = SIdle) as Hidle.
  { intros i p Hi Hk. specialize (Hpc i p Hi). by destruct p. }
  destruct (quiescent_owner n s o Hv Hn Hqs Ho) as [->|[r ->]].
  - simpl in *. pose proof Hv as [Hl _ (ns & ts & Hq) Hc _ _].
    assert (sum_list_with exiting (threads s) = 0)%nat as Hex.
    { destruct (decide (0 < sum_list_with exiting (threads s))%nat) as [Hz|]; [|lia].
      apply (c_exit _ _ Hc) in Hz as [? _]. congruence. }
    assert (forall i p, threads s !! i = Some p -> kind_of p = Worker -> p = WWait) as Hwait.
    { intros i p Hi Hk. specialize (Hpc i p Hi). destruct p; try done.
      pose proof (sum_elem exiting _ _ _ Hi). simpl in *. lia. }
    destruct (worker_at s 0 Hl) as (p & Hp & Hkp); [lia|]. pose proof (Hwait _ _ Hp Hkp) as ->.
    destruct Hw as [Hw|Hw]; [|by specialize (Hw _ _ Hp)].
    pose proof (c_sum _ _ Hc) as Hs. pose proof (q_acc _ _ _ Hq) as Ea.
    assert (started s = accepted s) as Es.
    { rewrite Ea, length_app in Hs. destruct ts; [by rewrite app_nil_r in Ea|simpl in Hs; lia]. }
    split; [by apply Hperm|]. split; [done|]. split; [done|]. by left.
  - destruct (joined_inv n s _ Hn Hv Ho eq_refl) as (Hx & Es & Hp & _).
    split; [by apply Hperm|]. split; [done|]. split; [done|]. right. eauto.
Qed.

(** ** The calls of the semaphore *)

Inductive call := CWait | CPost.

(** What a thread is about to call, with [w] threads counted. *)
Definition calls (w : nat) (x : pc) : option call :=
  match x with
  | WWait => Some CWait
  | SPost => Some CPost
  | MPost _ k => if decide (k < w)%nat then Some CPost else None
  | _ => None
  end.

Lemma workers_bound n s :
  (0 < n)%nat -> reachable n s -> (workers s <= n)%nat.
Proof. intros Hn Hr. apply (h_room _ _ (i_count _ _ (inv_reachable _ _ Hn Hr))). Qed.

(** The threads counted are the workers for whoever looks at the count. *)
Lemma calls_count n s i x :
  (0 < n)%nat -> reachable n s -> threads s !! i = Some x -> calls (thread_count s) x = calls (workers s) x.
Proof.
  intros Hn Hr Hi. pose proof (inv_reachable _ _ Hn Hr) as Hv. destruct x; try done.
  assert (i = 0%nat) as -> by (by eapply owner_is_0; [apply Hv|..]).
  by rewrite (count_workers n s _ (i_count _ _ Hv) Hi eq_refl).
Qed.

Lemma accepted_grows s e s' :
  step s e s' ->
  (length (accepted s) <= length (accepted s'))%nat.
Proof. intros Hs. destruct Hs; simpl; try done. rewrite length_app. lia. Qed.

(** The permits are for accepted tasks and for the wake-ups of the owner, and
    one more is always about to come from whoever is about to post. *)
Lemma permits_room n s i x :
  (0 < n)%nat -> reachable n s -> threads s !! i = Some x ->
  calls (thread_count s) x = Some CPost ->
  (permits s < length (accepted s) + n)%nat.
Proof.
  intros Hn Hr Hi Hx. rewrite (calls_count n s i x Hn Hr Hi) in Hx. pose proof (workers_bound _ _ Hn Hr). pose proof (inv_reachable _ _ Hn Hr) as Hv.
  pose proof (c_sum _ _ (i_credit _ _ Hv)) as Hs.
  destruct (c_owner _ _ (i_credit _ _ Hv)) as (o & Ho & _ & Hw & Hle & _).
  destruct x; simpl in Hx; try done.
  - pose proof (sum_elem credit _ _ _ Hi). simpl in *. lia.
  - case_decide; [|done]. assert (i = 0%nat) as -> by (by eapply owner_is_0; [apply Hv|..]).
    assert (o = MPost r k) as -> by (unfold owner_pc in Ho; congruence). simpl in *. lia.
Qed.

(** A thread at a call of the semaphore does not exist once it is destroyed. *)
Lemma alive_call n s i x y :
  (0 < n)%nat -> reachable n s -> threads s !! i = Some x ->
  calls (thread_count s) x = Some y -> sem_alive s = true.
Proof.
  intros Hn Hr Hi Hy. pose proof (inv_reachable _ _ Hn Hr) as Hv.
  pose proof (i_lock _ _ Hv) as Hk. unfold lock_inv in Hk.
  destruct (closed s) eqn:Hc; [exfalso|tauto]. unfold closed in Hc.
  destruct (owner_pc s) as [o|] eqn:Ho; [|done].
  assert (releases o = true) as Hrel by (by destruct o).
  destruct (joined_inv n s o Hn Hv Ho Hrel) as (Hx & _ & _ & Hnp & _).
  destruct x; try done.
  - by specialize (Hx i _ Hi eq_refl).
  - by destruct (Hnp i _ Hi).
  - assert (i = 0%nat) as -> by (by eapply owner_is_0; [apply Hv|..]).
    unfold owner_pc in Ho. assert (o = MPost r k) as -> by congruence. done.
Qed.

(** It is still there when the owner releases the pool. *)
Lemma open_alive n s o :
  (0 < n)%nat -> reachable n s -> owner_pc s = Some o -> is_done o = false -> sem_alive s = true.
Proof.
  intros Hn Hr Ho Hd. pose proof (i_lock _ _ (inv_reachable _ _ Hn Hr)) as Hk.
  unfold lock_inv, closed in Hk. rewrite Ho, Hd in Hk. tauto.
Qed.

(** The steps of the pool that are calls of the semaphore. *)
Lemma step_kinds s e s' :
  step s e s' ->
  (permits s' = permits s /\ sem_alive s' = sem_alive s /\
   forall i, threads s !! i = Some WWait -> threads s' !! i = Some WWait) \/
  (exists i, threads s !! i = Some WWait /\ permits s <> 0%nat) \/
  (exists i x, threads s !! i = Some x /\ calls (thread_count s) x = Some CPost) \/
  (exists r h m, threads s !! 0%nat = Some (MClose r) /\ free_handles r (hs s) = Some h /\
     d4np_mutex_destroy (Some (lock s)) = Done (Some m)).
Proof.
  intros Hs. destruct Hs;
    try (left; split_and!; [done|done|]; intros j Hj; simpl;
         try (rewrite list_lookup_insert_ne; [done|intros E; subst; simplify_eq/=]); done).
  - right. left. exists i. split; [done|lia].
  - right. right. left. by exists i, SPost.
  - left. split_and!; [done|done|]. intros j Hj. simpl. apply lookup_app_l_Some.
    rewrite list_lookup_insert_ne; [done|]. intros <-. congruence.
  - right. right. left. exists 0%nat, (MPost r k). split; [done|]. simpl. by rewrite decide_True.
  - right. right. right. eauto 6.
Qed.

End pool.

(** ** Witnesses *)

Section witnesses.

Definition no_resources : pool_resources := Resources None Null 0 Uninit (Semaphore.Sem Uninit Semaphore.CUninit 0).

(** The condition variable cannot be initialised. *)
Lemma pool_prepare_all_or_nothing_witness :
  exists p m', @pool_prepare libc_plenty (Some no_resources) None 2 0 0 12 (Mem ∅ 0) =
      Some ((D4NP_ERR_INTERNAL, Some p), m') /\ m' = Mem ∅ 0 /\
    rs_lock p = Uninit /\ Semaphore.s_mutex (rs_items p) = Uninit.
Proof.
  destruct (@pool_prepare_all_or_nothing libc_plenty (Mem ∅ 0) no_resources None 2 0 0 12) as ([st o] & m' & E & H);
    [done|size_lia|].
  assert (st = D4NP_ERR_INTERNAL) as -> by (apply (f_equal (fmap (fun r => r.1.1))) in E; revert E; vm_compute; by intros [= <-]).
  destruct o as [p|]; [|exfalso; exact H]. exists p, m'. split; [exact E|]. destruct H as (_ & -> & [[H _]|(_ & Hl & H)]); [done|].
  split_and!; [done|exact Hl|]. destruct H as [[H _]|(_ & _ & H & _)]; [done|exact H].
Defined.

#[local] Tactic Notation "step_in" hyp(R) uconstr(c) :=
  eapply (reachable_step (T := nat) 1 Posix 1) in R; [|eapply c; (reflexivity || (unfold thread_count; simpl; lia) || done)];
  cbn [initial set_threads goes with_lock with_pool with_permits pool lock permits sem_alive threads fresh
       accepted started finished woken hs with_handles h_count h_array h_requested
       q_head q_tail shutting_down nodes new_node begin_shutdown insert list_insert app replicate] in R.

(** The owner destroys a pool whose one worker waits. *)
#[local] Tactic Notation "shut_down" hyp(R) :=
  step_in R (step_destroy 1 Posix);
  step_in R (step_lock 1 Posix _ 0 (MLock false));
  step_in R (step_set 1 Posix _ false);
  step_in R (step_unlock 1 Posix _ 0 (MUnlock false));
  step_in R (step_wake 1 Posix _ false 0);
  step_in R (step_woken 1 Posix _ false 1);
  step_in R (step_wait 1 Posix _ 2 0);
  step_in R (step_lock 1 Posix _ 2 WLock);
  step_in R (step_take_none 1 Posix _ 2);
  step_in R (step_unlock 1 Posix _ 2 WUnlockExit);
  step_in R (step_join 1 Posix _ false 0);
  step_in R (step_joined 1 Posix _ false 1);
  step_in R (step_drained 1 Posix);
  step_in R (step_close 1 Posix _ false).

(** One worker and one client: the client is about to lock for its submit. *)
Definition one_worker : state (T := nat) :=
  State (Pool None None false {[ 0%nat := TaskNode None 42%nat ]}) (Mtx None) 0 true
        [MReady; SLock 0; WWait] 1 [] [] [] 0 (Handles 1 (Some 1%nat) 1).

Lemma one_worker_reachable : reachable 1 Posix 1 one_worker.
Proof.
  pose proof (reachable_init (T := nat) 1 Posix 1) as R.
  step_in R (step_spawn 1 Posix _ 0 0).
  step_in R (step_spawned 1 Posix).
  step_in R (step_submit 1 Posix _ 1 42%nat MReady).
  step_in R (step_submit_alloc 1 Posix _ 1 42%nat).
  exact R.
Qed.

(** The task has been taken and is about to run. *)
Definition running : state (T := nat) :=
  State (Pool None None false {[ 0%nat := TaskNode None 42%nat ]}) (Mtx None) 0 true
        [MReady; SIdle; WRun 0 42%nat] 1 [42%nat] [42%nat] [] 0 (Handles 1 (Some 1%nat) 1).

Lemma running_reachable : reachable 1 Posix 1 running.
Proof.
  pose proof one_worker_reachable as R. unfold one_worker in R.
  step_in R (step_lock 1 Posix _ 1 (SLock 0)).
  step_in R (step_submit_enqueue 1 Posix _ 1 0).
  step_in R (step_unlock 1 Posix _ 1 SUnlockOk).
  step_in R (step_submit_post 1 Posix _ 1).
  step_in R (step_wait 1 Posix _ 2 0).
  step_in R (step_lock 1 Posix _ 2 WLock).
  step_in R (step_take 1 Posix _ 2 0).
  step_in R (step_unlock 1 Posix _ 2 (WUnlockRun 0 42%nat)).
  exact R.
Qed.

Lemma pool_dispatches_once_witness :
  started running `prefix_of` accepted running /\
  (forall t, occurs t (started running) =
     (occurs t (finished running) + sum_list_with (runs t) (threads running))%nat) /\
  (forall i p, threads running !! i = Some p -> exiting p = 1%nat ->
     shutting_down (pool running) = true /\ started running = accepted running).
Proof. apply (pool_dispatches_once 1 Posix 1); [lia|exact running_reachable]. Defined.

Lemma pool_terminates_witness : Acc (inner 1 Posix) running.
Proof. apply (pool_terminates 1 Posix 1); [lia|exact running_reachable]. Defined.

(** The task has run; the pool is idle. *)
Definition idle : state (T := nat) :=
  State (Pool None None false ∅) (Mtx None) 0 true [MReady; SIdle; WWait] 1 [42%nat] [42%nat] [42%nat] 0
        (Handles 1 (Some 1%nat) 1).

Lemma idle_reachable : reachable 1 Posix 1 idle.
Proof.
  pose proof running_reachable as R. unfold running in R.
  step_in R (step_run 1 Posix _ 2 0 42%nat).
  step_in R (step_free 1 Posix _ 2 0).
  exact R.
Qed.

Lemma idle_quiescent : quiescent 1 Posix idle.
Proof.
  assert (forall i p, threads idle !! i = Some p -> p = MReady \/ p = SIdle \/ p = WWait) as H.
  { intros [|[|[|i]]] p; simpl; intros [= <-]; auto. }
  intros e s' Hs. inversion Hs; subst; try done;
    try (match goal with Hi : threads idle !! _ = Some _ |- _ => destruct (H _ _ Hi) as [E|[E|E]] end; subst; simpl in *; done).
Qed.

Lemma pool_quiescent_done_witness :
  finished idle ≡ₚ accepted idle /\ permits idle = 0%nat /\
  (forall i p, threads idle !! i = Some p -> kind_of p = Client -> p = SIdle) /\
  ((owner_pc idle = Some MReady /\ forall i p, threads idle !! i = Some p -> kind_of p = Worker -> p = WWait) \/
   (exists r, owner_pc idle = Some (MDone r) /\ all_exited idle)).
Proof. apply (pool_quiescent_done 1 Posix 1); [lia|exact idle_reachable|exact idle_quiescent]. Defined.

(** The pool has been destroyed. *)
Definition destroyed : state (T := nat) :=
  State (Pool None None true ∅) Uninit 0 false [MDone false; SIdle; WExit] 1 [42%nat] [42%nat] [42%nat] 1
        (Handles 1 None 1).

Lemma destroyed_reachable : reachable 1 Posix 1 destroyed.
Proof.
  pose proof idle_reachable as R. unfold idle in R.
  shut_down R.
  exact R.
Qed.

Lemma pool_graceful_shutdown_witness :
  all_exited destroyed /\ finished destroyed ≡ₚ accepted destroyed /\ permits destroyed = 0%nat /\
  (forall i p, threads destroyed !! i = Some p -> p <> SUnlockOk /\ p <> SPost) /\
  workers 1 destroyed = 1%nat /\ h_array (hs destroyed) = None /\
  ((forall i p, threads destroyed !! i = Some p -> kind_of p = Client -> p = SIdle) -> nodes (pool destroyed) = ∅).
Proof. apply (pool_graceful_shutdown 1 Posix 1 destroyed false); [lia|exact destroyed_reachable|done]. Defined.

(** The client is still about to lock when [destroy] returns. *)
Definition raced : state (T := nat) :=
  State (Pool None None true {[ 0%nat := TaskNode None 42%nat ]}) Uninit 0 false
        [MDone false; SLock 0; WExit] 1 [] [] [] 1 (Handles 1 None 1).

Lemma raced_reachable : reachable 1 Posix 1 raced.
Proof.
  pose proof one_worker_reachable as R. unfold one_worker in R.
  shut_down R.
  exact R.
Qed.

Lemma raced_undefined : step 1 Posix raced EUndefined raced.
Proof. by apply (step_undefined_lock 1 Posix raced 1 (SLock 0)). Qed.

Lemma pool_misuse_needs_overlap_witness :
  released raced /\ all_exited raced /\ exists i p, threads raced !! i = Some p /\ submitting p.
Proof. apply (pool_misuse_needs_overlap 1 Posix 1 raced raced); [lia|exact raced_reachable|exact raced_undefined]. Defined.

(** A submit that races with [destroy] is not always rejected: a client
    that has entered [submit] while the pool was open can reach the lock only
    after [destroy] has released it, and then locks a destroyed mutex. *)
Theorem pool_submit_destroy_race :
  exists s : state (T := nat), reachable 1 Posix 1 s /\ threads s !! 1%nat = Some (SLock 0) /\
    owner_pc s = Some (MDone false) /\ step 1 Posix s EUndefined s.
Proof. exists raced. split; [exact raced_reachable|]. split; [done|]. split; [done|]. exact raced_undefined. Qed.

End witnesses.
End ThreadPool.
