(* ===== verification/PoolSemaphore.v ===== *)
(** * The thread pool over its semaphore ([thread_pool.c] with [semaphore.c])

    [ThreadPool] counts the permits of [pool->items] in one step.  Here the
    workers, the clients and the owner go through the calls of the POSIX
    semaphore step by step, as [Semaphore] has them, interleaved with everything
    else; the number of permits is only carried along.  Every run is one of
    [ThreadPool] with that number equal to the count of the semaphore, so its
    theorems hold of the pool over the real semaphore, and so do the absence
    of misuse, the absence of deadlock and termination. *)

From S2P Require Import Prelude Status Mutex Counter Semaphore ThreadPool.
Import Mutex.

Module PoolSemaphore.

Section composition.
Context {T : Type} `{EqDecision T}.
Variable clients : nat.

(** The pool and its semaphore; a thread has the same number in both. *)
Record state := State {
  p : ThreadPool.state (T := T);
  q : Semaphore.state
}.

(** The loop of [init] starts with the semaphore [d4np_semaphore_init] has left. *)
Definition initial (n : nat) : state :=
  State (ThreadPool.initial clients n)
        (Semaphore.initial (ThreadPool.base clients + n) (Semaphore.Sem (Mtx None) (Semaphore.Cond 0) 0)).

(** The first step of a call. *)
Definition enters (c : ThreadPool.call) : Semaphore.pc :=
  match c with
  | ThreadPool.CWait => Semaphore.WLock
  | ThreadPool.CPost => Semaphore.PLock
  end.

(** No thread that is inside the semaphore moves. *)
Definition outside (s : state) (p' : ThreadPool.state) : Prop :=
  forall i x, Semaphore.threads (q s) !! i = Some x -> x <> Semaphore.Idle ->
    ThreadPool.threads p' !! i = ThreadPool.threads (p s) !! i.

Inductive step : state -> ThreadPool.event (T := T) -> state -> Prop :=
  (* the steps of the pool between the calls to the semaphore *)
  | step_pool s e p' :
      ThreadPool.step clients Posix (p s) e p' -> outside s p' ->
      ThreadPool.permits p' = ThreadPool.permits (p s) -> ThreadPool.sem_alive p' = ThreadPool.sem_alive (p s) ->
      step s e (State p' (q s))
  (* a thread enters [wait] or [post] *)
  | step_call s i x c :
      ThreadPool.threads (p s) !! i = Some x -> Semaphore.threads (q s) !! i = Some Semaphore.Idle ->
      ThreadPool.calls (ThreadPool.thread_count (p s)) x = Some c ->
      step s ThreadPool.ETau (State (p s) (Semaphore.goes (q s) i (enters c)))
  (* inside [wait] and [post], and their return *)
  | step_inside s q' :
      Semaphore.step (q s) Counter.ETau q' ->
      (forall i, Semaphore.threads (q s) !! i = Some Semaphore.Idle -> Semaphore.threads q' !! i = Some Semaphore.Idle) ->
      step s ThreadPool.ETau (State (p s) q')
  (* [--count] of a worker *)
  | step_acquired s i q' :
      Semaphore.step (q s) (Counter.EAcquired i) q' -> ThreadPool.threads (p s) !! i = Some ThreadPool.WWait ->
      step s ThreadPool.ETau
        (State (ThreadPool.goes (ThreadPool.with_permits (p s) (pred (ThreadPool.permits (p s)))) i ThreadPool.WLock) q')
  (* [++count] of a submit *)
  | step_posted s i q' :
      Semaphore.step (q s) (Counter.EPosted i) q' -> ThreadPool.threads (p s) !! i = Some ThreadPool.SPost ->
      step s (ThreadPool.ESubmit i D4NP_OK)
        (State (ThreadPool.goes (ThreadPool.with_permits (p s) (S (ThreadPool.permits (p s)))) i ThreadPool.SIdle) q')
  (* [++count] of the owner *)
  | step_woken s r k q' :
      Semaphore.step (q s) (Counter.EPosted 0) q' -> ThreadPool.threads (p s) !! 0%nat = Some (ThreadPool.MPost r k) ->
      step s ThreadPool.ETau
        (State (ThreadPool.State (ThreadPool.pool (p s)) (ThreadPool.lock (p s)) (S (ThreadPool.permits (p s)))
                  (ThreadPool.sem_alive (p s)) (<[0%nat := ThreadPool.MPost r (S k)]> (ThreadPool.threads (p s)))
                  (ThreadPool.fresh (p s)) (ThreadPool.accepted (p s)) (ThreadPool.started (p s))
                  (ThreadPool.finished (p s)) (S (ThreadPool.woken (p s))) (ThreadPool.hs (p s))) q')
  (* the owner frees the handles, destroys the semaphore and then the lock *)
  | step_close s r h m sm :
      ThreadPool.threads (p s) !! 0%nat = Some (ThreadPool.MClose r) ->
      ThreadPool.free_handles r (ThreadPool.hs (p s)) = Some h ->
      Semaphore.threads (q s) !! 0%nat = Some Semaphore.Idle ->
      Semaphore.d4np_semaphore_destroy (Some (Semaphore.sem (q s))) = Done (Some sm) ->
      d4np_mutex_destroy (Some (ThreadPool.lock (p s))) = Done (Some m) ->
      step s ThreadPool.ETau
        (State (ThreadPool.State (ThreadPool.pool (p s)) m (ThreadPool.permits (p s)) false
                  (<[0%nat := ThreadPool.MDone r]> (ThreadPool.threads (p s)))
                  (ThreadPool.fresh (p s)) (ThreadPool.accepted (p s)) (ThreadPool.started (p s))
                  (ThreadPool.finished (p s)) (ThreadPool.woken (p s)) h)
               (Semaphore.State sm (Semaphore.threads (q s))))
  (* uses of a semaphore that is not there, or is in use *)
  | step_undefined s q' : Semaphore.step (q s) Counter.EUndefined q' -> step s ThreadPool.EUndefined s
  | step_undefined_close s r :
      ThreadPool.threads (p s) !! 0%nat = Some (ThreadPool.MClose r) ->
      Semaphore.d4np_semaphore_destroy (Some (Semaphore.sem (q s))) = Undefined -> step s ThreadPool.EUndefined s.

Inductive reachable (n : nat) : state -> Prop :=
  | reachable_init : reachable n (initial n)
  | reachable_step s e s' : reachable n s -> step s e s' -> reachable n s'.

(** No more posts than the counter of the semaphore can hold: one per accepted
    task and one per worker. *)
Definition posts_fit (n : nat) (s : state) : Prop :=
  (Z.of_nat (length (ThreadPool.accepted (p s)) + n) <= SIZE_MAX)%Z.

(** ** The invariant *)

(** Where a thread is in the pool when it is at [x] in the semaphore. *)
Definition inside (w : nat) (o : option (ThreadPool.pc (T := T))) (x : Semaphore.pc) : Prop :=
  match x with
  | Semaphore.Idle => True
  | Semaphore.WLock | Semaphore.WTest | Semaphore.WSleep | Semaphore.WWake => o = Some ThreadPool.WWait
  | Semaphore.WUnlock => o = Some ThreadPool.WLock
  | Semaphore.PLock | Semaphore.PCount =>
      o = Some ThreadPool.SPost \/ exists r k, o = Some (ThreadPool.MPost r k) /\ (k < w)%nat
  | Semaphore.PSignal | Semaphore.PUnlock =>
      o = Some ThreadPool.SIdle \/ exists r k, o = Some (ThreadPool.MPost r (S k))
  | _ => False
  end.

(** Between the post and the end of its critical section. *)
Definition posting (x : Semaphore.pc) : bool :=
  match x with Semaphore.PSignal | Semaphore.PUnlock => true | _ => false end.

Record inv (n : nat) (s : state) : Prop := {
  v_pool : ThreadPool.reachable clients Posix n (p s);
  v_length : length (Semaphore.threads (q s)) = (ThreadPool.base clients + n)%nat;
  v_inside i x : Semaphore.threads (q s) !! i = Some x ->
    inside (ThreadPool.workers clients (p s)) (ThreadPool.threads (p s) !! i) x;
  v_sem : ThreadPool.sem_alive (p s) = true ->
    Semaphore.inv (q s) /\ Semaphore.s_count (Semaphore.sem (q s)) = Z.of_nat (ThreadPool.permits (p s));
  v_closed i x : ThreadPool.sem_alive (p s) = false -> Semaphore.threads (q s) !! i = Some x -> x = Semaphore.Idle;
  (* a posted permit cannot be taken before the end of the critical section *)
  v_posting i x : Semaphore.threads (q s) !! i = Some x -> posting x = true ->
    (0 < Semaphore.s_count (Semaphore.sem (q s)))%Z
}.

(** ** Steps of the semaphore *)

Lemma acquired_step s i s' :
  Semaphore.step s (Counter.EAcquired i) s' ->
  exists x y, Semaphore.threads s !! i = Some x /\ Semaphore.threads s' = <[i := y]> (Semaphore.threads s) /\
    (x = Semaphore.WTest /\ y = Semaphore.WUnlock \/ x = Semaphore.TTest).
Proof. intros Hs. inversion Hs; subst; eauto 10. Qed.

Lemma posted_step s i s' :
  Semaphore.step s (Counter.EPosted i) s' ->
  Semaphore.threads s !! i = Some Semaphore.PCount /\
  Semaphore.threads s' = <[i := Semaphore.PSignal]> (Semaphore.threads s).
Proof. intros Hs. inversion Hs; subst; eauto. Qed.

(** A step inside the calls keeps every thread in its call. *)
Lemma inside_step w (o : nat -> option (ThreadPool.pc (T := T))) s s' :
  Semaphore.step s Counter.ETau s' ->
  (forall i, Semaphore.threads s !! i = Some Semaphore.Idle -> Semaphore.threads s' !! i = Some Semaphore.Idle) ->
  (forall i x, Semaphore.threads s !! i = Some x -> inside w (o i) x) ->
  (forall i x, Semaphore.threads s' !! i = Some x -> inside w (o i) x).
Proof.
  intros Hs Hidle Hin.
  assert (forall i x y j z, Semaphore.threads s !! i = Some x -> (inside w (o i) x -> inside w (o i) y) ->
    <[i := y]> (Semaphore.threads s) !! j = Some z -> inside w (o j) z) as Hmove.
  { intros i x y j z Hi Hxy. rewrite list_lookup_insert_Some. intros [(<- & <- & _)|[_ Hj]]; eauto. }
  inversion Hs as [s0 i c Hi Hc|s0 i c d m Hi Hd Hm|s0 i c d m Hi Hd Hm|s0 i c m Hi H0 Hm| | | |
    |s0 i c Hi Hn Hsg|s0 i j c Hi Hj Hsg|s0 j Hj|]; subst; simpl in *; intros k z.
  - specialize (Hidle i Hi). rewrite list_lookup_insert_eq in Hidle by (by eapply lookup_lt_Some).
    injection Hidle as ->. done.
  - apply (Hmove i c d k z Hi). by destruct c; simplify_eq/=.
  - apply (Hmove i c d k z Hi). by destruct c; simplify_eq/=.
  - by apply (Hmove i _ _ k z Hi).
  - by apply (Hmove i _ _ k z Hi).
  - rewrite list_lookup_insert_Some. intros [(<- & <- & _)|[_ Hk]]; [exact (Hin _ _ Hi)|].
    by apply (Hmove j _ Semaphore.WWake k z Hj).
  - by apply (Hmove j _ Semaphore.WWake k z Hj).
Qed.

(** The count is not taken from under a post. *)
Lemma posting_step s e s' :
  Semaphore.inv s -> Semaphore.step s e s' ->
  (Counter.posts [e] = 1%nat -> (Semaphore.s_count (Semaphore.sem s) < SIZE_MAX)%Z) ->
  (forall i x, Semaphore.threads s !! i = Some x -> posting x = true -> (0 < Semaphore.s_count (Semaphore.sem s))%Z) ->
  (forall i x, Semaphore.threads s' !! i = Some x -> posting x = true -> (0 < Semaphore.s_count (Semaphore.sem s'))%Z).
Proof.
  intros Hv Hs Hp Hpos. destruct (Semaphore.step_ok s e s' Hv Hs Hp) as [_ Ha].
  pose proof (Semaphore.i_count _ Hv) as Hc.
  assert (forall i x y j z, Semaphore.threads s !! i = Some x -> (posting y = true -> posting x = true) ->
    <[i := y]> (Semaphore.threads s) !! j = Some z -> posting z = true -> (0 < Semaphore.s_count (Semaphore.sem s))%Z) as Hmove.
  { intros i x y j z Hi Hxy. rewrite list_lookup_insert_Some. intros [(<- & <- & _)|[_ Hj]]; eauto. }
  assert (forall i x j z, Semaphore.threads s !! i = Some x -> Semaphore.critical x = true -> posting x = false ->
    Semaphore.threads s !! j = Some z -> posting z = false) as Hexcl.
  { intros i x j z Hi Hx Hxp Hj. destruct (posting z) eqn:Hz; [|done].
    destruct (Semaphore.i_mutex _ Hv) as (o & _ & Ho & _).
    assert (Semaphore.critical z = true) as Hcz by (by destruct z).
    apply (Ho _ _ Hi) in Hx. apply (Ho _ _ Hj) in Hcz. assert (i = j) as <- by congruence. congruence. }
  inversion Hs as [s0 i c Hi Hce|s0 i c d m Hi Hd Hm|s0 i c d m Hi Hd Hm|s0 i c m Hi H0 Hm|s0 i Hi H0|s0 i Hi H0
    |s0 i Hi H0|s0 i Hi|s0 i c Hi Hn Hsg|s0 i j c Hi Hj Hsg|s0 j Hj|]; subst; simpl in *; intros k z; simplify_eq.
  - apply (Hmove i _ _ k z Hi). by destruct c.
  - apply (Hmove i _ _ k z Hi). by destruct c; simplify_eq/=.
  - apply (Hmove i _ _ k z Hi). by destruct c; simplify_eq/=.
  - by apply (Hmove i _ _ k z Hi).
  - rewrite list_lookup_insert_Some. intros [(_ & <- & _)|[_ Hk]] Hz; [done|]. by rewrite (Hexcl i _ k z Hi) in Hz.
  - rewrite list_lookup_insert_Some. intros [(_ & <- & _)|[_ Hk]] Hz; [done|]. by rewrite (Hexcl i _ k z Hi) in Hz.
  - by apply (Hmove i _ _ k z Hi).
  - intros _ _. lia.
  - by apply (Hmove i _ _ k z Hi).
  - rewrite list_lookup_insert_Some. intros [(<- & <- & _)|[_ Hk]]; [intros _; exact (Hpos _ _ Hi eq_refl)|].
    by apply (Hmove j _ Semaphore.WWake k z Hj).
  - by apply (Hmove j _ Semaphore.WWake k z Hj).
Qed.

(** ** The invariant is kept *)

Lemma pool_sem_initial_inv n : inv n (initial n).
Proof.
  assert (forall i x, Semaphore.threads (q (initial n)) !! i = Some x -> x = Semaphore.Idle) as Hidle
    by (by intros i x [-> _]%lookup_replicate).
  split; simpl.
  - constructor.
  - by rewrite length_replicate.
  - by intros i x ->%Hidle.
  - intros _. split; [|done]. by apply Semaphore.initial_inv.
  - done.
  - by intros i x ->%Hidle.
Qed.

(** What the owner finds when it releases the pool: nobody is in the semaphore. *)
Lemma close_idle n s r i x :
  (0 < n)%nat -> inv n s -> ThreadPool.threads (p s) !! 0%nat = Some (ThreadPool.MClose r) ->
  Semaphore.threads (q s) !! i = Some x -> x = Semaphore.Idle.
Proof.
  intros Hn Hv Hcl Hi. pose proof (ThreadPool.inv_reachable _ _ _ _ Hn (v_pool _ _ Hv)) as Hvp.
  destruct (ThreadPool.sem_alive (p s)) eqn:Ea; [|by eapply (v_closed _ _ Hv)].
  destruct (ThreadPool.joined_inv clients n (p s) _ Hn Hvp Hcl eq_refl) as (Hx & _ & Hp & Hnp & _).
  destruct (v_sem _ _ Hv Ea) as [_ Hcount]. rewrite Hp in Hcount.
  pose proof (v_inside _ _ Hv i x Hi) as Hin. pose proof (v_posting _ _ Hv i x Hi) as Hpos. rewrite Hcount in Hpos.
  assert (forall y, ThreadPool.threads (p s) !! i = Some y -> ThreadPool.kind_of y = ThreadPool.Owner -> y = ThreadPool.MClose r) as H0.
  { intros y Hy Hk. assert (i = 0%nat) as -> by (by eapply ThreadPool.owner_is_0; [apply Hvp|..]). congruence. }
  destruct x; simpl in *; try done;
    try (by specialize (Hx i _ Hin eq_refl)); try (by specialize (Hpos eq_refl));
    (destruct Hin as [Hin|(r' & k & Hin & _)]; [by destruct (Hnp _ _ Hin)|by specialize (H0 _ Hin eq_refl)]).
Qed.

Lemma sem_step_length s e s' :
  Semaphore.step s e s' -> length (Semaphore.threads s') = length (Semaphore.threads s).
Proof. intros Hs. destruct Hs; simpl; by rewrite ?length_insert. Qed.

(** A thread that moves in both, or in the semaphore alone. *)
Lemma inside_move w (P : list (ThreadPool.pc (T := T))) (Q : list Semaphore.pc) i x y :
  (forall j z, Q !! j = Some z -> inside w (P !! j) z) -> inside w (Some y) x -> is_Some (P !! i) ->
  forall j z, <[i := x]> Q !! j = Some z -> inside w (<[i := y]> P !! j) z.
Proof.
  intros Hin Hx Hlt j z. rewrite list_lookup_insert_Some. intros [(<- & <- & _)|[Hne Hj]].
  - by rewrite list_lookup_insert_eq by (by apply lookup_lt_is_Some).
  - rewrite list_lookup_insert_ne by done. auto.
Qed.

(** The semaphore makes a step, and the pool one that counts it. *)
Lemma inv_both n s e p' q' :
  inv n s -> ThreadPool.sem_alive (p s) = true -> Semaphore.step (q s) e q' ->
  (Counter.posts [e] = 1%nat -> (Z.of_nat (ThreadPool.permits (p s)) < SIZE_MAX)%Z) ->
  ThreadPool.reachable clients Posix n p' -> ThreadPool.sem_alive p' = true ->
  Counter.atomic (Z.of_nat (ThreadPool.permits (p s))) e = Some (Z.of_nat (ThreadPool.permits p')) ->
  (forall i x, Semaphore.threads q' !! i = Some x ->
     inside (ThreadPool.workers clients p') (ThreadPool.threads p' !! i) x) ->
  inv n (State p' q').
Proof.
  intros Hv Ha Hs Hb Hr Ha' He Hin. destruct (v_sem _ _ Hv Ha) as [Hvs Hc]. rewrite <- Hc in Hb, He.
  destruct (Semaphore.step_ok _ _ _ Hvs Hs Hb) as [Hvs' He']. rewrite He in He'. injection He' as He'.
  split; simpl; auto.
  - rewrite (sem_step_length _ _ _ Hs). apply Hv.
  - intros i x. congruence.
  - eapply posting_step; [exact Hvs|exact Hs|exact Hb|apply Hv].
Qed.

Lemma inv_pool n s e p' :
  inv n s -> ThreadPool.step clients Posix (p s) e p' -> outside s p' ->
  ThreadPool.permits p' = ThreadPool.permits (p s) -> ThreadPool.sem_alive p' = ThreadPool.sem_alive (p s) ->
  inv n (State p' (q s)).
Proof.
  intros Hv Hs Hout Hp Ha. pose proof (ThreadPool.reachable_step _ _ _ _ _ _ (v_pool _ _ Hv) Hs) as Hr.
  assert (ThreadPool.workers clients (p s) <= ThreadPool.workers clients p')%nat as Hw.
  { apply ThreadPool.step_moves in Hs as [(i & x & y & _ & Et & _)|[(k & H0 & ->)|[Et _]]].
    - by rewrite (ThreadPool.workers_goes _ _ _ _ _ Et).
    - unfold ThreadPool.workers. simpl. rewrite length_app, length_insert. lia.
    - unfold ThreadPool.workers. by rewrite Et. }
  destruct Hv. split; simpl; rewrite ?Hp, ?Ha; auto.
  intros i x Hi. destruct (decide (x = Semaphore.Idle)) as [->|Hx]; [done|]. rewrite (Hout i x Hi Hx).
  specialize (v_inside0 i x Hi). destruct x; simpl in *; try done;
    (destruct v_inside0 as [?|(r & k & ? & ?)]; [by left|right; exists r, k; split; [done|lia]]).
Qed.

(** The step of the pool that a step of the composition is, if it is not one
    inside the semaphore. *)
Definition simulates (s : state) (e : ThreadPool.event (T := T)) (s' : state) : Prop :=
  (e = ThreadPool.ETau /\ p s' = p s) \/ ThreadPool.step clients Posix (p s) e (p s').

Lemma sim_call n s i x c :
  (0 < n)%nat -> inv n s -> ThreadPool.threads (p s) !! i = Some x ->
  Semaphore.threads (q s) !! i = Some Semaphore.Idle -> ThreadPool.calls (ThreadPool.thread_count (p s)) x = Some c ->
  inv n (State (p s) (Semaphore.goes (q s) i (enters c))).
Proof.
  intros Hn Hv Hx Hi Hy. pose proof (ThreadPool.alive_call _ _ _ _ _ _ _ Hn (v_pool _ _ Hv) Hx Hy) as Ha.
  assert (Semaphore.entry (enters c) = true /\ inside (ThreadPool.workers clients (p s)) (Some x) (enters c)) as [He Hin].
  { rewrite (ThreadPool.calls_count _ _ _ _ _ _ Hn (v_pool _ _ Hv) Hx) in Hy.
    destruct x; simpl in Hy; try case_decide; simplify_eq/=; eauto 10. }
  eapply (inv_both n s Counter.ETau); auto.
  - by apply Semaphore.step_call.
  - done.
  - apply Hv.
  - simpl. rewrite <- (list_insert_id (ThreadPool.threads (p s)) i x Hx).
    apply inside_move; [apply Hv|done|by eexists].
Qed.

Lemma sim_inside n s q' :
  inv n s -> Semaphore.step (q s) Counter.ETau q' ->
  (forall i, Semaphore.threads (q s) !! i = Some Semaphore.Idle -> Semaphore.threads q' !! i = Some Semaphore.Idle) ->
  inv n (State (p s) q').
Proof.
  intros Hv Hs Hidle. destruct (ThreadPool.sem_alive (p s)) eqn:Ea.
  - eapply (inv_both n s); eauto using v_pool; [done..|].
    eapply inside_step; [exact Hs|exact Hidle|apply Hv].
  - exfalso. pose proof (fun i x => v_closed _ _ Hv i x Ea) as Hcl.
    inversion Hs as [s0 i c Hi Hc|s0 i c d m Hi Hd Hm|s0 i c d m Hi Hd Hm|s0 i c m Hi H0 Hm| | | |
      |s0 i c Hi Hn Hsg|s0 i j c Hi Hj Hsg|s0 j Hj|]; subst;
      try (by specialize (Hcl _ _ Hi)); try (by specialize (Hcl _ _ Hj));
      try (specialize (Hcl _ _ Hi) as ->; done).
    specialize (Hidle i Hi). simpl in Hidle. rewrite list_lookup_insert_eq in Hidle by (by eapply lookup_lt_Some).
    by injection Hidle as ->.
Qed.

Lemma sim_acquired n s i q' :
  (0 < n)%nat -> inv n s -> Semaphore.step (q s) (Counter.EAcquired i) q' ->
  ThreadPool.threads (p s) !! i = Some ThreadPool.WWait ->
  let p' := ThreadPool.goes (ThreadPool.with_permits (p s) (pred (ThreadPool.permits (p s)))) i ThreadPool.WLock in
  inv n (State p' q') /\ ThreadPool.step clients Posix (p s) ThreadPool.ETau p'.
Proof.
  intros Hn Hv Hs Hi. pose proof (ThreadPool.alive_call _ _ _ _ _ _ _ Hn (v_pool _ _ Hv) Hi eq_refl) as Ha.
  destruct (v_sem _ _ Hv Ha) as [Hvs Hc]. destruct (Semaphore.step_ok _ _ _ Hvs Hs) as [_ He]; [done|].
  rewrite Hc in He. simpl in He. destruct (Z.ltb_spec 0 (Z.of_nat (ThreadPool.permits (p s)))); [|done].
  destruct (ThreadPool.permits (p s)) as [|k] eqn:Ek; [lia|]. simpl.
  pose proof (ThreadPool.step_wait clients Posix (p s) i k Hi Ha Ek) as Hstep. split; [|done].
  destruct (acquired_step _ _ _ Hs) as (x & y & Hx & Et & Hxy). pose proof (v_inside _ _ Hv i x Hx) as Hin.
  destruct Hxy as [[-> ->]| ->]; [|done].
  eapply (inv_both n s); [done|done|exact Hs|done| |done| |].
  - eapply ThreadPool.reachable_step; [apply Hv|exact Hstep].
  - rewrite Ek. simpl. f_equal. lia.
  - set (p' := ThreadPool.goes _ _ _). rewrite (ThreadPool.workers_goes clients (p s) p' i ThreadPool.WLock eq_refl), Et. simpl.
    apply inside_move; [apply Hv|done|by eexists].
Qed.

(** The two posts: a submit's and the owner's. *)
Lemma sim_posted n s i x y p' q' :
  (0 < n)%nat -> inv n s -> posts_fit n s -> Semaphore.step (q s) (Counter.EPosted i) q' ->
  ThreadPool.threads (p s) !! i = Some x -> ThreadPool.calls (ThreadPool.thread_count (p s)) x = Some ThreadPool.CPost ->
  ThreadPool.reachable clients Posix n p' -> ThreadPool.sem_alive p' = ThreadPool.sem_alive (p s) ->
  ThreadPool.permits p' = S (ThreadPool.permits (p s)) ->
  ThreadPool.threads p' = <[i := y]> (ThreadPool.threads (p s)) ->
  y = ThreadPool.SIdle \/ (exists r k, y = ThreadPool.MPost r (S k)) -> inv n (State p' q').
Proof.
  intros Hn Hv Hfit Hs Hi Hx Hr Hal Hp Et Hy. pose proof (ThreadPool.alive_call _ _ _ _ _ _ _ Hn (v_pool _ _ Hv) Hi Hx) as Ha.
  pose proof (ThreadPool.permits_room _ _ _ _ _ _ Hn (v_pool _ _ Hv) Hi Hx). unfold posts_fit in Hfit.
  destruct (posted_step _ _ _ Hs) as [_ Eq].
  eapply (inv_both n s); [done|done|exact Hs| |done|congruence| |].
  - intros _. lia.
  - rewrite Hp. simpl. f_equal. lia.
  - rewrite (ThreadPool.workers_goes clients (p s) _ i y Et), Et, Eq.
    apply inside_move; [apply Hv| |by eexists]. destruct Hy as [->|(r & k & ->)]; simpl; eauto.
Qed.

(** The semaphore is there and free when the owner destroys it. *)
Lemma close_free n s r :
  (0 < n)%nat -> inv n s -> ThreadPool.threads (p s) !! 0%nat = Some (ThreadPool.MClose r) ->
  ThreadPool.sem_alive (p s) = true /\ Semaphore.s_mutex (Semaphore.sem (q s)) = Mtx None /\
  Semaphore.s_cond (Semaphore.sem (q s)) = Semaphore.Cond 0.
Proof.
  intros Hn Hv Hcl. pose proof (ThreadPool.open_alive _ _ _ _ _ Hn (v_pool _ _ Hv) Hcl eq_refl) as Ha. split; [done|]. destruct (v_sem _ _ Hv Ha) as [Hvs _].
  split; [|rewrite (Semaphore.i_cond _ Hvs); f_equal; apply sum_zero; intros i x Hx;
           by rewrite (close_idle _ _ _ _ _ Hn Hv Hcl Hx)].
  destruct (Semaphore.i_mutex _ Hvs) as (o & -> & Ho & Hlive). destruct o as [i|]; [|done].
  destruct (Hlive i eq_refl) as [x Hx]. pose proof (close_idle _ _ _ _ _ Hn Hv Hcl Hx) as ->.
  by discriminate (proj2 (Ho i _ Hx) eq_refl).
Qed.

Lemma sem_no_undefined n s q' : inv n s -> ~ Semaphore.step (q s) Counter.EUndefined q'.
Proof.
  intros Hv Hs. destruct (ThreadPool.sem_alive (p s)) eqn:Ea.
  - destruct (v_sem _ _ Hv Ea) as [Hvs _]. by destruct (Semaphore.step_ok _ _ _ Hvs Hs) as [_ ?].
  - inversion Hs as [| | | | | | | | | | |s0 i x Hi Hu]; subst. pose proof (v_closed _ _ Hv i x Ea Hi) as ->.
    by destruct Hu as [[[? ?] _]|[[? _]|[[? _]|[? _]]]].
Qed.

(** Every step is one of the pool, or one inside the semaphore that it does
    not see. *)
Lemma step_sim n s e s' :
  (0 < n)%nat -> inv n s -> posts_fit n s -> step s e s' -> inv n s' /\ simulates s e s'.
Proof.
  intros Hn Hv Hfit Hs. destruct Hs as [s e p' Hs Hout Hp Ha|s i x y Hx Hi Hy|s q' Hs Hidle|s i q' Hs Hi|s i q' Hs Hi
    |s r k q' Hs Hi|s r h m sm Hi Hfh H0 Hd Hm|s q' Hs|s r Hi Hd]; unfold simulates; simpl.
  - split; [by eapply inv_pool|by right].
  - split; [by eapply sim_call|by left].
  - split; [by apply sim_inside|by left].
  - destruct (sim_acquired n s i q' Hn Hv Hs Hi). auto.
  - pose proof (ThreadPool.alive_call _ _ _ _ _ _ _ Hn (v_pool _ _ Hv) Hi eq_refl) as Ha.
    pose proof (ThreadPool.step_submit_post clients Posix (p s) i Hi Ha) as Hstep. split; [|by right].
    eapply (sim_posted n s i _ ThreadPool.SIdle); eauto. by eapply ThreadPool.reachable_step; [apply Hv|].
  - destruct (posted_step _ _ _ Hs) as [Hpc _]. pose proof (v_inside _ _ Hv _ _ Hpc) as Hin. simpl in Hin.
    rewrite Hi in Hin. destruct Hin as [?|(r' & k' & [= <- <-] & Hk)]; [done|].
    assert (ThreadPool.calls (T := T) (ThreadPool.thread_count (p s)) (ThreadPool.MPost r k) = Some ThreadPool.CPost) as Hcall
      by (rewrite (ThreadPool.calls_count _ _ _ _ _ _ Hn (v_pool _ _ Hv) Hi); simpl; by rewrite decide_True).
    assert (k < ThreadPool.thread_count (p s))%nat as Hk' by (simpl in Hcall; by case_decide).
    pose proof (ThreadPool.alive_call _ _ _ _ _ _ _ Hn (v_pool _ _ Hv) Hi Hcall) as Ha.
    pose proof (ThreadPool.step_wake clients Posix (p s) r k Hi Hk' Ha) as Hstep. split; [|by right].
    eapply (sim_posted n s 0 _ (ThreadPool.MPost r (S k))); eauto. by eapply ThreadPool.reachable_step; [apply Hv|].
  - pose proof (ThreadPool.step_close clients Posix (p s) r h m Hi Hfh Hm) as Hstep. split; [|by right].
    pose proof (fun j x => close_idle n s r j x Hn Hv Hi) as Hall. split; simpl; try done.
    + by eapply ThreadPool.reachable_step; [apply Hv|].
    + apply Hv.
    + by intros j x ->%Hall.
    + eauto.
    + by intros j x ->%Hall.
  - by destruct (sem_no_undefined n s q' Hv).
  - destruct (close_free n s r Hn Hv Hi) as (_ & E & Ec). simpl in Hd. by rewrite Ec, E in Hd.
Qed.

Lemma fit_back n s e s' : step s e s' -> posts_fit n s' -> posts_fit n s.
Proof.
  unfold posts_fit. intros Hs Hf.
  assert (length (ThreadPool.accepted (p s)) <= length (ThreadPool.accepted (p s')))%nat; [|lia].
  destruct Hs; simpl; try done. by eapply ThreadPool.accepted_grows.
Qed.

Lemma reachable_inv n s : (0 < n)%nat -> reachable n s -> posts_fit n s -> inv n s.
Proof.
  intros Hn Hr. induction Hr as [|s e s' Hr IH Hs]; intros Hf; [apply pool_sem_initial_inv|].
  pose proof (fit_back _ _ _ _ Hs Hf) as Hb. by eapply step_sim; eauto.
Qed.

(** ** Progress *)

(** A spurious wake-up of a thread that sleeps in [wait]. *)
Definition spurious (s s' : state) : Prop :=
  exists j, Semaphore.threads (q s) !! j = Some Semaphore.WSleep /\
    s' = State (p s) (Semaphore.wakes (q s) j).

(** Nothing can happen until a client or the owner makes a new call, but for
    spurious wake-ups. *)
Definition quiescent (s : state) : Prop :=
  forall e s', step s e s' -> e = ThreadPool.ECall \/ spurious s s'.

(** A step of a thread that is inside the semaphore leaves those outside alone. *)
Lemma tau_idle s s' i x j :
  Semaphore.step s Counter.ETau s' -> Semaphore.threads s !! i = Some x -> Semaphore.awake x = true ->
  Semaphore.threads s' !! i <> Some x ->
  Semaphore.threads s !! j = Some Semaphore.Idle -> Semaphore.threads s' !! j = Some Semaphore.Idle.
Proof.
  intros Hs Hi Hx Hmv Hj.
  inversion Hs as [s0 k c Hk Hc|s0 k c d m Hk Hd Hm|s0 k c d m Hk Hd Hm|s0 k c m Hk H0 Hm| | | |
    |s0 k c Hk Hn Hsg|s0 k l c Hk Hl Hsg|s0 k Hk|]; subst; simpl in *.
  1: { exfalso. apply Hmv. rewrite list_lookup_insert_ne; [done|]. intros ->. assert (x = Semaphore.Idle) as -> by congruence. done. }
  all: repeat (rewrite list_lookup_insert_ne by (intros ->; simplify_eq/=)); done.
Qed.

(** Whoever is inside the semaphore and not asleep lets the composition go on. *)
Lemma awake_step n s i x :
  (0 < n)%nat -> inv n s -> Semaphore.threads (q s) !! i = Some x -> Semaphore.awake x = true ->
  exists e s', step s e s' /\ e <> ThreadPool.ECall /\ ~ spurious s s'.
Proof.
  intros Hn Hv Hi0 Hx0. destruct (ThreadPool.sem_alive (p s)) eqn:Ea;
    [|by rewrite (v_closed _ _ Hv i x Ea Hi0) in Hx0].
  destruct (v_sem _ _ Hv Ea) as [Hvs _].
  destruct (Semaphore.awake_goes_on _ _ _ Hvs Hi0 Hx0) as (j & y & e & q' & Hj & Hy & Hs & Hmv).
  assert (forall p', ~ spurious s (State p' q')) as Hns.
  { intros p' (k & Hk & [= -> ->]). apply Hmv. simpl. rewrite list_lookup_insert_ne; [done|].
    intros ->. assert (y = Semaphore.WSleep) as -> by congruence. done. }
  destruct e as [k|k|k| |].
  - destruct (acquired_step _ _ _ Hs) as (c & d & Hc & _ & Hcd). pose proof (v_inside _ _ Hv _ _ Hc) as Hin.
    destruct Hcd as [[-> _]| ->]; [|done]. eexists _, _. split; [by eapply step_acquired|done].
  - exfalso. inversion Hs as [| | | | | |s0 k' Hk| | | | |]; subst. by pose proof (v_inside _ _ Hv _ _ Hk).
  - destruct (posted_step _ _ _ Hs) as [Hpc _]. pose proof (v_inside _ _ Hv _ _ Hpc) as [Hin|(r & m & Hin & _)].
    + eexists _, _. split; [by eapply step_posted|done].
    + assert (k = 0%nat) as ->.
      { eapply ThreadPool.owner_is_0; [|exact Hin|done]. by apply (ThreadPool.inv_reachable _ _ _ _ Hn (v_pool _ _ Hv)). }
      eexists _, _. split; [by eapply step_woken|done].
  - exists ThreadPool.ETau, (State (p s) q'). split; [|done]. apply step_inside; [exact Hs|]. intros k. by eapply tau_idle.
  - by destruct (sem_no_undefined n s q' Hv).
Qed.

(** Every thread of the pool is one of the semaphore. *)
Lemma sem_thread n s i x :
  (0 < n)%nat -> inv n s -> ThreadPool.threads (p s) !! i = Some x -> is_Some (Semaphore.threads (q s) !! i).
Proof.
  intros Hn Hv Hi. pose proof (lookup_lt_Some _ _ _ Hi) as Hlt.
  pose proof (ThreadPool.workers_bound _ _ _ _ Hn (v_pool _ _ Hv)) as Hw.
  pose proof (ThreadPool.l_length _ _ (ThreadPool.i_layout _ _ _ (ThreadPool.inv_reachable _ _ _ _ Hn (v_pool _ _ Hv)))).
  apply lookup_lt_is_Some_2. rewrite (v_length _ _ Hv). unfold ThreadPool.workers in Hw. lia.
Qed.

(** When nothing can happen, every thread is out of the semaphore or sleeps in
    it for want of a permit. *)
Lemma quiescent_sem n s :
  (0 < n)%nat -> inv n s -> quiescent s ->
  (forall i x, Semaphore.threads (q s) !! i = Some x -> x = Semaphore.Idle \/ x = Semaphore.WSleep) /\
  (forall i, Semaphore.threads (q s) !! i = Some Semaphore.WSleep -> ThreadPool.permits (p s) = 0%nat) /\
  (forall i x, ThreadPool.threads (p s) !! i = Some x -> is_Some (ThreadPool.calls (ThreadPool.thread_count (p s)) x) ->
     x = ThreadPool.WWait /\ Semaphore.threads (q s) !! i = Some Semaphore.WSleep).
Proof.
  intros Hn Hv Hqs.
  assert (forall i x, Semaphore.threads (q s) !! i = Some x -> Semaphore.awake x = false) as Hall.
  { intros i x Hi. destruct (Semaphore.awake x) eqn:Hx; [|done].
    destruct (awake_step n s i x Hn Hv Hi Hx) as (e & s' & Hs & He & Hsp). by destruct (Hqs e s' Hs). }
  assert (forall i x, Semaphore.threads (q s) !! i = Some x -> x = Semaphore.Idle \/ x = Semaphore.WSleep) as Hpc.
  { intros i x Hi. specialize (Hall i x Hi). destruct x; auto; done. }
  split; [done|]. split.
  - intros i Hi. destruct (ThreadPool.sem_alive (p s)) eqn:Ea; [|by pose proof (v_closed _ _ Hv i _ Ea Hi)].
    destruct (v_sem _ _ Hv Ea) as [Hvs Hc]. pose proof (sum_elem Semaphore.asleep _ _ _ Hi) as Hsl.
    pose proof (Semaphore.i_wake _ Hvs) as Hw. rewrite (sum_zero Semaphore.coming) in Hw.
    + simpl in *. lia.
    + intros k x Hk%Hpc. by destruct Hk as [->| ->].
  - intros i x Hi [y Hy].
    destruct (sem_thread n s i x Hn Hv Hi) as [z Hz].
    destruct (Hpc i z Hz) as [->| ->].
    + exfalso. destruct (Hqs _ _ (step_call s i x y Hi Hz Hy)) as [|(k & Hk & [= _ E])]; [done|].
      assert (Semaphore.threads (Semaphore.goes (q s) i (enters y)) !! k = Some Semaphore.WSleep) as Hk'.
      { simpl. rewrite list_lookup_insert_ne; [done|]. intros ->. congruence. }
      simpl in Hk'. rewrite E, list_lookup_insert_eq in Hk' by (by eapply lookup_lt_Some). done.
    + pose proof (v_inside _ _ Hv i _ Hz) as Hin. simpl in Hin. split; [congruence|done].
Qed.

(** So nothing can happen in the pool either. *)
Lemma quiescent_pool n s : (0 < n)%nat -> inv n s -> quiescent s -> ThreadPool.quiescent clients Posix (p s).
Proof.
  intros Hn Hv Hqs e p' Hs. destruct (quiescent_sem n s Hn Hv Hqs) as (Hpc & Hzero & Hcalls).
  assert (forall e s', step s e s' -> q s' = q s -> e = ThreadPool.ECall) as Hsame.
  { intros e0 s' Hs' E. destruct (Hqs _ _ Hs') as [?|(k & Hk & ->)]; [done|exfalso]. simpl in E. rewrite <- E in Hk.
    simpl in Hk. apply list_lookup_insert_Some in Hk as [(_ & ? & _)|[? _]]; done. }
  destruct (ThreadPool.step_kinds _ _ _ _ _ Hs) as [(Hp & Ha & Hw)|[(i & Hi & Hp)|[(i & x & Hi & Hx)|(r & h & m & Hi & Hfh & Hm)]]].
  - eapply Hsame; [eapply (step_pool s e p' Hs); [|done|done]|done].
    intros i x Hi Hx. destruct (Hpc i x Hi) as [->| ->]; [done|]. pose proof (v_inside _ _ Hv _ _ Hi) as Hin.
    simpl in Hin. rewrite Hin. by apply Hw.
  - destruct (Hcalls i _ Hi) as [_ Hsl]; [done|]. by apply Hzero in Hsl.
  - destruct (Hcalls i _ Hi) as [-> _]; [by eexists|done].
  - exfalso. destruct (close_free n s r Hn Hv Hi) as (_ & E & Ec).
    destruct (sem_thread n s 0 _ Hn Hv Hi) as [z Hz].
    pose proof (close_idle n s r _ _ Hn Hv Hi Hz) as ->.
    assert (Semaphore.d4np_semaphore_destroy (Some (Semaphore.sem (q s))) =
      Done (Some (Semaphore.Sem Uninit Semaphore.CUninit (Semaphore.s_count (Semaphore.sem (q s)))))) as Hd
      by (simpl; by rewrite Ec, E).
    destruct (Hqs _ _ (step_close s r h _ _ Hi Hfh Hz Hd Hm)) as [|(k & Hk & [= E' _])]; [done|].
    discriminate (close_idle n s r _ _ Hn Hv Hi Hk).
Qed.

(** ** Termination *)

(** How far a thread is from the end of its call of the semaphore; a signal is
    worth the round of the thread it wakes. *)
Definition weight (o : option (ThreadPool.pc (T := T))) (x : Semaphore.pc) : nat :=
  match x with
  | Semaphore.Idle =>
      match o with
      | Some ThreadPool.WWait => 6
      | Some ThreadPool.SPost | Some (ThreadPool.MPost _ _) => 13
      | _ => 0
      end
  | Semaphore.WLock | Semaphore.WWake => 5
  | Semaphore.WTest => 4
  | Semaphore.WSleep | Semaphore.WUnlock => 1
  | Semaphore.PLock => 12
  | Semaphore.PCount => 11
  | Semaphore.PSignal => 23
  | Semaphore.PUnlock => 14
  | _ => 0
  end.

Definition weights (P : list (ThreadPool.pc (T := T))) (Q : list Semaphore.pc) : nat :=
  sum_list (imap (fun i => weight (P !! i)) Q).

Definition measure (s : state) : nat :=
  14 * ThreadPool.measure clients (p s) + weights (ThreadPool.threads (p s)) (Semaphore.threads (q s)).

(** A step inside the operations that have been called, spurious wake-ups apart. *)
Definition inner (n : nat) (s' s : state) : Prop :=
  exists e, step s e s' /\ e <> ThreadPool.ECall /\ e <> ThreadPool.EUndefined /\ ~ spurious s s' /\ posts_fit n s'.

(** One thread moves in the semaphore, and perhaps in the pool. *)
Lemma weights_move P P' Q i x y :
  Q !! i = Some x -> (forall j, j <> i -> P' !! j = P !! j) ->
  (weights P' (<[i := y]> Q) + weight (P !! i) x = weights P Q + weight (P' !! i) y)%nat.
Proof.
  intros Hi HP. unfold weights.
  assert (forall f g : nat -> Semaphore.pc -> nat, (forall j, j <> i -> g j = f j) ->
    (sum_list (imap g (<[i := y]> Q)) + f i x = sum_list (imap f Q) + g i y)%nat) as H.
  { clear HP. revert i Hi. induction Q as [|z Q IH]; intros [|i] Hi f g Hfg; simplify_eq/=.
    - assert (sum_list (imap (g ∘ S) Q) = sum_list (imap (f ∘ S) Q)) as ->; [|lia].
      f_equal. apply imap_ext. intros j z _. simpl. by rewrite (Hfg (S j)).
    - rewrite (Hfg 0%nat) by done. pose proof (IH i Hi (f ∘ S) (g ∘ S)) as E.
      assert (forall j, j <> i -> (g ∘ S) j = (f ∘ S) j) as Hs by (intros j Hj; apply Hfg; lia).
      specialize (E Hs). simpl in E. lia. }
  apply (H (fun j => weight (P !! j)) (fun j => weight (P' !! j))). intros j Hj. by rewrite (HP j Hj).
Qed.

(** One thread moves in the pool alone. *)
Lemma weights_pool P P' Q i :
  (forall j, j <> i -> forall x, weight (P' !! j) x = weight (P !! j) x) -> (weights P' Q <= weights P Q + 13)%nat.
Proof.
  intros HP. unfold weights.
  assert (forall f g : nat -> Semaphore.pc -> nat, (forall j x, j <> i -> g j x = f j x) -> (forall x, g i x <= f i x + 13)%nat ->
    (sum_list (imap g Q) <= sum_list (imap f Q) + 13)%nat) as H.
  { clear HP. revert i. induction Q as [|z Q IH]; intros [|i] f g Hfg Hi; simpl; [lia|lia| |].
    - assert (sum_list (imap (g ∘ S) Q) = sum_list (imap (f ∘ S) Q)) as ->; [|specialize (Hi z); lia].
      f_equal. apply imap_ext. intros j x _. simpl. by rewrite (Hfg (S j)).
    - rewrite (Hfg 0%nat) by done.
      assert (sum_list (imap (g ∘ S) Q) <= sum_list (imap (f ∘ S) Q) + 13)%nat; [|lia].
      apply (IH i); [|done]. intros j x Hj. apply Hfg. lia. }
  apply (H (fun j => weight (P !! j)) (fun j => weight (P' !! j))); [auto|]. intros x. unfold weight. destruct x; try lia.
  destruct (P' !! i) as [[]|]; lia.
Qed.

Lemma sem_tau_weights P s s' :
  Semaphore.step s Counter.ETau s' ->
  (forall i, Semaphore.threads s !! i = Some Semaphore.Idle -> Semaphore.threads s' !! i = Some Semaphore.Idle) ->
  (forall j, Semaphore.threads s !! j = Some Semaphore.WSleep -> s' <> Semaphore.wakes s j) ->
  (forall i x, Semaphore.threads s !! i = Some x -> exists w, inside w (P !! i) x) ->
  (weights P (Semaphore.threads s') < weights P (Semaphore.threads s))%nat.
Proof.
  intros Hs Hidle Hsp Hin.
  assert (forall i x y, Semaphore.threads s !! i = Some x -> (weight (P !! i) y < weight (P !! i) x)%nat ->
    (weights P (<[i := y]> (Semaphore.threads s)) < weights P (Semaphore.threads s))%nat) as Hmove.
  { intros i x y Hi Hlt. pose proof (weights_move P P _ i x y Hi (fun _ _ => eq_refl)). lia. }
  inversion Hs as [s0 i c Hi Hc|s0 i c d m Hi Hd Hm|s0 i c d m Hi Hd Hm|s0 i c m Hi H0 Hm| | | |
    |s0 i c Hi Hn Hsg|s0 i j c Hi Hj Hsg|s0 j Hj|]; subst; simpl in *.
  - specialize (Hidle i Hi). rewrite list_lookup_insert_eq in Hidle by (by eapply lookup_lt_Some).
    injection Hidle as ->. done.
  - apply (Hmove i c d Hi). destruct (Hin i c Hi) as [w Hw]. destruct c; simplify_eq/=; (done || lia).
  - apply (Hmove i c d Hi). destruct (Hin i c Hi) as [w Hw]. destruct c; simplify_eq/=; try done.
    + rewrite Hw. simpl. lia.
    + destruct Hw as [->|(r & k & ->)]; simpl; lia.
  - apply (Hmove i _ _ Hi). simpl. lia.
  - apply (Hmove i _ _ Hi). simpl. lia.
  - pose proof (weights_move P P _ j _ Semaphore.WWake Hj (fun _ _ => eq_refl)).
    assert (<[j := Semaphore.WWake]> (Semaphore.threads s) !! i = Some Semaphore.PSignal) as Hi'
      by (rewrite list_lookup_insert_ne; [done|congruence]).
    pose proof (weights_move P P _ i _ Semaphore.PUnlock Hi' (fun _ _ => eq_refl)). simpl in *. lia.
  - by destruct (Hsp j Hj).
Qed.

Lemma pool_weights s e s' Q :
  ThreadPool.layout clients s -> ThreadPool.step (T := T) clients Posix s e s' ->
  (weights (ThreadPool.threads s') Q <= weights (ThreadPool.threads s) Q + 13)%nat.
Proof.
  intros Hl Hs. apply ThreadPool.step_moves in Hs as [(i & x & y & _ & Et & _)|[(k & H0 & ->)|[-> _]]]; [| |lia].
  - apply (weights_pool _ _ _ i). intros j Hj z. by rewrite Et, list_lookup_insert_ne.
  - apply (weights_pool _ _ _ (length (ThreadPool.threads s))). intros j Hj z. simpl.
    destruct (decide (j < length (ThreadPool.threads s))%nat) as [Hlt|Hge].
    + rewrite lookup_app_l by (by rewrite length_insert). destruct j as [|j]; [|by rewrite list_lookup_insert_ne].
      rewrite list_lookup_insert_eq by done. rewrite H0. by destruct z.
    + rewrite !(lookup_ge_None_2 _ j); [done|lia|]. rewrite length_app, length_insert. simpl. lia.
Qed.

(** A thread moves in both: the pool's measure pays for the semaphore's. *)
Lemma both_measure s s' i x y z :
  Semaphore.threads (q s) !! i = Some x -> Semaphore.threads (q s') = <[i := y]> (Semaphore.threads (q s)) ->
  ThreadPool.threads (p s') = <[i := z]> (ThreadPool.threads (p s)) -> is_Some (ThreadPool.threads (p s) !! i) ->
  (weight (Some z) y <= weight (ThreadPool.threads (p s) !! i) x + 13)%nat ->
  (ThreadPool.measure clients (p s') < ThreadPool.measure clients (p s))%nat -> (measure s' < measure s)%nat.
Proof.
  intros Hi Eq Ep Hlt Hw Hm. unfold measure. rewrite Eq, Ep.
  pose proof (weights_move (ThreadPool.threads (p s)) (<[i := z]> (ThreadPool.threads (p s))) _ i x y Hi) as E.
  rewrite list_lookup_insert_eq in E by (by apply lookup_lt_is_Some).
  specialize (E ltac:(intros j Hj; by rewrite list_lookup_insert_ne)). lia.
Qed.

Lemma inner_measure n s s' :
  (0 < n)%nat -> inv n s -> inner n s' s -> (measure s' < measure s)%nat.
Proof.
  intros Hn Hv (e & Hs & He & Hu & Hsp & Hf). pose proof (fit_back _ _ _ _ Hs Hf) as Hf0.
  destruct (step_sim n s e s' Hn Hv Hf0 Hs) as [_ Hsim].
  pose proof (ThreadPool.inv_reachable _ _ _ _ Hn (v_pool _ _ Hv)) as Hvp.
  assert (ThreadPool.threads (p s') <> ThreadPool.threads (p s) \/ e <> ThreadPool.ETau ->
    (ThreadPool.measure clients (p s') < ThreadPool.measure clients (p s))%nat) as Hdown.
  { intros Hne. destruct Hsim as [[-> E]|Hp]; [exfalso; rewrite E in Hne; by destruct Hne|].
    by eapply ThreadPool.measure_step. }
  assert (forall i x y, ThreadPool.threads (p s) !! i = Some x -> y <> x ->
    ThreadPool.threads (p s') = <[i := y]> (ThreadPool.threads (p s)) ->
    (ThreadPool.measure clients (p s') < ThreadPool.measure clients (p s))%nat) as Hmoved.
  { intros i x y Hi Hne E. apply Hdown. left. intros E'. rewrite E in E'. apply Hne.
    assert (<[i := y]> (ThreadPool.threads (p s)) !! i = Some x) as E2 by (by rewrite E').
    rewrite list_lookup_insert_eq in E2 by (by eapply lookup_lt_Some). congruence. }
  destruct Hs as [s e p' Hs Hout Hp Ha|s i x y Hx Hi Hy|s q' Hs Hidle|s i q' Hs Hi|s i q' Hs Hi
    |s r k q' Hs Hi|s r h m sm Hi Hfh H0 Hd Hm|s q' Hs|s r Hi Hd]; try done.
  - pose proof (pool_weights _ _ _ (Semaphore.threads (q s)) (ThreadPool.i_layout _ _ _ Hvp) Hs).
    pose proof (ThreadPool.measure_step _ _ _ _ _ _ Hn Hvp Hs He Hu). unfold measure. cbn [p q]. lia.
  - pose proof (weights_move _ _ _ i _ (enters y) Hi (fun j _ => eq_refl (ThreadPool.threads (p s) !! j))) as E.
    rewrite Hx in E. unfold measure. cbn [p q Semaphore.goes Semaphore.threads].
    assert (weight (Some x) (enters y) < weight (Some x) Semaphore.Idle)%nat; [|lia].
    destruct x; simpl in Hy; try case_decide; simplify_eq/=; lia.
  - assert (weights (ThreadPool.threads (p s)) (Semaphore.threads q') <
      weights (ThreadPool.threads (p s)) (Semaphore.threads (q s)))%nat; [|unfold measure; cbn [p q]; lia].
    apply sem_tau_weights; [exact Hs|exact Hidle| |intros i x Hi; eexists; by apply Hv].
    intros j Hj ->. apply Hsp. by exists j.
  - destruct (acquired_step _ _ _ Hs) as (x & y & Hx & Et & Hxy). pose proof (v_inside _ _ Hv i x Hx) as Hin.
    destruct Hxy as [[-> ->]| ->]; [|done].
    eapply both_measure; [exact Hx|exact Et|reflexivity|by eexists|rewrite Hi; simpl; lia|].
    by eapply Hmoved; [exact Hi| |reflexivity].
  - destruct (posted_step _ _ _ Hs) as [Hx Et].
    eapply both_measure; [exact Hx|exact Et|reflexivity|by eexists|rewrite Hi; simpl; lia|].
    by eapply Hmoved; [exact Hi| |reflexivity].
  - destruct (posted_step _ _ _ Hs) as [Hx Et].
    eapply both_measure; [exact Hx|exact Et|reflexivity|by eexists|rewrite Hi; simpl; lia|].
    eapply Hmoved; [exact Hi| |reflexivity]. intros [= E]. lia.
  - pose proof (ThreadPool.step_close clients Posix (p s) r h m Hi Hfh Hm) as Hstep.
    pose proof (pool_weights _ _ _ (Semaphore.threads (q s)) (ThreadPool.i_layout _ _ _ Hvp) Hstep) as Hw.
    pose proof (ThreadPool.measure_step _ _ _ _ _ _ Hn Hvp Hstep He Hu).
    unfold measure. cbn [p q Semaphore.threads]. lia.
Qed.

Lemma sem_inner_acc n s : (0 < n)%nat -> inv n s -> posts_fit n s -> Acc (inner n) s.
Proof.
  intros Hn. remember (measure s) as k eqn:Ek. revert s Ek.
  induction k as [k IH] using lt_wf_ind. intros s -> Hv Hf. constructor. intros s' Hi.
  pose proof (inner_measure n s s' Hn Hv Hi) as Hlt. destruct Hi as (e & Hs & _ & _ & _ & Hf').
  eapply IH; [exact Hlt|done| |done]. by eapply step_sim.
Qed.

(** ** Properties *)

(** What the composition keeps of the pool over a counter. *)
Record refines (n : nat) (s : state) : Prop := {
  (* the pool is in a state of [ThreadPool], with the permits the semaphore counts *)
  r_pool : ThreadPool.reachable clients Posix n (p s);
  r_count : ThreadPool.sem_alive (p s) = true ->
    Semaphore.s_count (Semaphore.sem (q s)) = Z.of_nat (ThreadPool.permits (p s));
  (* a step is one of the pool, or one inside the semaphore *)
  r_step e s' : step s e s' -> simulates s e s';
  (* nobody is inside the semaphore when it is destroyed *)
  r_close r : ThreadPool.owner_pc (p s) = Some (ThreadPool.MClose r) ->
    (forall i x, Semaphore.threads (q s) !! i = Some x -> x = Semaphore.Idle) /\
    exists sm, Semaphore.d4np_semaphore_destroy (Some (Semaphore.sem (q s))) = Done (Some sm);
  (* nothing is misused but by a submit that overlaps the end of [destroy], when
     no task runs any more *)
  r_undefined s' : step s ThreadPool.EUndefined s' ->
    ThreadPool.released (p s) /\ ThreadPool.all_exited (p s) /\
    exists i x, ThreadPool.threads (p s) !! i = Some x /\ ThreadPool.submitting x
}.

Lemma pool_sem_spec n s : (0 < n)%nat -> reachable n s -> posts_fit n s -> refines n s.
Proof.
  intros Hn Hr Hf. pose proof (reachable_inv n s Hn Hr Hf) as Hv.
  assert (forall e s', step s e s' -> simulates s e s') as Hsim by (intros e s' Hs; by eapply step_sim).
  split; [apply Hv|apply Hv|done| |].
  - intros r Ho. split; [intros i x; by apply (close_idle n s r)|].
    destruct (close_free n s r Hn Hv Ho) as (_ & E & Ec). simpl. rewrite Ec, E. eauto.
  - intros s' Hs. destruct (Hsim _ _ Hs) as [[? _]|Hp]; [done|].
    by eapply ThreadPool.pool_misuse_needs_overlap; [exact Hn|apply Hv|].
Qed.

(** C7. Nothing is forgotten and nobody is stuck, with the real semaphore: in
    a reachable state in which nothing but spurious wake-ups can happen
    without a new call, every client is out of [submit], every accepted task
    has been run to its end, and the owner is not inside [init] or [destroy];
    if the pool is not shut down its workers all sleep in the semaphore, which
    has no permit. *)
Theorem pool_sem_quiescent n s :
  (0 < n)%nat -> reachable n s -> posts_fit n s -> quiescent s ->
  ThreadPool.finished (p s) ≡ₚ ThreadPool.accepted (p s) /\
  (forall i x, ThreadPool.threads (p s) !! i = Some x -> ThreadPool.kind_of x = ThreadPool.Client ->
     x = ThreadPool.SIdle /\ Semaphore.threads (q s) !! i = Some Semaphore.Idle) /\
  ((ThreadPool.owner_pc (p s) = Some ThreadPool.MReady /\ Semaphore.s_count (Semaphore.sem (q s)) = 0%Z /\
    forall i x, ThreadPool.threads (p s) !! i = Some x -> ThreadPool.kind_of x = ThreadPool.Worker ->
      Semaphore.threads (q s) !! i = Some Semaphore.WSleep) \/
   (exists r, ThreadPool.owner_pc (p s) = Some (ThreadPool.MDone r) /\ ThreadPool.all_exited (p s))).
Proof.
  intros Hn Hr Hf Hqs. pose proof (reachable_inv n s Hn Hr Hf) as Hv.
  destruct (quiescent_sem n s Hn Hv Hqs) as (Hpc & Hzero & Hcalls).
  destruct (ThreadPool.pool_quiescent_done clients Posix n (p s) Hn (v_pool _ _ Hv) (quiescent_pool n s Hn Hv Hqs))
    as (Hfin & Hp & Hcl & Hown).
  split; [done|]. split.
  - intros i x Hi Hk. split; [by eapply Hcl|]. pose proof (Hcl i x Hi Hk) as ->.
    destruct (sem_thread n s i _ Hn Hv Hi) as [z Hz]. destruct (Hpc i z Hz) as [->| ->]; [done|].
    pose proof (v_inside _ _ Hv i _ Hz) as Hin. simpl in Hin. congruence.
  - destruct Hown as [[Ho Hw]|Hd]; [left|by right]. split; [done|]. split.
    + pose proof (ThreadPool.open_alive _ _ _ _ _ Hn (v_pool _ _ Hv) Ho eq_refl) as Ha.
      destruct (v_sem _ _ Hv Ha) as [_ ->]. by rewrite Hp.
    + intros i x Hi Hk. pose proof (Hw i x Hi Hk) as ->. by eapply (Hcalls i ThreadPool.WWait).
Qed.

(** C8. Every operation of the pool ends, with the real semaphore: from any
    reachable state there is no infinite run without a new call and without a
    spurious wake-up (the tasks themselves are assumed to return, and the
    posts to fit the counter). *)
Theorem pool_sem_terminates n s :
  (0 < n)%nat -> reachable n s -> posts_fit n s -> Acc (inner n) s.
Proof. intros Hn Hr Hf. apply sem_inner_acc; auto. by apply reachable_inv. Qed.

End composition.

(** ** Witnesses: one worker, one client and a task *)

Section witnesses.

#[local] Ltac step_tidy R :=
  cbn [initial p q ThreadPool.initial ThreadPool.set_threads ThreadPool.goes ThreadPool.with_lock ThreadPool.with_pool
       ThreadPool.with_permits ThreadPool.pool ThreadPool.lock ThreadPool.permits ThreadPool.sem_alive
       ThreadPool.threads ThreadPool.fresh ThreadPool.accepted ThreadPool.started ThreadPool.finished
       ThreadPool.woken ThreadPool.hs ThreadPool.q_head ThreadPool.q_tail ThreadPool.shutting_down ThreadPool.nodes
       ThreadPool.new_node ThreadPool.begin_shutdown ThreadPool.base Semaphore.initial Semaphore.goes
       Semaphore.wakes Semaphore.sem Semaphore.threads Semaphore.s_mutex Semaphore.s_cond Semaphore.s_count
       insert list_insert app replicate Nat.add pred] in R.

#[local] Ltac threads_are :=
  intros i; destruct i as [|[|[|i]]]; simpl; naive_solver.

#[local] Tactic Notation "pool_in" hyp(R) uconstr(c) :=
  eapply (reachable_step (T := nat) 1 1) in R;
  [|eapply step_pool; [eapply c; (reflexivity || (unfold ThreadPool.thread_count; simpl; lia) || done)
                      |unfold outside; threads_are|reflexivity|reflexivity]]; step_tidy R.

#[local] Tactic Notation "sem_in" hyp(R) uconstr(c) :=
  eapply (reachable_step (T := nat) 1 1) in R;
  [|eapply step_inside; [eapply c; reflexivity|threads_are]]; step_tidy R.

#[local] Tactic Notation "both_in" hyp(R) uconstr(c) :=
  eapply (reachable_step (T := nat) 1 1) in R; [|eapply c; reflexivity]; step_tidy R.

(** The client has posted the permit for its task and is about to wake the
    worker that sleeps in [wait]. *)
Definition posted : state (T := nat) :=
  State (ThreadPool.State (ThreadPool.Pool (Some 0%nat) (Some 0%nat) false {[ 0%nat := ThreadPool.TaskNode None 42%nat ]})
           (Mtx None) 1 true [ThreadPool.MReady; ThreadPool.SIdle; ThreadPool.WWait] 1 [42%nat] [] [] 0
           (ThreadPool.Handles 1 (Some 1%nat) 1))
        (Semaphore.State (Semaphore.Sem (Mtx (Some 1%nat)) (Semaphore.Cond 1) 1) [Semaphore.Idle; Semaphore.PSignal; Semaphore.WSleep]).

Lemma posted_reachable : reachable 1 1 posted.
Proof.
  pose proof (reachable_init (T := nat) 1 1) as R. step_tidy R.
  pool_in R (ThreadPool.step_spawn 1 Posix _ 0 0).
  pool_in R (ThreadPool.step_spawned 1 Posix).
  both_in R (step_call 1 _ 2 ThreadPool.WWait).
  sem_in R (Semaphore.step_lock _ 2 Semaphore.WLock).
  sem_in R (Semaphore.step_sleep _ 2).
  pool_in R (ThreadPool.step_submit 1 Posix _ 1 42%nat ThreadPool.MReady).
  pool_in R (ThreadPool.step_submit_alloc 1 Posix _ 1 42%nat).
  pool_in R (ThreadPool.step_lock 1 Posix _ 1 (ThreadPool.SLock 0)).
  pool_in R (ThreadPool.step_submit_enqueue 1 Posix _ 1 0).
  pool_in R (ThreadPool.step_unlock 1 Posix _ 1 ThreadPool.SUnlockOk).
  both_in R (step_call 1 _ 1 ThreadPool.SPost).
  sem_in R (Semaphore.step_lock _ 1 Semaphore.PLock).
  eapply (reachable_step (T := nat) 1 1) in R; [|eapply (step_posted 1 _ 1); [by eapply Semaphore.step_post|reflexivity]].
  step_tidy R. exact R.
Qed.

Lemma pool_sem_terminates_witness : Acc (inner 1 1) posted.
Proof. apply (pool_sem_terminates 1 1 posted); [lia|exact posted_reachable|done]. Defined.

(** The task has run and the worker sleeps again. *)
Definition idle : state (T := nat) :=
  State ThreadPool.idle
        (Semaphore.State (Semaphore.Sem (Mtx None) (Semaphore.Cond 1) 0) [Semaphore.Idle; Semaphore.Idle; Semaphore.WSleep]).

Lemma sem_idle_reachable : reachable 1 1 idle.
Proof.
  pose proof posted_reachable as R. unfold posted in R.
  sem_in R (Semaphore.step_signal _ 1 2).
  sem_in R (Semaphore.step_unlock _ 1 Semaphore.PUnlock).
  sem_in R (Semaphore.step_lock _ 2 Semaphore.WWake).
  eapply (reachable_step (T := nat) 1 1) in R; [|eapply (step_acquired 1 _ 2); [by eapply Semaphore.step_take|reflexivity]].
  step_tidy R.
  sem_in R (Semaphore.step_unlock _ 2 Semaphore.WUnlock).
  pool_in R (ThreadPool.step_lock 1 Posix _ 2 ThreadPool.WLock).
  pool_in R (ThreadPool.step_take 1 Posix _ 2 0).
  pool_in R (ThreadPool.step_unlock 1 Posix _ 2 (ThreadPool.WUnlockRun 0 42%nat)).
  pool_in R (ThreadPool.step_run 1 Posix _ 2 0 42%nat).
  pool_in R (ThreadPool.step_free 1 Posix _ 2 0).
  both_in R (step_call 1 _ 2 ThreadPool.WWait).
  sem_in R (Semaphore.step_lock _ 2 Semaphore.WLock).
  sem_in R (Semaphore.step_sleep _ 2).
  exact R.
Qed.

Lemma sem_idle_quiescent : quiescent 1 idle.
Proof.
  assert (forall i x, Semaphore.threads (q idle) !! i = Some x -> x = Semaphore.Idle \/ x = Semaphore.WSleep) as Hpc.
  { intros [|[|[|i]]] x; simpl; intros [= <-]; auto. }
  intros e s' Hs. inversion Hs as [s e0 p' Hp|s i x y Hx Hi Hy|s q' Hq Hidle|s i q' Hq Hi|s i q' Hq Hi
    |s r k q' Hq Hi|s r h m sm Hi|s q' Hq|s r Hi]; subst; try done.
  - left. by apply (ThreadPool.idle_quiescent e p').
  - exfalso. destruct i as [|[|[|i]]]; by simplify_eq/=.
  - inversion Hq; subst; try (match goal with Ht : Semaphore.threads (q idle) !! _ = Some _ |- _ =>
      destruct (Hpc _ _ Ht) as [E|E]; simplify_eq/=; done end).
    + exfalso. specialize (Hidle i H). simpl in Hidle. rewrite list_lookup_insert_eq in Hidle by (by eapply lookup_lt_Some in H).
      injection Hidle as ->. done.
    + right. by exists j.
  - destruct (acquired_step _ _ _ Hq) as (x & y & Ht & _ & Hxy). destruct (Hpc _ _ Ht) as [-> | ->]; naive_solver.
  - destruct (posted_step _ _ _ Hq) as [Ht _]. by destruct (Hpc _ _ Ht).
  - exfalso. inversion Hq as [| | | | | | | | | | |s0 i x Hi Hu]; subst.
    destruct (Hpc _ _ Hi) as [-> | ->]; by destruct Hu as [[[? ?] _]|[[? _]|[[? _]|[? _]]]].
Qed.

Lemma pool_sem_quiescent_witness :
  ThreadPool.finished (p idle) ≡ₚ ThreadPool.accepted (p idle) /\
  (forall i x, ThreadPool.threads (p idle) !! i = Some x -> ThreadPool.kind_of x = ThreadPool.Client ->
     x = ThreadPool.SIdle /\ Semaphore.threads (q idle) !! i = Some Semaphore.Idle) /\
  ((ThreadPool.owner_pc (p idle) = Some ThreadPool.MReady /\ Semaphore.s_count (Semaphore.sem (q idle)) = 0%Z /\
    forall i x, ThreadPool.threads (p idle) !! i = Some x -> ThreadPool.kind_of x = ThreadPool.Worker ->
      Semaphore.threads (q idle) !! i = Some Semaphore.WSleep) \/
   (exists r, ThreadPool.owner_pc (p idle) = Some (ThreadPool.MDone r) /\ ThreadPool.all_exited (p idle))).
Proof. apply (pool_sem_quiescent 1 1 idle); [lia|exact sem_idle_reachable|done|exact sem_idle_quiescent]. Defined.

End witnesses.
End PoolSemaphore.
