(* ===== verification/PoolSemaphoreWin32.v ===== *)
(** * The thread pool over its semaphore on Windows

    The same composition as [PoolSemaphore] with the Windows branch of
    [semaphore.c], where [wait] and [post] are one call to the kernel each,
    while the rest of the system uses its own handles; and what both
    compositions show of the pool. *)

From S2P Require Import Prelude Status Mutex Counter Win32 Semaphore SemaphoreWin32 ThreadPool PoolSemaphore.
Import Mutex.

Module PoolSemaphoreWin32.

Section composition.
Context {T : Type} `{EqDecision T}.
Variable clients : nat.

(** The pool, and the handle of its semaphore with the system. *)
Record state := State {
  p : ThreadPool.state (T := T);
  q : SemaphoreWin32.state
}.

Definition items (s : state) : option SemaphoreWin32.d4np_semaphore := Some (SemaphoreWin32.sem (q s)).

Definition with_system (s : state) (k : Win32.kernel) : SemaphoreWin32.state :=
  SemaphoreWin32.State (SemaphoreWin32.sem (q s)) k.

Inductive step : state -> ThreadPool.event (T := T) -> state -> Prop :=
  | step_pool s e p' :
      ThreadPool.step clients Win32 (p s) e p' ->
      ThreadPool.permits p' = ThreadPool.permits (p s) -> ThreadPool.sem_alive p' = ThreadPool.sem_alive (p s) ->
      step s e (State p' (q s))
  | step_wait s i k :
      ThreadPool.threads (p s) !! i = Some ThreadPool.WWait ->
      SemaphoreWin32.d4np_semaphore_wait (items s) (SemaphoreWin32.system (q s)) = Done k ->
      step s ThreadPool.ETau
        (State (ThreadPool.goes (ThreadPool.with_permits (p s) (pred (ThreadPool.permits (p s)))) i ThreadPool.WLock)
               (with_system s k))
  | step_post s i k :
      ThreadPool.threads (p s) !! i = Some ThreadPool.SPost ->
      SemaphoreWin32.d4np_semaphore_post (items s) (SemaphoreWin32.system (q s)) = Done k ->
      step s (ThreadPool.ESubmit i D4NP_OK)
        (State (ThreadPool.goes (ThreadPool.with_permits (p s) (S (ThreadPool.permits (p s)))) i ThreadPool.SIdle)
               (with_system s k))
  | step_wake s r j k :
      ThreadPool.threads (p s) !! 0%nat = Some (ThreadPool.MPost r j) -> (j < ThreadPool.thread_count (p s))%nat ->
      SemaphoreWin32.d4np_semaphore_post (items s) (SemaphoreWin32.system (q s)) = Done k ->
      step s ThreadPool.ETau
        (State (ThreadPool.State (ThreadPool.pool (p s)) (ThreadPool.lock (p s)) (S (ThreadPool.permits (p s)))
                  (ThreadPool.sem_alive (p s)) (<[0%nat := ThreadPool.MPost r (S j)]> (ThreadPool.threads (p s)))
                  (ThreadPool.fresh (p s)) (ThreadPool.accepted (p s)) (ThreadPool.started (p s))
                  (ThreadPool.finished (p s)) (S (ThreadPool.woken (p s))) (ThreadPool.hs (p s))) (with_system s k))
  (* the owner frees the array of threads, closes the semaphore's handle and then destroys the lock *)
  | step_close s r h m k :
      ThreadPool.threads (p s) !! 0%nat = Some (ThreadPool.MClose r) ->
      ThreadPool.free_handles r (ThreadPool.hs (p s)) = Some h ->
      SemaphoreWin32.d4np_semaphore_destroy (items s) (SemaphoreWin32.system (q s)) = Done k ->
      d4np_mutex_destroy (Some (ThreadPool.lock (p s))) = Done (Some m) ->
      step s ThreadPool.ETau
        (State (ThreadPool.State (ThreadPool.pool (p s)) m (ThreadPool.permits (p s)) false
                  (<[0%nat := ThreadPool.MDone r]> (ThreadPool.threads (p s)))
                  (ThreadPool.fresh (p s)) (ThreadPool.accepted (p s)) (ThreadPool.started (p s))
                  (ThreadPool.finished (p s)) (ThreadPool.woken (p s)) h) (with_system s k))
  (* the rest of the system *)
  | step_elsewhere s k :
      SemaphoreWin32.elsewhere (SemaphoreWin32.opaque (SemaphoreWin32.sem (q s))) (SemaphoreWin32.system (q s)) k ->
      step s ThreadPool.ETau (State (p s) (with_system s k))
  (* uses of a handle that is closed *)
  | step_undefined s i x c :
      ThreadPool.threads (p s) !! i = Some x -> ThreadPool.calls (ThreadPool.thread_count (p s)) x = Some c ->
      match c with
      | ThreadPool.CWait => SemaphoreWin32.d4np_semaphore_wait (items s) (SemaphoreWin32.system (q s)) = Undefined
      | ThreadPool.CPost => SemaphoreWin32.d4np_semaphore_post (items s) (SemaphoreWin32.system (q s)) = Undefined
      end -> step s ThreadPool.EUndefined s
  | step_undefined_close s r :
      ThreadPool.threads (p s) !! 0%nat = Some (ThreadPool.MClose r) ->
      SemaphoreWin32.d4np_semaphore_destroy (items s) (SemaphoreWin32.system (q s)) = Undefined ->
      step s ThreadPool.EUndefined s.

(** The loop of [init] starts with the semaphore [d4np_semaphore_init] has left. *)
Inductive reachable (n : nat) : state -> Prop :=
  | reachable_init fails s0 k0 sm k :
      Win32.kernel_ok k0 ->
      SemaphoreWin32.d4np_semaphore_init fails (Some s0) 0 k0 = (D4NP_OK, Some sm, k) ->
      reachable n (State (ThreadPool.initial clients n) (SemaphoreWin32.State sm k))
  | reachable_step s e s' : reachable n s -> step s e s' -> reachable n s'.

(** No more posts than the kernel's counter can hold. *)
Definition posts_fit (n : nat) (s : state) : Prop :=
  (Z.of_nat (length (ThreadPool.accepted (p s)) + n) <= Win32.LONG_MAX)%Z.

Record inv (n : nat) (s : state) : Prop := {
  v_pool : ThreadPool.reachable clients Win32 n (p s);
  v_sem : ThreadPool.sem_alive (p s) = true -> SemaphoreWin32.inv (Z.of_nat (ThreadPool.permits (p s))) (q s)
}.

Definition simulates (s : state) (e : ThreadPool.event (T := T)) (s' : state) : Prop :=
  (e = ThreadPool.ETau /\ p s' = p s) \/ ThreadPool.step clients Win32 (p s) e (p s').

(** A call of the semaphore, counted by the pool. *)
Lemma win_both n s e c p' q' :
  inv n s -> ThreadPool.sem_alive (p s) = true -> SemaphoreWin32.step (q s) c q' ->
  (Counter.posts [c] = 1%nat -> (Z.of_nat (ThreadPool.permits (p s)) < Win32.LONG_MAX)%Z) ->
  ThreadPool.step clients Win32 (p s) e p' ->
  Counter.atomic (Z.of_nat (ThreadPool.permits (p s))) c = Some (Z.of_nat (ThreadPool.permits p')) ->
  inv n (State p' q') /\ simulates s e (State p' q').
Proof.
  intros Hv Ha Hs Hb Hp He. destruct (SemaphoreWin32.win_step_ok _ _ _ _ (v_sem _ _ Hv Ha) Hs Hb) as (c' & Hc & He').
  rewrite He in He'. injection He' as <-. split; [|by right].
  split; simpl; [by eapply ThreadPool.reachable_step; [apply Hv|]|done].
Qed.

Lemma win_post_step s k i :
  SemaphoreWin32.d4np_semaphore_post (items s) (SemaphoreWin32.system (q s)) = Done k ->
  SemaphoreWin32.step (q s) (Counter.EPosted i) (with_system s k).
Proof. destruct (q s) as [sm k0] eqn:E. unfold items, with_system. rewrite E. apply SemaphoreWin32.step_post. Qed.

Lemma win_wait_step s k i :
  SemaphoreWin32.d4np_semaphore_wait (items s) (SemaphoreWin32.system (q s)) = Done k ->
  SemaphoreWin32.step (q s) (Counter.EAcquired i) (with_system s k).
Proof. destruct (q s) as [sm k0] eqn:E. unfold items, with_system. rewrite E. apply SemaphoreWin32.step_wait. Qed.

(** The handle is open as long as the pool may use it. *)
Lemma win_live n s :
  inv n s -> ThreadPool.sem_alive (p s) = true ->
  Win32.kernel_ok (SemaphoreWin32.system (q s)) /\
  is_Some (Win32.handles (SemaphoreWin32.system (q s)) !! SemaphoreWin32.opaque (SemaphoreWin32.sem (q s))).
Proof. intros Hv Ha. destruct (v_sem _ _ Hv Ha) as [Hk Hp]. split; [done|]. rewrite (SemaphoreWin32.p_handle _ _ _ Hp). eauto. Qed.

(** Closing it succeeds. *)
Lemma win_destroy n s :
  inv n s -> ThreadPool.sem_alive (p s) = true ->
  exists k, SemaphoreWin32.d4np_semaphore_destroy (items s) (SemaphoreWin32.system (q s)) = Done k.
Proof.
  intros Hv Ha. destruct (win_live n s Hv Ha) as [_ [o Ho]]. simpl. unfold Win32.CloseHandle. rewrite Ho. case_decide; eauto.
Qed.

(** No call uses a closed handle. *)
Lemma win_defined n s i x c :
  (0 < n)%nat -> inv n s -> ThreadPool.threads (p s) !! i = Some x ->
  ThreadPool.calls (ThreadPool.thread_count (p s)) x = Some c ->
  SemaphoreWin32.d4np_semaphore_wait (items s) (SemaphoreWin32.system (q s)) <> Undefined /\
  exists k, SemaphoreWin32.d4np_semaphore_post (items s) (SemaphoreWin32.system (q s)) = Done k.
Proof.
  intros Hn Hv Hi Hc. pose proof (ThreadPool.alive_call _ _ _ _ _ _ _ Hn (v_pool _ _ Hv) Hi Hc) as Ha.
  destruct (win_live n s Hv Ha) as [Hk Hh]. simpl. split.
  - pose proof (Win32.Wait_defined _ Win32.INFINITE _ Hk Hh). by repeat case_match.
  - pose proof (Win32.Release_defined _ _ Hk Hh). unfold Win32.ReleaseSemaphore in *. repeat case_match; simplify_eq; eauto.
Qed.

Lemma win_step_sim n s e s' :
  (0 < n)%nat -> inv n s -> posts_fit n s -> step s e s' -> inv n s' /\ simulates s e s'.
Proof.
  intros Hn Hv Hfit Hs. pose proof (v_pool _ _ Hv) as Hr. unfold posts_fit in Hfit.
  destruct Hs as [s e p' Hs Hp Ha|s i k Hi Hk|s i k Hi Hk|s r j k Hi Hj Hk|s r h m k Hi Hfh Hk Hm|s k Hk|s i x c Hi Hc Hu|s r Hi Hd].
  - split; [|by right]. split; simpl; [by eapply ThreadPool.reachable_step|rewrite Hp, Ha; apply Hv].
  - pose proof (ThreadPool.alive_call _ _ _ _ _ _ _ Hn Hr Hi eq_refl) as Ha.
    destruct (SemaphoreWin32.win_step_ok _ _ _ _ (v_sem _ _ Hv Ha) (win_wait_step s k i Hk)) as (c & _ & He); [done|].
    simpl in He. destruct (ThreadPool.permits (p s)) as [|j] eqn:Ej; [done|].
    eapply win_both; [done|done|exact (win_wait_step s k i Hk)|done|by apply ThreadPool.step_wait|].
    rewrite Ej. simpl. f_equal. lia.
  - pose proof (ThreadPool.permits_room _ _ _ _ _ _ Hn Hr Hi eq_refl).
    eapply win_both; [done| |exact (win_post_step s k i Hk)|intros _; lia|apply ThreadPool.step_submit_post; [done|]|simpl; f_equal; lia];
      by eapply ThreadPool.alive_call.
  - assert (ThreadPool.calls (T := T) (ThreadPool.thread_count (p s)) (ThreadPool.MPost r j) = Some ThreadPool.CPost) as Hcall
      by (simpl; by rewrite decide_True).
    pose proof (ThreadPool.permits_room _ _ _ _ _ _ Hn Hr Hi Hcall).
    eapply win_both; [done| |exact (win_post_step s k 0 Hk)|intros _; lia|apply ThreadPool.step_wake; [done|done|]|simpl; f_equal; lia];
      by eapply ThreadPool.alive_call.
  - pose proof (ThreadPool.step_close clients Win32 (p s) r h m Hi Hfh Hm) as Hstep. split; [|by right].
    split; simpl; [by eapply ThreadPool.reachable_step|done].
  - split; [|by left]. split; [done|]. intros Ha. destruct (v_sem _ _ Hv Ha) as [Hok Hp].
    apply (SemaphoreWin32.elsewhere_private _ _ _ _ Hok Hk Hp).
  - destruct (win_defined n s i x c Hn Hv Hi Hc) as [Hw [k Hk]]. destruct c; [done|congruence].
  - destruct (win_destroy n s Hv) as [k Hk]; [by eapply ThreadPool.open_alive|congruence].
Qed.

Lemma win_fit_back n s e s' : step s e s' -> posts_fit n s' -> posts_fit n s.
Proof.
  unfold posts_fit. intros Hs Hf.
  assert (length (ThreadPool.accepted (p s)) <= length (ThreadPool.accepted (p s')))%nat; [|lia].
  destruct Hs; simpl; try done. by eapply ThreadPool.accepted_grows.
Qed.

Lemma win_reachable_inv n s : (0 < n)%nat -> reachable n s -> posts_fit n s -> inv n s.
Proof.
  intros Hn Hr. induction Hr as [fails s0 k0 sm k Hk Hi|s e s' Hr IH Hs]; intros Hf.
  - split; [constructor|]. intros _. by eapply SemaphoreWin32.win_init_inv.
  - pose proof (win_fit_back _ _ _ _ Hs Hf) as Hb. by eapply win_step_sim; eauto.
Qed.

(** ** Progress *)

(** A step of the rest of the system. *)
Definition rest (s : state) (e : ThreadPool.event (T := T)) (s' : state) : Prop :=
  e = ThreadPool.ETau /\ exists k, s' = State (p s) (with_system s k).

(** Nothing can happen to the pool until a client or the owner makes a new call. *)
Definition quiescent (s : state) : Prop :=
  forall e s', step s e s' -> e = ThreadPool.ECall \/ rest s e s'.

Lemma win_wait_done n s :
  inv n s -> ThreadPool.sem_alive (p s) = true -> ThreadPool.permits (p s) <> 0%nat ->
  exists k, SemaphoreWin32.d4np_semaphore_wait (items s) (SemaphoreWin32.system (q s)) = Done k.
Proof.
  intros Hv Ha Hp. destruct (v_sem _ _ Hv Ha) as [_ [H1 H2 _ _]]. simpl.
  unfold Win32.WaitForSingleObject, Win32.object. rewrite H1. simpl. rewrite H2. simpl.
  destruct (Z.ltb_spec 0 (Z.of_nat (ThreadPool.permits (p s)))); [eauto|lia].
Qed.

Lemma win_quiescent n s : (0 < n)%nat -> inv n s -> quiescent s -> ThreadPool.quiescent clients Win32 (p s).
Proof.
  intros Hn Hv Hqs e p' Hs. pose proof (v_pool _ _ Hv) as Hr.
  assert (forall e1 p1 q1, step s e1 (State p1 q1) -> ThreadPool.step clients Win32 (p s) e1 p1 -> e1 = ThreadPool.ECall) as Hno.
  { intros e1 p1 q1 Hs1 Hp1. destruct (Hqs _ _ Hs1) as [?|(-> & k & [= -> _])]; [done|exfalso].
    pose proof (ThreadPool.measure_step _ _ _ _ _ _ Hn (ThreadPool.inv_reachable _ _ _ _ Hn Hr) Hp1) as Hlt.
    specialize (Hlt ltac:(done) ltac:(done)). lia. }
  destruct (ThreadPool.step_kinds _ _ _ _ _ Hs) as [(Hp & Ha & _)|[(i & Hi & Hp)|[(i & x & Hi & Hx)|(r & h & m & Hi & Hfh & Hm)]]].
  - by eapply Hno; [apply step_pool|].
  - exfalso. pose proof (ThreadPool.alive_call _ _ _ _ _ _ _ Hn Hr Hi eq_refl) as Ha.
    destruct (win_wait_done n s Hv Ha Hp) as [k Hk]. destruct (ThreadPool.permits (p s)) as [|j] eqn:Ej; [done|].
    pose proof (step_wait s i k Hi Hk) as Hs1. rewrite Ej in Hs1.
    discriminate (Hno _ _ _ Hs1 (ThreadPool.step_wait clients Win32 (p s) i j Hi Ha Ej)).
  - exfalso. pose proof (ThreadPool.alive_call _ _ _ _ _ _ _ Hn Hr Hi Hx) as Ha.
    destruct (win_defined n s i x _ Hn Hv Hi Hx) as [_ [k Hk]]. destruct x; simpl in Hx; try done.
    + discriminate (Hno _ _ _ (step_post s i k Hi Hk) (ThreadPool.step_submit_post clients Win32 (p s) i Hi Ha)).
    + case_decide as Hlt; [|done]. assert (i = 0%nat) as ->.
      { eapply ThreadPool.owner_is_0; [|exact Hi|done]. by apply (ThreadPool.inv_reachable _ _ _ _ Hn Hr). }
      discriminate (Hno _ _ _ (step_wake s _ _ k Hi Hlt Hk) (ThreadPool.step_wake clients Win32 (p s) _ _ Hi Hlt Ha)).
  - exfalso. destruct (win_destroy n s Hv) as [k Hk]; [by eapply ThreadPool.open_alive|].
    discriminate (Hno _ _ _ (step_close s r h m k Hi Hfh Hk Hm) (ThreadPool.step_close clients Win32 (p s) r h m Hi Hfh Hm)).
Qed.

(** ** Properties *)

(** What the composition keeps of the pool over a counter. *)
Record refines (n : nat) (s : state) : Prop := {
  (* the pool is in a state of [ThreadPool], with the permits the kernel counts *)
  r_pool : ThreadPool.reachable clients Win32 n (p s);
  r_count : ThreadPool.sem_alive (p s) = true ->
    Win32.object (SemaphoreWin32.opaque (SemaphoreWin32.sem (q s))) (SemaphoreWin32.system (q s)) =
      Some (SemaphoreWin32.opaque (SemaphoreWin32.sem (q s)), Z.of_nat (ThreadPool.permits (p s)));
  (* a step is one of the pool, or one of the rest of the system *)
  r_step e s' : step s e s' -> simulates s e s';
  (* the handle is open when it is closed *)
  r_close r : ThreadPool.owner_pc (p s) = Some (ThreadPool.MClose r) ->
    exists k, SemaphoreWin32.d4np_semaphore_destroy (items s) (SemaphoreWin32.system (q s)) = Done k;
  (* nothing is misused but by a submit that overlaps the end of [destroy], when
     no task runs any more *)
  r_undefined s' : step s ThreadPool.EUndefined s' ->
    ThreadPool.released (p s) /\ ThreadPool.all_exited (p s) /\
    exists i x, ThreadPool.threads (p s) !! i = Some x /\ ThreadPool.submitting x;
  (* nothing keeps the pool from going on but the want of a new call *)
  r_quiescent : quiescent s -> ThreadPool.quiescent clients Win32 (p s)
}.

Lemma pool_win32_spec n s : (0 < n)%nat -> reachable n s -> posts_fit n s -> refines n s.
Proof.
  intros Hn Hr Hf. pose proof (win_reachable_inv n s Hn Hr Hf) as Hv.
  assert (forall e s', step s e s' -> simulates s e s') as Hsim by (intros e s' Hs; by eapply win_step_sim).
  split; [apply Hv| |done| | |by eapply win_quiescent].
  - intros Ha. destruct (v_sem _ _ Hv Ha) as [_ [H1 H2 _ _]]. unfold Win32.object. rewrite H1. simpl. by rewrite H2.
  - intros r Ho. apply (win_destroy n s Hv). by eapply ThreadPool.open_alive; [exact Hn|apply Hv|exact Ho|].
  - intros s' Hs. destruct (Hsim _ _ Hs) as [[? _]|Hp]; [done|].
    by eapply ThreadPool.pool_misuse_needs_overlap; [exact Hn|apply Hv|].
Qed.

(** C6. The pool over its real semaphore behaves as the pool over a counter,
    on both platforms: in every reachable state of the composition the state of
    the pool is one that [ThreadPool] reaches, with as many permits as the
    semaphore counts; every step is a step of that pool with the same event, or
    one that the pool does not see (inside [wait] or [post] on POSIX, of the
    rest of the system on Windows); when the owner releases the pool nobody is
    inside the semaphore any more and its destruction succeeds; and nothing
    undefined happens except to a client that is still inside [submit] when
    [destroy] releases the pool, never to a submit made by a task.  The posts are only bounded by the width of the
    semaphore's counter. *)
Theorem pool_sem_refines n :
  (0 < n)%nat ->
  (forall s : PoolSemaphore.state (T := T), PoolSemaphore.reachable clients n s -> PoolSemaphore.posts_fit n s -> PoolSemaphore.refines clients n s) /\
  (forall s, reachable n s -> posts_fit n s -> refines n s).
Proof. intros Hn. split; intros s; [by apply PoolSemaphore.pool_sem_spec|by apply pool_win32_spec]. Qed.

End composition.

(** ** Witness *)

Section witness.

#[local] Ltac step_tidy R :=
  cbn [p q with_system ThreadPool.initial ThreadPool.set_threads ThreadPool.goes ThreadPool.with_lock ThreadPool.with_pool
       ThreadPool.with_permits ThreadPool.pool ThreadPool.lock ThreadPool.permits ThreadPool.sem_alive
       ThreadPool.threads ThreadPool.fresh ThreadPool.accepted ThreadPool.started ThreadPool.finished
       ThreadPool.woken ThreadPool.hs ThreadPool.q_head ThreadPool.q_tail ThreadPool.shutting_down ThreadPool.nodes
       ThreadPool.new_node ThreadPool.base SemaphoreWin32.sem SemaphoreWin32.system
       insert list_insert app replicate Nat.add pred] in R.

#[local] Tactic Notation "pool_in" hyp(R) uconstr(c) :=
  eapply (reachable_step (T := nat) 1 1) in R;
  [|eapply step_pool; [eapply c; (reflexivity || done)|reflexivity|reflexivity]]; step_tidy R.

(** The client has posted the permit for its task. *)
Definition win_posted : state (T := nat) :=
  State (PoolSemaphore.p PoolSemaphore.posted) (SemaphoreWin32.State (SemaphoreWin32.Sem 0) (SemaphoreWin32.win_kernel 1)).

Lemma win_posted_reachable : reachable 1 1 win_posted.
Proof.
  pose proof (reachable_init (T := nat) 1 1 false (SemaphoreWin32.Sem 7) Win32.boot (SemaphoreWin32.Sem 0)
    (SemaphoreWin32.win_kernel 0) Win32.boot_ok eq_refl) as R. step_tidy R.
  pool_in R (ThreadPool.step_spawn 1 Win32 _ 0 1).
  pool_in R (ThreadPool.step_spawned 1 Win32).
  pool_in R (ThreadPool.step_submit 1 Win32 _ 1 42%nat ThreadPool.MReady).
  pool_in R (ThreadPool.step_submit_alloc 1 Win32 _ 1 42%nat).
  pool_in R (ThreadPool.step_lock 1 Win32 _ 1 (ThreadPool.SLock 0)).
  pool_in R (ThreadPool.step_submit_enqueue 1 Win32 _ 1 0).
  pool_in R (ThreadPool.step_unlock 1 Win32 _ 1 ThreadPool.SUnlockOk).
  eapply (reachable_step (T := nat) 1 1) in R;
    [|eapply (step_post 1 _ 1 (SemaphoreWin32.win_kernel 1)); reflexivity].
  step_tidy R. exact R.
Qed.

Lemma pool_sem_refines_witness :
  PoolSemaphore.refines 1 1 PoolSemaphore.posted /\ refines 1 1 win_posted.
Proof.
  destruct (pool_sem_refines (T := nat) 1 1) as [Hp Hw]; [lia|]. split.
  - apply Hp; [exact PoolSemaphore.posted_reachable|done].
  - apply Hw; [exact win_posted_reachable|done].
Defined.

End witness.
End PoolSemaphoreWin32.
