(* ===== verification/Parse.v ===== *)
(** * Numbers from text ([d4np/str/parse.h], [parse.c])

    [d4np_str_parse_int] against a grammar of integer texts with their exact
    value, and its round trip with a printer; [d4np_str_parse_float], whose
    conversion is the C library's [strtod], a parameter that gives an IEEE
    number, the bytes it has read and the value of [errno] it sets, if any. *)

From Stdlib Require SpecFloat.
From S2P Require Import Prelude Status Memory StrView.
Import StrView.

Local Open Scope Z_scope.

Module Parse.

Definition INT64_MAX : Z := 2 ^ 63 - 1.
Definition INT64_MIN : Z := - 2 ^ 63.

(** [isspace] in the C locale. *)
Definition isspace (c : Z) : bool := (c =? 32) || ((9 <=? c) && (c <=? 13)).

(** ['0'] is 48, ['a'] is 97, ['A'] is 65. *)
Definition digit_value (c : Z) : Z :=
  if (48 <=? c) && (c <=? 57) then c - 48
  else if (97 <=? c) && (c <=? 122) then c - 97 + 10
  else if (65 <=? c) && (c <=? 90) then c - 65 + 10
  else -1.

(** [while (i < n && isspace(p[i])) ++i], with [todo] bytes from [i] to [n]. *)
Definition skip_space (p : ptr) (i : Z) (todo : nat) : M Z := skip_while isspace p i todo.

(** [i < n && p[i] == c] for one of the characters [cs]. *)
Definition char_at (p : ptr) (i n : Z) (cs : list Z) : M bool :=
  if i <? n then c ← load_byte (padd p i); mret (bool_decide (c ∈ cs)) else mret false.

(** The radix and where the digits start. *)
Definition detect_base (p : ptr) (i n base : Z) : M (Z * Z) :=
  if base =? 0 then
    zero ← char_at p i n [48];
    if zero : bool then
      x ← char_at p (i ⊞ 1) n [120; 88];
      if x : bool then mret (16, i ⊞ 2) else mret (8, i)
    else mret (10, i)
  else if (base =? 16) && (i ⊞ 1 <? n) then
    zero ← char_at p i n [48];
    if zero : bool then
      x ← char_at p (i ⊞ 1) n [120; 88];
      if x : bool then mret (base, i ⊞ 2) else mret (base, i)
    else mret (base, i)
  else mret (base, i).

(** The [for] loop; [None] is the return of [D4NP_ERR_OVERFLOW]. *)
Fixpoint digits_loop (p : ptr) (base limit i : Z) (todo : nat) (acc : Z) (any_digit : bool)
  : M (option (Z * Z * bool)) :=
  match todo with
  | O => mret (Some (i, acc, any_digit))
  | S todo =>
      c ← load_byte (padd p i);
      let d := digit_value c in
      if (d <? 0) || (base <=? d) then mret (Some (i, acc, any_digit))
      else if (limit ⊟ d) / base <? acc then mret None
      else digits_loop p base limit (i ⊞ 1) todo (acc ⊠ base ⊞ d) true
  end.

(** An [int64_t] object: two's complement, little-endian. *)
Definition store_i64 (p : ptr) (v : Z) : M unit := store p (Byte <$> le_bytes 8 (wrap v)).

Definition load_i64 (p : ptr) : M Z :=
  bs ← load_bytes p 8;
  let u := le_value bs in mret (if u <? 2 ^ 63 then u else u - 2 ^ 64).

Definition d4np_str_parse_int (sv : d4np_str_view) (base : Z) (out : ptr) : M d4np_status :=
  if is_null out || is_null (sv_ptr sv) then mret D4NP_ERR_INVALID_ARGUMENT
  else if negb (base =? 0) && ((base <? 2) || (36 <? base)) then mret D4NP_ERR_INVALID_ARGUMENT
  else
    let p := sv_ptr sv in
    let n := sv_len sv in
    i ← skip_space p 0 (Z.to_nat n);
    if n <=? i then mret D4NP_ERR_INVALID_ARGUMENT
    else
      c ← load_byte (padd p i);
      let sign := (c =? 43) || (c =? 45) in
      let negative := sign && (c =? 45) in
      let i := if sign then i ⊞ 1 else i in
      '(base, i) ← detect_base p i n base;
      let limit := if negative then INT64_MAX ⊞ 1 else INT64_MAX in
      r ← digits_loop p base limit i (Z.to_nat (n - i)) 0 false;
      match r with
      | None => mret D4NP_ERR_OVERFLOW
      | Some (i, acc, any_digit) =>
          if negb any_digit then mret D4NP_ERR_INVALID_ARGUMENT
          else
            i ← skip_space p i (Z.to_nat (n - i));
            if negb (i =? n) then mret D4NP_ERR_INVALID_ARGUMENT
            else
              store_i64 out (if negative then if acc =? INT64_MAX ⊞ 1 then INT64_MIN else - acc else acc) ;;
              mret D4NP_OK
      end.

(** [while (n > i && isspace(sv.ptr[n - 1])) --n], with [todo] bytes from [i]
    to [n]. *)
Definition trim_end (p : ptr) (n : Z) (todo : nat) : M Z := skip_back isspace p n todo.

Section float.
Import SpecFloat.

Definition ERANGE : Z := 34.

(** A [double] is an IEEE number; [HUGE_VAL] is the positive infinity. *)
Definition HUGE_VAL : spec_float := S754_infinity false.

(** [value >= HUGE_VAL || value <= -HUGE_VAL]. *)
Definition is_huge (value : spec_float) : bool := SFleb HUGE_VAL value || SFleb value (SFopp HUGE_VAL).

(** The C library's conversion: the value, how many bytes of the string it
    has read ([end - buf]), and what it stores in [errno], if it does; and the
    representation of a value. *)
Context (strtod : list Z -> spec_float * nat * option Z) (double_bytes : spec_float -> list Z).

(** [errno] is the calling thread's; the second component is its value after
    the call. *)
Definition d4np_str_parse_float (sv : d4np_str_view) (out : ptr) (errno : Z) : M (d4np_status * Z) :=
  if is_null out || is_null (sv_ptr sv) then mret (D4NP_ERR_INVALID_ARGUMENT, errno)
  else
    i ← skip_space (sv_ptr sv) 0 (Z.to_nat (sv_len sv));
    n ← trim_end (sv_ptr sv) (sv_len sv) (Z.to_nat (sv_len sv - i));
    let len := n ⊟ i in
    if len =? 0 then mret (D4NP_ERR_INVALID_ARGUMENT, errno)
    else if 128 <=? len then mret (D4NP_ERR_INVALID_ARGUMENT, errno)
    else
      src ← load (padd (sv_ptr sv) i) len;
      buf ← array_write 0 src (replicate 128 Undef);
      buf ← array_set len (Byte 0) buf;
      str ← lift_opt (array_string buf);
      let errno := 0 in
      let '(value, consumed, err) := strtod str in
      let errno := default errno err in
      if negb (Z.of_nat consumed =? len) then mret (D4NP_ERR_INVALID_ARGUMENT, errno)
      else if (errno =? ERANGE) && is_huge value then mret (D4NP_ERR_OVERFLOW, errno)
      else store out (Byte <$> double_bytes value) ;; mret (D4NP_OK, errno).

End float.

(** ** The texts of integers *)

Definition is_digit (b : Z) (c : Z) : bool := (0 <=? digit_value c) && (digit_value c <? b).

(** The value of digits after [a]. *)
Definition value (b a : Z) (ds : list Z) : Z := foldl (fun a c => a * b + digit_value c) a ds.

(** What a base means for the text behind the sign. *)
Definition radix (base : Z) (t : list Z) : Z * list Z :=
  match t with
  | c0 :: c1 :: u =>
      if (c0 =? 48) && ((c1 =? 120) || (c1 =? 88)) && ((base =? 0) || (base =? 16)) then (16, u)
      else if base =? 0 then if c0 =? 48 then (8, t) else (10, t) else (base, t)
  | [c0] => if base =? 0 then if c0 =? 48 then (8, t) else (10, t) else (base, t)
  | [] => if base =? 0 then (10, t) else (base, t)
  end.

Definition valid_base (base : Z) : Prop := base = 0 \/ 2 <= base <= 36.

Definition sign_char (c : Z) : bool := (c =? 43) || (c =? 45).

(** [bs] starts with an integer of value [v], as long as there are digits, and
    [rest] follows: white space, a sign, a prefix, digits. *)
Definition int_prefix (base : Z) (bs : list Z) (v : Z) (rest : list Z) : Prop :=
  valid_base base /\
  exists ws sgn t b ds,
    bs = ws ++ sgn ++ t /\ Forall (fun c => isspace c = true) ws /\
    (sgn = [43] \/ sgn = [45] \/ sgn = [] /\ stops sign_char t /\ stops isspace t) /\
    radix base t = (b, ds ++ rest) /\ ds <> [] /\
    Forall (fun c => is_digit b c = true) ds /\ stops (is_digit b) rest /\
    v = if decide (sgn = [45]) then - value b 0 ds else value b 0 ds.

(** The whole of [bs] is an integer, with white space around it. *)
Definition int_text (base : Z) (bs : list Z) (v : Z) : Prop :=
  exists rest, int_prefix base bs v rest /\ Forall (fun c => isspace c = true) rest.

Definition int64 (v : Z) : Prop := INT64_MIN <= v <= INT64_MAX.

(** ** The loops *)

Section loops.
Variables (m : mem) (b : nat) (off : Z) (bs : list Z).
Hypothesis Hl : load_bytes (Ptr b off) (zlen bs) m = Some (bs, m).
Hypothesis Hmax : zlen bs <= PTRDIFF_MAX.

Lemma char_at_run i cs :
  char_at (Ptr b off) (Z.of_nat i) (zlen bs) cs m =
    Some (match bs !! i with Some c => bool_decide (c ∈ cs) | None => false end, m).
Proof.
  unfold char_at, zlen. destruct (Z.ltb_spec (Z.of_nat i) (Z.of_nat (length bs))) as [Hi|Hi].
  - destruct (lookup_lt_is_Some_2 bs i) as [c Hc]; [lia|].
    unfold mbind, M_bind, padd. rewrite (load_byte_at _ _ _ _ _ _ _ Hl Hc). by rewrite Hc.
  - rewrite (proj2 (lookup_ge_None bs i)) by lia. done.
Qed.

Lemma value_mono base a ds : 1 <= base -> 0 <= a -> Forall (fun c => is_digit base c = true) ds -> a <= value base a ds.
Proof.
  intros Hb. revert a. induction ds as [|c ds IH]; intros a Ha Hd; [simpl; unfold value; simpl; lia|].
  apply Forall_cons in Hd as [Hc Hd]. unfold is_digit in Hc. apply andb_true_iff in Hc as [H1 H2].
  unfold value in *. simpl. etrans; [|apply IH; [nia|done]]. nia.
Qed.

(** The test before a digit is appended is exact. *)
Lemma digit_fits base limit a d :
  2 <= base <= 36 -> 0 <= a -> 0 <= d < base -> 2 ^ 62 < limit <= 2 ^ 63 ->
  ((limit ⊟ d) / base <? a) = (limit <? a * base + d).
Proof.
  intros. rewrite size_sub_small by size_lia. apply eq_bool_prop_intro. rewrite !Is_true_true, !Z.ltb_lt.
  split; intros Hlt.
  - apply Z.nle_gt. intros Hle. assert (a <= (limit - d) / base) by (apply Z.div_le_lower_bound; lia). lia.
  - apply Z.div_lt_upper_bound; lia.
Qed.

Lemma digits_stop base limit i acc any :
  acc <= limit ->
  Some (Z.of_nat i, acc, any) =
    if limit <? value base acc [] then None else Some (Z.of_nat (i + 0), value base acc [], any || (0 <? 0)%nat).
Proof.
  intros H. change (value base acc []) with acc. rewrite (proj2 (Z.ltb_ge _ _)) by lia.
  by rewrite Nat.add_0_r, orb_false_r.
Qed.

Lemma digits_loop_run base limit i n acc any :
  2 <= base <= 36 -> 2 ^ 62 < limit <= 2 ^ 63 -> 0 <= acc <= limit -> (i + n = length bs)%nat ->
  let k := prefix_len (is_digit base) (drop i bs) in
  let v := value base acc (take k (drop i bs)) in
  digits_loop (Ptr b off) base limit (Z.of_nat i) n acc any m =
    Some (if limit <? v then None else Some (Z.of_nat (i + k), v, any || (0 <? k)%nat), m).
Proof.
  intros Hb Hlim. revert i acc any. induction n as [|n IH]; intros i acc any Hacc Hi; cbn [digits_loop].
  - rewrite drop_ge by lia. cbn [prefix_len take]. rewrite <- digits_stop by lia. done.
  - destruct (lookup_lt_is_Some_2 bs i) as [c Hc]; [lia|].
    unfold mbind, M_bind, padd. rewrite (load_byte_at _ _ _ _ _ _ _ Hl Hc).
    rewrite (drop_S _ c) by done. cbn [prefix_len]. unfold is_digit at 1 3 5 7.
    destruct (Z.ltb_spec (digit_value c) 0) as [Hd|Hd].
    { rewrite (proj2 (Z.leb_gt 0 (digit_value c))) by lia. cbn [andb orb take]. by rewrite <- digits_stop by lia. }
    rewrite (proj2 (Z.leb_le 0 (digit_value c))) by lia.
    destruct (Z.leb_spec base (digit_value c)) as [Hd'|Hd'].
    { rewrite (proj2 (Z.ltb_ge (digit_value c) base)) by lia. cbn [andb orb take]. by rewrite <- digits_stop by lia. }
    rewrite (proj2 (Z.ltb_lt (digit_value c) base)) by lia. cbn [orb andb]. rewrite digit_fits by lia.
    set (k := prefix_len (is_digit base) (drop (S i) bs)). set (d := digit_value c) in *. cbn [take].
    assert (value base acc (c :: take k (drop (S i) bs)) = value base (acc * base + d) (take k (drop (S i) bs))) as -> by done.
    destruct (Z.ltb_spec limit (acc * base + d)) as [Hbig|Hok].
    + assert (Forall (fun c => is_digit base c = true) (take k (drop (S i) bs))) as Hds.
      { destruct (prefix_len_split (is_digit base) (drop (S i) bs)) as (x & r & E & Hk & Hf & _). unfold k.
        rewrite <- Hk. rewrite E, take_app_length. done. }
      pose proof (value_mono base (acc * base + d) _ ltac:(lia) ltac:(nia) Hds).
      by rewrite (proj2 (Z.ltb_lt _ _)) by lia.
    + assert (0 <= acc * base) by nia.
      rewrite size_mul_small by size_lia. rewrite (size_add_small (acc * base)) by size_lia.
      unfold zlen in *. rewrite size_add_small by size_lia.
      replace (Z.of_nat i + 1) with (Z.of_nat (S i)) by lia. rewrite IH by lia. fold k.
      rewrite orb_true_r. simpl. by rewrite <- Nat.add_succ_comm.
Qed.

Lemma detect_base_run base i :
  (i <= length bs)%nat ->
  exists i' b', detect_base (Ptr b off) (Z.of_nat i) (zlen bs) base m = Some ((b', Z.of_nat i'), m) /\
    (i <= i' <= length bs)%nat /\ radix base (drop i bs) = (b', drop i' bs).
Proof.
  intros Hi. unfold zlen in Hmax.
  assert (Z.of_nat i ⊞ 1 = Z.of_nat (S i)) as E1 by (rewrite size_add_small by size_lia; lia).
  assert (drop i bs = match bs !! i, bs !! S i with
    | Some c0, Some c1 => c0 :: c1 :: drop (S (S i)) bs
    | Some c0, None => [c0] | None, _ => [] end) as Ed.
  { destruct (bs !! i) as [c0|] eqn:H0; [|by apply drop_ge, lookup_ge_None].
    rewrite (drop_S _ c0) by done. destruct (bs !! S i) as [c1|] eqn:H1; [by rewrite (drop_S _ c1)|].
    f_equal. by apply drop_ge, lookup_ge_None. }
  assert (bs !! S i <> None -> Z.of_nat i ⊞ 2 = Z.of_nat (S (S i)) /\ (S (S i) <= length bs)%nat) as E2.
  { intros [c Hc]%not_eq_None_Some. apply lookup_lt_Some in Hc. rewrite size_add_small by size_lia. lia. }
  unfold detect_base, mbind, M_bind. rewrite E1.
  assert ((Z.of_nat (S i) <? zlen bs) = match bs !! S i with Some _ => true | None => false end) as E3.
  { unfold zlen. destruct (bs !! S i) eqn:H1.
    - apply lookup_lt_Some in H1. apply Z.ltb_lt. lia.
    - apply lookup_ge_None in H1. apply Z.ltb_ge. lia. }
  rewrite E3. unfold radix. rewrite Ed.
  assert (forall c, bool_decide (c ∈ [48]) = (c =? 48)) as Ez
    by (intros c; case_bool_decide; symmetry; [apply Z.eqb_eq|apply Z.eqb_neq]; set_solver).
  assert (forall c, bool_decide (c ∈ [120; 88]) = (c =? 120) || (c =? 88)) as Ex.
  { intros c. case_bool_decide; symmetry; [apply orb_true_iff; rewrite !Z.eqb_eq|
      apply orb_false_iff; rewrite !Z.eqb_neq]; set_solver. }
  destruct (bs !! i) as [c0|] eqn:H0, (bs !! S i) as [c1|] eqn:H1;
    destruct (Z.eqb_spec base 0) as [->|Hb0]; try (destruct (Z.eqb_spec base 16) as [->|Hb16]); cbn [andb orb];
    rewrite ?char_at_run, ?H0, ?Ez; try (destruct (c0 =? 48)); cbn [andb orb];
    rewrite ?char_at_run, ?H1, ?Ex; try (destruct ((c1 =? 120) || (c1 =? 88))); cbn [andb orb].
  all: try (destruct E2 as [-> ?]; [done|]; exists (S (S i)); eexists; split; [reflexivity|]; split; [lia|done]).
  all: exists i; eexists; split; [reflexivity|]; split; [lia|]; by rewrite Ed.
Qed.

End loops.

(** ** A text has one reading *)

Definition split_sign (r : list Z) : list Z * list Z :=
  match r with c :: t => if sign_char c then ([c], t) else ([], r) | [] => ([], []) end.

Definition signed (sgn : list Z) (v : Z) : Z := if decide (sgn = [45]) then - v else v.

Lemma split_sign_spec sgn t :
  sgn = [43] \/ sgn = [45] \/ sgn = [] /\ stops sign_char t /\ stops isspace t ->
  split_sign (sgn ++ t) = (sgn, t) /\ stops isspace (sgn ++ t).
Proof.
  intros [->|[->|(-> & Hs & Hsp)]]; [split; [done|]; by intros x [= <-]..|].
  split; [|done]. destruct t as [|c t]; [done|]. simpl. by rewrite (Hs c eq_refl).
Qed.

Lemma int_prefix_iff base ws r0 sgn t b ds rest v rest' :
  valid_base base -> Forall (fun c => isspace c = true) ws -> stops isspace r0 ->
  split_sign r0 = (sgn, t) -> radix base t = (b, ds ++ rest) ->
  Forall (fun c => is_digit b c = true) ds -> stops (is_digit b) rest ->
  int_prefix base (ws ++ r0) v rest' <-> ds <> [] /\ rest' = rest /\ v = signed sgn (value b 0 ds).
Proof.
  intros Hb Hws Hr0 Hsg Hrx Hds Hrest. split.
  - intros (_ & ws' & sgn' & t' & b' & ds' & E & Hws' & Hs' & Hrx' & Hne & Hds' & Hrest' & ->).
    destruct (split_sign_spec _ _ Hs') as [Hsp Hst].
    destruct (prefix_unique _ _ _ _ _ E Hws Hr0 Hws' Hst) as [-> ->].
    rewrite Hsp in Hsg. injection Hsg as -> ->. rewrite Hrx in Hrx'. injection Hrx' as -> E'.
    destruct (prefix_unique _ _ _ _ _ E' Hds Hrest Hds' Hrest') as [-> ->]. done.
  - intros (Hne & -> & ->). split; [done|]. exists ws, sgn, t, b, ds.
    assert (r0 = sgn ++ t /\ (sgn = [43] \/ sgn = [45] \/ sgn = [] /\ stops sign_char t /\ stops isspace t)) as [-> Hs].
    { unfold split_sign in Hsg. destruct r0 as [|c r0]; [injection Hsg as <- <-; split; [done|]; by do 2 right|].
      destruct (sign_char c) eqn:Hc; injection Hsg as <- <-; split; auto.
      - unfold sign_char in Hc. apply orb_true_iff in Hc as [->%Z.eqb_eq| ->%Z.eqb_eq]; auto.
      - do 2 right. split_and!; auto. by intros x [= <-]. }
    split_and!; auto.
Qed.

(** ** The result *)

Lemma store_i64_run m out v :
  valid m out 8 -> int64 v ->
  wp (store_i64 out v) m (fun _ m' => load_i64 out m' = Some (v, m') /\ only [out] m m').
Proof.
  intros (b & off & blk & -> & Hb & Ho & Hl) Hv.
  set (cs := Byte <$> le_bytes 8 (wrap v)).
  assert (zlen cs = 8) as Hz by (unfold cs; by rewrite zlen_fmap, <- (length_le_bytes 8 (wrap v))).
  eapply wp_store; [exact Hb|done|fold cs; lia|]. split; [|by eapply only_write, list_elem_of_here].
  unfold load_i64, mbind, M_bind. fold cs.
  assert (load_bytes (Ptr b off) 8 (mem_write b off cs m) = Some (le_bytes 8 (wrap v), mem_write b off cs m)) as ->.
  { apply load_bytes_load. fold cs. rewrite <- Hz at 1. eapply load_after_write; [exact Hb|lia|lia]. }
  rewrite le_value_bytes. change (256 ^ Z.of_nat 8) with SIZE_MOD.
  pose proof (wrap_bound v). rewrite Z.mod_small by done. unfold int64, INT64_MIN, INT64_MAX in Hv.
  unfold mret, M_ret. do 2 f_equal. unfold wrap. destruct (Z.ltb_spec (v mod SIZE_MOD) (2 ^ 63)) as [Hlt|Hge].
  - destruct (Z.le_gt_cases 0 v) as [Hp|Hn]; [by apply Z.mod_small; size_lia|].
    exfalso. rewrite <- (Z.mod_add v 1), Z.mod_small in Hlt by size_lia. size_lia.
  - destruct (Z.le_gt_cases 0 v) as [Hp|Hn]; [rewrite Z.mod_small in Hge by size_lia; size_lia|].
    rewrite <- (Z.mod_add v 1), Z.mod_small by size_lia. size_lia.
Qed.

Lemma value_nonneg b ds : 1 <= b -> Forall (fun c => is_digit b c = true) ds -> 0 <= value b 0 ds.
Proof. intros. apply value_mono; auto; lia. Qed.

Lemma radix_base base t b u : valid_base base -> radix base t = (b, u) -> 2 <= b <= 36.
Proof.
  unfold valid_base, radix. intros Hb Hr.
  destruct t as [|c0 [|c1 t]]; repeat case_match; simplify_eq/=;
    repeat match goal with H : (_ =? _) = true |- _ => apply Z.eqb_eq in H
                         | H : (_ =? _) = false |- _ => apply Z.eqb_neq in H end; lia.
Qed.

(** The signed value is in range exactly when the digits pass the limit. *)
Lemma limit_int64 sgn w :
  0 <= w -> int64 (signed sgn w) <-> w <= (if decide (sgn = [45]) then INT64_MAX ⊞ 1 else INT64_MAX).
Proof.
  intros Hw. unfold int64, signed. change (INT64_MAX ⊞ 1) with (2 ^ 63). unfold INT64_MIN, INT64_MAX.
  case_decide; size_lia.
Qed.

(** What each status says of the text. *)
Definition parse_post (base : Z) (bs : list Z) (out : ptr) (m : mem) (st : d4np_status) (m' : mem) : Prop :=
  match st with
  | D4NP_OK => exists v, int_text base bs v /\ int64 v /\ load_i64 out m' = Some (v, m') /\ only [out] m m'
  | D4NP_ERR_OVERFLOW => m' = m /\ exists v rest, int_prefix base bs v rest /\ ~ int64 v /\
      forall v', int_text base bs v' -> v' = v
  | D4NP_ERR_INVALID_ARGUMENT => m' = m /\ forall v, ~ int_text base bs v
  | _ => False
  end.

(** The one reading of the text: the digits [ds] with value [w], then [rest]. *)
Definition reads (base : Z) (bs ds rest : list Z) (v : Z) : Prop :=
  forall v' rest', int_prefix base bs v' rest' <-> ds <> [] /\ rest' = rest /\ v' = v.

(** Behind the digits. *)
Lemma parse_trailer m b off bs base i out sgn ds rest w :
  load_bytes (Ptr b off) (zlen bs) m = Some (bs, m) -> zlen bs <= PTRDIFF_MAX -> valid m out 8 ->
  (i <= length bs)%nat -> drop i bs = rest -> ds <> [] -> reads base bs ds rest (signed sgn w) ->
  int64 (signed sgn w) ->
  wp (i ← skip_space (Ptr b off) (Z.of_nat i) (Z.to_nat (zlen bs - Z.of_nat i));
      if negb (i =? zlen bs) then mret D4NP_ERR_INVALID_ARGUMENT
      else
        store_i64 out (if bool_decide (sgn = [45]) then if w =? INT64_MAX ⊞ 1 then INT64_MIN else - w else w) ;;
        mret D4NP_OK) m (parse_post base bs out m).
Proof.
  intros Hl Hmax Hout Hi Er Hne Hint Hr. wp_bind.
  replace (Z.to_nat (zlen bs - Z.of_nat i)) with (length bs - i)%nat by (unfold zlen; lia).
  eapply wp_run; [apply (skip_while_run isspace m b off bs Hl Hmax); lia|]. rewrite Er.
  assert (length rest = length bs - i)%nat as Hlen by (rewrite <- Er; apply length_drop).
  destruct (prefix_len_split isspace rest) as (sp & more & Es & Hsp & Hfs & Hst). rewrite <- Hsp.
  assert ((Z.of_nat (i + length sp) =? zlen bs) = bool_decide (more = [])) as ->.
  { assert (length rest = length sp + length more)%nat by (by rewrite Es, length_app). unfold zlen.
    case_bool_decide as Hm; [apply Z.eqb_eq|apply Z.eqb_neq]; [subst more; simpl in *; lia|]. destruct more; [done|simpl in *; lia]. }
  destruct (decide (more = [])) as [Hm|Hm]; [rewrite bool_decide_eq_true_2 by done|rewrite bool_decide_eq_false_2 by done];
    cbn [negb].
  2: { wp_ret. split; [done|]. intros v (r' & (_ & -> & _)%Hint & Hf). destruct more as [|c more]; [done|].
       rewrite Es in Hf. apply Forall_app in Hf as [_ Hf]. apply Forall_cons in Hf as [Hf _].
       by rewrite (Hst c eq_refl) in Hf. }
  assert ((if bool_decide (sgn = [45]) then if w =? INT64_MAX ⊞ 1 then INT64_MIN else - w else w) = signed sgn w) as ->.
  { unfold signed. case_bool_decide; [rewrite decide_True by done|by rewrite decide_False].
    change (INT64_MAX ⊞ 1) with (2 ^ 63). by destruct (Z.eqb_spec w (2 ^ 63)) as [->|]. }
  wp_bind. eapply wp_mono; [by apply store_i64_run|]. intros _ m' [Hld Ho]. wp_ret.
  exists (signed sgn w). split; [|done]. exists rest. split; [by apply Hint|].
  subst more. by rewrite app_nil_r in Es; rewrite Es.
Qed.

(** Everything behind the sign: the digits, what follows them, the result. *)
Lemma parse_tail m b off bs base i out ws r0 sgn t neg :
  load_bytes (Ptr b off) (zlen bs) m = Some (bs, m) -> zlen bs <= PTRDIFF_MAX -> valid m out 8 ->
  valid_base base -> bs = ws ++ r0 -> Forall (fun c => isspace c = true) ws -> stops isspace r0 ->
  split_sign r0 = (sgn, t) -> drop i bs = t -> (i <= length bs)%nat -> neg = bool_decide (sgn = [45]) ->
  wp ('(base, i) ← detect_base (Ptr b off) (Z.of_nat i) (zlen bs) base;
      let limit := if neg : bool then INT64_MAX ⊞ 1 else INT64_MAX in
      r ← digits_loop (Ptr b off) base limit i (Z.to_nat (zlen bs - i)) 0 false;
      match r with
      | None => mret D4NP_ERR_OVERFLOW
      | Some (i, acc, any_digit) =>
          if negb any_digit then mret D4NP_ERR_INVALID_ARGUMENT
          else
            i ← skip_space (Ptr b off) i (Z.to_nat (zlen bs - i));
            if negb (i =? zlen bs) then mret D4NP_ERR_INVALID_ARGUMENT
            else
              store_i64 out (if neg then if acc =? INT64_MAX ⊞ 1 then INT64_MIN else - acc else acc) ;;
              mret D4NP_OK
      end) m (parse_post base bs out m).
Proof.
  intros Hl Hmax Hout Hb E Hws Hr0 Hsg Hd Hi ->.
  destruct (detect_base_run m b off bs Hl Hmax base i Hi) as (i' & b' & Ed & Hi' & Hrx).
  wp_bind. eapply wp_run; [exact Ed|]. cbv beta iota. rewrite Hd in Hrx.
  pose proof (radix_base _ _ _ _ Hb Hrx) as Hb'.
  destruct (prefix_len_split (is_digit b') (drop i' bs)) as (ds & rest & Eu & Hk & Hds & Hrest).
  pose proof (value_nonneg b' ds ltac:(lia) Hds) as Hv0. rewrite Eu in Hrx.
  assert (reads base bs ds rest (signed sgn (value b' 0 ds))) as Hint
    by (intros v' rest'; rewrite E; by apply int_prefix_iff with t).
  pose proof (limit_int64 sgn (value b' 0 ds) Hv0) as Hlim.
  set (limit := if decide (sgn = [45]) then INT64_MAX ⊞ 1 else INT64_MAX) in *.
  assert ((if bool_decide (sgn = [45]) then INT64_MAX ⊞ 1 else INT64_MAX) = limit) as El
    by (unfold limit; by case_bool_decide; [rewrite decide_True|rewrite decide_False]).
  assert (2 ^ 62 < limit <= 2 ^ 63) as Hlr by (unfold limit; case_decide; done).
  replace (Z.to_nat (zlen bs - Z.of_nat i')) with (length bs - i')%nat by (unfold zlen; lia).
  pose proof (digits_loop_run m b off bs Hl Hmax b' limit i' (length bs - i') 0 false Hb' Hlr ltac:(lia) ltac:(lia)) as Hdl.
  cbv zeta in Hdl. rewrite Eu, prefix_len_app, take_app_length in Hdl by done.
  wp_bind. cbv zeta. rewrite El. clear El. eapply wp_run; [exact Hdl|].
  destruct (Z.ltb_spec limit (value b' 0 ds)) as [Hov|Hok].
  { wp_ret. split; [done|]. exists (signed sgn (value b' 0 ds)), rest.
    assert (ds <> []) by (intros ->; unfold value in *; simpl in *; lia).
    split; [by apply Hint|]. split; [rewrite Hlim; lia|]. by intros v' (r' & (_ & _ & ->)%Hint & _). }
  simpl orb. destruct (decide (ds = [])) as [->|Hne].
  { simpl. wp_ret. split; [done|]. by intros v (r' & (? & _)%Hint & _). }
  assert ((0 <? length ds)%nat = true) as -> by (destruct ds; [done|reflexivity]). cbn [negb].
  assert (length ds + length rest = length bs - i')%nat as Hlen
    by (rewrite <- length_app, <- Eu; apply length_drop).
  eapply parse_trailer; eauto; [lia| |by apply Hlim]. by rewrite <- drop_drop, Eu, drop_app_length.
Qed.

Lemma parse_int_spec m sv bs base out :
  view_bytes m sv bs -> zlen bs <= PTRDIFF_MAX -> valid m out 8 ->
  wp (d4np_str_parse_int sv base out) m (parse_post base bs out m).
Proof.
  intros Hv Hmax Hout. destruct sv as [p n]. unfold view_bytes in Hv. simpl in Hv.
  destruct (load_bytes_zlen _ _ _ _ Hv) as [_ <-]. destruct p as [|b off]; [done|].
  assert (is_null out = false) as Hon by (by destruct Hout as (? & ? & ? & -> & _)).
  unfold d4np_str_parse_int. rewrite Hon. cbn [sv_ptr sv_len is_null orb].
  destruct (negb (base =? 0) && ((base <? 2) || (36 <? base))) eqn:Hbase.
  { wp_ret. split; [done|]. intros v (rest & (Hb & _) & _). unfold valid_base in Hb.
    destruct (Z.eqb_spec base 0), (Z.ltb_spec base 2), (Z.ltb_spec 36 base); simpl in *; try done; lia. }
  assert (valid_base base) as Hb.
  { unfold valid_base. destruct (Z.eqb_spec base 0), (Z.ltb_spec base 2), (Z.ltb_spec 36 base); simpl in *; try done; lia. }
  wp_bind. replace (Z.to_nat (zlen bs)) with (length bs) by (unfold zlen; lia).
  eapply wp_run; [apply (skip_while_run isspace m b off bs Hv Hmax 0); lia|]. rewrite drop_0, Nat.add_0_l.
  destruct (prefix_len_split isspace bs) as (ws & r0 & E & Hk & Hws & Hr0). rewrite <- Hk.
  assert (length bs = length ws + length r0)%nat as Hlen by (by rewrite E, length_app).
  destruct r0 as [|c r1].
  { rewrite (proj2 (Z.leb_le _ _)) by (unfold zlen; simpl in *; lia). wp_ret. split; [done|].
    assert (radix base [] = (if base =? 0 then 10 else base, [] ++ [])) as Hrx by (unfold radix; by destruct (base =? 0)).
    intros v (rest & Hp & _). rewrite E in Hp.
    by apply (int_prefix_iff base ws [] [] [] (if base =? 0 then 10 else base) [] []) in Hp as (? & _). }
  rewrite (proj2 (Z.leb_gt _ _)) by (unfold zlen; simpl in *; lia).
  assert (bs !! length ws = Some c) as Hc by (rewrite E; by apply list_lookup_middle).
  wp_bind. eapply wp_run; [by apply (load_byte_at b off (zlen bs) m bs (length ws) c)|]. cbv zeta.
  assert (drop (length ws) bs = c :: r1) as Hd by (by rewrite E, drop_app_length).
  destruct ((c =? 43) || (c =? 45)) eqn:Hs.
  - assert (Z.of_nat (length ws) ⊞ 1 = Z.of_nat (S (length ws))) as ->
      by (unfold zlen in Hmax; simpl in Hlen; rewrite size_add_small by size_lia; lia).
    eapply (parse_tail m b off bs base (S (length ws)) out ws (c :: r1) [c] r1); auto.
    + simpl. unfold sign_char. by rewrite Hs.
    + rewrite (drop_S bs c) in Hd by done. by injection Hd.
    + simpl in Hlen. lia.
    + cbn [andb]. case_bool_decide as Hx; [injection Hx as ->; done|]. apply Z.eqb_neq. congruence.
  - eapply (parse_tail m b off bs base (length ws) out ws (c :: r1) [] (c :: r1)); auto.
    + simpl. unfold sign_char. by rewrite Hs.
    + lia.
Qed.

(** ** Printing *)

Definition digit_char (d : Z) : Z := if d <? 10 then 48 + d else 87 + d.

Fixpoint print_digits (fuel : nat) (b v : Z) : list Z :=
  match fuel with
  | O => []
  | S fuel => if v <? b then [digit_char v] else print_digits fuel b (v / b) ++ [digit_char (v mod b)]
  end.

(** Sixty-four digits are enough for 64 bits in any base. *)
Definition print_int (b v : Z) : list Z :=
  if v <? 0 then 45 :: print_digits 64 b (- v) else print_digits 64 b v.

Lemma digit_char_value d : 0 <= d < 36 -> digit_value (digit_char d) = d.
Proof.
  intros. unfold digit_char, digit_value.
  repeat first [ match goal with |- context [?a <? ?b] => destruct (Z.ltb_spec a b) end
               | match goal with |- context [?a <=? ?b] => destruct (Z.leb_spec a b) end ]; simpl; lia.
Qed.

Lemma digit_char_digit b d : 0 <= d < b -> b <= 36 -> is_digit b (digit_char d) = true.
Proof.
  intros. unfold is_digit. rewrite digit_char_value by lia.
  apply andb_true_iff. rewrite Z.leb_le, Z.ltb_lt. lia.
Qed.

Lemma print_digits_spec b n v :
  2 <= b <= 36 -> 0 <= v < 2 ^ Z.of_nat (S n) ->
  let ds := print_digits (S n) b v in
  ds <> [] /\ (length ds <= S n)%nat /\ Forall (fun c => is_digit b c = true) ds /\ value b 0 ds = v.
Proof.
  intros Hb. revert v. induction n as [|n IH]; intros v Hv ds; unfold ds; clear ds.
  - change (2 ^ Z.of_nat 1) with 2 in Hv. cbn [print_digits]. rewrite (proj2 (Z.ltb_lt _ _)) by lia.
    split; [done|]. split; [done|]. split; [by apply Forall_singleton, digit_char_digit; lia|].
    unfold value. simpl. apply digit_char_value. lia.
  - cbn [print_digits]. destruct (Z.ltb_spec v b) as [Hlt|Hge].
    { split; [done|]. split; [simpl; lia|]. split; [by apply Forall_singleton, digit_char_digit; lia|].
      unfold value. simpl. apply digit_char_value. lia. }
    assert (0 <= v / b < 2 ^ Z.of_nat (S n)) as Hq.
    { rewrite (Nat2Z.inj_succ (S n)), Z.pow_succ_r in Hv by lia.
      split; [apply Z.div_pos; lia|]. apply Z.div_lt_upper_bound; nia. }
    pose proof (Z.mod_pos_bound v b ltac:(lia)) as Hr.
    destruct (IH _ Hq) as (_ & Hlen & Hf & Hval). cbn [print_digits] in Hlen, Hf, Hval.
    split; [by intros [_ ?]%app_nil|]. split; [rewrite length_app; simpl in *; lia|].
    split; [apply Forall_app; split; [done|by apply Forall_singleton, digit_char_digit; lia]|].
    unfold value in *. rewrite foldl_app, Hval. simpl. rewrite digit_char_value by lia.
    pose proof (Z.div_mod v b ltac:(lia)). lia.
Qed.

Lemma is_digit_plain b c : is_digit b c = true -> sign_char c = false /\ isspace c = false.
Proof.
  intros H. assert (0 <= digit_value c) as Hd.
  { unfold is_digit in H. apply andb_true_iff in H as [H _]. by apply Z.leb_le. }
  assert (48 <= c) as Hc.
  { apply Z.nlt_ge. intros Hc. unfold digit_value in Hd.
    rewrite (proj2 (Z.leb_gt 48 c)), (proj2 (Z.leb_gt 97 c)), (proj2 (Z.leb_gt 65 c)) in Hd by lia. simpl in Hd. lia. }
  unfold sign_char, isspace. rewrite (proj2 (Z.eqb_neq c 43)), (proj2 (Z.eqb_neq c 45)), (proj2 (Z.eqb_neq c 32)) by lia.
  rewrite (proj2 (Z.leb_gt c 13)) by lia. by rewrite andb_false_r.
Qed.

Lemma radix_digits b ds : 2 <= b <= 36 -> Forall (fun c => is_digit b c = true) ds -> radix b ds = (b, ds).
Proof.
  intros Hb Hf. unfold radix. rewrite (proj2 (Z.eqb_neq b 0)) by lia.
  destruct ds as [|c0 [|c1 ds]]; [done..|]. destruct (Z.eqb_spec b 16) as [->|]; [|by rewrite andb_false_r].
  apply Forall_cons in Hf as [_ [Hc _]%Forall_cons].
  destruct (Z.eqb_spec c1 120) as [->|]; [done|]. destruct (Z.eqb_spec c1 88) as [->|]; [done|].
  by rewrite andb_false_r.
Qed.

Lemma print_int_text b v : 2 <= b <= 36 -> int64 v -> int_text b (print_int b v) v.
Proof.
  intros Hb Hv. unfold int64, INT64_MIN, INT64_MAX in Hv.
  assert (0 <= Z.abs v < 2 ^ Z.of_nat 64) as Habs by (change (2 ^ Z.of_nat 64) with (2 ^ 64); size_lia).
  destruct (print_digits_spec b 63 (Z.abs v) Hb Habs) as (Hne & _ & Hf & Hval).
  set (ds := print_digits 64 b (Z.abs v)) in *.
  assert (stops (is_digit b) []) as Hnil by done.
  assert (stops sign_char ds /\ stops isspace ds) as [Hs1 Hs2].
  { destruct ds as [|c ds]; [done|]. apply Forall_cons in Hf as [Hc _].
    apply is_digit_plain in Hc as [??]. split; intros x [= <-]; done. }
  exists []. split; [|done]. split; [by right|]. unfold print_int. destruct (Z.ltb_spec v 0) as [Hn|Hp].
  - exists [], [45], ds, b, ds. rewrite app_nil_r.
    replace (- v) with (Z.abs v) by lia. fold ds. split_and!; auto; [by apply radix_digits|].
    rewrite decide_True by done. lia.
  - exists [], [], ds, b, ds. rewrite app_nil_r.
    replace v with (Z.abs v) at 1 by lia. fold ds. split_and!; auto; [by apply radix_digits|].
    rewrite decide_False by done. lia.
Qed.

Lemma int_text_unique base bs v v' : int_text base bs v -> int_text base bs v' -> v = v'.
Proof.
  intros (rest & (Hb & ws & sgn & t & b & ds & -> & Hws & Hs & Hrx & Hne & Hds & Hrest & ->) & _) (rest' & Hp & _).
  destruct (split_sign_spec _ _ Hs) as [Hsp Hst].
  by apply (int_prefix_iff base ws (sgn ++ t) sgn t b ds rest) in Hp as (_ & _ & ->).
Qed.

(** ** Trimming *)

(** [tok] is [bs] without the white space around it. *)
Definition trimmed (bs tok : list Z) : Prop :=
  exists l r, bs = l ++ tok ++ r /\ Forall (fun c => isspace c = true) l /\
    Forall (fun c => isspace c = true) r /\ stops isspace tok /\ stops isspace (rev tok).

(** The two loops leave the trimmed token. *)
Lemma trim_run m b off bs :
  load_bytes (Ptr b off) (zlen bs) m = Some (bs, m) -> zlen bs <= PTRDIFF_MAX ->
  exists i n tok, skip_space (Ptr b off) 0 (Z.to_nat (zlen bs)) m = Some (Z.of_nat i, m) /\
    trim_end (Ptr b off) (zlen bs) (Z.to_nat (zlen bs - Z.of_nat i)) m = Some (Z.of_nat n, m) /\
    (i <= n <= length bs)%nat /\ sub (Z.of_nat i) (Z.of_nat (n - i)) bs = tok /\ length tok = (n - i)%nat /\
    trimmed bs tok.
Proof.
  intros Hl Hmax. destruct (prefix_len_split isspace bs) as (l & u & E & Hi & Hfl & Hsu).
  destruct (prefix_len_split isspace (rev u)) as (r & v & E' & Hk & Hfr & Hsv).
  assert (u = rev v ++ rev r) as Eu by (by rewrite <- (rev_involutive u), E', rev_app_distr).
  assert (length bs = length l + (length v + length r))%nat as Hlen
    by (by rewrite E, Eu, !length_app, !length_rev).
  exists (length l), (length l + length v)%nat, (rev v). split_and!.
  - pose proof (skip_while_run isspace m b off bs Hl Hmax 0 (length bs) eq_refl) as Hs. rewrite drop_0 in Hs.
    rewrite <- Hi in Hs. unfold zlen. by rewrite Nat2Z.id.
  - pose proof (skip_back_run isspace m b off bs Hl Hmax (length l) (length v + length r) ltac:(lia)) as Ht.
    assert (take (length v + length r) (drop (length l) bs) = u) as Htk.
    { rewrite E, drop_app_length. apply take_ge. rewrite Eu, length_app, !length_rev. lia. }
    rewrite Htk, <- Hk in Ht. unfold zlen. rewrite Hlen.
    replace (Z.to_nat _) with (length v + length r)%nat by lia. unfold trim_end. rewrite Ht. do 3 f_equal. lia.
  - lia.
  - lia.
  - unfold sub. rewrite !Nat2Z.id, E, drop_app_length, Eu.
    replace (length l + length v - length l)%nat with (length (rev v)) by (rewrite length_rev; lia).
    apply take_app_length.
  - rewrite length_rev. lia.
  - exists l, (rev r). rewrite <- Eu. split_and!; auto.
    + by apply Forall_rev.
    + intros x Hx. apply Hsu. rewrite Eu. destruct (rev v); [done|]. exact Hx.
    + by rewrite rev_involutive.
Qed.

Lemma cstr_bytes_nul (tok : list Z) : 0 ∈ tok -> (length (cstr_bytes (tok ++ [0%Z])) < length tok)%nat.
Proof.
  intros (l & r & E)%list_elem_of_split. unfold cstr_bytes.
  destruct (prefix_len_split (fun c => negb (c =? 0)) (tok ++ [0])) as (x & y & E' & Hk & Hf & Hs).
  rewrite <- Hk, E', take_app_length. apply Nat.nle_gt. intros Hle.
  assert (x !! length l = Some 0) as H0.
  { rewrite E, length_app in Hle. simpl in Hle. rewrite <- (lookup_app_l x y) by lia.
    rewrite <- E', E, <- app_assoc. simpl. by apply list_lookup_middle. }
  rewrite Forall_lookup in Hf. by specialize (Hf _ _ H0).
Qed.

Lemma print_int_short base v : 2 <= base <= 36 -> int64 v -> zlen (print_int base v) <= PTRDIFF_MAX.
Proof.
  intros Hb Hv. unfold int64, INT64_MIN, INT64_MAX in Hv.
  assert (0 <= Z.abs v < 2 ^ Z.of_nat 64) as Habs by (change (2 ^ Z.of_nat 64) with (2 ^ 64); size_lia).
  destruct (print_digits_spec base 63 (Z.abs v) Hb Habs) as (_ & Hlen & _).
  unfold print_int. destruct (Z.ltb_spec v 0); [replace (- v) with (Z.abs v) by lia|replace v with (Z.abs v) by lia];
    rewrite ?zlen_cons; unfold zlen; size_lia.
Qed.

(** The token is a number for [strtod] that fits the scratch buffer. *)
Definition float_text (strtod : list Z -> SpecFloat.spec_float * nat * option Z) (tok : list Z)
    (x : SpecFloat.spec_float) (err : option Z) : Prop :=
  0 < zlen tok < 128 /\ 0 ∉ tok /\ strtod tok = (x, length tok, err).

Lemma is_huge_infinity x : is_huge x = true <-> exists s, x = SpecFloat.S754_infinity s.
Proof. split; [destruct x as [|[]| |[]]; by eauto|by intros [[] ->]]. Qed.

(** The overflow test looks at what [strtod] has set. *)
Lemma erange_spec err x :
  (default 0 err =? ERANGE) && is_huge x = true <-> err = Some ERANGE /\ exists s, x = SpecFloat.S754_infinity s.
Proof.
  rewrite andb_true_iff, is_huge_infinity, Z.eqb_eq. destruct err as [e|]; simpl; [naive_solver|].
  split; intros [H _]; by vm_compute in H.
Qed.

(** What the scratch buffer holds. *)
Lemma scratch_run m tok :
  zlen tok < 128 ->
  exists buf, array_write 0 (Byte <$> tok) (replicate 128 Undef) m = Some (buf, m) /\
    exists buf', array_set (zlen tok) (Byte 0) buf m = Some (buf', m) /\
      array_string buf' = Some (cstr_bytes (tok ++ [0])).
Proof.
  intros Hl. eexists. split; [apply array_write_run; rewrite ?zlen_fmap; [lia|unfold zlen at 2; rewrite length_replicate; lia]|].
  set (buf := splice _ _ _). assert (length buf = 128%nat) as Hb.
  { unfold buf. rewrite length_splice; rewrite ?zlen_fmap; unfold zlen in *; rewrite ?length_replicate; lia. }
  assert (take (length tok) buf = Byte <$> tok) as Ht.
  { unfold buf, splice. rewrite take_0. simpl. by rewrite <- (length_fmap Byte), take_app_length. }
  unfold zlen in *. eexists. split; [apply array_set_run; lia|].
  rewrite insert_take_drop, Ht by lia. apply array_string_bytes.
Qed.

(** The outcomes for the token [tok]. *)
Definition float_post (strtod : list Z -> SpecFloat.spec_float * nat * option Z)
    (double_bytes : SpecFloat.spec_float -> list Z) (m : mem) (out : ptr) (tok : list Z)
    (st : d4np_status) (m' : mem) : Prop :=
  match st with
  | D4NP_OK => exists x err, float_text strtod tok x err /\
      ~ (err = Some ERANGE /\ exists s, x = SpecFloat.S754_infinity s) /\
      load_bytes out 8 m' = Some (double_bytes x, m') /\ only [out] m m'
  | D4NP_ERR_OVERFLOW => m' = m /\ exists s, float_text strtod tok (SpecFloat.S754_infinity s) (Some ERANGE)
  | D4NP_ERR_INVALID_ARGUMENT => m' = m /\ forall x err, ~ float_text strtod tok x err
  | _ => False
  end.

(** Behind the copy into the scratch buffer. *)
Lemma float_convert strtod double_bytes m tok out :
  (forall s, (snd (fst (strtod s)) <= length s)%nat) -> (forall x, length (double_bytes x) = 8%nat) ->
  valid m out 8 -> zlen tok <> 0 -> zlen tok < 128 ->
  wp (let '(value, consumed, err) := strtod (cstr_bytes (tok ++ [0])) in
      let errno := default 0 err in
      if negb (Z.of_nat consumed =? zlen tok) then mret (D4NP_ERR_INVALID_ARGUMENT, errno)
      else if (errno =? ERANGE) && is_huge value then mret (D4NP_ERR_OVERFLOW, errno)
      else store out (Byte <$> double_bytes value) ;; mret (D4NP_OK, errno)) m (fun '(st, _) m' => float_post strtod double_bytes m out tok st m').
Proof.
  intros Hend Hrep Hout H0 H1. pose proof (zlen_nonneg tok). destruct (strtod (cstr_bytes (tok ++ [0]))) as [[x k] er] eqn:E.
  specialize (Hend (cstr_bytes (tok ++ [0]))). rewrite E in Hend. simpl in Hend. cbv zeta.
  destruct (decide (0 ∈ tok)) as [Hin|Hni].
  { apply cstr_bytes_nul in Hin as Hlt. unfold zlen. rewrite (proj2 (Z.eqb_neq _ _)) by lia. simpl.
    wp_ret. split; [done|]. by intros x' er' (_ & ? & _). }
  rewrite cstr_bytes_nul_free in E by done. unfold zlen.
  destruct (Z.eqb_spec (Z.of_nat k) (Z.of_nat (length tok))) as [Hk|Hk]; cbn [negb].
  2: { wp_ret. split; [done|]. intros x' er' (_ & _ & E'). rewrite E in E'. injection E' as -> Ek ->. lia. }
  assert (float_text strtod tok x er) as Hft by (split; [lia|]; split; [done|]; rewrite E; repeat f_equal; lia).
  destruct ((default 0 er =? ERANGE) && is_huge x) eqn:Hh.
  { apply erange_spec in Hh as [-> [s ->]]. wp_ret. split; [done|]. by exists s. }
  destruct Hout as (ob & off & blk & -> & Hb & Ho & Hl). specialize (Hrep x).
  assert (zlen (Byte <$> double_bytes x) = 8) as Hz by (rewrite zlen_fmap; unfold zlen; lia).
  wp_bind. eapply wp_store; [exact Hb|done|lia|]. wp_ret. exists x, er. split; [done|].
  split; [rewrite <- erange_spec; congruence|]. split; [|by eapply only_write, list_elem_of_here].
  apply load_bytes_load. rewrite <- Hz at 1. eapply load_after_write; [exact Hb|lia|lia].
Qed.

(** ** Properties *)

(** C36. [d4np_str_parse_int] reads exactly the integers that fit: on any view
    it is free of undefined behaviour; it stores a value exactly when the whole
    view is white space, an optional sign, an optional 0x or 0 prefix the base
    allows, digits of the radix and white space, and the value of these digits
    fits in 64 bits, and then it stores that value; it reports an overflow only
    when the digits the text starts with have a value that does not fit, and
    then no reading of the view does; and an invalid argument only when the
    view is no integer.  Nothing is written unless it succeeds. *)
Theorem parse_int_exact m sv bs base out :
  view_bytes m sv bs -> zlen bs <= PTRDIFF_MAX -> valid m out 8 ->
  wp (d4np_str_parse_int sv base out) m (fun st m' =>
    match st with
    | D4NP_OK => exists v, int_text base bs v /\ int64 v /\ load_i64 out m' = Some (v, m') /\ only [out] m m'
    | D4NP_ERR_OVERFLOW => m' = m /\ exists v rest, int_prefix base bs v rest /\ ~ int64 v /\
        forall v', int_text base bs v' -> v' = v
    | D4NP_ERR_INVALID_ARGUMENT => m' = m /\ forall v, ~ int_text base bs v
    | _ => False
    end).
Proof. apply parse_int_spec. Qed.

Lemma parse_print_spec m sv base v out :
  2 <= base <= 36 -> int64 v -> view_bytes m sv (print_int base v) -> valid m out 8 ->
  wp (d4np_str_parse_int sv base out) m (fun st m' =>
    st = D4NP_OK /\ load_i64 out m' = Some (v, m') /\ only [out] m m').
Proof.
  intros Hb Hv Hsv Hout. pose proof (print_int_text base v Hb Hv) as Ht.
  assert (zlen (print_int base v) <= PTRDIFF_MAX) as Hmax by (by apply print_int_short).
  eapply wp_mono; [by apply parse_int_spec|]. intros st m' Hp. destruct st; simpl in Hp; try done.
  - destruct Hp as (v' & Ht' & _ & Hl & Ho). by rewrite (int_text_unique _ _ _ _ Ht Ht').
  - destruct Hp as [_ Hp]. by destruct (Hp v).
  - destruct Hp as (_ & v' & rest & _ & Hni & Hu). by rewrite <- (Hu v Ht) in Hni.
Qed.

(** Printing an integer and parsing the text gives the integer back, for
    every 64-bit value, [INT64_MIN] included, in every base from 2 to 36. *)
Theorem parse_int_print_roundtrip m sv base v out :
  2 <= base <= 36 -> int64 v -> view_bytes m sv (print_int base v) -> valid m out 8 ->
  wp (d4np_str_parse_int sv base out) m (fun st m' =>
    st = D4NP_OK /\ load_i64 out m' = Some (v, m') /\ only [out] m m').
Proof. apply parse_print_spec. Qed.

(** C37. [d4np_str_parse_float] gives exactly what [strtod] makes of the view
    without the white space around it: it reports an overflow exactly when that
    token is a whole number for [strtod], fits the scratch buffer, contains no
    NUL, and [strtod] answers an infinity and sets [errno] to [ERANGE], whatever
    [errno] was before the call; it stores the value when the token is a whole
    number and that is not the case (an underflow, or the text of an infinity),
    and reports an invalid argument in every other case.  Nothing is written
    unless it succeeds, and no byte outside the view is read. *)
Theorem parse_float_exact strtod double_bytes m sv bs out errno :
  (forall s, (snd (fst (strtod s)) <= length s)%nat) -> (forall x, length (double_bytes x) = 8%nat) ->
  view_bytes m sv bs -> zlen bs <= PTRDIFF_MAX -> valid m out 8 ->
  wp (d4np_str_parse_float strtod double_bytes sv out errno) m (fun '(st, _) m' =>
    exists tok, trimmed bs tok /\
    match st with
    | D4NP_OK => exists x err, float_text strtod tok x err /\
        ~ (err = Some ERANGE /\ exists s, x = SpecFloat.S754_infinity s) /\
        load_bytes out 8 m' = Some (double_bytes x, m') /\ only [out] m m'
    | D4NP_ERR_OVERFLOW => m' = m /\ exists s, float_text strtod tok (SpecFloat.S754_infinity s) (Some ERANGE)
    | D4NP_ERR_INVALID_ARGUMENT => m' = m /\ forall x err, ~ float_text strtod tok x err
    | _ => False
    end).
Proof.
  intros Hend Hrep Hv Hmax Hout. destruct sv as [p n]. unfold view_bytes in Hv. simpl in Hv.
  destruct (load_bytes_zlen _ _ _ _ Hv) as [_ <-]. destruct p as [|b off]; [done|].
  assert (is_null out = false) as Hon by (by destruct Hout as (? & ? & ? & -> & _)).
  unfold d4np_str_parse_float. rewrite Hon. cbn [sv_ptr sv_len is_null orb].
  destruct (trim_run m b off bs Hv Hmax) as (i & k & tok & Hs & Ht & Hik & Hsub & Hlen & Htr).
  wp_bind. eapply wp_run; [exact Hs|]. wp_bind. eapply wp_run; [exact Ht|]. cbv zeta.
  assert (Z.of_nat k ⊟ Z.of_nat i = zlen tok) as -> by (unfold zlen in *; rewrite size_sub_small by size_lia; lia).
  apply (wp_mono _ _ (fun '(st, _) m' => float_post strtod double_bytes m out tok st m'));
    [|intros [st e] m' Hp; exists tok; split; [exact Htr|exact Hp]].
  destruct (Z.eqb_spec (zlen tok) 0) as [H0|H0]; [wp_ret; split; [done|]; by intros x er (? & _); lia|].
  destruct (Z.leb_spec 128 (zlen tok)) as [H1|H1]; [wp_ret; split; [done|]; by intros x er (? & _); lia|].
  destruct (scratch_run m tok H1) as (buf & E1 & buf' & E2 & E3). wp_bind. eapply wp_run.
  { apply load_bytes_load.
    apply (load_bytes_sub b off (zlen bs) m bs (Z.of_nat i) (zlen tok)); [done|lia|apply zlen_nonneg|unfold zlen; lia]. }
  replace (sub (Z.of_nat i) (zlen tok) bs) with tok by (unfold zlen; by rewrite Hlen, Hsub).
  wp_bind. eapply wp_run; [exact E1|]. wp_bind. eapply wp_run; [exact E2|].
  wp_bind. eapply wp_run; [unfold lift_opt; by rewrite E3|]. by apply float_convert.
Qed.

(** ** Witnesses *)

(** The text " -42 " and an eight-byte object. *)
Definition num_text : list Z := [32; 45; 52; 50; 32].
Definition num_mem : mem :=
  Mem (<[0%nat := Block 16 (Byte <$> num_text)]> {[ 1%nat := Block 64 (replicate 8 Undef) ]}) 2.
Definition num_view : d4np_str_view := View (Ptr 0 0) 5.

Lemma num_out : valid num_mem (Ptr 1 0) 8.
Proof. exists 1%nat, 0, (Block 64 (replicate 8 Undef)). split; [done|]. by split. Qed.

Lemma parse_int_exact_witness :
  exists st m', d4np_str_parse_int num_view 10 (Ptr 1 0) num_mem = Some (st, m') /\ st = D4NP_OK /\
    exists v, int_text 10 num_text v /\ load_i64 (Ptr 1 0) m' = Some (v, m').
Proof.
  destruct (parse_int_exact num_mem num_view num_text 10 (Ptr 1 0)) as (st & m' & Hr & Hp);
    [reflexivity|by vm_compute|exact num_out|].
  exists st, m'. split; [exact Hr|]. vm_compute in Hr. injection Hr as <- <-.
  split; [reflexivity|]. destruct Hp as (v & Ht & _ & Hl & _). by exists v.
Defined.

Lemma parse_int_print_roundtrip_witness :
  wp (d4np_str_parse_int (View (Ptr 0 1) 3) 10 (Ptr 1 0)) num_mem (fun st m' =>
    st = D4NP_OK /\ load_i64 (Ptr 1 0) m' = Some (-42, m') /\ only [Ptr 1 0] num_mem m').
Proof.
  apply (parse_int_print_roundtrip num_mem (View (Ptr 0 1) 3) 10 (-42));
    [lia|by vm_compute|reflexivity|exact num_out].
Defined.

(** A conversion that reads decimal digits and overflows at 100. *)
Definition strtod_digits (s : list Z) : SpecFloat.spec_float * nat * option Z :=
  let k := prefix_len (is_digit 10) s in
  match value 10 0 (take k s) with
  | Zpos v => if Zpos v <? 100 then (SpecFloat.S754_finite false v 0, k, None)
              else (SpecFloat.S754_infinity false, k, Some ERANGE)
  | _ => (SpecFloat.S754_zero false, k, None)
  end.

Definition digits_bytes (x : SpecFloat.spec_float) : list Z :=
  le_bytes 8 (match x with SpecFloat.S754_finite _ v _ => Zpos v | _ => 0 end).

Lemma parse_float_exact_witness :
  exists st m', d4np_str_parse_float strtod_digits digits_bytes (View (Ptr 0 2) 3) (Ptr 1 0) ERANGE num_mem
    = Some (st, m') /\ st = (D4NP_OK, 0) /\ load_bytes (Ptr 1 0) 8 m' = Some (le_bytes 8 42, m').
Proof.
  destruct (parse_float_exact strtod_digits digits_bytes num_mem (View (Ptr 0 2) 3) [52; 50; 32] (Ptr 1 0) ERANGE)
    as (st & m' & Hr & _); [| |reflexivity|by vm_compute|exact num_out|].
  - intros s. assert (snd (fst (strtod_digits s)) = prefix_len (is_digit 10) s) as ->
      by (unfold strtod_digits; destruct (value _ _ _) as [|v|v]; [| destruct (Zpos v <? 100)|]; reflexivity).
    destruct (prefix_len_split (is_digit 10) s) as (l & r & -> & <- & _). rewrite length_app. lia.
  - intros x. apply length_le_bytes.
  - exists st, m'. split; [exact Hr|]. vm_compute in Hr. injection Hr as <- <-. split; reflexivity.
Defined.

End Parse.
