(* ===== verification/Records.v ===== *)
(** * Records of integers

    The string builder, the string views and the number parser working
    together, as a client uses them: integers are printed into one text with a
    separator between them, the text is split, and the fields are parsed. *)

From S2P Require Import Prelude Status Memory Allocator StrView StringBuilder Parse.
Import StrView StringBuilder Parse.

Local Open Scope Z_scope.

Module Records.

(** [d4np_str_parse_int] on each field, through one [int64_t] of the client. *)
Fixpoint parse_fields (base : Z) (out : ptr) (toks : list d4np_str_view) : M (list (option Z)) :=
  match toks with
  | [] => mret []
  | tok :: toks =>
      st ← d4np_str_parse_int tok base out;
      x ← (if decide (st = D4NP_OK) then v ← load_i64 out; mret (Some v) else mret None);
      xs ← parse_fields base out toks;
      mret (x :: xs)
  end.

(** The fields of the builder's text. *)
Definition read_fields (sb : d4np_string_builder) (sep base n : Z) (out : ptr) : M (list (option Z)) :=
  '(_, toks) ← d4np_str_split (d4np_sb_view (Some sb)) sep (Some (replicate (Z.to_nat n) (View Null 0))) n;
  parse_fields base out (default [] toks).

(** A separator that is not part of a number. *)
Definition separates (base sep : Z) : bool := negb (is_digit base sep) && negb (sep =? 45).

Lemma print_int_bytes base v :
  2 <= base <= 36 -> int64 v ->
  print_int base v <> [] /\ Forall (fun c => is_digit base c = true \/ c = 45) (print_int base v).
Proof.
  intros Hb Hv. unfold int64, INT64_MIN, INT64_MAX in Hv.
  assert (forall w, 0 <= w <= 2 ^ 63 -> print_digits 64 base w <> [] /\
    Forall (fun c => is_digit base c = true \/ c = 45) (print_digits 64 base w)) as Hd.
  { intros w Hw. destruct (print_digits_spec base 63 w Hb) as (H1 & _ & H2 & _); [simpl; lia|]. split; [done|].
    eapply Forall_impl; [exact H2|]. auto. }
  unfold print_int. destruct (Z.ltb_spec v 0); [|apply Hd; lia]. destruct (Hd (- v)) as [_ Hf]; [lia|].
  split; [done|]. constructor; auto.
Qed.

Lemma print_int_separated base sep v :
  2 <= base <= 36 -> int64 v -> separates base sep = true -> sep ∉ print_int base v.
Proof.
  intros Hb Hv Hs Hin. destruct (print_int_bytes base v Hb Hv) as [_ Hf]. rewrite Forall_forall in Hf.
  unfold separates in Hs. apply andb_true_iff in Hs as [H1 H2]. destruct (Hf _ Hin) as [E|E].
  - by rewrite E in H1.
  - by rewrite E in H2.
Qed.

Lemma valid_of_load m out v : load_i64 out m = Some (v, m) -> valid m out 8.
Proof.
  unfold load_i64, load_bytes, mbind, M_bind. destruct (load out 8 m) as [[cs m1]|] eqn:E; [|done]. intros _.
  by eapply load_valid.
Qed.

(** The fields lie outside the client's integer. *)
Lemma parse_fields_spec m base out toks vs :
  2 <= base <= 36 -> Forall int64 vs -> valid m out 8 ->
  Forall2 (fun tok v => view_bytes m tok (print_int base v) /\
    forall b off, sv_ptr tok = Ptr b off -> ~ touches [out] b) toks vs ->
  wp (parse_fields base out toks) m (fun xs m' => xs = Some <$> vs /\ only [out] m m').
Proof.
  intros Hb Hvs Hout Ht. revert m Hout Ht. revert toks. induction Hvs as [|v vs Hv Hvs IH]; intros toks m Hout Ht.
  { inversion Ht; subst. simpl. wp_ret. split; [done|apply only_refl]. }
  apply Forall2_cons_inv_r in Ht as (tok & toks' & [Hw Ha] & Ht & ->). simpl. wp_bind.
  eapply wp_mono; [by apply (parse_print_spec m tok base v out)|]. intros st m1 (-> & Hl & Ho).
  rewrite decide_True by done. wp_bind. wp_bind. eapply wp_run; [exact Hl|]. wp_ret. wp_bind.
  eapply wp_mono; [apply IH; [by eapply valid_of_load|]|].
  - eapply Forall2_impl; [exact Ht|]. intros tok' v' [Hv' Ha']. split; [|done]. unfold view_bytes in *.
    apply load_bytes_load. apply load_bytes_load in Hv'. by eapply load_only.
  - intros xs m2 [-> Ho2]. wp_ret. split; [done|]. by eapply only_trans.
Qed.

Section records.
Context `{!Libc}.

(** ** Property *)

(** C24. A record survives the trip through text: when 64-bit integers printed
    in a base are appended to a string builder with separators that are no part
    of a number, and no append has failed, then splitting the builder's view
    and parsing the fields in that base gives back exactly the integers, in
    order; the memory of the client other than its output variable is
    untouched. *)
Theorem record_roundtrip m sb0 oa n sep base ws vs out :
  allocator_arg_ok oa -> is_size n -> 2 <= base <= 36 -> separates base sep = true ->
  Forall int64 vs -> vs <> [] -> is_size (zlen vs) -> valid m out 8 ->
  Forall2 (fun w v => view_bytes m w (print_int base v)) ws vs ->
  wp ('(st, osb) ← d4np_sb_init (Some sb0) oa n;
      '(sts, sb) ← with_sb osb (fun sb => run_ops sb (join_ops sep ws));
      if decide (Forall (.= D4NP_OK) sts) then
        xs ← read_fields sb sep base (zlen vs) out;
        mret (sb, Some xs)
      else mret (sb, None)) m
     (fun '(sb, r) m' => forall xs, r = Some xs ->
        xs = Some <$> vs /\
        forall b blk, ~ touches [out; sb_data sb] b -> m_heap m !! b = Some blk -> m_heap m' !! b = Some blk).
Proof.
  intros Ha Hn Hb Hsep Hvs Hne Hsz Hout Hws. set (fs := print_int base <$> vs).
  assert (zlen fs = zlen vs) as Hlen by (unfold fs; apply zlen_fmap).
  assert (Forall2 (fun v f => view_arg m v f /\ is_size (sv_len v)) ws fs) as Hargs.
  { unfold fs. apply Forall2_fmap_r. apply Forall2_same_length_lookup_2; [by eapply Forall2_length|].
    intros i w v Hw Hv. pose proof (Forall2_lookup_lr _ _ _ _ _ _ Hws Hw Hv) as Hb'. split; [by right|].
    destruct (load_bytes_zlen _ _ _ _ Hb') as [_ <-]. pose proof (Forall_lookup_1 _ _ _ _ Hvs Hv) as Hi.
    pose proof (print_int_short base v Hb Hi). pose proof (zlen_nonneg (print_int base v)). size_lia. }
  assert (Forall (fun f => sep ∉ f) fs) as Hfs.
  { apply Forall_fmap. eapply Forall_impl; [exact Hvs|]. intros v Hv. by apply print_int_separated. }
  assert (join sep fs <> []) as Hj.
  { destruct vs as [|v vs]; [done|]. apply Forall_cons in Hvs as [Hv _].
    destruct (print_int_bytes base v Hb Hv) as [Hp _]. unfold fs. simpl. by destruct (print_int base v), vs. }
  pose proof (sb_join_split_spec m sb0 oa n sep ws fs Ha Hn Hargs Hfs Hj) as Hspec. rewrite Hlen in Hspec.
  specialize (Hspec Hsz). wp_bind. apply wp_bind_inv in Hspec. eapply wp_mono; [exact Hspec|]. clear Hspec.
  intros [st osb] m1 Hspec. wp_bind. eapply wp_mono; [exact Hspec|]. clear Hspec. intros [sts sb] m2 Hspec.
  case_decide as Hok; [|wp_ret; intros xs [=]]. destruct (Hspec Hok) as (Hc & toks & Hs & Ht).
  pose proof (sb_client_frame _ _ _ _ Hc) as Hfr. destruct Hout as (bo & oo & blk & -> & Hbo & Ho1 & Ho2).
  assert (m_heap m2 !! bo = Some blk) as Hbo2 by (apply Hfr; [apply touches_nil|done]).
  wp_bind. unfold read_fields. wp_bind. eapply wp_run; [exact Hs|]. simpl.
  eapply wp_mono; [apply (parse_fields_spec m2 base (Ptr bo oo) toks vs Hb Hvs)|].
  - by exists bo, oo, blk.
  - unfold fs in Ht. apply Forall2_fmap_r in Ht. eapply Forall2_impl; [exact Ht|]. intros tok v [Hv Hw]. split; [done|].
    intros b off Hp [o Hin]. apply list_elem_of_singleton in Hin as [= -> _]. unfold within, d4np_sb_view in Hw. simpl in Hw.
    destruct Hc as (_ & _ & Hcl). destruct (sb_data sb) as [|b' o'] eqn:Ed; [done|]. rewrite Hp in Hw. simpl in Hw.
    destruct Hw as (-> & _). by rewrite (Hcl b' o' eq_refl) in Hbo.
  - intros xs m3 [-> Hon]. wp_ret. intros xs [= <-]. split; [done|]. intros b bk Hnt Hbk.
    rewrite Hon; [apply Hfr; [apply touches_nil|done]|]. intros [o Hin]. apply Hnt. exists o. set_solver.
Qed.

End records.

(** ** Witness *)

#[local] Existing Instance libc_plenty.

(** The texts ["-42"] and ["7"], and the client's integer. *)
Definition record_mem : mem :=
  Mem (<[0%nat := Block 16 (Byte <$> [45; 52; 50; 55])]> {[ 1%nat := Block 32 (replicate 8 Undef) ]}) 2.

Lemma record_roundtrip_witness :
  exists sb m', ('(st, osb) ← d4np_sb_init (Some zero_sb) None 4;
      '(sts, sb) ← with_sb osb (fun sb => run_ops sb (join_ops 44 [View (Ptr 0 0) 3; View (Ptr 0 3) 1]));
      if decide (Forall (.= D4NP_OK) sts) then
        xs ← read_fields sb 44 10 2 (Ptr 1 0);
        mret (sb, Some xs)
      else mret (sb, None)) record_mem = Some ((sb, Some [Some (-42); Some 7]), m').
Proof.
  destruct (record_roundtrip record_mem zero_sb None 4 44 10 [View (Ptr 0 0) 3; View (Ptr 0 3) 1] [-42; 7] (Ptr 1 0))
    as ([sb r] & m' & E & Hp); try done; try size_lia.
  - repeat constructor; by vm_compute.
  - exists 1%nat, 0, (Block 32 (replicate 8 Undef)). by split_and!.
  - repeat constructor.
  - exists sb, m'. assert (is_Some r) as [xs ->].
    { apply (f_equal (fmap (fun x => snd (fst x)))) in E. revert E. vm_compute. intros [= <-]. eauto. }
    destruct (Hp xs eq_refl) as [-> _]. exact E.
Defined.

End Records.
