(* ===== verification/Path.v ===== *)
(** * Joining paths ([d4np/io/path.h], [path.c])

    [d4np_path_combine] on C strings in memory, with the byte counting of
    [snprintf], against the join of two byte strings, on both platforms; joining
    is associative. *)

From S2P Require Import Prelude Memory.

Local Open Scope Z_scope.

Module Path.

Section platform.
Variable os : platform.

(** ['/'] is 47, ['\\'] is 92. *)
Definition sep : Z := match os with Posix => 47 | Win32 => 92 end.

Definition path_is_sep (c : Z) : bool :=
  match os with Posix => c =? 47 | Win32 => (c =? 47) || (c =? 92) end.

(** [while (alen > 0 && path_is_sep(a[alen - 1])) --alen]. *)
Definition drop_trailing (a : ptr) (alen : Z) (todo : nat) : M Z := skip_back path_is_sep a alen todo.

(** [while (bstart < blen && path_is_sep(b[bstart])) ++bstart]. *)
Definition skip_leading (b : ptr) (bstart : Z) (todo : nat) : M Z := skip_while path_is_sep b bstart todo.

(** The macro [D4NP_PUT] on the locals [w] and [total]. *)
Definition D4NP_PUT (out : ptr) (out_size ch : Z) (st : Z * Z) : M (Z * Z) :=
  let '(w, total) := st in
  if negb (is_null out) && (w ⊞ 1 <? out_size)
  then store_byte (padd out w) ch ;; mret (w ⊞ 1, total ⊞ 1)
  else mret (w, total ⊞ 1).

(** [for (size_t i = 0; i < n; ++i) D4NP_PUT(s[i])], with [todo] bytes left. *)
Fixpoint put_bytes (out : ptr) (out_size : Z) (s : ptr) (i : Z) (todo : nat) (st : Z * Z) : M (Z * Z) :=
  match todo with
  | O => mret st
  | S todo =>
      c ← load_byte (padd s i);
      st ← D4NP_PUT out out_size c st;
      put_bytes out out_size s (i ⊞ 1) todo st
  end.

(** A [NULL] segment is the empty string, of which only the length is used. *)
Definition seg_len (s : ptr) : M Z := if is_null s then mret 0 else strlen s.

Definition d4np_path_combine (out : ptr) (out_size : Z) (a b : ptr) : M Z :=
  a_full ← seg_len a;
  alen ← drop_trailing a a_full (Z.to_nat a_full);
  blen ← seg_len b;
  bstart ← skip_leading b 0 (Z.to_nat blen);
  let bcount := blen ⊟ bstart in
  let a_is_root := (0 <? a_full) && (alen =? 0) in
  st ← (if a_is_root then
          st ← D4NP_PUT out out_size sep (0, 0);
          put_bytes out out_size (padd b bstart) 0 (Z.to_nat bcount) st
        else
          st ← put_bytes out out_size a 0 (Z.to_nat alen) (0, 0);
          st ← (if (0 <? alen) && (0 <? bcount) then D4NP_PUT out out_size sep st else mret st);
          put_bytes out out_size (padd b bstart) 0 (Z.to_nat bcount) st);
  let '(w, total) := st in
  (if negb (is_null out) && (0 <? out_size) then store_byte (padd out w) 0 else mret tt) ;;
  mret total.

(** ** The join of two byte strings *)

Definition lstrip (bs : list Z) : list Z := drop (prefix_len path_is_sep bs) bs.
Definition rstrip (bs : list Z) : list Z := rev (lstrip (rev bs)).

(** The separator between what is left of the segments. *)
Definition glue (x y : list Z) : list Z :=
  match x, y with [], _ => y | _, [] => x | _, _ => x ++ sep :: y end.

Definition path_join (x y : list Z) : list Z :=
  if decide (x <> [] /\ rstrip x = []) then sep :: lstrip y else glue (rstrip x) (lstrip y).

(** A segment argument: [NULL] or a C string. *)
Definition segment (m : mem) (p : ptr) (bs : list Z) : Prop :=
  (p = Null /\ bs = []) \/ cstring m p bs.

Lemma lstrip_split bs : exists l, bs = l ++ lstrip bs /\ Forall (fun c => path_is_sep c = true) l /\
  length l = prefix_len path_is_sep bs /\ stops path_is_sep (lstrip bs).
Proof.
  destruct (prefix_len_split path_is_sep bs) as (l & r & E & Hk & Hf & Hs). exists l.
  assert (lstrip bs = r) as -> by (unfold lstrip; rewrite <- Hk, E; apply drop_app_length). done.
Qed.

Lemma lstrip_length bs : (length (lstrip bs) + prefix_len path_is_sep bs = length bs)%nat.
Proof. destruct (lstrip_split bs) as (l & E & _ & <- & _). rewrite E at 2. rewrite length_app. lia. Qed.

Lemma rstrip_take bs : rstrip bs = take (length (rstrip bs)) bs.
Proof.
  unfold rstrip. destruct (lstrip_split (rev bs)) as (l & E & _).
  rewrite <- (rev_involutive bs) at 3. rewrite E at 3. rewrite rev_app_distr. by rewrite take_app_length.
Qed.

Lemma rstrip_length bs : (length (rstrip bs) + prefix_len path_is_sep (rev bs) = length bs)%nat.
Proof. unfold rstrip. rewrite length_rev, <- (length_rev bs). apply lstrip_length. Qed.

(** ** Writing with a bound *)

(** The bytes the buffer has room for before the NUL. *)
Definition room (out : ptr) (out_size : Z) : Z := if is_null out then 0 else Z.max 0 (out_size - 1).

Definition out_ok (m : mem) (out : ptr) (out_size : Z) : Prop :=
  is_size out_size /\ (is_null out = true \/ out_size = 0 \/ valid m out out_size).

(** [txt] has been put since [m0]: it is counted in full, and as much of it
    as fits is in the buffer. *)
Definition putting (m0 : mem) (out : ptr) (out_size : Z) (txt : list Z) (st : Z * Z) (m : mem) : Prop :=
  st = (Z.min (zlen txt) (room out out_size), zlen txt) /\
  (room out out_size = 0 \/
   load_bytes out (Z.min (zlen txt) (room out out_size)) m =
     Some (take (Z.to_nat (room out out_size)) txt, m)) /\
  out_ok m out out_size /\ only [out] m0 m /\ (is_null out = true \/ out_size = 0 -> m = m0).

Lemma room_bound out out_size : is_size out_size -> 0 <= room out out_size <= SIZE_MAX.
Proof. unfold room. destruct (is_null out); size_lia. Qed.

Lemma putting_start m out out_size : out_ok m out out_size -> putting m out out_size [] (0, 0) m.
Proof.
  intros Hok. destruct Hok as [Hs Ho]. pose proof (room_bound out out_size Hs).
  unfold putting. replace (Z.min (zlen []) (room out out_size)) with 0 by (change (@zlen Z []) with 0; lia).
  split; [done|]. split; [|by split; [|split; [apply only_refl|]]].
  destruct (decide (room out out_size = 0)) as [|Hr]; [by left|right]. rewrite take_nil.
  unfold room in Hr. destruct Ho as [Ho|[->|(b & off & blk & -> & Hb & H0 & H1)]]; [by rewrite Ho in Hr|by destruct (is_null out)|].
  simpl in Hr. apply load_bytes_load. simpl. by rewrite Hb, decide_True by lia.
Qed.

Lemma path_put_spec m0 out out_size txt st m ch :
  putting m0 out out_size txt st m -> zlen txt < SIZE_MAX ->
  wp (D4NP_PUT out out_size ch st) m (putting m0 out out_size (txt ++ [ch])).
Proof.
  intros (-> & Hc & [Hs Ho] & Hf & He) Hmax. pose proof (room_bound out out_size Hs) as Hr.
  pose proof (zlen_nonneg txt). unfold D4NP_PUT.
  rewrite !size_add_small by size_lia.
  assert (zlen (txt ++ [ch]) = zlen txt + 1) as Hz by (by rewrite zlen_app).
  destruct (Z.lt_ge_cases (zlen txt) (room out out_size)) as [Hlt|Hge].
  - rewrite Z.min_l in * by lia. destruct Hc as [Hc|Hc]; [lia|].
    assert (is_null out = false /\ zlen txt + 1 < out_size) as [Hn Hroom]
      by (unfold room in Hlt; destruct (is_null out); [lia|split; [done|lia]]).
    rewrite Hn, (proj2 (Z.ltb_lt _ _)) by lia. cbn [negb andb].
    destruct Ho as [Ho|[?|(b & off & blk & -> & Hb & H0 & H1)]]; [congruence|lia|].
    rewrite take_ge in Hc by (unfold zlen in *; lia). cbn [padd].
    wp_bind. eapply wp_mono; [apply (append_byte m b off blk txt ch); auto; lia|].
    intros _ m' (Hl' & Hf' & blk' & Hb' & Hz'). wp_ret. split; [by rewrite Hz, Z.min_l by lia|].
    split; [right; rewrite Hz, Z.min_l, take_ge by (unfold zlen in *; lia); exact Hl'|].
    split; [split; [done|]; right; right; exists b, off, blk'; split_and!; auto; lia|].
    split; [by eapply only_trans|]. intros [?|?]; [done|lia].
  - assert (negb (is_null out) && (Z.min (zlen txt) (room out out_size) + 1 <? out_size) = false) as ->.
    { destruct (is_null out) eqn:Hn; [done|]. simpl. apply Z.ltb_ge. unfold room in *. rewrite Hn in *. lia. }
    wp_ret. split; [rewrite Hz; f_equal; lia|]. split; [|by split].
    destruct Hc as [Hc|Hc]; [by left|right]. rewrite Hz.
    rewrite take_app_le by (unfold zlen in *; lia).
    replace (Z.min (zlen txt + 1) (room out out_size)) with (Z.min (zlen txt) (room out out_size)) by lia. done.
Qed.

(** The bytes of a region that the buffer does not share. *)
Definition source (m : mem) (out s : ptr) (bs : list Z) : Prop :=
  load_bytes s (zlen bs) m = Some (bs, m) /\ forall b off, s = Ptr b off -> ~ touches [out] b.

Lemma put_bytes_spec m0 out out_size txt st m b off bs i n :
  source m0 out (Ptr b off) bs -> (i + n = length bs)%nat -> zlen txt + Z.of_nat n <= SIZE_MAX -> zlen bs <= PTRDIFF_MAX ->
  putting m0 out out_size txt st m ->
  wp (put_bytes out out_size (Ptr b off) (Z.of_nat i) n st) m
    (putting m0 out out_size (txt ++ drop i bs)).
Proof.
  intros [Hl Hd] Hi Hmax Hbs. revert i txt st m Hi Hmax. induction n as [|n IH]; intros i txt st m Hi Hmax Hp; cbn [put_bytes].
  - wp_ret. by rewrite drop_ge, app_nil_r by lia.
  - destruct (lookup_lt_is_Some_2 bs i) as [c Hc]; [lia|].
    assert (load_bytes (Ptr b off) (zlen bs) m = Some (bs, m)) as Hl'.
    { apply load_bytes_load. destruct Hp as (_ & _ & _ & Ho & _). eapply load_only; [|exact Ho|exact Hd].
      by apply load_bytes_load. }
    unfold zlen in Hmax, Hbs. wp_bind. eapply wp_run; [by apply (load_byte_at b off (zlen bs) m bs i c)|].
    wp_bind. eapply wp_mono; [apply path_put_spec; [exact Hp|unfold zlen; size_lia]|]. intros st' m' Hp'.
    rewrite size_add_small by size_lia. replace (Z.of_nat i + 1) with (Z.of_nat (S i)) by lia.
    eapply wp_mono; [apply IH; [lia| |exact Hp']|].
    + rewrite zlen_app. unfold zlen. simpl. lia.
    + intros st'' m'' H. rewrite <- app_assoc in H. rewrite (drop_S bs c) by done. exact H.
Qed.

(** ** The operation *)

(** Lengths of the stripped segments, as the loops compute them. *)
Lemma left_run m out a A :
  segment m a A -> zlen A <= PTRDIFF_MAX -> (forall b off, a = Ptr b off -> ~ touches [out] b) ->
  seg_len a m = Some (zlen A, m) /\
  drop_trailing a (zlen A) (Z.to_nat (zlen A)) m = Some (zlen (rstrip A), m) /\
  (rstrip A = [] \/ exists b off, a = Ptr b off /\ source m out a (rstrip A)).
Proof.
  intros [[-> ->]|Hc] Hmax Hd; [split; [done|]; split; [done|by left]|].
  destruct a as [|b off]; [by destruct Hc|]. pose proof (cstring_bytes _ _ _ Hc) as Hl.
  pose proof (rstrip_length A) as Hlen. split; [by apply strlen_spec|]. split.
  - pose proof (skip_back_run path_is_sep m b off A Hl Hmax 0 (length A) ltac:(lia)) as Hr.
    rewrite drop_0, take_ge in Hr by lia. unfold drop_trailing, zlen. rewrite Nat2Z.id.
    rewrite Nat.add_0_l in Hr. rewrite Hr. do 3 f_equal. lia.
  - right. exists b, off. split; [done|]. split; [|done].
    apply (load_bytes_sub b off _ _ _ 0 (zlen (rstrip A))) in Hl; [|unfold zlen; lia..].
    rewrite Z.add_0_r in Hl. rewrite Hl. unfold sub, zlen. rewrite Nat2Z.id, drop_0. by rewrite <- rstrip_take.
Qed.

Lemma right_run m out b B :
  segment m b B -> zlen B <= PTRDIFF_MAX -> (forall b' off, b = Ptr b' off -> ~ touches [out] b') ->
  seg_len b m = Some (zlen B, m) /\
  exists k, skip_leading b 0 (Z.to_nat (zlen B)) m = Some (k, m) /\ zlen B ⊟ k = zlen (lstrip B) /\
  (lstrip B = [] \/ exists b' off, padd b k = Ptr b' off /\ source m out (padd b k) (lstrip B)).
Proof.
  intros [[-> ->]|Hc] Hmax Hd; [split; [done|]; exists 0; split; [done|]; split; [done|by left]|].
  destruct b as [|b off]; [by destruct Hc|]. pose proof (cstring_bytes _ _ _ Hc) as Hl.
  pose proof (lstrip_length B) as Hlen. split; [by apply strlen_spec|].
  exists (Z.of_nat (prefix_len path_is_sep B)). split; [|split].
  - pose proof (skip_while_run path_is_sep m b off B Hl Hmax 0 (length B) ltac:(lia)) as Hr.
    rewrite drop_0, Nat.add_0_l in Hr. unfold skip_leading, zlen. by rewrite Nat2Z.id.
  - unfold zlen in *. rewrite size_sub_small by size_lia. lia.
  - right. eexists b, _. split; [done|]. split; [|by intros b' off' [= <- _]; apply (Hd b off)].
    simpl. apply (load_bytes_sub b off _ _ _ (Z.of_nat (prefix_len path_is_sep B)) (zlen (lstrip B))) in Hl;
      [|unfold zlen; lia..].
    rewrite Hl. do 2 f_equal. unfold sub, zlen. rewrite !Nat2Z.id, take_ge; [done|]. rewrite length_drop. lia.
Qed.

(** All of a stripped segment is put. *)
Lemma put_all m0 out out_size txt st m s bs :
  (bs = [] \/ exists b off, s = Ptr b off /\ source m0 out s bs) ->
  zlen txt + zlen bs <= SIZE_MAX -> zlen bs <= PTRDIFF_MAX -> putting m0 out out_size txt st m ->
  wp (put_bytes out out_size s 0 (Z.to_nat (zlen bs)) st) m (putting m0 out out_size (txt ++ bs)).
Proof.
  intros [->|(b & off & -> & Hs)] H1 H2 Hp; [wp_ret; by rewrite app_nil_r|].
  unfold zlen in *. rewrite Nat2Z.id. apply (put_bytes_spec m0 out out_size txt st m b off bs 0); auto.
Qed.

(** The result: the text up to the bound, NUL-terminated. *)
Lemma put_nul m0 out out_size txt st m :
  putting m0 out out_size txt st m -> 0 ∉ txt ->
  wp (let '(w, total) := st in
      (if negb (is_null out) && (0 <? out_size) then store_byte (padd out w) 0 else mret tt) ;; mret total) m
    (fun total m' => total = zlen txt /\ only [out] m0 m' /\
      if is_null out || (out_size =? 0) then m' = m0
      else cstring m' out (take (Z.to_nat (out_size - 1)) txt)).
Proof.
  intros (-> & Hc & [Hs Ho] & Hf & He) Hn0. pose proof (room_bound out out_size Hs) as Hr.
  pose proof (zlen_nonneg txt). wp_bind.
  destruct (is_null out) eqn:Hn; cbn [negb andb orb].
  { wp_ret. wp_ret. rewrite (He ltac:(by left)) in *. done. }
  destruct (Z.ltb_spec 0 out_size) as [Hpos|Hz].
  2: { assert (out_size = 0) as -> by size_lia. wp_ret. wp_ret. rewrite (He ltac:(by right)) in *. done. }
  rewrite (proj2 (Z.eqb_neq _ _)) by lia.
  destruct Ho as [?|[?|(b & off & blk & -> & Hb & H0 & H1)]]; [done|lia|].
  unfold room in *. simpl is_null in *. cbv iota in *. rewrite Z.max_r in * by lia.
  set (bs := take (Z.to_nat (out_size - 1)) txt) in *.
  assert (Z.min (zlen txt) (out_size - 1) = zlen bs) as Hlen by (unfold bs, zlen; rewrite length_take; lia).
  assert (load_bytes (Ptr b off) (zlen bs) m = Some (bs, m)) as Hl.
  { destruct Hc as [Hc|Hc]; [|by rewrite <- Hlen]. assert (bs = []) as -> by (unfold bs; by rewrite Hc).
    apply load_bytes_load. simpl. change (zlen (@nil Z)) with 0. by rewrite Hb, decide_True by lia. }
  rewrite Hlen. cbn [padd]. eapply wp_mono; [apply (append_byte m b off blk bs 0); auto; lia|].
  intros _ m' (Hl' & Hf' & _). wp_ret. split; [done|]. split; [by eapply only_trans|].
  split; [done|]. intros Hin. by apply elem_of_take in Hin as (i & Hin%list_elem_of_lookup_2 & _).
Qed.

Lemma path_join_nul x y : 0 ∉ x -> 0 ∉ y -> 0 ∉ path_join x y.
Proof.
  intros Hx Hy. assert (0 ∉ rstrip x) as Hx'.
  { rewrite rstrip_take. by intros (i & Hin%list_elem_of_lookup_2 & _)%elem_of_take. }
  assert (0 ∉ lstrip y) as Hy'.
  { unfold lstrip. intros [i Hi]%list_elem_of_lookup. rewrite lookup_drop in Hi. by apply list_elem_of_lookup_2 in Hi. }
  assert (0 <> sep) as Hsep by (unfold sep; by destruct os).
  unfold path_join, glue. case_decide; [by apply not_elem_of_cons|].
  destruct (rstrip x) as [|c x'], (lstrip y) as [|d y']; auto. apply not_elem_of_app. split; [done|].
  by apply not_elem_of_cons.
Qed.

(** The bytes that are put are those of the join. *)
Lemma combine_puts m out out_size a b x y :
  out_ok m out out_size ->
  (rstrip x = [] \/ exists b off, a = Ptr b off /\ source m out a (rstrip x)) ->
  (lstrip y = [] \/ exists b' off, b = Ptr b' off /\ source m out b (lstrip y)) ->
  zlen (rstrip x) + zlen (lstrip y) < PTRDIFF_MAX ->
  wp (if (0 <? zlen x) && (zlen (rstrip x) =? 0) then
        st ← D4NP_PUT out out_size sep (0, 0);
        put_bytes out out_size b 0 (Z.to_nat (zlen (lstrip y))) st
      else
        st ← put_bytes out out_size a 0 (Z.to_nat (zlen (rstrip x))) (0, 0);
        st ← (if (0 <? zlen (rstrip x)) && (0 <? zlen (lstrip y)) then D4NP_PUT out out_size sep st else mret st);
        put_bytes out out_size b 0 (Z.to_nat (zlen (lstrip y))) st) m
    (putting m out out_size (path_join x y)).
Proof.
  intros Ho Ha Hb Hmax. pose proof (putting_start m out out_size Ho) as H0.
  pose proof (zlen_nonneg (rstrip x)). pose proof (zlen_nonneg (lstrip y)).
  assert (forall l : list Z, (zlen l =? 0) = bool_decide (l = [])) as Ez.
  { intros l. destruct l; [done|]. apply Z.eqb_neq. rewrite zlen_cons. pose proof (zlen_nonneg l). lia. }
  assert (forall l : list Z, (0 <? zlen l) = bool_decide (l <> [])) as Ep.
  { intros l. destruct l; [done|]. apply Z.ltb_lt. rewrite zlen_cons. pose proof (zlen_nonneg l). lia. }
  rewrite !Ep, Ez. unfold path_join.
  assert (bool_decide (x <> []) && bool_decide (rstrip x = []) = bool_decide (x <> [] /\ rstrip x = [])) as ->
    by (by rewrite bool_decide_and).
  case_bool_decide as Hroot; [rewrite decide_True by done|rewrite decide_False by done].
  - wp_bind. eapply wp_mono; [by apply path_put_spec|]. intros st m' Hp. rewrite app_nil_l in Hp.
    eapply (put_all _ _ _ [sep]); eauto; [change (zlen [sep]) with 1|]; size_lia.
  - wp_bind. eapply wp_mono; [eapply (put_all _ _ _ []); eauto; [change (@zlen Z []) with 0|]; size_lia|].
    intros st m' Hp. rewrite app_nil_l in Hp. wp_bind.
    apply wp_mono with (Φ := putting m out out_size (rstrip x ++ if bool_decide (rstrip x <> []) && bool_decide (lstrip y <> []) then [sep] else [])).
    { destruct (_ && _); [apply path_put_spec; [done|size_lia]|]. wp_ret. by rewrite app_nil_r. }
    intros st' m'' Hp'. eapply wp_mono.
    { eapply put_all; [exact Hb| |size_lia|exact Hp']. rewrite zlen_app. destruct (_ && _); [change (zlen [sep]) with 1|change (@zlen Z []) with 0]; size_lia. }
    intros st'' m3. unfold glue. destruct (rstrip x), (lstrip y); simpl; rewrite ?app_nil_r, <- ?app_assoc; auto.
Qed.

Lemma combine_spec m out out_size a b x y :
  segment m a x -> segment m b y -> zlen x + zlen y < PTRDIFF_MAX -> out_ok m out out_size ->
  (forall blk off, a = Ptr blk off \/ b = Ptr blk off -> ~ touches [out] blk) ->
  wp (d4np_path_combine out out_size a b) m (fun total m' =>
    total = zlen (path_join x y) /\ only [out] m m' /\
    if is_null out || (out_size =? 0) then m' = m
    else cstring m' out (take (Z.to_nat (out_size - 1)) (path_join x y))).
Proof.
  intros Ha Hb Hmax Ho Hd. pose proof (zlen_nonneg x). pose proof (zlen_nonneg y).
  assert (0 ∉ path_join x y) as Hnul
    by (apply path_join_nul; [destruct Ha as [[_ ->]|[_ ?]]|destruct Hb as [[_ ->]|[_ ?]]]; auto; set_solver).
  destruct (left_run m out a x Ha ltac:(lia) ltac:(eauto)) as (Ea & Eal & Ha').
  destruct (right_run m out b y Hb ltac:(lia) ltac:(eauto)) as (Eb & k & Ek & Ec & Hb').
  pose proof (rstrip_length x) as Hrl. pose proof (lstrip_length y) as Hll.
  unfold d4np_path_combine. wp_bind. eapply wp_run; [exact Ea|]. wp_bind. eapply wp_run; [exact Eal|].
  wp_bind. eapply wp_run; [exact Eb|]. wp_bind. eapply wp_run; [exact Ek|]. cbv zeta. rewrite Ec.
  wp_bind. apply wp_mono with (Φ := putting m out out_size (path_join x y)); [|intros st m' Hp; by apply put_nul].
  apply combine_puts; auto. unfold zlen in *. lia.
Qed.

(** ** Joining is associative *)

Definition seps (l : list Z) : Prop := Forall (fun c => path_is_sep c = true) l.

Lemma sep_is_sep : path_is_sep sep = true.
Proof. unfold sep, path_is_sep. by destruct os. Qed.

Lemma lstrip_app l r : seps l -> stops path_is_sep r -> lstrip (l ++ r) = r.
Proof. intros. unfold lstrip. rewrite prefix_len_app by done. apply drop_app_length. Qed.

Lemma rstrip_app l r : seps r -> stops path_is_sep (rev l) -> rstrip (l ++ r) = l.
Proof.
  intros Hr Hl. unfold rstrip. rewrite rev_app_distr, lstrip_app, rev_involutive; [done| |done]. by apply Forall_rev.
Qed.

Lemma strip_seps y : seps y -> lstrip y = [] /\ rstrip y = [].
Proof.
  intros Hy. split.
  - rewrite <- (app_nil_r y). by apply lstrip_app.
  - by apply (rstrip_app []).
Qed.

(** A text with something in it between its separators. *)
Definition cored (y s1 c s2 : list Z) : Prop :=
  y = s1 ++ c ++ s2 /\ seps s1 /\ seps s2 /\ c <> [] /\ stops path_is_sep c /\ stops path_is_sep (rev c).

Lemma strip_cases y : seps y \/ exists s1 c s2, cored y s1 c s2.
Proof.
  destruct (prefix_len_split path_is_sep y) as (s1 & r & E & _ & Hs1 & Hr).
  destruct (prefix_len_split path_is_sep (rev r)) as (s2 & c & E' & _ & Hs2 & Hc).
  assert (r = rev c ++ rev s2) as Er by (by rewrite <- (rev_involutive r), E', rev_app_distr).
  destruct (decide (c = [])) as [->|Hne].
  - left. rewrite E, Er. apply Forall_app. split; [done|]. simpl. by apply Forall_rev.
  - right. exists s1, (rev c), (rev s2). split; [by rewrite E, Er|]. split; [done|]. split; [by apply Forall_rev|].
    split; [intros H; apply Hne; by rewrite <- (rev_involutive c), H|]. rewrite rev_involutive. split; [|done].
    intros x Hx. apply Hr. rewrite Er. by destruct (rev c).
Qed.

Lemma stops_app c t : c <> [] -> stops path_is_sep c -> stops path_is_sep (c ++ t).
Proof. intros Hc Hs x Hx. apply Hs. by destruct c. Qed.

Lemma cored_strip y s1 c s2 :
  cored y s1 c s2 -> lstrip y = c ++ s2 /\ rstrip y = s1 ++ c /\ lstrip (rstrip y) = c /\ rstrip (lstrip y) = c.
Proof.
  intros (-> & H1 & H2 & Hne & Hs & Hr).
  assert (rev c <> []) as Hne' by (intros H; apply Hne; by rewrite <- (rev_involutive c), H).
  assert (lstrip (s1 ++ c ++ s2) = c ++ s2) as -> by (apply lstrip_app; auto using stops_app).
  assert (rstrip (s1 ++ c ++ s2) = s1 ++ c) as ->
    by (rewrite app_assoc; apply rstrip_app; [done|]; rewrite rev_app_distr; by apply stops_app).
  split; [done|]. split; [done|]. split; [by apply lstrip_app|by apply rstrip_app].
Qed.

Lemma glue_app x c t : c <> [] -> glue (x ++ c) t = x ++ glue c t.
Proof.
  intros Hc. destruct c as [|d c]; [done|]. destruct t as [|e t]; [by destruct x|].
  destruct x; simpl; by rewrite <- ?app_assoc.
Qed.

Lemma glue_assoc x y z : glue (glue x y) z = glue x (glue y z).
Proof. destruct x, y, z; simpl; rewrite ?app_nil_r, <- ?app_assoc; done. Qed.

Lemma lstrip_stops y : stops path_is_sep (lstrip y).
Proof. by destruct (lstrip_split y) as (l & _ & _ & _ & H). Qed.

Lemma lstrip_idem y : lstrip (lstrip y) = lstrip y.
Proof. apply (lstrip_app []); [constructor|apply lstrip_stops]. Qed.

Lemma rstrip_idem y : rstrip (rstrip y) = rstrip y.
Proof. unfold rstrip. by rewrite rev_involutive, lstrip_idem. Qed.

(** What is in the middle of a join. *)
Lemma lstrip_join y z : lstrip (path_join y z) = glue (lstrip (rstrip y)) (lstrip z).
Proof.
  unfold path_join. destruct (strip_cases y) as [Hy|(s1 & c & s2 & Hy)].
  - destruct (strip_seps y Hy) as [_ ->]. change (lstrip []) with (@nil Z). cbn [glue].
    case_decide; [|apply lstrip_idem]. apply (lstrip_app [sep]); [|apply lstrip_stops].
    constructor; [apply sep_is_sep|constructor].
  - destruct (cored_strip _ _ _ _ Hy) as (_ & Hr & Hlr & _). destruct Hy as (_ & H1 & _ & Hne & Hs & _).
    rewrite Hlr, Hr, decide_False by (intros [_ [_ ?]%app_nil]; done). rewrite glue_app by done.
    apply lstrip_app; [done|]. destruct c as [|d c]; [done|]. intros x Hx. apply Hs.
    by destruct (lstrip z).
Qed.

Lemma rstrip_glue x y : rstrip (glue (rstrip x) (lstrip y)) = glue (rstrip x) (rstrip (lstrip y)).
Proof.
  destruct (strip_cases y) as [Hy|(s1 & c & s2 & Hy)].
  - destruct (strip_seps y Hy) as [-> _]. change (rstrip []) with (@nil Z).
    destruct (rstrip x) eqn:E; [done|]. cbn [glue]. rewrite <- E. apply rstrip_idem.
  - destruct (cored_strip _ _ _ _ Hy) as (-> & _ & _ & Hrl). destruct Hy as (-> & _ & H2 & Hne & _ & Hr).
    rewrite (rstrip_app c s2) by done. destruct c as [|d c]; [done|].
    assert (forall t, glue t ((d :: c) ++ s2) = glue t (d :: c) ++ s2) as ->
      by (intros [|? t]; [done|]; simpl; by rewrite <- app_assoc).
    apply rstrip_app; [done|]. destruct (rstrip x) as [|e t]; [done|]. cbn [glue].
    rewrite rev_app_distr. change (sep :: d :: c) with ([sep] ++ (d :: c)). rewrite rev_app_distr, <- app_assoc.
    apply stops_app; [|done]. intros E. by apply (f_equal length) in E; rewrite length_rev in E.
Qed.

Lemma rstrip_sep_lstrip y :
  rstrip (sep :: lstrip y) = match rstrip (lstrip y) with [] => [] | c => sep :: c end.
Proof.
  destruct (strip_cases y) as [Hy|(s1 & c & s2 & Hy)].
  - destruct (strip_seps y Hy) as [-> _]. apply (strip_seps [sep]). constructor; [apply sep_is_sep|constructor].
  - destruct (cored_strip _ _ _ _ Hy) as (-> & _ & _ & Hrl). destruct Hy as (-> & _ & H2 & Hne & _ & Hr).
    rewrite (rstrip_app c s2) by done. destruct c as [|d c]; [done|].
    apply (rstrip_app (sep :: d :: c)); [done|]. change (sep :: d :: c) with ([sep] ++ (d :: c)).
    rewrite rev_app_distr. apply stops_app; [|done]. intros E. by apply (f_equal length) in E; rewrite length_rev in E.
Qed.

Lemma strip_comm y : lstrip (rstrip y) = rstrip (lstrip y).
Proof.
  destruct (strip_cases y) as [Hy|(s1 & c & s2 & Hy)].
  - destruct (strip_seps y Hy) as [-> ->]. done.
  - by destruct (cored_strip _ _ _ _ Hy) as (_ & _ & -> & ->).
Qed.

Lemma lstrip_nil y : rstrip (lstrip y) = [] -> lstrip y = [].
Proof.
  destruct (strip_cases y) as [Hy|(s1 & c & s2 & Hy)]; [by destruct (strip_seps y Hy) as [-> _]|].
  destruct (cored_strip _ _ _ _ Hy) as (_ & _ & _ & ->). by destruct Hy as (_ & _ & _ & ? & _).
Qed.

Lemma path_join_assoc x y z : path_join (path_join x y) z = path_join x (path_join y z).
Proof.
  destruct (decide (x <> [] /\ rstrip x = [])) as [Hx|Hx].
  - assert (forall w, path_join x w = sep :: lstrip w) as E by (intros w; unfold path_join; by rewrite decide_True).
    rewrite !E, lstrip_join, strip_comm. unfold path_join. rewrite rstrip_sep_lstrip.
    destruct (rstrip (lstrip y)) as [|d c]; [by rewrite decide_True|].
    rewrite decide_False by (by intros [_ ?]). by destruct (lstrip z).
  - assert (forall w, path_join x w = glue (rstrip x) (lstrip w)) as E by (intros w; unfold path_join; by rewrite decide_False).
    rewrite !E, lstrip_join, strip_comm. unfold path_join. rewrite rstrip_glue.
    rewrite decide_False; [apply glue_assoc|]. intros [Hne Hr].
    apply Hne. destruct (rstrip x) as [|e t] eqn:Ex; [|by destruct (rstrip (lstrip y))].
    cbn [glue] in *. by apply lstrip_nil.
Qed.

Lemma path_join_length x y : zlen (path_join x y) <= zlen x + zlen y + 1.
Proof.
  pose proof (rstrip_length x). pose proof (lstrip_length y). unfold path_join, zlen.
  case_decide; [simpl; lia|]. unfold glue. destruct (rstrip x), (lstrip y); simpl in *; rewrite ?length_app; simpl; lia.
Qed.

(** [p] lies in another block than [q]. *)
Definition apart (p q : ptr) : Prop := forall blk off, p = Ptr blk off -> ~ touches [q] blk.

Lemma segment_only m m' q p bs : segment m p bs -> only [q] m m' -> apart p q -> segment m' p bs.
Proof.
  intros [?|[Hl Hn]] Ho Hd; [by left|right]. split; [|done]. apply load_bytes_load.
  apply load_bytes_load in Hl. by eapply load_only.
Qed.

(** A join into a buffer with room for all of it, and a join of the result. *)
Lemma combine_full m out out_size a b x y :
  segment m a x -> segment m b y -> zlen x + zlen y < PTRDIFF_MAX -> valid m out out_size ->
  zlen x + zlen y + 1 < out_size <= SIZE_MAX -> apart a out -> apart b out ->
  wp (d4np_path_combine out out_size a b) m (fun _ m' => segment m' out (path_join x y) /\ only [out] m m').
Proof.
  intros Ha Hb Hmax Hv Hsz Hda Hdb. pose proof (zlen_nonneg x). pose proof (zlen_nonneg y).
  eapply wp_mono; [apply combine_spec; [exact Ha|exact Hb|done| |]|].
  - split; [size_lia|]. by right; right.
  - intros blk off [->| ->]; [by eapply Hda|by eapply Hdb].
  - intros total m' (_ & Ho & Hc). split; [|done]. right.
    assert (is_null out = false) as Hn by (by destruct Hv as (? & ? & ? & -> & _)).
    rewrite Hn, (proj2 (Z.eqb_neq out_size 0)) in Hc by lia. cbn [orb] in Hc.
    rewrite take_ge in Hc; [done|]. pose proof (path_join_length x y). unfold zlen in *. lia.
Qed.

(** ** Properties *)

(** C30. [d4np_path_combine] is free of undefined behaviour and joins the
    segments: it drops the separators at the end of the left segment and at
    the start of the right one and puts one between them if both are left
    (one in front, if the left segment is the root).  It returns the length of
    the join whatever the size of the buffer, and leaves the longest prefix
    that fits in the buffer, NUL-terminated, writing nothing else, and nothing
    at all if the buffer is [NULL] or of size 0. *)
Theorem path_combine_exact m out out_size a b x y :
  segment m a x -> segment m b y -> zlen x + zlen y < PTRDIFF_MAX -> out_ok m out out_size ->
  (forall blk off, a = Ptr blk off \/ b = Ptr blk off -> ~ touches [out] blk) ->
  wp (d4np_path_combine out out_size a b) m (fun total m' =>
    total = zlen (path_join x y) /\ only [out] m m' /\
    if is_null out || (out_size =? 0) then m' = m
    else cstring m' out (take (Z.to_nat (out_size - 1)) (path_join x y))).
Proof. apply combine_spec. Qed.

(** Joining paths is associative on both platforms: joining the first two
    of three segments into a buffer with room for them and then the third, or
    the last two and then the first, is free of undefined behaviour, returns the
    same length and leaves the same text, truncated the same way. *)
Theorem path_combine_assoc m t tsize out out_size a b c x y z :
  segment m a x -> segment m b y -> segment m c z ->
  zlen x + zlen y + zlen z + 2 < tsize -> tsize <= PTRDIFF_MAX -> 0 < out_size <= SIZE_MAX ->
  valid m t tsize -> valid m out out_size ->
  apart a t -> apart b t -> apart c t -> apart a out -> apart b out -> apart c out -> apart t out -> apart out t ->
  let text := path_join (path_join x y) z in
  let joined := fun total m' => total = zlen text /\ cstring m' out (take (Z.to_nat (out_size - 1)) text) in
  wp (d4np_path_combine t tsize a b ;; d4np_path_combine out out_size t c) m joined /\
  wp (d4np_path_combine t tsize b c ;; d4np_path_combine out out_size a t) m joined.
Proof.
  intros Ha Hb Hc Hsz Hmax Hn Ht Hout Hat Hbt Hct Hao Hbo Hco Hto Hot text joined.
  pose proof (zlen_nonneg x). pose proof (zlen_nonneg y). pose proof (zlen_nonneg z).
  assert (is_null out = false) as Hnull by (by destruct Hout as (? & ? & ? & -> & _)).
  assert (forall m1 p q u v, only [t] m m1 -> segment m1 p u -> segment m1 q v -> zlen u + zlen v < PTRDIFF_MAX ->
    apart p out -> apart q out -> path_join u v = text -> wp (d4np_path_combine out out_size p q) m1 joined) as Hlast.
  { intros m1 p q u v Ho Hp Hq Hlen Hpo Hqo E. eapply wp_mono; [apply combine_spec; [exact Hp|exact Hq|done| |]|].
    - split; [size_lia|]. right; right. by eapply valid_only.
    - intros blk off [->| ->]; [by eapply Hpo|by eapply Hqo].
    - intros total m' (-> & _ & Hcs). rewrite E, Hnull, (proj2 (Z.eqb_neq out_size 0)) in * by lia. done. }
  pose proof (path_join_length x y). pose proof (path_join_length y z).
  split; wp_bind; (eapply wp_mono; [eapply combine_full; eauto; size_lia|]); intros total m1 [Hs1 Ho1].
  - eapply Hlast; eauto using segment_only. size_lia.
  - eapply Hlast; eauto using segment_only; [size_lia|]. unfold text. by rewrite path_join_assoc.
Qed.

End platform.

(** ** Witness *)

(** ["a//"] and ["/b"] joined into a buffer of 3 bytes: ["a/"], 3. *)
Definition segs_mem : mem :=
  Mem (<[0%nat := Block 16 (Byte <$> [97; 47; 47; 0])]> (<[1%nat := Block 32 (Byte <$> [47; 98; 0])]>
       {[ 2%nat := Block 48 (replicate 3 Undef) ]})) 3.

Lemma path_combine_exact_witness :
  exists m', d4np_path_combine Posix (Ptr 2 0) 3 (Ptr 0 0) (Ptr 1 0) segs_mem = Some (3, m') /\
    cstring m' (Ptr 2 0) [97; 47].
Proof.
  destruct (path_combine_exact Posix segs_mem (Ptr 2 0) 3 (Ptr 0 0) (Ptr 1 0) [97; 47; 47] [47; 98])
    as (total & m' & Hr & -> & _ & Hc).
  - right. split; [reflexivity|set_solver].
  - right. split; [reflexivity|set_solver].
  - by vm_compute.
  - split; [by vm_compute|]. right; right. exists 2%nat, 0, (Block 48 (replicate 3 Undef)). by split_and!.
  - intros blk off H [o Ho]. set_solver.
  - exists m'. split; [exact Hr|exact Hc].
Defined.

(** ["a//"], ["/b"] and ["c"] with a buffer of 16 bytes and one of 4. *)
Definition three_mem : mem :=
  Mem (<[3%nat := Block 64 (Byte <$> [99; 0])]> (<[4%nat := Block 80 (replicate 16 Undef)]>
      (<[5%nat := Block 96 (replicate 4 Undef)]> (m_heap segs_mem)))) 6.

Lemma path_combine_assoc_witness :
  wp (d4np_path_combine Win32 (Ptr 4 0) 16 (Ptr 0 0) (Ptr 1 0) ;;
      d4np_path_combine Win32 (Ptr 5 0) 4 (Ptr 4 0) (Ptr 3 0)) three_mem
    (fun total m' => total = 5 /\ cstring m' (Ptr 5 0) [97; 92; 98]).
Proof.
  assert (forall p q, p <> q -> apart (Ptr p 0) (Ptr q 0)) as Hap
    by (intros p q Hpq blk off [= <- _]; by rewrite touches_singleton).
  apply (path_combine_assoc Win32 three_mem (Ptr 4 0) 16 (Ptr 5 0) 4 (Ptr 0 0) (Ptr 1 0) (Ptr 3 0)
    [97; 47; 47] [47; 98] [99]); try (by apply Hap); try (by vm_compute).
  - right. split; [reflexivity|set_solver].
  - right. split; [reflexivity|set_solver].
  - right. split; [reflexivity|set_solver].
  - exists 4%nat, 0, (Block 80 (replicate 16 Undef)). by split_and!.
  - exists 5%nat, 0, (Block 96 (replicate 4 Undef)). by split_and!.
Defined.

End Path.
