(* ===== verification/Clock.v ===== *)
(** * The monotonic clock ([d4np/sys/clock.h], [clock.c])

    The conversions to nanoseconds and milliseconds on both platforms; the
    readings of the system clocks are arguments. *)

From S2P Require Import Prelude.

Local Open Scope Z_scope.

Module Clock.

(** [struct timespec], as [clock_gettime] fills it in. *)
Record timespec := Timespec { tv_sec : Z; tv_nsec : Z }.

(** What the system answers: a POSIX time, or on Windows the frequency and
    the value of the performance counter ([LONGLONG QuadPart]). *)
Inductive clock_reading :=
  | PosixClock (ts : timespec)
  | WinClock (freq counter : Z).

Definition d4np_timestamp_ns_posix (ts : timespec) : Z :=
  wrap (tv_sec ts) ⊠ 1000000000 ⊞ wrap (tv_nsec ts).

Definition d4np_timestamp_ns_win (freq counter : Z) : Z :=
  let f := wrap freq in
  let t := wrap counter in
  (t / f) ⊠ 1000000000 ⊞ ((t mod f) ⊠ 1000000000) / f.

Definition d4np_timestamp_ns (now : clock_reading) : Z :=
  match now with
  | PosixClock ts => d4np_timestamp_ns_posix ts
  | WinClock freq counter => d4np_timestamp_ns_win freq counter
  end.

Definition d4np_timestamp_ms (now : clock_reading) : Z := d4np_timestamp_ns now / 1000000.

(** A reading of a POSIX clock before the year 2500 or so. *)
Definition reading (ts : timespec) : Prop :=
  0 <= tv_sec ts < 2 ^ 34 /\ 0 <= tv_nsec ts < 1000000000.

Definition earlier (a b : timespec) : Prop :=
  tv_sec a < tv_sec b \/ tv_sec a = tv_sec b /\ tv_nsec a <= tv_nsec b.

(** A reading of a counter of at most 18 GHz whose time in nanoseconds fits
    in 64 bits (over 500 years of running). *)
Definition counts (f t : Z) : Prop :=
  0 < f <= 18000000000 /\ 0 <= t < 2 ^ 63 /\ t * 1000000000 / f <= SIZE_MAX.

Lemma timestamp_ns_exact ts :
  reading ts -> d4np_timestamp_ns (PosixClock ts) = tv_sec ts * 1000000000 + tv_nsec ts.
Proof.
  unfold reading. cbn [d4np_timestamp_ns]. unfold d4np_timestamp_ns_posix.
  change (2 ^ 34) with 17179869184. intros.
  rewrite !wrap_small by size_lia. by rewrite size_mul_small, size_add_small by size_lia.
Qed.

(** Splitting the division loses nothing. *)
Lemma split_division t f k : 0 < f -> 0 <= t -> 0 < k -> t / f * k + (t mod f * k) / f = t * k / f.
Proof.
  intros Hf Ht Hk. rewrite (Z.div_mod t f) at 3 by lia.
  replace ((f * (t / f) + t mod f) * k) with (t mod f * k + t / f * k * f) by ring.
  rewrite Z.div_add by lia. lia.
Qed.

Lemma timestamp_ns_win_exact f t :
  counts f t -> d4np_timestamp_ns (WinClock f t) = t * 1000000000 / f.
Proof.
  unfold counts. change (2 ^ 63) with 9223372036854775808. intros (Hf & Ht & Hfit).
  pose proof (split_division t f 1000000000 ltac:(lia) ltac:(lia) ltac:(lia)) as E.
  pose proof (Z.mod_pos_bound t f ltac:(lia)) as Hr. pose proof (Z.div_pos t f ltac:(lia) ltac:(lia)).
  assert (0 <= t mod f * 1000000000 / f) by (apply Z.div_pos; lia).
  cbn [d4np_timestamp_ns]. unfold d4np_timestamp_ns_win. rewrite !wrap_small by size_lia.
  rewrite (size_mul_small (t mod f)) by size_lia.
  rewrite size_mul_small by size_lia. rewrite size_add_small by size_lia. exact E.
Qed.

(** Cutting the nanoseconds to milliseconds rounds the time down once. *)
Lemma seconds_to_ms s n : (s * 1000000000 + n) / 1000000 = s * 1000 + n / 1000000.
Proof. replace (s * 1000000000 + n) with (n + s * 1000 * 1000000) by ring. rewrite Z.div_add by lia. lia. Qed.

Lemma counter_to_ms t f : 0 < f -> t * 1000000000 / f / 1000000 = t * 1000 / f.
Proof.
  intros Hf. rewrite Z.div_div by lia. replace (t * 1000000000) with (t * 1000 * 1000000) by ring.
  apply Z.div_mul_cancel_r; lia.
Qed.

(** C32. Both conversions are exact and keep the order of the readings, on
    both platforms: for every POSIX time that fits the nanoseconds are
    [tv_sec * 10^9 + tv_nsec] and the milliseconds
    [tv_sec * 1000 + tv_nsec / 10^6]; for every Windows counter of at most
    18 GHz whose time fits, the nanoseconds are [t * 10^9 / f], although that
    product may overflow 64 bits, and the milliseconds [t * 1000 / f]. *)
Theorem clock_exact_monotone :
  (forall a b, reading a -> reading b -> earlier a b ->
    d4np_timestamp_ns (PosixClock a) = tv_sec a * 1000000000 + tv_nsec a /\
    d4np_timestamp_ms (PosixClock a) = tv_sec a * 1000 + tv_nsec a / 1000000 /\
    d4np_timestamp_ns (PosixClock a) <= d4np_timestamp_ns (PosixClock b) /\
    d4np_timestamp_ms (PosixClock a) <= d4np_timestamp_ms (PosixClock b)) /\
  (forall f t u, counts f t -> counts f u -> t <= u ->
    d4np_timestamp_ns (WinClock f t) = t * 1000000000 / f /\
    d4np_timestamp_ms (WinClock f t) = t * 1000 / f /\
    d4np_timestamp_ns (WinClock f t) <= d4np_timestamp_ns (WinClock f u) /\
    d4np_timestamp_ms (WinClock f t) <= d4np_timestamp_ms (WinClock f u)).
Proof.
  unfold d4np_timestamp_ms. split.
  - intros a b Ha Hb He. rewrite !timestamp_ns_exact by done.
    assert (tv_sec a * 1000000000 + tv_nsec a <= tv_sec b * 1000000000 + tv_nsec b)
      by (unfold reading, earlier in *; lia).
    split_and!; [done|apply seconds_to_ms|done|apply Z.div_le_mono; lia].
  - intros f t u Ht Hu Hle. rewrite !timestamp_ns_win_exact by done. destruct Ht as (Hf & _).
    assert (t * 1000000000 / f <= u * 1000000000 / f) by (apply Z.div_le_mono; lia).
    split_and!; [done|apply counter_to_ms; lia|done|apply Z.div_le_mono; lia].
Qed.

(** ** Witness *)

Lemma clock_exact_monotone_witness :
  d4np_timestamp_ms (PosixClock (Timespec 1 999999999)) = 1999 /\
  d4np_timestamp_ms (PosixClock (Timespec 1 999999999)) <= d4np_timestamp_ms (PosixClock (Timespec 2 0)) /\
  d4np_timestamp_ns (WinClock 10000000 (2 ^ 50)) = 2 ^ 50 * 1000000000 / 10000000 /\
  d4np_timestamp_ms (WinClock 10000000 (2 ^ 50)) = 2 ^ 50 * 1000 / 10000000.
Proof.
  destruct clock_exact_monotone as [H1 H2].
  destruct (H1 (Timespec 1 999999999) (Timespec 2 0)) as (_ & -> & _ & Hm);
    [by vm_compute|by vm_compute|by left|].
  destruct (H2 10000000 (2 ^ 50) (2 ^ 50)) as (Hn & Hw & _); [by vm_compute|by vm_compute|done|].
  split_and!; [done|exact Hm|exact Hn|exact Hw].
Defined.

End Clock.
