(* ===== verification/Uuid.v ===== *)
(** * UUIDs ([d4np/sys/uuid.h], [uuid.c])

    The per-thread generator, version-4 UUIDs and their text. *)

From S2P Require Import Prelude Memory StrView Clock.

Local Open Scope Z_scope.

Module Uuid.

(** ** The generator *)

Definition GAMMA : Z := 0x9E3779B97F4A7C15.
Definition MIX1 : Z := 0xBF58476D1CE4E5B9.
Definition MIX2 : Z := 0x94D049BB133111EB.

(** The value returned and the new [*state]. *)
Definition splitmix64 (state : Z) : Z * Z :=
  let state := state ⊞ GAMMA in
  let z := state in
  let z := Z.lxor z (Z.shiftr z 30) ⊠ MIX1 in
  let z := Z.lxor z (Z.shiftr z 27) ⊠ MIX2 in
  (Z.lxor z (Z.shiftr z 31), state).

(** The thread-local [g_rng_state] and [g_rng_seeded]. *)
Record rng := Rng { g_rng_state : Z; g_rng_seeded : bool }.

(** What a thread sees when it seeds: the clock and the addresses of its two
    variables. *)
Record env := Env { env_now : Clock.clock_reading; addr_state : Z; addr_seeded : Z }.

Definition rng_seed (e : env) : Z :=
  let seed := Clock.d4np_timestamp_ns (env_now e) in
  let seed := Z.lxor seed (wrap (addr_state e)) in
  let seed := Z.lxor seed (wrap (Z.shiftl (addr_seeded e) 17)) in
  if seed =? 0 then 0x123456789ABCDEF0 else seed.

Definition next_random (e : env) (r : rng) : Z * rng :=
  let state := if g_rng_seeded r then g_rng_state r else rng_seed e in
  let '(z, state) := splitmix64 state in (z, Rng state true).

(** [x->bytes[i] = (uint8_t)((x->bytes[i] & keep) | set)]. *)
Definition set_bits (p : ptr) (keep set : Z) : M unit :=
  c ← load_byte p; store_byte p (Z.lor (Z.land c keep) set mod 256).

Definition d4np_uuid_generate (e : env) (r : rng) (out : ptr) : M rng :=
  if is_null out then mret r
  else
    let '(a, r) := next_random e r in
    let '(b, r) := next_random e r in
    store out (Byte <$> le_bytes 8 a) ;;
    store (padd out 8) (Byte <$> le_bytes 8 b) ;;
    set_bits (padd out 6) 0x0F 0x40 ;;
    set_bits (padd out 8) 0x3F 0x80 ;;
    mret r.

(** ** Formatting *)

(** The table ["0123456789abcdef"]. *)
Definition hex : list Z := [48; 49; 50; 51; 52; 53; 54; 55; 56; 57; 97; 98; 99; 100; 101; 102].

Definition hex_digit (d : Z) : Z := hex !!! Z.to_nat d.

Definition dash_at (i : Z) : bool := (i =? 4) || (i =? 6) || (i =? 8) || (i =? 10).

(** The [for] loop, [todo] bytes from the end; the value is [pos]. *)
Fixpoint format_loop (u out : ptr) (i pos : Z) (todo : nat) : M Z :=
  match todo with
  | O => mret pos
  | S todo =>
      pos ← (if dash_at i then store_byte (padd out pos) 45 ;; mret (pos ⊞ 1) else mret pos);
      c ← load_byte (padd u i);
      store_byte (padd out pos) (hex_digit (Z.land (Z.shiftr c 4) 0x0F)) ;;
      c ← load_byte (padd u i);
      store_byte (padd out (pos ⊞ 1)) (hex_digit (Z.land c 0x0F)) ;;
      format_loop u out (i ⊞ 1) (pos ⊞ 1 ⊞ 1) todo
  end.

Definition d4np_uuid_format (u out : ptr) : M unit :=
  if is_null u || is_null out then mret tt
  else pos ← format_loop u out 0 0 16; store_byte (padd out pos) 0.

(** ** The canonical text *)

Definition hex2 (c : Z) : list Z := [hex_digit (c / 16); hex_digit (c mod 16)].

(** Five groups of hexadecimal digits, joined by dashes. *)
Definition uuid_text (bs : list Z) : list Z :=
  StrView.join 45 ((fun g => g ≫= hex2) <$>
    [take 4 bs; take 2 (drop 4 bs); take 2 (drop 6 bs); take 2 (drop 8 bs); drop 10 bs]).

(** The value of a hexadecimal digit, and the bytes of a text. *)
Definition unhex (c : Z) : Z := if c <? 97 then c - 48 else c - 87.

Fixpoint unhex2 (cs : list Z) : list Z :=
  match cs with
  | c :: d :: cs => unhex c * 16 + unhex d :: unhex2 cs
  | _ => []
  end.

Definition uuid_of_text (t : list Z) : list Z := unhex2 (filter (fun c => c <> 45) t).

(** ** Bits *)

Lemma byte_cases (P : Z -> Prop) `{forall c, Decision (P c)} :
  forallb (fun c => bool_decide (P c)) (Z.of_nat <$> seq 0 256) = true -> forall c, 0 <= c < 256 -> P c.
Proof.
  intros H0 c Hc. rewrite forallb_forall in H0. apply (bool_decide_eq_true_1 _), H0.
  apply list_elem_of_In, list_elem_of_fmap. exists (Z.to_nat c). split; [lia|]. apply elem_of_seq. lia.
Qed.

Lemma hex_nibbles c : 0 <= c < 256 ->
  [hex_digit (Z.land (Z.shiftr c 4) 15); hex_digit (Z.land c 15)] = hex2 c.
Proof. apply (byte_cases (fun c => [hex_digit (Z.land (Z.shiftr c 4) 15); hex_digit (Z.land c 15)] = hex2 c)). by vm_compute. Qed.

Lemma hex_inverse c : 0 <= c < 256 ->
  unhex (hex_digit (c / 16)) * 16 + unhex (hex_digit (c mod 16)) = c /\
  hex_digit (c / 16) <> 45 /\ hex_digit (c mod 16) <> 45 /\ hex_digit (c / 16) <> 0 /\ hex_digit (c mod 16) <> 0.
Proof.
  apply (byte_cases (fun c => unhex (hex_digit (c / 16)) * 16 + unhex (hex_digit (c mod 16)) = c /\
    hex_digit (c / 16) <> 45 /\ hex_digit (c mod 16) <> 45 /\ hex_digit (c / 16) <> 0 /\ hex_digit (c mod 16) <> 0)).
  by vm_compute.
Qed.

(** The version and variant bits, and the bits that are kept. *)
Lemma version_byte c : 0 <= c < 256 ->
  let v := Z.lor (Z.land c 15) 64 mod 256 in 0 <= v < 256 /\ v / 16 = 4 /\ v mod 16 = c mod 16.
Proof.
  apply (byte_cases (fun c => let v := Z.lor (Z.land c 15) 64 mod 256 in 0 <= v < 256 /\ v / 16 = 4 /\ v mod 16 = c mod 16)).
  by vm_compute.
Qed.

Lemma variant_byte c : 0 <= c < 256 ->
  let v := Z.lor (Z.land c 63) 128 mod 256 in 0 <= v < 256 /\ v / 64 = 2 /\ v mod 64 = c mod 64.
Proof.
  apply (byte_cases (fun c => let v := Z.lor (Z.land c 63) 128 mod 256 in 0 <= v < 256 /\ v / 64 = 2 /\ v mod 64 = c mod 64)).
  by vm_compute.
Qed.

(** ** The stream does not repeat *)

Lemma lxor_size a b : is_size a -> is_size b -> is_size (Z.lxor a b).
Proof.
  intros Ha Hb. assert (0 <= Z.lxor a b) by (apply Z.lxor_nonneg; size_lia).
  split; [done|]. destruct (decide (Z.lxor a b = 0)) as [->|]; [size_lia|].
  assert (Z.lxor a b < 2 ^ 64) as H64; [|size_lia]. apply Z.log2_lt_pow2; [lia|].
  eapply Z.le_lt_trans; [apply Z.log2_lxor; size_lia|].
  assert (forall x, is_size x -> Z.log2 x < 64) as Hlog.
  { intros x Hx. destruct (decide (x = 0)) as [->|]; [done|]. apply Z.log2_lt_pow2; [size_lia|]. size_lia. }
  apply Z.max_lub_lt; auto.
Qed.

(** [z ^ (z >> k)] can be undone. *)
Lemma xorshift_inj k a b :
  0 < k -> is_size a -> is_size b -> Z.lxor a (Z.shiftr a k) = Z.lxor b (Z.shiftr b k) -> a = b.
Proof.
  intros Hk Ha Hb E. apply Z.bits_inj'. intros n Hn.
  assert (forall j, 64 - n <= j -> 0 <= n -> Z.testbit a n = Z.testbit b n) as H; [|by apply (H (64 - n)); lia].
  clear Hn. intros j. revert n. pose proof (Z.le_refl 0) as Hj0.
  assert (forall (f : nat) n, 0 <= n -> 64 - n <= Z.of_nat f -> Z.testbit a n = Z.testbit b n) as H.
  { induction f as [|f IH]; intros n Hn Hf.
    - rewrite !Z.testbit_eqb by lia. rewrite !Z.div_small; [done|..];
        (split; [size_lia|]; apply Z.lt_le_trans with (2 ^ 64); [size_lia|apply Z.pow_le_mono_r; lia]).
    - assert (Z.testbit (Z.lxor a (Z.shiftr a k)) n = Z.testbit (Z.lxor b (Z.shiftr b k)) n) as En by (by rewrite E).
      rewrite !Z.lxor_spec, !Z.shiftr_spec in En by lia. rewrite (IH (n + k)) in En by lia.
      by destruct (Z.testbit a n), (Z.testbit b n), (Z.testbit b (n + k)). }
  intros n H1 H2. apply (H (Z.to_nat j)); lia.
Qed.

(** Multiplication by an odd constant can be undone. *)
Lemma size_mul_inj k k' a b : k * k' mod SIZE_MOD = 1 -> is_size a -> is_size b -> a ⊠ k = b ⊠ k -> a = b.
Proof.
  intros Hk Ha Hb E. assert (forall x, is_size x -> (x ⊠ k) ⊠ k' = x) as Hinv.
  { intros x Hx. unfold size_mul, wrap. rewrite Z.mul_mod_idemp_l, <- Z.mul_assoc by done.
    rewrite Z.mul_mod, Hk by done. rewrite Z.mul_1_r, Z.mod_mod by done. by apply wrap_small. }
  by rewrite <- (Hinv a), <- (Hinv b), E.
Qed.

(** The output as a function of the advanced state. *)
Definition mix (s : Z) : Z :=
  let z := Z.lxor s (Z.shiftr s 30) ⊠ MIX1 in
  let z := Z.lxor z (Z.shiftr z 27) ⊠ MIX2 in
  Z.lxor z (Z.shiftr z 31).

Lemma splitmix64_mix s : splitmix64 s = (mix (s ⊞ GAMMA), s ⊞ GAMMA).
Proof. reflexivity. Qed.

Lemma shiftr_size a k : 0 <= k -> is_size a -> is_size (Z.shiftr a k).
Proof.
  intros Hk [H0 H1]. split; [by apply Z.shiftr_nonneg|]. rewrite Z.shiftr_div_pow2 by done.
  etrans; [|exact H1]. apply Z.div_le_upper_bound; [by apply Z.pow_pos_nonneg|].
  assert (1 <= 2 ^ k) by (change 1 with (2 ^ 0); apply Z.pow_le_mono_r; lia). nia.
Qed.

Lemma mix_inj s t : is_size s -> is_size t -> mix s = mix t -> s = t.
Proof.
  intros Hs Ht E. unfold mix in E. apply xorshift_inj in E; [|lia|apply wrap_size|apply wrap_size].
  assert (forall x k, 0 <= k -> is_size x -> is_size (Z.lxor x (Z.shiftr x k))) as Hx
    by (intros; apply lxor_size; auto using shiftr_size).
  apply (size_mul_inj _ 0x319642b2d24d8ec3) in E; [|done|apply Hx; [lia|apply wrap_size]..].
  apply xorshift_inj in E; [|lia|apply wrap_size|apply wrap_size].
  apply (size_mul_inj _ 0x96de1b173f119089) in E; [|done|apply Hx; [lia|done]..].
  by apply xorshift_inj in E.
Qed.

(** The first [n] values a thread draws from [r]. *)
Fixpoint randoms (e : env) (n : nat) (r : rng) : list Z :=
  match n with
  | O => []
  | S n => let '(z, r) := next_random e r in z :: randoms e n r
  end.

Definition start (e : env) (r : rng) : Z := if g_rng_seeded r then g_rng_state r else rng_seed e.

Lemma randoms_lookup e n r i :
  (i < n)%nat -> randoms e n r !! i = Some (mix (start e r ⊞ Z.of_nat (S i) * GAMMA)).
Proof.
  revert r i. induction n as [|n IH]; intros r i Hi; [lia|]. cbn [randoms]. unfold next_random.
  fold (start e r). rewrite splitmix64_mix. destruct i as [|i]; [done|].
  simpl lookup. rewrite IH by lia. f_equal. f_equal. unfold start at 1. cbn [g_rng_seeded g_rng_state].
  unfold size_add, wrap. rewrite Z.add_mod_idemp_l by done. f_equal. lia.
Qed.

Lemma stream_distinct e r n :
  Z.of_nat n <= 2 ^ 64 -> NoDup (randoms e n r).
Proof.
  intros Hn. apply NoDup_alt. intros i j x Hi Hj.
  assert (length (randoms e n r) = n) as Hlen.
  { clear. revert r. induction n as [|n IH]; intros r; [done|]. simpl. destruct (next_random e r). simpl. by rewrite IH. }
  pose proof (lookup_lt_Some _ _ _ Hi) as Hi'. pose proof (lookup_lt_Some _ _ _ Hj) as Hj'. rewrite Hlen in Hi', Hj'.
  rewrite randoms_lookup in Hi, Hj by done. rewrite <- Hj in Hi. injection Hi as E. clear Hj Hlen.
  apply mix_inj in E; [|apply wrap_size..].
  assert (Z.of_nat (S i) mod SIZE_MOD = Z.of_nat (S j) mod SIZE_MOD) as Em.
  { assert (forall k : Z, (k * GAMMA * 0xf1de83e19937733d) mod SIZE_MOD = k mod SIZE_MOD) as Hg.
    { intros k. rewrite <- Z.mul_assoc, Z.mul_mod by done.
      change ((GAMMA * 0xf1de83e19937733d) mod SIZE_MOD) with 1. by rewrite Z.mul_1_r, Z.mod_mod. }
    rewrite <- (Hg (Z.of_nat (S i))), <- (Hg (Z.of_nat (S j))).
    rewrite Z.mul_mod, (Z.mul_mod (Z.of_nat (S j) * GAMMA)) by done. do 2 f_equal.
    apply (f_equal (fun x => (x - start e r) mod SIZE_MOD)) in E. unfold size_add, wrap in E.
    rewrite !Zminus_mod_idemp_l in E.
    by rewrite !(Z.add_simpl_l (start e r)) in E. }
  assert (forall k, (k < n)%nat -> Z.of_nat (S k) mod SIZE_MOD = if decide (Z.of_nat (S k) = 2 ^ 64) then 0 else Z.of_nat (S k)) as Hm.
  { intros k Hk. case_decide as Hd; [by rewrite Hd|]. apply Z.mod_small. size_lia. }
  rewrite !Hm in Em by done. do 2 case_decide; lia.
Qed.

(** ** Generating *)

(** The two words with the version and variant bits set. *)
Definition v4_bytes (a b : Z) : list Z :=
  let bs := le_bytes 8 a ++ le_bytes 8 b in
  let bs := <[6%nat := Z.lor (Z.land (bs !!! 6%nat) 15) 64 mod 256]> bs in
  <[8%nat := Z.lor (Z.land (bs !!! 8%nat) 63) 128 mod 256]> bs.

Lemma set_bits_spec b off n m bs i keep set :
  load_bytes (Ptr b off) n m = Some (bs, m) -> (i < length bs)%nat ->
  wp (set_bits (Ptr b (off + Z.of_nat i)) keep set) m (fun _ m' =>
    load_bytes (Ptr b off) n m' = Some (<[i := Z.lor (Z.land (bs !!! i) keep) set mod 256]> bs, m') /\
    only [Ptr b off] m m').
Proof.
  intros Hl Hi. destruct (load_bytes_zlen _ _ _ _ Hl) as [Hn Hz]. unfold zlen in Hz. unfold set_bits. wp_bind.
  destruct (lookup_lt_is_Some_2 bs i Hi) as [c Hc]. rewrite (list_lookup_total_correct _ _ _ Hc).
  eapply wp_run; [by eapply load_byte_at|]. set (v := Z.lor _ _ mod 256). apply load_bytes_load in Hl.
  eapply wp_mono; [apply (store_region b off n m _ (Z.of_nat i) [Byte v] Hl); [lia|change (zlen [Byte v]) with 1; lia]|].
  intros _ m' [Hl' Ho]. split; [|done]. apply load_bytes_load. rewrite Hl'. do 2 f_equal.
  unfold splice. rewrite Nat2Z.id. rewrite list_fmap_insert. rewrite insert_take_drop by (by rewrite length_fmap).
  simpl. by rewrite Nat.add_1_r.
Qed.

Lemma generate_spec m e r b off :
  valid m (Ptr b off) 16 ->
  wp (d4np_uuid_generate e r (Ptr b off)) m (fun r' m' => exists w1 w2,
    randoms e 2 r = [w1; w2] /\ r' = snd (next_random e (snd (next_random e r))) /\
    load_bytes (Ptr b off) 16 m' = Some (v4_bytes w1 w2, m') /\ only [Ptr b off] m m').
Proof.
  intros (b' & off' & blk & [= <- <-] & Hb & Ho & Hz).
  assert (load (Ptr b off) 16 m = Some (sub off 16 (blk_data blk), m)) as Hl by (simpl; by rewrite Hb, decide_True by lia).
  assert (zlen (sub off 16 (blk_data blk)) = 16) as Hlen by (apply zlen_sub; lia).
  unfold d4np_uuid_generate. cbn [is_null randoms].
  destruct (next_random e r) as [w1 r1] eqn:E1. destruct (next_random e r1) as [w2 r2] eqn:E2.
  assert (forall w, length (le_bytes 8 w) = 8%nat) as H8 by (intros; apply length_le_bytes).
  assert (forall w, zlen (Byte <$> le_bytes 8 w) = 8) as Hz8 by (intros w; rewrite zlen_fmap; unfold zlen; by rewrite H8).
  wp_bind. rewrite <- (Z.add_0_r off) at 1.
  eapply wp_mono; [apply (store_region b off 16 m _ 0 _ Hl); rewrite ?Hz8; lia|]. intros _ m1 [Hl1 Ho1].
  wp_bind. cbn [padd].
  eapply wp_mono; [apply (store_region b off 16 m1 _ 8 _ Hl1); rewrite ?Hz8; lia|]. intros _ m2 [Hl2 Ho2].
  assert (load_bytes (Ptr b off) 16 m2 = Some (le_bytes 8 w1 ++ le_bytes 8 w2, m2)) as Hl2'.
  { apply load_bytes_load. rewrite Hl2. do 2 f_equal. rewrite fmap_app. unfold splice.
    rewrite !length_fmap, !H8. rewrite (drop_ge _ (Z.to_nat 8 + 8)).
    - by rewrite app_nil_r.
    - rewrite !length_app, length_fmap, H8, length_take, length_drop. unfold zlen in Hlen. simpl. lia. }
  assert (length (le_bytes 8 w1 ++ le_bytes 8 w2) = 16%nat) as H16 by (by rewrite length_app, !H8).
  wp_bind. eapply wp_mono; [apply (set_bits_spec b off 16 m2 _ 6 _ _ Hl2'); lia|]. intros _ m3 [Hl3 Ho3].
  wp_bind. eapply wp_mono; [apply (set_bits_spec b off 16 m3 _ 8 _ _ Hl3); rewrite length_insert; lia|].
  intros _ m4 [Hl4 Ho4]. wp_ret. exists w1, w2. split; [done|]. split; [cbn [snd]; by rewrite E2|].
  split; [exact Hl4|]. eauto using only_trans.
Qed.

(** ** Writing the text *)

(** [txt] has been written to [cap] bytes at [Ptr b off] since [m0]. *)
Definition written (m0 : mem) (b : nat) (off cap : Z) (txt : list Z) (m : mem) : Prop :=
  load_bytes (Ptr b off) (zlen txt) m = Some (txt, m) /\ only [Ptr b off] m0 m /\ valid m (Ptr b off) cap.

Lemma written_put m0 b off cap txt m c :
  written m0 b off cap txt m -> zlen txt < cap ->
  wp (store_byte (padd (Ptr b off) (zlen txt)) c) m (fun _ => written m0 b off cap (txt ++ [c])).
Proof.
  intros (Hl & Ho & b' & off' & blk & [= <- <-] & Hb & H0 & H1) Hc.
  eapply wp_mono; [apply (append_byte m b off blk txt c); auto; lia|]. intros _ m' (Hl' & Ho' & blk' & Hb' & Hz').
  split; [by rewrite zlen_app|]. split; [by eapply only_trans|].
  exists b, off, blk'. split_and!; auto. lia.
Qed.

Fixpoint fmt (i : Z) (bs : list Z) : list Z :=
  match bs with
  | [] => []
  | c :: bs => (if dash_at i then [45] else []) ++ hex2 c ++ fmt (i + 1) bs
  end.

Section format.
Variables (m0 : mem) (ub : nat) (uoff : Z) (b : nat) (off : Z) (bs : list Z).
Hypothesis Hu : load_bytes (Ptr ub uoff) (zlen bs) m0 = Some (bs, m0).
Hypothesis Hne : ub <> b.
Hypothesis Hrange : Forall (fun c => 0 <= c < 256) bs.
Hypothesis H16 : length bs = 16%nat.

Lemma source_byte txt m i c :
  written m0 b off 37 txt m -> bs !! i = Some c -> load_byte (padd (Ptr ub uoff) (Z.of_nat i)) m = Some (c, m).
Proof.
  intros (_ & Ho & _) Hc. simpl. eapply load_byte_at; [|exact Hc]. apply load_bytes_load.
  eapply load_only; [apply load_bytes_load; exact Hu|exact Ho|]. intros b' o [= <- _]. by rewrite touches_singleton.
Qed.

Lemma format_loop_spec i n txt m :
  (i + n = 16)%nat -> zlen txt + zlen (fmt (Z.of_nat i) (drop i bs)) <= 36 -> written m0 b off 37 txt m ->
  wp (format_loop (Ptr ub uoff) (Ptr b off) (Z.of_nat i) (zlen txt) n) m (fun pos m' =>
    let t := txt ++ fmt (Z.of_nat i) (drop i bs) in pos = zlen t /\ written m0 b off 37 t m').
Proof.
  revert i txt m. induction n as [|n IH]; intros i txt m Hi Hmax Hw; cbn [format_loop].
  - wp_ret. rewrite drop_ge, app_nil_r by lia. done.
  - destruct (lookup_lt_is_Some_2 bs i) as [c Hc]; [lia|].
    assert (0 <= c < 256) as Hcr by (by eapply (Forall_lookup_1 _ _ _ _ Hrange)).
    pose proof (hex_nibbles c Hcr) as [= Eh El]. rewrite (drop_S bs c) in Hmax |- * by done. cbn [fmt] in Hmax |- *.
    set (d := if dash_at (Z.of_nat i) then [45] else []) in *. rewrite !zlen_app in Hmax.
    change (zlen (hex2 c)) with 2 in Hmax. pose proof (zlen_nonneg txt). pose proof (zlen_nonneg d).
    replace (Z.of_nat i + 1) with (Z.of_nat (S i)) in * by lia.
    set (t := fmt (Z.of_nat (S i)) (drop (S i) bs)) in *. pose proof (zlen_nonneg t).
    wp_bind. apply wp_mono with (Φ := fun pos m' => pos = zlen (txt ++ d) /\ written m0 b off 37 (txt ++ d) m').
    { unfold d. destruct (dash_at (Z.of_nat i)) eqn:Hd.
      - wp_bind. eapply wp_mono; [apply written_put; [exact Hw|lia]|]. intros [] m' Hw'. wp_ret.
        split; [|done]. rewrite zlen_app, size_add_small; [done|size_lia].
      - wp_ret. by rewrite app_nil_r. }
    intros pos m1 [-> Hw1]. assert (zlen (txt ++ d) = zlen txt + zlen d) as Ez by apply zlen_app.
    wp_bind. eapply wp_run; [by eapply source_byte|]. wp_bind.
    eapply wp_mono; [apply written_put; [exact Hw1|lia]|]. intros [] m2 Hw2. rewrite Eh in Hw2.
    wp_bind. eapply wp_run; [by eapply source_byte|].
    assert (forall x, zlen ((txt ++ d) ++ [x]) = zlen (txt ++ d) + 1) as Ez1 by (intros; by rewrite zlen_app).
    wp_bind. rewrite (size_add_small (zlen (txt ++ d)) 1) by size_lia. rewrite <- (Ez1 (hex_digit (c / 16))).
    eapply wp_mono; [apply written_put; [exact Hw2|rewrite Ez1; lia]|]. intros [] m3 Hw3. rewrite El in Hw3.
    rewrite !size_add_small by (rewrite ?Ez1; size_lia). replace (Z.of_nat i + 1) with (Z.of_nat (S i)) by lia.
    set (txt3 := ((txt ++ d) ++ [hex_digit (c / 16)]) ++ [hex_digit (c mod 16)]) in *.
    assert (zlen txt3 = zlen (txt ++ d) + 2) as Ez3 by (unfold txt3; rewrite zlen_app, Ez1; change (zlen [hex_digit (c mod 16)]) with 1; lia).
    replace (zlen ((txt ++ d) ++ [hex_digit (c / 16)]) + 1) with (zlen txt3) by (rewrite Ez1; lia).
    eapply wp_mono; [apply IH; [lia|fold t; lia|exact Hw3]|]. fold t. intros pos m4.
    unfold txt3, hex2. by rewrite <- !app_assoc.
Qed.

End format.

(** ** Properties *)

Ltac bytes16 bs H := do 16 (destruct bs as [|? bs]; [discriminate H|]); destruct bs; [|discriminate H].

Lemma fmt_text bs : length bs = 16%nat -> fmt 0 bs = uuid_text bs.
Proof. intros H. bytes16 bs H. reflexivity. Qed.

Lemma hex_group g :
  Forall (fun c => 0 <= c < 256) g ->
  filter (fun c => c <> 45) (g ≫= hex2) = g ≫= hex2 /\ 0 ∉ g ≫= hex2 /\
  forall rest, unhex2 ((g ≫= hex2) ++ rest) = g ++ unhex2 rest.
Proof.
  induction g as [|c g IH]; intros Hf; [split; [done|]; split; [set_solver|done]|].
  apply Forall_cons in Hf as [Hc Hf]. destruct (IH Hf) as (IH1 & IH2 & IH3).
  destruct (hex_inverse c Hc) as (E & H1 & H2 & H3 & H4).
  change ((c :: g) ≫= hex2) with (hex_digit (c / 16) :: hex_digit (c mod 16) :: (g ≫= hex2)). split_and!.
  - rewrite !filter_cons_True by done. by rewrite IH1.
  - by rewrite !not_elem_of_cons.
  - intros rest. cbn [app unhex2]. by rewrite E, IH3.
Qed.

Lemma uuid_text_facts bs :
  length bs = 16%nat -> Forall (fun c => 0 <= c < 256) bs ->
  length (uuid_text bs) = 36%nat /\ 0 ∉ uuid_text bs /\ uuid_of_text (uuid_text bs) = bs.
Proof.
  intros H Hr. split; [clear Hr; bytes16 bs H; reflexivity|].
  assert (exists g1 g2 g3 g4 g5, bs = g1 ++ g2 ++ g3 ++ g4 ++ g5 /\
    uuid_text bs = (g1 ≫= hex2) ++ [45] ++ (g2 ≫= hex2) ++ [45] ++ (g3 ≫= hex2) ++ [45] ++ (g4 ≫= hex2) ++ [45] ++ (g5 ≫= hex2))
    as (g1 & g2 & g3 & g4 & g5 & E & Et).
  { exists (take 4 bs), (take 2 (drop 4 bs)), (take 2 (drop 6 bs)), (take 2 (drop 8 bs)), (drop 10 bs).
    split; [clear Hr; bytes16 bs H; reflexivity|reflexivity]. }
  rewrite Et. rewrite E in Hr. rewrite !Forall_app in Hr. destruct Hr as (H1 & H2 & H3 & H4 & H5).
  destruct (hex_group g1 H1) as (F1 & N1 & U1), (hex_group g2 H2) as (F2 & N2 & U2), (hex_group g3 H3) as (F3 & N3 & U3),
    (hex_group g4 H4) as (F4 & N4 & U4), (hex_group g5 H5) as (F5 & N5 & U5). split.
  - rewrite !not_elem_of_app. split_and!; auto; set_solver.
  - unfold uuid_of_text. rewrite !filter_app, F1, F2, F3, F4, F5.
    change (filter (fun c : Z => c <> 45) [45]) with (@nil Z). rewrite !app_nil_l.
    rewrite <- (app_nil_r (g5 ≫= hex2)), U1, U2, U3, U4, U5. cbn [unhex2]. by rewrite app_nil_r, E.
Qed.

Lemma format_spec m ub uoff b off bs :
  load_bytes (Ptr ub uoff) 16 m = Some (bs, m) -> Forall (fun c => 0 <= c < 256) bs -> ub <> b ->
  valid m (Ptr b off) 37 ->
  wp (d4np_uuid_format (Ptr ub uoff) (Ptr b off)) m (fun _ m' =>
    cstring m' (Ptr b off) (uuid_text bs) /\ only [Ptr b off] m m').
Proof.
  intros Hl Hr Hne Hv. destruct (load_bytes_zlen _ _ _ _ Hl) as [_ Hz].
  assert (length bs = 16%nat) as H16 by (unfold zlen in Hz; lia). rewrite <- Hz in Hl.
  destruct (uuid_text_facts bs H16 Hr) as (Hlen & Hn & _).
  assert (written m b off 37 [] m) as Hw.
  { split; [|split; [apply only_refl|done]]. destruct Hv as (b' & off' & blk & [= <- <-] & Hb & H0 & H1).
    apply load_bytes_load. simpl. change (@zlen Z []) with 0. by rewrite Hb, decide_True by lia. }
  unfold d4np_uuid_format. cbn [is_null orb]. wp_bind.
  pose proof (format_loop_spec m ub uoff b off bs Hl Hne Hr H16 0 16 [] m eq_refl) as Hf.
  rewrite drop_0 in Hf. change (Z.of_nat 0) with 0 in Hf. change (@zlen Z []) with 0 in Hf. rewrite fmt_text in Hf by done.
  eapply wp_mono; [apply Hf; [unfold zlen; lia|done]|]. cbv zeta. rewrite app_nil_l. intros pos m1 [-> Hw1].
  eapply wp_mono; [apply written_put; [exact Hw1|unfold zlen; lia]|]. intros [] m2 (Hl2 & Ho2 & _).
  split; [|done]. split; [|done]. by rewrite zlen_app in Hl2.
Qed.

(** The bits of a generated UUID. *)
Lemma v4_bytes_facts a b :
  let ws := le_bytes 8 a ++ le_bytes 8 b in let bs := v4_bytes a b in
  length bs = 16%nat /\ Forall (fun c => 0 <= c < 256) bs /\
  (forall i, i <> 6%nat -> i <> 8%nat -> bs !! i = ws !! i) /\
  (bs !!! 6%nat) / 16 = 4 /\ (bs !!! 6%nat) mod 16 = (ws !!! 6%nat) mod 16 /\
  (bs !!! 8%nat) / 64 = 2 /\ (bs !!! 8%nat) mod 64 = (ws !!! 8%nat) mod 64.
Proof.
  cbv zeta. unfold v4_bytes. set (ws := le_bytes 8 a ++ le_bytes 8 b).
  assert (length ws = 16%nat) as H16 by (unfold ws; by rewrite length_app, !length_le_bytes).
  assert (Forall (fun c => 0 <= c < 256) ws) as Hr by (apply Forall_app; split; apply le_bytes_range).
  assert (forall i, (i < 16)%nat -> 0 <= ws !!! i < 256) as Hw.
  { intros i Hi. apply (Forall_lookup_1 _ _ i _ Hr). apply list_lookup_lookup_total_lt. lia. }
  destruct (version_byte _ (Hw 6%nat ltac:(lia))) as (V1 & V2 & V3).
  rewrite (list_lookup_total_insert_ne ws 6 8) by lia.
  destruct (variant_byte _ (Hw 8%nat ltac:(lia))) as (W1 & W2 & W3).
  split_and!.
  - by rewrite !length_insert.
  - by repeat apply Forall_insert.
  - intros i ? ?. by rewrite !list_lookup_insert_ne by lia.
  - rewrite list_lookup_total_insert_ne, list_lookup_total_insert_eq by lia. done.
  - rewrite list_lookup_total_insert_ne, list_lookup_total_insert_eq by lia. done.
  - rewrite list_lookup_total_insert_eq by (rewrite length_insert; lia). done.
  - rewrite list_lookup_total_insert_eq by (rewrite length_insert; lia). done.
Qed.

(** The digits that show the version and the variant. *)
Lemma text_version bs :
  length bs = 16%nat -> Forall (fun c => 0 <= c < 256) bs -> (bs !!! 6%nat) / 16 = 4 -> (bs !!! 8%nat) / 64 = 2 ->
  uuid_text bs !! 14%nat = Some 52 /\ exists c, uuid_text bs !! 19%nat = Some c /\ c ∈ [56; 57; 97; 98].
Proof.
  intros H Hr H6 H8. assert (0 <= bs !!! 8%nat < 256) as H8r.
  { apply (Forall_lookup_1 _ _ 8 _ Hr). apply list_lookup_lookup_total_lt. lia. }
  assert (uuid_text bs !! 14%nat = Some (hex_digit ((bs !!! 6%nat) / 16)) /\
    uuid_text bs !! 19%nat = Some (hex_digit ((bs !!! 8%nat) / 16))) as [-> ->]
    by (clear -H; bytes16 bs H; split; reflexivity).
  rewrite H6. split; [done|]. eexists. split; [done|]. generalize dependent (bs !!! 8%nat). intros c Hc Hr8. revert c Hr8 Hc.
  apply (byte_cases (fun c => c / 64 = 2 -> hex_digit (c / 16) ∈ [56; 57; 97; 98])). by vm_compute.
Qed.

(** C31. Generating and printing gives a version-4 UUID: 36 characters in the
    8-4-4-4-12 form, the digit 4 for the version and 8, 9, a or b for the
    variant; the text determines the 16 bytes; the other 122 bits are those of
    the next two values of the thread's generator, which advances by exactly
    two; nothing but the two objects is written. *)
Theorem uuid_v4_text m e r ub uoff b off :
  valid m (Ptr ub uoff) 16 -> valid m (Ptr b off) 37 -> ub <> b ->
  wp (r' ← d4np_uuid_generate e r (Ptr ub uoff); d4np_uuid_format (Ptr ub uoff) (Ptr b off) ;; mret r') m
    (fun r' m' => exists w1 w2 bs,
      randoms e 2 r = [w1; w2] /\ r' = snd (next_random e (snd (next_random e r))) /\
      load_bytes (Ptr ub uoff) 16 m' = Some (bs, m') /\ cstring m' (Ptr b off) (uuid_text bs) /\
      length (uuid_text bs) = 36%nat /\ uuid_of_text (uuid_text bs) = bs /\
      uuid_text bs !! 14%nat = Some 52 /\ (exists c, uuid_text bs !! 19%nat = Some c /\ c ∈ [56; 57; 97; 98]) /\
      (forall i, i <> 6%nat -> i <> 8%nat -> bs !! i = (le_bytes 8 w1 ++ le_bytes 8 w2) !! i) /\
      (bs !!! 6%nat) mod 16 = ((le_bytes 8 w1 ++ le_bytes 8 w2) !!! 6%nat) mod 16 /\
      (bs !!! 8%nat) mod 64 = ((le_bytes 8 w1 ++ le_bytes 8 w2) !!! 8%nat) mod 64 /\
      only [Ptr ub uoff; Ptr b off] m m').
Proof.
  intros Hu Hv Hne. wp_bind. eapply wp_mono; [by apply generate_spec|].
  intros r' m1 (w1 & w2 & Hw & Hr' & Hl & Ho).
  destruct (v4_bytes_facts w1 w2) as (H16 & Hrg & Hother & H6 & K6 & H8 & K8).
  destruct (uuid_text_facts _ H16 Hrg) as (Hlen & _ & Hinv). destruct (text_version _ H16 Hrg H6 H8) as [Ht14 Ht19].
  wp_bind. eapply wp_mono; [apply (format_spec m1 ub uoff b off _ Hl Hrg Hne)|].
  { eapply valid_only; [exact Hv|exact Ho|]. intros b' o [= <- _]. rewrite touches_singleton. congruence. }
  intros [] m2 [Hc Ho2]. wp_ret. exists w1, w2, (v4_bytes w1 w2). split_and!; auto.
  - apply load_bytes_load. eapply load_only; [by apply load_bytes_load|exact Ho2|].
    intros b' o [= <- _]. by rewrite touches_singleton.
  - eapply only_trans; [eapply only_part; [|exact Ho]|eapply only_part; [|exact Ho2]]; set_solver.
Qed.

(** The values a thread's generator produces are pairwise distinct for
    2^64 calls, whatever the seed: the state runs through all 64-bit words and
    the mixing is a bijection. *)
Theorem uuid_random_distinct e r n : Z.of_nat n <= 2 ^ 64 -> NoDup (randoms e n r).
Proof. apply stream_distinct. Qed.

(** ** Witnesses *)

Definition uuid_mem : mem :=
  Mem (<[0%nat := Block 16 (replicate 16 Undef)]> {[ 1%nat := Block 64 (replicate 37 Undef) ]}) 2.
Definition uuid_env : env := Env (Clock.PosixClock (Clock.Timespec 7 5)) 4096 4104.

Lemma uuid_v4_text_witness :
  exists r' m', (r' ← d4np_uuid_generate uuid_env (Rng 0 false) (Ptr 0 0);
                 d4np_uuid_format (Ptr 0 0) (Ptr 1 0) ;; mret r') uuid_mem = Some (r', m') /\
    exists bs, cstring m' (Ptr 1 0) (uuid_text bs) /\ uuid_text bs !! 14%nat = Some 52.
Proof.
  destruct (uuid_v4_text uuid_mem uuid_env (Rng 0 false) 0 0 1 0) as (r' & m' & Hr & w1 & w2 & bs & H).
  - exists 0%nat, 0, (Block 16 (replicate 16 Undef)). by split_and!.
  - exists 1%nat, 0, (Block 64 (replicate 37 Undef)). by split_and!.
  - done.
  - exists r', m'. split; [exact Hr|]. exists bs. split; apply H.
Defined.

Lemma uuid_random_distinct_witness : NoDup (randoms uuid_env 3 (Rng 0 false)).
Proof. apply (uuid_random_distinct uuid_env (Rng 0 false) 3). by vm_compute. Defined.

End Uuid.
