(* ===== verification/ErrorContext.v ===== *)
(** * The error context ([d4np/sys/error_context.h], [error_context.c])

    The state of one thread: sixteen frames in static storage and the depth.
    It refines a bounded stack of statuses and messages. *)

From S2P Require Import Prelude Status Memory.

Local Open Scope Z_scope.

Module ErrorContext.

Definition D4NP_ERROR_CONTEXT_MAX_DEPTH : Z := 16.
Definition D4NP_ERROR_MESSAGE_CAP : Z := 256.

(** [error_frame]; the message is its 256 bytes. *)
Record error_frame := Frame { f_status : d4np_status; f_message : list Z }.

(** The thread-local [g_stack] and [g_depth]; static storage starts as zeros,
    and [D4NP_OK] is 0. *)
Record context := Context { g_stack : list error_frame; g_depth : Z }.

Definition initial : context :=
  Context (replicate 16 (Frame D4NP_OK (replicate 256 0))) 0.

(** The copying loop from index [i], with [todo] rounds
    left before [i + 1] reaches the capacity. *)
Fixpoint copy_loop (message : ptr) (i : Z) (todo : nat) (buf : list Z) : M (Z * list Z) :=
  match todo with
  | O => mret (i, buf)
  | S todo =>
      c ← load_byte (padd message i);
      if c =? 0 then mret (i, buf)
      else
        buf ← array_set i c buf;
        copy_loop message (i ⊞ 1) todo buf
  end.

Definition d4np_error_context_push (status : d4np_status) (message : ptr) (cx : context) : M (d4np_status * context) :=
  if g_depth cx <? D4NP_ERROR_CONTEXT_MAX_DEPTH then
    f ← lift_opt (g_stack cx !! Z.to_nat (g_depth cx));
    '(i, buf) ← (if is_null message then mret (0, f_message f)
                 else copy_loop message 0 (Z.to_nat (D4NP_ERROR_MESSAGE_CAP - 1)) (f_message f));
    buf ← array_set i 0 buf;
    g_stack ← array_set (g_depth cx) (Frame status buf) (g_stack cx);
    mret (status, Context g_stack (g_depth cx ⊞ 1))
  else mret (status, cx).

(** The out-parameters are optional: [want_status] and [want_message] say
    whether the caller passes them.  A message pointer is the frame it points
    into. *)
Definition d4np_error_context_pop (want_status want_message : bool) (cx : context)
  : M (bool * option d4np_status * option nat * context) :=
  if g_depth cx =? 0 then mret (false, None, None, cx)
  else
    let k := Z.to_nat (g_depth cx ⊟ 1) in
    f ← lift_opt (g_stack cx !! k);
    mret (true, if want_status then Some (f_status f) else None,
          if want_message then Some k else None, Context (g_stack cx) (g_depth cx ⊟ 1)).

Definition d4np_error_context_clear (cx : context) : context := Context (g_stack cx) 0.

Definition d4np_error_context_depth (cx : context) : Z := g_depth cx.

(** The C string a message pointer shows. *)
Definition message_at (cx : context) (k : nat) : list Z :=
  match g_stack cx !! k with Some f => cstr_bytes (f_message f) | None => [] end.

(** ** Sequences of operations *)

Inductive op :=
  | Push (status : d4np_status) (message : ptr)
  | Pop
  | Clear
  | Depth.

Inductive obs :=
  | Returned (status : d4np_status)
  | Popped (r : option (d4np_status * list Z))
  | Cleared
  | Deep (n : Z).

(** An operation and what its caller sees; a popped message is read at once. *)
Definition exec (o : op) (cx : context) : M (obs * context) :=
  match o with
  | Push s p => '(s, cx) ← d4np_error_context_push s p cx; mret (Returned s, cx)
  | Pop =>
      r ← d4np_error_context_pop true true cx;
      mret (match r with
            | (true, Some s, Some k, cx) => (Popped (Some (s, message_at cx k)), cx)
            | (_, _, _, cx) => (Popped None, cx)
            end)
  | Clear => mret (Cleared, d4np_error_context_clear cx)
  | Depth => mret (Deep (d4np_error_context_depth cx), cx)
  end.

Fixpoint exec_all (os : list op) (cx : context) : M (list obs * context) :=
  match os with
  | [] => mret ([], cx)
  | o :: os =>
      '(x, cx) ← exec o cx;
      '(xs, cx) ← exec_all os cx;
      mret (x :: xs, cx)
  end.

(** ** The abstract stack: frames from the bottom up *)

(** A readable message and the text that is kept of it: nothing of [NULL],
    else the first 255 bytes up to the NUL, and no byte behind them is read. *)
Definition message (m : mem) (p : ptr) (txt : list Z) : Prop :=
  (p = Null /\ txt = []) \/
  (load_bytes p (zlen txt) m = Some (txt, m) /\ 0 ∉ txt /\ zlen txt = 255) \/
  (cstring m p txt /\ zlen txt < 255).

Inductive spec_op :=
  | SPush (status : d4np_status) (txt : list Z)
  | SPop
  | SClear
  | SDepth.

Definition spec_exec (o : spec_op) (st : list (d4np_status * list Z)) : obs * list (d4np_status * list Z) :=
  match o with
  | SPush s t => (Returned s, if (length st <? 16)%nat then st ++ [(s, t)] else st)
  | SPop => (Popped (last st), removelast st)
  | SClear => (Cleared, [])
  | SDepth => (Deep (zlen st), st)
  end.

Fixpoint spec_all (os : list spec_op) (st : list (d4np_status * list Z)) : list obs :=
  match os with
  | [] => []
  | o :: os => let '(x, st) := spec_exec o st in x :: spec_all os st
  end.

Inductive same_op (m : mem) : op -> spec_op -> Prop :=
  | same_push s p t : message m p t -> same_op m (Push s p) (SPush s t)
  | same_pop : same_op m Pop SPop
  | same_clear : same_op m Clear SClear
  | same_depth : same_op m Depth SDepth.

(** ** The representation *)

Definition frame_is (f : error_frame) (x : d4np_status * list Z) : Prop :=
  f_status f = fst x /\ cstr_bytes (f_message f) = snd x.

Definition represents (cx : context) (st : list (d4np_status * list Z)) : Prop :=
  length (g_stack cx) = 16%nat /\ Forall (fun f => length (f_message f) = 256%nat) (g_stack cx) /\
  g_depth cx = zlen st /\ (length st <= 16)%nat /\
  Forall2 frame_is (take (length st) (g_stack cx)) st.

Lemma copy_loop_run m b off txt buf i n :
  load_bytes (Ptr b off) (zlen txt) m = Some (txt, m) -> 0 ∉ txt ->
  (zlen txt = 255 \/ load_byte (Ptr b (off + zlen txt)) m = Some (0, m)) ->
  (i + n = 255)%nat -> (i <= length txt <= 255)%nat -> length buf = 256%nat -> take i buf = take i txt ->
  exists buf', copy_loop (Ptr b off) (Z.of_nat i) n buf m = Some ((zlen txt, buf'), m) /\
    length buf' = 256%nat /\ take (length txt) buf' = txt.
Proof.
  intros Hl Hn He. revert i buf. induction n as [|n IH]; intros i buf Hi Hlen Hb Ht; cbn [copy_loop].
  - assert (i = length txt) as -> by lia. exists buf. split; [done|]. split; [done|]. rewrite Ht. by apply take_ge.
  - unfold mbind, M_bind. cbn [padd]. destruct (decide (i = length txt)) as [->|Hne].
    + unfold zlen in *. destruct He as [He|He]; [lia|]. rewrite He. simpl.
      exists buf. split; [done|]. split; [done|]. rewrite Ht. by apply take_ge.
    + destruct (lookup_lt_is_Some_2 txt i) as [c Hc]; [lia|]. rewrite (load_byte_at _ _ _ _ _ _ _ Hl Hc).
      assert (c <> 0) as Hc0 by (intros ->; by apply list_elem_of_lookup_2 in Hc).
      rewrite (proj2 (Z.eqb_neq c 0)) by done. rewrite array_set_run by lia. rewrite size_add_small by size_lia.
      replace (Z.of_nat i + 1) with (Z.of_nat (S i)) by lia.
      apply IH; [lia|lia|by rewrite length_insert|].
      rewrite (take_S_r _ _ c) by (apply list_lookup_insert_eq; lia). rewrite (take_S_r txt _ c) by done.
      by rewrite take_insert_ge, Ht by lia.
Qed.

(** The frame a push leaves. *)
Lemma nul_terminated buf txt :
  length buf = 256%nat -> (length txt < 256)%nat -> 0 ∉ txt -> take (length txt) buf = txt ->
  length (<[length txt := 0]> buf) = 256%nat /\ cstr_bytes (<[length txt := 0]> buf) = txt.
Proof.
  intros Hb Hl Hn Ht. split; [by rewrite length_insert|]. rewrite insert_take_drop by lia. rewrite Ht.
  by apply cstr_bytes_nul_free.
Qed.

Lemma ec_push_spec m s p t cx st :
  represents cx st -> message m p t ->
  exists cx', d4np_error_context_push s p cx m = Some ((s, cx'), m) /\
    represents cx' (if (length st <? 16)%nat then st ++ [(s, t)] else st) /\
    forall k, Z.of_nat k <> g_depth cx -> message_at cx' k = message_at cx k.
Proof.
  intros (H16 & Hf & Hd & Hle & H2) Hm. unfold d4np_error_context_push, D4NP_ERROR_CONTEXT_MAX_DEPTH.
  rewrite Hd. unfold zlen. destruct (Nat.ltb_spec (length st) 16) as [Hlt|Hge].
  2: { rewrite (proj2 (Z.ltb_ge _ _)) by lia. exists cx. by split_and!. }
  rewrite (proj2 (Z.ltb_lt _ _)) by lia. rewrite Nat2Z.id.
  destruct (lookup_lt_is_Some_2 (g_stack cx) (length st)) as [f Hfk]; [lia|].
  assert (length (f_message f) = 256%nat) as Hbuf by (by apply (Forall_lookup_1 _ _ _ _ Hf Hfk)).
  unfold mbind, M_bind, lift_opt. rewrite Hfk.
  assert (exists buf, (if is_null p then mret (0, f_message f)
      else copy_loop p 0 (Z.to_nat (D4NP_ERROR_MESSAGE_CAP - 1)) (f_message f)) m = Some ((zlen t, buf), m) /\
      length buf = 256%nat /\ take (length t) buf = t /\ (length t < 256)%nat /\ 0 ∉ t) as (buf & -> & Hb & Ht & Htl & Htn).
  { destruct Hm as [[-> ->]|Hm]; [exists (f_message f); split_and!; try done; [simpl; lia|set_solver]|].
    destruct p as [|b off]; [by destruct Hm as [[? _]|[[? _] _]]|]. cbn [is_null].
    assert (load_bytes (Ptr b off) (zlen t) m = Some (t, m) /\ 0 ∉ t /\ zlen t <= 255 /\
      (zlen t = 255 \/ load_byte (Ptr b (off + zlen t)) m = Some (0, m))) as (Hl & Hn & Hmax & He).
    { destruct Hm as [(? & ? & ?)|[Hc ?]]; [split_and!; auto; lia|]. split_and!; [by apply cstring_bytes|apply Hc|lia|right].
      destruct Hc as [Hc _]. eapply load_byte_at; [exact Hc|]. by apply list_lookup_middle. }
    unfold zlen in Hmax. destruct (copy_loop_run m b off t (f_message f) 0 255) as (buf & E & ? & ?); auto; [lia|].
    exists buf. split_and!; auto. lia. }
  unfold zlen. rewrite !array_set_run by lia. destruct (nul_terminated buf t Hb Htl Htn Ht) as [Hb' Hc'].
  eexists. split; [reflexivity|]. split.
  - split_and!; simpl.
    + by rewrite length_insert.
    + by apply Forall_insert.
    + unfold zlen. rewrite length_app, size_add_small by size_lia. simpl. lia.
    + rewrite length_app. simpl. lia.
    + rewrite length_app. simpl. rewrite Nat.add_1_r. erewrite take_S_r by (apply list_lookup_insert_eq; lia).
      rewrite take_insert_ge by lia. apply Forall2_app; [done|]. by repeat constructor.
  - intros k Hk. unfold message_at. simpl. rewrite list_lookup_insert_ne by lia. done.
Qed.

Lemma ec_pop_spec m cx st :
  represents cx st ->
  exists r, d4np_error_context_pop true true cx m = Some (r, m) /\
    match last st with
    | None => r = (false, None, None, cx) /\ st = []
    | Some (s, t) => exists k cx', r = (true, Some s, Some k, cx') /\ message_at cx' k = t /\
        S k = length st /\ g_stack cx' = g_stack cx /\ represents cx' (removelast st)
    end.
Proof.
  intros (H16 & Hf & Hd & Hle & H2). unfold d4np_error_context_pop. rewrite Hd. unfold zlen.
  destruct st as [|[s t] st _] using rev_ind; [by eexists|].
  rewrite last_snoc, removelast_last. rewrite length_app in *. simpl length in *. rewrite Nat.add_1_r in *.
  rewrite (proj2 (Z.eqb_neq _ _)) by lia. rewrite size_sub_small by size_lia.
  replace (Z.of_nat (S (length st)) - 1) with (Z.of_nat (length st)) by lia. rewrite Nat2Z.id.
  destruct (lookup_lt_is_Some_2 (g_stack cx) (length st)) as [f Hfk]; [lia|].
  rewrite (take_S_r _ _ f) in H2 by done. apply Forall2_app_inv in H2 as [H2 Hlast];
    [|rewrite length_take; lia]. apply Forall2_cons in Hlast as [[Hs Ht] _]. simpl in Hs, Ht.
  unfold mbind, M_bind, lift_opt. rewrite Hfk. eexists. split; [reflexivity|]. rewrite Hs.
  eexists _, _. split; [reflexivity|]. split; [unfold message_at; simpl; by rewrite Hfk|].
  split; [lia|]. split; [done|]. split_and!; simpl; auto; lia.
Qed.

(** The message in frame [k] outlives every operation but a push at that
    depth. *)
Definition quiet (k : nat) (so : spec_op) (st : list (d4np_status * list Z)) : Prop :=
  match so with SPush _ _ => length st <> k | _ => True end.

Lemma exec_spec m o so cx st :
  represents cx st -> same_op m o so ->
  exists cx', exec o cx m = Some ((fst (spec_exec so st), cx'), m) /\ represents cx' (snd (spec_exec so st)) /\
    forall k, quiet k so st -> message_at cx' k = message_at cx k.
Proof.
  intros Hr Ho. destruct Ho as [s p t Hm| | |]; cbn [exec spec_exec fst snd quiet].
  - destruct (ec_push_spec m s p t cx st Hr Hm) as (cx' & E & Hr' & Hk). unfold mbind, M_bind. rewrite E.
    eexists. split; [done|]. split; [done|]. intros k Hq. apply Hk.
    destruct Hr as (_ & _ & -> & _). unfold zlen. lia.
  - destruct (ec_pop_spec m cx st Hr) as (r & E & Hp). unfold mbind, M_bind. rewrite E.
    destruct (last st) as [[s t]|] eqn:El.
    + destruct Hp as (k & cx' & -> & <- & _ & Hg & Hr'). eexists. split; [done|]. split; [done|].
      intros j _. unfold message_at. by rewrite Hg.
    + destruct Hp as [-> ->]. by eexists.
  - eexists. split; [reflexivity|]. split; [|done]. destruct Hr as (H16 & Hf & _ & _ & _). split_and!; simpl; auto; lia.
  - eexists. split; [|by split]. destruct Hr as (_ & _ & Hd & _). unfold d4np_error_context_depth. by rewrite Hd.
Qed.

Fixpoint quiet_all (k : nat) (sos : list spec_op) (st : list (d4np_status * list Z)) : Prop :=
  match sos with [] => True | so :: sos => quiet k so st /\ quiet_all k sos (snd (spec_exec so st)) end.

Lemma exec_all_spec m os sos cx st :
  represents cx st -> Forall2 (same_op m) os sos ->
  exists cx', exec_all os cx m = Some ((spec_all sos st, cx'), m) /\
    forall k, quiet_all k sos st -> message_at cx' k = message_at cx k.
Proof.
  intros Hr Ho. revert cx st Hr. induction Ho as [|o so os sos Ho _ IH]; intros cx st Hr; [by eexists|].
  destruct (exec_spec m o so cx st Hr Ho) as (cx1 & E1 & Hr1 & Hk1). destruct (IH _ _ Hr1) as (cx2 & E2 & Hk2).
  exists cx2. cbn [exec_all spec_all quiet_all]. unfold mbind, M_bind. rewrite E1.
  destruct (spec_exec so st) as [x st1]. simpl in *. rewrite E2. split; [done|].
  intros k [Hq Hqs]. by rewrite Hk2, Hk1.
Qed.

Lemma initial_represents : represents initial [].
Proof. split_and!; try done; [by apply Forall_replicate|simpl; lia]. Qed.

(** ** Properties *)

(** C29. Any sequence of error-context operations of a thread is free of
    undefined behaviour and observes a stack of at most sixteen frames: a push
    returns its status unchanged and records it with the first 255 bytes of
    the message (an unterminated message is not read further), a push onto a
    full context is dropped and the earliest frames are kept, and pops return
    the frames in last-in, first-out order. *)
Theorem error_context_refines m os sos :
  Forall2 (same_op m) os sos -> exists cx', exec_all os initial m = Some ((spec_all sos [], cx'), m).
Proof. intros Ho. destruct (exec_all_spec m os sos _ _ initial_represents Ho) as (cx' & E & _). eauto. Qed.

(** The message pointer a pop hands out shows that frame's text until a
    push at that depth: it survives further pops, a clear, and pushes at other
    depths. *)
Theorem error_message_lifetime m cx st s t os sos :
  represents cx (st ++ [(s, t)]) -> Forall2 (same_op m) os sos -> quiet_all (length st) sos st ->
  exists cx1 xs cx2, d4np_error_context_pop true true cx m = Some ((true, Some s, Some (length st), cx1), m) /\
    message_at cx1 (length st) = t /\
    exec_all os cx1 m = Some ((xs, cx2), m) /\ message_at cx2 (length st) = t.
Proof.
  intros Hr Ho Hq. destruct (ec_pop_spec m cx _ Hr) as (r & E & Hp). rewrite last_snoc, removelast_last in Hp.
  destruct Hp as (k & cx1 & -> & Ht & Hk & _ & Hr1). rewrite length_app in Hk. simpl in Hk.
  assert (k = length st) as -> by lia. destruct (exec_all_spec m os sos cx1 st Hr1 Ho) as (cx2 & E2 & Hm).
  exists cx1, (spec_all sos st), cx2. split_and!; auto. by rewrite (Hm _ Hq).
Qed.

(** ** Witnesses *)

(** ["no"]. *)
Definition msg_mem : mem := Mem {[ 0%nat := Block 16 (Byte <$> [110; 111; 0]) ]} 1.

Lemma msg_ok : message msg_mem (Ptr 0 0) [110; 111].
Proof. right; right. split; [|done]. split; [reflexivity|set_solver]. Qed.

Lemma error_context_refines_witness :
  exists cx', exec_all [Push D4NP_ERR_IO (Ptr 0 0); Depth; Pop; Pop] initial msg_mem =
    Some (([Returned D4NP_ERR_IO; Deep 1; Popped (Some (D4NP_ERR_IO, [110; 111])); Popped None], cx'), msg_mem).
Proof.
  apply (error_context_refines msg_mem _ [SPush D4NP_ERR_IO [110; 111]; SDepth; SPop; SPop]).
  constructor; [constructor; exact msg_ok|]. repeat constructor.
Defined.

Lemma error_message_lifetime_witness :
  exists cx1 xs cx2,
    d4np_error_context_pop true true (Context (<[0%nat := Frame D4NP_ERR_IO ([110; 111] ++ replicate 254 0)]> (g_stack initial)) 1)
      msg_mem = Some ((true, Some D4NP_ERR_IO, Some 0%nat, cx1), msg_mem) /\
    message_at cx1 0 = [110; 111] /\
    exec_all [Pop; Clear] cx1 msg_mem = Some ((xs, cx2), msg_mem) /\ message_at cx2 0 = [110; 111].
Proof.
  apply (error_message_lifetime msg_mem _ [] D4NP_ERR_IO [110; 111] _ [SPop; SClear]).
  - split_and!; try done.
    + simpl. repeat constructor.
    + simpl. lia.
    + repeat constructor.
  - repeat constructor.
  - done.
Defined.

End ErrorContext.
