(* ===== verification/File.v ===== *)
(** * Whole files ([d4np/io/file.h], [file.c])

    [d4np_file_read_all] on a stream that may fail anywhere and is closed at
    the end, with the growth and trimming of its buffer under any allocator; [d4np_file_write_all] on a
    file system with a page cache, whose every intermediate state and every
    state after a crash can be observed. *)

From S2P Require Import Prelude Status Memory Allocator.

Local Open Scope Z_scope.

Module File.

Definition D4NP_FILE_CHUNK : Z := 65536.

(** ** Reading *)

(** What an open stream still has to give: bytes, and read errors ([None])
    between them. *)
Definition items := list (option Z).

(** The stream behind a [FILE *]: using it once it is closed is undefined. *)
Record stream := Stream { s_items : items; s_error : bool; s_open : bool }.

(** [fread]: up to [n] bytes, fewer only at an error or at the end of the
    file; an error sets the stream's error indicator for good. *)
Fixpoint take_bytes (n : nat) (s : items) : list Z * items * bool :=
  match n, s with
  | O, _ => ([], s, false)
  | _, [] => ([], [], false)
  | _, None :: s => ([], s, true)
  | S n, Some c :: s => let '(bs, s, err) := take_bytes n s in (c :: bs, s, err)
  end.

Definition fread (buf : ptr) (n : Z) (f : stream) : M (Z * stream) :=
  massert (s_open f) ;;
  let '(bs, rest, err) := take_bytes (Z.to_nat n) (s_items f) in
  store buf (Byte <$> bs) ;; mret (zlen bs, Stream rest (s_error f || err) (s_open f)).

(** [fclose] of an input stream; its result is not looked at. *)
Definition fclose_read (f : stream) : M stream :=
  massert (s_open f) ;; mret (Stream (s_items f) (s_error f) false).

(** A C string as bytes. *)
Definition c_string (p : ptr) : M (list Z) := n ← strlen p; load_bytes p n.

Section read.
Context `{!Libc}.

(** The [for (;;)] loop with its two error exits: the status, the buffer, its
    capacity and the bytes read, and the stream. *)
Fixpoint read_loop (fuel : nat) (allocator : option d4np_allocator) (buf : ptr) (cap len : Z) (f : stream)
  : M (d4np_status * (ptr * Z * Z) * stream) :=
  match fuel with
  | O => fault
  | S fuel =>
      '(nb, ncap) ←
        (if len =? cap then
           let ncap := if cap =? 0 then D4NP_FILE_CHUNK else cap ⊠ 2 in
           nb ← d4np_realloc allocator buf cap ncap MAX_ALIGN;
           mret (nb, ncap)
         else mret (buf, cap));
      if (len =? cap) && is_null nb then
        d4np_free allocator buf cap ;;
        f ← fclose_read f;
        mret (D4NP_ERR_OUT_OF_MEMORY, (Null, 0, 0), f)
      else
        '(got, f) ← fread (padd nb len) (ncap ⊟ len) f;
        if got =? 0 then
          if s_error f then
            d4np_free allocator nb ncap ;;
            f ← fclose_read f;
            mret (D4NP_ERR_IO, (Null, 0, 0), f)
          else mret (D4NP_OK, (nb, ncap, len ⊞ got), f)
        else read_loop fuel allocator nb ncap (len ⊞ got) f
  end.

(** [fopen] gives the stream of a name, if the file can be opened.  [outs]:
    both out-parameters are given; they are the second component, and the
    third is the stream that was opened. *)
Definition d4np_file_read_all (fopen : list Z -> option items) (path : ptr) (allocator : option d4np_allocator)
    (outs : bool) : M (d4np_status * option (ptr * Z) * option stream) :=
  if is_null path || negb outs then mret (D4NP_ERR_INVALID_ARGUMENT, None, None)
  else
    let allocator := Some (resolve allocator) in
    name ← c_string path;
    match fopen name with
    | None => mret (D4NP_ERR_IO, None, None)
    | Some s =>
        '(st, (buf, cap, len), f) ← read_loop (S (length s)) allocator Null 0 0 (Stream s false true);
        if decide (st <> D4NP_OK) then mret (st, None, Some f)
        else
          f ← fclose_read f;
          if len =? 0 then d4np_free allocator buf cap ;; mret (D4NP_OK, Some (Null, 0), Some f)
          else
            shrunk ← d4np_realloc allocator buf cap len MAX_ALIGN;
            let buf := if is_null shrunk then buf else shrunk in
            mret (D4NP_OK, Some (buf, len), Some f)
    end.

End read.

(** ** Writing *)

(** The file system: directories bind names to files; a file has the contents
    readers see, and [i_synced] says whether these are on stable storage.
    After a crash the directory may be any of the past ones that have not been
    flushed, and a file that is not synced may hold anything. *)
Notation name := (list Z).

Record inode := Inode { i_data : list Z; i_synced : bool }.

Record fs := Fs {
  fs_dir : gmap name nat;
  fs_past : list (gmap name nat);
  fs_inodes : gmap nat inode;
  fs_next : nat
}.

(** The current state and the states after each call so far, latest first. *)
Record world := World { w_fs : fs; w_log : list fs }.

Definition to_state (t : fs) (w : world) : world := World t (t :: w_log w).

(** What the system makes of each call: whether it succeeds, how many bytes a
    [fwrite] accepts, and how many buffered bytes each call lets through. *)
Record io := Io {
  fopen_ok : bool;
  fwrite_count : Z;
  fwrite_through : nat;
  fflush_ok : bool;
  fflush_through : nat;
  fsync_ok : bool;
  fclose_ok : bool;
  fclose_through : nat;
  rename_ok : bool;
  remove_ok : bool
}.

(** An output stream: its file and the bytes in its buffer. *)
Record ostream := Ostream { o_inode : nat; o_buf : list Z }.

(** [k] bytes of the buffer reach the file. *)
Definition through (k : nat) (f : ostream) (w : world) : ostream * world :=
  match take k (o_buf f) with
  | [] => (f, w)
  | bs =>
      let t := w_fs w in
      (Ostream (o_inode f) (drop k (o_buf f)),
       to_state (Fs (fs_dir t) (fs_past t)
                    (alter (fun i => Inode (i_data i ++ bs) false) (o_inode f) (fs_inodes t)) (fs_next t)) w)
  end.

(** [fopen(tmp, "wb")]: an existing file is truncated, else one is created. *)
Definition fopen_wb (e : io) (tmp : name) (w : world) : option ostream * world :=
  if negb (fopen_ok e) then (None, w)
  else
    let t := w_fs w in
    match fs_dir t !! tmp with
    | Some i => (Some (Ostream i []),
        to_state (Fs (fs_dir t) (fs_past t) (<[i := Inode [] false]> (fs_inodes t)) (fs_next t)) w)
    | None => (Some (Ostream (fs_next t) []),
        to_state (Fs (<[tmp := fs_next t]> (fs_dir t)) (fs_dir t :: fs_past t)
                     (<[fs_next t := Inode [] false]> (fs_inodes t)) (S (fs_next t))) w)
    end.

Definition fwrite (e : io) (bs : list Z) (f : ostream) (w : world) : Z * ostream * world :=
  let n := Z.max 0 (Z.min (fwrite_count e) (zlen bs)) in
  let '(f, w) := through (fwrite_through e) (Ostream (o_inode f) (o_buf f ++ take (Z.to_nat n) bs)) w in
  (n, f, w).

Definition fflush (e : io) (f : ostream) (w : world) : bool * ostream * world :=
  let '(f, w) := through (if fflush_ok e then length (o_buf f) else fflush_through e) f w in
  (fflush_ok e, f, w).

(** [fsync(fileno(f))]. *)
Definition file_sync (e : io) (f : ostream) (w : world) : bool * world :=
  if fsync_ok e then
    let t := w_fs w in
    (true, to_state (Fs (fs_dir t) (fs_past t)
              (alter (fun i => Inode (i_data i) true) (o_inode f) (fs_inodes t)) (fs_next t)) w)
  else (false, w).

Definition fclose (e : io) (f : ostream) (w : world) : bool * world :=
  let '(_, w) := through (if fclose_ok e then length (o_buf f) else fclose_through e) f w in
  (fclose_ok e, w).

Definition remove (e : io) (tmp : name) (w : world) : world :=
  if remove_ok e then
    let t := w_fs w in
    to_state (Fs (delete tmp (fs_dir t)) (fs_dir t :: fs_past t) (fs_inodes t) (fs_next t)) w
  else w.

(** [rename] replaces the target in one step. *)
Definition rename (e : io) (tmp path : name) (w : world) : bool * world :=
  let t := w_fs w in
  match fs_dir t !! tmp with
  | Some i =>
      if rename_ok e then
        (true, to_state (Fs (<[path := i]> (delete tmp (fs_dir t))) (fs_dir t :: fs_past t)
                            (fs_inodes t) (fs_next t)) w)
      else (false, w)
  | None => (false, w)
  end.

(** [".tmp"]. *)
Definition tmp_suffix : list Z := [46; 116; 109; 112].

(** From the flush to the rename, with the error exits. *)
Definition commit (e : io) (tmp target : name) (f : ostream) (w : world) : d4np_status * world :=
  let '(flushed, f, w) := fflush e f w in
  let '(synced, w) := if flushed : bool then file_sync e f w else (false, w) in
  if negb synced then let '(_, w) := fclose e f w in (D4NP_ERR_IO, remove e tmp w)
  else
    let '(closed, w) := fclose e f w in
    if negb closed then (D4NP_ERR_IO, remove e tmp w)
    else
      let '(renamed, w) := rename e tmp target w in
      if negb renamed then (D4NP_ERR_IO, remove e tmp w) else (D4NP_OK, w).

Definition d4np_file_write_all (e : io) (path data : ptr) (size : Z) (w : world) : M (d4np_status * world) :=
  if is_null path || ((0 <? size) && is_null data) then mret (D4NP_ERR_INVALID_ARGUMENT, w)
  else
    plen ← strlen path;
    if 4096 <? plen ⊞ (zlen tmp_suffix + 1) then mret (D4NP_ERR_INVALID_ARGUMENT, w)
    else
      src ← load path plen;
      buf ← array_write 0 src (replicate 4096 Undef);
      buf ← array_write plen (Byte <$> tmp_suffix ++ [0]) buf;
      tmp ← lift_opt (array_string buf);
      target ← load_bytes path plen;
      let '(f, w) := fopen_wb e tmp w in
      match f with
      | None => mret (D4NP_ERR_IO, w)
      | Some f =>
          '(wrote, f, w) ← (if 0 <? size then bs ← load_bytes data size; mret (fwrite e bs f w)
                            else mret (0, f, w));
          if (0 <? size) && negb (wrote =? size) then
            let '(_, w) := fclose e f w in mret (D4NP_ERR_IO, remove e tmp w)
          else mret (commit e tmp target f w)
      end.

(** What a reader finds under a name, and what may be there after a crash. *)
Definition content (t : fs) (q : name) : option (list Z) :=
  i ← fs_dir t !! q; i_data <$> fs_inodes t !! i.

Definition bindings (q : name) (t : fs) : list (option nat) := (fun d : gmap name nat => d !! q) <$> fs_dir t :: fs_past t.

Definition after_crash (t : fs) (q : name) (c : option (list Z)) : Prop :=
  exists x, x ∈ bindings q t /\
    match x with
    | None => c = None
    | Some i => exists bs, c = Some bs /\ forall ino, fs_inodes t !! i = Some ino -> i_synced ino = true -> bs = i_data ino
    end.

(** ** What is read *)

(** The bytes of a stream without errors. *)
Definition stream_bytes (s : items) : option (list Z) := mapM id s.

Lemma take_bytes_spec n s :
  let '(bs, rest, err) := take_bytes n s in
  (length bs <= n)%nat /\ s = (Some <$> bs) ++ (if err then [None] else []) ++ rest /\
  (err = false -> (length bs < n)%nat -> rest = []).
Proof.
  revert s. induction n as [|n IH]; intros s; [destruct s; (split; [simpl; lia|]; split; [done|simpl; intros; lia])|]. destruct s as [|[c|] s]; simpl; [|specialize (IH s)|].
  - split; [lia|done].
  - destruct (take_bytes n s) as [[bs rest] err]. destruct IH as (H1 & -> & H3). simpl.
    split; [lia|]. split; [done|]. intros He Hlt. apply H3; [done|lia].
  - split; [lia|done].
Qed.

Section read_proof.
Context `{!Libc} (a : d4np_allocator) `{!AllocatorOk a}.

(** The buffer holds what has been read; nothing else has changed. *)
Definition reading (m0 : mem) (buf : ptr) (cap : Z) (bs : list Z) (m : mem) : Prop :=
  owned_opt m buf cap /\ zlen bs <= cap <= PTRDIFF_MAX /\ heap_free buf (m_heap m) = m_heap m0 /\
  sub 0 (zlen bs) (cells_of m buf) = Byte <$> bs /\ (forall b off, buf = Ptr b off -> m_heap m0 !! b = None).

Lemma reading_start m : reading m Null 0 [] m.
Proof. split; [by left|]. by split_and!. Qed.

(** The allocator has refused a request for at most [n] bytes. *)
Definition refused (n : Z) : Prop :=
  exists m p old new m', 0 < new <= n /\ d4np_realloc (Some a) p old new MAX_ALIGN m = Some (Null, m').

Lemma refused_mono n n' : refused n -> n <= n' -> refused n'.
Proof. intros (m & p & old & new & m' & Hn & E) ?. exists m, p, old, new, m'. split; [lia|done]. Qed.

(** The largest buffer that is asked for when reading [n] bytes. *)
Definition read_limit (n : Z) : Z := Z.max D4NP_FILE_CHUNK (2 * n).

(** The growth of the buffer. *)
Lemma grow_spec m0 buf cap bs m :
  reading m0 buf cap bs m ->
  wp (if zlen bs =? cap then
        let ncap := if cap =? 0 then D4NP_FILE_CHUNK else cap ⊠ 2 in
        nb ← d4np_realloc (Some a) buf cap ncap MAX_ALIGN;
        mret (nb, ncap)
      else mret (buf, cap)) m
    (fun '(nb, ncap) m' =>
       if (zlen bs =? cap) && is_null nb then m_heap m' = m_heap m /\ refused (read_limit (zlen bs))
       else reading m0 nb ncap bs m' /\ zlen bs < ncap).
Proof.
  intros (Ho & Hc & Hh & Hs & Hf). pose proof (zlen_nonneg bs).
  destruct (Z.eqb_spec (zlen bs) cap) as [E|Hne]; cbn [andb].
  2: { wp_ret. split; [split_and!; auto; lia|lia]. }
  set (ncap := if cap =? 0 then D4NP_FILE_CHUNK else cap ⊠ 2).
  assert (cap < ncap /\ 0 < ncap <= read_limit (zlen bs)) as [Hgt [Hpos Hlim]].
  { unfold ncap, read_limit, D4NP_FILE_CHUNK. destruct (Z.eqb_spec cap 0); [lia|]. rewrite size_mul_small by size_lia. lia. }
  destruct (ok_realloc m buf cap ncap MAX_ALIGN Hpos) as (nb & m' & Er & Hp); [by exists 4|done|].
  wp_bind. eapply wp_run; [exact Er|]. wp_ret. pose proof (owned_opt_size _ _ _ Ho) as Hsz.
  destruct nb as [|b off]; [split; [exact Hp|by exists m, buf, cap, ncap, m']|]. cbn [is_null].
  destruct Hp as (-> & Hn & Hmax & addr & _ & _ & Hm').
  assert (m_heap m' !! b = Some (Block addr (resize (Z.to_nat ncap) Undef (cells_of m buf)))) as Hb
    by (by rewrite Hm', lookup_insert_eq).
  split; [|lia]. split.
  { right. eexists b, _. split; [done|]. split; [exact Hb|]. simpl. rewrite zlen_resize. lia. }
  split; [lia|]. split.
  { simpl. rewrite Hm', <- Hh. apply delete_insert_id. destruct buf as [|b' o']; [done|]. simpl.
    rewrite lookup_delete. by case_decide. }
  split.
  { unfold cells_of at 1. rewrite Hb. simpl. rewrite sub_resize by lia. done. }
  intros b' off [= <- _]. rewrite <- Hh. destruct buf as [|b'' o']; [done|]. simpl.
  rewrite lookup_delete. by case_decide.
Qed.

Lemma reading_free m0 buf cap bs m :
  reading m0 buf cap bs m -> wp (d4np_free (Some a) buf cap) m (fun _ m' => m_heap m' = m_heap m0).
Proof.
  intros (Ho & _ & Hh & _). unfold d4np_free, resolve. eapply wp_mono; [apply (ok_free m buf cap)|].
  - destruct Ho as [[-> _]|Ho]; [by left|by right].
  - intros _ m' ->. exact Hh.
Qed.

(** What [fread] adds. *)
Lemma fread_spec m0 buf cap bs m f :
  reading m0 buf cap bs m -> zlen bs < cap -> s_open f = true ->
  let '(new, rest, err) := take_bytes (Z.to_nat (cap - zlen bs)) (s_items f) in
  wp (fread (padd buf (zlen bs)) (cap ⊟ zlen bs) f) m (fun r m' =>
    r = (zlen new, Stream rest (s_error f || err) true) /\ reading m0 buf cap (bs ++ new) m').
Proof.
  intros (Ho & Hc & Hh & Hs & Hf) Hlt Hopen. pose proof (zlen_nonneg bs).
  pose proof (take_bytes_spec (Z.to_nat (cap - zlen bs)) (s_items f)) as Ht.
  unfold fread. rewrite size_sub_small, Hopen by size_lia.
  destruct (take_bytes (Z.to_nat (cap - zlen bs)) (s_items f)) as [[new rest] err]. destruct Ht as (Hl & _ & _). wp_bind. wp_ret.
  assert (zlen new <= cap - zlen bs) as Hnew by (unfold zlen in *; lia).
  apply owned_opt_pos in Ho as (b & blk & -> & Hb & Hz); [|lia]. cbn [padd].
  wp_bind. eapply wp_store; [exact Hb|lia|rewrite zlen_fmap; lia|]. rewrite Z.add_0_l. wp_ret. split; [done|].
  pose proof (mem_write_lookup b (zlen bs) (Byte <$> new) m blk Hb) as Hb'. unfold reading. rewrite (zlen_app bs).
  split; [right; eexists b, _; split; [done|]; split; [exact Hb'|]; simpl; rewrite zlen_splice; rewrite ?zlen_fmap; lia|].
  pose proof (zlen_nonneg new). split; [lia|]. split; [|split; [|done]].
  - simpl. rewrite <- Hh. apply map_eq. intros k. simpl. rewrite !lookup_delete. case_decide; [done|].
    by apply mem_write_lookup_ne.
  - unfold cells_of in *. rewrite Hb in Hs. rewrite Hb'. simpl in *. rewrite sub_app, Z.add_0_l by lia.
    rewrite sub_splice_ne, Hs by (rewrite ?zlen_fmap; lia).
    rewrite <- (zlen_fmap Byte new), sub_splice_eq by (rewrite ?zlen_fmap; lia). by rewrite fmap_app.
Qed.

(** What the loop returns, by what the stream holds; the stream is closed on
    the error exits. *)
Definition loop_post (m0 : mem) (total : Z) (bs : list Z) (f : stream) (r : d4np_status * (ptr * Z * Z) * stream)
    (m' : mem) : Prop :=
  s_open r.2 = bool_decide (r.1.1 = D4NP_OK) /\
  match r.1 with
  | (D4NP_OK, (buf, cap, len)) => exists new, s_error f = false /\ stream_bytes (s_items f) = Some new /\
      len = zlen (bs ++ new) /\ reading m0 buf cap (bs ++ new) m' /\ 0 < cap
  | (D4NP_ERR_OUT_OF_MEMORY, _) => m_heap m' = m_heap m0 /\ refused (read_limit total)
  | (D4NP_ERR_IO, _) => m_heap m' = m_heap m0 /\ (s_error f = true \/ stream_bytes (s_items f) = None)
  | _ => False
  end.

Lemma stream_bytes_app xs s : stream_bytes ((Some <$> xs) ++ s) = (fun t => xs ++ t) <$> stream_bytes s.
Proof.
  induction xs as [|x xs IH]; [simpl; by destruct (stream_bytes s)|].
  change (stream_bytes ((Some <$> x :: xs) ++ s)) with (k ← stream_bytes ((Some <$> xs) ++ s); Some (x :: k)).
  rewrite IH. by destruct (stream_bytes s).
Qed.

Lemma read_loop_spec m0 total fuel buf cap bs m f :
  reading m0 buf cap bs m -> (length (s_items f) < fuel)%nat -> zlen bs + zlen (s_items f) <= total -> s_open f = true ->
  wp (read_loop fuel (Some a) buf cap (zlen bs) f) m (loop_post m0 total bs f).
Proof.
  revert buf cap bs m f. induction fuel as [|fuel IH]; intros buf cap bs m f Hr Hfuel Htot Hopen; [lia|].
  cbn [read_loop]. wp_bind. eapply wp_mono; [by apply grow_spec|]. intros [nb ncap] m1 Hg.
  destruct ((zlen bs =? cap) && is_null nb).
  { destruct Hr as (Ho & Hc & Hh & Hs & Hf). destruct Hg as [Hg Href]. wp_bind.
    eapply wp_mono; [apply (reading_free m0 buf cap bs)|intros [] m2 H2; wp_bind; unfold fclose_read; rewrite Hopen;
      cbn [massert]; wp_bind; wp_ret; wp_ret; wp_ret; split; [done|]; split; [done|]].
    2: { eapply refused_mono; [exact Href|]. pose proof (zlen_nonneg (s_items f)). unfold read_limit. lia. }
    rewrite <- Hg in Hh. split_and!; auto; [|lia|lia|].
    - destruct Ho as [?|(b & blk & -> & Hb & Hz)]; [by left|]. right. exists b, blk. by rewrite Hg.
    - unfold cells_of in *. by rewrite Hg. }
  destruct Hg as [Hr1 Hlt]. pose proof (fread_spec m0 nb ncap bs m1 f Hr1 Hlt Hopen) as Hfr.
  pose proof (take_bytes_spec (Z.to_nat (ncap - zlen bs)) (s_items f)) as Ht.
  destruct (take_bytes (Z.to_nat (ncap - zlen bs)) (s_items f)) as [[new rest] err]. destruct Ht as (Hl & Es & Hend).
  wp_bind. eapply wp_mono; [exact Hfr|]. intros r m2 [-> Hr2]. pose proof (zlen_nonneg new). pose proof (zlen_nonneg bs).
  assert (zlen bs ⊞ zlen new = zlen (bs ++ new)) as ->.
  { rewrite zlen_app. destruct Hr2 as (_ & Hc2 & _). rewrite zlen_app in Hc2. apply size_add_small. size_lia. }
  destruct (Z.eqb_spec (zlen new) 0) as [E0|Hne]; cbn [s_error].
  - assert (new = []) as -> by (destruct new; [done|]; rewrite zlen_cons in E0; pose proof (zlen_nonneg new); lia).
    rewrite app_nil_r in *. destruct (s_error f || err) eqn:He.
    + wp_bind. eapply wp_mono; [by eapply reading_free|]. intros [] m3 H3. wp_bind. unfold fclose_read. cbn [massert s_open].
      wp_bind. wp_ret. wp_ret. wp_ret. split; [done|]. split; [done|].
      apply orb_true_iff in He as [?| ->]; [by left|right]. rewrite Es. done.
    + apply orb_false_iff in He as [He ->]. wp_ret. split; [done|]. exists []. rewrite app_nil_r.
      assert (rest = []) as -> by (apply Hend; [done|simpl; lia]). rewrite Es. split_and!; auto. lia.
  - assert (length new <> 0)%nat by (unfold zlen in *; lia).
    assert (length rest < fuel)%nat by (rewrite Es, !length_app, length_fmap in Hfuel; lia).
    assert (zlen (bs ++ new) + zlen rest <= total) as Htot'.
    { rewrite Es, !zlen_app, zlen_fmap in Htot. rewrite zlen_app. destruct err; simpl in Htot; unfold zlen in *; simpl in *; lia. }
    eapply wp_mono; [by apply (IH nb ncap (bs ++ new) m2 (Stream rest (s_error f || err) true))|].
    intros [[st [[b c] l]] f'] m3 [Hop Hp]. split; [exact Hop|]. cbn [fst s_error s_items] in *.
    rewrite Es, stream_bytes_app. destruct st; try done.
    + destruct Hp as (more & He & Hb & -> & Hr3 & Hc). apply orb_false_iff in He as [He ->]. exists (new ++ more).
      rewrite app_nil_l, Hb, app_assoc. split; [done|]. split; [done|]. split; [done|]. by split.
    + destruct Hp as [Hm [He|He]]; (split; [done|]).
      * apply orb_true_iff in He as [He| ->]; [by left|right]. done.
      * right. destruct err; [done|]. simpl. by rewrite He.
Qed.

(** Trimming the buffer at the end. *)
Lemma shrink_spec {T} (f : T) m0 buf cap bs m :
  reading m0 buf cap bs m -> bs <> [] ->
  wp (shrunk ← d4np_realloc (Some a) buf cap (zlen bs) MAX_ALIGN;
      let buf := if is_null shrunk then buf else shrunk in
      mret (D4NP_OK, Some (buf, zlen bs), f)) m (fun r m' => exists p size,
    r = (D4NP_OK, Some (p, zlen bs), f) /\ load_bytes p (zlen bs) m' = Some (bs, m') /\
    owned m' p size /\ zlen bs <= size /\ heap_free p (m_heap m') = m_heap m0).
Proof.
  intros (Ho & Hc & Hh & Hs & Hf) Hne. pose proof (zlen_nonneg bs).
  assert (0 < zlen bs) as Hpos by (destruct bs; [done|]; rewrite zlen_cons; pose proof (zlen_nonneg bs); lia).
  pose proof (owned_opt_size _ _ _ Ho) as Hsz.
  assert (forall m' p cs, m_heap m' !! p = Some cs -> zlen bs <= zlen (blk_data cs) ->
    sub 0 (zlen bs) (blk_data cs) = Byte <$> bs -> load_bytes (Ptr p 0) (zlen bs) m' = Some (bs, m')) as Hld.
  { intros m' p cs Hp Hl Hb. apply load_bytes_load. simpl. rewrite Hp, decide_True by lia. by rewrite Hb. }
  wp_bind. unfold d4np_realloc, resolve.
  eapply wp_mono; [apply (ok_realloc m buf cap (zlen bs) MAX_ALIGN Hpos); [by exists 4|done]|].
  intros p m' Hp. wp_ret. destruct p as [|b off]; cbn [is_null].
  - simpl in Hp. apply owned_opt_pos in Ho as Ho'; [|lia]. exists buf, cap. split; [done|].
    destruct Ho' as (b & blk & -> & Hb & Hz). unfold cells_of in Hs. rewrite Hb in Hs.
    split; [apply (Hld m' b blk); simpl in *; [by rewrite Hp|lia|done]|].
    split; [exists b, blk; by rewrite Hp|]. split; [lia|]. by rewrite Hp.
  - destruct Hp as (-> & Hn & Hmax & addr & _ & _ & Hm').
    assert (m_heap m' !! b = Some (Block addr (resize (Z.to_nat (zlen bs)) Undef (cells_of m buf)))) as Hb
      by (by rewrite Hm', lookup_insert_eq).
    exists (Ptr b 0), (zlen bs). split; [done|]. split.
    { eapply Hld; [exact Hb|simpl; rewrite zlen_resize; lia|]. simpl. rewrite sub_resize by lia. done. }
    split; [eexists b, _; split; [done|]; split; [exact Hb|]; simpl; rewrite zlen_resize; lia|]. split; [lia|].
    simpl. rewrite Hm', <- Hh. apply delete_insert_id. destruct buf as [|b' o']; [done|]. simpl.
    rewrite lookup_delete. by case_decide.
Qed.

End read_proof.

(** A stream that was opened has been closed. *)
Definition stream_closed {T} (opened : option T) (f : option stream) : Prop :=
  match opened, f with
  | Some _, Some f => s_open f = false
  | None, None => True
  | _, _ => False
  end.

(** The outcomes of a read. *)
Definition read_post `{!Libc} (fopen : list Z -> option items) (name : list Z) (allocator : option d4np_allocator)
    (m : mem) (r : d4np_status * option (ptr * Z) * option stream) (m' : mem) : Prop :=
  stream_closed (fopen name) r.2 /\
  match r.1 with
  | (D4NP_OK, Some (p, n)) => exists s bs, fopen name = Some s /\ stream_bytes s = Some bs /\ n = zlen bs /\
      if decide (bs = []) then p = Null /\ m_heap m' = m_heap m
      else load_bytes p n m' = Some (bs, m') /\ heap_free p (m_heap m') = m_heap m /\
           exists size, owned m' p size /\ n <= size
  | (D4NP_ERR_IO, None) => m_heap m' = m_heap m /\
      (fopen name = None \/ exists s, fopen name = Some s /\ stream_bytes s = None)
  | (D4NP_ERR_OUT_OF_MEMORY, None) => m_heap m' = m_heap m /\
      exists s, fopen name = Some s /\ refused (resolve allocator) (read_limit (zlen s))
  | _ => False
  end.

Lemma read_all_spec `{!Libc} fopen m path name allocator :
  allocator_arg_ok allocator -> cstring m path name ->
  wp (d4np_file_read_all fopen path allocator true) m (read_post fopen name allocator m).
Proof.
  intros Ha Hc. unfold read_post. pose proof (resolve_ok _ Ha) as Hok. set (a := resolve allocator) in *.
  assert (is_null path = false) as Hn by (by destruct path; [destruct Hc|]).
  unfold d4np_file_read_all. rewrite Hn. cbn [negb orb]. fold a. wp_bind.
  eapply wp_run with (a := name) (m' := m).
  { unfold c_string, mbind, M_bind. rewrite (strlen_spec _ _ _ Hc). by apply cstring_bytes. }
  destruct (fopen name) as [s|] eqn:Hs; [|wp_ret; split; [done|split; [done|by left]]].
  wp_bind. eapply wp_mono; [apply (read_loop_spec a m (zlen s) (S (length s)) Null 0 [] m (Stream s false true)); [apply reading_start|simpl; lia|simpl; by change (@zlen Z []) with 0|done]|].
  intros [[st [[buf cap] len]] f] m1 [Hop Hp]. cbn [fst snd s_error s_items] in Hop, Hp. destruct st; try done.
  - destruct Hp as (bs & _ & Hb & -> & Hr & Hcap). rewrite app_nil_l in *. rewrite decide_False by (by intros []).
    rewrite bool_decide_eq_true_2 in Hop by done. wp_bind. unfold fclose_read. rewrite Hop. cbn [massert].
    wp_bind. wp_ret. wp_ret. set (f' := Stream _ _ false).
    destruct (Z.eqb_spec (zlen bs) 0) as [E0|Hne].
    + assert (bs = []) as -> by (destruct bs; [done|]; rewrite zlen_cons in E0; pose proof (zlen_nonneg bs); lia).
      wp_bind. eapply wp_mono; [by eapply reading_free|]. intros [] m2 H2. wp_ret. split; [done|]. exists s, []. by split_and!.
    + assert (bs <> []) as Hbs by (by intros ->). eapply wp_mono; [by eapply shrink_spec|].
      intros r m2 (p & size & -> & Hl & Ho & Hle & Hh). split; [done|]. exists s, bs. rewrite decide_False by done. eauto 10.
  - rewrite decide_True by done. wp_ret. destruct Hp as [Hm Href]. split; [exact Hop|]. cbn [fst]. eauto.
  - rewrite decide_True by done. wp_ret. destruct Hp as [Hm [?|Hn']]; [done|]. split; [exact Hop|]. split; [done|]. right. eauto.
Qed.

(** C18. [d4np_file_read_all] is free of undefined behaviour and terminates,
    with any allocator that keeps its contract and any pattern of read errors:
    it succeeds only if the file opens and no read fails, and then returns
    exactly the bytes of the file in a live allocation that is the only change
    to the heap ([NULL] and 0 for an empty file); when it reports an I/O error
    the file does not open or a read failed, when it reports that memory ran out
    the allocator refused a request of at most twice the length of the file (or
    one chunk), and on every error the heap is as it was.  A stream that was
    opened is closed on every path, and never used after that. *)
Theorem file_read_all_exact `{!Libc} fopen m path name allocator :
  allocator_arg_ok allocator -> cstring m path name ->
  wp (d4np_file_read_all fopen path allocator true) m (fun '(r, f) m' =>
    stream_closed (fopen name) f /\
    match r with
    | (D4NP_OK, Some (p, n)) => exists s bs, fopen name = Some s /\ stream_bytes s = Some bs /\ n = zlen bs /\
        if decide (bs = []) then p = Null /\ m_heap m' = m_heap m
        else load_bytes p n m' = Some (bs, m') /\ heap_free p (m_heap m') = m_heap m /\
             exists size, owned m' p size /\ n <= size
    | (D4NP_ERR_IO, None) => m_heap m' = m_heap m /\
        (fopen name = None \/ exists s, fopen name = Some s /\ stream_bytes s = None)
    | (D4NP_ERR_OUT_OF_MEMORY, None) => m_heap m' = m_heap m /\
        exists s, fopen name = Some s /\ refused (resolve allocator) (read_limit (zlen s))
    | _ => False
    end).
Proof.
  intros Ha Hc. eapply wp_mono; [by apply read_all_spec|]. intros [r f] m' Hp. exact Hp.
Qed.

(** ** The replacement is atomic *)

Section write_proof.
Variables (fs0 : fs) (target : name) (bs : list Z).
Notation tmp := (target ++ tmp_suffix).

(** The temporary name is not a second name of another file, and new files
    get new numbers. *)
Definition tmp_private : Prop :=
  (forall i, fs_dir fs0 !! tmp = Some i ->
    Some i ∉ bindings target fs0 /\ forall q, q <> tmp -> fs_dir fs0 !! q <> Some i) /\
  (forall q i, Some i ∈ bindings q fs0 -> (i < fs_next fs0)%nat).

(** What must hold of every state that can be observed. *)
Definition intact (t : fs) : Prop :=
  (content t target = content fs0 target \/ content t target = Some bs) /\
  (forall c, after_crash t target c -> after_crash fs0 target c \/ c = Some bs).

Definition log_intact (w : world) : Prop := Forall intact (w_log w).

(** Before the rename: only the temporary file [i] has changed; it holds [d]. *)
Definition preparing (i : nat) (d : list Z) (s : bool) (t : fs) : Prop :=
  (forall q, q <> tmp -> fs_dir t !! q = fs_dir fs0 !! q) /\ (forall x, x ∈ bindings target t -> x ∈ bindings target fs0) /\
  Some i ∉ bindings target fs0 /\ (forall q, q <> tmp -> fs_dir fs0 !! q <> Some i) /\
  (forall j, j <> i -> fs_inodes t !! j = fs_inodes fs0 !! j) /\ fs_inodes t !! i = Some (Inode d s).

Lemma target_not_tmp : target <> tmp.
Proof. intros E. apply (f_equal length) in E. rewrite length_app in E. simpl in E. lia. Qed.

(** Files other than the two keep their contents. *)
Lemma preparing_content i d s t q : preparing i d s t -> q <> tmp -> content t q = content fs0 q.
Proof.
  intros (Hd & _ & _ & Hp & Hi & _) Hq. unfold content. rewrite Hd by done.
  destruct (fs_dir fs0 !! q) as [j|] eqn:E; [|done]. simpl. rewrite Hi; [done|]. intros ->. by apply (Hp q).
Qed.

Lemma preparing_intact i d s t : preparing i d s t -> intact t.
Proof.
  intros Hp. split; [left; eapply preparing_content; eauto using target_not_tmp|].
  destruct Hp as (_ & Hb & Hn & _ & Hi & _). intros c (x & Hx & Hc). left. exists x. split; [by apply Hb|].
  destruct x as [j|]; [|done]. destruct Hc as (cs & -> & Hc). exists cs. split; [done|]. intros ino.
  rewrite <- Hi; [apply Hc|]. intros ->. by apply Hn, Hb.
Qed.

Lemma preparing_step i d s t w :
  preparing i d s t -> log_intact w -> log_intact (to_state t w).
Proof. intros Hp Hl. constructor; [by eapply preparing_intact|done]. Qed.

(** A change of the temporary file. *)
Lemma preparing_file i d s t g d' s' n :
  preparing i d s t -> g (Inode d s) = Inode d' s' ->
  preparing i d' s' (Fs (fs_dir t) (fs_past t) (alter g i (fs_inodes t)) n).
Proof.
  intros (Hd & Hb & Hn & Hp & Hi & Hio) Hg. split_and!; auto; simpl.
  - intros j Hj. rewrite lookup_alter_ne by done. by apply Hi.
  - rewrite lookup_alter, Hio. simpl. by rewrite decide_True, Hg.
Qed.

Lemma through_spec i d s k f w :
  preparing i d s (w_fs w) -> log_intact w -> o_inode f = i ->
  let r := through k f w in
  exists d' s', preparing i d' s' (w_fs (snd r)) /\ log_intact (snd r) /\ o_inode (fst r) = i /\
    d' ++ o_buf (fst r) = d ++ o_buf f /\ (length (o_buf f) <= k -> o_buf (fst r) = [])%nat /\
    (o_buf f = [] -> d' = d /\ s' = s) /\ fs_dir (w_fs (snd r)) = fs_dir (w_fs w).
Proof.
  intros Hp Hl Hi r. unfold r, through. destruct (take k (o_buf f)) as [|c cs] eqn:E.
  - exists d, s. split_and!; auto. simpl. intros Hk. by rewrite <- E, take_ge.
  - rewrite Hi. assert (preparing i (d ++ c :: cs) false
      (Fs (fs_dir (w_fs w)) (fs_past (w_fs w)) (alter (fun i => Inode (i_data i ++ c :: cs) false) i (fs_inodes (w_fs w))) (fs_next (w_fs w)))) as Hp'
      by (by apply preparing_file with d s).
    exists (d ++ c :: cs), false. split; [exact Hp'|]. split; [by eapply preparing_step|]. split_and!; simpl; auto.
    + rewrite <- app_assoc. rewrite <- E. by rewrite take_drop.
    + intros Hk. by apply drop_ge.
    + intros Hb. by rewrite Hb, take_nil in E.
Qed.

Lemma fopen_wb_spec e :
  tmp_private ->
  match fopen_wb e tmp (World fs0 []) with
  | (None, w) => w = World fs0 []
  | (Some f, w) => exists s, preparing (o_inode f) [] s (w_fs w) /\ log_intact w /\ o_buf f = [] /\
      fs_dir (w_fs w) !! tmp = Some (o_inode f)
  end.
Proof.
  intros [Hp Hw]. unfold fopen_wb. destruct (fopen_ok e); [|done]. simpl.
  destruct (fs_dir fs0 !! tmp) as [i|] eqn:E; exists false; cbn [o_inode o_buf].
  - destruct (Hp i eq_refl) as [H1 H2].
    assert (preparing i [] false (Fs (fs_dir fs0) (fs_past fs0) (<[i:=Inode [] false]> (fs_inodes fs0)) (fs_next fs0))) as Hpr.
    { split_and!; auto; simpl; [|by rewrite lookup_insert_eq]. intros j Hj. by rewrite lookup_insert_ne. }
    split; [exact Hpr|]. split; [by eapply preparing_step; [exact Hpr|constructor]|]. done.
  - assert (forall q, Some (fs_next fs0) ∉ bindings q fs0) as Hfresh by (intros q Hin; apply Hw in Hin; lia).
    match goal with |- preparing _ _ _ ?t /\ _ => assert (preparing (fs_next fs0) [] false t) as Hpr end.
    { split_and!; simpl.
      - intros q Hq. by rewrite lookup_insert_ne.
      - intros x. unfold bindings. cbn [fs_dir fs_past]. rewrite fmap_cons.
        rewrite lookup_insert_ne by (apply not_eq_sym, target_not_tmp).
        intros [->|Hx]%elem_of_cons; [apply list_elem_of_here|exact Hx].
      - apply Hfresh.
      - intros q _ Hq. apply (Hfresh q). unfold bindings. rewrite fmap_cons, Hq. apply list_elem_of_here.
      - intros j Hj. by rewrite lookup_insert_ne.
      - by rewrite lookup_insert_eq. }
    split; [exact Hpr|]. split; [by eapply preparing_step; [exact Hpr|constructor]|]. split; [done|]. simpl.
    by rewrite lookup_insert_eq.
Qed.

(** Every way out with an error. *)
Lemma tmp_remove_spec e i d s w :
  preparing i d s (w_fs w) -> log_intact w ->
  exists d s, preparing i d s (w_fs (remove e tmp w)) /\ log_intact (remove e tmp w).
Proof.
  intros Hp Hl. exists d, s. unfold remove. destruct (remove_ok e); [|done]. cbn [w_fs to_state].
  match goal with |- preparing _ _ _ ?t /\ _ => assert (preparing i d s t) as Hpr end.
  { destruct Hp as (Hd & Hb & Hn & Hq & Hi & Hio). split_and!; auto; simpl.
    - intros q Hqt. rewrite lookup_delete_ne by done. by apply Hd.
    - intros x. unfold bindings. cbn [fs_dir fs_past]. rewrite fmap_cons.
      rewrite lookup_delete_ne by (apply not_eq_sym, target_not_tmp).
      intros [->|Hx]%elem_of_cons; [apply Hb; unfold bindings; rewrite fmap_cons; apply list_elem_of_here|by apply Hb]. }
  split; [exact Hpr|by eapply preparing_step].
Qed.

(** The rename of a file that holds all of the data, synced. *)
Lemma rename_spec e i w :
  preparing i bs true (w_fs w) -> log_intact w -> fs_dir (w_fs w) !! tmp = Some i ->
  match rename e tmp target w with
  | (false, w') => w' = w
  | (true, w') => log_intact w' /\ content (w_fs w') target = Some bs /\ fs_dir (w_fs w') !! tmp = None /\
      forall q, q <> tmp -> q <> target -> content (w_fs w') q = content fs0 q
  end.
Proof.
  intros Hp Hl Ht. pose proof target_not_tmp as Hne. unfold rename. rewrite Ht. destruct (rename_ok e); [|done].
  match goal with |- log_intact (to_state ?t _) /\ _ => set (t' := t) end.
  assert (content t' target = Some bs) as Hc.
  { unfold content, t'. simpl. rewrite lookup_insert_eq. simpl. destruct Hp as (_ & _ & _ & _ & _ & ->). done. }
  split; [constructor; [|done]|split; [done|split]].
  - split; [by right|]. intros c (x & Hx & Hxc). unfold bindings in Hx. cbn [t' fs_dir fs_past] in Hx. rewrite fmap_cons in Hx.
    rewrite lookup_insert_eq in Hx. apply elem_of_cons in Hx as [->|Hx].
    + right. destruct Hxc as (cs & -> & Hs). f_equal. destruct Hp as (_ & _ & _ & _ & _ & Hio). by apply (Hs _ Hio).
    + apply (preparing_intact i bs true (w_fs w) Hp). exists x. split; [exact Hx|]. exact Hxc.
  - simpl. rewrite lookup_insert_ne by done. by rewrite lookup_delete_eq.
  - intros q H1 H2. rewrite <- (preparing_content i bs true (w_fs w) q Hp H1). unfold content, t'. simpl.
    rewrite lookup_insert_ne, lookup_delete_ne by done. done.
Qed.

Definition write_post (r : d4np_status * world) : Prop :=
  let '(st, w) := r in
  log_intact w /\ (forall q, q <> tmp -> q <> target -> content (w_fs w) q = content fs0 q) /\
  match st with
  | D4NP_OK => content (w_fs w) target = Some bs /\ fs_dir (w_fs w) !! tmp = None
  | D4NP_ERR_IO => content (w_fs w) target = content fs0 target
  | _ => False
  end.

Lemma error_exit e i d s w :
  preparing i d s (w_fs w) -> log_intact w -> write_post (D4NP_ERR_IO, remove e tmp w).
Proof.
  intros Hp Hl. destruct (tmp_remove_spec e i d s w Hp Hl) as (d' & s' & Hp' & Hl').
  split; [done|]. split; [intros q Hq _|]; eapply preparing_content; eauto using target_not_tmp.
Qed.

Lemma fclose_spec e i d s f w :
  preparing i d s (w_fs w) -> log_intact w -> o_inode f = i ->
  exists d' s', preparing i d' s' (w_fs (snd (fclose e f w))) /\ log_intact (snd (fclose e f w)) /\
    (o_buf f = [] -> d' = d /\ s' = s) /\ fs_dir (w_fs (snd (fclose e f w))) = fs_dir (w_fs w).
Proof.
  intros Hp Hl Hi. unfold fclose. set (k := if fclose_ok e then length (o_buf f) else fclose_through e).
  destruct (through_spec i d s k f w Hp Hl Hi) as (d' & s' & H1 & H2 & _ & _ & _ & H3 & H4).
  destruct (through k f w) as [f' w']. exists d', s'. by split_and!.
Qed.

(** An error exit that closes the stream first. *)
Lemma close_exit e i d s f w :
  preparing i d s (w_fs w) -> log_intact w -> o_inode f = i ->
  write_post (let '(_, w) := fclose e f w in (D4NP_ERR_IO, remove e tmp w)).
Proof.
  intros Hp Hl Hi. destruct (fclose_spec e i d s f w Hp Hl Hi) as (d' & s' & Hp' & Hl' & _).
  destruct (fclose e f w) as [b w']. by eapply error_exit.
Qed.

Lemma commit_spec e i d s f w :
  preparing i d s (w_fs w) -> log_intact w -> o_inode f = i -> d ++ o_buf f = bs ->
  fs_dir (w_fs w) !! tmp = Some i -> write_post (commit e tmp target f w).
Proof.
  intros Hp Hl Hi Hd Ht. unfold commit, fflush.
  set (k := if fflush_ok e then length (o_buf f) else fflush_through e).
  destruct (through_spec i d s k f w Hp Hl Hi) as (d1 & s1 & Hp1 & Hl1 & Hi1 & Hd1 & Hk & _ & Hdir1).
  destruct (through k f w) as [f1 w1]. cbn [fst snd] in *.
  destruct (fflush_ok e) eqn:Hf; [|by eapply close_exit]. unfold file_sync.
  destruct (fsync_ok e); [|by eapply close_exit]. cbn [negb].
  assert (o_buf f1 = []) as Hb1 by (apply Hk; unfold k; lia).
  assert (d1 = bs) as -> by (rewrite Hb1, app_nil_r in Hd1; congruence).
  set (w2 := to_state _ w1).
  assert (preparing i bs true (w_fs w2)) as Hp2
    by (unfold w2; simpl; rewrite Hi1; by apply preparing_file with bs s1).
  assert (log_intact w2) as Hl2 by (by eapply preparing_step).
  destruct (fclose_spec e i bs true f1 w2 Hp2 Hl2 Hi1) as (d3 & s3 & Hp3 & Hl3 & Hb3 & Hdir3).
  destruct (Hb3 Hb1) as [-> ->]. destruct (fclose e f1 w2) as [closed w3]. cbn [snd] in *.
  destruct closed; cbn [negb]; [|by eapply error_exit].
  assert (fs_dir (w_fs w3) !! tmp = Some i) as Ht3 by (rewrite Hdir3; unfold w2; simpl; by rewrite Hdir1).
  pose proof (rename_spec e i w3 Hp3 Hl3 Ht3) as Hr. destruct (rename e tmp target w3) as [[] w4]; cbn [negb].
  - destruct Hr as (H1 & H2 & H3 & H4). by split_and!.
  - subst w4. by eapply error_exit.
Qed.

End write_proof.

(** The name of the temporary file fits in its array. *)
Lemma tmp_name_run m path target :
  cstring m path target -> zlen target + 5 <= 4096 ->
  load path (zlen target) m = Some (Byte <$> target, m) /\
  exists buf, array_write 0 (Byte <$> target) (replicate 4096 Undef) m = Some (buf, m) /\
    exists buf', array_write (zlen target) (Byte <$> tmp_suffix ++ [0]) buf m = Some (buf', m) /\
      array_string buf' = Some (target ++ tmp_suffix).
Proof.
  intros Hc Hlen. pose proof (zlen_nonneg target). split; [apply load_bytes_load; by apply cstring_bytes|].
  eexists. split; [apply array_write_run; rewrite ?zlen_fmap; [lia|]; unfold zlen at 2; rewrite length_replicate; lia|].
  set (buf := splice _ _ _). assert (zlen buf = 4096) as Hbuf.
  { unfold buf. rewrite zlen_splice; rewrite ?zlen_fmap; unfold zlen; rewrite ?length_replicate; unfold zlen in *; lia. }
  eexists. split; [apply array_write_run; rewrite ?zlen_fmap; [lia|]; rewrite Hbuf; exact Hlen|].
  assert (take (length target) buf = Byte <$> target) as Ht.
  { unfold buf, splice. rewrite take_0. simpl. rewrite <- (length_fmap Byte), take_app_length. done. }
  assert (exists cs, splice (zlen target) (Byte <$> tmp_suffix ++ [0]) buf =
    (Byte <$> target ++ tmp_suffix) ++ Byte 0 :: cs) as [cs ->].
  { eexists. unfold splice. unfold zlen at 1. rewrite Nat2Z.id, Ht, !fmap_app, <- !app_assoc. reflexivity. }
  apply array_string_nul_free. intros [?|Hin]%elem_of_app; [by destruct Hc|].
  by apply list_elem_of_In in Hin; repeat destruct Hin as [[=]|Hin].
Qed.

Lemma write_all_spec m e path target data size bs fs0 :
  cstring m path target -> zlen target + 5 <= 4096 -> 0 <= size -> zlen bs = size ->
  (0 < size -> load_bytes data size m = Some (bs, m)) -> tmp_private fs0 target ->
  wp (d4np_file_write_all e path data size (World fs0 [])) m (fun r m' =>
    m' = m /\ write_post fs0 target bs r).
Proof.
  intros Hc Hlen Hs0 Hz Hld Hpriv. pose proof (zlen_nonneg target).
  assert (is_null path = false) as Hn by (by destruct path; [destruct Hc|]).
  assert ((0 <? size) && is_null data = false) as Hdn.
  { destruct (Z.ltb_spec 0 size); [|done]. by destruct data; [specialize (Hld ltac:(done))|]. }
  unfold d4np_file_write_all. rewrite Hn, Hdn. cbn [orb]. wp_bind. eapply wp_run; [by apply strlen_spec|].
  change (zlen tmp_suffix + 1) with 5. rewrite size_add_small by size_lia. rewrite (proj2 (Z.ltb_ge _ _)) by lia.
  destruct (tmp_name_run m path target Hc Hlen) as (Hsrc & buf & E1 & buf' & E2 & E3).
  wp_bind. eapply wp_run; [exact Hsrc|]. wp_bind. eapply wp_run; [exact E1|]. wp_bind. eapply wp_run; [exact E2|].
  wp_bind. eapply wp_run; [unfold lift_opt; by rewrite E3|]. wp_bind. eapply wp_run; [by apply cstring_bytes|]. cbv zeta.
  pose proof (fopen_wb_spec fs0 target bs e Hpriv) as Hop.
  destruct (fopen_wb e (target ++ tmp_suffix) (World fs0 [])) as [[f|] w1].
  2: { subst w1. wp_ret. split; [done|]. split; [constructor|done]. }
  destruct Hop as (s & Hp & Hl & Hb & Ht). wp_bind.
  set (i := o_inode f) in *.
  apply wp_mono with (Φ := fun r m' => m' = m /\ let '(wrote, f', w2) := r in exists d s', 
    preparing fs0 target i d s' (w_fs w2) /\ log_intact fs0 target bs w2 /\ o_inode f' = i /\
    fs_dir (w_fs w2) !! (target ++ tmp_suffix) = Some i /\
    (((0 <? size) && negb (wrote =? size)) = false -> d ++ o_buf f' = bs)).
  - destruct (Z.ltb_spec 0 size) as [Hpos|Hz0].
    + wp_bind. eapply wp_run; [by apply Hld|]. wp_ret. split; [done|]. unfold fwrite. rewrite Hb, app_nil_l.
      set (n := Z.max 0 (Z.min (fwrite_count e) (zlen bs))).
      destruct (through_spec fs0 target bs i [] s (fwrite_through e) (Ostream (o_inode f) (take (Z.to_nat n) bs)) w1 Hp Hl eq_refl)
        as (d & s' & Hp' & Hl' & Hi' & Hd' & _ & _ & Hdir).
      destruct (through _ _ w1) as [f' w2]. cbn [fst snd] in *. exists d, s'. split_and!; auto; [by rewrite Hdir|].
      cbn [andb]. destruct (Z.eqb_spec n size) as [En|]; [intros _|done]. rewrite Hd', app_nil_l. cbn [o_buf].
      apply take_ge. unfold zlen in *. lia.
    + wp_ret. split; [done|]. assert (size = 0) as -> by lia. exists [], s. split_and!; auto. intros _. rewrite Hb.
      by destruct bs; [|rewrite zlen_cons in Hz; pose proof (zlen_nonneg bs); lia].
  - intros [[wrote f'] w2] m1 [-> (d & s' & Hp2 & Hl2 & Hi2 & Ht2 & Hd2)].
    destruct ((0 <? size) && negb (wrote =? size)).
    + pose proof (close_exit fs0 target bs e i d s' f' w2 Hp2 Hl2 Hi2) as Hx.
      destruct (fclose e f' w2) as [b w3]. wp_ret. split; [done|]. exact Hx.
    + wp_ret. split; [done|]. exact (commit_spec fs0 target bs e i d s' f' w2 Hp2 Hl2 Hi2 (Hd2 eq_refl) Ht2).
Qed.

(** C17. [d4np_file_write_all] replaces a file atomically, whatever calls
    fail: at every moment, also to a reader in the middle of it, the target
    has its old contents or exactly the new data, and after a crash at any
    moment it has what it could have had before the call or exactly the new
    data, never a part of it.  When it succeeds the target has the new data
    and the temporary file is gone; when it reports an I/O error the target
    has its old contents; no other file changes. *)
Theorem file_write_all_atomic m e path target data size bs fs0 :
  cstring m path target -> zlen target + 5 <= 4096 -> 0 <= size -> zlen bs = size ->
  (0 < size -> load_bytes data size m = Some (bs, m)) -> tmp_private fs0 target ->
  wp (d4np_file_write_all e path data size (World fs0 [])) m (fun r m' =>
    m' = m /\
    let '(st, w) := r in
    Forall (intact fs0 target bs) (w_log w) /\
    (forall q, q <> target ++ tmp_suffix -> q <> target -> content (w_fs w) q = content fs0 q) /\
    match st with
    | D4NP_OK => content (w_fs w) target = Some bs /\ fs_dir (w_fs w) !! (target ++ tmp_suffix) = None
    | D4NP_ERR_IO => content (w_fs w) target = content fs0 target
    | _ => False
    end).
Proof.
  intros Hc Hlen Hs0 Hz Hld Hpriv. eapply wp_mono; [by apply (write_all_spec m e path target data size bs fs0)|].
  intros [st w] m' H. exact H.
Qed.

(** What [fopen] opens for reading: the file as readers see it. *)
Definition reader (t : fs) (q : name) : option items := (fun bs : list Z => Some <$> bs) <$> content t q.

Lemma stream_bytes_some bs : stream_bytes (Some <$> bs) = Some bs.
Proof. pose proof (stream_bytes_app bs []) as E. rewrite app_nil_r in E. rewrite E. simpl. by rewrite app_nil_r. Qed.

(** C23. What is written is read back: if [d4np_file_write_all] succeeds, then
    [d4np_file_read_all] of the same path returns exactly the data that was
    written, and it does succeed unless the allocator refuses a request of at
    most twice the size of the data (or one chunk), with the stream it read
    closed; if the write fails, the path still has what it had. *)
Theorem file_write_read_roundtrip `{!Libc} m e path target data size bs fs0 allocator :
  cstring m path target -> zlen target + 5 <= 4096 -> 0 <= size -> zlen bs = size ->
  (0 < size -> load_bytes data size m = Some (bs, m)) -> tmp_private fs0 target -> allocator_arg_ok allocator ->
  wp ('(st, w) ← d4np_file_write_all e path data size (World fs0 []);
      r ← d4np_file_read_all (reader (w_fs w)) path allocator true;
      mret (st, w, r)) m (fun '(st, w, r) m' =>
    match st with
    | D4NP_OK =>
        stream_closed (Some tt) r.2 /\
        match r.1 with
        | (D4NP_OK, Some (p, n)) => n = size /\
            if decide (bs = []) then p = Null /\ m_heap m' = m_heap m
            else load_bytes p n m' = Some (bs, m') /\ heap_free p (m_heap m') = m_heap m
        | (D4NP_ERR_OUT_OF_MEMORY, None) =>
            m_heap m' = m_heap m /\ refused (resolve allocator) (read_limit size)
        | _ => False
        end
    | _ => st = D4NP_ERR_IO /\ content (w_fs w) target = content fs0 target
    end).
Proof.
  intros Hc Hlen Hs0 Hz Hld Hpriv Ha. wp_bind.
  eapply wp_mono; [by apply (write_all_spec m e path target data size bs fs0)|]. intros [st w] m1 [-> Hw].
  wp_bind. eapply wp_mono; [by apply read_all_spec|]. intros [[st' o] f] m2 [Hcl Hr]. wp_ret.
  unfold write_post in Hw. destruct Hw as (_ & _ & Hw). destruct st; try done.
  destruct Hw as [Hb _]. pose proof (stream_bytes_some bs) as Hs. unfold read_post in Hr.
  assert (reader (w_fs w) target = Some (Some <$> bs)) as Hf by (unfold reader; by rewrite Hb). rewrite Hf in Hr, Hcl.
  split; [exact Hcl|]. cbn [fst snd] in *. destruct st'; try done.
  - destruct o as [[p n]|]; [|done]. destruct Hr as (s & bs' & [= <-] & E & -> & Hr). rewrite Hs in E.
    injection E as <-. split; [done|]. case_decide; [done|]. by destruct Hr as (? & ? & _).
  - destruct o; [done|]. destruct Hr as (Hm & s & [= <-] & Href). by rewrite zlen_fmap, Hz in Href.
  - destruct o; [done|]. destruct Hr as (_ & [?|(s & [= <-] & E)]); [done|]. by rewrite Hs in E.
Qed.

(** ** When the trimming fails *)

(** An allocator that does not shrink, and whose [free] insists on the size of
    the allocation, as the header asks of its callers. *)
Section strict.
Context `{!Libc}.

Definition strict_realloc (p : ptr) (old_size new_size align : Z) : M ptr :=
  if new_size <? old_size then mret Null else default_realloc p old_size new_size align.

Definition strict_free (p : ptr) (size : Z) : M unit := fun m =>
  match p with
  | Null => Some (tt, m)
  | Ptr b _ =>
      if decide (zlen (cells_of m p) = size) then free p m else None
  end.

Definition strict_allocator : d4np_allocator := Allocator default_alloc strict_realloc strict_free.

#[export] Instance strict_allocator_ok : AllocatorOk strict_allocator.
Proof.
  split; simpl.
  - apply (ok_alloc (a := d4np_allocator_default)).
  - intros m p old new align Hs Hp Ho. unfold strict_realloc. destruct (new <? old); [by wp_ret|].
    by apply (ok_realloc (a := d4np_allocator_default) m p old new align).
  - intros m p size Ho. destruct (ok_free (a := d4np_allocator_default) m p size Ho) as (x & m' & E & Hm').
    exists x, m'. split; [|done]. destruct p as [|b off]; [exact E|]. destruct Ho as [?|(b' & blk & [= <- ->] & Hb & Hz)]; [done|].
    unfold strict_free, cells_of. rewrite Hb. simpl fmap. simpl default. rewrite decide_True by done. exact E.
Qed.

End strict.

(** ** Witnesses *)

(** The name ["a"], and the byte 104. *)
Definition file_mem : mem :=
  Mem (<[0%nat := Block 16 (Byte <$> [97; 0])]> {[ 1%nat := Block 32 (Byte <$> [104]) ]}) 2.

Lemma file_path : cstring file_mem (Ptr 0 0) [97].
Proof. split; [reflexivity|set_solver]. Qed.

#[local] Existing Instance libc_plenty.

(** A read that succeeds and whose result cannot be freed as documented. *)
Definition mismatched (a : d4np_allocator) (r : option (d4np_status * option (ptr * Z) * option stream * mem)) : bool :=
  match r with
  | Some ((D4NP_OK, Some (p, n), _), m) => match d4np_free (Some a) p n m with None => true | Some _ => false end
  | _ => false
  end.

Lemma mismatched_spec a r :
  mismatched a r = true ->
  exists m p n f, r = Some ((D4NP_OK, Some (p, n), f), m) /\ d4np_free (Some a) p n m = None.
Proof.
  unfold mismatched. destruct r as [[[[[] [[p n]|]] f] m]|]; try done.
  destruct (d4np_free (Some a) p n m) eqn:E; [done|]. eauto 6.
Qed.

(** A buffer that cannot be trimmed is returned with the length of the
    file as its size: freed as documented, with that size, it breaks the
    contract of an allocator that relies on the size it is given. *)
Theorem file_read_free_mismatch :
  AllocatorOk strict_allocator /\
  exists m' p n f, d4np_file_read_all (fun _ => Some [Some 104]) (Ptr 0 0) (Some strict_allocator) true file_mem =
      Some ((D4NP_OK, Some (p, n), f), m') /\
    d4np_free (Some strict_allocator) p n m' = None.
Proof.
  split; [apply _|]. apply mismatched_spec. vm_compute. reflexivity.
Qed.

Lemma file_read_all_exact_witness :
  exists p f m', d4np_file_read_all (fun _ => Some [Some 104; Some 105]) (Ptr 0 0) None true file_mem =
      Some ((D4NP_OK, Some (p, 2), Some f), m') /\ s_open f = false /\ load_bytes p 2 m' = Some ([104; 105], m').
Proof.
  destruct (file_read_all_exact (fun _ => Some [Some 104; Some 105]) file_mem (Ptr 0 0) [97] None I file_path)
    as ([[st o] f] & m' & E & Hcl & Hp). destruct f as [f|]; [|exfalso; exact Hcl].
  assert (st = D4NP_OK /\ o = Some (Ptr 3 0, 2)) as [-> ->].
  { apply (f_equal (fmap (fun r => fst (fst r)))) in E. revert E. vm_compute. by intros [= <- <-]. }
  exists (Ptr 3 0), f, m'. split; [exact E|]. split; [exact Hcl|]. destruct Hp as (s & bs & [= <-] & [= <-] & _ & Hl & _). exact Hl.
Defined.

(** A file system with the file ["a"], and a run in which every call succeeds. *)
Definition fs_a : fs := Fs {[ [97] := 0%nat ]} [] {[ 0%nat := Inode [1; 2] true ]} 1.
Definition io_fine : io := Io true 1 0 true 0 true true 0 true true.

Lemma fs_a_private : tmp_private fs_a [97].
Proof.
  split; [by intros i|]. intros q i Hin. apply list_elem_of_singleton in Hin.
  symmetry in Hin. cbn [fs_dir fs_a] in Hin. apply lookup_singleton_Some in Hin as [_ <-]. simpl. lia.
Qed.

Lemma file_write_all_atomic_witness :
  exists w, d4np_file_write_all io_fine (Ptr 0 0) (Ptr 1 0) 1 (World fs_a []) file_mem = Some ((D4NP_OK, w), file_mem) /\
    content (w_fs w) [97] = Some [104] /\ Forall (intact fs_a [97] [104]) (w_log w).
Proof.
  destruct (file_write_all_atomic file_mem io_fine (Ptr 0 0) [97] (Ptr 1 0) 1 [104] fs_a file_path)
    as ([st w] & m' & E & -> & Hl & _ & Hst); [by vm_compute|done|done|done|exact fs_a_private|].
  assert (st = D4NP_OK) as -> by (apply (f_equal (fmap (fun r => fst (fst r)))) in E; revert E; vm_compute; by intros [= <-]).
  exists w. split; [exact E|]. split; [apply Hst|exact Hl].
Defined.

Lemma file_write_read_roundtrip_witness :
  exists w p f m', d4np_file_write_all io_fine (Ptr 0 0) (Ptr 1 0) 1 (World fs_a []) file_mem = Some ((D4NP_OK, w), file_mem) /\
    d4np_file_read_all (reader (w_fs w)) (Ptr 0 0) None true file_mem =
      Some ((D4NP_OK, Some (p, 1), f), m') /\ load_bytes p 1 m' = Some ([104], m').
Proof.
  destruct (file_write_read_roundtrip file_mem io_fine (Ptr 0 0) [97] (Ptr 1 0) 1 [104] fs_a None file_path)
    as ([[st w] [[st' o] f]] & m' & E & Hp); [by vm_compute|done|done|done|exact fs_a_private|done|].
  exists w.
  assert (st = D4NP_OK /\ st' = D4NP_OK /\ o = Some (Ptr 3 0, 1)) as (-> & -> & ->).
  { apply (f_equal (fmap (fun r => (fst (fst (fst r)), fst (snd (fst r)))))) in E. revert E. vm_compute. by intros [= <- <- <-]. }
  exists (Ptr 3 0), f, m'. destruct Hp as (_ & _ & Hl & _). simpl in Hl. revert E.
  unfold mbind at 1, M_bind at 1.
  destruct (d4np_file_write_all io_fine (Ptr 0 0) (Ptr 1 0) 1 (World fs_a []) file_mem) as [[[st1 w1] m1]|] eqn:E1; [|done].
  assert (m1 = file_mem) as -> by (apply (f_equal (fmap snd)) in E1; revert E1; vm_compute; by intros [= <-]).
  unfold mbind, M_bind. destruct (d4np_file_read_all _ _ _ _ _) as [[r m2]|] eqn:E2; [|done].
  intros [= -> -> -> ->]. by split_and!.
Defined.

End File.
