(* ===== verification/Log.v ===== *)
(** * The logger ([d4np/sys/log.h], [log.c])

    Any number of threads write records and change the settings of a logger
    that initialises itself on first use.  The steps are the accesses to the
    shared variables and the calls of the C library; the acquire load and the
    release store of [g_once] order the plain accesses of the initialisation
    before those of every other thread, so steps interleave.  Every run is one
    of a logger with atomic operations, the output consists of whole records,
    and a thread moves on or waits for one that does.  A level is any value of
    the enumeration's integer type. *)

From S2P Require Import Prelude Status Mutex Parse.
Import Mutex.

Local Open Scope Z_scope.

Module Log.

(** The enumeration; as in C, an object of the type may hold another integer. *)
Definition d4np_log_level : Type := Z.
Definition D4NP_LOG_INFO : d4np_log_level := 0.
Definition D4NP_LOG_WARN : d4np_log_level := 1.
Definition D4NP_LOG_ERROR : d4np_log_level := 2.

(** The cast [(int)level]. *)
Definition level_int (l : d4np_log_level) : Z := l.

(** ["INFO"], ["WARN"], ["ERROR"] and ["?"]. *)
Definition level_name (l : d4np_log_level) : list Z :=
  if l =? D4NP_LOG_INFO then [73; 78; 70; 79]
  else if l =? D4NP_LOG_WARN then [87; 65; 82; 78]
  else if l =? D4NP_LOG_ERROR then [69; 82; 82; 79; 82]
  else [63].

(** The output of [fprintf(f, "[%llu] %-5s ", ts, level_name(level))]. *)
Definition log_prefix (ts : Z) (l : d4np_log_level) : list Z :=
  [91] ++ Parse.print_digits 64 10 ts ++ [93; 32] ++ resize 5 32 (level_name l) ++ [32].

(** Streams are numbers; 0 is [stderr]. *)
Definition stderr : nat := 0.

(** A call; [body] is what [vfprintf] makes of the format and its arguments. *)
Inductive op :=
  | Write (level : d4np_log_level) (body : list Z)
  | SetOutput (stream : option nat)
  | SetMinLevel (level : d4np_log_level).

(** Where a thread is. *)
Inductive pc :=
  | Idle
  | Enter (o : op)                                       (* log_ensure_init: about to load g_once *)
  | Cas (o : op)                                         (* about to compare and exchange *)
  | InitMutex (o : op)
  | InitStream (o : op)
  | InitLevel (o : op)
  | InitDone (o : op)
  | Spin (o : op)
  | Ready (o : op)                                       (* log_ensure_init has returned *)
  | WLock (l : d4np_log_level) (body : list Z) (ts : Z)  (* d4np_log_write *)
  | WPrefix (l : d4np_log_level) (body : list Z) (ts : Z)
  | WBody (l : d4np_log_level) (body : list Z) (ts : Z)
  | WNewline (l : d4np_log_level) (body : list Z) (ts : Z)
  | WFlush
  | SLock (f : option nat)                               (* d4np_log_set_output *)
  | SStore (f : option nat)
  | Unlock.

(** [g_once], [g_min_level], [g_mutex] and [g_stream]; what has been written to
    the streams, chunk by chunk. *)
Record state := State {
  g_once : Z;
  g_min_level : Z;
  g_mutex : d4np_mutex;
  g_stream : option nat;
  output : list (nat * list Z);
  threads : list pc
}.

Definition initial (n : nat) : state := State 0 0 Uninit None [] (replicate n Idle).

Inductive event :=
  | ETau
  | EInit
  | EDrop (l : d4np_log_level)
  | EPass (l : d4np_log_level)
  | ESetLevel (l : d4np_log_level)
  | ESetOutput (f : option nat)
  | ERecord (l : d4np_log_level) (ts : Z) (body : list Z)
  | EUndefined.

Definition goes (s : state) (i : nat) (p : pc) : state :=
  State (g_once s) (g_min_level s) (g_mutex s) (g_stream s) (output s) (<[i := p]> (threads s)).
Definition set_once (s : state) (x : Z) : state :=
  State x (g_min_level s) (g_mutex s) (g_stream s) (output s) (threads s).
Definition set_level (s : state) (x : Z) : state :=
  State (g_once s) x (g_mutex s) (g_stream s) (output s) (threads s).
Definition set_mutex (s : state) (x : d4np_mutex) : state :=
  State (g_once s) (g_min_level s) x (g_stream s) (output s) (threads s).
Definition set_stream (s : state) (x : option nat) : state :=
  State (g_once s) (g_min_level s) (g_mutex s) x (output s) (threads s).
Definition emit (s : state) (f : nat) (bs : list Z) : state :=
  State (g_once s) (g_min_level s) (g_mutex s) (g_stream s) (output s ++ [(f, bs)]) (threads s).

(** The calls that lock and where they go on. *)
Definition lock_next (p : pc) : option pc :=
  match p with
  | WLock l b ts => Some (WPrefix l b ts)
  | SLock f => Some (SStore f)
  | _ => None
  end.

(** Between locking and unlocking. *)
Definition critical (p : pc) : bool :=
  match p with WPrefix _ _ _ | WBody _ _ _ | WNewline _ _ _ | WFlush | SStore _ | Unlock => true | _ => false end.

(** The chunk a thread is about to print, and what follows. *)
Definition print_next (p : pc) : option (list Z * pc * event) :=
  match p with
  | WPrefix l b ts => Some (log_prefix ts l, WBody l b ts, ETau)
  | WBody l b ts => Some (b, WNewline l b ts, ETau)
  | WNewline l b ts => Some ([10], WFlush, ERecord l ts b)
  | _ => None
  end.

Section steps.
Variable init_rc : Z.       (* what [pthread_mutex_init] returns *)

Inductive step : state -> event -> state -> Prop :=
  | step_call s i o :
      threads s !! i = Some Idle -> step s ETau (goes s i (Enter o))
  | step_load s i o :
      threads s !! i = Some (Enter o) ->
      step s ETau (goes s i (if g_once s =? 2 then Ready o else Cas o))
  | step_cas_win s i o :
      threads s !! i = Some (Cas o) -> g_once s = 0 -> step s ETau (goes (set_once s 1) i (InitMutex o))
  | step_cas_lose s i o :
      threads s !! i = Some (Cas o) -> g_once s <> 0 -> step s ETau (goes s i (Spin o))
  | step_init_mutex s i o :
      threads s !! i = Some (InitMutex o) ->
      step s ETau (goes (set_mutex s (default (g_mutex s) (snd (d4np_mutex_init (Some (g_mutex s)) init_rc))))
                        i (InitStream o))
  | step_init_stream s i o :
      threads s !! i = Some (InitStream o) -> step s ETau (goes (set_stream s (Some stderr)) i (InitLevel o))
  | step_init_level s i o :
      threads s !! i = Some (InitLevel o) ->
      step s ETau (goes (set_level s (level_int D4NP_LOG_INFO)) i (InitDone o))
  | step_init_done s i o :
      threads s !! i = Some (InitDone o) -> step s EInit (goes (set_once s 2) i (Ready o))
  | step_spin s i o :
      threads s !! i = Some (Spin o) ->
      step s ETau (goes s i (if g_once s =? 2 then Ready o else Spin o))
  | step_drop s i l b :
      threads s !! i = Some (Ready (Write l b)) -> level_int l < g_min_level s ->
      step s (EDrop l) (goes s i Idle)
  | step_pass s i l b ts :
      threads s !! i = Some (Ready (Write l b)) -> ~ level_int l < g_min_level s ->
      step s (EPass l) (goes s i (WLock l b ts))
  | step_ready_output s i f :
      threads s !! i = Some (Ready (SetOutput f)) -> step s ETau (goes s i (SLock f))
  | step_set_level s i l :
      threads s !! i = Some (Ready (SetMinLevel l)) ->
      step s (ESetLevel l) (goes (set_level s (level_int l)) i Idle)
  | step_lock s i p q m :
      threads s !! i = Some p -> lock_next p = Some q -> d4np_mutex_lock i (Some (g_mutex s)) = Done m ->
      step s ETau (goes (set_mutex s m) i q)
  | step_print s i p q e f bs :
      threads s !! i = Some p -> print_next p = Some (bs, q, e) -> g_stream s = Some f ->
      step s e (goes (emit s f bs) i q)
  | step_flush s i :
      threads s !! i = Some WFlush -> step s ETau (goes s i Unlock)
  | step_set_output s i f :
      threads s !! i = Some (SStore f) ->
      step s (ESetOutput f) (goes (set_stream s (Some (default stderr f))) i Unlock)
  | step_unlock s i m :
      threads s !! i = Some Unlock -> d4np_mutex_unlock i (Some (g_mutex s)) = Done m ->
      step s ETau (goes (set_mutex s m) i Idle)
  | step_undefined s i p :
      threads s !! i = Some p ->
      (is_Some (lock_next p) /\ d4np_mutex_lock i (Some (g_mutex s)) = Undefined) \/
      (p = Unlock /\ d4np_mutex_unlock i (Some (g_mutex s)) = Undefined) \/
      (is_Some (print_next p) /\ g_stream s = None) ->
      step s EUndefined s.

Inductive run (s : state) : list event -> state -> Prop :=
  | run_nil : run s [] s
  | run_snoc tr s1 e s2 : run s tr s1 -> step s1 e s2 -> run s (tr ++ [e]) s2.

End steps.

(** ** A logger with atomic operations *)

Record record := Record_ { r_stream : nat; r_level : d4np_log_level; r_ts : Z; r_body : list Z }.
Record logger := Logger { l_stream : nat; l_min : Z; l_records : list record }.

(** Nothing happens before the initialisation, and it happens once. *)
Definition atomic (a : option logger) (e : event) : option (option logger) :=
  match e, a with
  | ETau, _ => Some a
  | EInit, None => Some (Some (Logger stderr (level_int D4NP_LOG_INFO) []))
  | EDrop l, Some g => if level_int l <? l_min g then Some a else None
  | EPass l, Some g => if l_min g <=? level_int l then Some a else None
  | ESetLevel l, Some g => Some (Some (Logger (l_stream g) (level_int l) (l_records g)))
  | ESetOutput f, Some g => Some (Some (Logger (default stderr f) (l_min g) (l_records g)))
  | ERecord l ts b, Some g => Some (Some (Logger (l_stream g) (l_min g) (l_records g ++ [Record_ (l_stream g) l ts b])))
  | _, _ => None
  end.

Fixpoint atomics (a : option logger) (tr : list event) : option (option logger) :=
  match tr with
  | [] => Some a
  | e :: tr => a ← atomic a e; atomics a tr
  end.

(** The chunks of a record: a line on one stream. *)
Definition line (r : record) : list (nat * list Z) :=
  [(r_stream r, log_prefix (r_ts r) (r_level r)); (r_stream r, r_body r); (r_stream r, [10])].

Definition lines (a : option logger) : list (nat * list Z) :=
  match a with Some g => l_records g ≫= line | None => [] end.

(** What the thread that holds the lock has written of its line. *)
Definition partial (f : nat) (p : pc) : list (nat * list Z) :=
  match p with
  | WBody l b ts => [(f, log_prefix ts l)]
  | WNewline l b ts => [(f, log_prefix ts l); (f, b)]
  | _ => []
  end.

(** The output is whole lines and the line of the thread that holds the lock. *)
Definition whole_lines (s : state) (a : option logger) : Prop :=
  (forall i p, threads s !! i = Some p -> critical p = true ->
     exists f, g_stream s = Some f /\ output s = lines a ++ partial f p) /\
  ((forall i p, threads s !! i = Some p -> critical p = false) -> output s = lines a).

(** ** The invariant *)

(** Threads that have not found the logger initialised. *)
Definition outside (p : pc) : bool :=
  match p with Idle | Enter _ | Cas _ | Spin _ => true | _ => false end.

Definition initialising (p : pc) : bool :=
  match p with InitMutex _ | InitStream _ | InitLevel _ | InitDone _ => true | _ => false end.

Definition init_reached (s : state) (p : pc) : Prop :=
  match p with
  | InitMutex _ => True
  | InitStream _ => g_mutex s = Mtx None
  | InitLevel _ => g_mutex s = Mtx None /\ g_stream s = Some stderr
  | InitDone _ => g_mutex s = Mtx None /\ g_stream s = Some stderr /\ g_min_level s = 0
  | _ => False
  end.

(** The logger is initialised and is [g]. *)
Record after (s : state) (g : logger) : Prop := {
  a_once : g_once s = 2;
  a_pcs : forall i p, threads s !! i = Some p -> initialising p = false;
  a_stream : g_stream s = Some (l_stream g);
  a_min : g_min_level s = l_min g;
  a_mutex : exclusive critical (g_mutex s) (threads s);
  a_owner : forall i p, threads s !! i = Some p -> critical p = true ->
    output s = lines (Some g) ++ partial (l_stream g) p;
  a_free : (forall i p, threads s !! i = Some p -> critical p = false) -> output s = lines (Some g)
}.

Inductive inv (s : state) : option logger -> Prop :=
  | inv_before :
      g_once s = 0 -> output s = [] -> (forall i p, threads s !! i = Some p -> outside p = true) -> inv s None
  | inv_during i p :
      g_once s = 1 -> output s = [] -> threads s !! i = Some p -> init_reached s p ->
      (forall j q, j <> i -> threads s !! j = Some q -> outside q = true) -> inv s None
  | inv_after g : after s g -> inv s (Some g).

(** A property of every thread but the one that moves. *)
Lemma all_insert {P : pc -> Prop} (l : list pc) i q :
  (forall j p, j <> i -> l !! j = Some p -> P p) -> P q -> forall j p, <[i := q]> l !! j = Some p -> P p.
Proof. intros Hl Hq j p. rewrite list_lookup_insert_Some. intros [(-> & <- & _)|[Hne Hj]]; eauto. Qed.

Section proof.
Variable init_rc : Z.
Hypothesis Hrc : init_rc = 0.

Lemma log_step_before s e s' :
  g_once s = 0 -> output s = [] -> (forall i p, threads s !! i = Some p -> outside p = true) ->
  step init_rc s e s' -> e = ETau /\ inv s' None.
Proof.
  intros H0 Hout Hall Hs.
  assert (forall i q, outside q = true -> inv (goes s i q) None) as Hgo
    by (intros i q Hq; apply inv_before; [done|done|]; simpl; apply all_insert; eauto).
  destruct Hs; try (match goal with H : threads _ !! _ = Some _ |- _ => by (pose proof (Hall _ _ H)) end); auto.
  - rewrite H0. auto.
  - split; [done|]. apply inv_during with i (InitMutex o); simpl; auto.
    + apply list_lookup_insert_eq. by eapply lookup_lt_Some.
    + intros j q Hj. rewrite list_lookup_insert_ne by done. apply Hall.
  - rewrite H0. auto.
  - by pose proof (Hall _ _ H) as Hp; destruct p.
  - by pose proof (Hall _ _ H) as Hp; destruct p.
  - pose proof (Hall _ _ H) as Hp. exfalso. by destruct p, H1 as [[[] _]|[[? _]|[[] _]]].
Qed.

Lemma log_step_during s e s' i p :
  g_once s = 1 -> output s = [] -> threads s !! i = Some p -> init_reached s p ->
  (forall j q, j <> i -> threads s !! j = Some q -> outside q = true) ->
  step init_rc s e s' -> exists a, atomic None e = Some a /\ inv s' a.
Proof.
  intros H1 Hout Hi Hp Hall Hs.
  assert (forall j r, threads s !! j = Some r -> (j = i /\ r = p) \/ (j <> i /\ outside r = true)) as Hcases
    by (intros j r Hj; destruct (decide (j = i)) as [->|]; [left; split; congruence|right; eauto]).
  assert (forall q, <[i := q]> (threads s) !! i = Some q) as Hat
    by (intros q; apply list_lookup_insert_eq; by eapply lookup_lt_Some).
  assert (forall q j r, j <> i -> <[i := q]> (threads s) !! j = Some r -> outside r = true) as Hoth
    by (intros q j r Hj; rewrite list_lookup_insert_ne by done; eauto).
  assert (forall j r, j <> i -> outside r = true -> inv (goes s j r) None) as Hgo.
  { intros j r Hj Hr. apply inv_during with i p; simpl; auto; [by rewrite list_lookup_insert_ne|].
    intros k q Hk. rewrite list_lookup_insert_Some. intros [(-> & <- & _)|[_ Hq]]; eauto. }
  destruct Hs; match goal with H : threads _ !! _ = Some _ |- _ => destruct (Hcases _ _ H) as [[-> <-]|[Hne Ho]] end;
    try done; try (rewrite H1); try (eexists; split; [reflexivity|]; by apply Hgo); try (by destruct p0).
  - congruence.
  - eexists. split; [reflexivity|]. apply inv_during with i (InitStream o); simpl; eauto. by rewrite Hrc.
  - eexists. split; [reflexivity|]. apply inv_during with i (InitLevel o); simpl; eauto.
  - eexists. split; [reflexivity|]. destruct Hp as [Hm Hs]. apply inv_during with i (InitDone o); simpl; eauto.
  - eexists. split; [reflexivity|]. apply inv_after. destruct Hp as (Hm & Hs & Hl).
    assert (forall j q, <[i := Ready o]> (threads s) !! j = Some q -> critical q = false) as Hnc.
    { apply all_insert; [|done]. intros j q Hj Hq. pose proof (Hall j q Hj Hq). by destruct q. }
    split; simpl; auto.
    + apply all_insert; [|done]. intros j q Hj Hq. pose proof (Hall j q Hj Hq). by destruct q.
    + exists None. split; [done|]. split; [|done]. intros j q Hq. rewrite (Hnc j q Hq). done.
    + intros j q Hq Hc. by rewrite (Hnc j q Hq) in Hc.
  - exfalso. by destruct p0, H0 as [[[] _]|[[? _]|[[] _]]].
  - exfalso. by destruct p0, H0 as [[[] _]|[[? _]|[[] _]]].
Qed.

(** A thread outside the lock moves. *)
Lemma after_move s g i p q :
  after s g -> threads s !! i = Some p -> critical p = false -> critical q = false -> initialising q = false ->
  after (goes s i q) g.
Proof.
  intros [H1 H2 H3 H4 H5 H6 H7] Hi Hp Hq Hn. split; simpl; auto.
  - apply all_insert; eauto.
  - apply exclusive_move with p; congruence.
  - intros j r. rewrite list_lookup_insert_Some. intros [(-> & <- & _)|[_ Hr]]; [congruence|eauto].
  - intros Hall. apply H7. intros j r Hr. destruct (decide (j = i)) as [->|]; [congruence|].
    apply (Hall j). by rewrite list_lookup_insert_ne.
Qed.

(** The owner of the lock moves inside its critical section. *)
Lemma after_owner s g s' g' i p q :
  after s g -> threads s !! i = Some p -> critical p = true -> critical q = true ->
  g_once s' = g_once s -> g_mutex s' = g_mutex s -> threads s' = <[i := q]> (threads s) ->
  g_min_level s' = l_min g' -> g_stream s' = Some (l_stream g') ->
  output s' = lines (Some g') ++ partial (l_stream g') q -> after s' g'.
Proof.
  intros [H1 H2 H3 H4 H5 H6 H7] Hi Hp Hq E1 E2 E3 E4 E5 E6.
  assert (exclusive critical (g_mutex s') (threads s')) as Hx
    by (rewrite E2, E3; apply exclusive_move with p; congruence).
  assert (threads s' !! i = Some q) as Hi' by (rewrite E3; apply list_lookup_insert_eq; by eapply lookup_lt_Some).
  split; auto; [congruence| | |].
  - rewrite E3. apply all_insert; [eauto|by destruct q].
  - intros j r Hj Hr. destruct Hx as (o & _ & Ho & _).
    pose proof (proj1 (Ho i q Hi') Hq) as ->. pose proof (proj1 (Ho j r Hj) Hr) as [= ->]. congruence.
  - intros Hall. by rewrite (Hall i q Hi') in Hq.
Qed.

(** The lock is taken when nobody is in a line. *)
Lemma after_lock s g i p q m :
  after s g -> threads s !! i = Some p -> lock_next p = Some q -> d4np_mutex_lock i (Some (g_mutex s)) = Done m ->
  after (goes (set_mutex s m) i q) g.
Proof.
  intros [H1 H2 H3 H4 H5 H6 H7] Hi Hq Hm.
  assert (critical q = true /\ initialising q = false /\ partial (l_stream g) q = []) as (Hc & Hn & Hpart)
    by (destruct p; by simplify_eq/=).
  pose proof (proj1 (lock_done i _ _) Hm) as [Em _].
  assert (forall j r, threads s !! j = Some r -> critical r = false) as Hfree.
  { intros j r Hj. destruct H5 as (o & E & Ho & _). rewrite Em in E. injection E as <-.
    destruct (critical r) eqn:Hr; [|done]. by apply (Ho j r Hj) in Hr. }
  assert (exclusive critical m (<[i := q]> (threads s))) as Hx by (by eapply exclusive_lock).
  split; simpl; auto.
  - apply all_insert; eauto.
  - intros j r. rewrite list_lookup_insert_Some. intros [(-> & <- & _)|[_ Hr]] Hcr.
    + rewrite Hpart, app_nil_r. auto.
    + by rewrite (Hfree j r Hr) in Hcr.
Qed.

Lemma after_unlock s g i m :
  after s g -> threads s !! i = Some Unlock -> d4np_mutex_unlock i (Some (g_mutex s)) = Done m ->
  after (goes (set_mutex s m) i Idle) g.
Proof.
  intros [H1 H2 H3 H4 H5 H6 H7] Hi Hm.
  assert (output s = lines (Some g)) as Hout by (rewrite (H6 i Unlock Hi eq_refl); apply app_nil_r).
  assert (forall j r, j <> i -> threads s !! j = Some r -> critical r = false) as Hfree.
  { intros j r Hj Hr. destruct H5 as (o & _ & Ho & _). destruct (critical r) eqn:Hc; [|done].
    apply (Ho j r Hr) in Hc. pose proof (proj1 (Ho i Unlock Hi) eq_refl). congruence. }
  assert (exclusive critical m (<[i := Idle]> (threads s))) as Hx by (by eapply exclusive_unlock).
  split; simpl; auto.
  - apply all_insert; eauto.
  - intros j r. rewrite list_lookup_insert_Some. intros [(-> & <- & _)|[Hj Hr]] Hcr; [done|].
    by rewrite (Hfree j r (not_eq_sym Hj) Hr) in Hcr.
Qed.

Lemma after_print s g i p q e f bs :
  after s g -> threads s !! i = Some p -> print_next p = Some (bs, q, e) -> g_stream s = Some f ->
  exists g', atomic (Some g) e = Some (Some g') /\ after (goes (emit s f bs) i q) g'.
Proof.
  intros Ha Hi Hq Hf. pose proof (a_stream _ _ Ha) as Hs. rewrite Hf in Hs. injection Hs as ->.
  assert (critical p = true) as Hp by (by destruct p).
  pose proof (a_owner _ _ Ha i p Hi Hp) as Hout. pose proof (a_min _ _ Ha) as Hmin.
  destruct p; simplify_eq/=.
  - exists g. split; [done|]. eapply (after_owner s g _ g i _ _ Ha Hi); simpl; auto; [done|]. by rewrite Hout, app_nil_r.
  - exists g. split; [done|]. eapply (after_owner s g _ g i _ _ Ha Hi); simpl; auto; [done|]. by rewrite Hout, <- app_assoc.
  - eexists. split; [done|]. eapply (after_owner s g _ _ i _ _ Ha Hi); simpl; auto; [done|].
    rewrite Hout, app_nil_r, bind_app. simpl. by rewrite <- app_assoc.
Qed.

Lemma log_step_after s e s' g :
  after s g -> step init_rc s e s' -> exists g', atomic (Some g) e = Some (Some g') /\ after s' g'.
Proof.
  intros Ha Hs. pose proof (a_once _ _ Ha) as H2. pose proof (a_pcs _ _ Ha) as Hn. pose proof (a_min _ _ Ha) as Hmin.
  destruct Hs as [s i o Hi|s i o Hi|s i o Hi H0|s i o Hi H0|s i o Hi|s i o Hi|s i o Hi|s i o Hi|s i o Hi|s i l b Hi Hl
    |s i l b ts Hi Hl|s i f Hi|s i l Hi|s i p q m Hi Hq Hm|s i p q e f bs Hi Hq Hf|s i Hi|s i f Hi|s i m Hi Hm|s i p Hi Hu];
    try (by pose proof (Hn _ _ Hi)); try (exists g; split; [reflexivity|]; by eapply after_move).
  - rewrite H2. exists g. split; [reflexivity|]. by eapply after_move.
  - congruence.
  - rewrite H2. exists g. split; [reflexivity|]. by eapply after_move.
  - exists g. simpl. rewrite (proj2 (Z.ltb_lt _ _)) by lia. split; [done|]. by eapply after_move.
  - exists g. simpl. rewrite (proj2 (Z.leb_le _ _)) by lia. split; [done|]. by eapply after_move.
  - eexists. split; [reflexivity|].
    pose proof (after_move s g i _ Idle Ha Hi eq_refl eq_refl eq_refl) as [X1 X2 X3 X4 X5 X6 X7]. by split.
  - exists g. split; [done|]. by eapply after_lock.
  - by eapply after_print.
  - exists g. split; [done|]. eapply (after_owner s g _ g i _ _ Ha Hi); simpl; auto; [done|apply Ha|].
    rewrite (a_owner _ _ Ha i _ Hi eq_refl). done.
  - eexists. split; [reflexivity|]. eapply (after_owner s g _ _ i _ _ Ha Hi); simpl; auto; [done|].
    rewrite (a_owner _ _ Ha i _ Hi eq_refl). done.
  - exists g. split; [done|]. by eapply after_unlock.
  - exfalso. destruct Hu as [[[q Hq] Hu]|[[-> Hu]|[_ Hu]]].
    + eapply exclusive_lock_defined; [apply Ha|exact Hi| |exact Hu]. by destruct p.
    + rewrite (proj2 (unlock_done i (g_mutex s) (Mtx None))) in Hu; [done|]. apply unlock_done.
      by apply (exclusive_owner critical _ _ _ _ (a_mutex _ _ Ha) Hi).
    + by rewrite (a_stream _ _ Ha) in Hu.
Qed.

Lemma inv_run n tr s : run init_rc (initial n) tr s -> exists a, atomics None tr = Some a /\ inv s a.
Proof.
  assert (forall tr a e, atomics a (tr ++ [e]) = a' ← atomics a tr; atomic a' e) as Hsnoc.
  { clear. induction tr as [|x tr IH]; intros a e; simpl; [by destruct (atomic a e)|].
    destruct (atomic a x); [apply IH|done]. }
  induction 1 as [|tr s1 e s2 _ IH Hs].
  - exists None. split; [done|]. apply inv_before; [done..|]. intros i p Hi.
    by apply lookup_replicate in Hi as [-> _].
  - destruct IH as (a & E & Hinv). rewrite Hsnoc, E. simpl.
    destruct Hinv as [H0 Ho Hall|i p H1 Ho Hi Hp Hall|g Ha].
    + destruct (log_step_before s1 e s2 H0 Ho Hall Hs) as [-> ?]. by exists None.
    + by eapply log_step_during.
    + destruct (log_step_after s1 e s2 g Ha Hs) as (g' & ? & ?). exists (Some g'). split; [done|by apply inv_after].
Qed.

End proof.

(** ** Properties *)

(** C19. Every run of any number of threads on the logger is a run of a logger
    with atomic operations that is initialised exactly once, before anything
    else: no thread locks a mutex that is not initialised, misuses the lock or
    prints to a stream that is not set, a late initialisation never undoes a
    setting, and records below the minimum level are dropped.  The output
    consists of the lines of the records, each whole and on the stream that
    was set, in the order of the records; only the thread that holds the lock
    may have written a part of its line behind them. *)
Theorem log_refines_atomic init_rc n tr s :
  init_rc = 0 -> run init_rc (initial n) tr s -> exists a, atomics None tr = Some a /\ whole_lines s a.
Proof.
  intros Hrc Hr. destruct (inv_run init_rc Hrc n tr s Hr) as (a & E & Hinv). exists a. split; [done|].
  destruct Hinv as [H0 Ho Hall|i p H1 Ho Hi Hp Hall|g Ha].
  - split; [|done]. intros j q Hj Hc. pose proof (Hall j q Hj). by destruct q.
  - split; [|done]. intros j q Hj Hc. destruct (decide (j = i)) as [->|Hne].
    + rewrite Hi in Hj. injection Hj as <-. by destruct p.
    + pose proof (Hall j q Hne Hj). by destruct q.
  - split; [|apply Ha]. intros i p Hi Hc. exists (l_stream g). split; [apply Ha|]. by apply (a_owner _ _ Ha i).
Qed.

(** *** Progress *)

(** Thread [i], inside an operation, has a defined step that takes it further
    (a spin does not). *)
Definition moves_on (init_rc : Z) (s : state) (i : nat) : Prop :=
  exists p e s', threads s !! i = Some p /\ p <> Idle /\ step init_rc s e s' /\ e <> EUndefined /\
    threads s' !! i <> Some p.

Lemma goes_on init_rc s i p e t q :
  threads s !! i = Some p -> p <> Idle -> step init_rc s e (goes t i q) -> e <> EUndefined ->
  threads t = threads s -> q <> p -> moves_on init_rc s i.
Proof.
  intros Hi Hp Hs He Et Hq. exists p, e, (goes t i q). split_and!; auto. simpl.
  rewrite Et, list_lookup_insert_eq by (by eapply lookup_lt_Some). congruence.
Qed.

(** Threads spin only once the initialisation has begun. *)
Lemma spin_begun init_rc n tr s :
  run init_rc (initial n) tr s -> forall i o, threads s !! i = Some (Spin o) -> g_once s <> 0.
Proof.
  induction 1 as [|tr s1 e s2 _ IH Hs]; intros j o.
  { simpl. intros [[=] _]%lookup_replicate. }
  assert (forall i q t, g_once t <> 0 \/ g_once t = g_once s1 /\ (forall o, q <> Spin o) ->
    threads t = threads s1 -> threads (goes t i q) !! j = Some (Spin o) -> g_once (goes t i q) <> 0) as Hmove.
  { intros i q t Ht Et. simpl. rewrite Et, list_lookup_insert_Some.
    intros [(_ & -> & _)|[_ Hj]]; [destruct Ht as [?|[_ ?]]; naive_solver|].
    destruct Ht as [?|[-> _]]; [done|]. by eapply IH. }
  destruct Hs; try (by apply Hmove; auto).
  - apply Hmove; [|done]. right. split; [done|]. by destruct (g_once s =? 2).
  - apply Hmove; [|done]. left. by eapply IH.
  - apply Hmove; [|done]. right. split; [done|]. by destruct p; simplify_eq/=.
  - apply Hmove; [|done]. right. split; [done|]. by destruct p; simplify_eq/=.
  - intros Hj. by eapply IH.
Qed.

(** The thread that holds the lock never waits. *)
Lemma holder_goes_on init_rc s g i p :
  after s g -> threads s !! i = Some p -> critical p = true -> moves_on init_rc s i.
Proof.
  intros Ha Hi Hp. pose proof (a_stream _ _ Ha) as Hst.
  destruct (print_next p) as [[[bs q] e]|] eqn:Hn.
  - eapply (goes_on init_rc s i p e (emit s (l_stream g) bs) q Hi); [by destruct p|by eapply step_print|..];
      by destruct p; simplify_eq/=.
  - pose proof (exclusive_owner critical _ _ _ _ (a_mutex _ _ Ha) Hi Hp) as Hu.
    destruct p; simplify_eq/=.
    + by eapply (goes_on init_rc s i _ _ s Unlock Hi); [|by apply step_flush|..].
    + by eapply (goes_on init_rc s i _ _ (set_stream s _) Unlock Hi); [|by apply step_set_output|..].
    + by eapply (goes_on init_rc s i _ _ (set_mutex s _) Idle Hi); [|by apply step_unlock|..].
Qed.

(** Once the logger is initialised, a thread outside of the lock waits for
    nothing but the lock. *)
Lemma free_goes_on init_rc s g i p :
  after s g -> threads s !! i = Some p -> p <> Idle -> critical p = false ->
  lock_next p = None \/ g_mutex s = Mtx None -> moves_on init_rc s i.
Proof.
  intros Ha Hi Hp Hc Hm. pose proof (a_once _ _ Ha) as H2. pose proof (a_pcs _ _ Ha i p Hi) as Hn.
  destruct (lock_next p) as [q|] eqn:Hq.
  - eapply (goes_on init_rc s i p ETau (set_mutex s (Mtx (Some i))) q Hi Hp); auto; [|by destruct p; simplify_eq/=].
    eapply step_lock; eauto. destruct Hm as [?|Hm]; [done|]. by rewrite Hm.
  - destruct p as [|o|o|o|o|o|o|o|[]|?|?|?|?|?|?|?|?]; try done.
    + eapply (goes_on init_rc s i _ _ s _ Hi Hp); [by apply step_load|done|done|]. by rewrite H2.
    + eapply (goes_on init_rc s i _ _ s _ Hi Hp); [by apply step_cas_lose; [|lia]|done|done|done].
    + eapply (goes_on init_rc s i _ _ s _ Hi Hp); [by apply step_spin|done|done|]. by rewrite H2.
    + destruct (decide (level_int level < g_min_level s)).
      * by eapply (goes_on init_rc s i _ _ s _ Hi Hp); [by eapply step_drop|..].
      * by eapply (goes_on init_rc s i _ _ s _ Hi Hp); [by apply (step_pass _ _ _ _ _ 0 Hi)|..].
    + by eapply (goes_on init_rc s i _ _ s _ Hi Hp); [by apply step_ready_output|..].
    + by eapply (goes_on init_rc s i _ _ (set_level s _) _ Hi Hp); [by apply step_set_level|..].
Qed.

(** The thread that initialises the logger never waits. *)
Lemma initialiser_goes_on init_rc s i p :
  threads s !! i = Some p -> initialising p = true -> moves_on init_rc s i.
Proof.
  intros Hi Hp. destruct p as [| | |o|o|o|o| | | | | | | | | |]; try done.
  - by eapply (goes_on init_rc s i _ _ (set_mutex s _) _ Hi); [|by apply step_init_mutex|..].
  - by eapply (goes_on init_rc s i _ _ (set_stream s _) _ Hi); [|by apply step_init_stream|..].
  - by eapply (goes_on init_rc s i _ _ (set_level s _) _ Hi); [|by apply step_init_level|..].
  - by eapply (goes_on init_rc s i _ _ (set_once s _) _ Hi); [|by apply step_init_done|..].
Qed.

(** Before the logger is initialised, a thread that does not spin goes on. *)
Lemma outside_goes_on init_rc s i p :
  g_once s <> 2 -> threads s !! i = Some p -> p <> Idle -> outside p = true -> (forall o, p <> Spin o) ->
  moves_on init_rc s i.
Proof.
  intros H2 Hi Hp Ho Hn. destruct p as [|o|o| | | | |o| | | | | | | | |]; try done.
  - eapply (goes_on init_rc s i _ _ s _ Hi Hp); [by apply step_load|..]; try done.
    by rewrite (proj2 (Z.eqb_neq _ _) H2).
  - destruct (decide (g_once s = 0)).
    + by eapply (goes_on init_rc s i _ _ (set_once s 1) _ Hi Hp); [by apply step_cas_win|..].
    + by eapply (goes_on init_rc s i _ _ s _ Hi Hp); [by apply step_cas_lose|..].
  - by destruct (Hn o).
Qed.

(** What thread [i] at [p] waits for, if it does not go on itself: it spins
    while thread [j] initialises the logger, or is at a lock call while [j]
    holds the mutex, between its own lock and unlock; and [j] goes on. *)
Definition waits_for (init_rc : Z) (s : state) (p : pc) (j : nat) : Prop :=
  exists q, threads s !! j = Some q /\ moves_on init_rc s j /\
    ((exists o, p = Spin o) /\ initialising q = true \/
     is_Some (lock_next p) /\ g_mutex s = Mtx (Some j) /\ critical q = true).

(** C25. The logger never gets stuck: in every reachable state, a thread
    inside an operation has a step that takes it further, or it spins and
    another thread is initialising the logger and has such a step, or it is at
    a lock call and another thread, the holder of the mutex, has such a step.
    So no thread waits for one that itself waits. *)
Theorem log_progress init_rc n tr s i p :
  init_rc = 0 -> run init_rc (initial n) tr s -> threads s !! i = Some p -> p <> Idle ->
  moves_on init_rc s i \/ exists j, j <> i /\ waits_for init_rc s p j.
Proof.
  intros Hrc Hr Hi Hp. destruct (inv_run init_rc Hrc n tr s Hr) as (a & _ & Hinv).
  destruct Hinv as [H0 _ Hall|j q H1 _ Hj Hq Hall|g Ha].
  - left. apply (outside_goes_on init_rc s i p); eauto; [lia|].
    intros o ->. by destruct (spin_begun _ _ _ _ Hr i o Hi).
  - assert (initialising q = true) as Hini by (by destruct q). destruct (decide (i = j)) as [->|Hne].
    { left. by apply (initialiser_goes_on init_rc s j q). }
    pose proof (Hall i p Hne Hi) as Ho. assert ((exists o, p = Spin o) \/ forall o, p <> Spin o) as [Hsp|Hsp]
      by (destruct p as [| | | | | | |o| | | | | | | | |]; eauto; by right).
    + right. exists j. split; [done|]. exists q. split_and!; [done|by apply (initialiser_goes_on init_rc s j q)|auto].
    + left. apply (outside_goes_on init_rc s i p); auto. lia.
  - destruct (critical p) eqn:Hc; [left; by apply (holder_goes_on init_rc s g i p)|].
    destruct (lock_next p) as [q|] eqn:Hq; [|left; apply (free_goes_on init_rc s g i p); auto].
    destruct (a_mutex _ _ Ha) as ([k|] & Em & Ho & Hl); [|left; apply (free_goes_on init_rc s g i p); auto].
    destruct (Hl k eq_refl) as [r Hk]. assert (critical r = true) as Hcr by (by apply (Ho k r Hk)).
    right. exists k. split; [congruence|]. exists r. split_and!; [done|by apply (holder_goes_on init_rc s g k r)|].
    right. rewrite Hq. eauto.
Qed.

(** ** Witness *)

#[local] Tactic Notation "step_in" hyp(R) uconstr(c) :=
  eapply run_snoc in R; [|eapply c; (reflexivity || done || (simpl; lia))];
  cbn [initial goes set_once set_level set_mutex set_stream emit g_once g_min_level g_mutex g_stream output threads
       insert list_insert app replicate Z.eqb Pos.eqb snd default d4np_mutex_init] in R.

(** A thread initialises the logger and writes one record, while another
    spins. *)
Definition one_line : state :=
  State 2 0 (Mtx (Some 0%nat)) (Some 0%nat) [(0%nat, log_prefix 7 D4NP_LOG_INFO); (0%nat, [104]); (0%nat, [10])]
        [WFlush; Spin (SetMinLevel D4NP_LOG_ERROR)].

Definition one_line_trace : list event :=
  [ETau; ETau; ETau; ETau; ETau; ETau; ETau; ETau; ETau; EInit; EPass D4NP_LOG_INFO; ETau; ETau; ETau;
   ERecord D4NP_LOG_INFO 7 [104]].

Lemma one_line_run : run 0 (initial 2) one_line_trace one_line.
Proof.
  pose proof (run_nil 0 (initial 2)) as R.
  step_in R (step_call 0 _ 0 (Write D4NP_LOG_INFO [104])).
  step_in R (step_load 0 _ 0).
  step_in R (step_cas_win 0 _ 0).
  step_in R (step_call 0 _ 1 (SetMinLevel D4NP_LOG_ERROR)).
  step_in R (step_load 0 _ 1).
  step_in R (step_cas_lose 0 _ 1).
  step_in R (step_init_mutex 0 _ 0).
  step_in R (step_init_stream 0 _ 0).
  step_in R (step_init_level 0 _ 0).
  step_in R (step_init_done 0 _ 0).
  step_in R (step_pass 0 _ 0 D4NP_LOG_INFO [104] 7).
  step_in R (step_lock 0 _ 0).
  step_in R (step_print 0 _ 0).
  step_in R (step_print 0 _ 0).
  step_in R (step_print 0 _ 0).
  exact R.
Qed.

Lemma log_refines_atomic_witness :
  exists a, atomics None one_line_trace = Some a /\ whole_lines one_line a.
Proof. apply (log_refines_atomic 0 2 one_line_trace one_line); [reflexivity|exact one_line_run]. Defined.

(** Two threads: the first initialises the logger, the second spins. *)
Definition spinning : state :=
  State 1 0 Uninit None [] [InitMutex (Write D4NP_LOG_INFO [104]); Spin (SetMinLevel D4NP_LOG_ERROR)].

Lemma spinning_run : run 0 (initial 2) (replicate 6 ETau) spinning.
Proof.
  pose proof (run_nil 0 (initial 2)) as R.
  step_in R (step_call 0 _ 0 (Write D4NP_LOG_INFO [104])).
  step_in R (step_load 0 _ 0).
  step_in R (step_cas_win 0 _ 0).
  step_in R (step_call 0 _ 1 (SetMinLevel D4NP_LOG_ERROR)).
  step_in R (step_load 0 _ 1).
  step_in R (step_cas_lose 0 _ 1).
  exact R.
Qed.

Lemma log_progress_witness :
  (moves_on 0 one_line 0 \/ exists j, j <> 0%nat /\ waits_for 0 one_line WFlush j) /\
  (moves_on 0 spinning 1 \/
   exists j, j <> 1%nat /\ waits_for 0 spinning (Spin (SetMinLevel D4NP_LOG_ERROR)) j).
Proof.
  split.
  - by apply (log_progress 0 2 one_line_trace one_line 0 WFlush eq_refl one_line_run).
  - by apply (log_progress 0 2 (replicate 6 ETau) spinning 1 _ eq_refl spinning_run).
Defined.

(** The status of [d4np_mutex_init] is not looked at: when the platform cannot
    initialise the mutex (here with [ENOMEM]), the first record locks a mutex
    that is not initialised. *)
Theorem log_init_failure_undefined :
  exists tr s, run 12 (initial 1) (tr ++ [EUndefined]) s.
Proof.
  pose proof (run_nil 12 (initial 1)) as R.
  step_in R (step_call 12 _ 0 (Write D4NP_LOG_INFO [104])).
  step_in R (step_load 12 _ 0).
  step_in R (step_cas_win 12 _ 0).
  step_in R (step_init_mutex 12 _ 0).
  step_in R (step_init_stream 12 _ 0).
  step_in R (step_init_level 12 _ 0).
  step_in R (step_init_done 12 _ 0).
  step_in R (step_pass 12 _ 0 D4NP_LOG_INFO [104] 7).
  eexists _, _. eapply run_snoc; [exact R|]. eapply (step_undefined 12 _ 0); [reflexivity|].
  left. split; [by eexists|reflexivity].
Qed.

End Log.
