(* ===== verification/NamedSemaphore.v ===== *)
(** * Named semaphores ([d4np/concurrency/named_semaphore.h], [named_semaphore.c])

    The POSIX branch over the system's named semaphores: a name space shared by
    all processes, objects with a count, and what each process has open.  The
    semaphores are the system's; what is used of them is their documented
    behaviour. *)

From S2P Require Import Prelude Status Mutex.
Import Mutex.

Local Open Scope Z_scope.

Module NamedSemaphore.

Definition SEM_VALUE_MAX : Z := 2 ^ 31 - 1.

(** The names, the counts of the objects, how often a process has an object
    open, and the next object. *)
Record sys := Sys {
  names : gmap (list Z) nat;
  counts : gmap nat Z;
  opens : gmap (nat * nat) nat;
  next : nat
}.

Definition boot : sys := Sys ∅ ∅ ∅ 0.

(** [snprintf(buf, bufsz, "/%s", name)] and the test of its result. *)
Definition d4np_nsem_name (bufsz : Z) (name : list Z) : option (list Z) :=
  let n := 1 + zlen name in
  if (0 <? n) && (n <? bufsz) then Some (47 :: name) else None.

Definition opened (pid i : nat) (s : sys) : gmap (nat * nat) nat :=
  <[(pid, i) := S (default 0%nat (opens s !! (pid, i)))]> (opens s).

(** [sem_open] with [O_CREAT]: open the object of a name or create it; the
    system may refuse. *)
Definition sem_open (fails : bool) (pid : nat) (path : list Z) (count : Z) (s : sys) : option nat * sys :=
  if fails then (None, s)
  else
    match names s !! path with
    | Some i => (Some i, Sys (names s) (counts s) (opened pid i s) (next s))
    | None =>
        (Some (next s),
         Sys (<[path := next s]> (names s)) (<[next s := count]> (counts s)) (opened pid (next s) s) (S (next s)))
    end.

(** An object without a name that no process has open is gone. *)
Definition reclaim (i : nat) (s : sys) : sys :=
  if decide (map_Forall (fun _ j => j <> i) (names s) /\ map_Forall (fun k _ => k.2 <> i) (opens s))
  then Sys (names s) (delete i (counts s)) (opens s) (next s)
  else s.

(** Closing what the process has not open is a use of an invalid pointer. *)
Definition sem_close (pid i : nat) (s : sys) : outcome sys :=
  match opens s !! (pid, i) with
  | Some (S (S n)) => Done (Sys (names s) (counts s) (<[(pid, i) := S n]> (opens s)) (next s))
  | Some _ => Done (reclaim i (Sys (names s) (counts s) (delete (pid, i) (opens s)) (next s)))
  | None => Undefined
  end.

(** Without the name, [ENOENT]: nothing happens. *)
Definition sem_unlink (path : list Z) (s : sys) : sys :=
  match names s !! path with
  | Some i => reclaim i (Sys (delete path (names s)) (counts s) (opens s) (next s))
  | None => s
  end.

(** A [NULL] name is [None]; [handle] says whether the handle is given.  The
    second component is the [sem_t *] stored in it. *)
Definition d4np_named_semaphore_open (fails : bool) (pid : nat) (handle : bool) (name : option (list Z))
    (initial_count : Z) (s : sys) : d4np_status * option nat * sys :=
  match name with
  | None => (D4NP_ERR_INVALID_ARGUMENT, None, s)
  | Some name =>
      if negb handle || bool_decide (name = []) || (SEM_VALUE_MAX <? initial_count)
      then (D4NP_ERR_INVALID_ARGUMENT, None, s)
      else
        match d4np_nsem_name 32 name with
        | None => (D4NP_ERR_INVALID_ARGUMENT, None, s)
        | Some path =>
            match sem_open fails pid path initial_count s with
            | (None, s) => (D4NP_ERR_INTERNAL, None, s)
            | (Some i, s) => (D4NP_OK, Some i, s)
            end
        end
  end.

Definition d4np_named_semaphore_close (pid : nat) (h : option nat) (s : sys) : outcome sys :=
  match h with
  | None => Done s
  | Some i => sem_close pid i s
  end.

(** What [sem_unlink] meets: an error other than [ENOENT], or not. *)
Definition d4np_named_semaphore_unlink (fails : bool) (name : option (list Z)) (s : sys) : d4np_status * sys :=
  match name with
  | None => (D4NP_ERR_INVALID_ARGUMENT, s)
  | Some name =>
      if bool_decide (name = []) then (D4NP_ERR_INVALID_ARGUMENT, s)
      else
        match d4np_nsem_name 32 name with
        | None => (D4NP_ERR_INVALID_ARGUMENT, s)
        | Some path => if fails then (D4NP_ERR_INTERNAL, s) else (D4NP_OK, sem_unlink path s)
        end
  end.

Definition set_count (i : nat) (c : Z) (s : sys) : sys := Sys (names s) (<[i := c]> (counts s)) (opens s) (next s).

(** The count of an object the process has open. *)
Definition usable (pid i : nat) (s : sys) : option Z :=
  match opens s !! (pid, i) with Some _ => counts s !! i | None => None end.

(** The retry loop: the call is interrupted [eintr] times before it is served.
    A [NULL] handle fails the assertion. *)
Fixpoint d4np_named_semaphore_wait (eintr pid : nat) (h : option nat) (s : sys) : outcome sys :=
  match h with
  | None => Undefined
  | Some i =>
      match usable pid i s with
      | None => Undefined
      | Some c =>
          match eintr with
          | S eintr => d4np_named_semaphore_wait eintr pid h s
          | O => if 0 <? c then Done (set_count i (c - 1) s) else Blocks
          end
      end
  end.

Fixpoint d4np_named_semaphore_trywait (eintr pid : nat) (h : option nat) (s : sys) : outcome (bool * sys) :=
  match h with
  | None => Done (false, s)
  | Some i =>
      match usable pid i s with
      | None => Undefined
      | Some c =>
          match eintr with
          | S eintr => d4np_named_semaphore_trywait eintr pid h s
          | O => if 0 <? c then Done (true, set_count i (c - 1) s) else Done (false, s)
          end
      end
  end.

(** [sem_post] refuses a permit beyond the maximum; its result is ignored. *)
Definition d4np_named_semaphore_post (pid : nat) (h : option nat) (s : sys) : outcome sys :=
  match h with
  | None => Undefined
  | Some i =>
      match usable pid i s with
      | None => Undefined
      | Some c => if c <? SEM_VALUE_MAX then Done (set_count i (c + 1) s) else Done s
      end
  end.

(** ** Runs of any processes *)

Inductive event :=
  | ECreated (i : nat) (c : Z)
  | EAcquired (i : nat)
  | EPosted (i : nat)
  | EOther.

Inductive step : sys -> event -> sys -> Prop :=
  | step_open s fails pid name c st o s' :
      0 <= c -> d4np_named_semaphore_open fails pid true name c s = (st, o, s') ->
      step s (if decide (next s' = S (next s)) then ECreated (next s) c else EOther) s'
  | step_close s pid h s' :
      d4np_named_semaphore_close pid h s = Done s' -> step s EOther s'
  | step_unlink s fails name st s' :
      d4np_named_semaphore_unlink fails name s = (st, s') -> step s EOther s'
  | step_wait s eintr pid i s' :
      d4np_named_semaphore_wait eintr pid (Some i) s = Done s' -> step s (EAcquired i) s'
  | step_trywait s eintr pid i b s' :
      d4np_named_semaphore_trywait eintr pid (Some i) s = Done (b, s') ->
      step s (if b : bool then EAcquired i else EOther) s'
  | step_post s pid i s' c :
      usable pid i s = Some c -> d4np_named_semaphore_post pid (Some i) s = Done s' ->
      step s (if c <? SEM_VALUE_MAX then EPosted i else EOther) s'.

Inductive run : list event -> sys -> Prop :=
  | run_nil : run [] boot
  | run_snoc tr s e s' : run tr s -> step s e s' -> run (tr ++ [e]) s'.

(** The permits an event adds to object [i]. *)
Definition permits (i : nat) (e : event) : Z :=
  match e with
  | ECreated j c => if decide (j = i) then c else 0
  | EAcquired j => if decide (j = i) then -1 else 0
  | EPosted j => if decide (j = i) then 1 else 0
  | EOther => 0
  end.

Definition total (i : nat) (tr : list event) : Z := foldr (fun e n => permits i e + n) 0 tr.

Lemma total_snoc i tr e : total i (tr ++ [e]) = total i tr + permits i e.
Proof. unfold total. induction tr as [|x tr IH]; simpl; [lia|]. rewrite IH. lia. Qed.

(** ** The invariant *)

(** Something keeps the object. *)
Definition held (i : nat) (s : sys) : Prop :=
  (exists p, names s !! p = Some i) \/ (exists pid, is_Some (opens s !! (pid, i))).

(** Objects are numbered up to [next], names and open handles are for objects
    that are there, the counts are what the events leave, and an object that
    nothing keeps is gone, [but] for one that is about to go. *)
Record inv (but : option nat) (tr : list event) (s : sys) : Prop := {
  n_counts : forall i c, counts s !! i = Some c -> 0 <= c <= SEM_VALUE_MAX /\ c = total i tr /\ (i < next s)%nat;
  n_fresh : forall i, (next s <= i)%nat -> total i tr = 0;
  n_names : forall p i, names s !! p = Some i -> is_Some (counts s !! i);
  n_inj : forall p q i, names s !! p = Some i -> names s !! q = Some i -> p = q;
  n_opens : forall pid i n, opens s !! (pid, i) = Some n -> (0 < n)%nat /\ is_Some (counts s !! i);
  n_held : forall i c, counts s !! i = Some c -> but <> Some i -> held i s
}.

(** An event that changes the count of one object. *)
Lemma inv_count tr s i c d e :
  inv None tr s -> counts s !! i = Some c -> 0 <= d <= SEM_VALUE_MAX -> d = c + permits i e ->
  (forall j, j <> i -> permits j e = 0) -> inv None (tr ++ [e]) (set_count i d s).
Proof.
  intros [H1 H2 H3 H4 H5 H6] Hi Hd E Hother. destruct (H1 i c Hi) as (_ & Hc & Hlt).
  assert (forall j, is_Some (counts s !! j) -> is_Some (<[i := d]> (counts s) !! j)) as Hlive.
  { intros j Hj. rewrite lookup_insert_is_Some'. auto. }
  split; simpl; auto.
  - intros j x. rewrite lookup_insert_Some, total_snoc. intros [[<- <-]|[Hne Hj]]; [split; [done|]; split; [lia|done]|].
    rewrite Hother by done. destruct (H1 j x Hj) as (? & ? & ?). split; [done|]. split; [lia|done].
  - intros j Hj. rewrite total_snoc, H2, Hother by lia. done.
  - intros p j Hp. eauto.
  - intros pid j n Hn. destruct (H5 _ _ _ Hn). auto.
  - intros j x. rewrite lookup_insert_Some. intros [[<- _]|[_ Hj]] _; by eapply H6.
Qed.

Lemma inv_other but tr s : inv but tr s -> inv but (tr ++ [EOther]) s.
Proof.
  intros [H1 H2 H3 H4 H5 H6]. split; auto.
  - intros i c Hi. rewrite total_snoc. simpl. rewrite Z.add_0_r. auto.
  - intros i Hi. rewrite total_snoc. simpl. rewrite Z.add_0_r. auto.
Qed.

Lemma inv_reclaim i tr s : inv (Some i) tr s -> inv None tr (reclaim i s).
Proof.
  intros [H1 H2 H3 H4 H5 H6]. unfold reclaim. case_decide as Hd.
  - destruct Hd as [Hn Ho]. split; simpl; auto.
    + intros j c [_ Hj]%lookup_delete_Some. auto.
    + intros p j Hp. rewrite lookup_delete_ne; [eauto|]. apply Hn in Hp. done.
    + intros pid j n Hp. rewrite lookup_delete_ne; [eauto|]. apply Ho in Hp. done.
    + intros j c [Hne Hj]%lookup_delete_Some _. apply (H6 j c Hj). congruence.
  - split; auto. intros j c Hj _. destruct (decide (j = i)) as [->|]; [|apply (H6 j c Hj); congruence].
    apply not_and_l in Hd as [Hd|Hd].
    + left. apply map_not_Forall in Hd as (p & j & Hp & E); [|apply _]. apply dec_stable in E as ->. eauto.
    + right. apply map_not_Forall in Hd as ([pid j] & n & Hp & E); [|apply _]. apply dec_stable in E. simpl in E. subst. eauto.
Qed.

(** A process opens an object that is there. *)
Lemma inv_opened tr s pid i :
  inv None tr s -> is_Some (counts s !! i) ->
  inv None tr (Sys (names s) (counts s) (opened pid i s) (next s)).
Proof.
  intros [H1 H2 H3 H4 H5 H6] Hi. split; simpl; auto.
  - intros q j n. unfold opened. rewrite lookup_insert_Some. intros [[[= <- <-] <-]|[_ Hn]]; [split; [lia|done]|eauto].
  - intros j c Hj _. destruct (H6 j c Hj) as [Hn|[q Hq]]; [done|by left|]. right. exists q. simpl. unfold opened.
    rewrite lookup_insert_is_Some'. auto.
Qed.

Lemma inv_create tr s pid path c :
  inv None tr s -> 0 <= c <= SEM_VALUE_MAX -> names s !! path = None ->
  inv None (tr ++ [ECreated (next s) c])
    (Sys (<[path := next s]> (names s)) (<[next s := c]> (counts s)) (opened pid (next s) s) (S (next s))).
Proof.
  intros [H1 H2 H3 H4 H5 H6] Hc Hp.
  assert (forall i, is_Some (counts s !! i) -> i <> next s) as Hne by (intros i [x Hi%H1]; lia).
  assert (forall i, is_Some (counts s !! i) -> is_Some (<[next s := c]> (counts s) !! i)) as Hlive.
  { intros i Hi. rewrite lookup_insert_is_Some'. auto. }
  assert (is_Some (<[next s := c]> (counts s) !! next s)) as Hnew by (rewrite lookup_insert_eq; eauto).
  split; simpl.
  - intros i x. rewrite lookup_insert_Some, total_snoc. simpl. intros [[<- <-]|[Hi Hx]].
    + rewrite H2, decide_True by done. split; [done|]. lia.
    + rewrite decide_False by done. destruct (H1 i x Hx) as (? & ? & ?). split; [done|]. lia.
  - intros i Hi. rewrite total_snoc, H2 by lia. simpl. rewrite decide_False by lia. done.
  - intros p i. rewrite lookup_insert_Some. intros [[<- <-]|[_ Hq]]; eauto.
  - intros p q i. rewrite !lookup_insert_Some. intros [[<- <-]|[_ Hq]] [[<- E]|[_ Hq']]; eauto.
    + by destruct (Hne _ (H3 _ _ Hq')).
    + by destruct (Hne _ (H3 _ _ Hq)).
  - intros q i n. unfold opened. rewrite lookup_insert_Some. intros [[[= <- <-] <-]|[_ Hn]]; [split; [lia|done]|].
    destruct (H5 _ _ _ Hn). auto.
  - intros i x Hx _. destruct (decide (i = next s)) as [->|Hi].
    + left. exists path. simpl. by rewrite lookup_insert_eq.
    + rewrite lookup_insert_ne in Hx by done. destruct (H6 i x Hx) as [[p Hq]|[q Hq]]; [done|left|right].
      * exists p. simpl. rewrite lookup_insert_ne; [done|]. congruence.
      * exists q. simpl. unfold opened. rewrite lookup_insert_is_Some'. auto.
Qed.

(** What [open] does to the system. *)
Lemma open_effect fails pid name c s st o s' :
  d4np_named_semaphore_open fails pid true name c s = (st, o, s') ->
  s' = s \/
  exists path, c <= SEM_VALUE_MAX /\
    ((exists i, names s !! path = Some i /\ s' = Sys (names s) (counts s) (opened pid i s) (next s)) \/
     names s !! path = None /\
     s' = Sys (<[path := next s]> (names s)) (<[next s := c]> (counts s)) (opened pid (next s) s) (S (next s))).
Proof.
  unfold d4np_named_semaphore_open. destruct name as [name|]; [|naive_solver].
  destruct (negb true || bool_decide (name = []) || (SEM_VALUE_MAX <? c)) eqn:Hb; [naive_solver|].
  assert (c <= SEM_VALUE_MAX) as Hmax by (apply orb_false_iff in Hb as [_ Hb]; by apply Z.ltb_ge).
  destruct (d4np_nsem_name 32 name) as [path|]; [|naive_solver]. unfold sem_open.
  destruct fails; [naive_solver|]. intros H. right. exists path. split; [done|].
  destruct (names s !! path) as [i|] eqn:Hp; simplify_eq; naive_solver.
Qed.

Lemma inv_open tr s fails pid name c st o s' :
  inv None tr s -> 0 <= c -> d4np_named_semaphore_open fails pid true name c s = (st, o, s') ->
  inv None (tr ++ [if decide (next s' = S (next s)) then ECreated (next s) c else EOther]) s'.
Proof.
  intros Hinv Hc [->|(path & Hm & [(i & Hp & ->)|[Hp ->]])]%open_effect; cbn [next].
  - rewrite decide_False by lia. by apply inv_other.
  - rewrite decide_False by lia. apply inv_other, inv_opened; [done|]. by eapply n_names.
  - rewrite decide_True by done. by apply inv_create.
Qed.

(** Less is open: the object may have nothing left that keeps it. *)
Lemma inv_closed tr s pid i :
  inv None tr s -> inv (Some i) tr (Sys (names s) (counts s) (delete (pid, i) (opens s)) (next s)).
Proof.
  intros [H1 H2 H3 H4 H5 H6]. split; simpl; auto.
  - intros q j n [_ Hn]%lookup_delete_Some. eauto.
  - intros j c Hj Hne. destruct (H6 j c Hj) as [Hn|[q Hq]]; [done|by left|]. right. exists q. simpl.
    rewrite lookup_delete_ne; [done|]. congruence.
Qed.

Lemma inv_unlinked tr s p i :
  inv None tr s -> names s !! p = Some i -> inv (Some i) tr (Sys (delete p (names s)) (counts s) (opens s) (next s)).
Proof.
  intros [H1 H2 H3 H4 H5 H6] Hp. split; simpl; auto.
  - intros q j [_ Hq]%lookup_delete_Some. eauto.
  - intros q r j [_ Hq]%lookup_delete_Some [_ Hr]%lookup_delete_Some. eauto.
  - intros j c Hj Hne. destruct (H6 j c Hj) as [[q Hq]|Ho]; [done| |by right]. left. exists q. simpl.
    rewrite lookup_delete_ne; [done|]. congruence.
Qed.

Lemma inv_close tr s pid h s' :
  inv None tr s -> d4np_named_semaphore_close pid h s = Done s' -> inv None tr s'.
Proof.
  intros Hinv. destruct h as [i|]; simpl; [|by intros [= <-]]. unfold sem_close.
  destruct (opens s !! (pid, i)) as [n|] eqn:Ho; [|done]. destruct (n_opens _ _ _ Hinv _ _ _ Ho) as [Hn Hi].
  destruct n as [|[|n]]; [lia| |]; intros [= <-]; [by apply inv_reclaim, inv_closed|].
  destruct Hinv as [H1 H2 H3 H4 H5 H6]. split; simpl; auto.
  - intros q j x. rewrite lookup_insert_Some. intros [[[= <- <-] <-]|[_ Hx]]; [split; [lia|done]|eauto].
  - intros j c Hj _. destruct (H6 j c Hj) as [Hx|[q Hq]]; [done|by left|]. right. exists q. simpl.
    rewrite lookup_insert_is_Some'. auto.
Qed.

Lemma inv_unlink tr s fails name st s' :
  inv None tr s -> d4np_named_semaphore_unlink fails name s = (st, s') -> inv None tr s'.
Proof.
  intros Hinv E. assert (s' = s \/ exists p, s' = sem_unlink p s) as [->|[p ->]]; [|done|].
  { unfold d4np_named_semaphore_unlink in E. repeat case_match; simplify_eq; eauto. }
  unfold sem_unlink. destruct (names s !! p) as [i|] eqn:Hp; [|done]. by apply inv_reclaim, inv_unlinked.
Qed.

Lemma usable_Some pid i s c : usable pid i s = Some c <-> is_Some (opens s !! (pid, i)) /\ counts s !! i = Some c.
Proof. unfold usable. destruct (opens s !! (pid, i)); naive_solver. Qed.

Lemma wait_inv eintr pid i s s' :
  d4np_named_semaphore_wait eintr pid (Some i) s = Done s' ->
  exists c, counts s !! i = Some c /\ 0 < c /\ s' = set_count i (c - 1) s.
Proof.
  destruct (usable pid i s) as [c|] eqn:Hi; [|by destruct eintr; simpl; rewrite Hi].
  induction eintr as [|n IH]; simpl; rewrite Hi; [|done]. apply usable_Some in Hi as [_ Hi].
  destruct (Z.ltb_spec 0 c); [|done]. intros [= <-]. eauto.
Qed.

Lemma trywait_inv eintr pid i s b s' :
  d4np_named_semaphore_trywait eintr pid (Some i) s = Done (b, s') ->
  exists c, counts s !! i = Some c /\ b = (0 <? c) /\ s' = if b then set_count i (c - 1) s else s.
Proof.
  destruct (usable pid i s) as [c|] eqn:Hi; [|by destruct eintr; simpl; rewrite Hi].
  induction eintr as [|n IH]; simpl; rewrite Hi; [|done]. apply usable_Some in Hi as [_ Hi].
  destruct (0 <? c) eqn:E; intros [= <- <-]; exists c; by rewrite E.
Qed.

Lemma nsem_step tr s e s' : inv None tr s -> step s e s' -> inv None (tr ++ [e]) s'.
Proof.
  intros Hinv Hs.
  assert (forall i c, counts s !! i = Some c -> 0 < c -> inv None (tr ++ [EAcquired i]) (set_count i (c - 1) s)) as Htake.
  { intros i c Hi Hc. pose proof (n_counts _ _ _ Hinv i c Hi) as (? & _). apply inv_count with c; auto; [lia| |].
    - simpl. rewrite decide_True by done. lia.
    - intros j Hj. simpl. by rewrite decide_False. }
  destruct Hs as [s fails pid name c st o s' Hc E|s pid h s' E|s fails name st s' E|s eintr pid i s' E
    |s eintr pid i b s' E|s pid i s' c Hi E].
  - by eapply inv_open.
  - apply inv_other. by eapply inv_close.
  - apply inv_other. by eapply inv_unlink.
  - apply wait_inv in E as (c & Hi & Hc & ->). auto.
  - apply trywait_inv in E as (c & Hi & -> & ->). destruct (Z.ltb_spec 0 c); [auto|by apply inv_other].
  - unfold d4np_named_semaphore_post in E. rewrite Hi in E. apply usable_Some in Hi as [_ Hi].
    destruct (Z.ltb_spec c SEM_VALUE_MAX); simplify_eq; [|by apply inv_other].
    pose proof (n_counts _ _ _ Hinv i c Hi) as (? & _). apply inv_count with c; auto; [lia| |].
    + simpl. by rewrite decide_True.
    + intros j Hj. simpl. by rewrite decide_False.
Qed.

Lemma nsem_run tr s : run tr s -> inv None tr s.
Proof.
  induction 1 as [|tr s e s' _ IH Hs]; [|by eapply nsem_step].
  by split; intros *; simpl; rewrite ?lookup_empty.
Qed.

(** Opening a name: its object, or a new one. *)
Lemma open_ok pid key c s :
  key <> [] -> zlen key <= 30 -> c <= SEM_VALUE_MAX ->
  d4np_named_semaphore_open false pid true (Some key) c s =
    let '(o, s) := sem_open false pid (47 :: key) c s in (D4NP_OK, o, s).
Proof.
  intros Hne Hlen Hc. unfold d4np_named_semaphore_open. rewrite bool_decide_eq_false_2 by done.
  rewrite (proj2 (Z.ltb_ge _ _)) by lia. cbn [negb orb]. unfold d4np_nsem_name. pose proof (zlen_nonneg key).
  rewrite (proj2 (Z.ltb_lt 0 _)), (proj2 (Z.ltb_lt _ 32)) by lia. cbn [andb]. unfold sem_open.
  by destruct (names s !! _).
Qed.

(** Unlinking takes the name, and nothing from those who have it open. *)
Lemma unlink_ok key s :
  key <> [] -> zlen key <= 30 -> d4np_named_semaphore_unlink false (Some key) s = (D4NP_OK, sem_unlink (47 :: key) s).
Proof.
  intros Hne Hlen. unfold d4np_named_semaphore_unlink. rewrite bool_decide_eq_false_2 by done.
  unfold d4np_nsem_name. pose proof (zlen_nonneg key). by rewrite (proj2 (Z.ltb_lt 0 _)), (proj2 (Z.ltb_lt _ 32)) by lia.
Qed.

Lemma reclaim_spec i s :
  names (reclaim i s) = names s /\ opens (reclaim i s) = opens s /\ next (reclaim i s) = next s /\
  forall j, held j s -> counts (reclaim i s) !! j = counts s !! j.
Proof.
  unfold reclaim. case_decide as Hd; simpl; [|done]. destruct Hd as [Hn Ho]. split_and!; [done..|].
  intros j Hj. rewrite lookup_delete_ne; [done|]. intros <-. destruct Hj as [[p Hp]|[q [n Hq]]].
  - by apply (Hn _ _ Hp).
  - by apply (Ho _ _ Hq).
Qed.

Lemma sem_unlink_spec p s :
  names (sem_unlink p s) !! p = None /\ opens (sem_unlink p s) = opens s /\ next (sem_unlink p s) = next s /\
  forall q j, is_Some (opens s !! (q, j)) -> counts (sem_unlink p s) !! j = counts s !! j.
Proof.
  unfold sem_unlink. destruct (names s !! p) as [i|] eqn:Hp; [|done].
  set (s1 := Sys _ _ _ _). destruct (reclaim_spec i s1) as (-> & -> & -> & H). simpl.
  rewrite lookup_delete_eq. split_and!; [done..|]. intros q j Hq. apply (H j). right. eauto.
Qed.

(** An object goes exactly when nothing keeps it. *)
Lemma reclaim_held i s : held i s -> reclaim i s = s.
Proof.
  unfold reclaim. case_decide as Hd; [|done]. destruct Hd as [Hn Ho]. intros [[p Hp]|[q [n Hq]]].
  - by destruct (Hn _ _ Hp).
  - by destruct (Ho _ _ Hq).
Qed.

Lemma reclaim_free i s : ~ held i s -> reclaim i s = Sys (names s) (delete i (counts s)) (opens s) (next s).
Proof.
  intros Hf. unfold reclaim. rewrite decide_True; [done|]. split.
  - intros p j Hp ->. destruct Hf. left. eauto.
  - intros [q j] n Hq E. simpl in E. subst. destruct Hf. right. exists q. eauto.
Qed.

(** One opening less: [None] for the last one. *)
Definition one_less (n : nat) : option nat := match n with S (S n) => Some (S n) | _ => None end.

(** The effect of a close by a process that has the object open. *)
Lemma nsem_close_effect pid i n s :
  opens s !! (pid, i) = Some n -> (0 < n)%nat ->
  exists s', d4np_named_semaphore_close pid (Some i) s = Done s' /\ names s' = names s /\ next s' = next s /\
    opens s' = partial_alter (fun _ => one_less n) (pid, i) (opens s) /\
    (held i s' -> counts s' = counts s) /\ (~ held i s' -> counts s' = delete i (counts s)).
Proof.
  intros Ho Hn. simpl. unfold sem_close. rewrite Ho. destruct n as [|[|n]]; [lia| |].
  - set (s1 := Sys _ _ _ _). eexists. split; [done|].
    assert (held i (reclaim i s1) <-> held i s1) as Hiff.
    { unfold held. by destruct (reclaim_spec i s1) as (-> & -> & _). }
    destruct (reclaim_spec i s1) as (En & Eo & Ex & _). rewrite Hiff.
    split_and!; [done|done|done|intros H; by rewrite reclaim_held|intros H; by rewrite reclaim_free].
  - eexists. split; [done|]. simpl. split_and!; [done|done|done|done|]. intros Hf. destruct Hf. right. exists pid.
    simpl. by rewrite lookup_insert_eq.
Qed.

(** Nothing refers to the next object. *)
Lemma next_unused tr s :
  inv None tr s -> counts s !! next s = None /\ (forall p, names s !! p <> Some (next s)) /\
    forall pid, opens s !! (pid, next s) = None.
Proof.
  intros Hinv. assert (counts s !! next s = None) as Hc.
  { destruct (counts s !! next s) as [c|] eqn:E; [|done]. apply (n_counts _ _ _ Hinv) in E. lia. }
  split_and!; [done| |].
  - intros p Hp. apply (n_names _ _ _ Hinv) in Hp as [c ?]. congruence.
  - intros pid. destruct (opens s !! _) as [n|] eqn:E; [|done]. apply (n_opens _ _ _ Hinv) in E as [_ [c ?]]. congruence.
Qed.

(** The life of an object that one process opens under a new name: unlinked
    and closed, in either order, it leaves nothing. *)
Lemma life_cycle tr s pid path c s1 :
  inv None tr s -> names s !! path = None -> sem_open false pid path c s = (Some (next s), s1) ->
  (exists s2, sem_close pid (next s) (sem_unlink path s1) = Done s2 /\
     names s2 = names s /\ counts s2 = counts s /\ opens s2 = opens s) /\
  (exists s2, sem_close pid (next s) s1 = Done s2 /\
     names (sem_unlink path s2) = names s /\ counts (sem_unlink path s2) = counts s /\
     opens (sem_unlink path s2) = opens s).
Proof.
  intros Hinv Hp. destruct (next_unused tr s Hinv) as (Hc & Hn & Ho). unfold sem_open, opened. rewrite Hp, Ho.
  intros [= <-]. simpl. assert (~ held (next s) s) as Hfree.
  { intros [[p H]|[q [n H]]]; [by destruct (Hn p)|]. by rewrite Ho in H. }
  assert (forall m, ~ held (next s) (Sys (names s) m (opens s) (S (next s)))) as Hfree' by done. split.
  - unfold sem_unlink. simpl. rewrite lookup_insert_eq, delete_insert_id by done.
    rewrite reclaim_held by (right; exists pid; simpl; rewrite lookup_insert_eq; eauto).
    unfold sem_close. simpl. rewrite lookup_insert_eq. eexists. split; [done|].
    rewrite delete_insert_id, reclaim_free by done. simpl. by rewrite delete_insert_id.
  - unfold sem_close. simpl. rewrite lookup_insert_eq. eexists. split; [done|].
    rewrite reclaim_held by (left; exists path; simpl; by rewrite lookup_insert_eq).
    unfold sem_unlink. simpl. rewrite lookup_insert_eq, !delete_insert_id by done.
    rewrite reclaim_free by done. simpl. by rewrite delete_insert_id.
Qed.

(** ** Properties *)

(** C26. Permits are conserved across processes: in every run of opens, closes,
    waits, interrupted or not, posts and unlinks, the count of each semaphore is
    what it was created with plus the posts that took effect minus the permits
    acquired, between 0 and the system's maximum; a name belongs to one
    semaphore, two names never to the same, and opening a name that exists
    returns its semaphore and leaves its count, whatever count is asked for. *)
Theorem nsem_conserves tr s :
  run tr s ->
  (forall i c, counts s !! i = Some c -> c = total i tr /\ 0 <= c <= SEM_VALUE_MAX) /\
  (forall p q i, names s !! p = Some i -> names s !! q = Some i -> p = q) /\
  (forall pid key i c, names s !! (47 :: key) = Some i -> key <> [] -> zlen key <= 30 -> c <= SEM_VALUE_MAX ->
    exists s', d4np_named_semaphore_open false pid true (Some key) c s = (D4NP_OK, Some i, s') /\
      counts s' = counts s /\ names s' = names s).
Proof.
  intros Hr. destruct (nsem_run tr s Hr) as [H1 H2 H3 H4 _ _].
  split; [intros i c Hi; by destruct (H1 i c Hi) as (? & ? & _)|].
  split; [done|]. intros pid key i c Hk Hne Hlen Hc. rewrite open_ok by done. unfold sem_open. rewrite Hk. eauto.
Qed.

(** C27. The lifetime of named semaphores: in every run, a process that has a
    semaphore open can wait for it, try it and post it without undefined
    behaviour, whoever unlinked its name; a close takes one opening of that
    process away and nothing else, except that the semaphore goes with the
    last thing that keeps it; a semaphore exists exactly as long as its name
    or a process that has it open does.  A semaphore opened under a new name
    and then unlinked and closed, in either order, leaves the names, the
    semaphores and the openings of the system exactly as they were: nothing
    leaks.  When a name has been unlinked, opening it again creates a new
    semaphore with the count asked for, and leaves the old one to those who
    still have it open. *)
Theorem nsem_lifetime tr s :
  run tr s ->
  (forall pid i n, opens s !! (pid, i) = Some n ->
    (forall eintr, d4np_named_semaphore_wait eintr pid (Some i) s <> Undefined) /\
    (forall eintr, d4np_named_semaphore_trywait eintr pid (Some i) s <> Undefined) /\
    d4np_named_semaphore_post pid (Some i) s <> Undefined /\
    exists s', d4np_named_semaphore_close pid (Some i) s = Done s' /\ names s' = names s /\
      opens s' = partial_alter (fun _ => one_less n) (pid, i) (opens s) /\
      (held i s' -> counts s' = counts s) /\ (~ held i s' -> counts s' = delete i (counts s))) /\
  (forall i, is_Some (counts s !! i) <-> held i s) /\
  (forall pid key c, key <> [] -> zlen key <= 30 -> c <= SEM_VALUE_MAX -> names s !! (47 :: key) = None ->
    exists i s1, d4np_named_semaphore_open false pid true (Some key) c s = (D4NP_OK, Some i, s1) /\
      (exists s2, d4np_named_semaphore_close pid (Some i) (d4np_named_semaphore_unlink false (Some key) s1).2 = Done s2 /\
         names s2 = names s /\ counts s2 = counts s /\ opens s2 = opens s) /\
      (exists s2, d4np_named_semaphore_close pid (Some i) s1 = Done s2 /\
         let s3 := (d4np_named_semaphore_unlink false (Some key) s2).2 in
         names s3 = names s /\ counts s3 = counts s /\ opens s3 = opens s)) /\
  (forall pid key c, key <> [] -> zlen key <= 30 -> c <= SEM_VALUE_MAX ->
    exists i s', d4np_named_semaphore_open false pid true (Some key) c (d4np_named_semaphore_unlink false (Some key) s).2 =
      (D4NP_OK, Some i, s') /\ counts s !! i = None /\ counts s' !! i = Some c /\
      (forall q j n, opens s !! (q, j) = Some n -> opens s' !! (q, j) = Some n /\ counts s' !! j = counts s !! j)).
Proof.
  intros Hr. pose proof (nsem_run tr s Hr) as Hinv. split_and!.
  - intros pid i n Ho. destruct (n_opens _ _ _ Hinv _ _ _ Ho) as [Hn [c Hc]].
    assert (usable pid i s = Some c) as Hu by (apply usable_Some; rewrite Ho; eauto). split_and!.
    + intros eintr. induction eintr; simpl; rewrite Hu; [by case_match|done].
    + intros eintr. induction eintr; simpl; rewrite Hu; [by case_match|done].
    + simpl. rewrite Hu. by case_match.
    + destruct (nsem_close_effect pid i n s Ho Hn) as (s' & E & ? & _ & ? & ? & ?). exists s'. split_and!; auto.
  - intros i. split; [intros [c Hc]; by eapply n_held|]. intros [[p Hp]|[q [n Hq]]]; [by eapply n_names|by eapply n_opens].
  - intros pid key c Hne Hlen Hc Hp. rewrite open_ok by done.
    destruct (sem_open false pid (47 :: key) c s) as [o s1] eqn:E.
    assert (o = Some (next s)) as -> by (unfold sem_open in E; rewrite Hp in E; congruence).
    destruct (life_cycle _ _ _ _ _ _ Hinv Hp E) as [H1 (s2 & H2 & H3)].
    exists (next s), s1. split; [done|]. split; [by rewrite unlink_ok|].
    exists s2. split; [exact H2|]. by rewrite unlink_ok.
  - intros pid key c Hne Hlen Hc. rewrite unlink_ok, open_ok by done. simpl.
    destruct (sem_unlink_spec (47 :: key) s) as (Hn & Ho & Hx & Hj). unfold sem_open. rewrite Hn, Hx.
    exists (next s). eexists. split; [done|]. simpl. rewrite lookup_insert_eq.
    split_and!; [by apply (next_unused tr s Hinv)|done|].
    intros q j n Hq. destruct (n_opens _ _ _ Hinv _ _ _ Hq) as [_ [x Hc']].
    pose proof (n_counts _ _ _ Hinv _ _ Hc') as (_ & _ & ?). unfold opened. rewrite Ho.
    rewrite !lookup_insert_ne by (intros ?; simplify_eq; lia). split; [done|]. by eapply Hj.
Qed.

(** ** Witnesses *)

(** Process 0 creates the semaphore [k], process 1 opens and acquires it,
    process 0 posts and closes it, and the name is unlinked. *)
Definition k_trace : list event := [ECreated 0 1; EOther; EAcquired 0; EPosted 0; EOther; EOther].

Definition k_sys : sys := Sys ∅ {[ 0%nat := 1 ]} {[ (1%nat, 0%nat) := 1%nat ]} 1.

Lemma k_run : run k_trace k_sys.
Proof.
  pose (n := {[ [47; 107] := 0%nat ]} : gmap (list Z) nat). pose (o1 := {[ (1, 0)%nat := 1%nat ]} : gmap (nat * nat) nat).
  pose (o := <[(0, 0)%nat := 1%nat]> o1).
  refine (run_snoc [_; _; _; _; _] (Sys n {[ 0%nat := 1 ]} o1 1) _ _ _ (step_unlink _ false (Some [107]) _ _ eq_refl)).
  refine (run_snoc [_; _; _; _] (Sys n {[ 0%nat := 1 ]} o 1) _ _ _ (step_close _ 0 (Some 0%nat) _ _)); [|by vm_compute].
  refine (run_snoc [_; _; _] (Sys n {[ 0%nat := 0 ]} o 1) _ _ _ (step_post _ 0 0 _ 0 _ _)); [|by vm_compute..].
  refine (run_snoc [_; _] (Sys n {[ 0%nat := 1 ]} o 1) _ _ _ (step_wait _ 2 1 0 _ _)); [|by vm_compute].
  refine (run_snoc [_] (Sys n {[ 0%nat := 1 ]} {[ (0, 0)%nat := 1%nat ]} 1) _ _ _ (step_open _ false 1 (Some [107]) 5 D4NP_OK (Some 0%nat) (Sys n {[ 0%nat := 1 ]} o 1) _ _)); [|lia|by vm_compute].
  refine (run_snoc [] boot _ _ _ (step_open _ false 0 (Some [107]) 1 D4NP_OK (Some 0%nat) (Sys n {[ 0%nat := 1 ]} {[ (0, 0)%nat := 1%nat ]} 1) _ _)); [|lia|by vm_compute].
  constructor.
Qed.

Lemma nsem_conserves_witness : counts k_sys !! 0%nat = Some 1 /\ 1 = total 0 k_trace /\ 0 <= 1 <= SEM_VALUE_MAX.
Proof. split; [done|]. apply (nsem_conserves k_trace k_sys k_run). done. Defined.

Lemma nsem_lifetime_witness :
  opens k_sys !! (1, 0)%nat = Some 1%nat /\
  (exists s', d4np_named_semaphore_close 1 (Some 0%nat) k_sys = Done s' /\ names s' = ∅ /\ opens s' = ∅) /\
  (exists i s1, d4np_named_semaphore_open false 4 true (Some [107]) 3 k_sys = (D4NP_OK, Some i, s1) /\
     exists s2, d4np_named_semaphore_close 4 (Some i) (d4np_named_semaphore_unlink false (Some [107]) s1).2 = Done s2 /\
       counts s2 = counts k_sys).
Proof.
  split; [done|]. destruct (nsem_lifetime k_trace k_sys k_run) as (H & _ & L & _). split.
  - destruct (H 1%nat 0%nat 1%nat eq_refl) as (_ & _ & _ & s' & E & En & Eo & _). exists s'. split_and!; [exact E|exact En|].
    rewrite Eo. by vm_compute.
  - destruct (L 4%nat [107] 3) as (i & s1 & E & (s2 & E2 & _ & Ec & _) & _); [done|by vm_compute|by vm_compute|done|].
    exists i, s1. split; [exact E|]. exists s2. split; [exact E2|exact Ec].
Defined.

End NamedSemaphore.
