(* ===== verification/NamedSemaphoreWin32.v ===== *)
(** * Named semaphores on Windows ([d4np/concurrency/named_semaphore.c], Windows branch)

    The handles of all processes to named kernel objects.  The permits are
    accounted as those of the POSIX branch; what differs is the lifetime: the
    object and its name go with the last handle, and there is nothing to
    unlink. *)

From S2P Require Import Prelude Status Mutex Win32 NamedSemaphore.
Import Mutex Win32.

Local Open Scope Z_scope.

Module NamedSemaphoreWin32.

(** The handle in the opaque storage. *)
Record d4np_named_semaphore := NSem { opaque : nat }.

(** A [NULL] name is [None]; [handle] says whether the handle is given. *)
Definition d4np_named_semaphore_open (fails handle : bool) (name : option (list Z)) (initial_count : Z) (k : kernel)
  : d4np_status * option d4np_named_semaphore * kernel :=
  match name with
  | None => (D4NP_ERR_INVALID_ARGUMENT, None, k)
  | Some name =>
      if negb handle || bool_decide (name = []) || (LONG_MAX <? initial_count)
      then (D4NP_ERR_INVALID_ARGUMENT, None, k)
      else
        match CreateSemaphore fails initial_count (Some name) k with
        | (None, k) => (D4NP_ERR_INTERNAL, None, k)
        | (Some h, k) => (D4NP_OK, Some (NSem h), k)
        end
  end.

Definition d4np_named_semaphore_close (s : option d4np_named_semaphore) (k : kernel) : outcome kernel :=
  match s with
  | None => Done k
  | Some s => CloseHandle (opaque s) k
  end.

Definition d4np_named_semaphore_unlink (name : option (list Z)) : d4np_status :=
  match name with
  | None => D4NP_ERR_INVALID_ARGUMENT
  | Some name => if bool_decide (name = []) then D4NP_ERR_INVALID_ARGUMENT else D4NP_OK
  end.

(** The assertion stops the program; the result of the call is not used. *)
Definition d4np_named_semaphore_wait (s : option d4np_named_semaphore) (k : kernel) : outcome kernel :=
  match s with
  | None => Undefined
  | Some s =>
      match WaitForSingleObject (opaque s) INFINITE k with
      | Done (_, k) => Done k
      | Blocks => Blocks
      | Undefined => Undefined
      end
  end.

Definition d4np_named_semaphore_trywait (s : option d4np_named_semaphore) (k : kernel) : outcome (bool * kernel) :=
  match s with
  | None => Done (false, k)
  | Some s =>
      match WaitForSingleObject (opaque s) 0 k with
      | Done (rc, k) => Done (rc =? WAIT_OBJECT_0, k)
      | Blocks => Blocks
      | Undefined => Undefined
      end
  end.

Definition d4np_named_semaphore_post (s : option d4np_named_semaphore) (k : kernel) : outcome kernel :=
  match s with
  | None => Undefined
  | Some s =>
      match ReleaseSemaphore (opaque s) 1 k with
      | Done (_, k) => Done k
      | Blocks => Blocks
      | Undefined => Undefined
      end
  end.

(** ** Runs of any processes

    The events are those of the POSIX branch, about the objects. *)

Notation event := NamedSemaphore.event.
Notation total := NamedSemaphore.total.
Notation permits := NamedSemaphore.permits.

Inductive step : kernel -> event -> kernel -> Prop :=
  | step_open k fails name c st o k' :
      0 <= c -> d4np_named_semaphore_open fails true name c k = (st, o, k') ->
      step k (if decide (is_Some (objects k' !! next k)) then NamedSemaphore.ECreated (next k) c
              else NamedSemaphore.EOther) k'
  | step_close k s k' :
      d4np_named_semaphore_close s k = Done k' -> step k NamedSemaphore.EOther k'
  | step_wait k h o k' :
      handles k !! h = Some o -> d4np_named_semaphore_wait (Some (NSem h)) k = Done k' ->
      step k (NamedSemaphore.EAcquired o) k'
  | step_trywait k h o b k' :
      handles k !! h = Some o -> d4np_named_semaphore_trywait (Some (NSem h)) k = Done (b, k') ->
      step k (if b : bool then NamedSemaphore.EAcquired o else NamedSemaphore.EOther) k'
  | step_post k h o c k' :
      handles k !! h = Some o -> objects k !! o = Some c -> d4np_named_semaphore_post (Some (NSem h)) k = Done k' ->
      step k (if c <? LONG_MAX then NamedSemaphore.EPosted o else NamedSemaphore.EOther) k'.

Inductive run : list event -> kernel -> Prop :=
  | run_nil : run [] boot
  | run_snoc tr k e k' : run tr k -> step k e k' -> run (tr ++ [e]) k'.

(** ** The invariant *)

Record inv (tr : list event) (k : kernel) : Prop := {
  w_kernel : kernel_ok k;
  w_counts : forall o c, objects k !! o = Some c -> c = total o tr;
  w_fresh : forall o, (next k <= o)%nat -> total o tr = 0
}.

(** An event of no object; objects may have gone. *)
Lemma win_inv_other tr k k' :
  inv tr k -> kernel_ok k' -> (next k <= next k')%nat ->
  (forall o c, objects k' !! o = Some c -> objects k !! o = Some c) -> inv (tr ++ [NamedSemaphore.EOther]) k'.
Proof.
  intros [_ H1 H2] Hk Hn Ho. split; [done| |].
  - intros o c Hc. rewrite NamedSemaphore.total_snoc. simpl. rewrite Z.add_0_r. auto.
  - intros o Hx. rewrite NamedSemaphore.total_snoc. simpl. rewrite Z.add_0_r. apply H2. lia.
Qed.

(** An event that changes the count of one object. *)
Lemma win_inv_count tr k o c d e :
  inv tr k -> kernel_ok (set_count o d k) -> objects k !! o = Some c -> d = c + permits o e ->
  (forall j, j <> o -> permits j e = 0) -> inv (tr ++ [e]) (set_count o d k).
Proof.
  intros [Hk H1 H2] Hk' Ho E Hother. pose proof (k_object_fresh _ Hk _ _ Ho). split; simpl; [done| |].
  - intros j x. rewrite lookup_insert_Some, NamedSemaphore.total_snoc. intros [[<- <-]|[Hne Hj]].
    + rewrite <- (H1 _ _ Ho). done.
    + rewrite Hother by done. rewrite <- (H1 _ _ Hj). lia.
  - intros j Hj. rewrite NamedSemaphore.total_snoc, H2, Hother by lia. done.
Qed.

Lemma win_inv_open tr k fails name c st o k' :
  inv tr k -> 0 <= c -> d4np_named_semaphore_open fails true name c k = (st, o, k') ->
  inv (tr ++ [if decide (is_Some (objects k' !! next k)) then NamedSemaphore.ECreated (next k) c
              else NamedSemaphore.EOther]) k'.
Proof.
  intros Hinv Hc. pose proof (w_kernel _ _ Hinv) as Hk.
  assert (~ is_Some (objects k !! next k)) as Hnew by (intros [x Hx%(k_object_fresh _ Hk)]; lia).
  assert (forall k', kernel_ok k' -> objects k' = objects k -> (next k <= next k')%nat ->
    inv (tr ++ [if decide (is_Some (objects k' !! next k)) then NamedSemaphore.ECreated (next k) c
                else NamedSemaphore.EOther]) k') as Hsame.
  { intros k1 Hk1 E Hn. rewrite E, decide_False by done. eapply win_inv_other; eauto. by rewrite E. }
  unfold d4np_named_semaphore_open. destruct name as [p|]; [|intros [= <- <- <-]; by apply Hsame].
  destruct (negb true || bool_decide (p = []) || (LONG_MAX <? c)) eqn:Hb; [intros [= <- <- <-]; by apply Hsame|].
  assert (c <= LONG_MAX) as Hmax by (apply orb_false_iff in Hb as [_ Hb]; by apply Z.ltb_ge).
  pose proof (CreateSemaphore_ok fails c (Some p) k Hk (conj Hc Hmax)) as Hk'. revert Hk'.
  unfold CreateSemaphore. destruct fails; [intros _ [= <- <- <-]; by apply Hsame|]. simpl.
  destruct (names k !! p) as [j|] eqn:Hp; intros Hk' [= <- <- <-]; [apply Hsame; simpl; [done..|lia]|].
  simpl. rewrite lookup_insert_eq, decide_True by eauto. destruct Hinv as [_ H1 H2]. split; simpl; [done| |].
  - intros j x. rewrite lookup_insert_Some, NamedSemaphore.total_snoc. simpl. intros [[<- <-]|[Hne Hj]].
    + rewrite H2, decide_True by done. lia.
    + rewrite decide_False by done. rewrite <- (H1 _ _ Hj). lia.
  - intros j Hj. rewrite NamedSemaphore.total_snoc, H2 by lia. simpl. by rewrite decide_False by lia.
Qed.

Lemma close_effect h k k' :
  CloseHandle h k = Done k' ->
  next k' = next k /\ handles k' = delete h (handles k) /\ forall o c, objects k' !! o = Some c -> objects k !! o = Some c.
Proof.
  unfold CloseHandle. destruct (handles k !! h) as [o|]; [|done]. case_decide; intros [= <-]; simpl; [|done].
  split_and!; [done..|]. by intros j c [_ ?]%lookup_delete_Some.
Qed.

Lemma win_inv_wait tr k h o t rc k' :
  inv tr k -> handles k !! h = Some o -> WaitForSingleObject h t k = Done (rc, k') ->
  inv (tr ++ [if rc =? WAIT_OBJECT_0 then NamedSemaphore.EAcquired o else NamedSemaphore.EOther]) k'.
Proof.
  intros Hinv Hh E. pose proof (Wait_ok _ _ _ _ _ (w_kernel _ _ Hinv) E) as Hk'.
  apply Wait_done in E as (o' & c & Hh' & Ho & [(Hc & -> & ->)|(_ & _ & -> & ->)]); simplify_eq; simpl.
  - apply win_inv_count with c; auto.
    + simpl. rewrite decide_True by done. lia.
    + intros j Hj. simpl. by rewrite decide_False.
  - by eapply win_inv_other.
Qed.

Lemma nsem_win_step tr k e k' : inv tr k -> step k e k' -> inv (tr ++ [e]) k'.
Proof.
  intros Hinv Hs.
  destruct Hs as [k fails name c st o k' Hc E|k s k' E|k h o k' Hh E|k h o b k' Hh E|k h o c k' Hh Ho E].
  - by eapply win_inv_open.
  - destruct s as [s|]; simpl in E; [|simplify_eq; by apply win_inv_other with k'; try apply Hinv].
    pose proof (CloseHandle_ok _ _ _ (w_kernel _ _ Hinv) E). apply close_effect in E as (En & _ & ?).
    apply win_inv_other with k; auto. lia.
  - simpl in E. destruct (WaitForSingleObject h INFINITE k) as [[rc k1]| |] eqn:E1; simplify_eq.
    pose proof E1 as (o' & c & _ & _ & [(_ & -> & _)|(_ & [=] & _)])%Wait_done.
    by apply (win_inv_wait _ _ _ _ _ _ _ Hinv Hh) in E1.
  - simpl in E. destruct (WaitForSingleObject h 0 k) as [[rc k1]| |] eqn:E1; simplify_eq.
    by apply (win_inv_wait _ _ _ _ _ _ _ Hinv Hh) in E1.
  - simpl in E. destruct (ReleaseSemaphore h 1 k) as [[b k1]| |] eqn:E1; simplify_eq.
    pose proof (Release_ok _ _ _ _ (w_kernel _ _ Hinv) E1) as Hk'.
    apply Release_done in E1 as (o' & c' & Hh' & Ho' & [(Hc & _ & ->)|(Hc & _ & ->)]); simplify_eq.
    + rewrite (proj2 (Z.ltb_lt _ _)) by done. apply win_inv_count with c; auto.
      * simpl. by rewrite decide_True.
      * intros j Hj. simpl. by rewrite decide_False.
    + rewrite (proj2 (Z.ltb_ge _ _)) by done. by eapply win_inv_other.
Qed.

Lemma nsem_win_run tr k : run tr k -> inv tr k.
Proof.
  induction 1 as [|tr k e k' _ IH Hs]; [|by eapply nsem_win_step]. by split; [exact boot_ok|intros *; simpl..].
Qed.

(** Opening a name: a handle to its object, or to a new one. *)
Lemma win_open_ok key c k :
  key <> [] -> c <= LONG_MAX ->
  d4np_named_semaphore_open false true (Some key) c k =
    let '(h, k) := match names k !! key with Some o => open_handle o k | None => new_object (Some key) c k end in
    (D4NP_OK, Some (NSem h), k).
Proof.
  intros Hne Hc. unfold d4np_named_semaphore_open. rewrite bool_decide_eq_false_2 by done.
  rewrite (proj2 (Z.ltb_ge _ _)) by lia. cbn [negb orb]. unfold CreateSemaphore. simpl. by destruct (names k !! key).
Qed.

(** Closing the last handle: nothing of the object is left. *)
Lemma close_last h o k :
  handles k !! h = Some o -> (forall h', handles k !! h' = Some o -> h' = h) ->
  exists k', CloseHandle h k = Done k' /\ objects k' !! o = None /\ forall p, names k' !! p <> Some o.
Proof.
  intros Hh Hlast. unfold CloseHandle. rewrite Hh, decide_True; [eexists; split; [done|]|].
  - simpl. rewrite lookup_delete_eq. split; [done|]. intros p Hp%map_lookup_filter_Some. naive_solver.
  - intros h' o' [Hne Hh']%lookup_delete_Some ->. by destruct Hne; rewrite (Hlast _ Hh').
Qed.

(** ** Property *)

(** C28. Named semaphores on Windows: in every run of opens, closes, waits and
    posts of any processes, the count of each semaphore is what it was created
    with plus the posts that took effect minus the permits acquired, between 0
    and [LONG_MAX]; a handle that is open can be used and closed without
    undefined behaviour; a semaphore exists exactly as long as a handle to it
    does; opening a name that exists gives another handle to the same
    semaphore; and when its last handle is closed the name is free, so that
    opening it again starts from the count asked for. *)
Theorem nsem_win32_conserves tr k :
  run tr k ->
  (forall o c, objects k !! o = Some c -> c = total o tr /\ 0 <= c <= LONG_MAX) /\
  (forall h, is_Some (handles k !! h) ->
    d4np_named_semaphore_wait (Some (NSem h)) k <> Undefined /\
    d4np_named_semaphore_trywait (Some (NSem h)) k <> Undefined /\
    d4np_named_semaphore_post (Some (NSem h)) k <> Undefined /\
    d4np_named_semaphore_close (Some (NSem h)) k <> Undefined) /\
  (forall o, is_Some (objects k !! o) <-> exists h, handles k !! h = Some o) /\
  (forall key o c, key <> [] -> c <= LONG_MAX -> names k !! key = Some o ->
    exists h k', d4np_named_semaphore_open false true (Some key) c k = (D4NP_OK, Some (NSem h), k') /\
      handles k' !! h = Some o /\ objects k' = objects k) /\
  (forall key h o c, key <> [] -> c <= LONG_MAX -> names k !! key = Some o -> handles k !! h = Some o ->
    (forall h', handles k !! h' = Some o -> h' = h) ->
    exists k' h' k'', d4np_named_semaphore_close (Some (NSem h)) k = Done k' /\
      d4np_named_semaphore_open false true (Some key) c k' = (D4NP_OK, Some (NSem h'), k'') /\
      exists o', o' <> o /\ handles k'' !! h' = Some o' /\ objects k'' !! o' = Some c /\ objects k'' !! o = None).
Proof.
  intros Hr. destruct (nsem_win_run tr k Hr) as [Hk H1 _]. split_and!.
  - intros o c Ho. split; [auto|]. by eapply k_range.
  - intros h Hh. pose proof (Wait_defined _ INFINITE _ Hk Hh). pose proof (Wait_defined _ 0 _ Hk Hh).
    pose proof (Release_defined _ _ Hk Hh). simpl. split_and!; [by repeat case_match..|].
    destruct Hh as [o Hh]. unfold CloseHandle. rewrite Hh. by case_decide.
  - intros o. split; [intros [c Hc]; by eapply k_held|]. intros [h Hh]. by eapply k_live.
  - intros key o c Hne Hc Hn. rewrite win_open_ok by done. rewrite Hn. simpl. eexists _, _. split; [done|]. simpl.
    by rewrite lookup_insert_eq.
  - intros key h o c Hne Hc Hn Hh Hlast. destruct (close_last h o k Hh Hlast) as (k' & E & Ho & Hnames).
    pose proof (k_object_fresh _ Hk) as Hf. pose proof (CloseHandle_ok _ _ _ Hk E) as Hk'.
    pose proof (close_effect _ _ _ E) as (En & _ & _). destruct (k_name _ Hk _ _ Hn) as [x Hx%Hf].
    assert (names k' !! key = None) as Hnone.
    { destruct (names k' !! key) as [o'|] eqn:E'; [|done]. exfalso. revert E. unfold CloseHandle. rewrite Hh.
      case_decide; intros [= <-]; simpl in *; [|congruence]. apply map_lookup_filter_Some in E' as [? ?]. naive_solver. }
    eexists k', _, _. split; [done|]. rewrite win_open_ok, Hnone by done. simpl. split; [done|].
    exists (next k'). simpl. rewrite !lookup_insert_eq, En. rewrite lookup_insert_ne by lia. split_and!; [lia|done..].
Qed.

(** ** Witness *)

(** A process creates the semaphore [k] and takes its permit. *)
Definition w_trace : list event := [NamedSemaphore.ECreated 0 1; NamedSemaphore.EAcquired 0].

Definition w_system (c : Z) : kernel := Kernel {[ 0%nat := 0%nat ]} {[ 0%nat := c ]} {[ [107] := 0%nat ]} 1.

Lemma w_run : run w_trace (w_system 0).
Proof.
  refine (run_snoc [_] (w_system 1) _ _ _ (step_wait _ 0 0 _ _ _)); [|done..].
  refine (run_snoc [] boot _ _ _ (step_open _ false (Some [107]) 1 D4NP_OK (Some (NSem 0)) (w_system 1) _ _)); [|lia|done].
  constructor.
Qed.

Lemma nsem_win32_conserves_witness :
  total 0 w_trace = 0 /\
  d4np_named_semaphore_open false true (Some [107]) 9 (w_system 0) = (D4NP_OK, Some (NSem 1),
    Kernel {[ 0%nat := 0%nat; 1%nat := 0%nat ]} {[ 0%nat := 0 ]} {[ [107] := 0%nat ]} 2) /\
  d4np_named_semaphore_close (Some (NSem 0)) (w_system 0) <> Undefined.
Proof.
  destruct (nsem_win32_conserves w_trace (w_system 0) w_run) as (H1 & H2 & _). split_and!.
  - symmetry. by apply (H1 0%nat 0).
  - done.
  - apply (H2 0%nat). by eexists.
Defined.

End NamedSemaphoreWin32.
